(* ===== verification/_CoqProject ===== *)
-Q . S2P
Prelude.v
Errors.v
Keys.v
Envelope.v
Badger.v
BadgerMem.v
Store.v
StoreIter.v
StoreSpec.v
StoreRefine.v
StoreLoad.v
StoreCounts.v
StoreHistory.v
StoreTheorems.v
Heap.v
Backoff.v
Dispatch.v
DispatchInv.v
DispatchOps.v
DispatchTake.v
DispatchFill.v
DispatchCalls.v
DispatchTheorems.v
Queue.v
QueueInv.v
StoreLog.v
QueueTheorems.v
ReadRun.v
Consumer.v
ConsumerTheorems.v
Options.v
Log.v
LogRefine.v
LogConsumer.v
Factory.v
FactoryHistory.v
Typed.v
Lifecycle.v
FacadeTheorems.v
HistoryTheorems.v
TypedTheorems.v
