(* ===== verification/Prelude.v ===== *)
(** * A verification development of Teak

    Teak is an embedded durable queue in Go: named logs over one Badger
    database, each delivering its records under leases, at least once.  This
    library models the Go code of the package and proves what it promises.

    ** The program

    - internal/store keeps the records.  A stream has a tail, the pending records
      and the dead letters, each under a key of its kind and its sequence, and
      every call is one Badger transaction.
    - internal/dispatch schedules one stream in memory: the fresh lane that
      [fillFresh] fills from the store, the heap of retries, the leases by
      receipt, and the state of every tracked sequence.  It calls the store
      through [scan] and through the [persist] callbacks.
    - The facade ties them together: log.go brackets every method by
      [begin]/[end], checks who owns a delivery and maps the errors; factory.go
      opens the logs, runs the maintenance and closes everything; options.go
      holds the configuration; typed/typed.go puts a codec in front of a log.

    ** The files

    - Prelude: integers of 64 bits with their wrap-around, big-endian encodings,
      byte order, sorted lists; the tactics and the hint database [teak].
    - Errors: error values, [errors.Is], [mapError].
    - Keys, Envelope: internal/store/keys.go and envelope.go, the validation of
      names, the codecs with their round trips.
    - Badger: the classes [Badger] (the operations called), [BadgerSpec] (what
      their documentation promises) and [BadgerReliable], and the monad [txm]
      of transaction closures; BadgerMem is an instance.
    - Store: internal/store/store.go, every method of [Stream] and [Root].
      StoreSpec is the abstract queue and [represents], which relates it to the
      contents of a database; StoreIter, StoreRefine, StoreLoad and StoreCounts
      prove each operation against it; StoreHistory composes them over several
      streams and restarts; StoreTheorems states the properties.
    - Heap, Backoff: [retryHeap] under container/heap; [retryDelay] over IEEE
      binary64.
    - Dispatch: internal/dispatch/dispatch.go, one function per critical
      section.  DispatchInv is the invariant [dispatch_inv]; DispatchOps,
      DispatchTake, DispatchFill and DispatchCalls prove it kept and say what
      each method does on each branch; DispatchTheorems states the properties.
    - Queue: one log at work, a step relation whose readers have a program
      counter in [Read] and whose other steps are writes, [Notify] and the
      methods of the dispatcher.  The class [DurableLog] is what the dispatcher
      needs of a store, with its laws in [DurableLogSpec]; it says which record
      a sequence holds, contents included.  StoreLog discharges the laws with
      the real store.  QueueInv is the invariant, QueueTheorems the properties.
    - ReadRun: [Read] as one function, for the time in which nothing else runs,
      and that its rounds are steps of Queue.  Consumer: a client that reads and
      commits until there is nothing left.  ConsumerTheorems: what both achieve,
      down to the store.
    - Options, Log, Factory, Typed: options.go, log.go, factory.go and
      typed/typed.go; LogRefine proves the methods of a log against the queue,
      effects and answers; LogConsumer is the client of Consumer on the methods
      of a log.
    - FactoryHistory: the public calls on a factory as events, with processes
      that end and start again; the invariant [process_inv] ties every log to its
      queue.  HistoryTheorems states what holds of every history, TypedTheorems
      what a typed log writes and reads.
    - Lifecycle: the shutdown of a factory as a step relation over its goroutines,
      the lock [gcMu] and the notification channels of its logs; its invariant,
      its progress and its measure.  FacadeTheorems states the properties of the
      facade, and shows that [begin], [end], [close], a notification and [wait]
      take the steps of Lifecycle ([begin_steps], [end_steps], [close_steps],
      [notify_steps], [wait_steps]).

    ** What the theorems show

    - The whole package (HistoryTheorems): any history of public calls, restarts
      and crashes refines a family of durable queues, one per name; after it a
      consumer gets every record that was written and not completed, once, in
      order, byte for byte.
    - The store (StoreTheorems): every operation does what the abstract queue
      does or nothing at all; histories with restarts refine a family of queues;
      sequences are never reused; streams do not touch each other; [load]
      accepts exactly the well-formed contents.
    - The dispatcher (DispatchTheorems): expiry, validation, leasing with its
      rollback, completion and retry are exact and all or nothing; the two lanes
      are both served; the delays are bounded and monotone.
    - A log read to its end (ConsumerTheorems): [Read] leases something, fails or
      waits after two rounds of its loop; a consumer gets every record once, in
      order and unchanged; what was written to an empty log is what is read.
    - A log at work (QueueTheorems): in every reachable state no record is leased
      twice, forgotten, or delivered after it was completed; and the
      executions in which a blocked reader is left behind, or ignores its
      context, are exhibited.
    - The facade (FacadeTheorems): each method is atomic on the queue and lets no
      error out that [mapError] replaces; options are values; [Close] closes the
      storage last, ends unless two calls of [Read] wait on one log
      ([Close_terminates], [Close_can_wait]), and is final; maintenance survives
      its failures; the typed log loses no lease and reads the values it wrote
      (TypedTheorems).

    ** Conventions

    Integers are [Z]; where Go wraps around the model says so ([u64], [i64]),
    and the results of operations that cannot wrap are proved in range.  Instants
    are nanoseconds since the epoch, the zero [time.Time] is [zero_time].  A
    method that panics or fails returns the state as the code leaves it.  What
    the code reads from outside is an argument: the clock, the random receipts,
    the order in which [range] visits a map, the codec, the contexts.

    ** Fuel

    [heap_up] and [heap_down] have the length of the heap as fuel, more than the
    depth they can move ([heap_up_spec], [heap_down_spec]).  The other bounds are
    the code's own: [unique_loop] tries [receiptCollisionLimit] receipts,
    [take_loop] takes at most [count] records, [retry_loop] doubles at most
    [attempt - 1] times.  Loops over an iterator recurse on the items left.
    [Read_loop] recurses on the instants its clock gives: two are enough
    (ReadRun); [consume] and [drain] need one more than there are records
    (Consumer).

    ** Not modelled

    Badger, encoding/json, crypto/rand, log/slog and the Go runtime are not part
    of the repository: the first is a class, receipts and codecs are parameters,
    logging has no effect on the state.  [firstSequence] only feeds the log.
    Messages of errors are their format strings.  Memory is sequentially
    consistent, since all shared state is under locks or atomic; a critical
    section is one step.  [beforeCommit] hooks are the constant results they
    give.  Payloads are values: [AppendBatch] copies the caller's bytes into the
    envelope, and [wrap] copies a payload before it leaves the log. *)
From stdpp Require Export prelude gmap strings list sorting.
From Stdlib Require Export ZArith Lia.
From Stdlib Require Import Strings.Byte.

#[global] Set Default Goal Selector "!".
#[local] Open Scope Z_scope.

(** ** Tactics *)

(** Case analysis on the discriminee of a match or an if in the goal or in a
    hypothesis, keeping the equation. *)
Ltac case_goal :=
  match goal with
  | |- context [match ?x with _ => _ end] => destruct x eqn:?
  end.

Ltac case_hyp H :=
  match type of H with
  | context [match ?x with _ => _ end] => destruct x eqn:?
  end.

(** Turns boolean comparisons on [Z] in the context into propositions. *)
Ltac zbool :=
  repeat match goal with
  | H : (_ && _)%bool = true |- _ => apply andb_true_iff in H as [? ?]
  | H : (_ || _)%bool = false |- _ => apply orb_false_iff in H as [? ?]
  | H : negb _ = true |- _ => apply negb_true_iff in H
  | H : negb _ = false |- _ => apply negb_false_iff in H
  | H : (_ <? _) = true |- _ => apply Z.ltb_lt in H
  | H : (_ <? _) = false |- _ => apply Z.ltb_ge in H
  | H : (_ <=? _) = true |- _ => apply Z.leb_le in H
  | H : (_ <=? _) = false |- _ => apply Z.leb_gt in H
  | H : (_ =? _) = true |- _ => apply Z.eqb_eq in H
  | H : (_ =? _) = false |- _ => apply Z.eqb_neq in H
  end.

(** [lia] with division and remainder by constants. *)
Ltac zmod := Z.div_mod_to_equations; lia.

(** ** Results of fallible code

    Go functions that return [(value, error)] return [result E A]: [Ok] is a nil
    error with its value, [Err] a non-nil error. *)
Inductive result (E A : Type) : Type :=
| Ok (a : A)
| Err (e : E).
Arguments Ok {E A} a.
Arguments Err {E A} e.

#[global] Instance result_ret {E} : MRet (result E) := fun A a => Ok a.
#[global] Instance result_bind {E} : MBind (result E) := fun A B f m =>
  match m with Ok a => f a | Err e => Err e end.
#[global] Instance result_fmap {E} : FMap (result E) := fun A B f m =>
  match m with Ok a => Ok (f a) | Err e => Err e end.

Definition is_Ok {E A} (r : result E A) : Prop := ∃ a, r = Ok a.

Section result_lemmas.
Context {E : Type}.

Lemma bind_Ok {A B} (f : A → result E B) (m : result E A) b :
  m ≫= f = Ok b → ∃ a, m = Ok a ∧ f a = Ok b.
Proof. destruct m as [a|e]; [by exists a|done]. Qed.

Lemma bind_Err {A B} (f : A → result E B) (m : result E A) e :
  m ≫= f = Err e → m = Err e ∨ ∃ a, m = Ok a ∧ f a = Err e.
Proof. destruct m as [a|e']; simpl; intros H; [by right; exists a|left; congruence]. Qed.

End result_lemmas.

(** Splits every [m ≫= f = Ok b] of the context into its two halves. *)
Ltac inv_bind :=
  repeat match goal with
  | H : _ ≫= _ = Ok _ |- _ => apply bind_Ok in H as (? & ? & ?)
  | H : Ok _ = Ok _ |- _ => injection H as H
  | H : Err _ = Ok _ |- _ => discriminate H
  | H : Ok _ = Err _ |- _ => discriminate H
  end; simplify_eq/=.

(** ** Machine integers

    A Go integer is a [Z]; the operations that can leave its range reduce the
    result explicitly. *)
Definition max_uint64 : Z := 18446744073709551615.
Definition max_uint32 : Z := 4294967295.
Definition u64 (z : Z) : Z := z mod 2 ^ 64.
Definition u32 (z : Z) : Z := z mod 2 ^ 32.

(** [int64(x)] for [x] of type [uint64]: two's complement reinterpretation. *)
Definition i64 (z : Z) : Z :=
  if u64 z <? 2 ^ 63 then u64 z else u64 z - 2 ^ 64.

Definition is_u64 (z : Z) : Prop := 0 ≤ z < 2 ^ 64.
Definition is_u32 (z : Z) : Prop := 0 ≤ z < 2 ^ 32.
Definition is_i64 (z : Z) : Prop := - 2 ^ 63 ≤ z < 2 ^ 63.

Create HintDb teak.
#[export] Hint Unfold is_u64 is_u32 is_i64 max_uint64 max_uint32 : teak.

Lemma u64_range z : is_u64 (u64 z).
Proof. unfold is_u64, u64. zmod. Qed.

Lemma u64_id z : is_u64 z → u64 z = z.
Proof. unfold is_u64, u64. intros. zmod. Qed.

Lemma i64_range z : is_i64 (i64 z).
Proof. unfold is_i64, i64, u64. case_match; zbool; zmod. Qed.

Lemma i64_le z : 0 ≤ z → i64 z ≤ z.
Proof. unfold i64, u64. intros. case_match; zbool; zmod. Qed.

Lemma i64_id z : is_i64 z → i64 z = z.
Proof. unfold is_i64, i64, u64. intros. case_match; zbool; zmod. Qed.

Lemma i64_u64 z : is_i64 z → i64 (u64 z) = z.
Proof. unfold is_i64, i64, u64. intros. case_match; zbool; zmod. Qed.

Lemma u64_i64 z : is_u64 z → u64 (i64 z) = z.
Proof. unfold is_u64, i64, u64. intros. case_match; zbool; zmod. Qed.

Lemma u32_id z : is_u32 z → u32 z = z.
Proof. unfold is_u32, u32. intros. zmod. Qed.

#[export] Hint Resolve u64_range i64_range : teak.

(** ** Finite maps *)

Lemma size_delete_Some `{Countable K} {A} (m : gmap K A) k x : m !! k = Some x → size m = S (size (delete k m)).
Proof. intros Hm. rewrite <- (insert_delete_id m k x) at 1 by done. by rewrite map_size_insert_None by apply lookup_delete_eq. Qed.

(** ** Bytes *)

Abbreviation bytes := (list byte).

Definition Z_of_byte (b : byte) : Z := Z.of_N (Byte.to_N b).
Definition byte_of_Z (z : Z) : byte :=
  match Byte.of_N (Z.to_N (z mod 256)) with Some b => b | None => x00 end.

Lemma Z_of_byte_range b : 0 ≤ Z_of_byte b < 256.
Proof. unfold Z_of_byte. pose proof (Byte.to_N_bounded b). lia. Qed.

Lemma byte_of_Z_of_byte b : byte_of_Z (Z_of_byte b) = b.
Proof.
  unfold byte_of_Z. rewrite Z.mod_small by apply Z_of_byte_range.
  unfold Z_of_byte. by rewrite N2Z.id, Byte.of_to_N.
Qed.

Lemma Z_of_byte_of_Z z : Z_of_byte (byte_of_Z z) = z mod 256.
Proof.
  unfold byte_of_Z. pose proof (Z.mod_pos_bound z 256 ltac:(lia)) as Hz.
  destruct (Byte.of_N _) as [b|] eqn:Hb.
  - apply Byte.to_of_N in Hb. unfold Z_of_byte. rewrite Hb. lia.
  - pose proof (Byte.to_of_N_option_map (Z.to_N (z mod 256))) as Hm.
    rewrite Hb in Hm. simpl in Hm. destruct (_ <=? _)%N eqn:Hle; [done|].
    apply N.leb_gt in Hle. lia.
Qed.

#[global] Instance Z_of_byte_inj : Inj (=) (=) Z_of_byte.
Proof. intros a b H. by rewrite <- (byte_of_Z_of_byte a), H, byte_of_Z_of_byte. Qed.

#[global] Instance byte_eq_dec : EqDecision byte.
Proof. refine (λ a b, cast_if (decide (Z_of_byte a = Z_of_byte b))); [by apply Z_of_byte_inj|congruence]. Defined.

#[global] Instance byte_countable : Countable byte :=
  inj_countable' Z_of_byte byte_of_Z byte_of_Z_of_byte.

(** ** Big-endian integers: [encoding/binary.BigEndian] *)

(** The [n] bytes that [AppendUint32] ([n = 4]) and [AppendUint64] ([n = 8])
    append. *)
Fixpoint be_encode (n : nat) (z : Z) : bytes :=
  match n with
  | O => []
  | S n => byte_of_Z (z / 256 ^ Z.of_nat n) :: be_encode n z
  end.

(** [Uint32] and [Uint64] of a slice of exactly that many bytes. *)
Fixpoint be_decode_from (acc : Z) (l : bytes) : Z :=
  match l with
  | [] => acc
  | b :: l => be_decode_from (acc * 256 + Z_of_byte b) l
  end.
Definition be_decode (l : bytes) : Z := be_decode_from 0 l.

Lemma length_be_encode n z : length (be_encode n z) = n.
Proof. induction n; simpl; congruence. Qed.

Lemma be_decode_from_acc acc l :
  be_decode_from acc l = acc * 256 ^ Z.of_nat (length l) + be_decode l.
Proof.
  unfold be_decode. revert acc. induction l as [|b l IH]; intros acc; simpl be_decode_from.
  - simpl. lia.
  - rewrite IH, (IH (0 * 256 + _)). simpl length. rewrite Nat2Z.inj_succ, Z.pow_succ_r by lia. lia.
Qed.

Lemma be_decode_cons b l :
  be_decode (b :: l) = Z_of_byte b * 256 ^ Z.of_nat (length l) + be_decode l.
Proof. unfold be_decode at 1. simpl. rewrite be_decode_from_acc. lia. Qed.

Lemma be_decode_range l : 0 ≤ be_decode l < 256 ^ Z.of_nat (length l).
Proof.
  induction l as [|b l IH]; [unfold be_decode; simpl; lia|].
  rewrite be_decode_cons. pose proof (Z_of_byte_range b).
  simpl length. rewrite Nat2Z.inj_succ, Z.pow_succ_r by lia. nia.
Qed.

Lemma be_decode_encode_mod n z :
  be_decode (be_encode n z) = z mod 256 ^ Z.of_nat n.
Proof.
  induction n as [|n IH]; simpl be_encode; [unfold be_decode; simpl; by rewrite Z.mod_1_r|].
  rewrite be_decode_cons, length_be_encode, Z_of_byte_of_Z, IH.
  rewrite Nat2Z.inj_succ, Z.pow_succ_r by lia.
  rewrite (Z.mul_comm 256), Z.rem_mul_r by lia. lia.
Qed.

Lemma be_decode_encode n z :
  0 ≤ z < 256 ^ Z.of_nat n → be_decode (be_encode n z) = z.
Proof. intros. by rewrite be_decode_encode_mod, Z.mod_small. Qed.

Lemma be_encode_add n z k :
  be_encode n (k * 256 ^ Z.of_nat n + z) = be_encode n z.
Proof.
  revert z k. induction n as [|n IH]; intros z k; [done|]. simpl be_encode.
  assert (Hp : k * 256 ^ Z.of_nat (S n) = (k * 256) * 256 ^ Z.of_nat n)
    by (rewrite Nat2Z.inj_succ, Z.pow_succ_r by lia; lia).
  rewrite Hp, IH, Z.add_comm, Z.div_add by lia.
  f_equal. apply Z_of_byte_inj. rewrite !Z_of_byte_of_Z, Z.add_comm.
  by rewrite Z.add_comm, Z.mod_add.
Qed.

Lemma be_encode_mod n z : be_encode n (z mod 256 ^ Z.of_nat n) = be_encode n z.
Proof.
  rewrite <- (be_encode_add n (z mod _) (z / 256 ^ Z.of_nat n)). f_equal.
  rewrite (Z.mul_comm (z / _)). symmetry. apply Z.div_mod. lia.
Qed.

Lemma be_encode_decode l : be_encode (length l) (be_decode l) = l.
Proof.
  induction l as [|b l IH]; [done|]. simpl length. simpl be_encode.
  rewrite be_decode_cons. f_equal.
  - rewrite Z.add_comm, Z.div_add, Z.div_small by (first [apply be_decode_range | lia]).
    apply byte_of_Z_of_byte.
  - by rewrite be_encode_add.
Qed.

Lemma be_encode_inj n x y :
  0 ≤ x < 256 ^ Z.of_nat n → 0 ≤ y < 256 ^ Z.of_nat n →
  be_encode n x = be_encode n y → x = y.
Proof.
  intros Hx Hy He. by rewrite <- (be_decode_encode n x), He, be_decode_encode.
Qed.

Lemma be_decode_inj l k : length l = length k → be_decode l = be_decode k → l = k.
Proof.
  intros Hl He. by rewrite <- (be_encode_decode l), Hl, He, be_encode_decode.
Qed.

#[global] Arguments be_encode : simpl never.
#[global] Arguments be_decode : simpl never.

(** ** The byte order of keys: [bytes.Compare] *)

Fixpoint bytes_leb (a b : bytes) : bool :=
  match a, b with
  | [], _ => true
  | _ :: _, [] => false
  | x :: a, y :: b =>
      if Z_of_byte x <? Z_of_byte y then true
      else if Z_of_byte y <? Z_of_byte x then false else bytes_leb a b
  end.
Definition bytes_le (a b : bytes) : Prop := bytes_leb a b = true.

#[global] Instance bytes_le_dec a b : Decision (bytes_le a b).
Proof. unfold bytes_le. apply _. Defined.

Lemma bytes_le_cons x a y b :
  bytes_le (x :: a) (y :: b) ↔
  Z_of_byte x < Z_of_byte y ∨ (x = y ∧ bytes_le a b).
Proof.
  unfold bytes_le. simpl. split.
  - repeat case_match; zbool; intros; try done; [by left|].
    right. split; [apply Z_of_byte_inj; lia|done].
  - intros [H|[-> H]].
    + by rewrite (proj2 (Z.ltb_lt _ _) H).
    + by rewrite Z.ltb_irrefl.
Qed.

#[global] Instance bytes_le_refl : Reflexive bytes_le.
Proof. intros a. induction a; [done|]. apply bytes_le_cons. by right. Qed.

#[global] Instance bytes_le_trans : Transitive bytes_le.
Proof.
  intros a. induction a as [|x a IH]; intros [|y b] [|z c] H1 H2; try done.
  apply bytes_le_cons in H1, H2. apply bytes_le_cons.
  destruct H1 as [?|[-> ?]], H2 as [?|[-> ?]]; [left; lia|by left|by left|right; eauto].
Qed.

#[global] Instance bytes_le_total : Total bytes_le.
Proof.
  intros a. induction a as [|x a IH]; intros [|y b]; [by left|by left|by right|].
  rewrite !bytes_le_cons.
  destruct (Z.lt_trichotomy (Z_of_byte x) (Z_of_byte y)) as [?|[?%(inj _)|?]]; [tauto| |tauto].
  destruct (IH b); subst; tauto.
Qed.

#[global] Instance bytes_le_antisymm : AntiSymm (=) bytes_le.
Proof.
  intros a. induction a as [|x a IH]; intros [|y b] H1 H2; try done.
  apply bytes_le_cons in H1, H2.
  destruct H1 as [?|[-> ?]], H2 as [?|[? ?]]; subst; try lia. f_equal. by apply IH.
Qed.

Lemma bytes_le_app p a b : bytes_le (p ++ a) (p ++ b) ↔ bytes_le a b.
Proof.
  induction p as [|x p IH]; [done|]. simpl. rewrite bytes_le_cons, IH. split; [|tauto].
  intros [?|?]; [lia|tauto].
Qed.

Lemma bytes_le_prefix p k : p `prefix_of` k → bytes_le p k.
Proof. intros [l ->]. rewrite <- (app_nil_r p) at 1. by apply bytes_le_app. Qed.

(** On equal lengths the byte order is the order of the big-endian values. *)
Lemma bytes_le_decode a b :
  length a = length b → (bytes_le a b ↔ be_decode a ≤ be_decode b).
Proof.
  revert b. induction a as [|x a IH]; intros [|y b] Hl; simplify_eq/=; [done|].
  rewrite bytes_le_cons, !be_decode_cons, IH, Hl by done.
  pose proof (be_decode_range a) as Ha. pose proof (be_decode_range b) as Hb. rewrite Hl in Ha.
  set (P := 256 ^ Z.of_nat (length b)) in *.
  destruct (Z.lt_trichotomy (Z_of_byte x) (Z_of_byte y)) as [?|[?%(inj _)|?]].
  - split; [nia|by left].
  - subst. split; [intros [?|[_ ?]]; lia|right; split; [done|lia]].
  - split; [intros [?|[-> _]]; lia|nia].
Qed.

(** Keys with a common prefix are contiguous in the byte order. *)
Lemma bytes_le_prefix_between p a b c :
  p `prefix_of` a → p `prefix_of` c → bytes_le a b → bytes_le b c → p `prefix_of` b.
Proof.
  revert a b c. induction p as [|x p IH]; intros a b c [a' ->] [c' ->] H1 H2; [apply prefix_nil|].
  destruct b as [|y b]; [done|]. simpl in *. apply bytes_le_cons in H1, H2.
  destruct H1 as [?|[-> H1]], H2 as [?|[? H2]]; subst; try lia.
  apply prefix_cons. eapply (IH (p ++ a') b (p ++ c')); eauto using prefix_app_r.
Qed.

(** Two extensions of one prefix that differ at once. *)
Lemma prefix_app_differ {A} (p a b k : list A) :
  length a = length b → a ≠ b → ¬ (p ++ a) `prefix_of` (p ++ b ++ k).
Proof.
  intros Hl Hne [l H]. rewrite <- app_assoc in H. apply app_inv_head in H.
  destruct (app_inj_1 _ _ _ _ (eq_sym Hl) H) as [He _]. by apply Hne.
Qed.

#[export] Hint Resolve bytes_le_refl bytes_le_prefix length_be_encode : teak.
