(* ===== verification/Errors.v ===== *)
(** * Go error values, [errors.Is] and the facade's [mapError]

    An error value is the tree that [errors.Unwrap] exposes: a sentinel, an
    opaque error created where it is returned, or a [fmt.Errorf] value with the
    operands of its [%w] verbs.  The text of a message (and so the operands of
    [%v], [%d], [%q] and [%s]) is not modelled beyond the format string: no code
    of the repository branches on it.  A Go function that returns only an
    [error] returns [option goerr], with [None] for nil. *)
From S2P Require Import Prelude.

(** The sentinels of every package, named as in the code. *)
Inductive sentinel : Set :=
(* internal/store/envelope.go and store.go *)
| store_ErrCorruptEnvelope
| store_ErrUnsupportedEnvelope
| store_ErrValueTooLarge
| store_ErrInvalidStreamName
| store_ErrNotFound
| store_ErrSeqExhausted
| store_ErrClosed
| store_ErrInvalidBatchSize
| store_ErrBatchTooLarge
| store_ErrUnsupportedSchema
| store_ErrNoRewrite
| store_ErrTailRegression
| store_ErrStateConflict
(* internal/dispatch/dispatch.go *)
| dispatch_ErrClosed
| dispatch_ErrInvalidCount
| dispatch_ErrInvalidConfig
| dispatch_ErrStaleDelivery
| dispatch_ErrInvalidExtension
(* teak.go *)
| ErrClosed
| ErrInvalidOptions
| ErrInvalidName
| ErrInvalidCount
| ErrInvalidDelivery
| ErrInvalidDeadLetter
| ErrStaleDelivery
| ErrInvalidExtension
| ErrNotFound
| ErrBatchTooLarge
| ErrSequenceExhausted
| ErrCorruptStorage
(* typed/typed.go *)
| typed_ErrCodecPanic
(* the standard library and Badger *)
| context_Canceled
| context_DeadlineExceeded
| badger_ErrKeyNotFound
| badger_ErrTxnTooBig
| badger_ErrNoRewrite.

#[global] Instance sentinel_eq_dec : EqDecision sentinel.
Proof. solve_decision. Defined.

Inductive goerr : Set :=
| Sentinel (s : sentinel)
| NewError (text : string)
| Errorf (format : string) (wrapped : list goerr)
| CodecPanicError (Operation Value : string).

Abbreviation res := (result goerr).

(** [errors.Is] against a sentinel: equality, then every unwrapped error. A
    [CodecPanicError] unwraps to [ErrCodecPanic] (typed/typed.go). *)
Fixpoint errors_Is (err : goerr) (target : sentinel) : bool :=
  match err with
  | Sentinel s => bool_decide (s = target)
  | NewError _ => false
  | Errorf _ wrapped => existsb (λ e, errors_Is e target) wrapped
  | CodecPanicError _ _ => bool_decide (typed_ErrCodecPanic = target)
  end.

(** Whether [errors.Is] holds for one of several targets. *)
Definition errors_Is_any (err : goerr) (targets : list sentinel) : bool :=
  existsb (errors_Is err) targets.

(** factory.go: [mapError], its cases in order. *)
Definition mapError (err : option goerr) : option goerr :=
  match err with
  | None => None
  | Some e =>
      Some (
        if errors_Is_any e [dispatch_ErrClosed; store_ErrClosed]
        then Errorf "%w: %v" [Sentinel ErrClosed]
        else if errors_Is_any e [dispatch_ErrInvalidCount; store_ErrInvalidBatchSize]
        then Errorf "%w: %v" [Sentinel ErrInvalidCount]
        else if errors_Is e dispatch_ErrInvalidConfig
        then Errorf "%w: %v" [Sentinel ErrInvalidOptions]
        else if errors_Is e store_ErrInvalidStreamName
        then Errorf "%w: %v" [Sentinel ErrInvalidName]
        else if errors_Is e dispatch_ErrStaleDelivery
        then Errorf "%w: %v" [Sentinel ErrStaleDelivery]
        else if errors_Is e dispatch_ErrInvalidExtension
        then Errorf "%w: %v" [Sentinel ErrInvalidExtension]
        else if errors_Is e store_ErrNotFound
        then Errorf "%w: %v" [Sentinel ErrNotFound]
        else if errors_Is e store_ErrBatchTooLarge
        then Errorf "%w: %v" [Sentinel ErrBatchTooLarge]
        else if errors_Is e store_ErrSeqExhausted
        then Errorf "%w: %v" [Sentinel ErrSequenceExhausted]
        else if errors_Is_any e [store_ErrCorruptEnvelope; store_ErrUnsupportedEnvelope;
                                 store_ErrUnsupportedSchema; store_ErrTailRegression;
                                 store_ErrStateConflict]
        then Errorf "%w: %w" [Sentinel ErrCorruptStorage; e]
        else e)
  end.

(** The internal sentinels the facade replaces (they never reach a caller), and
    the ones it wraps together with [ErrCorruptStorage]; [store_ErrValueTooLarge]
    is in neither list. *)
Definition replaced_sentinels : list sentinel :=
  [dispatch_ErrClosed; store_ErrClosed; dispatch_ErrInvalidCount; store_ErrInvalidBatchSize;
   dispatch_ErrInvalidConfig; store_ErrInvalidStreamName; dispatch_ErrStaleDelivery;
   dispatch_ErrInvalidExtension; store_ErrNotFound; store_ErrBatchTooLarge; store_ErrSeqExhausted].

Definition corruption_sentinels : list sentinel :=
  [store_ErrCorruptEnvelope; store_ErrUnsupportedEnvelope; store_ErrUnsupportedSchema;
   store_ErrTailRegression; store_ErrStateConflict].

Lemma errors_Is_Sentinel s t : errors_Is (Sentinel s) t = bool_decide (s = t).
Proof. done. Qed.

Lemma errors_Is_wrap1 f e t : errors_Is (Errorf f [e]) t = errors_Is e t.
Proof. simpl. by rewrite orb_false_r. Qed.

Lemma errors_Is_wrap2 f e1 e2 t :
  errors_Is (Errorf f [e1; e2]) t = errors_Is e1 t || errors_Is e2 t.
Proof. simpl. by rewrite orb_false_r. Qed.

Lemma errors_Is_any_elem e s l :
  s ∈ l → errors_Is_any e l = false → errors_Is e s = false.
Proof.
  intros Hin H. apply not_true_iff_false. intros Hs. apply not_true_iff_false in H.
  apply H. apply existsb_exists. exists s. split; [by apply list_elem_of_In|done].
Qed.

(** Splits a goal about [mapError (Some e)] along its cases. *)
Ltac case_mapError :=
  unfold mapError;
  repeat match goal with |- context [if ?b then _ else _] => destruct b eqn:? end.

(** What a caller can test on a mapped error: nothing internal but corruption. *)
Lemma mapError_hides_lemma e e' s :
  mapError (Some e) = Some e' → s ∈ replaced_sentinels → errors_Is e' s = false.
Proof.
  intros Hm Hs. unfold replaced_sentinels in Hs.
  repeat (apply elem_of_cons in Hs as [->|Hs]); try (by apply elem_of_nil in Hs);
    revert Hm; case_mapError; intros [= <-]; try reflexivity;
    rewrite ?errors_Is_wrap2; try (apply orb_false_intro; [reflexivity|]);
    first [ assumption
          | match goal with H : errors_Is_any e ?l = false |- _ =>
              apply (errors_Is_any_elem e _ l); [rewrite !elem_of_cons; tauto|exact H] end ].
Qed.

(** Errors that match none of the replaced sentinels are kept, wrapped with
    [ErrCorruptStorage] exactly when they report corruption. *)
Lemma mapError_corrupt_lemma e :
  errors_Is_any e replaced_sentinels = false →
  mapError (Some e) = Some (if errors_Is_any e corruption_sentinels
                            then Errorf "%w: %w" [Sentinel ErrCorruptStorage; e] else e).
Proof.
  intros H. unfold replaced_sentinels, errors_Is_any in H. simpl in H.
  repeat (apply orb_false_iff in H as [? H]).
  unfold mapError, errors_Is_any. simpl.
  repeat match goal with E : errors_Is e _ = false |- _ => rewrite E; clear E end. done.
Qed.
