(* ===== verification/Keys.v ===== *)
(** * Stream names and the key layout (internal/store/keys.go)

    A Go string is a [string] (its bytes are the characters' codes), a [[]byte]
    is [bytes].  [ValidateStreamName] of internal/store/store.go is here too,
    because the layout is unambiguous exactly for the names it accepts. *)
From S2P Require Import Prelude Errors.
From Stdlib Require Import Strings.Byte.
#[local] Open Scope Z_scope.

(** [[]byte(s)] and [len(s)]. *)
Definition string_bytes (s : string) : bytes := String.list_byte_of_string s.
Definition string_of_bytes (b : bytes) : string := String.string_of_list_byte b.
Definition len {A} (l : list A) : Z := Z.of_nat (length l).
Definition string_len (s : string) : Z := len (string_bytes s).

(** ** internal/store/keys.go *)

Definition seqLen : nat := 8.

Definition sequenceKey (prefix : bytes) (seq : Z) : bytes := prefix ++ be_encode 8 seq.

Definition pendingPrefix (stream : string) : bytes := string_bytes ("t/" +:+ stream +:+ "/d/").
Definition pendingKey (stream : string) (seq : Z) : bytes := sequenceKey (pendingPrefix stream) seq.
Definition deadPrefix (stream : string) : bytes := string_bytes ("t/" +:+ stream +:+ "/x/").
Definition deadKey (stream : string) (seq : Z) : bytes := sequenceKey (deadPrefix stream) seq.
Definition metaKey (stream name : string) : bytes := string_bytes ("t/" +:+ stream +:+ "/m/" +:+ name).

Definition parseSequence (prefix key : bytes) : option Z :=
  if negb (length key =? length prefix + seqLen)%nat
     || negb (bool_decide (take (length prefix) key = prefix))
  then None
  else Some (be_decode (drop (length prefix) key)).

(** ** internal/store/store.go: ValidateStreamName *)

Definition in_range (lo hi : byte) (c : byte) : bool :=
  (Z_of_byte lo <=? Z_of_byte c) && (Z_of_byte c <=? Z_of_byte hi).

(** The characters the switch of the loop accepts. *)
Definition stream_character (c : byte) : bool :=
  in_range "a" "z" c || in_range "A" "Z" c || in_range "0" "9" c
  || bool_decide (c = "."%byte) || bool_decide (c = "_"%byte) || bool_decide (c = "-"%byte).

Definition ValidateStreamName (name : string) : option goerr :=
  if (string_len name =? 0) || (100 <? string_len name)
  then Some (Errorf "%w: %q" [Sentinel store_ErrInvalidStreamName])
  else if forallb stream_character (string_bytes name) then None
  else Some (Errorf "%w: %q" [Sentinel store_ErrInvalidStreamName]).

Definition valid_name (name : string) : Prop := ValidateStreamName name = None.

(** ** Lemmas *)

Lemma string_bytes_app s t : string_bytes (s +:+ t) = string_bytes s ++ string_bytes t.
Proof.
  unfold string_bytes, String.list_byte_of_string.
  induction s as [|c s IH]; [done|]. simpl. f_equal. exact IH.
Qed.

#[global] Instance string_bytes_inj : Inj (=) (=) string_bytes.
Proof.
  intros s t H. unfold string_bytes in H.
  by rewrite <- (String.string_of_list_byte_of_string s), H, String.string_of_list_byte_of_string.
Qed.

Lemma string_of_bytes_string s : string_of_bytes (string_bytes s) = s.
Proof. apply String.string_of_list_byte_of_string. Qed.

Lemma string_bytes_of_bytes b : string_bytes (string_of_bytes b) = b.
Proof. apply String.list_byte_of_string_of_list_byte. Qed.

Lemma length_sequenceKey p seq : length (sequenceKey p seq) = (length p + seqLen)%nat.
Proof. unfold sequenceKey. by rewrite length_app, length_be_encode. Qed.

Lemma sequenceKey_prefix p seq : p `prefix_of` sequenceKey p seq.
Proof. by eexists. Qed.

Lemma sequenceKey_inj p a b : is_u64 a → is_u64 b → sequenceKey p a = sequenceKey p b → a = b.
Proof. intros Ha Hb He%app_inv_head%be_encode_inj; [done|apply Ha|apply Hb]. Qed.

Lemma sequenceKey_le p a b :
  is_u64 a → is_u64 b → (bytes_le (sequenceKey p a) (sequenceKey p b) ↔ a ≤ b).
Proof.
  intros Ha Hb. unfold sequenceKey. rewrite bytes_le_app, bytes_le_decode by by rewrite !length_be_encode.
  by rewrite !be_decode_encode.
Qed.

Lemma parseSequence_key p seq : is_u64 seq → parseSequence p (sequenceKey p seq) = Some seq.
Proof.
  intros H. unfold parseSequence. rewrite length_sequenceKey, Nat.eqb_refl. unfold sequenceKey.
  rewrite take_app_length, drop_app_length, bool_decide_true by done. simpl.
  by rewrite be_decode_encode.
Qed.

Lemma parseSequence_Some p key seq :
  parseSequence p key = Some seq ↔ key = sequenceKey p seq ∧ is_u64 seq.
Proof.
  split; [|by intros [-> ?]; apply parseSequence_key].
  unfold parseSequence. destruct (_ =? _)%nat eqn:Hl; [|done].
  case_bool_decide as Hp; [|done]. intros [= <-]. apply Nat.eqb_eq in Hl.
  assert (Hd : length (drop (length p) key) = 8%nat) by (rewrite length_drop, Hl; unfold seqLen; lia).
  split.
  - unfold sequenceKey. rewrite <- Hd, be_encode_decode. rewrite <- Hp at 1. by rewrite take_drop.
  - pose proof (be_decode_range (drop (length p) key)) as Hr. rewrite Hd in Hr. exact Hr.
Qed.

#[export] Hint Resolve sequenceKey_prefix : teak.

(** *** Stream isolation *)

Definition slash : byte := "/"%byte.

Lemma stream_character_slash : stream_character slash = false.
Proof. reflexivity. Qed.

(** A valid name has no separator in it. *)
Lemma valid_name_no_slash name : valid_name name → slash ∉ string_bytes name.
Proof.
  unfold valid_name, ValidateStreamName. case_match; [done|].
  destruct (forallb _ _) eqn:Hf; [|done]. intros _ Hin%list_elem_of_In.
  rewrite forallb_forall in Hf. specialize (Hf _ Hin). by rewrite stream_character_slash in Hf.
Qed.

(** Everything a stream stores sits under this prefix. *)
Definition streamPrefix (stream : string) : bytes := string_bytes ("t/" +:+ stream +:+ "/").

Lemma separator_split (a b x y : bytes) :
  slash ∉ a → slash ∉ b → a ++ slash :: x = b ++ slash :: y → a = b ∧ x = y.
Proof.
  revert b. induction a as [|c a IH]; intros [|d b] Ha Hb H; simplify_eq/=.
  - done.
  - rewrite elem_of_cons in Hb. tauto.
  - rewrite elem_of_cons in Ha. tauto.
  - apply not_elem_of_cons in Ha as [_ Ha], Hb as [_ Hb]. by destruct (IH b) as [-> ->].
Qed.

Lemma streamPrefix_bytes stream :
  streamPrefix stream = "t"%byte :: slash :: string_bytes stream ++ [slash].
Proof. unfold streamPrefix. by rewrite !string_bytes_app. Qed.

Lemma streamPrefix_inj s t key :
  valid_name s → valid_name t →
  streamPrefix s `prefix_of` key → streamPrefix t `prefix_of` key → s = t.
Proof.
  intros Hs%valid_name_no_slash Ht%valid_name_no_slash [k ->] [k' Hk].
  rewrite !streamPrefix_bytes in Hk. simpl in Hk. rewrite <- !app_assoc in Hk. simpl in Hk.
  injection Hk as Hk. apply separator_split in Hk as [Hk _]; [|done..]. by apply string_bytes_inj.
Qed.

Lemma pendingPrefix_stream s : pendingPrefix s = streamPrefix s ++ string_bytes "d/".
Proof. unfold pendingPrefix, streamPrefix. by rewrite !string_bytes_app, <- !app_assoc. Qed.

Lemma deadPrefix_stream s : deadPrefix s = streamPrefix s ++ string_bytes "x/".
Proof. unfold deadPrefix, streamPrefix. by rewrite !string_bytes_app, <- !app_assoc. Qed.

Lemma metaKey_stream s n : metaKey s n = streamPrefix s ++ string_bytes ("m/" +:+ n).
Proof. unfold metaKey, streamPrefix. by rewrite !string_bytes_app, <- !app_assoc. Qed.

Lemma stream_of_pending s seq : streamPrefix s `prefix_of` pendingKey s seq.
Proof. unfold pendingKey, sequenceKey. rewrite pendingPrefix_stream, <- app_assoc. by eexists. Qed.

Lemma stream_of_dead s seq : streamPrefix s `prefix_of` deadKey s seq.
Proof. unfold deadKey, sequenceKey. rewrite deadPrefix_stream, <- app_assoc. by eexists. Qed.

Lemma stream_of_meta s n : streamPrefix s `prefix_of` metaKey s n.
Proof. rewrite metaKey_stream. by eexists. Qed.

(** *** The key spaces of one stream are disjoint *)

Lemma dead_not_pending s seq : ¬ pendingPrefix s `prefix_of` deadKey s seq.
Proof.
  unfold deadKey, sequenceKey. rewrite pendingPrefix_stream, deadPrefix_stream, <- app_assoc.
  by apply prefix_app_differ.
Qed.

Lemma pending_not_dead s seq : ¬ deadPrefix s `prefix_of` pendingKey s seq.
Proof.
  unfold pendingKey, sequenceKey. rewrite pendingPrefix_stream, deadPrefix_stream, <- app_assoc.
  by apply prefix_app_differ.
Qed.

Lemma meta_not_pending s n : ¬ pendingPrefix s `prefix_of` metaKey s n.
Proof.
  rewrite pendingPrefix_stream, metaKey_stream, string_bytes_app. by apply prefix_app_differ.
Qed.

Lemma meta_not_dead s n : ¬ deadPrefix s `prefix_of` metaKey s n.
Proof.
  rewrite deadPrefix_stream, metaKey_stream, string_bytes_app. by apply prefix_app_differ.
Qed.

Lemma pendingKey_ne_dead s a b : pendingKey s a ≠ deadKey s b.
Proof. intros H. apply (dead_not_pending s b). rewrite <- H. apply sequenceKey_prefix. Qed.

Lemma pendingKey_ne_meta s a n : pendingKey s a ≠ metaKey s n.
Proof. intros H. apply (meta_not_pending s n). rewrite <- H. apply sequenceKey_prefix. Qed.

Lemma deadKey_ne_meta s a n : deadKey s a ≠ metaKey s n.
Proof. intros H. apply (meta_not_dead s n). rewrite <- H. apply sequenceKey_prefix. Qed.

#[export] Hint Resolve dead_not_pending pending_not_dead meta_not_pending meta_not_dead
  pendingKey_ne_dead pendingKey_ne_meta deadKey_ne_meta
  stream_of_pending stream_of_dead stream_of_meta : teak.
