(* ===== verification/Envelope.v ===== *)
(** * Record envelopes (internal/store/envelope.go)

    Instants are integers: nanoseconds since the Unix epoch, so that
    [UnixNano] is the two's complement truncation [i64] and [time.Unix(0, n)] is
    [n] itself.  [envelopeReader] is a reader function that returns the value
    with the rest of the data, or [None] where the method returns [false] (every
    caller gives up then, so the reader's position is no longer read). *)
From S2P Require Import Prelude Errors Keys.
From Stdlib Require Import Strings.Byte.
#[local] Open Scope Z_scope.

Definition schemaVersion : Z := 1.
Definition envelopeVersion : Z := 1.

Record pendingEnvelope : Type := {
  pe_CreatedAt : Z;
  pe_OriginStream : string;
  pe_OriginSeq : Z;
  pe_Payload : bytes
}.

Record deadEnvelope : Type := {
  de_CreatedAt : Z;
  de_DeadLetteredAt : Z;
  de_OriginStream : string;
  de_OriginSeq : Z;
  de_Payload : bytes;
  de_Reason : string
}.

(** [t.UnixNano()] *)
Definition UnixNano (t : Z) : Z := i64 t.

Definition AppendUint64 (out : bytes) (v : Z) : bytes := out ++ be_encode 8 v.
Definition AppendUint32 (out : bytes) (v : Z) : bytes := out ++ be_encode 4 v.

Definition encodePending (value : pendingEnvelope) : res bytes :=
  if (max_uint32 <? string_len (pe_OriginStream value)) || (max_uint32 <? len (pe_Payload value))
  then Err (Sentinel store_ErrValueTooLarge)
  else
    let out := [byte_of_Z envelopeVersion] in
    let out := AppendUint64 out (u64 (UnixNano (pe_CreatedAt value))) in
    let out := AppendUint64 out (pe_OriginSeq value) in
    let out := AppendUint32 out (u32 (string_len (pe_OriginStream value))) in
    let out := out ++ string_bytes (pe_OriginStream value) in
    let out := AppendUint64 out (u64 (len (pe_Payload value))) in
    let out := out ++ pe_Payload value in
    Ok out.

Definition encodeDead (value : deadEnvelope) : res bytes :=
  if (max_uint32 <? string_len (de_OriginStream value)) || (max_uint32 <? len (de_Payload value))
     || (max_uint32 <? string_len (de_Reason value))
  then Err (Sentinel store_ErrValueTooLarge)
  else
    let out := [byte_of_Z envelopeVersion] in
    let out := AppendUint64 out (u64 (UnixNano (de_CreatedAt value))) in
    let out := AppendUint64 out (u64 (UnixNano (de_DeadLetteredAt value))) in
    let out := AppendUint64 out (de_OriginSeq value) in
    let out := AppendUint32 out (u32 (string_len (de_OriginStream value))) in
    let out := out ++ string_bytes (de_OriginStream value) in
    let out := AppendUint64 out (u64 (len (de_Payload value))) in
    let out := out ++ de_Payload value in
    let out := AppendUint32 out (u32 (string_len (de_Reason value))) in
    let out := out ++ string_bytes (de_Reason value) in
    Ok out.

(** ** envelopeReader *)

Definition reader_uint64 (data : bytes) : option (Z * bytes) :=
  if len data <? 8 then None
  else Some (be_decode (take 8 data), drop 8 data).

Definition reader_string32 (data : bytes) : option (string * bytes) :=
  if len data <? 4 then None
  else
    let size := be_decode (take 4 data) in
    let data := drop 4 data in
    if len data <? size then None
    else Some (string_of_bytes (take (Z.to_nat size) data), drop (Z.to_nat size) data).

Definition reader_bytes64 (data : bytes) : option (bytes * bytes) :=
  match reader_uint64 data with
  | None => None
  | Some (size, data) =>
      if len data <? size then None
      else Some (take (Z.to_nat size) data, drop (Z.to_nat size) data)
  end.

(** A read whose failure makes the decoder return [ErrCorruptEnvelope]. *)
Definition corrupt_if_none {A} (o : option A) : res A :=
  match o with Some a => Ok a | None => Err (Sentinel store_ErrCorruptEnvelope) end.

Definition decodePending (data : bytes) : res pendingEnvelope :=
  match data with
  | [] => Err (Sentinel store_ErrCorruptEnvelope)
  | version :: data =>
      if negb (Z_of_byte version =? envelopeVersion)
      then Err (Errorf "%w: %d" [Sentinel store_ErrUnsupportedEnvelope])
      else
        '(created, data) ← corrupt_if_none (reader_uint64 data);
        '(originSeq, data) ← corrupt_if_none (reader_uint64 data);
        '(origin, data) ← corrupt_if_none (reader_string32 data);
        '(payload, data) ← corrupt_if_none (reader_bytes64 data);
        if negb (len data =? 0) then Err (Sentinel store_ErrCorruptEnvelope)
        else Ok {| pe_CreatedAt := i64 created;
                   pe_OriginStream := origin;
                   pe_OriginSeq := originSeq;
                   pe_Payload := payload |}
  end.

Definition decodeDead (data : bytes) : res deadEnvelope :=
  match data with
  | [] => Err (Sentinel store_ErrCorruptEnvelope)
  | version :: data =>
      if negb (Z_of_byte version =? envelopeVersion)
      then Err (Errorf "%w: %d" [Sentinel store_ErrUnsupportedEnvelope])
      else
        '(created, data) ← corrupt_if_none (reader_uint64 data);
        '(deadAt, data) ← corrupt_if_none (reader_uint64 data);
        '(originSeq, data) ← corrupt_if_none (reader_uint64 data);
        '(origin, data) ← corrupt_if_none (reader_string32 data);
        '(payload, data) ← corrupt_if_none (reader_bytes64 data);
        '(reason, data) ← corrupt_if_none (reader_string32 data);
        if negb (len data =? 0) then Err (Sentinel store_ErrCorruptEnvelope)
        else Ok {| de_CreatedAt := i64 created;
                   de_DeadLetteredAt := i64 deadAt;
                   de_OriginStream := origin;
                   de_OriginSeq := originSeq;
                   de_Payload := payload;
                   de_Reason := reason |}
  end.

(** What a Go value of the type satisfies, plus an instant that [UnixNano]
    can represent (the years 1678 to 2262). *)
Definition pending_wf (v : pendingEnvelope) : Prop :=
  is_i64 (pe_CreatedAt v) ∧ is_u64 (pe_OriginSeq v).
Definition dead_wf (v : deadEnvelope) : Prop :=
  is_i64 (de_CreatedAt v) ∧ is_i64 (de_DeadLetteredAt v) ∧ is_u64 (de_OriginSeq v).

(** The sizes the format can hold. *)
Definition pending_fits (v : pendingEnvelope) : Prop :=
  string_len (pe_OriginStream v) ≤ max_uint32 ∧ len (pe_Payload v) ≤ max_uint32.
Definition dead_fits (v : deadEnvelope) : Prop :=
  string_len (de_OriginStream v) ≤ max_uint32 ∧ len (de_Payload v) ≤ max_uint32
  ∧ string_len (de_Reason v) ≤ max_uint32.

(** ** Field codecs

    A field's reader inverts its encoder in both directions; the envelopes are
    sequences of fields, so their round trips follow field by field. *)
Class FieldCodec {A} (wf : A → Prop) (enc : A → bytes) (read : bytes → option (A * bytes)) : Prop := {
  field_read_enc a rest : wf a → read (enc a ++ rest) = Some (a, rest);
  field_read_inv data a rest : read data = Some (a, rest) → data = enc a ++ rest ∧ wf a
}.

Definition enc_uint64 (v : Z) : bytes := be_encode 8 v.
Definition enc_string32 (s : string) : bytes := be_encode 4 (string_len s) ++ string_bytes s.
Definition enc_bytes64 (b : bytes) : bytes := be_encode 8 (len b) ++ b.

Lemma len_app {A} (a b : list A) : len (a ++ b) = len a + len b.
Proof. unfold len. rewrite length_app. lia. Qed.

Lemma len_nonneg {A} (a : list A) : 0 ≤ len a.
Proof. unfold len. lia. Qed.

Lemma len_be_encode n z : len (be_encode n z) = Z.of_nat n.
Proof. unfold len. by rewrite length_be_encode. Qed.

#[global] Instance uint64_codec : FieldCodec is_u64 enc_uint64 reader_uint64.
Proof.
  split.
  - intros a rest Ha. unfold reader_uint64, enc_uint64. rewrite len_app, len_be_encode.
    pose proof (len_nonneg rest). rewrite (proj2 (Z.ltb_ge _ _)) by lia.
    rewrite take_app_length', drop_app_length' by (by rewrite length_be_encode).
    by rewrite be_decode_encode.
  - unfold reader_uint64, enc_uint64, len. intros data a rest. case_match; [done|]. zbool.
    intros [= <- <-].
    assert (Hl : length (take 8 data) = 8%nat) by (rewrite length_take; lia). split.
    + rewrite <- Hl at 1. by rewrite be_encode_decode, take_drop.
    + pose proof (be_decode_range (take 8 data)) as Hr. by rewrite Hl in Hr.
Qed.

#[global] Instance string32_codec :
  FieldCodec (λ s, string_len s ≤ max_uint32) enc_string32 reader_string32.
Proof.
  split.
  - intros s rest Hs. unfold reader_string32, enc_string32. rewrite <- app_assoc, !len_app, len_be_encode.
    pose proof (len_nonneg rest). pose proof (len_nonneg (string_bytes s)) as Hn.
    rewrite (proj2 (Z.ltb_ge _ _)) by (unfold string_len in *; lia).
    rewrite take_app_length', drop_app_length' by (by rewrite length_be_encode).
    rewrite be_decode_encode by (unfold string_len, max_uint32 in *; lia). rewrite len_app.
    rewrite (proj2 (Z.ltb_ge _ _)) by (unfold string_len; lia).
    unfold string_len, len. rewrite Nat2Z.id, take_app_length, drop_app_length.
    by rewrite string_of_bytes_string.
  - unfold reader_string32, enc_string32. intros data s rest. case_match; [done|].
    case_match eqn:Hsz; [done|]. zbool. intros [= <- <-].
    assert (Hl : length (take 4 data) = 4%nat) by (rewrite length_take; unfold len in *; lia).
    pose proof (be_decode_range (take 4 data)) as Hr. rewrite Hl in Hr.
    set (sz := be_decode (take 4 data)) in *.
    assert (He : string_len (string_of_bytes (take (Z.to_nat sz) (drop 4 data))) = sz).
    { unfold string_len. rewrite string_bytes_of_bytes. unfold len in *. rewrite length_take. lia. }
    rewrite He, string_bytes_of_bytes, <- app_assoc, take_drop. split; [|unfold max_uint32; lia].
    unfold sz. rewrite <- Hl at 1. by rewrite be_encode_decode, take_drop.
Qed.

#[global] Instance bytes64_codec :
  FieldCodec (λ b, len b < 2 ^ 64) enc_bytes64 reader_bytes64.
Proof.
  split.
  - intros b rest Hb. unfold reader_bytes64, enc_bytes64. rewrite <- app_assoc.
    change (be_encode 8 (len b)) with (enc_uint64 (len b)).
    rewrite field_read_enc by (split; [apply len_nonneg|done]). rewrite len_app.
    pose proof (len_nonneg rest). rewrite (proj2 (Z.ltb_ge _ _)) by lia.
    unfold len. by rewrite Nat2Z.id, take_app_length, drop_app_length.
  - unfold reader_bytes64, enc_bytes64. intros data b rest.
    destruct (reader_uint64 data) as [[sz d]|] eqn:Hr; [|done].
    apply field_read_inv in Hr as [-> [Hs Hs']]. case_match; [done|]. zbool. intros [= <- <-].
    assert (He : len (take (Z.to_nat sz) d) = sz) by (unfold len in *; rewrite length_take; lia).
    rewrite He. split; [|done]. by rewrite <- app_assoc, take_drop.
Qed.

(** ** The layouts as field sequences *)

Definition pending_layout (v : pendingEnvelope) : bytes :=
  byte_of_Z envelopeVersion :: enc_uint64 (u64 (pe_CreatedAt v)) ++ enc_uint64 (pe_OriginSeq v)
    ++ enc_string32 (pe_OriginStream v) ++ enc_bytes64 (pe_Payload v).

Definition dead_layout (v : deadEnvelope) : bytes :=
  byte_of_Z envelopeVersion :: enc_uint64 (u64 (de_CreatedAt v))
    ++ enc_uint64 (u64 (de_DeadLetteredAt v)) ++ enc_uint64 (de_OriginSeq v)
    ++ enc_string32 (de_OriginStream v) ++ enc_bytes64 (de_Payload v) ++ enc_string32 (de_Reason v).

Lemma u64_UnixNano t : u64 (UnixNano t) = u64 t.
Proof. unfold UnixNano, i64, u64. case_match; zbool; zmod. Qed.

Lemma string_len_nonneg s : 0 ≤ string_len s.
Proof. apply len_nonneg. Qed.

Lemma encodePending_layout v :
  pending_fits v → encodePending v = Ok (pending_layout v).
Proof.
  intros [H1 H2]. pose proof (string_len_nonneg (pe_OriginStream v)). pose proof (len_nonneg (pe_Payload v)).
  unfold encodePending, pending_layout, AppendUint64, AppendUint32, enc_uint64, enc_string32, enc_bytes64.
  rewrite (proj2 (Z.ltb_ge _ _) H1), (proj2 (Z.ltb_ge _ _) H2). simpl.
  rewrite u64_UnixNano, u32_id, (u64_id (len _)) by (unfold is_u64, is_u32, max_uint32 in *; lia).
  by rewrite <- !app_assoc.
Qed.

Lemma encodePending_too_large v :
  ¬ pending_fits v → encodePending v = Err (Sentinel store_ErrValueTooLarge).
Proof.
  unfold pending_fits, encodePending. intros H. case_match eqn:Hc; [done|]. zbool. tauto.
Qed.

Lemma encodeDead_layout v :
  dead_fits v → encodeDead v = Ok (dead_layout v).
Proof.
  intros (H1 & H2 & H3). pose proof (string_len_nonneg (de_OriginStream v)).
  pose proof (len_nonneg (de_Payload v)). pose proof (string_len_nonneg (de_Reason v)).
  unfold encodeDead, dead_layout, AppendUint64, AppendUint32, enc_uint64, enc_string32, enc_bytes64.
  rewrite (proj2 (Z.ltb_ge _ _) H1), (proj2 (Z.ltb_ge _ _) H2), (proj2 (Z.ltb_ge _ _) H3). simpl.
  rewrite !u64_UnixNano, !u32_id, (u64_id (len _)) by (unfold is_u64, is_u32, max_uint32 in *; lia).
  by rewrite <- !app_assoc.
Qed.

Lemma encodeDead_too_large v :
  ¬ dead_fits v → encodeDead v = Err (Sentinel store_ErrValueTooLarge).
Proof.
  unfold dead_fits, encodeDead. intros H. case_match eqn:Hc; [done|]. zbool. tauto.
Qed.

Lemma corrupt_if_none_Ok {A} (o : option A) a : corrupt_if_none o = Ok a ↔ o = Some a.
Proof. destruct o; simpl; split; congruence. Qed.

Lemma read_uint64 a rest : is_u64 a → reader_uint64 (enc_uint64 a ++ rest) = Some (a, rest).
Proof. apply (@field_read_enc _ _ _ _ uint64_codec). Qed.

Lemma read_string32 s rest :
  string_len s ≤ max_uint32 → reader_string32 (enc_string32 s ++ rest) = Some (s, rest).
Proof. apply (@field_read_enc _ _ _ _ string32_codec). Qed.

Lemma read_bytes64 b rest :
  len b < 2 ^ 64 → reader_bytes64 (enc_bytes64 b ++ rest) = Some (b, rest).
Proof. apply (@field_read_enc _ _ _ _ bytes64_codec). Qed.

Lemma version_accepted :
  negb (Z_of_byte (byte_of_Z envelopeVersion) =? envelopeVersion) = false.
Proof. reflexivity. Qed.

(** Reads one field of a goal [decode (field ++ rest)]. *)
Ltac read_field :=
  first [rewrite read_uint64 by auto with teak | rewrite read_string32 by done
        | rewrite read_bytes64 by (unfold max_uint32 in *; lia)];
  cbn [corrupt_if_none mbind result_bind].

Lemma decode_encode_pending v :
  pending_wf v → pending_fits v → decodePending (pending_layout v) = Ok v.
Proof.
  intros [Hc Hs] [Ho Hp]. destruct v as [c o s p]; cbn in Hc, Hs, Ho, Hp.
  unfold decodePending, pending_layout; cbn [pe_CreatedAt pe_OriginSeq pe_OriginStream pe_Payload].
  rewrite version_accepted. cbv iota. rewrite <- (app_nil_r (enc_bytes64 _)).
  repeat read_field. by rewrite i64_u64.
Qed.

Lemma decode_encode_dead v :
  dead_wf v → dead_fits v → decodeDead (dead_layout v) = Ok v.
Proof.
  intros (Hc & Hd & Hs) (Ho & Hp & Hr). destruct v as [c d o s p r]; cbn in Hc, Hd, Hs, Ho, Hp, Hr.
  unfold decodeDead, dead_layout;
    cbn [de_CreatedAt de_DeadLetteredAt de_OriginSeq de_OriginStream de_Payload de_Reason].
  rewrite version_accepted. cbv iota. rewrite <- (app_nil_r (enc_string32 r)).
  repeat read_field. by rewrite !i64_u64.
Qed.

(** Inverts one successful field read of a decoder. *)
Ltac unread_field H :=
  apply bind_Ok in H as ([? ?] & ?%corrupt_if_none_Ok%field_read_inv & H);
  destruct_and?; subst.

Lemma len_0_nil {A} (l : list A) : negb (len l =? 0) = false → l = [].
Proof. unfold len. intros. zbool. destruct l; [done|]. simpl in *. lia. Qed.

Lemma decodePending_inv data v :
  decodePending data = Ok v →
  data = pending_layout v ∧ pending_wf v
  ∧ string_len (pe_OriginStream v) ≤ max_uint32 ∧ len (pe_Payload v) < 2 ^ 64.
Proof.
  unfold decodePending. destruct data as [|ver data]; [done|].
  case_match eqn:Hver; [done|]. zbool. intros H. repeat unread_field H.
  case_match eqn:Hlen; [done|]. apply len_0_nil in Hlen as ->. simplify_eq/=.
  unfold pending_layout, pending_wf. simpl. rewrite u64_i64, app_nil_r, <- Hver, byte_of_Z_of_byte by done.
  auto with teak.
Qed.

Lemma decodeDead_inv data v :
  decodeDead data = Ok v →
  data = dead_layout v ∧ dead_wf v
  ∧ string_len (de_OriginStream v) ≤ max_uint32 ∧ len (de_Payload v) < 2 ^ 64
  ∧ string_len (de_Reason v) ≤ max_uint32.
Proof.
  unfold decodeDead. destruct data as [|ver data]; [done|].
  case_match eqn:Hver; [done|]. zbool. intros H. repeat unread_field H.
  case_match eqn:Hlen; [done|]. apply len_0_nil in Hlen as ->. simplify_eq/=.
  unfold dead_layout, dead_wf. simpl. rewrite !u64_i64, app_nil_r, <- Hver, byte_of_Z_of_byte by done.
  auto with teak.
Qed.

Lemma codec_app_inj {A} {wf : A → Prop} {enc read} (C : FieldCodec wf enc read) a b x y :
  wf a → wf b → enc a ++ x = enc b ++ y → a = b ∧ x = y.
Proof.
  intros Ha Hb Heq. pose proof (@field_read_enc _ _ _ _ C a x Ha) as Hra.
  rewrite Heq, (@field_read_enc _ _ _ _ C) in Hra by done. by simplify_eq.
Qed.

(** No decodable envelope is a proper prefix of another: truncated or extended
    data never decodes. *)
Lemma decodePending_prefix_lemma d1 d2 v1 v2 :
  decodePending d1 = Ok v1 → decodePending d2 = Ok v2 → d1 `prefix_of` d2 → d1 = d2.
Proof.
  intros (-> & [] & Ho1 & Hp1)%decodePending_inv (-> & [] & Ho2 & Hp2)%decodePending_inv [k Hk].
  apply (f_equal (drop 1)) in Hk. unfold pending_layout in *. cbn [drop app] in Hk.
  rewrite <- !app_assoc in Hk.
  apply (codec_app_inj uint64_codec) in Hk as [Hc Hk]; [|apply u64_range..].
  apply (codec_app_inj uint64_codec) in Hk as [Hs Hk]; [|done..].
  apply (codec_app_inj string32_codec) in Hk as [Ho Hk]; [|done..].
  rewrite <- (app_nil_r (enc_bytes64 (pe_Payload v2))) in Hk.
  apply (codec_app_inj bytes64_codec) in Hk as [Hp _]; [|done..]. congruence.
Qed.
