(* ===== verification/Badger.v ===== *)
(** * The interface to Badger

    Badger is not part of the repository, so it is a parameter: [Badger] lists
    the operations internal/store calls and [BadgerSpec] what their documentation
    promises: an operation that succeeds did what it says, a transaction is
    atomic, and an operation can fail at any time with one of the errors
    [db_fails].  Nothing is assumed of those errors; [BadgerReliable] says there
    are none (for theorems about the result of a call when the storage works).

    A transaction closure is a computation [txm S A] over the transaction and
    the variables [S] it captures: Go closures assign captured variables, and
    such an assignment survives a failed transaction.

    An iterator is the list of the items it still has to visit; [Seek] gives the
    list, [Next] drops its head, [Item] is its head. *)
From S2P Require Import Prelude Errors Keys.
From Stdlib Require Import Floats.SpecFloat.
#[local] Open Scope Z_scope.

(** A computation over a transaction handle and captured variables. *)
Definition txm (Txn S A : Type) : Type := Txn * S → res A * (Txn * S).

Class Badger : Type := {
  DB : Type;
  Txn : Type;
  Item : Type;
  (** [db.View(f)], [db.Update(f)]: the captured variables after the call, and
      the error. *)
  db_View {S : Type} : DB → S → txm Txn S unit → S * option goerr;
  db_Update {S : Type} : DB → S → txm Txn S unit → DB * S * option goerr;
  txn_Get : Txn → bytes → res Item;
  txn_Set : Txn → bytes → bytes → res Txn;
  txn_Delete : Txn → bytes → res Txn;
  (** [txn.NewIterator] with [Reverse] and [Seek]. *)
  txn_Seek : Txn → bool → bytes → list Item;
  item_Key : Item → bytes;
  item_ValueCopy : Item → res bytes;
  db_Close : DB → DB * option goerr;
  (** [db.RunValueLogGC(discardRatio)] *)
  db_RunValueLogGC : DB → spec_float → DB * option goerr
}.

(** ** Transaction closures *)

Section txm.
Context {Txn S : Type}.

#[global] Instance txm_ret : MRet (txm Txn S) := λ A a ts, (Ok a, ts).
#[global] Instance txm_bind : MBind (txm Txn S) := λ A B f m ts,
  match m ts with
  | (Ok a, ts) => f a ts
  | (Err e, ts) => (Err e, ts)
  end.

(** [return err] *)
Definition tx_fail {A} (e : goerr) : txm Txn S A := λ ts, (Err e, ts).
(** [if err != nil { return err }] for a call that does not touch the transaction *)
Definition tx_lift {A} (r : res A) : txm Txn S A := λ ts, (r, ts).
(** [if err := f(); err != nil { return err }] *)
Definition tx_error (o : option goerr) : txm Txn S unit :=
  λ ts, (match o with None => Ok tt | Some e => Err e end, ts).
(** Captured variables. *)
Definition tx_read : txm Txn S S := λ ts, (Ok ts.2, ts).
Definition tx_assign (s : S) : txm Txn S unit := λ ts, (Ok tt, (ts.1, s)).

(** [for _, a := range l { body }] in a closure that returns on error *)
Fixpoint tx_for {A} (l : list A) (body : A → txm Txn S unit) : txm Txn S unit :=
  match l with
  | [] => mret tt
  | a :: l => body a ;; tx_for l body
  end.
End txm.

Section ops.
Context {B : Badger} {S : Type}.

(** [txn.Get(key)] with the error still in hand, as the code inspects it. *)
Definition tx_Get (key : bytes) : txm Txn S (res Item) := λ ts, (Ok (txn_Get ts.1 key), ts).

Definition tx_Set (key value : bytes) : txm Txn S unit := λ ts,
  match txn_Set ts.1 key value with
  | Ok t => (Ok tt, (t, ts.2))
  | Err e => (Err e, ts)
  end.

Definition tx_Delete (key : bytes) : txm Txn S unit := λ ts,
  match txn_Delete ts.1 key with
  | Ok t => (Ok tt, (t, ts.2))
  | Err e => (Err e, ts)
  end.

Definition tx_Seek (reverse : bool) (key : bytes) : txm Txn S (list Item) :=
  λ ts, (Ok (txn_Seek ts.1 reverse key), ts).

(** [iterator.ValidForPrefix(prefix)] *)
Definition ValidForPrefix (iterator : list Item) (prefix : bytes) : bool :=
  match iterator with
  | [] => false
  | item :: _ => bool_decide (prefix `prefix_of` item_Key item)
  end.
End ops.

(** ** What the store relies on *)

(** The order in which an iterator visits keys. *)
Definition key_order (reverse : bool) (a b : bytes) : Prop :=
  if reverse then bytes_le b a else bytes_le a b.

Section spec.
Context {B : Badger}.

(** [item.ValueCopy(nil)] of an item for the value [v]. *)
Definition value_spec (fails : goerr → Prop) (item : Item) (v : bytes) : Prop :=
  match item_ValueCopy item with Ok v' => v' = v | Err e => fails e end.

(** The items of an iterator over the contents [m], from [key] on. *)
Record seek_spec (fails : goerr → Prop) (m : gmap bytes bytes) (reverse : bool) (key : bytes) (items : list Item) : Prop := {
  seek_sorted : StronglySorted (key_order reverse) (item_Key <$> items);
  seek_nodup : NoDup (item_Key <$> items);
  seek_elem k : k ∈ item_Key <$> items ↔ is_Some (m !! k) ∧ key_order reverse key k;
  seek_value item : item ∈ items → ∃ v, m !! item_Key item = Some v ∧ value_spec fails item v
}.

Class BadgerSpec : Type := {
  db_map : DB → gmap bytes bytes;
  txn_map : Txn → gmap bytes bytes;
  db_fails : goerr → Prop;
  View_spec {S} db (s : S) (f : txm Txn S unit) :
    (∃ e, db_fails e ∧ db_View db s f = (s, Some e))
    ∨ ∃ t, txn_map t = db_map db ∧
        match f (t, s) with
        | (Ok _, (_, s')) => db_View db s f = (s', None)
        | (Err e, (_, s')) => db_View db s f = (s', Some e)
        end;
  Update_spec {S} db (s : S) (f : txm Txn S unit) :
    (∃ e db', db_fails e ∧ db_map db' = db_map db ∧ db_Update db s f = (db', s, Some e))
    ∨ ∃ t, txn_map t = db_map db ∧
        match f (t, s) with
        | (Ok _, (t', s')) =>
            (∃ db', db_map db' = txn_map t' ∧ db_Update db s f = (db', s', None))
            ∨ ∃ e db', db_fails e ∧ db_map db' = db_map db ∧ db_Update db s f = (db', s', Some e)
        | (Err e, (_, s')) =>
            ∃ db', db_map db' = db_map db ∧ db_Update db s f = (db', s', Some e)
        end;
  Get_spec t k :
    match txn_Get t k with
    | Ok item => ∃ v, txn_map t !! k = Some v ∧ value_spec db_fails item v
    | Err e => if errors_Is e badger_ErrKeyNotFound then txn_map t !! k = None else db_fails e
    end;
  Set_spec t k v :
    match txn_Set t k v with
    | Ok t' => txn_map t' = <[k := v]> (txn_map t)
    | Err e => db_fails e
    end;
  Delete_spec t k :
    match txn_Delete t k with
    | Ok t' => txn_map t' = delete k (txn_map t)
    | Err e => db_fails e
    end;
  Seek_spec t reverse k : seek_spec db_fails (txn_map t) reverse k (txn_Seek t reverse k);
  (** Reclaiming space never changes what is stored. *)
  GC_spec db ratio : db_map (db_RunValueLogGC db ratio).1 = db_map db;
  (** Closing keeps what was committed. *)
  Close_spec db : db_map (db_Close db).1 = db_map db
}.

(** Storage that does not fail on its own. *)
Definition BadgerReliable (BS : BadgerSpec) : Prop := ∀ e, ¬ db_fails e.
End spec.
Arguments BadgerSpec B : clear implicits.
Arguments BadgerReliable {B} BS.

(** ** A program logic for closures

    [wp m Q M s]: run on a transaction whose contents are [M] with captured
    variables [s], [m] ends in a result, contents and captured variables that
    satisfy [Q]. *)
Section wp.
Context {B : Badger} {BS : BadgerSpec B} {S : Type}.
Implicit Types (M : gmap bytes bytes) (s : S).

Definition wp {A} (m : txm Txn S A) (Q : res A → gmap bytes bytes → S → Prop) M s : Prop :=
  ∀ t, txn_map t = M → match m (t, s) with (r, (t', s')) => Q r (txn_map t') s' end.

Lemma wp_mono {A} (m : txm Txn S A) Q Q' M s :
  (∀ r M' s', Q r M' s' → Q' r M' s') → wp m Q M s → wp m Q' M s.
Proof. intros HQ Hw t Ht. specialize (Hw t Ht). destruct (m (t, s)) as [r [t' s']]. auto. Qed.

Lemma wp_bind {A A'} (m : txm Txn S A) (f : A → txm Txn S A') Q M s :
  wp m (λ r M' s', match r with Ok a => wp (f a) Q M' s' | Err e => Q (Err e) M' s' end) M s →
  wp (m ≫= f) Q M s.
Proof.
  intros Hw t Ht. specialize (Hw t Ht). unfold mbind, txm_bind.
  destruct (m (t, s)) as [[a|e] [t' s']]; [|done]. by apply Hw.
Qed.

Lemma wp_ret {A} (a : A) Q M s : Q (Ok a) M s → wp (mret a) Q M s.
Proof. by intros HQ t <-. Qed.

Lemma wp_fail {A} e (Q : res A → _) M s : Q (Err e) M s → wp (tx_fail e) Q M s.
Proof. by intros HQ t <-. Qed.

Lemma wp_lift {A} (r : res A) Q M s : Q r M s → wp (tx_lift r) Q M s.
Proof. by intros HQ t <-. Qed.

Lemma wp_error o Q M s :
  Q (match o with None => Ok tt | Some e => Err e end) M s → wp (tx_error o) Q M s.
Proof. by intros HQ t <-. Qed.

Lemma wp_read Q M s : Q (Ok s) M s → wp tx_read Q M s.
Proof. by intros HQ t <-. Qed.

Lemma wp_assign s' Q M s : Q (Ok tt) M s' → wp (tx_assign s') Q M s.
Proof. by intros HQ t <-. Qed.

Lemma wp_Get k (Q : res (res Item) → _) M s :
  (∀ item v, M !! k = Some v → value_spec db_fails item v → Q (Ok (Ok item)) M s) →
  (∀ e, M !! k = None → errors_Is e badger_ErrKeyNotFound = true → Q (Ok (Err e)) M s) →
  (∀ e, db_fails e → errors_Is e badger_ErrKeyNotFound = false → Q (Ok (Err e)) M s) →
  wp (tx_Get k) Q M s.
Proof.
  intros H1 H2 H3 t <-. pose proof (Get_spec t k) as Hg. unfold tx_Get. simpl.
  destruct (txn_Get t k) as [item|e]; [destruct Hg as (v & ? & ?); eauto|].
  destruct (errors_Is e _) eqn:He; auto.
Qed.

Lemma wp_Set k v (Q : res unit → _) M s :
  Q (Ok tt) (<[k := v]> M) s → (∀ e, db_fails e → Q (Err e) M s) → wp (tx_Set k v) Q M s.
Proof.
  intros H1 H2 t <-. pose proof (Set_spec t k v) as Hs. unfold tx_Set. simpl.
  destruct (txn_Set t k v) as [t'|e]; simpl; [by rewrite Hs|auto].
Qed.

Lemma wp_Delete k (Q : res unit → _) M s :
  Q (Ok tt) (delete k M) s → (∀ e, db_fails e → Q (Err e) M s) → wp (tx_Delete k) Q M s.
Proof.
  intros H1 H2 t <-. pose proof (Delete_spec t k) as Hs. unfold tx_Delete. simpl.
  destruct (txn_Delete t k) as [t'|e]; simpl; [by rewrite Hs|auto].
Qed.

Lemma wp_Seek reverse k Q M s :
  (∀ items, seek_spec db_fails M reverse k items → Q (Ok items) M s) →
  wp (tx_Seek reverse k) Q M s.
Proof. intros HQ t <-. apply HQ, Seek_spec. Qed.

Lemma wp_ValueCopy item v (Q : res bytes → _) M s :
  value_spec db_fails item v → Q (Ok v) M s → (∀ e, db_fails e → Q (Err e) M s) →
  wp (tx_lift (item_ValueCopy item)) Q M s.
Proof.
  intros Hv H1 H2. apply wp_lift. unfold value_spec in Hv.
  destruct (item_ValueCopy item); subst; auto.
Qed.

(** [db.View] and [db.Update] in terms of their closure: an error of the closure
    is the error of the call, and only a closure that succeeds changes the
    database. *)
Lemma View_wp (db : DB) s (f : txm Txn S unit) (Q : option goerr → S → Prop) :
  wp f (λ r _ s', Q (match r with Ok _ => None | Err e => Some e end) s') (db_map db) s →
  (∀ e, db_fails e → Q (Some e) s) →
  let '(s', o) := db_View db s f in Q o s'.
Proof.
  intros Hw Hf. destruct (View_spec db s f) as [(e & He & ->)|(t & Ht & Hr)]; [auto|].
  specialize (Hw t Ht). destruct (f (t, s)) as [[[]|e] [t' s']]; by rewrite Hr.
Qed.

Lemma Update_wp (db : DB) s (f : txm Txn S unit) (Q : option goerr → gmap bytes bytes → S → Prop) :
  wp f (λ r M s', match r with
                  | Ok _ => Q None M s' ∧ ∀ e, db_fails e → Q (Some e) (db_map db) s'
                  | Err e => Q (Some e) (db_map db) s'
                  end) (db_map db) s →
  (∀ e, db_fails e → Q (Some e) (db_map db) s) →
  let '(db', s', o) := db_Update db s f in Q o (db_map db') s'.
Proof.
  intros Hw Hf. destruct (Update_spec db s f) as [(e & db' & He & Hm & ->)|(t & Ht & Hr)].
  { rewrite Hm. auto. }
  specialize (Hw t Ht). destruct (f (t, s)) as [[[]|e] [t' s']].
  - destruct Hw as [Hok Hcommit].
    destruct Hr as [(db' & Hm & ->)|(e & db' & He & Hm & ->)]; rewrite Hm; auto.
  - destruct Hr as (db' & Hm & ->). by rewrite Hm.
Qed.

(** A transaction that commits establishes the closure's postcondition; one that
    does not leaves the contents as they were. *)
Lemma Update_rule (Post : gmap bytes bytes → S → Prop) (Fail : goerr → Prop)
    (db : DB) s (f : txm Txn S unit) (K : DB * S * option goerr → Prop) :
  wp f (λ r M s', match r with Ok _ => Post M s' | Err e => Fail e end) (db_map db) s →
  (∀ e, db_fails e → Fail e) →
  (∀ db' s', Post (db_map db') s' → K (db', s', None)) →
  (∀ db' s' e, db_map db' = db_map db → Fail e → K (db', s', Some e)) →
  K (db_Update db s f).
Proof.
  intros Hw Hf HP HF.
  pose proof (Update_wp db s f (λ o M s', match o with
    | None => Post M s' | Some e => M = db_map db ∧ Fail e end)) as HU.
  destruct (db_Update db s f) as [[db' s'] [e|]]; [apply HF|apply HP]; apply HU; clear HU; eauto;
    (eapply wp_mono; [|exact Hw]); intros [[]|e'] M' s''; eauto.
Qed.

Lemma View_rule (Post : S → Prop) (Fail : goerr → Prop)
    (db : DB) s (f : txm Txn S unit) (K : S * option goerr → Prop) :
  wp f (λ r _ s', match r with Ok _ => Post s' | Err e => Fail e end) (db_map db) s →
  (∀ e, db_fails e → Fail e) →
  (∀ s', Post s' → K (s', None)) →
  (∀ s' e, Fail e → K (s', Some e)) →
  K (db_View db s f).
Proof.
  intros Hw Hf HP HF.
  pose proof (View_wp db s f (λ o s', match o with None => Post s' | Some e => Fail e end)) as HV.
  destruct (db_View db s f) as [s' [e|]]; [apply HF|apply HP]; apply HV; clear HV; eauto;
    (eapply wp_mono; [|exact Hw]); intros [[]|e'] M' s''; eauto.
Qed.
End wp.
#[global] Arguments wp : simpl never.
