(* ===== verification/BadgerMem.v ===== *)
(** * An in-memory instance of the Badger interface

    A concrete database on which every operation of the development can be
    evaluated: a map from keys to values whose operations never fail.  It
    discharges [BadgerSpec] and is [BadgerReliable], so the hypotheses the store
    makes of Badger can be met. *)
From S2P Require Import Prelude Errors Keys Badger.
#[local] Open Scope Z_scope.

Definition mem_item : Type := bytes * bytes.

Definition mem_key_order (reverse : bool) (a b : mem_item) : Prop := key_order reverse a.1 b.1.

#[global] Instance key_order_dec reverse a b : Decision (key_order reverse a b).
Proof. unfold key_order. destruct reverse; apply _. Defined.

#[global] Instance mem_key_order_dec reverse a b : Decision (mem_key_order reverse a b).
Proof. unfold mem_key_order. apply _. Defined.

Definition mem_Seek (t : gmap bytes bytes) (reverse : bool) (key : bytes) : list mem_item :=
  merge_sort (mem_key_order reverse)
    (filter (λ item, key_order reverse key item.1) (map_to_list t)).

#[global] Instance MemBadger : Badger := {|
  DB := gmap bytes bytes;
  Txn := gmap bytes bytes;
  Item := mem_item;
  db_View S db s f :=
    match f (db, s) with
    | (Ok _, (_, s')) => (s', None)
    | (Err e, (_, s')) => (s', Some e)
    end;
  db_Update S db s f :=
    match f (db, s) with
    | (Ok _, (t', s')) => (t', s', None)
    | (Err e, (_, s')) => (db, s', Some e)
    end;
  txn_Get t k :=
    match t !! k with
    | Some v => Ok (k, v)
    | None => Err (Sentinel badger_ErrKeyNotFound)
    end;
  txn_Set t k v := Ok (<[k := v]> t);
  txn_Delete t k := Ok (delete k t);
  txn_Seek := mem_Seek;
  item_Key := fst;
  item_ValueCopy item := Ok item.2;
  db_Close db := (db, None);
  db_RunValueLogGC db _ := (db, Some (Sentinel badger_ErrNoRewrite))
|}.

#[global] Instance key_order_trans reverse : Transitive (key_order reverse).
Proof. intros a b c H1 H2. destruct reverse; simpl in *; by etrans. Qed.

#[global] Instance mem_key_order_trans reverse : Transitive (mem_key_order reverse).
Proof. intros a b c. unfold mem_key_order. apply key_order_trans. Qed.

#[global] Instance mem_key_order_total reverse : Total (mem_key_order reverse).
Proof.
  intros a b. unfold mem_key_order, key_order.
  destruct reverse; destruct (bytes_le_total a.1 b.1); auto.
Qed.

Lemma mem_Seek_elem t reverse key item :
  item ∈ mem_Seek t reverse key ↔ t !! item.1 = Some item.2 ∧ key_order reverse key item.1.
Proof.
  unfold mem_Seek. rewrite merge_sort_Permutation, list_elem_of_filter.
  destruct item as [k v]. rewrite elem_of_map_to_list. tauto.
Qed.

Lemma mem_Seek_spec t reverse key :
  seek_spec (B := MemBadger) (λ _, False) t reverse key (mem_Seek t reverse key).
Proof.
  split.
  - apply (StronglySorted_fmap _ (mem_key_order reverse)); [done|].
    apply StronglySorted_merge_sort; apply _.
  - change item_Key with (fst : mem_item → bytes). unfold mem_Seek.
    rewrite merge_sort_Permutation.
    eapply sublist_NoDup; [apply (NoDup_fst_map_to_list t)|].
    apply fmap_sublist, sublist_filter.
  - intros k. rewrite list_elem_of_fmap. split.
    + intros ([k' v] & -> & [Hk Ho]%mem_Seek_elem). simpl in *. eauto.
    + intros [[v Hv] Ho]. exists (k, v). split; [done|]. by apply mem_Seek_elem.
  - intros [k v] [Hk _]%mem_Seek_elem. exists v. by split.
Qed.

#[global] Instance MemBadgerSpec : BadgerSpec MemBadger.
Proof.
  refine {| db_map := (λ db : DB (Badger := MemBadger), db) ;
            txn_map := (λ t : Txn (Badger := MemBadger), t);
            db_fails := λ _, False |}; simpl.
  - intros S db s f. right. exists db. split; [done|]. by destruct (f _) as [[[]|?] [? ?]].
  - intros S db s f. right. exists db. split; [done|].
    destruct (f _) as [[[]|?] [? ?]]; [left|]; eauto.
  - intros t k. destruct (t !! k) as [v|] eqn:E; simpl; [by exists v|].
    done.
  - done.
  - done.
  - apply mem_Seek_spec.
  - done.
  - done.
Defined.

Lemma MemBadger_reliable : BadgerReliable MemBadgerSpec.
Proof. intros e []. Qed.
