(* ===== verification/Store.v ===== *)
(** * The durable store (internal/store/store.go)

    Every method of [Stream] and [Root] as a function of the database and the
    handle: it returns the database and the handle after the call with the
    result.  [s.mu] makes the methods that move the tail atomic with respect to
    each other; a [db.Update] or [db.View] closure runs on one transaction. *)
From S2P Require Import Prelude Errors Keys Envelope Badger.
From Stdlib Require Import Strings.Byte Floats.SpecFloat.
#[local] Open Scope Z_scope.

Definition tailMetaKey : string := "tail".
Definition schemaMetaKey : string := "schema".
Definition maxBatchValueSize : Z := Z.shiftl 32 20.

(** [store.Record] *)
Record StoreRecord : Type := {
  r_Seq : Z;
  r_CreatedAt : Z;
  r_OriginStream : string;
  r_OriginSeq : Z;
  r_Payload : bytes
}.

(** [store.DeadRecord] *)
Record DeadRecord : Type := {
  dr_Seq : Z;
  dr_CreatedAt : Z;
  dr_DeadLetteredAt : Z;
  dr_OriginStream : string;
  dr_OriginSeq : Z;
  dr_Payload : bytes;
  dr_Reason : string
}.

(** The zero value of [time.Time]: January 1 of the year 1, in nanoseconds. *)
Definition zero_time : Z := -62135596800 * 1000000000.

(** [store.Counts] *)
Record Counts : Type := {
  c_Tail : Z;
  c_Pending : Z;
  c_DeadLetter : Z;
  c_OldestSeq : Z;
  c_OldestTime : Z
}.

(** [store.Stream] without its lock and its database; [beforeCommit] is the
    failure hook the tests install. *)
Record Stream : Type := {
  s_name : string;
  s_tail : Z;
  s_beforeCommit : option (string → option goerr)
}.

Definition set_tail (s : Stream) (tail : Z) : Stream :=
  {| s_name := s_name s; s_tail := tail; s_beforeCommit := s_beforeCommit s |}.

(** [if s.beforeCommit != nil { return s.beforeCommit(operation) }] *)
Definition before_commit (s : Stream) (operation : string) : option goerr :=
  match s_beforeCommit s with None => None | Some hook => hook operation end.

Section store.
Context {B : Badger}.

(** ** Loading a stream *)

(** [(maximum, found)] as an option. *)
Definition maxStoredSequence {S} (prefix : bytes) : txm Txn S (option Z) :=
  iterator ← tx_Seek true (sequenceKey prefix max_uint64);
  match iterator with
  | item :: _ =>
      if ValidForPrefix iterator prefix then
        match parseSequence prefix (item_Key item) with
        | None => tx_fail (Sentinel store_ErrCorruptEnvelope)
        | Some seq => mret (Some seq)
        end
      else mret None
  | [] => mret None
  end.

(** [(seq, ok, err)]: [Ok None] when the iterator has left the prefix. *)
Definition currentSequence (iterator : list Item) (prefix : bytes) : res (option Z) :=
  match iterator with
  | item :: _ =>
      if ValidForPrefix iterator prefix then
        match parseSequence prefix (item_Key item) with
        | None => Err (Sentinel store_ErrCorruptEnvelope)
        | Some seq => Ok (Some seq)
        end
      else Ok None
  | [] => Ok None
  end.

(** The loop of [validateStoredStates]: a merge of the two key ranges. The inner
    recursion is on the dead-letter iterator, the outer one on the pending one. *)
Fixpoint merge_states (pendingKeys deadKeys : bytes) (pending : list Item) : list Item → res unit :=
  fix merge_dead (dead : list Item) : res unit :=
    if ValidForPrefix pending pendingKeys || ValidForPrefix dead deadKeys then
      pendingSeq ← currentSequence pending pendingKeys;
      deadSeq ← currentSequence dead deadKeys;
      match pendingSeq, deadSeq with
      | None, _ => match dead with [] => Ok tt | _ :: dead' => merge_dead dead' end
      | Some _, None =>
          match pending with [] => Ok tt | _ :: pending' => merge_states pendingKeys deadKeys pending' dead end
      | Some p, Some d =>
          if p =? d then Err (Errorf "%w: %s/%d exists as pending and dead letter" [Sentinel store_ErrStateConflict])
          else if p <? d then
            match pending with [] => Ok tt | _ :: pending' => merge_states pendingKeys deadKeys pending' dead end
          else match dead with [] => Ok tt | _ :: dead' => merge_dead dead' end
      end
    else Ok tt.

Definition validateStoredStates {S} (stream : string) : txm Txn S unit :=
  pending ← tx_Seek false (pendingPrefix stream);
  dead ← tx_Seek false (deadPrefix stream);
  tx_lift (merge_states (pendingPrefix stream) (deadPrefix stream) pending dead).

(** The closure of [load]; the captured variable is [s.tail]. *)
Definition load_closure (name : string) : txm Txn Z unit :=
  schema ← tx_Get (metaKey name schemaMetaKey);
  match schema with
  | Err e =>
      if errors_Is e badger_ErrKeyNotFound
      then tx_Set (metaKey name schemaMetaKey) [byte_of_Z schemaVersion]
      else tx_fail e
  | Ok item =>
      value ← tx_lift (item_ValueCopy item);
      match value with
      | [v] => if negb (Z_of_byte v =? schemaVersion)
               then tx_fail (Errorf "%w for stream %q" [Sentinel store_ErrUnsupportedSchema])
               else mret tt
      | _ => tx_fail (Errorf "%w for stream %q" [Sentinel store_ErrUnsupportedSchema])
      end
  end ;;
  tail ← tx_Get (metaKey name tailMetaKey);
  tailFound ←
    match tail with
    | Err e =>
        if errors_Is e badger_ErrKeyNotFound then tx_assign 0 ;; mret false else tx_fail e
    | Ok item =>
        value ← tx_lift (item_ValueCopy item);
        if negb (length value =? seqLen)%nat
        then tx_fail (Errorf "%w: tail for stream %q" [Sentinel store_ErrCorruptEnvelope])
        else tx_assign (be_decode value) ;; mret true
    end;
  tx_for [pendingPrefix name; deadPrefix name] (λ prefix,
    maximum ← maxStoredSequence prefix;
    tail ← tx_read;
    match maximum with
    | None => mret tt
    | Some maximum =>
        if negb tailFound || (tail <? maximum)
        then tx_fail (Errorf "%w for stream %q: stored=%d tail=%d" [Sentinel store_ErrTailRegression])
        else mret tt
    end) ;;
  validateStoredStates name.

Definition load (db : DB) (s : Stream) : DB * Stream * option goerr :=
  let '(db, tail, err) := db_Update db (s_tail s) (load_closure (s_name s)) in
  (db, set_tail s tail, err).

(** ** Appending *)

(** The size loop of [AppendBatch]: whether it returns [ErrBatchTooLarge]. *)
Fixpoint batch_too_large (totalSize : Z) (payloads : list bytes) : bool :=
  match payloads with
  | [] => false
  | payload :: payloads =>
      if maxBatchValueSize - totalSize <? len payload then true
      else batch_too_large (totalSize + len payload) payloads
  end.

(** The encoding loop: the records and their envelopes, from index [index] on. *)
Fixpoint append_records (tail now index : Z) (payloads : list bytes) : res (list (StoreRecord * bytes)) :=
  match payloads with
  | [] => Ok []
  | payload :: payloads =>
      let seq := u64 (u64 (tail + index) + 1) in
      value ← encodePending {| pe_CreatedAt := now; pe_OriginStream := ""; pe_OriginSeq := 0;
                               pe_Payload := payload |};
      rest ← append_records tail now (index + 1) payloads;
      Ok (({| r_Seq := seq; r_CreatedAt := now; r_OriginStream := ""; r_OriginSeq := 0;
              r_Payload := payload |}, value) :: rest)
  end.

Definition append_closure (s : Stream) (records : list (StoreRecord * bytes)) (newTail : Z) : txm Txn unit unit :=
  tx_for records (λ '(record, encoded), tx_Set (pendingKey (s_name s) (r_Seq record)) encoded) ;;
  tx_Set (metaKey (s_name s) tailMetaKey) (be_encode 8 newTail) ;;
  tx_error (before_commit s "append").

Definition AppendBatch (db : DB) (s : Stream) (payloads : list bytes) (now : Z)
    : DB * Stream * res (list StoreRecord) :=
  match payloads with
  | [] => (db, s, Ok [])
  | _ :: _ =>
      if max_uint64 - s_tail s <? len payloads then (db, s, Err (Sentinel store_ErrSeqExhausted))
      else if batch_too_large 0 payloads then (db, s, Err (Sentinel store_ErrBatchTooLarge))
      else
        match append_records (s_tail s) now 0 payloads with
        | Err e => (db, s, Err e)
        | Ok records =>
            match last records with
            | None => (db, s, Ok [])
            | Some (newest, _) =>
                let newTail := r_Seq newest in
                let '(db, _, err) := db_Update db tt (append_closure s records newTail) in
                match err with
                | Some e =>
                    (db, s, Err (if errors_Is e badger_ErrTxnTooBig
                                 then Errorf "%w: %v" [Sentinel store_ErrBatchTooLarge]
                                 else Errorf "store: append to %q: %w" [e]))
                | None => (db, set_tail s newTail, Ok records.*1)
                end
            end
        end
  end.

(** [records[0]] of a batch of one payload is in range: a batch that succeeds
    returns a record per payload. *)
Definition Append (db : DB) (s : Stream) (payload : bytes) (now : Z) : DB * Stream * res StoreRecord :=
  match AppendBatch db s [payload] now with
  | (db, s, Ok (record :: _)) => (db, s, Ok record)
  | (db, s, Ok []) => (db, s, Err (NewError "index out of range"))
  | (db, s, Err e) => (db, s, Err e)
  end.

(** ** Reading pending and dead-letter records *)

(** The loop of [ScanBatch]; the captured variable is [records]. *)
Fixpoint scan_loop (prefix : bytes) (limit : Z) (iterator : list Item) : txm Txn (list StoreRecord) unit :=
  match iterator with
  | [] => mret tt
  | item :: next =>
      records ← tx_read;
      if ValidForPrefix iterator prefix && (len records <? limit) then
        match parseSequence prefix (item_Key item) with
        | None => tx_fail (Sentinel store_ErrCorruptEnvelope)
        | Some seq =>
            value ← tx_lift (item_ValueCopy item);
            match decodePending value with
            | Err e => tx_fail (Errorf "store: decode pending %q/%d: %w" [e])
            | Ok envelope =>
                tx_assign (records ++ [{| r_Seq := seq;
                                          r_CreatedAt := pe_CreatedAt envelope;
                                          r_OriginStream := pe_OriginStream envelope;
                                          r_OriginSeq := pe_OriginSeq envelope;
                                          r_Payload := pe_Payload envelope |}]) ;;
                scan_loop prefix limit next
            end
        end
      else mret tt
  end.

Definition ScanBatch (db : DB) (s : Stream) (from limit : Z) : list StoreRecord * option goerr :=
  if limit <=? 0 then ([], Some (Sentinel store_ErrInvalidBatchSize))
  else
    db_View db [] (
      iterator ← tx_Seek false (pendingKey (s_name s) from);
      scan_loop (pendingPrefix (s_name s)) limit iterator).

Fixpoint dead_loop (prefix : bytes) (limit : Z) (iterator : list Item) : txm Txn (list DeadRecord) unit :=
  match iterator with
  | [] => mret tt
  | item :: next =>
      records ← tx_read;
      if ValidForPrefix iterator prefix && (len records <? limit) then
        match parseSequence prefix (item_Key item) with
        | None => tx_fail (Sentinel store_ErrCorruptEnvelope)
        | Some seq =>
            value ← tx_lift (item_ValueCopy item);
            match decodeDead value with
            | Err e => tx_fail (Errorf "store: decode dead letter %q/%d: %w" [e])
            | Ok envelope =>
                tx_assign (records ++ [{| dr_Seq := seq;
                                          dr_CreatedAt := de_CreatedAt envelope;
                                          dr_DeadLetteredAt := de_DeadLetteredAt envelope;
                                          dr_OriginStream := de_OriginStream envelope;
                                          dr_OriginSeq := de_OriginSeq envelope;
                                          dr_Payload := de_Payload envelope;
                                          dr_Reason := de_Reason envelope |}]) ;;
                dead_loop prefix limit next
            end
        end
      else mret tt
  end.

Definition DeadLetters (db : DB) (s : Stream) (from limit : Z) : list DeadRecord * option goerr :=
  if limit <=? 0 then ([], Some (Sentinel store_ErrInvalidBatchSize))
  else
    db_View db [] (
      iterator ← tx_Seek false (deadKey (s_name s) from);
      dead_loop (deadPrefix (s_name s)) limit iterator).

(** ** Completing records *)

(** The loop body of [Commit]. *)
Definition commit_one (s : Stream) (seq : Z) : txm Txn unit unit :=
  item ← tx_Get (pendingKey (s_name s) seq);
  match item with
  | Err e =>
      if errors_Is e badger_ErrKeyNotFound
      then tx_fail (Errorf "%w: %s/%d" [Sentinel store_ErrNotFound]) else tx_fail e
  | Ok _ => tx_Delete (pendingKey (s_name s) seq)
  end.

Definition Commit (db : DB) (s : Stream) (seqs : list Z) : DB * option goerr :=
  match seqs with
  | [] => (db, None)
  | _ :: _ =>
      let '(db, _, err) := db_Update db tt (tx_for seqs (commit_one s) ;; tx_error (before_commit s "commit")) in
      match err with
      | Some e =>
          (db, Some (if errors_Is e badger_ErrTxnTooBig
                     then Errorf "%w: %v" [Sentinel store_ErrBatchTooLarge] else e))
      | None => (db, None)
      end
  end.

(** The closure of [DeadLetter] from the found pending item on. *)
Definition dead_letter_item (s : Stream) (seq : Z) (reason : string) (now : Z) (item : Item) : txm Txn unit unit :=
  existing ← tx_Get (deadKey (s_name s) seq);
  match existing with
  | Ok _ => tx_fail (Errorf "%w: %s/%d exists as pending and dead letter" [Sentinel store_ErrStateConflict])
  | Err e => if negb (errors_Is e badger_ErrKeyNotFound) then tx_fail e else mret tt
  end ;;
  value ← tx_lift (item_ValueCopy item);
  pending ← tx_lift (decodePending value);
  let '(originStream, originSeq) :=
    if bool_decide (pe_OriginStream pending = "") then (s_name s, seq)
    else (pe_OriginStream pending, pe_OriginSeq pending) in
  dead ← tx_lift (encodeDead {| de_CreatedAt := pe_CreatedAt pending;
                                de_DeadLetteredAt := now;
                                de_OriginStream := originStream;
                                de_OriginSeq := originSeq;
                                de_Payload := pe_Payload pending;
                                de_Reason := reason |});
  tx_Set (deadKey (s_name s) seq) dead ;;
  tx_Delete (pendingKey (s_name s) seq) ;;
  tx_error (before_commit s "dead-letter").

Definition dead_letter_closure (s : Stream) (seq : Z) (reason : string) (now : Z) : txm Txn unit unit :=
  item ← tx_Get (pendingKey (s_name s) seq);
  match item with
  | Err e =>
      if errors_Is e badger_ErrKeyNotFound
      then tx_fail (Errorf "%w: %s/%d" [Sentinel store_ErrNotFound]) else tx_fail e
  | Ok item => dead_letter_item s seq reason now item
  end.

Definition DeadLetter (db : DB) (s : Stream) (seq : Z) (reason : string) (now : Z) : DB * option goerr :=
  let '(db, _, err) := db_Update db tt (dead_letter_closure s seq reason now) in (db, err).

(** The zero value of [Record]. *)
Definition zero_record : StoreRecord :=
  {| r_Seq := 0; r_CreatedAt := zero_time; r_OriginStream := ""; r_OriginSeq := 0; r_Payload := [] |}.

(** The closure of [Requeue]; the captured variable is [result]. *)
Definition requeue_closure (s : Stream) (seq newSeq : Z) : txm Txn StoreRecord unit :=
  item ← tx_Get (deadKey (s_name s) seq);
  match item with
  | Err e =>
      if errors_Is e badger_ErrKeyNotFound
      then tx_fail (Errorf "%w: dead letter %s/%d" [Sentinel store_ErrNotFound]) else tx_fail e
  | Ok item =>
      value ← tx_lift (item_ValueCopy item);
      dead ← tx_lift (decodeDead value);
      let pending := {| pe_CreatedAt := de_CreatedAt dead;
                        pe_OriginStream := de_OriginStream dead;
                        pe_OriginSeq := de_OriginSeq dead;
                        pe_Payload := de_Payload dead |} in
      encoded ← tx_lift (encodePending pending);
      tx_Set (pendingKey (s_name s) newSeq) encoded ;;
      tx_Set (metaKey (s_name s) tailMetaKey) (be_encode 8 newSeq) ;;
      tx_Delete (deadKey (s_name s) seq) ;;
      tx_error (before_commit s "requeue") ;;
      tx_assign {| r_Seq := newSeq;
                   r_CreatedAt := pe_CreatedAt pending;
                   r_OriginStream := pe_OriginStream pending;
                   r_OriginSeq := pe_OriginSeq pending;
                   r_Payload := pe_Payload pending |}
  end.

Definition Requeue (db : DB) (s : Stream) (seq : Z) : DB * Stream * res StoreRecord :=
  if s_tail s =? max_uint64 then (db, s, Err (Sentinel store_ErrSeqExhausted))
  else
    let newSeq := u64 (s_tail s + 1) in
    let '(db, result, err) := db_Update db zero_record (requeue_closure s seq newSeq) in
    match err with
    | Some e => (db, s, Err e)
    | None => (db, set_tail s newSeq, Ok result)
    end.

(** ** Counts *)

Definition count_more (pending : bool) (c : Counts) : Counts :=
  {| c_Tail := c_Tail c;
     c_Pending := if pending then u64 (c_Pending c + 1) else c_Pending c;
     c_DeadLetter := if pending then c_DeadLetter c else u64 (c_DeadLetter c + 1);
     c_OldestSeq := c_OldestSeq c;
     c_OldestTime := c_OldestTime c |}.

Definition set_oldest (c : Counts) (seq time : Z) : Counts :=
  {| c_Tail := c_Tail c; c_Pending := c_Pending c; c_DeadLetter := c_DeadLetter c;
     c_OldestSeq := seq; c_OldestTime := time |}.

(** The loop over one target; [pending] is [target.count == &counts.Pending]. *)
Fixpoint count_loop (prefix : bytes) (pending : bool) (iterator : list Item) : txm Txn Counts unit :=
  match iterator with
  | [] => mret tt
  | item :: next =>
      if ValidForPrefix iterator prefix then
        counts ← tx_read;
        let counts := count_more pending counts in
        tx_assign counts ;;
        (if pending && (c_OldestSeq counts =? 0) then
           match parseSequence prefix (item_Key item) with
           | None => tx_fail (Sentinel store_ErrCorruptEnvelope)
           | Some seq =>
               value ← tx_lift (item_ValueCopy item);
               envelope ← tx_lift (decodePending value);
               tx_assign (set_oldest counts seq (pe_CreatedAt envelope))
           end
         else mret tt) ;;
        count_loop prefix pending next
      else mret tt
  end.

Definition CountsOf (db : DB) (s : Stream) : Counts * option goerr :=
  let counts := {| c_Tail := s_tail s; c_Pending := 0; c_DeadLetter := 0; c_OldestSeq := 0;
                   c_OldestTime := zero_time |} in
  db_View db counts (
    tx_for [(pendingPrefix (s_name s), true); (deadPrefix (s_name s), false)] (λ '(prefix, pending),
      iterator ← tx_Seek false prefix;
      count_loop prefix pending iterator)).
End store.

(** ** Root

    The root maps a name to the process-unique handle of its stream; a caller
    holds the name and the operations above act on the handle the map holds. *)
Record Root : Type := {
  root_closed : bool;
  root_streams : gmap string Stream
}.

(** [badger.DefaultOptions(dir)] with the calls of [Open] applied. *)
Record BadgerOptions : Type := {
  bo_Dir : string;
  bo_ValueDir : string;
  bo_NumVersionsToKeep : Z;
  bo_SyncWrites : bool
}.

Section root.
Context {B : Badger}.

Definition Open (badger_Open : BadgerOptions → res DB) (dir : string) : res (DB * Root) :=
  if bool_decide (dir = "") then Err (NewError "store: directory is required")
  else
    match badger_Open {| bo_Dir := dir; bo_ValueDir := dir; bo_NumVersionsToKeep := 1; bo_SyncWrites := true |} with
    | Err e => Err (Errorf "store: open %q: %w" [e])
    | Ok db => Ok (db, {| root_closed := false; root_streams := ∅ |})
    end.

Definition Root_Stream (db : DB) (r : Root) (name : string) : DB * Root * res string :=
  match ValidateStreamName name with
  | Some e => (db, r, Err e)
  | None =>
      if root_closed r then (db, r, Err (Sentinel store_ErrClosed))
      else
        match root_streams r !! name with
        | Some _ => (db, r, Ok name)
        | None =>
            match load db {| s_name := name; s_tail := 0; s_beforeCommit := None |} with
            | (db, _, Some e) => (db, r, Err e)
            | (db, stream, None) =>
                (db, {| root_closed := root_closed r; root_streams := <[name := stream]> (root_streams r) |}, Ok name)
            end
        end
  end.

Definition Root_Close (db : DB) (r : Root) : DB * Root * option goerr :=
  if root_closed r then (db, r, None)
  else
    let '(db, err) := db_Close db in
    (db, {| root_closed := true; root_streams := root_streams r |}, err).

Definition RunValueLogGC (db : DB) (discardRatio : spec_float) : DB * option goerr :=
  let '(db, err) := db_RunValueLogGC db discardRatio in
  match err with
  | None => (db, None)
  | Some e => (db, Some (if errors_Is e badger_ErrNoRewrite then Sentinel store_ErrNoRewrite else e))
  end.
End root.
