(* ===== verification/StoreIter.v ===== *)
(** * Iterating over a stream's keys

    What an iterator over a prefix of sequence keys visits, in terms of the set
    of sequences stored under that prefix; the merge of [validateStoredStates]
    and the reverse seek of [maxStoredSequence] on such sets. *)
From S2P Require Import Prelude Errors Keys Badger Store.
#[local] Open Scope Z_scope.

(** The keys of [M] under [p] are exactly the sequence keys of [X]. *)
Record indexes (p : bytes) (M : gmap bytes bytes) (X : gset Z) : Prop := {
  indexes_range seq : seq ∈ X → is_u64 seq;
  indexes_key k : p `prefix_of` k → (is_Some (M !! k) ↔ ∃ seq, seq ∈ X ∧ k = sequenceKey p seq)
}.

(** The sequences of [X] from [from] on, in order. *)
Definition seqs_from (X : gset Z) (from : Z) : list Z :=
  merge_sort Z.le (filter (λ seq, from ≤ seq) (elements X)).

Lemma elem_of_seqs_from X from seq : seq ∈ seqs_from X from ↔ seq ∈ X ∧ from ≤ seq.
Proof.
  unfold seqs_from. rewrite merge_sort_Permutation, list_elem_of_filter, elem_of_elements. tauto.
Qed.

Lemma NoDup_seqs_from X from : NoDup (seqs_from X from).
Proof. unfold seqs_from. rewrite merge_sort_Permutation. apply NoDup_filter, NoDup_elements. Qed.

Lemma sorted_seqs_from X from : StronglySorted Z.le (seqs_from X from).
Proof.
  apply StronglySorted_merge_sort; [intros a b c ? ?; lia|].
  intros a b. destruct (Z.le_ge_cases a b); auto.
Qed.

(** A sorted duplicate-free list with the right elements is [seqs_from]. *)
Lemma seqs_from_unique X from l :
  StronglySorted Z.le l → NoDup l → (∀ seq, seq ∈ l ↔ seq ∈ X ∧ from ≤ seq) → l = seqs_from X from.
Proof.
  intros Hs Hn He.
  assert (Hp : l ≡ₚ seqs_from X from).
  { apply NoDup_Permutation; [done|apply NoDup_seqs_from|].
    intros seq. by rewrite He, elem_of_seqs_from. }
  apply (StronglySorted_unique Z.le); [done|apply sorted_seqs_from|done].
Qed.

Lemma StronglySorted_elem {A} (R : relation A) x l y : StronglySorted R (x :: l) → y ∈ l → R x y.
Proof. intros [_ H]%StronglySorted_inv Hy. by eapply Forall_forall in H. Qed.

Section iter.
Context {B : Badger}.
Implicit Types (items : list Item).

(** In key order, what leaves a prefix never comes back to it. *)
Lemma prefix_run p k0 items :
  p `prefix_of` k0 →
  StronglySorted bytes_le (item_Key <$> items) →
  (∀ k, k ∈ item_Key <$> items → bytes_le k0 k) →
  ∃ run rest, items = run ++ rest
    ∧ (∀ k, k ∈ item_Key <$> run → p `prefix_of` k)
    ∧ (∀ k, k ∈ item_Key <$> rest → ¬ p `prefix_of` k).
Proof.
  intros Hp. induction items as [|item items IH]; intros Hs Hge.
  { exists [], []. split_and!; [done|intros k []%elem_of_nil..]. }
  destruct (decide (p `prefix_of` item_Key item)) as [Hi|Hi].
  - destruct IH as (run & rest & -> & Hrun & Hrest).
    + by apply StronglySorted_inv in Hs as [? _].
    + intros k Hk. apply Hge. by right.
    + exists (item :: run), rest. split_and!; [done| |done]. intros k. cbn.
      rewrite elem_of_cons. intros [->|?]; auto.
  - exists [], (item :: items). split_and!; [done|intros k []%elem_of_nil|].
    intros k. cbn. rewrite elem_of_cons. intros [->|Hk] Hkp; [done|]. apply Hi.
    eapply (bytes_le_prefix_between p k0 _ k); [done..| |].
    + apply Hge. by left.
    + by eapply (StronglySorted_elem bytes_le).
Qed.

Lemma ValidForPrefix_run p run rest item :
  (∀ k, k ∈ item_Key <$> item :: run → p `prefix_of` k) → ValidForPrefix (item :: run ++ rest) p = true.
Proof. intros H. simpl. apply bool_decide_true, H. by left. Qed.

Lemma ValidForPrefix_rest p rest :
  (∀ k, k ∈ item_Key <$> rest → ¬ p `prefix_of` k) → ValidForPrefix rest p = false.
Proof. intros H. destruct rest as [|item rest]; [done|]. apply bool_decide_false, H. by left. Qed.

(** A list of keys all of which are sequence keys. *)
Lemma sequence_keys p (ks : list bytes) :
  (∀ k, k ∈ ks → ∃ seq, is_u64 seq ∧ k = sequenceKey p seq) →
  ∃ seqs, ks = sequenceKey p <$> seqs ∧ Forall is_u64 seqs.
Proof.
  induction ks as [|k ks IH]; intros H; [by exists []|].
  destruct (H k) as (seq & Hs & ->); [by left|].
  destruct IH as (seqs & -> & Hf); [intros k Hk; apply H; by right|].
  exists (seq :: seqs). split; [done|by constructor].
Qed.

Lemma sequence_keys_sorted p seqs :
  Forall is_u64 seqs → StronglySorted bytes_le (sequenceKey p <$> seqs) → StronglySorted Z.le seqs.
Proof.
  intros Hf. induction Hf as [|seq seqs Hs Hf IH]; [constructor|]. cbn.
  intros [Ho Hk]%StronglySorted_inv. constructor; [by apply IH|].
  apply Forall_forall. intros seq' Hin.
  eapply (sequenceKey_le p); [done|by eapply Forall_forall in Hf|].
  eapply Forall_forall in Hk; [exact Hk|]. by apply list_elem_of_fmap_2.
Qed.

(** What a forward iterator over a prefix visits: the stored sequences from
    [from] on, in order, and then keys outside the prefix. *)
Lemma seek_run fails p M X from k0 items :
  indexes p M X →
  p `prefix_of` k0 →
  (∀ seq, seq ∈ X → (bytes_le k0 (sequenceKey p seq) ↔ from ≤ seq)) →
  seek_spec fails M false k0 items →
  ∃ run rest, items = run ++ rest
    ∧ item_Key <$> run = sequenceKey p <$> seqs_from X from
    ∧ (∀ k, k ∈ item_Key <$> rest → ¬ p `prefix_of` k).
Proof.
  intros HX Hp Hle [Hs Hn He Hv].
  destruct (prefix_run p k0 items) as (run & rest & -> & Hrun & Hrest); [done..| |].
  { intros k Hk. by apply He in Hk as [_ ?]. }
  exists run, rest. split_and!; [done| |done].
  rewrite fmap_app in Hs, Hn, He.
  apply NoDup_app in Hn as (Hn & _ & _).
  destruct (sequence_keys p (item_Key <$> run)) as (seqs & Hk & Hf).
  { intros k Hk. destruct (proj1 (indexes_key p M X HX k (Hrun k Hk))) as (seq & Hseq & ->).
    - apply He, elem_of_app. by left.
    - exists seq. split; [by eapply indexes_range|done]. }
  rewrite Hk. f_equal. apply seqs_from_unique.
  - apply (sequence_keys_sorted p); [done|]. rewrite <- Hk.
    by apply StronglySorted_app_1_l in Hs.
  - rewrite Hk in Hn. by eapply NoDup_fmap_1.
  - intros seq. split.
    + intros Hin. assert (Hkin : sequenceKey p seq ∈ item_Key <$> run).
      { rewrite Hk. by apply list_elem_of_fmap_2. }
      destruct (proj1 (He (sequenceKey p seq))) as [HM Hge]; [apply elem_of_app; by left|].
      destruct (proj1 (indexes_key p M X HX _ (sequenceKey_prefix _ _)) HM) as (seq' & Hin' & Heq).
      apply sequenceKey_inj in Heq as ->; [|by eapply Forall_forall in Hf|by eapply indexes_range].
      split; [done|]. by apply Hle.
    + intros [Hin Hge]. assert (Hm : sequenceKey p seq ∈ (item_Key <$> run) ++ (item_Key <$> rest)).
      { apply He. split; [|by apply Hle].
        apply (indexes_key p M X HX); [apply sequenceKey_prefix|eauto]. }
      apply elem_of_app in Hm as [Hm|Hm]; [|by apply Hrest in Hm as []; apply sequenceKey_prefix].
      rewrite Hk in Hm. apply list_elem_of_fmap in Hm as (seq' & Heq & Hin').
      apply sequenceKey_inj in Heq as ->; [done|by eapply indexes_range|by eapply Forall_forall in Hf].
Qed.

(** The two start keys the store seeks to. *)
Lemma seek_start_sequence p (X : gset Z) from :
  (∀ seq, seq ∈ X → is_u64 seq) → is_u64 from →
  ∀ seq, seq ∈ X → (bytes_le (sequenceKey p from) (sequenceKey p seq) ↔ from ≤ seq).
Proof. intros HX Hf seq Hin. apply sequenceKey_le; auto. Qed.

Lemma seek_start_prefix p (X : gset Z) :
  (∀ seq, seq ∈ X → is_u64 seq) →
  ∀ seq, seq ∈ X → (bytes_le p (sequenceKey p seq) ↔ 0 ≤ seq).
Proof.
  intros HX seq Hin. pose proof (HX seq Hin) as []. split; [done|].
  intros _. apply bytes_le_prefix, sequenceKey_prefix.
Qed.

(** [maxStoredSequence]: the head of a reverse iterator from the greatest key. *)
Lemma seek_reverse_head fails p M X items :
  indexes p M X →
  seek_spec fails M true (sequenceKey p max_uint64) items →
  (X = ∅ ∧ ValidForPrefix items p = false)
  ∨ ∃ seq item rest, items = item :: rest ∧ ValidForPrefix items p = true
      ∧ item_Key item = sequenceKey p seq ∧ seq ∈ X ∧ ∀ seq', seq' ∈ X → seq' ≤ seq.
Proof.
  intros HX [Hs _ He _].
  assert (Hin : ∀ seq, seq ∈ X → sequenceKey p seq ∈ item_Key <$> items).
  { intros seq Hseq. apply He. split.
    - apply (indexes_key p M X HX); [apply sequenceKey_prefix|eauto].
    - apply sequenceKey_le; [by eapply indexes_range|unfold is_u64, max_uint64; lia|].
      pose proof (indexes_range _ _ _ HX _ Hseq) as [_ ?]. unfold max_uint64. lia. }
  destruct (decide (X = ∅)) as [->|[x Hx]%set_choose_L].
  - left. split; [done|]. destruct items as [|item items]; [done|]. apply bool_decide_false. intros Hp.
    destruct (proj1 (He (item_Key item))) as [HM _]; [by left|].
    by apply (indexes_key _ _ _ HX _ Hp) in HM as (seq & []%not_elem_of_empty & _).
  - right. pose proof (Hin x Hx) as Hxin. destruct items as [|item items]; [by apply elem_of_nil in Hxin|].
    destruct (proj1 (He (item_Key item))) as [HM Hmax]; [by left|]. cbn in Hs.
    assert (Hge : ∀ seq, seq ∈ X → bytes_le (sequenceKey p seq) (item_Key item)).
    { intros seq [->|Hk]%Hin%elem_of_cons; [done|]. by apply (StronglySorted_elem _ _ _ _ Hs) in Hk. }
    assert (Hp : p `prefix_of` item_Key item).
    { eapply bytes_le_prefix_between; [..|by apply (Hge x)|exact Hmax]; apply sequenceKey_prefix. }
    apply (indexes_key _ _ _ HX _ Hp) in HM as (seq & Hseq & Hkey).
    exists seq, item, items. split_and!; [done|by apply bool_decide_true|done|done|].
    intros seq' Hseq'. specialize (Hge seq' Hseq'). rewrite Hkey in Hge.
    eapply (sequenceKey_le p); [..|done]; by eapply indexes_range.
Qed.

(** [currentSequence] on a run of sequence keys and at its end. *)
Lemma currentSequence_run p seq seqs run rest :
  is_u64 seq → item_Key <$> run = sequenceKey p <$> (seq :: seqs) →
  ∃ item run', run = item :: run' ∧ item_Key <$> run' = sequenceKey p <$> seqs
    ∧ currentSequence (run ++ rest) p = Ok (Some seq) ∧ ValidForPrefix (run ++ rest) p = true.
Proof.
  intros Hs Hk. destruct run as [|item run]; [done|]. cbn in Hk. injection Hk as Hi Hk.
  exists item, run. simpl. rewrite Hi, parseSequence_key by done.
  rewrite bool_decide_true by apply sequenceKey_prefix. done.
Qed.

Lemma currentSequence_rest p rest :
  ValidForPrefix rest p = false → currentSequence rest p = Ok None.
Proof. destruct rest as [|item rest]; [done|]. simpl. intros H. by rewrite H. Qed.
End iter.

(** ** The merge on sequences *)

(** What the merge computes on the two sorted lists of sequences. *)
Definition merge_result (ps ds : list Z) (r : res unit) : Prop :=
  match r with
  | Ok _ => ∀ seq, seq ∈ ps → seq ∉ ds
  | Err e => errors_Is e store_ErrStateConflict = true ∧ ∃ seq, seq ∈ ps ∧ seq ∈ ds
  end.

Lemma merge_result_pending p ps ds r :
  (∀ d, d ∈ ds → p < d) → merge_result ps ds r → merge_result (p :: ps) ds r.
Proof.
  intros Hp. destruct r as [?|e]; simpl.
  - intros H seq [->|Hin]%elem_of_cons; [intros Hd%Hp; lia|auto].
  - intros (He & seq & H1 & H2). split; [done|]. exists seq. split; [by right|done].
Qed.

Lemma merge_result_dead ps d ds r :
  (∀ p, p ∈ ps → d < p) → merge_result ps ds r → merge_result ps (d :: ds) r.
Proof.
  intros Hd. destruct r as [?|e]; simpl.
  - intros H seq Hin [->|Hin']%elem_of_cons; [specialize (Hd _ Hin); lia|by apply (H seq)].
  - intros (He & seq & H1 & H2). split; [done|]. exists seq. split; [done|by right].
Qed.

Section merge.
Context {B : Badger}.
Context (pk dk : bytes).

Lemma merge_states_unfold pending dead :
  merge_states pk dk pending dead =
    if ValidForPrefix pending pk || ValidForPrefix dead dk then
      pendingSeq ← currentSequence pending pk;
      deadSeq ← currentSequence dead dk;
      match pendingSeq, deadSeq with
      | None, _ => match dead with [] => Ok tt | _ :: dead' => merge_states pk dk pending dead' end
      | Some _, None =>
          match pending with [] => Ok tt | _ :: pending' => merge_states pk dk pending' dead end
      | Some p, Some d =>
          if p =? d then Err (Errorf "%w: %s/%d exists as pending and dead letter" [Sentinel store_ErrStateConflict])
          else if p <? d then
            match pending with [] => Ok tt | _ :: pending' => merge_states pk dk pending' dead end
          else match dead with [] => Ok tt | _ :: dead' => merge_states pk dk pending dead' end
      end
    else Ok tt.
Proof. by destruct pending, dead. Qed.

Lemma merge_states_spec ps ds prun prest drun drest :
  Forall is_u64 ps → Forall is_u64 ds → StronglySorted Z.lt ps → StronglySorted Z.lt ds →
  item_Key <$> prun = sequenceKey pk <$> ps → item_Key <$> drun = sequenceKey dk <$> ds →
  ValidForPrefix prest pk = false → ValidForPrefix drest dk = false →
  merge_result ps ds (merge_states pk dk (prun ++ prest) (drun ++ drest)).
Proof.
  intros Hps Hds Sps Sds Hpk Hdk Hpr Hdr. revert prun Hpk ds drun Hds Sds Hdk.
  induction ps as [|p ps IHp]; intros prun Hpk ds.
  - apply fmap_nil_inv in Hpk as ->. simpl app.
    induction ds as [|d ds IHd]; intros drun Hds Sds Hdk; rewrite merge_states_unfold, Hpr.
    + apply fmap_nil_inv in Hdk as ->. simpl. rewrite Hdr. by intros seq ?%elem_of_nil.
    + apply Forall_cons_iff in Hds as [Hd Hds]. apply StronglySorted_inv in Sds as [Sds _].
      destruct (currentSequence_run dk d ds drun drest Hd Hdk) as (item & run & -> & Hk & Hc & ->).
      rewrite (currentSequence_rest pk prest Hpr), Hc. cbn.
      specialize (IHd run Hds Sds Hk). destruct (merge_states _ _ _ _) as [?|e]; simpl in *.
      * by intros seq ?%elem_of_nil.
      * destruct IHd as (_ & seq & ?%elem_of_nil & _). done.
  - apply Forall_cons_iff in Hps as [Hp Hps]. apply StronglySorted_inv in Sps as [Sps Lps].
    induction ds as [|d ds IHd]; intros drun Hds Sds Hdk; rewrite merge_states_unfold;
      destruct (currentSequence_run pk p ps prun prest Hp Hpk) as (pitem & prun' & Hprun & Hk & Hc & ->);
      rewrite Hc; simpl orb; cbn [mbind result_bind].
    + apply fmap_nil_inv in Hdk as ->. simpl app. rewrite (currentSequence_rest dk drest Hdr). cbn.
      subst prun. simpl. apply merge_result_pending; [by intros d ?%elem_of_nil|].
      apply (IHp Hps Sps prun' Hk [] []); [constructor..|done].
    + apply Forall_cons_iff in Hds as [Hd Hds]. apply StronglySorted_inv in Sds as [Sds Lds].
      destruct (currentSequence_run dk d ds drun drest Hd Hdk) as (ditem & drun' & Hdrun & Hk' & Hc' & _).
      rewrite Hc'. cbn [mbind result_bind]. case_match eqn:E1; [|case_match eqn:E2]; zbool.
      * subst. split; [done|]. exists d. split; by left.
      * subst prun. simpl. apply merge_result_pending.
        { intros d' [->|Hd']%elem_of_cons; [done|]. eapply Forall_forall in Lds; [|done]. lia. }
        apply (IHp Hps Sps prun' Hk (d :: ds) drun); [by constructor|by constructor|done].
      * subst drun. simpl. apply merge_result_dead.
        { intros p' [->|Hp']%elem_of_cons; [lia|]. eapply Forall_forall in Lps; [|done]. lia. }
        by apply IHd.
Qed.
End merge.
