(* ===== verification/StoreSpec.v ===== *)
(** * The abstract durable queue

    What one stream of the store promises, without keys, envelopes or
    transactions: a tail, the pending records and the dead letters by sequence.
    [represents] relates a queue to the contents of the database. *)
From S2P Require Import Prelude Errors Keys Envelope Badger Store StoreIter.
From Stdlib Require Import Strings.Byte.
#[local] Open Scope Z_scope.

Record queue : Type := {
  q_tail : Z;
  q_pending : gmap Z pendingEnvelope;
  q_dead : gmap Z deadEnvelope
}.

Definition empty_queue : queue := {| q_tail := 0; q_pending := ∅; q_dead := ∅ |}.

(** Envelopes as the store writes them: they decode to themselves. *)
Definition pending_ok (v : pendingEnvelope) : Prop := pending_wf v ∧ pending_fits v.
Definition dead_ok (v : deadEnvelope) : Prop := dead_wf v ∧ dead_fits v.

(** The well-formed queues: every stored sequence was allocated, and no sequence
    is both pending and dead-lettered. *)
Record queue_wf (q : queue) : Prop := {
  wf_tail : is_u64 (q_tail q);
  wf_pending seq v : q_pending q !! seq = Some v → 1 ≤ seq ≤ q_tail q ∧ pending_ok v;
  wf_dead seq v : q_dead q !! seq = Some v → 1 ≤ seq ≤ q_tail q ∧ dead_ok v;
  wf_disjoint seq v w : q_pending q !! seq = Some v → q_dead q !! seq = Some w → False
}.

(** ** Abstract operations *)

Definition fresh_envelope (now : Z) (payload : bytes) : pendingEnvelope :=
  {| pe_CreatedAt := now; pe_OriginStream := ""; pe_OriginSeq := 0; pe_Payload := payload |}.

(** The payloads of a batch get the sequences after the tail, in order. *)
Fixpoint append_pending (tail now : Z) (payloads : list bytes) (P : gmap Z pendingEnvelope) : gmap Z pendingEnvelope :=
  match payloads with
  | [] => P
  | payload :: payloads => append_pending (tail + 1) now payloads (<[tail + 1 := fresh_envelope now payload]> P)
  end.

Definition q_append (now : Z) (payloads : list bytes) (q : queue) : queue :=
  {| q_tail := q_tail q + len payloads;
     q_pending := append_pending (q_tail q) now payloads (q_pending q);
     q_dead := q_dead q |}.

Definition record_of (seq : Z) (v : pendingEnvelope) : StoreRecord :=
  {| r_Seq := seq; r_CreatedAt := pe_CreatedAt v; r_OriginStream := pe_OriginStream v;
     r_OriginSeq := pe_OriginSeq v; r_Payload := pe_Payload v |}.

Definition dead_record_of (seq : Z) (v : deadEnvelope) : DeadRecord :=
  {| dr_Seq := seq; dr_CreatedAt := de_CreatedAt v; dr_DeadLetteredAt := de_DeadLetteredAt v;
     dr_OriginStream := de_OriginStream v; dr_OriginSeq := de_OriginSeq v;
     dr_Payload := de_Payload v; dr_Reason := de_Reason v |}.

(** The records a batch returns. *)
Fixpoint appended_records (tail now : Z) (payloads : list bytes) : list StoreRecord :=
  match payloads with
  | [] => []
  | payload :: payloads => record_of (tail + 1) (fresh_envelope now payload) :: appended_records (tail + 1) now payloads
  end.

(** A page: the first [limit] records from sequence [from] on, in order. *)
Definition q_page {V R} (m : gmap Z V) (mk : Z → V → R) (from limit : Z) : list R :=
  omap (λ seq, mk seq <$> m !! seq) (take (Z.to_nat limit) (seqs_from (dom m) from)).

Definition q_scan (from limit : Z) (q : queue) : list StoreRecord := q_page (q_pending q) record_of from limit.
Definition q_dead_page (from limit : Z) (q : queue) : list DeadRecord := q_page (q_dead q) dead_record_of from limit.

(** What a commit of [seqs] requires, and what it does. *)
Definition can_commit (seqs : list Z) (q : queue) : Prop :=
  NoDup seqs ∧ ∀ seq, seq ∈ seqs → is_Some (q_pending q !! seq).

Fixpoint delete_all {V} (seqs : list Z) (m : gmap Z V) : gmap Z V :=
  match seqs with [] => m | seq :: seqs => delete_all seqs (delete seq m) end.

Definition q_commit (seqs : list Z) (q : queue) : queue :=
  {| q_tail := q_tail q; q_pending := delete_all seqs (q_pending q); q_dead := q_dead q |}.

(** A dead letter keeps the origin of a requeued record, and otherwise has the
    record itself as its origin. *)
Definition dead_of (stream : string) (seq : Z) (reason : string) (now : Z) (v : pendingEnvelope) : deadEnvelope :=
  {| de_CreatedAt := pe_CreatedAt v;
     de_DeadLetteredAt := now;
     de_OriginStream := if bool_decide (pe_OriginStream v = "") then stream else pe_OriginStream v;
     de_OriginSeq := if bool_decide (pe_OriginStream v = "") then seq else pe_OriginSeq v;
     de_Payload := pe_Payload v;
     de_Reason := reason |}.

Definition q_dead_letter (stream : string) (seq : Z) (reason : string) (now : Z) (q : queue) : queue :=
  match q_pending q !! seq with
  | None => q
  | Some v => {| q_tail := q_tail q;
                 q_pending := delete seq (q_pending q);
                 q_dead := <[seq := dead_of stream seq reason now v]> (q_dead q) |}
  end.

Definition pending_of (v : deadEnvelope) : pendingEnvelope :=
  {| pe_CreatedAt := de_CreatedAt v; pe_OriginStream := de_OriginStream v;
     pe_OriginSeq := de_OriginSeq v; pe_Payload := de_Payload v |}.

Definition q_requeue (seq : Z) (q : queue) : queue :=
  match q_dead q !! seq with
  | None => q
  | Some v => {| q_tail := q_tail q + 1;
                 q_pending := <[q_tail q + 1 := pending_of v]> (q_pending q);
                 q_dead := delete seq (q_dead q) |}
  end.

(** ** Representation *)

(** The record keys of stream [name] in [M] hold the maps [P] and [D]. *)
Record maps (name : string) (M : gmap bytes bytes) (P : gmap Z pendingEnvelope) (D : gmap Z deadEnvelope) : Prop := {
  maps_pending seq : is_u64 seq → M !! pendingKey name seq = pending_layout <$> P !! seq;
  maps_dead seq : is_u64 seq → M !! deadKey name seq = dead_layout <$> D !! seq;
  maps_pending_index : indexes (pendingPrefix name) M (dom P);
  maps_dead_index : indexes (deadPrefix name) M (dom D)
}.

Record represents (name : string) (M : gmap bytes bytes) (q : queue) : Prop := {
  rep_maps : maps name M (q_pending q) (q_dead q);
  rep_wf : queue_wf q;
  rep_tail : M !! metaKey name tailMetaKey = Some (be_encode 8 (q_tail q))
             ∨ M !! metaKey name tailMetaKey = None ∧ q_tail q = 0;
  rep_schema : M !! metaKey name schemaMetaKey = Some [byte_of_Z schemaVersion]
               ∨ M !! metaKey name schemaMetaKey = None
}.

(** The keys outside the stream's own prefix are untouched. *)
Definition same_outside (name : string) (M M' : gmap bytes bytes) : Prop :=
  ∀ k, ¬ streamPrefix name `prefix_of` k → M' !! k = M !! k.

(** ** Updating the representation *)

Lemma indexes_insert p M X seq v :
  is_u64 seq → indexes p M X → indexes p (<[sequenceKey p seq := v]> M) ({[seq]} ∪ X).
Proof.
  intros Hs [Hr Hk]. split; [set_solver|]. intros k Hp.
  destruct (decide (k = sequenceKey p seq)) as [->|Hne].
  - rewrite lookup_insert_eq. split; [intros _; exists seq; set_solver|by eauto].
  - rewrite lookup_insert_ne, Hk by done. split; intros (seq' & Hin & ->); exists seq'; set_solver.
Qed.

Lemma indexes_delete p M X seq :
  is_u64 seq → indexes p M X → indexes p (delete (sequenceKey p seq) M) (X ∖ {[seq]}).
Proof.
  intros Hs [Hr Hk]. split; [set_solver|]. intros k Hp.
  destruct (decide (k = sequenceKey p seq)) as [->|Hne].
  - rewrite lookup_delete_eq. split; [by intros []|]. intros (seq' & Hin & Heq).
    apply sequenceKey_inj in Heq; [set_solver|done|apply Hr; set_solver].
  - rewrite lookup_delete_ne, Hk by done. split.
    + intros (seq' & Hin & ->). exists seq'. set_solver.
    + intros (seq' & Hin & ->). exists seq'. set_solver.
Qed.

Lemma indexes_insert_other p M X k v :
  ¬ p `prefix_of` k → indexes p M X → indexes p (<[k := v]> M) X.
Proof.
  intros Hne [Hr Hk]. split; [done|]. intros k' Hp.
  rewrite lookup_insert_ne by (by intros ->). by apply Hk.
Qed.

Lemma indexes_delete_other p M X k :
  ¬ p `prefix_of` k → indexes p M X → indexes p (delete k M) X.
Proof.
  intros Hne [Hr Hk]. split; [done|]. intros k' Hp.
  rewrite lookup_delete_ne by (by intros ->). by apply Hk.
Qed.

Lemma pendingKey_inj name a b : is_u64 a → is_u64 b → pendingKey name a = pendingKey name b → a = b.
Proof. apply sequenceKey_inj. Qed.

Lemma deadKey_inj name a b : is_u64 a → is_u64 b → deadKey name a = deadKey name b → a = b.
Proof. apply sequenceKey_inj. Qed.

#[local] Hint Resolve indexes_insert_other indexes_delete_other : teak.

Section maps.
Context (name : string).
Implicit Types (P : gmap Z pendingEnvelope) (D : gmap Z deadEnvelope).

Lemma maps_set_pending M P D seq v :
  is_u64 seq → maps name M P D → maps name (<[pendingKey name seq := pending_layout v]> M) (<[seq := v]> P) D.
Proof.
  intros Hs [HP HD IP ID]. split.
  - intros seq' Hs'. destruct (decide (seq = seq')) as [->|Hne]; [by rewrite !lookup_insert_eq|].
    rewrite !lookup_insert_ne; auto. intros Heq. by apply pendingKey_inj in Heq.
  - intros seq' Hs'. rewrite lookup_insert_ne; auto with teak.
  - rewrite dom_insert_L. by apply indexes_insert.
  - auto with teak.
Qed.

Lemma maps_set_dead M P D seq v :
  is_u64 seq → maps name M P D → maps name (<[deadKey name seq := dead_layout v]> M) P (<[seq := v]> D).
Proof.
  intros Hs [HP HD IP ID]. split.
  - intros seq' Hs'. rewrite lookup_insert_ne; [auto|]. intros Heq. symmetry in Heq. by apply pendingKey_ne_dead in Heq.
  - intros seq' Hs'. destruct (decide (seq = seq')) as [->|Hne]; [by rewrite !lookup_insert_eq|].
    rewrite !lookup_insert_ne; auto. intros Heq. by apply deadKey_inj in Heq.
  - auto with teak.
  - rewrite dom_insert_L. by apply indexes_insert.
Qed.

Lemma maps_delete_pending M P D seq :
  is_u64 seq → maps name M P D → maps name (delete (pendingKey name seq) M) (delete seq P) D.
Proof.
  intros Hs [HP HD IP ID]. split.
  - intros seq' Hs'. destruct (decide (seq = seq')) as [->|Hne]; [by rewrite !lookup_delete_eq|].
    rewrite !lookup_delete_ne; auto. intros Heq. by apply pendingKey_inj in Heq.
  - intros seq' Hs'. rewrite lookup_delete_ne; auto with teak.
  - rewrite dom_delete_L. by apply indexes_delete.
  - auto with teak.
Qed.

Lemma maps_delete_dead M P D seq :
  is_u64 seq → maps name M P D → maps name (delete (deadKey name seq) M) P (delete seq D).
Proof.
  intros Hs [HP HD IP ID]. split.
  - intros seq' Hs'. rewrite lookup_delete_ne; [auto|]. intros Heq. symmetry in Heq. by apply pendingKey_ne_dead in Heq.
  - intros seq' Hs'. destruct (decide (seq = seq')) as [->|Hne]; [by rewrite !lookup_delete_eq|].
    rewrite !lookup_delete_ne; auto. intros Heq. by apply deadKey_inj in Heq.
  - auto with teak.
  - rewrite dom_delete_L. by apply indexes_delete.
Qed.

Lemma maps_set_meta M P D n v :
  maps name M P D → maps name (<[metaKey name n := v]> M) P D.
Proof.
  intros [HP HD IP ID]. split; [| |auto with teak..].
  - intros seq Hs. rewrite lookup_insert_ne; [auto|]. intros Heq. symmetry in Heq. by apply pendingKey_ne_meta in Heq.
  - intros seq Hs. rewrite lookup_insert_ne; [auto|]. intros Heq. symmetry in Heq. by apply deadKey_ne_meta in Heq.
Qed.
End maps.

Lemma metaKey_tail_schema name : metaKey name tailMetaKey ≠ metaKey name schemaMetaKey.
Proof.
  rewrite !metaKey_stream. intros H%app_inv_head. apply string_bytes_inj in H. discriminate H.
Qed.

#[export] Hint Resolve maps_set_pending maps_set_dead maps_delete_pending maps_delete_dead
  maps_set_meta metaKey_tail_schema : teak.

(** ** Keys of one stream do not touch another *)

Lemma same_outside_refl name M : same_outside name M M.
Proof. by intros k _. Qed.

Lemma same_outside_trans name M1 M2 M3 :
  same_outside name M1 M2 → same_outside name M2 M3 → same_outside name M1 M3.
Proof. intros H1 H2 k Hk. by rewrite H2, H1. Qed.

Lemma same_outside_insert name M M' k v :
  streamPrefix name `prefix_of` k → same_outside name M M' → same_outside name M (<[k := v]> M').
Proof. intros Hk H k' Hk'. rewrite lookup_insert_ne by (by intros ->). by apply H. Qed.

Lemma same_outside_delete name M M' k :
  streamPrefix name `prefix_of` k → same_outside name M M' → same_outside name M (delete k M').
Proof. intros Hk H k' Hk'. rewrite lookup_delete_ne by (by intros ->). by apply H. Qed.

#[export] Hint Resolve same_outside_refl same_outside_insert same_outside_delete : teak.

Lemma prefix_trans_app {A} (p q k : list A) : p `prefix_of` q → q `prefix_of` k → p `prefix_of` k.
Proof. intros. by etrans. Qed.

Lemma stream_of_pendingPrefix name k : pendingPrefix name `prefix_of` k → streamPrefix name `prefix_of` k.
Proof. apply prefix_trans_app. rewrite pendingPrefix_stream. by eexists. Qed.

Lemma stream_of_deadPrefix name k : deadPrefix name `prefix_of` k → streamPrefix name `prefix_of` k.
Proof. apply prefix_trans_app. rewrite deadPrefix_stream. by eexists. Qed.

(** A stream's queue does not depend on what another stream stores. *)
Lemma represents_other name other M M' q :
  valid_name name → valid_name other → name ≠ other →
  same_outside other M M' → represents name M q → represents name M' q.
Proof.
  intros Hn Ho Hne Hsame [[HP HD [RP IP] [RD ID]] Hwf Ht Hs].
  assert (Hk : ∀ k, streamPrefix name `prefix_of` k → M' !! k = M !! k).
  { intros k Hk. apply Hsame. intros Hk'. apply Hne. by eapply streamPrefix_inj. }
  split; [split|done|..].
  - intros seq Hseq. rewrite Hk; auto with teak.
  - intros seq Hseq. rewrite Hk; auto with teak.
  - split; [done|]. intros k Hp. rewrite Hk by (by apply stream_of_pendingPrefix). auto.
  - split; [done|]. intros k Hp. rewrite Hk by (by apply stream_of_deadPrefix). auto.
  - rewrite !Hk by auto with teak. done.
  - rewrite !Hk by auto with teak. done.
Qed.

Lemma represents_empty name : represents name ∅ empty_queue.
Proof.
  split; [split| |by right..].
  - intros seq _. by rewrite !lookup_empty.
  - intros seq _. by rewrite !lookup_empty.
  - split; [set_solver|]. intros k _. simpl. rewrite lookup_empty, dom_empty_L.
    split; [by intros []|by intros (? & ?%not_elem_of_empty & _)].
  - split; [set_solver|]. intros k _. simpl. rewrite lookup_empty, dom_empty_L.
    split; [by intros []|by intros (? & ?%not_elem_of_empty & _)].
  - split; simpl; [by unfold is_u64|intros ? ?; by rewrite lookup_empty..].
Qed.
