(* ===== verification/StoreRefine.v ===== *)
(** * The store implements the abstract queue

    For every operation of a stream: from a database that represents a queue,
    a call that succeeds returns the abstract operation's result and leaves a
    database that represents the abstract operation's queue, with no key of any
    other stream touched; a call that fails changes nothing, and its error says
    why.  [store_fails] are the errors that are not the operation's own: the
    storage failed, or the stream's failure hook did. *)
From S2P Require Import Prelude Errors Keys Envelope Badger Store StoreIter StoreSpec.
From Stdlib Require Import Strings.Byte.
#[local] Open Scope Z_scope.

(** ** The abstract operations keep queues well formed *)

Lemma q_append_wf now payloads q :
  queue_wf q → is_i64 now → q_tail q + len payloads ≤ max_uint64 →
  Forall (λ p, len p ≤ max_uint32) payloads → queue_wf (q_append now payloads q).
Proof.
  intros Hwf Hnow. unfold q_append. destruct q as [T P D]. simpl.
  revert T P Hwf. induction payloads as [|p ps IH]; intros T P Hwf Hlen Hf; simpl.
  { unfold len. simpl. by rewrite Z.add_0_r. }
  apply Forall_cons in Hf as [Hp Hf]. unfold len in *. simpl length in *. rewrite Nat2Z.inj_succ in *.
  rewrite <- (Z.add_1_l (Z.of_nat _)), Z.add_assoc.
  apply IH; [|lia|done].
  destruct Hwf as [Ht HP HD Hdis]; simpl in *. unfold is_u64, max_uint64 in *. split; simpl.
  - unfold is_u64. lia.
  - intros seq v. rewrite lookup_insert. case_decide; [|intros Hv; destruct (HP _ _ Hv); split; [lia|done]].
    intros [= <-]. split; [lia|]. split; split; simpl; [done|by unfold is_u64|done|done].
  - intros seq v Hv. destruct (HD _ _ Hv). split; [lia|done].
  - intros seq v w. rewrite lookup_insert. case_decide as Heq; [|by apply Hdis].
    intros _ Hw. destruct (HD _ _ Hw). lia.
Qed.

Lemma delete_all_lookup {V} seqs (m : gmap Z V) seq :
  delete_all seqs m !! seq = if decide (seq ∈ seqs) then None else m !! seq.
Proof.
  revert m. induction seqs as [|x seqs IH]; intros m; cbn [delete_all].
  { by rewrite decide_False by apply not_elem_of_nil. }
  rewrite IH. destruct (decide (seq ∈ seqs)); [by rewrite decide_True by (by right)|].
  destruct (decide (seq = x)) as [->|].
  - rewrite decide_True by (by left). apply lookup_delete_eq.
  - rewrite decide_False by (rewrite elem_of_cons; tauto). by apply lookup_delete_ne.
Qed.

Lemma q_commit_wf seqs q : queue_wf q → queue_wf (q_commit seqs q).
Proof.
  intros [Ht HP HD Hdis]. split; simpl; [done| |done|].
  - intros seq v. rewrite delete_all_lookup. case_decide; [done|apply HP].
  - intros seq v w. rewrite delete_all_lookup. case_decide; [done|apply Hdis].
Qed.

Lemma dead_of_ok name seq reason now v :
  pending_ok v → is_i64 now → is_u64 seq → valid_name name → string_len reason ≤ max_uint32 →
  dead_ok (dead_of name seq reason now v).
Proof.
  intros [[Hc Hs] [Ho Hp]] Hnow Hseq Hname Hr. unfold dead_of. split.
  - split_and!; simpl; [done|done|]. by case_bool_decide.
  - split_and!; simpl; [|done|done]. case_bool_decide; [|done].
    unfold valid_name, ValidateStreamName in Hname. case_match eqn:E; [done|]. zbool.
    unfold max_uint32. lia.
Qed.

Lemma q_dead_letter_wf name seq reason now q v :
  queue_wf q → q_pending q !! seq = Some v → dead_ok (dead_of name seq reason now v) →
  queue_wf (q_dead_letter name seq reason now q).
Proof.
  intros [Ht HP HD Hdis] Hv Hok. unfold q_dead_letter. rewrite Hv. split; simpl; [done|..].
  - intros seq' v'. rewrite lookup_delete. case_decide; [done|apply HP].
  - intros seq' v'. rewrite lookup_insert. case_decide as Heq; [|apply HD].
    intros [= <-]. subst. by destruct (HP _ _ Hv).
  - intros seq' v' w. rewrite lookup_delete, lookup_insert. case_decide; [done|]. apply Hdis.
Qed.

Lemma q_requeue_wf seq q v :
  queue_wf q → q_dead q !! seq = Some v → q_tail q < max_uint64 → queue_wf (q_requeue seq q).
Proof.
  intros [Ht HP HD Hdis] Hv Hlt. unfold q_requeue. rewrite Hv.
  unfold is_u64, max_uint64 in *. split; simpl.
  - unfold is_u64. lia.
  - intros seq' v'. rewrite lookup_insert. case_decide.
    + intros [= <-]. split; [lia|]. destruct (HD _ _ Hv) as [_ [(? & ? & ?) (? & ? & ?)]]. by split; split.
    + intros Hv'. destruct (HP _ _ Hv'). split; [lia|done].
  - intros seq' v'. rewrite lookup_delete. case_decide; [done|].
    intros Hv'. destruct (HD _ _ Hv'). split; [lia|done].
  - intros seq' v' w. rewrite lookup_delete, lookup_insert. case_decide as Heq.
    + intros _. case_decide; [done|]. intros Hw. destruct (HD _ _ Hw). lia.
    + case_decide; [done|]. apply Hdis.
Qed.

(** ** Appending *)

Lemma maxBatchValueSize_value : maxBatchValueSize = 33554432.
Proof. reflexivity. Qed.

Definition total_size (payloads : list bytes) : Z := foldr (λ p acc, len p + acc) 0 payloads.

Lemma batch_too_large_total size payloads :
  0 ≤ size → batch_too_large size payloads = (maxBatchValueSize <? size + total_size payloads)
             ∨ maxBatchValueSize < size.
Proof.
  revert size. induction payloads as [|p ps IH]; intros size Hs; simpl.
  { destruct (Z.lt_ge_cases maxBatchValueSize size); [by right|left].
    symmetry. apply Z.ltb_ge. lia. }
  pose proof (len_nonneg p). assert (Ht : 0 ≤ total_size ps).
  { clear IH. unfold total_size. induction ps as [|p' ps IH]; simpl; [lia|]. pose proof (len_nonneg p'). lia. }
  case_match eqn:E; zbool.
  - left. symmetry. apply Z.ltb_lt. unfold total_size in *. lia.
  - left. destruct (IH (size + len p)) as [->|?]; [lia| |lia]. f_equal. unfold total_size. lia.
Qed.

(** [AppendBatch] refuses exactly the batches of more than 32 MiB. *)
Lemma batch_too_large_spec payloads :
  batch_too_large 0 payloads = (maxBatchValueSize <? total_size payloads).
Proof.
  destruct (batch_too_large_total 0 payloads) as [->|H]; [done|by rewrite Z.add_0_l|].
  rewrite maxBatchValueSize_value in H. lia.
Qed.

Lemma total_size_elem payloads p : p ∈ payloads → len p ≤ total_size payloads.
Proof.
  assert (Hn : ∀ l : list bytes, 0 ≤ total_size l).
  { induction l as [|q l IH]; simpl; [done|]. pose proof (len_nonneg q). lia. }
  induction 1 as [p l|p q l ? IH]; simpl; [specialize (Hn l); lia|]. pose proof (len_nonneg q). lia.
Qed.

Lemma batch_fits payloads :
  batch_too_large 0 payloads = false → Forall (λ p, len p ≤ max_uint32) payloads.
Proof.
  rewrite batch_too_large_spec. intros H. zbool. apply Forall_forall. intros p Hp%total_size_elem.
  rewrite maxBatchValueSize_value in H. unfold max_uint32. lia.
Qed.

(** The records of a batch, paired with their encodings. *)
Definition encoded_records (now : Z) (records : list StoreRecord) : list (StoreRecord * bytes) :=
  (λ r, (r, pending_layout (fresh_envelope now (r_Payload r)))) <$> records.

Lemma append_records_spec tail now index payloads :
  0 ≤ tail → 0 ≤ index → tail + index + len payloads ≤ max_uint64 →
  Forall (λ p, len p ≤ max_uint32) payloads →
  append_records tail now index payloads = Ok (encoded_records now (appended_records (tail + index) now payloads)).
Proof.
  intros Ht. revert index. induction payloads as [|p ps IH]; intros index Hi Hl Hf; [done|].
  apply Forall_cons in Hf as [Hp Hf]. unfold len in Hl. simpl length in Hl. rewrite Nat2Z.inj_succ in Hl.
  simpl. change (encodePending _) with (encodePending (fresh_envelope now p)).
  rewrite encodePending_layout by (by split). cbn [mbind result_bind].
  rewrite IH by (unfold len; first [done|lia]). cbn [mbind result_bind].
  rewrite (u64_id (tail + index)), u64_id by (unfold is_u64, max_uint64 in *; lia).
  by rewrite Z.add_assoc.
Qed.

Lemma encoded_records_fst now records : (encoded_records now records).*1 = records.
Proof. unfold encoded_records. rewrite <- list_fmap_compose. apply list_fmap_id. Qed.

Lemma appended_records_last tail now payloads :
  payloads ≠ [] →
  ∃ r, last (appended_records tail now payloads) = Some r ∧ r_Seq r = tail + len payloads.
Proof.
  revert tail. induction payloads as [|p ps IH]; intros tail Hne; [done|]. simpl appended_records.
  rewrite last_cons. unfold len in *. simpl length. destruct ps as [|p' ps].
  - simpl. eexists. split; [reflexivity|]. done.
  - destruct (IH (tail + 1)) as (r & -> & Hs); [done|]. exists r. split; [done|].
    rewrite Hs. simpl length. lia.
Qed.

Lemma encoded_records_last tail now payloads :
  payloads ≠ [] →
  ∃ r v, last (encoded_records now (appended_records tail now payloads)) = Some (r, v)
       ∧ r_Seq r = tail + len payloads.
Proof.
  intros Hne. unfold encoded_records. rewrite fmap_last.
  destruct (appended_records_last tail now payloads Hne) as (r & -> & Hs). eauto.
Qed.

Section refine.
Context {B : Badger} {BS : BadgerSpec B}.

(** The errors an operation does not account for itself. *)
Definition store_fails (s : Stream) (operation : string) (e : goerr) : Prop :=
  db_fails e ∨ before_commit s operation = Some e.

(** The open handle of a stream whose queue is [q]. *)
Definition opened (db : DB) (s : Stream) (q : queue) : Prop :=
  valid_name (s_name s) ∧ represents (s_name s) (db_map db) q ∧ s_tail s = q_tail q.

(** Only record keys of the stream changed since [M0], and they hold [P], [D]. *)
Record recs (name : string) (M0 M : gmap bytes bytes) P D : Prop := {
  recs_maps : maps name M P D;
  recs_outside : same_outside name M0 M;
  recs_meta n : M !! metaKey name n = M0 !! metaKey name n
}.

Lemma recs_refl name M P D : maps name M P D → recs name M M P D.
Proof. by split. Qed.

Lemma recs_set_pending name M0 M P D seq v :
  is_u64 seq → recs name M0 M P D → recs name M0 (<[pendingKey name seq := pending_layout v]> M) (<[seq := v]> P) D.
Proof.
  intros Hs [Hm Ho Hk]. split; [by apply maps_set_pending|auto with teak|].
  intros n. rewrite lookup_insert_ne; auto with teak.
Qed.

Lemma recs_set_dead name M0 M P D seq v :
  is_u64 seq → recs name M0 M P D → recs name M0 (<[deadKey name seq := dead_layout v]> M) P (<[seq := v]> D).
Proof.
  intros Hs [Hm Ho Hk]. split; [by apply maps_set_dead|auto with teak|].
  intros n. rewrite lookup_insert_ne; auto with teak.
Qed.

Lemma recs_delete_pending name M0 M P D seq :
  is_u64 seq → recs name M0 M P D → recs name M0 (delete (pendingKey name seq) M) (delete seq P) D.
Proof.
  intros Hs [Hm Ho Hk]. split; [by apply maps_delete_pending|auto with teak|].
  intros n. rewrite lookup_delete_ne; auto with teak.
Qed.

Lemma recs_delete_dead name M0 M P D seq :
  is_u64 seq → recs name M0 M P D → recs name M0 (delete (deadKey name seq) M) P (delete seq D).
Proof.
  intros Hs [Hm Ho Hk]. split; [by apply maps_delete_dead|auto with teak|].
  intros n. rewrite lookup_delete_ne; auto with teak.
Qed.

(** Record keys changed and the tail did not. *)
Lemma recs_represents name M M' q q' :
  represents name M q → recs name M M' (q_pending q') (q_dead q') → q_tail q' = q_tail q →
  queue_wf q' → represents name M' q' ∧ same_outside name M M'.
Proof.
  intros [_ _ Ht Hs] [Hm Ho Hk] Htail Hwf. split; [|done]. split; [done|done|..]; rewrite !Hk, ?Htail; done.
Qed.

(** Record keys changed and then the tail was stored. *)
Lemma recs_represents_tail name M M' q q' :
  represents name M q → recs name M M' (q_pending q') (q_dead q') → queue_wf q' →
  represents name (<[metaKey name tailMetaKey := be_encode 8 (q_tail q')]> M') q'
  ∧ same_outside name M (<[metaKey name tailMetaKey := be_encode 8 (q_tail q')]> M').
Proof.
  intros [_ _ Ht Hs] [Hm Ho Hk] Hwf. split; [|auto with teak]. split; [by apply maps_set_meta|done|..].
  - left. apply lookup_insert_eq.
  - rewrite !lookup_insert_ne, !Hk by auto with teak. done.
Qed.

Lemma set_tail_same s : set_tail s (s_tail s) = s.
Proof. by destruct s. Qed.

Lemma append_loop (name : string) (M0 M : gmap bytes bytes) (P : gmap Z pendingEnvelope) (D : gmap Z deadEnvelope) (T now : Z) (payloads : list bytes) (Q : res unit → gmap bytes bytes → unit → Prop) :
  0 ≤ T → T + len payloads ≤ max_uint64 → recs name M0 M P D →
  (∀ M', recs name M0 M' (append_pending T now payloads P) D → Q (Ok tt) M' tt) →
  (∀ e M', db_fails e → Q (Err e) M' tt) →
  wp (tx_for (encoded_records now (appended_records T now payloads))
        (λ '(record, encoded), tx_Set (pendingKey name (r_Seq record)) encoded)) Q M tt.
Proof.
  intros HT Hlen Hrecs HQ HF. revert T M P HT Hlen Hrecs HQ.
  induction payloads as [|p ps IH]; intros T M P HT Hlen Hrecs HQ; simpl.
  { by apply wp_ret, HQ. }
  unfold len in Hlen. simpl length in Hlen. rewrite Nat2Z.inj_succ in Hlen.
  apply wp_bind, wp_Set; [|auto].
  apply (IH (T + 1) _ (<[T + 1 := fresh_envelope now p]> P)); [lia|unfold len; lia| |done].
  apply recs_set_pending; [|done]. unfold is_u64, max_uint64 in *. lia.
Qed.

(** Why [AppendBatch] fails. *)
Definition append_error (s : Stream) (payloads : list bytes) (e : goerr) : Prop :=
  (e = Sentinel store_ErrSeqExhausted ∧ max_uint64 < s_tail s + len payloads)
  ∨ (e = Sentinel store_ErrBatchTooLarge ∧ 32 * 2 ^ 20 < total_size payloads)
  ∨ ∃ e', store_fails s "append" e' ∧
      e = if errors_Is e' badger_ErrTxnTooBig then Errorf "%w: %v" [Sentinel store_ErrBatchTooLarge]
          else Errorf "store: append to %q: %w" [e'].

Definition append_result (db : DB) (s : Stream) (q : queue) (payloads : list bytes) (now : Z)
    (out : DB * Stream * res (list StoreRecord)) : Prop :=
  match out with
  | (db', s', Ok records) =>
      records = appended_records (q_tail q) now payloads
      ∧ opened db' s' (q_append now payloads q)
      ∧ s' = set_tail s (q_tail q + len payloads)
      ∧ same_outside (s_name s) (db_map db) (db_map db')
  | (db', s', Err e) => db_map db' = db_map db ∧ s' = s ∧ append_error s payloads e
  end.

Lemma AppendBatch_lemma db s q payloads now :
  opened db s q → is_i64 now → append_result db s q payloads now (AppendBatch db s payloads now).
Proof.
  intros (Hname & Hrep & Htail) Hnow. pose proof (rep_wf _ _ _ Hrep) as Hwf.
  assert (Ht : 0 ≤ q_tail q) by apply (wf_tail _ Hwf). destruct payloads as [|p ps].
  { cbn. unfold len. simpl. rewrite Z.add_0_r, <- Htail, set_tail_same.
    split_and!; [done| |done|auto with teak]. unfold q_append. simpl. rewrite Z.add_0_r.
    by destruct q. }
  unfold AppendBatch. case_match eqn:Hex; zbool; rewrite Htail in *.
  { split_and!; [done..|]. left. rewrite Htail. split; [done|lia]. }
  case_match eqn:Hbig.
  { split_and!; [done..|]. right; left. split; [done|]. rewrite batch_too_large_spec, maxBatchValueSize_value in Hbig. by zbool. }
  apply batch_fits in Hbig as Hfits. rewrite append_records_spec, Z.add_0_r by (first [lia|done]).
  destruct (encoded_records_last (q_tail q) now (p :: ps)) as (r & v & -> & Hr); [done|]. rewrite Hr.
  set (q' := q_append now (p :: ps) q).
  assert (Hwf' : queue_wf q') by (apply q_append_wf; first [done|lia]).
  change (q_tail q + len (p :: ps)) with (q_tail q').
  apply (Update_rule (λ M' _, represents (s_name s) M' q' ∧ same_outside (s_name s) (db_map db) M')
                     (store_fails s "append")).
  - apply wp_bind. eapply append_loop; [done|lia|exact (recs_refl _ _ _ _ (rep_maps _ _ _ Hrep))| |by left].
    intros M' HM'. apply wp_bind, wp_Set; [|by left]. apply wp_error.
    destruct (before_commit s "append") eqn:Hb; [by right|by eapply recs_represents_tail].
  - by left.
  - intros db' _ [HR Ho]. split_and!; [by rewrite encoded_records_fst|by split_and!|done|done].
  - intros db' _ e Hsame He. split_and!; [done..|]. right; right. eauto.
Qed.

(** Only batches within both limits are stored. *)
Lemma AppendBatch_within db s q payloads now :
  opened db s q →
  match AppendBatch db s payloads now with
  | (_, _, Ok _) => q_tail q + len payloads ≤ max_uint64 ∧ total_size payloads ≤ 32 * 2 ^ 20
  | _ => True
  end.
Proof.
  intros (_ & Hrep & Htail). pose proof (wf_tail _ (rep_wf _ _ _ Hrep)) as Ht. unfold is_u64 in Ht.
  destruct payloads as [|p ps].
  { cbn [AppendBatch total_size foldr]. unfold len, max_uint64 in *. simpl length. lia. }
  unfold AppendBatch. rewrite Htail. destruct (_ <? len _) eqn:Hex; [done|].
  destruct (batch_too_large 0 _) eqn:Hbig; [done|]. rewrite batch_too_large_spec, maxBatchValueSize_value in Hbig. zbool.
  assert (Hw : q_tail q + len (p :: ps) ≤ max_uint64 ∧ total_size (p :: ps) ≤ 32 * 2 ^ 20) by lia.
  by repeat match goal with |- context [match ?x with _ => _ end] => destruct x end.
Qed.

(** ** Completing records *)

Lemma maps_is_pending name M P D seq :
  is_u64 seq → maps name M P D → (is_Some (M !! pendingKey name seq) ↔ is_Some (P !! seq)).
Proof. intros Hs Hm. rewrite (maps_pending _ _ _ _ Hm) by done. apply fmap_is_Some. Qed.

Lemma maps_not_pending name M P D seq :
  is_u64 seq → maps name M P D → M !! pendingKey name seq = None → P !! seq = None.
Proof. intros Hs Hm. rewrite (maps_pending _ _ _ _ Hm) by done. by destruct (P !! seq). Qed.

Lemma maps_not_dead name M P D seq :
  is_u64 seq → maps name M P D → M !! deadKey name seq = None → D !! seq = None.
Proof. intros Hs Hm. rewrite (maps_dead _ _ _ _ Hm) by done. by destruct (D !! seq). Qed.

Definition can_delete {V} (seqs : list Z) (m : gmap Z V) : Prop :=
  NoDup seqs ∧ ∀ seq, seq ∈ seqs → is_Some (m !! seq).

Lemma can_delete_cons {V} seq seqs (m : gmap Z V) :
  can_delete (seq :: seqs) m ↔ is_Some (m !! seq) ∧ can_delete seqs (delete seq m).
Proof.
  unfold can_delete. rewrite NoDup_cons. split.
  - intros [[Hnin Hnd] Hall]. split_and!; [apply Hall; by left|done|].
    intros seq' Hin. rewrite lookup_delete_ne by (by intros ->). apply Hall. by right.
  - intros (Hs & Hnd & Hall). split_and!; [|done|].
    + intros Hin. destruct (Hall _ Hin) as [v Hv]. by rewrite lookup_delete_eq in Hv.
    + intros seq' [->|Hin]%elem_of_cons; [done|]. destruct (Hall _ Hin) as [v Hv].
      apply lookup_delete_Some in Hv as [_ ?]. by eexists.
Qed.

Lemma commit_loop (s : Stream) (M0 M : gmap bytes bytes) (P : gmap Z pendingEnvelope)
    (D : gmap Z deadEnvelope) (seqs : list Z) (Q : res unit → gmap bytes bytes → unit → Prop) :
  Forall is_u64 seqs → recs (s_name s) M0 M P D →
  (∀ M', can_delete seqs P → recs (s_name s) M0 M' (delete_all seqs P) D → Q (Ok tt) M' tt) →
  (∀ e M', errors_Is e store_ErrNotFound = true → ¬ can_delete seqs P → Q (Err e) M' tt) →
  (∀ e M', db_fails e → Q (Err e) M' tt) →
  wp (tx_for seqs (commit_one s)) Q M tt.
Proof.
  intros Hf Hrecs HQ HN HF. revert M P Hrecs HQ HN.
  induction Hf as [|seq seqs Hs Hf IH]; intros M P Hrecs HQ HN; simpl.
  { apply wp_ret, HQ; [|done]. split; [constructor|by intros ? ?%elem_of_nil]. }
  pose proof (recs_maps _ _ _ _ _ Hrecs) as Hm.
  apply wp_bind, wp_bind, wp_Get.
  - intros item v Hv _. apply wp_Delete; [|auto].
    assert (Hin : is_Some (P !! seq)) by (eapply maps_is_pending; eauto).
    eapply IH; [by apply recs_delete_pending|..].
    + intros M' Hc Hr. apply HQ; [by apply can_delete_cons|done].
    + intros e M' He Hc. apply HN; [done|]. by intros [_ ?]%can_delete_cons.
  - intros e Hnone He. cbn. rewrite He. apply wp_fail, HN; [reflexivity|].
    eapply maps_not_pending in Hnone; [|done..]. intros [[v Hv] _]%can_delete_cons. congruence.
  - intros e He Hk. cbn. rewrite Hk. by apply wp_fail, HF.
Qed.

(** Why [Commit] fails. *)
Definition commit_error (s : Stream) (q : queue) (seqs : list Z) (e : goerr) : Prop :=
  ∃ e', (store_fails s "commit" e' ∨ errors_Is e' store_ErrNotFound = true ∧ ¬ can_commit seqs q)
        ∧ e = if errors_Is e' badger_ErrTxnTooBig then Errorf "%w: %v" [Sentinel store_ErrBatchTooLarge] else e'.

Lemma store_Commit_lemma db s q seqs :
  opened db s q → Forall is_u64 seqs →
  match Commit db s seqs with
  | (db', None) => can_commit seqs q ∧ opened db' s (q_commit seqs q)
                   ∧ same_outside (s_name s) (db_map db) (db_map db')
  | (db', Some e) => db_map db' = db_map db ∧ commit_error s q seqs e
  end.
Proof.
  intros (Hname & Hrep & Htail) Hf. destruct seqs as [|seq seqs].
  { split_and!; [split; [constructor|by intros ? ?%elem_of_nil]|by split_and!; [|by destruct q|]|auto with teak]. }
  unfold Commit.
  apply (Update_rule
    (λ M' _, can_commit (seq :: seqs) q ∧ represents (s_name s) M' (q_commit (seq :: seqs) q)
             ∧ same_outside (s_name s) (db_map db) M')
    (λ e, store_fails s "commit" e ∨ errors_Is e store_ErrNotFound = true ∧ ¬ can_commit (seq :: seqs) q)).
  - apply wp_bind. eapply (commit_loop _ _ _ _ _ (seq :: seqs));
      [done|exact (recs_refl _ _ _ _ (rep_maps _ _ _ Hrep))| |by right|by left; left].
    intros M' Hc HM'. apply wp_error.
    destruct (before_commit s "commit") eqn:Hb; [by left; right|split; [done|]].
    eapply recs_represents; eauto using q_commit_wf, rep_wf.
  - by left; left.
  - intros db' _ (Hc & HR & Ho). split_and!; [done|by split_and!|done].
  - intros db' _ e Hsame He. split; [done|]. eexists. split; [exact He|done].
Qed.

(** ** Dead letters *)

Lemma pending_layout_decodes v : pending_ok v → decodePending (pending_layout v) = Ok v.
Proof. intros [? ?]. by apply decode_encode_pending. Qed.

Lemma dead_layout_decodes v : dead_ok v → decodeDead (dead_layout v) = Ok v.
Proof. intros [? ?]. by apply decode_encode_dead. Qed.

(** Why [DeadLetter] fails. *)
Definition dead_letter_error (s : Stream) (q : queue) (seq : Z) (reason : string) (e : goerr) : Prop :=
  store_fails s "dead-letter" e
  ∨ (errors_Is e store_ErrNotFound = true ∧ q_pending q !! seq = None)
  ∨ (e = Sentinel store_ErrValueTooLarge ∧ is_Some (q_pending q !! seq) ∧ max_uint32 < string_len reason).

(** The closure's tail, once the pending record [w] is found. *)
Lemma dead_letter_found (db : DB) (s : Stream) (q : queue) (seq : Z) (reason : string) (now : Z) (w : pendingEnvelope) (item : Item) (Q : res unit → gmap bytes bytes → unit → Prop) :
  opened db s q → is_u64 seq → is_i64 now →
  q_pending q !! seq = Some w → value_spec db_fails item (pending_layout w) →
  (∀ e M', dead_letter_error s q seq reason e → Q (Err e) M' tt) →
  (∀ M', represents (s_name s) M' (q_dead_letter (s_name s) seq reason now q) →
         same_outside (s_name s) (db_map db) M' → Q (Ok tt) M' tt) →
  wp (dead_letter_item s seq reason now item) Q (db_map db) tt.
Proof.
  intros (Hname & Hrep & _) Hseq Hnow Hw Hitem HF HQ.
  pose proof (rep_maps _ _ _ Hrep) as Hm. pose proof (rep_wf _ _ _ Hrep) as Hwf.
  destruct (wf_pending _ Hwf _ _ Hw) as [_ Hok].
  assert (Hfail : ∀ e M', db_fails e → Q (Err e) M' tt) by (intros; apply HF; by left; left).
  unfold dead_letter_item. apply wp_bind, wp_Get.
  - intros item' v Hv _. exfalso. rewrite (maps_dead _ _ _ _ Hm) in Hv by done.
    apply fmap_Some in Hv as (u & Hu & _). by eapply (wf_disjoint _ Hwf).
  - intros e Hnone He. rewrite He. apply wp_bind, wp_ret, wp_bind.
    eapply wp_ValueCopy; [exact Hitem| |auto].
    apply wp_bind, wp_lift. rewrite pending_layout_decodes by done.
    rewrite (surjective_pairing (if bool_decide _ then _ else _)).
    apply wp_bind, wp_lift.
    set (dead := {| de_CreatedAt := _ |}).
    assert (Hdead : dead = dead_of (s_name s) seq reason now w) by (unfold dead, dead_of; by case_bool_decide).
    rewrite Hdead. clear dead Hdead.
    destruct (decide (string_len reason ≤ max_uint32)) as [Hsz|Hsz].
    + pose proof (dead_of_ok (s_name s) seq reason now w Hok Hnow Hseq Hname Hsz) as Hdok.
      rewrite encodeDead_layout by apply Hdok.
      apply wp_bind, wp_Set; [|auto]. apply wp_bind, wp_Delete; [|auto]. apply wp_error.
      destruct (before_commit s "dead-letter") eqn:Hb; [apply HF; by left; right|].
      edestruct (recs_represents (s_name s) (db_map db)) as [HR Ho]; [exact Hrep|..|by apply HQ; [exact HR|exact Ho]].
      * unfold q_dead_letter. rewrite Hw. cbn [q_pending q_dead].
        apply recs_delete_pending; [done|]. apply recs_set_dead; [done|]. by apply recs_refl.
      * unfold q_dead_letter. by rewrite Hw.
      * by eapply q_dead_letter_wf.
    + rewrite encodeDead_too_large by (intros (_ & _ & ?); done).
      apply HF. right; right. split_and!; [done|by eexists|lia].
  - intros e He Hk. rewrite Hk. apply wp_bind, wp_fail. auto.
Qed.

Lemma store_DeadLetter_lemma db s q seq reason (now : Z) :
  opened db s q → is_u64 seq → is_i64 now →
  match DeadLetter db s seq reason now with
  | (db', None) => is_Some (q_pending q !! seq) ∧ opened db' s (q_dead_letter (s_name s) seq reason now q)
                   ∧ same_outside (s_name s) (db_map db) (db_map db')
  | (db', Some e) => db_map db' = db_map db ∧ dead_letter_error s q seq reason e
  end.
Proof.
  intros (Hname & Hrep & Htail) Hseq Hnow. unfold DeadLetter.
  assert (Htail' : q_tail (q_dead_letter (s_name s) seq reason now q) = q_tail q).
  { unfold q_dead_letter. by case_match. }
  apply (Update_rule
    (λ M' _, is_Some (q_pending q !! seq) ∧ represents (s_name s) M' (q_dead_letter (s_name s) seq reason now q)
             ∧ same_outside (s_name s) (db_map db) M')
    (dead_letter_error s q seq reason)).
  - pose proof (rep_maps _ _ _ Hrep) as Hm. pose proof (rep_wf _ _ _ Hrep) as Hwf.
    apply wp_bind, wp_Get.
    + intros item v Hv Hitem. rewrite (maps_pending _ _ _ _ Hm) in Hv by done.
      apply fmap_Some in Hv as (w & Hw & ->).
      apply (dead_letter_found db s q seq reason now w item); [by split_and!|done..|].
      intros M' HR Ho. split_and!; [by eexists|done..].
    + intros e Hnone He. cbn. rewrite He. apply wp_fail. right; left. split; [done|].
      by eapply maps_not_pending.
    + intros e He Hk. cbn. rewrite Hk. apply wp_fail. by left; left.
  - by left; left.
  - intros db' _ (Hc & HR & Ho). split_and!; [done|split_and!; [done..|by rewrite Htail']|done].
  - intros db' _ e Hsame He. done.
Qed.

(** ** Requeueing *)

(** Why [Requeue] fails. *)
Definition requeue_error (s : Stream) (q : queue) (seq : Z) (e : goerr) : Prop :=
  store_fails s "requeue" e
  ∨ (errors_Is e store_ErrNotFound = true ∧ q_dead q !! seq = None)
  ∨ (e = Sentinel store_ErrSeqExhausted ∧ q_tail q = max_uint64).

Definition requeue_result (db : DB) (s : Stream) (q : queue) (seq : Z)
    (out : DB * Stream * res StoreRecord) : Prop :=
  match out with
  | (db', s', Ok record) =>
      ∃ v, q_dead q !! seq = Some v ∧ record = record_of (q_tail q + 1) (pending_of v)
      ∧ opened db' s' (q_requeue seq q) ∧ s' = set_tail s (q_tail q + 1)
      ∧ same_outside (s_name s) (db_map db) (db_map db')
  | (db', s', Err e) => db_map db' = db_map db ∧ s' = s ∧ requeue_error s q seq e
  end.

Lemma Requeue_lemma db s q seq :
  opened db s q → is_u64 seq → requeue_result db s q seq (Requeue db s seq).
Proof.
  intros (Hname & Hrep & Htail) Hseq.
  pose proof (rep_maps _ _ _ Hrep) as Hm. pose proof (rep_wf _ _ _ Hrep) as Hwf.
  pose proof (wf_tail _ Hwf) as Ht. unfold Requeue. rewrite Htail. case_match eqn:Hmax; zbool.
  { split_and!; [done..|]. by right; right. }
  assert (Hlt : q_tail q < max_uint64) by (unfold is_u64, max_uint64 in *; lia).
  assert (Hnew : is_u64 (q_tail q + 1)) by (unfold is_u64, max_uint64 in *; lia). rewrite u64_id by done.
  apply (Update_rule
    (λ M' record, ∃ v, q_dead q !! seq = Some v ∧ record = record_of (q_tail q + 1) (pending_of v)
       ∧ represents (s_name s) M' (q_requeue seq q) ∧ same_outside (s_name s) (db_map db) M')
    (requeue_error s q seq)).
  - apply wp_bind, wp_Get.
    + intros item v Hv Hitem. rewrite (maps_dead _ _ _ _ Hm) in Hv by done.
      apply fmap_Some in Hv as (w & Hw & ->). destruct (wf_dead _ Hwf _ _ Hw) as [_ Hok].
      apply wp_bind. eapply wp_ValueCopy; [exact Hitem| |by left; left].
      apply wp_bind, wp_lift. rewrite dead_layout_decodes by done.
      apply wp_bind, wp_lift. change {| pe_CreatedAt := _ |} with (pending_of w).
      assert (Hpok : pending_ok (pending_of w)) by (destruct Hok as [(? & ? & ?) (? & ? & ?)]; by split; split).
      rewrite encodePending_layout by apply Hpok.
      apply wp_bind, wp_Set; [|by left; left]. apply wp_bind, wp_Set; [|by left; left].
      apply wp_bind, wp_Delete; [|by left; left]. apply wp_bind, wp_error.
      destruct (before_commit s "requeue") eqn:Hb; [by left; right|]. apply wp_assign.
      exists w. split_and!; [done|done|..].
      all: rewrite delete_insert_ne by auto with teak.
      all: replace (q_tail q + 1) with (q_tail (q_requeue seq q)) by (unfold q_requeue; by rewrite Hw).
      all: edestruct (recs_represents_tail (s_name s) (db_map db)) as [HR Ho];
        [exact Hrep| |by eapply q_requeue_wf| by first [exact HR|exact Ho]].
      all: unfold q_requeue; rewrite Hw; cbn [q_pending q_dead q_tail];
        apply recs_delete_dead; [done|]; apply recs_set_pending; [done|]; by apply recs_refl.
    + intros e Hnone He. cbn. rewrite He. apply wp_fail. right; left. split; [done|].
      by eapply maps_not_dead.
    + intros e He Hk. cbn. rewrite Hk. apply wp_fail. by left; left.
  - by left; left.
  - intros db' record (v & Hv & -> & HR & Ho). exists v. split_and!; [done|done| |done|done].
    split_and!; [done..|]. unfold q_requeue. by rewrite Hv.
  - intros db' _ e Hsame He. done.
Qed.

(** ** Pages *)

(** The common shape of the loops of [ScanBatch] and [DeadLetters]. *)
Section page.
Context {V R : Type} (decode : bytes → res V) (mk : Z → V → R) (msg : string).

Fixpoint page_loop (prefix : bytes) (limit : Z) (iterator : list Item) : txm Txn (list R) unit :=
  match iterator with
  | [] => mret tt
  | item :: next =>
      records ← tx_read;
      if ValidForPrefix iterator prefix && (len records <? limit) then
        match parseSequence prefix (item_Key item) with
        | None => tx_fail (Sentinel store_ErrCorruptEnvelope)
        | Some seq =>
            value ← tx_lift (item_ValueCopy item);
            match decode value with
            | Err e => tx_fail (Errorf msg [e])
            | Ok envelope => tx_assign (records ++ [mk seq envelope]) ;; page_loop prefix limit next
            end
        end
      else mret tt
  end.

Context (layout : V → bytes) (ok : V → Prop).
Context (decode_layout : ∀ v, ok v → decode (layout v) = Ok v).

Lemma page_run (p : bytes) (M : gmap bytes bytes) (m : gmap Z V) (limit : Z) (seqs : list Z)
    (run rest : list Item) (acc : list R) (Q : res unit → gmap bytes bytes → list R → Prop) :
  (∀ seq v, m !! seq = Some v → is_u64 seq ∧ ok v) →
  (∀ item, item ∈ run → ∃ v, M !! item_Key item = Some v ∧ value_spec db_fails item v) →
  (∀ seq, is_u64 seq → M !! sequenceKey p seq = layout <$> m !! seq) →
  item_Key <$> run = sequenceKey p <$> seqs →
  (∀ seq, seq ∈ seqs → is_Some (m !! seq)) →
  ValidForPrefix rest p = false →
  Q (Ok tt) M (acc ++ omap (λ seq, mk seq <$> m !! seq) (take (Z.to_nat (limit - len acc)) seqs)) →
  (∀ e acc', db_fails e → Q (Err e) M acc') →
  wp (page_loop p limit (run ++ rest)) Q M acc.
Proof.
  intros Hm Hval Hmaps. revert run acc Hval. induction seqs as [|seq seqs IH]; intros run acc Hval Hk Hin Hrest HQ HF.
  - apply fmap_nil_inv in Hk as ->. rewrite take_nil in HQ. cbn in HQ. rewrite app_nil_r in HQ. cbn [app].
    destruct rest as [|item rest]; [by apply wp_ret|]. cbn [page_loop].
    apply wp_bind, wp_read. rewrite Hrest. by apply wp_ret.
  - destruct (Hin seq) as [v Hv]; [by left|]. destruct (Hm _ _ Hv) as [Hs Hok].
    destruct run as [|item run]; [done|]. cbn in Hk. injection Hk as Hi Hk. cbn [app page_loop].
    apply wp_bind, wp_read. cbn [ValidForPrefix]. rewrite Hi, bool_decide_true by apply sequenceKey_prefix.
    cbn [andb]. case_match eqn:Hl; zbool.
    + rewrite parseSequence_key by done. apply wp_bind.
      destruct (Hval item) as (u & Hu & Hitem); [by left|]. rewrite Hi in Hu.
      rewrite Hmaps, Hv in Hu by done. cbn in Hu. injection Hu as <-.
      eapply wp_ValueCopy; [exact Hitem| |auto]. rewrite decode_layout by done.
      apply wp_bind, wp_assign.
      apply IH; [intros; apply Hval; by right|done|intros; apply Hin; by right|done| |done].
      unfold len in *. rewrite length_app. cbn [length].
      replace (Z.to_nat (limit - Z.of_nat (length acc))) with (S (Z.to_nat (limit - Z.of_nat (length acc + 1)))) in HQ by lia.
      cbn [take omap list_omap] in HQ. rewrite Hv in HQ. cbn in HQ. by rewrite <- app_assoc.
    + apply wp_ret. replace (Z.to_nat (limit - len acc)) with 0%nat in HQ by lia.
      cbn in HQ. by rewrite app_nil_r in HQ.
Qed.

(** A page read in a transaction of its own. *)
Lemma page_View (db : DB) (p : bytes) (m : gmap Z V) (from limit : Z) :
  (∀ seq v, m !! seq = Some v → is_u64 seq ∧ ok v) →
  (∀ seq, is_u64 seq → db_map db !! sequenceKey p seq = layout <$> m !! seq) →
  indexes p (db_map db) (dom m) → is_u64 from →
  match db_View db [] (iterator ← tx_Seek false (sequenceKey p from); page_loop p limit iterator) with
  | (records, None) => records = q_page m mk from limit
  | (_, Some e) => db_fails e
  end.
Proof.
  intros Hm Hmaps Hix Hfrom. pose proof (indexes_range _ _ _ Hix) as Hr.
  apply (View_rule (λ records, records = q_page m mk from limit) db_fails);
    [|done..|by intros ? ?].
  apply wp_bind, wp_Seek. intros items Hseek.
  destruct (seek_run _ _ _ _ _ _ _ Hix (sequenceKey_prefix p from) (seek_start_sequence p _ from Hr Hfrom) Hseek)
    as (run & rest & -> & Hk & Hrest).
  eapply page_run; [done| |done|exact Hk| |by apply ValidForPrefix_rest|..].
  - intros item Hi. apply (seek_value _ _ _ _ _ Hseek). apply elem_of_app. by left.
  - intros seq [Hi _]%elem_of_seqs_from. by apply elem_of_dom.
  - unfold q_page, len. cbn [length app]. do 3 f_equal. lia.
  - done.
Qed.
End page.

Lemma ScanBatch_lemma (db : DB) (s : Stream) (q : queue) (from limit : Z) :
  opened db s q → is_u64 from → 0 < limit →
  match ScanBatch db s from limit with
  | (records, None) => records = q_scan from limit q
  | (_, Some e) => db_fails e
  end.
Proof.
  intros (_ & Hrep & _) Hfrom Hl. unfold ScanBatch. rewrite (proj2 (Z.leb_gt _ _) Hl).
  pose proof (rep_maps _ _ _ Hrep) as Hm. pose proof (wf_tail _ (rep_wf _ _ _ Hrep)) as Ht.
  apply (page_View decodePending record_of "store: decode pending %q/%d: %w" pending_layout pending_ok);
    [by apply pending_layout_decodes| |by apply Hm..|done].
  intros seq v Hv. destruct (wf_pending _ (rep_wf _ _ _ Hrep) _ _ Hv). split; [|done].
  unfold is_u64 in *. lia.
Qed.

Lemma DeadLetters_lemma (db : DB) (s : Stream) (q : queue) (from limit : Z) :
  opened db s q → is_u64 from → 0 < limit →
  match DeadLetters db s from limit with
  | (records, None) => records = q_dead_page from limit q
  | (_, Some e) => db_fails e
  end.
Proof.
  intros (_ & Hrep & _) Hfrom Hl. unfold DeadLetters. rewrite (proj2 (Z.leb_gt _ _) Hl).
  pose proof (rep_maps _ _ _ Hrep) as Hm. pose proof (wf_tail _ (rep_wf _ _ _ Hrep)) as Ht.
  apply (page_View decodeDead dead_record_of "store: decode dead letter %q/%d: %w" dead_layout dead_ok);
    [by apply dead_layout_decodes| |by apply Hm..|done].
  intros seq v Hv. destruct (wf_dead _ (rep_wf _ _ _ Hrep) _ _ Hv). split; [|done].
  unfold is_u64 in *. lia.
Qed.
End refine.
