(* ===== verification/StoreLoad.v ===== *)
(** * Opening a stream: what [load] accepts

    [load] is the only check of what an earlier process left behind.  It is
    characterised on arbitrary database contents: [loadable] says what a stream
    must look like, and [load] succeeds on exactly those contents (unless the
    storage itself fails). *)
From S2P Require Import Prelude Errors Keys Envelope Badger Store StoreIter StoreSpec StoreRefine.
From Stdlib Require Import Strings.Byte.
#[local] Open Scope Z_scope.

(** A sequence stored under a prefix. *)
Definition stored (p : bytes) (M : gmap bytes bytes) (seq : Z) : Prop :=
  is_u64 seq ∧ is_Some (M !! sequenceKey p seq).

(** Every key under the prefix is a sequence key. *)
Definition well_keyed (p : bytes) (M : gmap bytes bytes) : Prop :=
  ∀ k, p `prefix_of` k → is_Some (M !! k) → ∃ seq, is_u64 seq ∧ k = sequenceKey p seq.

Definition schema_ok (name : string) (M : gmap bytes bytes) : Prop :=
  M !! metaKey name schemaMetaKey = None ∨ M !! metaKey name schemaMetaKey = Some [byte_of_Z schemaVersion].

(** The stored tail, and whether there is one. *)
Definition tail_ok (name : string) (M : gmap bytes bytes) (tail : Z) (found : bool) : Prop :=
  if found then ∃ v, M !! metaKey name tailMetaKey = Some v ∧ length v = seqLen ∧ tail = be_decode v
  else M !! metaKey name tailMetaKey = None ∧ tail = 0.

(** The tail bounds what is stored under a prefix. *)
Definition bounded (p : bytes) (M : gmap bytes bytes) (tail : Z) (found : bool) : Prop :=
  ∀ seq, stored p M seq → found = true ∧ seq ≤ tail.

(** What [validateStoredStates] checks. *)
Definition states_ok (name : string) (M : gmap bytes bytes) : Prop :=
  well_keyed (pendingPrefix name) M ∧ well_keyed (deadPrefix name) M
  ∧ ∀ seq, stored (pendingPrefix name) M seq → stored (deadPrefix name) M seq → False.

(** The tail and the record keys. *)
Definition rest_ok (name : string) (M : gmap bytes bytes) (tail : Z) : Prop :=
  (∃ found, tail_ok name M tail found
     ∧ bounded (pendingPrefix name) M tail found ∧ bounded (deadPrefix name) M tail found)
  ∧ states_ok name M.

Definition loadable (name : string) (M : gmap bytes bytes) (tail : Z) : Prop :=
  schema_ok name M ∧ rest_ok name M tail.

(** The keys [load] can write do not change what is stored. *)
Definition same_prefix (p : bytes) (M M' : gmap bytes bytes) : Prop := ∀ k, p `prefix_of` k → M' !! k = M !! k.

Lemma stored_same p M M' seq : same_prefix p M M' → stored p M' seq ↔ stored p M seq.
Proof. intros H. unfold stored. by rewrite H by apply sequenceKey_prefix. Qed.

Lemma well_keyed_same p M M' : same_prefix p M M' → well_keyed p M' → well_keyed p M.
Proof. intros H Hw k Hp Hk. apply Hw; [done|]. by rewrite H. Qed.

Lemma tail_ok_fun name M t1 f1 t2 f2 : tail_ok name M t1 f1 → tail_ok name M t2 f2 → t1 = t2 ∧ f1 = f2.
Proof.
  unfold tail_ok. destruct f1, f2; [intros (v & Hv & _ & ->) (v' & Hv' & _ & ->)|..]; [by simplify_eq| | |].
  - intros (v & Hv & _) [? _]. congruence.
  - intros [? _] (v & Hv & _). congruence.
  - by intros [_ ->] [_ ->].
Qed.

(** The errors [load] reports. *)
Definition corrupt (e : goerr) : Prop := errors_Is_any e corruption_sentinels = true.

Section load.
Context {B : Badger} {BS : BadgerSpec B}.

(** ** The greatest stored sequence *)

(** What [maxStoredSequence] finds, as a function of the iterator. *)
Definition max_found (p : bytes) (M : gmap bytes bytes) (r : res (option Z)) : Prop :=
  match r with
  | Ok None => ∀ seq, ¬ stored p M seq
  | Ok (Some m) => stored p M m ∧ ∀ seq, stored p M seq → seq ≤ m
  | Err e => corrupt e ∧ ¬ well_keyed p M
  end.

Lemma parse_None_not_well_keyed p M k :
  p `prefix_of` k → is_Some (M !! k) → parseSequence p k = None → ¬ well_keyed p M.
Proof.
  intros Hp Hk Hn Hw. destruct (Hw k Hp Hk) as (seq & Hs & ->). by rewrite parseSequence_key in Hn.
Qed.

Lemma maxStoredSequence_wp {S : Type} (p : bytes) (M : gmap bytes bytes) (s : S)
    (Q : res (option Z) → gmap bytes bytes → S → Prop) :
  (∀ r, max_found p M r → Q r M s) → wp (maxStoredSequence p) Q M s.
Proof.
  intros HQ. apply wp_bind, wp_Seek. intros items [Hsort _ Hel _].
  assert (Hin : ∀ seq, stored p M seq → sequenceKey p seq ∈ item_Key <$> items).
  { intros seq [Hs Hk]. apply Hel. split; [done|]. apply sequenceKey_le; [done|unfold is_u64, max_uint64; lia|].
    destruct Hs. unfold max_uint64. lia. }
  destruct items as [|item items].
  { apply wp_ret, HQ. intros seq ?%Hin. by eapply not_elem_of_nil. }
  destruct (proj1 (Hel (item_Key item))) as [Hsome Hmax]; [by left|].
  assert (Hge : ∀ seq, stored p M seq → bytes_le (sequenceKey p seq) (item_Key item)).
  { intros seq [->|Hk]%Hin%elem_of_cons; [done|]. by apply (StronglySorted_elem _ _ _ _ Hsort) in Hk. }
  cbn [ValidForPrefix]. case_bool_decide as Hp.
  - destruct (parseSequence p (item_Key item)) as [m|] eqn:Hm.
    + apply wp_ret, HQ. apply parseSequence_Some in Hm as [Hkey Hm]. rewrite Hkey in *.
      split; [by split|]. intros seq Hs. specialize (Hge seq Hs). by apply sequenceKey_le in Hge; [|apply Hs|].
    + apply wp_fail, HQ. split; [done|]. by eapply parse_None_not_well_keyed.
  - apply wp_ret, HQ. intros seq Hs. apply Hp.
    eapply bytes_le_prefix_between; [apply sequenceKey_prefix| |by apply (Hge seq)|exact Hmax].
    apply sequenceKey_prefix.
Qed.

(** ** The merge on arbitrary keys *)

Definition keys_under (p : bytes) (run : list Item) : Prop := ∀ item, item ∈ run → p `prefix_of` item_Key item.
Definition malformed (p : bytes) (run : list Item) : Prop :=
  ∃ item, item ∈ run ∧ parseSequence p (item_Key item) = None.

Lemma malformed_dec p run : malformed p run ∨ ∃ seqs, item_Key <$> run = sequenceKey p <$> seqs ∧ Forall is_u64 seqs.
Proof.
  induction run as [|item run [(i & Hi & Hn)|(seqs & Hk & Hf)]].
  - right. by exists [].
  - left. exists i. split; [by right|done].
  - destruct (parseSequence p (item_Key item)) as [seq|] eqn:E.
    + right. apply parseSequence_Some in E as [E ?]. exists (seq :: seqs). cbn. rewrite E, Hk. by split; [|constructor].
    + left. exists item. split; [by left|done].
Qed.

Lemma malformed_cons p item run seq :
  parseSequence p (item_Key item) = Some seq → malformed p (item :: run) → malformed p run.
Proof. intros Hs (i & [->|Hi]%elem_of_cons & Hn); [congruence|by exists i]. Qed.

Lemma not_malformed_nil p : ¬ malformed p [].
Proof. by intros (i & ?%elem_of_nil & _). Qed.

Lemma keys_under_cons p item run : keys_under p (item :: run) → p `prefix_of` item_Key item ∧ keys_under p run.
Proof. intros H. split; [apply H; by left|intros i Hi; apply H; by right]. Qed.

Lemma currentSequence_cons p item run :
  p `prefix_of` item_Key item →
  currentSequence (item :: run) p =
    match parseSequence p (item_Key item) with
    | None => Err (Sentinel store_ErrCorruptEnvelope)
    | Some seq => Ok (Some seq)
    end ∧ ValidForPrefix (item :: run) p = true.
Proof.
  intros Hp. cbn [currentSequence ValidForPrefix]. by rewrite bool_decide_true by done.
Qed.

(** A key that is not a sequence key is reported. *)
Lemma merge_malformed (pk dk : bytes) (prun prest drun drest : list Item) :
  keys_under pk prun → keys_under dk drun →
  ValidForPrefix prest pk = false → ValidForPrefix drest dk = false →
  malformed pk prun ∨ malformed dk drun →
  ∃ e, merge_states pk dk (prun ++ prest) (drun ++ drest) = Err e ∧ corrupt e.
Proof.
  intros Hpk Hdk Hpr Hdr. revert drun Hdk. induction prun as [|p prun IHp]; intros drun Hdk.
  - cbn [app]. induction drun as [|d drun IHd]; intros [Hm|Hm]; try by apply not_malformed_nil in Hm.
    apply keys_under_cons in Hdk as [Hd Hdk]. rewrite merge_states_unfold, Hpr. cbn [app].
    destruct (currentSequence_cons dk d (drun ++ drest) Hd) as [-> ->].
    rewrite (currentSequence_rest pk prest Hpr). cbn. destruct (parseSequence dk (item_Key d)) eqn:E; [|by eexists].
    cbn. apply IHd; [done|right]. by eapply malformed_cons.
  - apply keys_under_cons in Hpk as [Hp Hpk]. specialize (IHp Hpk). cbn [app].
    induction drun as [|d drun IHd]; intros Hm; rewrite merge_states_unfold;
      destruct (currentSequence_cons pk p (prun ++ prest) Hp) as [-> ->]; cbn [orb].
    + cbn [app]. rewrite (currentSequence_rest dk drest Hdr).
      destruct (parseSequence pk (item_Key p)) eqn:E; [|by eexists]. cbn.
      apply (IHp [] Hdk). destruct Hm as [Hm|Hm]; [left|by apply not_malformed_nil in Hm].
      by eapply malformed_cons.
    + pose proof Hdk as Hdk0. apply keys_under_cons in Hdk as [Hd Hdk]. cbn [app].
      destruct (currentSequence_cons dk d (drun ++ drest) Hd) as [-> _].
      destruct (parseSequence pk (item_Key p)) as [a|] eqn:E; [|by eexists].
      destruct (parseSequence dk (item_Key d)) as [b|] eqn:E'; [|by eexists]. cbn.
      case_match; [by eexists|]. case_match.
      * apply (IHp (d :: drun) Hdk0). destruct Hm as [Hm|Hm]; [left; by eapply malformed_cons|by right].
      * apply IHd; [done|]. destruct Hm as [Hm|Hm]; [by left|right; by eapply malformed_cons].
Qed.

(** The items of an iterator that starts at a prefix. *)
Lemma seek_prefix (p : bytes) (M : gmap bytes bytes) (items : list Item) :
  seek_spec db_fails M false p items →
  ∃ run rest, items = run ++ rest ∧ keys_under p run ∧ ValidForPrefix rest p = false
    ∧ StronglySorted bytes_le (item_Key <$> run) ∧ NoDup (item_Key <$> run)
    ∧ ∀ k, p `prefix_of` k → (k ∈ item_Key <$> run ↔ is_Some (M !! k)).
Proof.
  intros [Hs Hn He _]. destruct (prefix_run p p items) as (run & rest & -> & Hrun & Hrest); [done..| |].
  { intros k Hk. by apply He in Hk as [_ ?]. }
  rewrite fmap_app in Hs, Hn, He. exists run, rest. split_and!; [done| |by apply ValidForPrefix_rest|..].
  - intros item Hi. apply Hrun. by apply list_elem_of_fmap_2.
  - by apply StronglySorted_app_1_l in Hs.
  - by apply NoDup_app in Hn as (? & _ & _).
  - intros k Hp. split.
    + intros Hk. apply He, elem_of_app. by left.
    + intros Hk. assert (Hm : k ∈ (item_Key <$> run) ++ (item_Key <$> rest)).
      { apply He. split; [done|]. by apply bytes_le_prefix. }
      apply elem_of_app in Hm as [?|Hm]; [done|]. by apply Hrest in Hm.
Qed.

Lemma sorted_strict (seqs : list Z) : StronglySorted Z.le seqs → NoDup seqs → StronglySorted Z.lt seqs.
Proof.
  induction 1 as [|x l Hl IH Hx]; intros Hn; [constructor|]. apply NoDup_cons in Hn as [Hnin Hn].
  constructor; [by apply IH|]. apply Forall_forall. intros y Hy. eapply Forall_forall in Hx; [|done].
  assert (x ≠ y) by (by intros ->). lia.
Qed.

(** What a run of well-formed keys says about the contents. *)
Lemma run_sequences (p : bytes) (M : gmap bytes bytes) (run : list Item) :
  keys_under p run → StronglySorted bytes_le (item_Key <$> run) → NoDup (item_Key <$> run) →
  (∀ k, p `prefix_of` k → (k ∈ item_Key <$> run ↔ is_Some (M !! k))) →
  malformed p run ∧ ¬ well_keyed p M
  ∨ well_keyed p M ∧ ∃ seqs, item_Key <$> run = sequenceKey p <$> seqs ∧ Forall is_u64 seqs
      ∧ StronglySorted Z.lt seqs ∧ ∀ seq, seq ∈ seqs ↔ stored p M seq.
Proof.
  intros Hu Hs Hn He. destruct (malformed_dec p run) as [Hm|(seqs & Hk & Hf)].
  - left. split; [done|]. destruct Hm as (item & Hi & Hnone).
    eapply parse_None_not_well_keyed; [by apply Hu| |done]. apply He; [by apply Hu|by apply list_elem_of_fmap_2].
  - right. rewrite Hk in Hs, Hn. split.
    + intros k Hp Hsome. apply He in Hsome; [|done]. rewrite Hk in Hsome.
      apply list_elem_of_fmap in Hsome as (seq & -> & Hin). exists seq. split; [by eapply Forall_forall in Hf|done].
    + exists seqs. split_and!; [done|done| |].
      * apply sorted_strict; [by apply (sequence_keys_sorted p)|by eapply NoDup_fmap_1].
      * intros seq. unfold stored. rewrite <- He, Hk by apply sequenceKey_prefix. rewrite list_elem_of_fmap. split.
        -- intros Hin. split; [by eapply Forall_forall in Hf|eauto].
        -- intros [Hseq (seq' & Heq & Hin)]. apply sequenceKey_inj in Heq as ->; [done..|by eapply Forall_forall in Hf].
Qed.

Lemma validateStoredStates_wp {S : Type} (name : string) (M : gmap bytes bytes) (s : S)
    (Q : res unit → gmap bytes bytes → S → Prop) :
  (states_ok name M → Q (Ok tt) M s) →
  (∀ e, corrupt e → ¬ states_ok name M → Q (Err e) M s) →
  wp (validateStoredStates name) Q M s.
Proof.
  intros HQ HF. apply wp_bind, wp_Seek. intros pending Hp. apply wp_bind, wp_Seek. intros dead Hd.
  destruct (seek_prefix _ _ _ Hp) as (prun & prest & -> & Hpu & Hpr & Hps & Hpn & Hpe).
  destruct (seek_prefix _ _ _ Hd) as (drun & drest & -> & Hdu & Hdr & Hds & Hdn & Hde).
  apply wp_lift.
  destruct (run_sequences _ _ _ Hpu Hps Hpn Hpe) as [[Hm Hnw]|(Hwp & ps & Hpk & Hpf & Hpl & Hpi)].
  { destruct (merge_malformed (pendingPrefix name) (deadPrefix name) prun prest drun drest) as (e & -> & He); [done..|by left|].
    apply HF; [done|]. by intros (? & _). }
  destruct (run_sequences _ _ _ Hdu Hds Hdn Hde) as [[Hm Hnw]|(Hwd & ds & Hdk & Hdf & Hdl & Hdi)].
  { destruct (merge_malformed (pendingPrefix name) (deadPrefix name) prun prest drun drest) as (e & -> & He); [done..|by right|].
    apply HF; [done|]. by intros (_ & ? & _). }
  pose proof (merge_states_spec (pendingPrefix name) (deadPrefix name) ps ds prun prest drun drest
    Hpf Hdf Hpl Hdl Hpk Hdk Hpr Hdr) as Hmerge.
  destruct (merge_states _ _ _ _) as [[]|e].
  - apply HQ. split_and!; [done..|]. intros seq Hsp Hsd. by apply (Hmerge seq); [apply Hpi|apply Hdi].
  - destruct Hmerge as (He & seq & H1 & H2). apply HF.
    + unfold corrupt, corruption_sentinels, errors_Is_any. cbn. rewrite He. by rewrite !orb_true_r.
    + intros (_ & _ & Hdis). apply (Hdis seq); [by apply Hpi|by apply Hdi].
Qed.

(** The result of the closure of [load] on contents [M]. *)
Definition load_result (name : string) (M : gmap bytes bytes) (r : res unit) (M' : gmap bytes bytes) (tail : Z) : Prop :=
  match r with
  | Ok _ => loadable name M tail
            ∧ M' = if decide (M !! metaKey name schemaMetaKey = None)
                   then <[metaKey name schemaMetaKey := [byte_of_Z schemaVersion]]> M else M
  | Err e => db_fails e ∨ corrupt e ∧ ∀ tail', ¬ loadable name M tail'
  end.

(** The part of the closure after the schema check. *)
Definition load_rest (name : string) : txm Txn Z unit :=
  tail ← tx_Get (metaKey name tailMetaKey);
  tailFound ←
    match tail with
    | Err e =>
        if errors_Is e badger_ErrKeyNotFound then tx_assign 0 ;; mret false else tx_fail e
    | Ok item =>
        value ← tx_lift (item_ValueCopy item);
        if negb (length value =? seqLen)%nat
        then tx_fail (Errorf "%w: tail for stream %q" [Sentinel store_ErrCorruptEnvelope])
        else tx_assign (be_decode value) ;; mret true
    end;
  tx_for [pendingPrefix name; deadPrefix name] (λ prefix,
    maximum ← maxStoredSequence prefix;
    tail ← tx_read;
    match maximum with
    | None => mret tt
    | Some maximum =>
        if negb tailFound || (tail <? maximum)
        then tx_fail (Errorf "%w for stream %q: stored=%d tail=%d" [Sentinel store_ErrTailRegression])
        else mret tt
    end) ;;
  validateStoredStates name.

Lemma check_bound_wp (p : bytes) (M : gmap bytes bytes) (tail : Z) (found : bool)
    (Q : res unit → gmap bytes bytes → Z → Prop) :
  (bounded p M tail found → Q (Ok tt) M tail) →
  (∀ e, corrupt e → ¬ (bounded p M tail found ∧ well_keyed p M) → Q (Err e) M tail) →
  wp (maximum ← maxStoredSequence p;
      tail ← tx_read;
      match maximum with
      | None => mret tt
      | Some maximum =>
          if negb found || (tail <? maximum)
          then tx_fail (Errorf "%w for stream %q: stored=%d tail=%d" [Sentinel store_ErrTailRegression])
          else mret tt
      end) Q M tail.
Proof.
  intros HQ HF. apply wp_bind, maxStoredSequence_wp. intros [[m|]|e] Hr.
  - apply wp_bind, wp_read. destruct Hr as [Hm Hmax]. case_match eqn:E.
    + apply wp_fail, HF; [done|]. intros [Hb _]. destruct (Hb m Hm) as [-> Hle].
      cbn in E. apply Z.ltb_lt in E. lia.
    + apply wp_ret, HQ. intros seq Hs. apply orb_false_iff in E as [E1 E2]. zbool.
      split; [done|]. specialize (Hmax seq Hs). lia.
  - apply wp_bind, wp_read, wp_ret, HQ. intros seq Hs. by destruct (Hr seq).
  - destruct Hr as [He Hnw]. apply HF; [done|]. tauto.
Qed.

Lemma load_bounds_wp (name : string) (M : gmap bytes bytes) (tail : Z) (found : bool)
    (Q : res unit → gmap bytes bytes → Z → Prop) :
  tail_ok name M tail found →
  (rest_ok name M tail → Q (Ok tt) M tail) →
  (∀ e, corrupt e → (∀ tail', ¬ rest_ok name M tail') → Q (Err e) M tail) →
  wp (tx_for [pendingPrefix name; deadPrefix name] (λ prefix,
        maximum ← maxStoredSequence prefix;
        tail ← tx_read;
        match maximum with
        | None => mret tt
        | Some maximum =>
            if negb found || (tail <? maximum)
            then tx_fail (Errorf "%w for stream %q: stored=%d tail=%d" [Sentinel store_ErrTailRegression])
            else mret tt
        end) ;;
      validateStoredStates name) Q M tail.
Proof.
  intros Ht HQ HF.
  assert (Hno : ∀ p, p = pendingPrefix name ∨ p = deadPrefix name →
    ¬ (bounded p M tail found ∧ well_keyed p M) → ∀ tail', ¬ rest_ok name M tail').
  { intros p Hp Hn tail' [(f & Ht' & Hb1 & Hb2) (Hw1 & Hw2 & _)].
    destruct (tail_ok_fun _ _ _ _ _ _ Ht Ht') as [-> ->]. by destruct Hp as [->| ->]; apply Hn. }
  apply wp_bind. cbn [tx_for]. apply wp_bind, check_bound_wp.
  2: { intros e He Hn. apply HF; [done|]. eapply Hno; [by left|done]. }
  intros Hb1. apply wp_bind, check_bound_wp.
  2: { intros e He Hn. apply HF; [done|]. eapply Hno; [by right|done]. }
  intros Hb2. apply wp_ret, validateStoredStates_wp.
  - intros Hs. apply HQ. split; [|done]. by exists found.
  - intros e He Hn. apply HF; [done|]. by intros tail' [_ ?].
Qed.

Lemma load_rest_wp (name : string) (M : gmap bytes bytes) (t0 : Z)
    (Q : res unit → gmap bytes bytes → Z → Prop) :
  (∀ tail, rest_ok name M tail → Q (Ok tt) M tail) →
  (∀ e tail, db_fails e → Q (Err e) M tail) →
  (∀ e tail, corrupt e → (∀ tail', ¬ rest_ok name M tail') → Q (Err e) M tail) →
  wp (load_rest name) Q M t0.
Proof.
  intros HQ HD HF. apply wp_bind, wp_Get.
  - intros item v Hv Hitem. apply wp_bind, wp_bind. eapply wp_ValueCopy; [done| |auto].
    destruct (length v =? seqLen)%nat eqn:E; cbn [negb].
    + apply Nat.eqb_eq in E. apply wp_bind, wp_assign, wp_ret, load_bounds_wp; auto. by exists v.
    + apply Nat.eqb_neq in E. apply wp_fail, HF; [done|].
      intros tail' [([] & Ht & _) _].
      * destruct Ht as (v' & Hv' & Hl & _). congruence.
      * destruct Ht. congruence.
  - intros e Hn He. apply wp_bind. rewrite He. apply wp_bind, wp_assign, wp_ret, load_bounds_wp; auto. by split.
  - intros e He Hk. apply wp_bind. rewrite Hk. apply wp_fail. auto.
Qed.

(** Storing the schema version changes nothing [rest_ok] looks at. *)
Lemma rest_ok_schema (name : string) (M : gmap bytes bytes) (v : bytes) (tail : Z) :
  rest_ok name (<[metaKey name schemaMetaKey := v]> M) tail ↔ rest_ok name M tail.
Proof.
  assert (Hp : same_prefix (pendingPrefix name) M (<[metaKey name schemaMetaKey := v]> M)).
  { intros k Hk. rewrite lookup_insert_ne; [done|]. intros <-. by apply meta_not_pending in Hk. }
  assert (Hd : same_prefix (deadPrefix name) M (<[metaKey name schemaMetaKey := v]> M)).
  { intros k Hk. rewrite lookup_insert_ne; [done|]. intros <-. by apply meta_not_dead in Hk. }
  assert (Ht : ∀ found, tail_ok name (<[metaKey name schemaMetaKey := v]> M) tail found ↔ tail_ok name M tail found).
  { intros found. unfold tail_ok. rewrite lookup_insert_ne; [done|]. intros H. symmetry in H. by apply metaKey_tail_schema in H. }
  assert (Hw : ∀ p, same_prefix p M (<[metaKey name schemaMetaKey := v]> M) →
    well_keyed p (<[metaKey name schemaMetaKey := v]> M) ↔ well_keyed p M).
  { intros p Hs. split; [by apply well_keyed_same|]. apply well_keyed_same. intros k Hk. symmetry. by apply Hs. }
  unfold rest_ok, states_ok, bounded. setoid_rewrite Ht. rewrite !Hw by done.
  setoid_rewrite (stored_same _ _ _ _ Hp). setoid_rewrite (stored_same _ _ _ _ Hd). done.
Qed.

Lemma load_closure_wp (name : string) (M : gmap bytes bytes) (t0 : Z) :
  wp (load_closure name) (load_result name M) M t0.
Proof.
  change (load_closure name) with (schema ← tx_Get (metaKey name schemaMetaKey);
    match schema with
    | Err e =>
        if errors_Is e badger_ErrKeyNotFound
        then tx_Set (metaKey name schemaMetaKey) [byte_of_Z schemaVersion]
        else tx_fail e
    | Ok item =>
        value ← tx_lift (item_ValueCopy item);
        match value with
        | [v] => if negb (Z_of_byte v =? schemaVersion)
                 then tx_fail (Errorf "%w for stream %q" [Sentinel store_ErrUnsupportedSchema])
                 else mret tt
        | _ => tx_fail (Errorf "%w for stream %q" [Sentinel store_ErrUnsupportedSchema])
        end
    end ;; load_rest name : txm Txn Z unit).
  apply wp_bind, wp_Get.
  - intros item v Hv Hitem.
    assert (Hbad : v ≠ [byte_of_Z schemaVersion] → ∀ e tail, corrupt e → load_result name M (Err e) M tail).
    { intros Hne e tail He. right. split; [done|]. intros tail' [[Hn|Hs] _]; congruence. }
    apply wp_bind, wp_bind. eapply wp_ValueCopy; [done| |by left].
    destruct v as [|b [|b' v]]; [by apply wp_fail, Hbad| |by apply wp_fail, Hbad].
    case_match eqn:E; zbool; [apply wp_fail, Hbad; [|done]; by intros [= ->]|].
    assert (Hb : b = byte_of_Z schemaVersion) by (by rewrite <- E, byte_of_Z_of_byte).
    apply wp_ret, load_rest_wp; [|by left|].
    + intros tail Hr. split; [split; [right; by rewrite Hv, Hb|done]|]. by rewrite decide_False by congruence.
    + intros e tail He Hn. right. split; [done|]. intros tail' [_ ?]. by apply (Hn tail').
  - intros e Hn He. apply wp_bind. rewrite He. apply wp_Set; [|by left].
    apply load_rest_wp; [|by left|].
    + intros tail Hr%rest_ok_schema. split; [split; [by left|done]|]. by rewrite decide_True.
    + intros e' tail He' Hno. right. split; [done|]. intros tail' [_ Hr]. apply (Hno tail'). by apply rest_ok_schema.
  - intros e He Hk. apply wp_bind. rewrite Hk. apply wp_fail. by left.
Qed.

Lemma load_lemma (db : DB) (s : Stream) :
  match load db s with
  | (db', s', None) =>
      loadable (s_name s) (db_map db) (s_tail s') ∧ s' = set_tail s (s_tail s')
      ∧ db_map db' = if decide (db_map db !! metaKey (s_name s) schemaMetaKey = None)
                     then <[metaKey (s_name s) schemaMetaKey := [byte_of_Z schemaVersion]]> (db_map db)
                     else db_map db
  | (db', _, Some e) =>
      db_map db' = db_map db
      ∧ (db_fails e ∨ corrupt e ∧ ∀ tail, ¬ loadable (s_name s) (db_map db) tail)
  end.
Proof.
  unfold load.
  apply (Update_rule (λ M' tail, load_result (s_name s) (db_map db) (Ok tt) M' tail)
    (λ e, load_result (s_name s) (db_map db) (Err e) (db_map db) 0)).
  - eapply wp_mono; [|apply load_closure_wp]. by intros [[]|e] M' tail.
  - by left.
  - intros db' tail [Hl Hm]. by split_and!.
  - by intros db' tail e Hm He.
Qed.

(** ** A stream the store left behind *)

Lemma represents_stored (name : string) (M : gmap bytes bytes) (q : queue) (seq : Z) :
  represents name M q →
  (stored (pendingPrefix name) M seq ↔ is_Some (q_pending q !! seq))
  ∧ (stored (deadPrefix name) M seq ↔ is_Some (q_dead q !! seq)).
Proof.
  intros Hrep. pose proof (rep_maps _ _ _ Hrep) as Hm.
  rewrite <- !elem_of_dom. unfold stored. split; split.
  - intros [Hs Hk]. apply (indexes_key _ _ _ (maps_pending_index _ _ _ _ Hm)) in Hk as (seq' & Hin & Heq);
      [|apply sequenceKey_prefix].
    apply sequenceKey_inj in Heq as ->; [done..|]. by eapply (indexes_range _ _ _ (maps_pending_index _ _ _ _ Hm)).
  - intros Hin. split; [by eapply (indexes_range _ _ _ (maps_pending_index _ _ _ _ Hm))|].
    apply (indexes_key _ _ _ (maps_pending_index _ _ _ _ Hm)); [apply sequenceKey_prefix|eauto].
  - intros [Hs Hk]. apply (indexes_key _ _ _ (maps_dead_index _ _ _ _ Hm)) in Hk as (seq' & Hin & Heq);
      [|apply sequenceKey_prefix].
    apply sequenceKey_inj in Heq as ->; [done..|]. by eapply (indexes_range _ _ _ (maps_dead_index _ _ _ _ Hm)).
  - intros Hin. split; [by eapply (indexes_range _ _ _ (maps_dead_index _ _ _ _ Hm))|].
    apply (indexes_key _ _ _ (maps_dead_index _ _ _ _ Hm)); [apply sequenceKey_prefix|eauto].
Qed.

Lemma indexes_well_keyed (p : bytes) (M : gmap bytes bytes) (X : gset Z) : indexes p M X → well_keyed p M.
Proof.
  intros HX k Hp Hk. apply (indexes_key _ _ _ HX k Hp) in Hk as (seq & Hin & ->).
  exists seq. split; [by eapply indexes_range|done].
Qed.

Lemma represents_loadable (name : string) (M : gmap bytes bytes) (q : queue) :
  represents name M q → loadable name M (q_tail q).
Proof.
  intros Hrep. pose proof (λ seq, represents_stored name M q seq Hrep) as Hst.
  destruct Hrep as [Hm Hwf Ht Hs]. split; [by destruct Hs; [right|left]|]. split.
  - destruct Ht as [Ht|[Ht H0]].
    + exists true. split_and!.
      * exists (be_encode 8 (q_tail q)). split_and!; [done|apply length_be_encode|].
        symmetry. apply be_decode_encode, (wf_tail _ Hwf).
      * intros seq [v Hv]%Hst. split; [done|]. by destruct (wf_pending _ Hwf _ _ Hv) as [[_ ?] _].
      * intros seq [v Hv]%Hst. split; [done|]. by destruct (wf_dead _ Hwf _ _ Hv) as [[_ ?] _].
    + exists false. split_and!; [done|..].
      * intros seq [v Hv]%Hst. destruct (wf_pending _ Hwf _ _ Hv) as [? _]. lia.
      * intros seq [v Hv]%Hst. destruct (wf_dead _ Hwf _ _ Hv) as [? _]. lia.
  - split_and!; [by eapply indexes_well_keyed, maps_pending_index|by eapply indexes_well_keyed, maps_dead_index|].
    intros seq [v Hv]%Hst [w Hw]%Hst. by eapply wf_disjoint.
Qed.

Lemma loadable_tail (name : string) (M : gmap bytes bytes) (t1 t2 : Z) :
  loadable name M t1 → loadable name M t2 → t1 = t2.
Proof.
  intros [_ [(f1 & H1 & _) _]] [_ [(f2 & H2 & _) _]]. by destruct (tail_ok_fun _ _ _ _ _ _ H1 H2).
Qed.

Lemma represents_schema (name : string) (M : gmap bytes bytes) (q : queue) :
  represents name M q → represents name (<[metaKey name schemaMetaKey := [byte_of_Z schemaVersion]]> M) q.
Proof.
  intros [Hm Hwf Ht Hs]. split; [by apply maps_set_meta|done| |left; apply lookup_insert_eq].
  rewrite lookup_insert_ne; [done|]. intros H. symmetry in H. by apply metaKey_tail_schema in H.
Qed.

(** A restart finds the queue the store represented. *)
Lemma load_restart_lemma (db : DB) (name : string) (q : queue) :
  valid_name name → represents name (db_map db) q →
  match load db {| s_name := name; s_tail := 0; s_beforeCommit := None |} with
  | (db', s, None) => s = {| s_name := name; s_tail := q_tail q; s_beforeCommit := None |}
                      ∧ opened db' s q ∧ same_outside name (db_map db) (db_map db')
  | (_, _, Some e) => db_fails e
  end.
Proof.
  intros Hname Hrep.
  pose proof (load_lemma db {| s_name := name; s_tail := 0; s_beforeCommit := None |}) as H.
  destruct (load _ _) as [[db' s'] [e|]]; cbn [s_name] in H.
  - destruct H as (_ & [?|[_ Hn]]); [done|]. exfalso. by eapply Hn, represents_loadable.
  - destruct H as (Hl & Hs & Hm). rewrite (loadable_tail _ _ _ _ Hl (represents_loadable _ _ _ Hrep)) in Hs.
    rewrite Hs. split_and!; [done| |].
    + split_and!; [done| |done]. rewrite Hm. case_decide; [by apply represents_schema|done].
    + rewrite Hm. case_decide; auto with teak.
Qed.
End load.
