(* ===== verification/StoreCounts.v ===== *)
(** * The counters of a stream

    [Counts] walks both key ranges in one read transaction: it reports the
    sizes of the two maps of the queue and the first pending record. *)
From S2P Require Import Prelude Errors Keys Envelope Badger Store StoreIter StoreSpec StoreRefine.
#[local] Open Scope Z_scope.

Definition q_counts (q : queue) : Counts :=
  {| c_Tail := q_tail q;
     c_Pending := Z.of_nat (size (q_pending q));
     c_DeadLetter := Z.of_nat (size (q_dead q));
     c_OldestSeq := match seqs_from (dom (q_pending q)) 0 with [] => 0 | seq :: _ => seq end;
     c_OldestTime := match seqs_from (dom (q_pending q)) 0 with
                     | [] => zero_time
                     | seq :: _ => match q_pending q !! seq with Some v => pe_CreatedAt v | None => zero_time end
                     end |}.

(** ** Sizes *)

Lemma length_seqs_from (X : gset Z) :
  (∀ seq, seq ∈ X → 0 ≤ seq) → length (seqs_from X 0) = size X.
Proof.
  intros HX. unfold seqs_from. rewrite merge_sort_Permutation.
  change (size X) with (length (elements X)).
  assert (Hf : Forall (λ seq, 0 ≤ seq) (elements X)) by (apply Forall_forall; intros seq Hs%elem_of_elements; by apply HX).
  induction Hf as [|seq l Hs Hf IH]; [done|]. rewrite filter_cons_True by done. cbn. by rewrite IH.
Qed.

Lemma size_range (X : gset Z) (t : Z) :
  0 ≤ t → (∀ seq, seq ∈ X → 1 ≤ seq ≤ t) → Z.of_nat (size X) ≤ t.
Proof.
  intros Ht HX. assert (Hs : X ⊆ list_to_set (seqZ 1 t)).
  { intros seq Hin. apply elem_of_list_to_set, elem_of_seqZ. specialize (HX seq Hin). lia. }
  apply subseteq_size in Hs. rewrite size_list_to_set in Hs by apply NoDup_seqZ.
  rewrite length_seqZ in Hs. lia.
Qed.

Section counts.
Context {B : Badger} {BS : BadgerSpec B}.

Definition add_pending (c : Counts) (n : nat) : Counts :=
  {| c_Tail := c_Tail c; c_Pending := c_Pending c + Z.of_nat n; c_DeadLetter := c_DeadLetter c;
     c_OldestSeq := c_OldestSeq c; c_OldestTime := c_OldestTime c |}.
Definition add_dead (c : Counts) (n : nat) : Counts :=
  {| c_Tail := c_Tail c; c_Pending := c_Pending c; c_DeadLetter := c_DeadLetter c + Z.of_nat n;
     c_OldestSeq := c_OldestSeq c; c_OldestTime := c_OldestTime c |}.

Lemma count_dead_run (p : bytes) (M : gmap bytes bytes) (run rest : list Item) (c : Counts)
    (Q : res unit → gmap bytes bytes → Counts → Prop) :
  (∀ item, item ∈ run → p `prefix_of` item_Key item) → ValidForPrefix rest p = false →
  0 ≤ c_DeadLetter c → c_DeadLetter c + Z.of_nat (length run) ≤ max_uint64 →
  Q (Ok tt) M (add_dead c (length run)) →
  wp (count_loop p false (run ++ rest)) Q M c.
Proof.
  revert c. induction run as [|item run IH]; intros c Hk Hrest H0 Hmax HQ.
  - unfold add_dead in HQ. cbn in HQ. rewrite Z.add_0_r in HQ. destruct c. cbn [app].
    destruct rest; [by apply wp_ret|]. cbn [count_loop]. rewrite Hrest. by apply wp_ret.
  - cbn [app count_loop ValidForPrefix]. rewrite bool_decide_true by (apply Hk; by left).
    cbn [length] in *. rewrite Nat2Z.inj_succ in Hmax.
    apply wp_bind, wp_read, wp_bind, wp_assign. cbn [andb]. apply wp_bind, wp_ret.
    unfold count_more. rewrite u64_id by (unfold is_u64, max_uint64 in *; lia).
    apply IH; cbn [c_DeadLetter]; [intros; apply Hk; by right|done|lia|lia|].
    unfold add_dead in *. cbn. rewrite Nat2Z.inj_succ in HQ.
    replace (c_DeadLetter c + 1 + Z.of_nat (length run)) with (c_DeadLetter c + Z.succ (Z.of_nat (length run))) by lia.
    exact HQ.
Qed.

Lemma count_pending_run (p : bytes) (M : gmap bytes bytes) (run rest : list Item) (c : Counts)
    (Q : res unit → gmap bytes bytes → Counts → Prop) :
  (∀ item, item ∈ run → p `prefix_of` item_Key item) → ValidForPrefix rest p = false →
  c_OldestSeq c ≠ 0 →
  0 ≤ c_Pending c → c_Pending c + Z.of_nat (length run) ≤ max_uint64 →
  Q (Ok tt) M (add_pending c (length run)) →
  wp (count_loop p true (run ++ rest)) Q M c.
Proof.
  revert c. induction run as [|item run IH]; intros c Hk Hrest Ho H0 Hmax HQ.
  - unfold add_pending in HQ. cbn in HQ. rewrite Z.add_0_r in HQ. destruct c. cbn [app].
    destruct rest; [by apply wp_ret|]. cbn [count_loop]. rewrite Hrest. by apply wp_ret.
  - cbn [app count_loop ValidForPrefix]. rewrite bool_decide_true by (apply Hk; by left).
    cbn [length] in *. rewrite Nat2Z.inj_succ in Hmax.
    apply wp_bind, wp_read, wp_bind, wp_assign. cbn [andb count_more c_OldestSeq].
    rewrite (proj2 (Z.eqb_neq _ _) Ho). apply wp_bind, wp_ret.
    unfold count_more. rewrite u64_id by (unfold is_u64, max_uint64 in *; lia).
    apply IH; cbn [c_Pending c_OldestSeq]; [intros; apply Hk; by right|done|done|lia|lia|].
    unfold add_pending in *. cbn. rewrite Nat2Z.inj_succ in HQ.
    replace (c_Pending c + 1 + Z.of_nat (length run)) with (c_Pending c + Z.succ (Z.of_nat (length run))) by lia.
    exact HQ.
Qed.

(** The items under one of the prefixes of a represented stream. *)
Lemma seek_counts (p : bytes) (M : gmap bytes bytes) (X : gset Z) (items : list Item) :
  indexes p M X → seek_spec db_fails M false p items →
  ∃ run rest, items = run ++ rest ∧ item_Key <$> run = sequenceKey p <$> seqs_from X 0
    ∧ (∀ item, item ∈ run → p `prefix_of` item_Key item) ∧ ValidForPrefix rest p = false
    ∧ length run = size X.
Proof.
  intros HX Hseek. pose proof (indexes_range _ _ _ HX) as Hr.
  destruct (seek_run _ _ _ _ _ _ _ HX (reflexivity p) (seek_start_prefix p _ Hr) Hseek)
    as (run & rest & -> & Hk & Hrest).
  exists run, rest. split_and!; [done|done| |by apply ValidForPrefix_rest|].
  - intros item Hi. assert (Hin : item_Key item ∈ item_Key <$> run) by (by apply list_elem_of_fmap_2).
    rewrite Hk in Hin. apply list_elem_of_fmap in Hin as (seq & -> & _). apply sequenceKey_prefix.
  - rewrite <- (length_fmap item_Key), Hk, length_fmap. apply length_seqs_from. intros seq Hs. by apply Hr in Hs as [].
Qed.

(** The dead-letter half of the count, entered from either end of the pending one. *)
Lemma count_dead_half (db : DB) (s : Stream) (q : queue) (c : Counts) :
  maps (s_name s) (db_map db) (q_pending q) (q_dead q) →
  Z.of_nat (size (dom (q_dead q))) ≤ max_uint64 →
  c_DeadLetter c = 0 → add_dead c (size (q_dead q)) = q_counts q →
  wp (iterator ← tx_Seek false (deadPrefix (s_name s)); count_loop (deadPrefix (s_name s)) false iterator)
     (λ r M' s', match r with
                 | Ok a => wp (mret tt : txm Txn Counts unit)
                              (λ r M s', match r with Ok _ => s' = q_counts q | Err e => db_fails e end) M' s'
                 | Err e => db_fails e
                 end) (db_map db) c.
Proof.
  intros Hm Hsd Hc Hq. apply wp_bind, wp_Seek. intros items Hseek.
  destruct (seek_counts _ _ _ _ (maps_dead_index _ _ _ _ Hm) Hseek) as (run & rest & -> & _ & Hp & Hrest & Hl).
  apply count_dead_run; [done|done|by rewrite Hc|rewrite Hc, Hl; unfold max_uint64 in *; lia|].
  apply wp_ret. by rewrite Hl, size_dom.
Qed.

Lemma CountsOf_lemma (db : DB) (s : Stream) (q : queue) :
  opened db s q →
  match CountsOf db s with
  | (counts, None) => counts = q_counts q
  | (_, Some e) => db_fails e
  end.
Proof.
  intros (_ & Hrep & Htail). pose proof (rep_maps _ _ _ Hrep) as Hm. pose proof (rep_wf _ _ _ Hrep) as Hwf.
  pose proof (wf_tail _ Hwf) as Ht. unfold is_u64 in Ht. unfold CountsOf.
  assert (Hsp : Z.of_nat (size (dom (q_pending q))) ≤ q_tail q).
  { apply size_range; [lia|]. intros seq [v Hv]%elem_of_dom. by destruct (wf_pending _ Hwf _ _ Hv). }
  assert (Hsd : Z.of_nat (size (dom (q_dead q))) ≤ q_tail q).
  { apply size_range; [lia|]. intros seq [v Hv]%elem_of_dom. by destruct (wf_dead _ Hwf _ _ Hv). }
  apply (View_rule (λ counts, counts = q_counts q) db_fails); [|done..|by intros ? ?].
  cbn [tx_for]. apply wp_bind, wp_bind, wp_Seek. intros items Hseek.
  destruct (seek_counts _ _ _ _ (maps_pending_index _ _ _ _ Hm) Hseek) as (run & rest & -> & Hk & Hp & Hrest & Hl).
  pose proof (λ c, count_dead_half db s q c Hm ltac:(unfold max_uint64; lia)) as Hsecond.
  destruct (seqs_from (dom (q_pending q)) 0) as [|seq seqs] eqn:Hseqs.
  - apply fmap_nil_inv in Hk as ->. cbn in Hl. cbn [app].
    assert (Hz : size (q_pending q) = 0%nat) by (by rewrite <- size_dom).
    destruct rest as [|item rest]; [apply wp_ret|cbn [count_loop]; rewrite Hrest; apply wp_ret];
      (apply wp_bind, Hsecond; [done|]; unfold q_counts, add_dead; cbn; by rewrite Hseqs, Hz, Htail).
  - assert (Hin : seq ∈ seqs_from (dom (q_pending q)) 0) by (rewrite Hseqs; by left).
    apply elem_of_seqs_from in Hin as [Hin _]. apply elem_of_dom in Hin as [v Hv].
    destruct (wf_pending _ Hwf _ _ Hv) as [Hseq Hok].
    destruct run as [|item run]; [done|]. cbn in Hk. injection Hk as Hi Hk.
    cbn [app count_loop ValidForPrefix]. rewrite bool_decide_true by (apply Hp; by left).
    apply wp_bind, wp_read, wp_bind, wp_assign. cbn [count_more c_OldestSeq andb Z.eqb].
    rewrite Hi, parseSequence_key by (unfold is_u64; lia).
    destruct (seek_value _ _ _ _ _ Hseek item) as (u & Hu & Hitem); [by left|]. rewrite Hi in Hu.
    change (db_map db !! pendingKey (s_name s) seq = Some u) in Hu.
    rewrite (maps_pending _ _ _ _ Hm), Hv in Hu by (unfold is_u64; lia). cbn in Hu. injection Hu as <-.
    apply wp_bind, wp_bind. eapply wp_ValueCopy; [done| |done].
    apply wp_bind, wp_lift. rewrite pending_layout_decodes by done. apply wp_assign.
    cbn [length] in Hl. apply count_pending_run.
    + intros; apply Hp; by right.
    + done.
    + cbn. lia.
    + by cbn.
    + cbn. rewrite u64_id by (by unfold is_u64). unfold max_uint64. lia.
    + apply wp_bind, Hsecond; [done|]. unfold q_counts, add_dead, add_pending. cbn.
      rewrite Hseqs, Hv, Htail, u64_id by (by unfold is_u64). rewrite size_dom in Hl. f_equal. lia.
Qed.
End counts.
