(* ===== verification/StoreHistory.v ===== *)
(** * Histories of a store

    A history is a sequence of calls on any streams of one store, with restarts
    in between: a restart forgets every handle and keeps the database.  The
    store simulates a family of abstract queues, one per name: a call that
    succeeds is the abstract step of its stream, a call that fails is no step. *)
From S2P Require Import Prelude Errors Keys Envelope Badger Store StoreIter StoreSpec StoreRefine.
From S2P Require Import StoreLoad.
#[local] Open Scope Z_scope.

(** The calls that change a stream. *)
Inductive stream_op : Type :=
| OpAppend (payloads : list bytes) (now : Z)
| OpCommit (seqs : list Z)
| OpDeadLetter (seq : Z) (reason : string) (now : Z)
| OpRequeue (seq : Z).

(** The arguments are values of their Go types. *)
Definition op_typed (op : stream_op) : Prop :=
  match op with
  | OpAppend _ now => is_i64 now
  | OpCommit seqs => Forall is_u64 seqs
  | OpDeadLetter seq _ now => is_u64 seq ∧ is_i64 now
  | OpRequeue seq => is_u64 seq
  end.

Inductive store_event : Type :=
| EvCall (name : string) (op : stream_op)
| EvRestart.

Definition event_typed (ev : store_event) : Prop :=
  match ev with EvCall _ op => op_typed op | EvRestart => True end.

Definition error_of {A} (r : res A) : option goerr := match r with Ok _ => None | Err e => Some e end.

Section exec.
Context {B : Badger}.

Definition stream_exec (db : DB) (s : Stream) (op : stream_op) : DB * Stream * option goerr :=
  match op with
  | OpAppend payloads now => let '(db, s, r) := AppendBatch db s payloads now in (db, s, error_of r)
  | OpCommit seqs => let '(db, err) := Commit db s seqs in (db, s, err)
  | OpDeadLetter seq reason now => let '(db, err) := DeadLetter db s seq reason now in (db, s, err)
  | OpRequeue seq => let '(db, s, r) := Requeue db s seq in (db, s, error_of r)
  end.

Definition set_stream (r : Root) (name : string) (s : Stream) : Root :=
  {| root_closed := root_closed r; root_streams := <[name := s]> (root_streams r) |}.

(** A call opens its stream first, as [Log] does. *)
Definition store_exec (db : DB) (r : Root) (ev : store_event) : DB * Root * option goerr :=
  match ev with
  | EvRestart => (db, {| root_closed := false; root_streams := ∅ |}, None)
  | EvCall name op =>
      match Root_Stream db r name with
      | (db, r, Err e) => (db, r, Some e)
      | (db, r, Ok _) =>
          match root_streams r !! name with
          | None => (db, r, Some (NewError "nil stream"))
          | Some s =>
              let '(db, s, err) := stream_exec db s op in (db, set_stream r name s, err)
          end
      end
  end.

(** A history with the outcome of each event. *)
Fixpoint store_run (db : DB) (r : Root) (evs : list store_event) : DB * Root * list (store_event * option goerr) :=
  match evs with
  | [] => (db, r, [])
  | ev :: evs =>
      let '(db, r, err) := store_exec db r ev in
      let '(db, r, trace) := store_run db r evs in (db, r, (ev, err) :: trace)
  end.
End exec.

(** ** The abstract history *)

Definition q_exec (name : string) (op : stream_op) (q : queue) : queue :=
  match op with
  | OpAppend payloads now => q_append now payloads q
  | OpCommit seqs => q_commit seqs q
  | OpDeadLetter seq reason now => q_dead_letter name seq reason now q
  | OpRequeue seq => q_requeue seq q
  end.

Definition queue_of (qs : gmap string queue) (name : string) : queue := default empty_queue (qs !! name).

(** Only calls that succeed count. *)
Definition q_event (qs : gmap string queue) (entry : store_event * option goerr) : gmap string queue :=
  match entry with
  | (EvCall name op, None) => <[name := q_exec name op (queue_of qs name)]> qs
  | _ => qs
  end.

Definition q_run (qs : gmap string queue) (trace : list (store_event * option goerr)) : gmap string queue :=
  foldl q_event qs trace.

Lemma queue_of_insert qs name q : queue_of (<[name := q]> qs) name = q.
Proof. unfold queue_of. by rewrite lookup_insert_eq. Qed.

Lemma queue_of_insert_ne qs name other q : name ≠ other → queue_of (<[name := q]> qs) other = queue_of qs other.
Proof. intros. unfold queue_of. by rewrite lookup_insert_ne. Qed.

Lemma insert_queue_of_lookup qs name other : queue_of (<[name := queue_of qs name]> qs) other = queue_of qs other.
Proof.
  destruct (decide (name = other)) as [->|]; [apply queue_of_insert|by apply queue_of_insert_ne].
Qed.

(** *** Facts about the abstract queue *)

Lemma append_pending_lookup T now payloads P seq :
  append_pending T now payloads P !! seq =
    if decide (T < seq ≤ T + len payloads)
    then fresh_envelope now <$> payloads !! Z.to_nat (seq - T - 1) else P !! seq.
Proof.
  revert T P. induction payloads as [|p ps IH]; intros T P; cbn [append_pending].
  { unfold len. cbn. rewrite decide_False; [done|lia]. }
  rewrite IH. unfold len in *. cbn [length]. rewrite Nat2Z.inj_succ.
  repeat case_decide; try lia.
  - replace (Z.to_nat (seq - T - 1)) with (S (Z.to_nat (seq - (T + 1) - 1))) by lia. done.
  - rewrite lookup_insert. assert (seq = T + 1) as -> by lia. rewrite decide_True by done.
    by replace (Z.to_nat (T + 1 - T - 1)) with 0%nat by lia.
  - by rewrite lookup_insert_ne by lia.
Qed.

Lemma q_exec_tail name op q : q_tail q ≤ q_tail (q_exec name op q).
Proof.
  destruct op; cbn.
  - unfold len. lia.
  - done.
  - unfold q_dead_letter. by case_match.
  - unfold q_requeue. case_match; cbn; lia.
Qed.

(** Whatever an operation adds to the pending records is above the old tail. *)
Lemma q_exec_fresh name op q seq v :
  q_pending (q_exec name op q) !! seq = Some v → q_pending q !! seq = Some v ∨ q_tail q < seq.
Proof.
  destruct op; cbn.
  - rewrite append_pending_lookup. case_decide; [by right; lia|by left].
  - rewrite delete_all_lookup. case_decide; [done|by left].
  - unfold q_dead_letter. case_match; [|by left]. cbn. rewrite lookup_delete. case_decide; [done|by left].
  - unfold q_requeue. case_match; [|by left]. cbn. rewrite lookup_insert. case_decide; [right; lia|by left].
Qed.

(** ** The simulation *)

Section sim.
Context {B : Badger} {BS : BadgerSpec B}.

Record sim (db : DB) (r : Root) (qs : gmap string queue) : Prop := {
  sim_rep name : valid_name name → represents name (db_map db) (queue_of qs name);
  sim_handle name s : root_streams r !! name = Some s →
    valid_name name ∧ s = {| s_name := name; s_tail := q_tail (queue_of qs name); s_beforeCommit := None |};
  sim_open : root_closed r = false
}.

Lemma sim_empty db : db_map db = ∅ → sim db {| root_closed := false; root_streams := ∅ |} ∅.
Proof.
  intros H. split; [|by intros ? ?; cbn; rewrite lookup_empty|done].
  intros name _. rewrite H. apply represents_empty.
Qed.

(** A call on one stream that ends with queue [q'] there. *)
Lemma sim_update db r qs name db' s' q' :
  sim db r qs → valid_name name →
  represents name (db_map db') q' → same_outside name (db_map db) (db_map db') →
  s' = {| s_name := name; s_tail := q_tail q'; s_beforeCommit := None |} →
  sim db' (set_stream r name s') (<[name := q']> qs).
Proof.
  intros [Hrep Hh Ho] Hname HR Hsame ->. split; [| |done].
  - intros other Hother. destruct (decide (name = other)) as [<-|Hne]; [by rewrite queue_of_insert|].
    rewrite queue_of_insert_ne by done. eapply (represents_other other name); eauto.
  - intros other s. cbn. rewrite lookup_insert. case_decide as Heq.
    + subst. intros [= <-]. by rewrite queue_of_insert.
    + intros Hs. rewrite queue_of_insert_ne by done. auto.
Qed.

Lemma sim_same db r qs db' : db_map db' = db_map db → sim db r qs → sim db' r qs.
Proof. intros Hm [Hrep Hh Ho]. split; [|done..]. intros. rewrite Hm. auto. Qed.

Lemma sim_ext db r qs qs' : (∀ name, queue_of qs' name = queue_of qs name) → sim db r qs → sim db r qs'.
Proof. intros He [Hrep Hh Ho]. split; [|intros name s Hs; rewrite He; auto|done]. intros. rewrite He. auto. Qed.

Lemma sim_opened db r qs name s : sim db r qs → root_streams r !! name = Some s → opened db s (queue_of qs name).
Proof. intros Hsim Hs. destruct (sim_handle _ _ _ Hsim _ _ Hs) as [Hv ->]. split_and!; [done|by apply Hsim|done]. Qed.

(** Opening a stream is no step of any queue. *)
Lemma Root_Stream_sim db r qs name :
  sim db r qs →
  match Root_Stream db r name with
  | (db', r', Ok n) => n = name ∧ sim db' r' qs ∧ is_Some (root_streams r' !! name)
  | (db', r', Err e) => sim db' r' qs ∧ (errors_Is e store_ErrInvalidStreamName = true ∧ ¬ valid_name name ∨ db_fails e)
  end.
Proof.
  intros Hsim. unfold Root_Stream. destruct (ValidateStreamName name) as [e|] eqn:Hv.
  { split; [done|left]. split; [|by unfold valid_name; rewrite Hv].
    unfold ValidateStreamName in Hv. repeat case_match; simplify_eq/=; done. }
  rewrite (sim_open _ _ _ Hsim). destruct (root_streams r !! name) as [s|] eqn:Hs; [by split_and!|].
  pose proof (load_restart_lemma db name (queue_of qs name) Hv (sim_rep _ _ _ Hsim name Hv)) as Hl.
  pose proof (load_lemma db {| s_name := name; s_tail := 0; s_beforeCommit := None |}) as Hl'.
  destruct (load _ _) as [[db' s'] [e|]].
  - split; [eapply sim_same; [by apply Hl'|done]|by right].
  - destruct Hl as (-> & (_ & HR & _) & Ho). split_and!; [done| |cbn; rewrite lookup_insert_eq; by eexists].
    eapply sim_ext; [intros n; symmetry; apply (insert_queue_of_lookup qs name)|].
    epose proof (sim_update db r qs name db' _ (queue_of qs name) Hsim Hv HR Ho eq_refl) as Hup.
    unfold set_stream in Hup. by rewrite (sim_open _ _ _ Hsim) in Hup.
Qed.

Lemma stream_exec_sim db s name q op :
  opened db s q → s = {| s_name := name; s_tail := q_tail q; s_beforeCommit := None |} → op_typed op →
  match stream_exec db s op with
  | (db', s', None) => represents name (db_map db') (q_exec name op q) ∧ same_outside name (db_map db) (db_map db')
       ∧ s' = {| s_name := name; s_tail := q_tail (q_exec name op q); s_beforeCommit := None |}
  | (db', s', Some _) => db_map db' = db_map db ∧ s' = s
  end.
Proof.
  intros Ho Hs Ht. destruct op; cbn in Ht |- *.
  - pose proof (AppendBatch_lemma db s q payloads now Ho Ht) as H.
    destruct (AppendBatch _ _ _ _) as [[db' s'] [rs|e]]; cbn in *; [|by destruct H as (? & ? & _)].
    destruct H as (_ & (_ & HR & _) & -> & Hsame). by rewrite Hs in HR, Hsame |- *.
  - pose proof (store_Commit_lemma db s q seqs Ho Ht) as H.
    destruct (Commit _ _ _) as [db' [e|]]; [by destruct H|]. destruct H as (_ & (_ & HR & _) & Hsame).
    by rewrite Hs in HR, Hsame |- *.
  - destruct Ht as [Hseq Hnow]. pose proof (store_DeadLetter_lemma db s q seq reason now Ho Hseq Hnow) as H.
    destruct (DeadLetter _ _ _ _ _) as [db' [e|]]; [by destruct H|].
    destruct H as ([v Hv] & (_ & HR & _) & Hsame). rewrite Hs in HR, Hsame |- *. split_and!; [done..|].
    unfold q_dead_letter. by rewrite Hv.
  - pose proof (Requeue_lemma db s q seq Ho Ht) as H.
    destruct (Requeue _ _ _) as [[db' s'] [rec|e]]; cbn in *; [|by destruct H as (? & ? & _)].
    destruct H as (v & Hv & _ & (_ & HR & _) & -> & Hsame). rewrite Hs in HR, Hsame |- *. split_and!; [done..|].
    unfold q_requeue. by rewrite Hv.
Qed.

Lemma store_exec_sim db r qs ev :
  sim db r qs → event_typed ev →
  let '(db', r', err) := store_exec db r ev in sim db' r' (q_event qs (ev, err)).
Proof.
  intros Hsim Ht. destruct ev as [name op|].
  2: { split; [apply Hsim| |done]. by intros ? ?; cbn; rewrite lookup_empty. }
  cbn [store_exec]. pose proof (Root_Stream_sim db r qs name Hsim) as HS.
  destruct (Root_Stream db r name) as [[db1 r1] [n|e]]; [|by destruct HS].
  destruct HS as (-> & Hsim1 & [s Hs]). rewrite Hs.
  destruct (sim_handle _ _ _ Hsim1 _ _ Hs) as [Hv Heq].
  pose proof (stream_exec_sim db1 s name _ op (sim_opened _ _ _ _ _ Hsim1 Hs) Heq Ht) as HE.
  destruct (stream_exec db1 s op) as [[db2 s2] [e|]].
  - destruct HE as [Hm ->]. cbn.
    eapply (sim_same db1); [done|]. destruct Hsim1 as [Hrep Hh Ho]. split; [done| |done].
    intros other s'. cbn. rewrite lookup_insert. case_decide; [|auto]. intros [= <-]. subst. auto.
  - destruct HE as (HR & Hsame & Hs2). by eapply (sim_update db1 r1).
Qed.

Lemma store_run_sim db r qs evs :
  sim db r qs → Forall event_typed evs →
  let '(db', r', trace) := store_run db r evs in sim db' r' (q_run qs trace).
Proof.
  intros Hsim Hf. revert db r qs Hsim. induction Hf as [|ev evs Ht Hf IH]; intros db r qs Hsim; cbn [store_run]; [done|].
  pose proof (store_exec_sim db r qs ev Hsim Ht) as H. destruct (store_exec db r ev) as [[db1 r1] err].
  specialize (IH _ _ _ H). by destruct (store_run db1 r1 evs) as [[db2 r2] trace].
Qed.
End sim.
