(* ===== verification/StoreTheorems.v ===== *)
(** * Correctness of internal/store

    The properties of the durable store, each with a concrete instance on the
    in-memory database.  The proofs apply the lemmas of the component files. *)
From S2P Require Import Prelude Errors Keys Envelope Badger BadgerMem Store StoreIter StoreSpec.
From S2P Require Import StoreRefine StoreLoad StoreCounts StoreHistory.
From Stdlib Require Import Strings.Byte.
#[local] Open Scope Z_scope.

(** ** A small store to instantiate the properties on *)

Definition demo_payloads : list bytes := [string_bytes "one"; string_bytes "two"; string_bytes "three"].
Definition demo_stream : Stream := {| s_name := "orders"; s_tail := 0; s_beforeCommit := None |}.

Definition demo_db1 : DB := (AppendBatch (∅ : DB) demo_stream demo_payloads 7).1.1.
Definition demo_stream1 : Stream := set_tail demo_stream 3.
Definition demo_queue1 : queue := q_append 7 demo_payloads empty_queue.

Definition demo_db2 : DB := (DeadLetter demo_db1 demo_stream1 2 "broken" 9).1.
Definition demo_queue2 : queue := q_dead_letter "orders" 2 "broken" 9 demo_queue1.

Lemma demo_opened0 : opened (∅ : DB) demo_stream empty_queue.
Proof. split_and!; [reflexivity|apply represents_empty|done]. Qed.

Lemma demo_opened1 : opened demo_db1 demo_stream1 demo_queue1.
Proof.
  pose proof (AppendBatch_lemma (∅ : DB) demo_stream empty_queue demo_payloads 7 demo_opened0 ltac:(by vm_compute)) as H.
  assert (Hok : is_Ok (AppendBatch (∅ : DB) demo_stream demo_payloads 7).2) by (vm_compute; by eexists).
  unfold demo_db1. destruct (AppendBatch _ _ _ _) as [[db' s'] [rs|e]]; [|by destruct Hok].
  by destruct H as (_ & Ho & -> & _).
Qed.

Lemma demo_opened2 : opened demo_db2 demo_stream1 demo_queue2.
Proof.
  pose proof (store_DeadLetter_lemma demo_db1 demo_stream1 demo_queue1 2 "broken" 9 demo_opened1
    ltac:(by vm_compute) ltac:(by vm_compute)) as H.
  assert (Hok : (DeadLetter demo_db1 demo_stream1 2 "broken" 9).2 = None) by (vm_compute; done).
  unfold demo_db2. destruct (DeadLetter _ _ _ _ _) as [db' [e|]]; [done|]. by destruct H as (_ & ? & _).
Qed.

(** ** Histories *)

(** C5. The store refines a family of durable queues.  Start from any database
    and root that represent the queues [qs] and run any sequence of appends,
    commits, dead letters and requeues on any streams, with restarts at any
    point: afterwards the database and the open handles represent exactly the
    queues that the calls that reported success produce, in order.  A call that
    reported an error, including a storage error inside its transaction, is no
    step, and a restart loses nothing. *)
Theorem store_history_refines {B : Badger} {BS : BadgerSpec B} (db : DB) (r : Root)
    (qs : gmap string queue) (evs : list store_event) :
  sim db r qs → Forall event_typed evs →
  let '(db', r', trace) := store_run db r evs in sim db' r' (q_run qs trace).
Proof. apply store_run_sim. Qed.

Definition demo_events : list store_event :=
  [EvCall "orders" (OpAppend demo_payloads 7); EvCall "orders" (OpDeadLetter 2 "broken" 9); EvRestart;
   EvCall "mail" (OpAppend [[]] 8); EvCall "orders" (OpCommit [2]); EvCall "orders" (OpRequeue 2);
   EvCall "or/ders" (OpCommit []); EvCall "orders" (OpCommit [1; 4])].

Lemma store_history_refines_witness :
  (store_run (∅ : DB) {| root_closed := false; root_streams := ∅ |} demo_events).2.*2 =
    [None; None; None; None; Some (Errorf "%w: %s/%d" [Sentinel store_ErrNotFound]); None;
     Some (Errorf "%w: %q" [Sentinel store_ErrInvalidStreamName]); None]
  ∧ let '(db', r', trace) := store_run (∅ : DB) {| root_closed := false; root_streams := ∅ |} demo_events in
    sim db' r' (q_run ∅ trace).
Proof.
  split; [vm_compute; reflexivity|].
  apply (store_history_refines (∅ : DB) _ ∅ demo_events); [by apply sim_empty|].
  unfold demo_events. repeat constructor; vm_compute; done.
Defined.

(** C20. A sequence number is never reused: after any call that the store
    executes on a stream, the tail is not below its old value, and a pending
    record that was not pending before has a sequence above the old tail, even
    when the record with the greatest sequence was completed long before. *)
Theorem sequences_never_reused {B : Badger} {BS : BadgerSpec B} (db : DB) (r : Root)
    (qs : gmap string queue) (name : string) (op : stream_op) :
  sim db r qs → op_typed op →
  let '(db', r', err) := store_exec db r (EvCall name op) in
  ∃ q', (valid_name name → represents name (db_map db') q')
    ∧ q_tail (queue_of qs name) ≤ q_tail q'
    ∧ ∀ seq v, q_pending q' !! seq = Some v →
        q_pending (queue_of qs name) !! seq = Some v ∨ q_tail (queue_of qs name) < seq.
Proof.
  intros Hsim Ht. pose proof (store_exec_sim db r qs (EvCall name op) Hsim Ht) as H.
  destruct (store_exec db r (EvCall name op)) as [[db' r'] [e|]]; cbn in H.
  - exists (queue_of qs name). split_and!; [by apply H|done|by left].
  - exists (q_exec name op (queue_of qs name)). split_and!; [|apply q_exec_tail|apply q_exec_fresh].
    intros Hv. pose proof (sim_rep _ _ _ H name Hv) as HR. by rewrite queue_of_insert in HR.
Qed.

Lemma sequences_never_reused_witness :
  let '(db', r', err) := store_exec (∅ : DB) {| root_closed := false; root_streams := ∅ |}
                           (EvCall "orders" (OpAppend demo_payloads 7)) in
  ∃ q', (valid_name "orders" → represents "orders" (db_map db') q')
    ∧ q_tail (queue_of ∅ "orders") ≤ q_tail q'
    ∧ ∀ seq v, q_pending q' !! seq = Some v →
        q_pending (queue_of ∅ "orders") !! seq = Some v ∨ q_tail (queue_of ∅ "orders") < seq.
Proof. apply (sequences_never_reused (∅ : DB) _ ∅ "orders"); [by apply sim_empty|by vm_compute]. Defined.

(** ** The operations *)

(** C21. [AppendBatch] either stores every payload, under the sequences directly
    above the tail and in order, returns their records and leaves the tail at
    the last of them, or changes nothing.  It stores no batch that exceeds the
    sequence range or 32 MiB, and for a batch within both it fails only with the
    storage; no key outside the stream changes. *)
Theorem AppendBatch_refines {B : Badger} {BS : BadgerSpec B} (db : DB) (s : Stream) (q : queue)
    (payloads : list bytes) (now : Z) :
  opened db s q → is_i64 now →
  match AppendBatch db s payloads now with
  | (db', s', Ok records) =>
      records = appended_records (q_tail q) now payloads
      ∧ opened db' s' (q_append now payloads q)
      ∧ s' = set_tail s (q_tail q + len payloads)
      ∧ same_outside (s_name s) (db_map db) (db_map db')
      ∧ q_tail q + len payloads ≤ max_uint64 ∧ total_size payloads ≤ 32 * 2 ^ 20
  | (db', s', Err e) => db_map db' = db_map db ∧ s' = s ∧ append_error s payloads e
  end.
Proof.
  intros Ho Hnow. pose proof (AppendBatch_lemma db s q payloads now Ho Hnow) as H.
  pose proof (AppendBatch_within db s q payloads now Ho) as Hw.
  destruct (AppendBatch db s payloads now) as [[db' s'] [records|e]]; [|exact H].
  destruct H as (H1 & H2 & H3 & H4). by split_and!; try apply Hw.
Qed.

Lemma AppendBatch_refines_witness :
  match AppendBatch demo_db1 demo_stream1 [string_bytes "four"] 8 with
  | (db', s', Ok records) =>
      records = [{| r_Seq := 4; r_CreatedAt := 8; r_OriginStream := ""; r_OriginSeq := 0; r_Payload := string_bytes "four" |}]
      ∧ opened db' s' (q_append 8 [string_bytes "four"] demo_queue1)
  | _ => False
  end.
Proof.
  pose proof (AppendBatch_refines demo_db1 demo_stream1 demo_queue1 [string_bytes "four"] 8 demo_opened1
    ltac:(by vm_compute)) as H.
  assert (Hok : is_Ok (AppendBatch demo_db1 demo_stream1 [string_bytes "four"] 8).2) by (vm_compute; by eexists).
  destruct (AppendBatch _ _ _ _) as [[db' s'] [rs|e]]; [|by destruct Hok].
  destruct H as (-> & Ho & _). by split.
Defined.

(** C22. [ScanBatch] returns the page of the queue: the first [limit] pending
    records with a sequence of at least [from], in sequence order, with the
    payloads, instants and origins they were stored with. *)
Theorem ScanBatch_refines {B : Badger} {BS : BadgerSpec B} (db : DB) (s : Stream) (q : queue) (from limit : Z) :
  opened db s q → is_u64 from → 0 < limit →
  match ScanBatch db s from limit with
  | (records, None) => records = q_scan from limit q
  | (_, Some e) => db_fails e
  end.
Proof. apply ScanBatch_lemma. Qed.

Lemma ScanBatch_refines_witness :
  match ScanBatch demo_db2 demo_stream1 1 5 with
  | (records, None) => records = q_scan 1 5 demo_queue2 ∧ r_Seq <$> records = [1; 3]
  | _ => False
  end.
Proof.
  pose proof (ScanBatch_refines demo_db2 demo_stream1 demo_queue2 1 5 demo_opened2 ltac:(by vm_compute) ltac:(lia)) as H.
  destruct (ScanBatch _ _ _ _) as [rs [e|]] eqn:E; [by destruct H|]. split; [done|].
  replace rs with (ScanBatch demo_db2 demo_stream1 1 5).1 by (by rewrite E). vm_compute. reflexivity.
Defined.

(** [DeadLetters] returns the page of the dead letters, in sequence order. *)
Theorem DeadLetters_refines {B : Badger} {BS : BadgerSpec B} (db : DB) (s : Stream) (q : queue) (from limit : Z) :
  opened db s q → is_u64 from → 0 < limit →
  match DeadLetters db s from limit with
  | (records, None) => records = q_dead_page from limit q
  | (_, Some e) => db_fails e
  end.
Proof. apply DeadLetters_lemma. Qed.

Lemma DeadLetters_refines_witness :
  match DeadLetters demo_db2 demo_stream1 0 5 with
  | (records, None) => records = q_dead_page 0 5 demo_queue2 ∧ dr_Reason <$> records = ["broken"]
  | _ => False
  end.
Proof.
  pose proof (DeadLetters_refines demo_db2 demo_stream1 demo_queue2 0 5 demo_opened2 ltac:(by vm_compute) ltac:(lia)) as H.
  destruct (DeadLetters _ _ _ _) as [rs [e|]] eqn:E; [by destruct H|]. split; [done|].
  replace rs with (DeadLetters demo_db2 demo_stream1 0 5).1 by (by rewrite E). vm_compute. reflexivity.
Defined.

(** C23. [Commit] is atomic: it removes every named record and nothing else, or
    it changes nothing; it succeeds only when every sequence is pending and
    named once, and reports [ErrNotFound] only when that fails. *)
Theorem Commit_refines {B : Badger} {BS : BadgerSpec B} (db : DB) (s : Stream) (q : queue) (seqs : list Z) :
  opened db s q → Forall is_u64 seqs →
  match Commit db s seqs with
  | (db', None) => can_commit seqs q ∧ opened db' s (q_commit seqs q)
                   ∧ same_outside (s_name s) (db_map db) (db_map db')
  | (db', Some e) => db_map db' = db_map db ∧ commit_error s q seqs e
  end.
Proof. apply store_Commit_lemma. Qed.

Lemma Commit_refines_witness :
  (Commit demo_db1 demo_stream1 [3; 1]).2 = None
  ∧ match Commit demo_db1 demo_stream1 [3; 1; 3] with
    | (db', Some e) => db_map db' = db_map demo_db1 ∧ commit_error demo_stream1 demo_queue1 [3; 1; 3] e
    | _ => False
    end.
Proof.
  split; [vm_compute; reflexivity|].
  pose proof (Commit_refines demo_db1 demo_stream1 demo_queue1 [3; 1; 3] demo_opened1
    ltac:(repeat (apply Forall_cons; split; [by vm_compute|]); by apply Forall_nil)) as H.
  assert (Hok : is_Some (Commit demo_db1 demo_stream1 [3; 1; 3]).2) by (vm_compute; by eexists).
  destruct (Commit _ _ _) as [db' [e|]]; [done|]. by destruct Hok.
Defined.

(** [DeadLetter] moves one pending record to the dead letters in one step:
    it keeps the payload, the creation instant and the first origin, adds the
    reason, and leaves the record neither in both places nor in none; it fails
    without a change when the record is not pending or the reason does not fit. *)
Theorem DeadLetter_refines {B : Badger} {BS : BadgerSpec B} (db : DB) (s : Stream) (q : queue)
    (seq : Z) (reason : string) (now : Z) :
  opened db s q → is_u64 seq → is_i64 now →
  match DeadLetter db s seq reason now with
  | (db', None) => is_Some (q_pending q !! seq) ∧ opened db' s (q_dead_letter (s_name s) seq reason now q)
                   ∧ same_outside (s_name s) (db_map db) (db_map db')
  | (db', Some e) => db_map db' = db_map db ∧ dead_letter_error s q seq reason e
  end.
Proof. apply store_DeadLetter_lemma. Qed.

Lemma DeadLetter_refines_witness :
  match DeadLetter demo_db1 demo_stream1 2 "broken" 9 with
  | (db', None) => opened db' demo_stream1 demo_queue2 ∧ db' = demo_db2
  | _ => False
  end.
Proof.
  pose proof (DeadLetter_refines demo_db1 demo_stream1 demo_queue1 2 "broken" 9 demo_opened1
    ltac:(by vm_compute) ltac:(by vm_compute)) as H.
  assert (Hok : (DeadLetter demo_db1 demo_stream1 2 "broken" 9).2 = None) by (vm_compute; done).
  unfold demo_db2. destruct (DeadLetter _ _ _ _ _) as [db' [e|]]; [done|]. by destruct H as (_ & ? & _).
Defined.

(** [Requeue] gives a dead letter a new pending sequence directly above the
    tail and removes the dead letter, in one step; the tail the handle holds
    moves only with it, and at the end of the sequence range it refuses. *)
Theorem Requeue_refines {B : Badger} {BS : BadgerSpec B} (db : DB) (s : Stream) (q : queue) (seq : Z) :
  opened db s q → is_u64 seq →
  match Requeue db s seq with
  | (db', s', Ok record) =>
      ∃ v, q_dead q !! seq = Some v ∧ record = record_of (q_tail q + 1) (pending_of v)
      ∧ opened db' s' (q_requeue seq q) ∧ s' = set_tail s (q_tail q + 1)
      ∧ same_outside (s_name s) (db_map db) (db_map db')
  | (db', s', Err e) => db_map db' = db_map db ∧ s' = s ∧ requeue_error s q seq e
  end.
Proof. apply Requeue_lemma. Qed.

Lemma Requeue_refines_witness :
  match Requeue demo_db2 demo_stream1 2 with
  | (db', s', Ok record) =>
      r_Seq record = 4 ∧ r_Payload record = string_bytes "two" ∧ opened db' s' (q_requeue 2 demo_queue2)
  | _ => False
  end.
Proof.
  pose proof (Requeue_refines demo_db2 demo_stream1 demo_queue2 2 demo_opened2 ltac:(by vm_compute)) as H.
  assert (Hok : is_Ok (Requeue demo_db2 demo_stream1 2).2) by (vm_compute; by eexists).
  destruct (Requeue _ _ _) as [[db' s'] [record|e]]; [|by destruct Hok].
  destruct H as (v & Hv & -> & Ho & _). vm_compute in Hv. injection Hv as <-. by split_and!.
Defined.

(** C24. A record that is dead-lettered and requeued is the same record under a
    new sequence: payload, creation instant and origin survive the round trip
    through both encodings, the origin being the sequence the record first had,
    also the second time around. *)
Theorem DeadLetter_Requeue_roundtrip {B : Badger} {BS : BadgerSpec B} (db : DB) (s : Stream) (q : queue)
    (seq : Z) (reason : string) (now : Z) (v : pendingEnvelope) :
  opened db s q → is_u64 seq → is_i64 now → q_pending q !! seq = Some v →
  match DeadLetter db s seq reason now with
  | (db1, None) =>
      match Requeue db1 s seq with
      | (db2, s2, Ok record) =>
          r_Seq record = q_tail q + 1 ∧ r_Payload record = pe_Payload v ∧ r_CreatedAt record = pe_CreatedAt v
          ∧ (if bool_decide (pe_OriginStream v = "")
             then r_OriginStream record = s_name s ∧ r_OriginSeq record = seq
             else r_OriginStream record = pe_OriginStream v ∧ r_OriginSeq record = pe_OriginSeq v)
          ∧ ∃ q2, opened db2 s2 q2
              ∧ q_pending q2 = <[q_tail q + 1 := pending_of (dead_of (s_name s) seq reason now v)]> (delete seq (q_pending q))
              ∧ q_dead q2 = delete seq (q_dead q)
      | (_, _, Err e) => store_fails s "requeue" e ∨ q_tail q = max_uint64
      end
  | (_, Some e) => store_fails s "dead-letter" e ∨ max_uint32 < string_len reason
  end.
Proof.
  intros Ho Hs Hn Hv. pose proof (store_DeadLetter_lemma db s q seq reason now Ho Hs Hn) as HD.
  destruct (DeadLetter db s seq reason now) as [db1 [e|]].
  { destruct HD as [_ [?|[[_ ?]|(_ & _ & ?)]]]; [by left|congruence|by right]. }
  destruct HD as (_ & Ho1 & _). pose proof (Requeue_lemma db1 s _ seq Ho1 Hs) as HR.
  assert (Hq : q_dead_letter (s_name s) seq reason now q =
    {| q_tail := q_tail q; q_pending := delete seq (q_pending q);
       q_dead := <[seq := dead_of (s_name s) seq reason now v]> (q_dead q) |}) by (unfold q_dead_letter; by rewrite Hv).
  rewrite Hq in HR. destruct (Requeue db1 s seq) as [[db2 s2] [record|e]]; cbn in HR.
  - destruct HR as (w & Hw & -> & Ho2 & _). rewrite lookup_insert_eq in Hw. injection Hw as <-.
    unfold dead_of. cbn. split_and!; [done..| |].
    + by case_bool_decide.
    + eexists. split; [exact Ho2|]. unfold q_requeue. cbn. rewrite lookup_insert_eq. cbn. split; [done|].
      by rewrite delete_insert_eq.
  - destruct HR as (_ & _ & [?|[[_ Hn']|[_ ?]]]); [by left| |by right]. cbn in Hn'. by rewrite lookup_insert_eq in Hn'.
Qed.

Lemma DeadLetter_Requeue_roundtrip_witness :
  match DeadLetter demo_db1 demo_stream1 2 "broken" 9 with
  | (db1, None) =>
      match Requeue db1 demo_stream1 2 with
      | (_, _, Ok record) => r_Payload record = string_bytes "two" ∧ r_OriginSeq record = 2
      | _ => False
      end
  | _ => False
  end.
Proof.
  pose proof (DeadLetter_Requeue_roundtrip demo_db1 demo_stream1 demo_queue1 2 "broken" 9
    (fresh_envelope 7 (string_bytes "two")) demo_opened1 ltac:(by vm_compute) ltac:(by vm_compute)
    ltac:(by vm_compute)) as H.
  assert (H1 : (DeadLetter demo_db1 demo_stream1 2 "broken" 9).2 = None) by (vm_compute; done).
  assert (H2 : is_Ok (Requeue (DeadLetter demo_db1 demo_stream1 2 "broken" 9).1 demo_stream1 2).2)
    by (vm_compute; by eexists).
  destruct (DeadLetter _ _ _ _ _) as [db1 [e|]]; [done|]. cbn [fst] in H2.
  destruct (Requeue _ _ _) as [[db2 s2] [record|e]]; [|by destruct H2].
  destruct H as (_ & Hp & _ & Ho & _). split; [exact Hp|apply Ho].
Defined.

(** ** Opening, counting *)

(** What the store wrote it opens again: loading a stream from a database
    that represents a queue finds exactly that queue, with the tail after every
    allocated sequence, unless the storage fails. *)
Theorem load_restart {B : Badger} {BS : BadgerSpec B} (db : DB) (name : string) (q : queue) :
  valid_name name → represents name (db_map db) q →
  match load db {| s_name := name; s_tail := 0; s_beforeCommit := None |} with
  | (db', s, None) => s = {| s_name := name; s_tail := q_tail q; s_beforeCommit := None |}
                      ∧ opened db' s q ∧ same_outside name (db_map db) (db_map db')
  | (_, _, Some e) => db_fails e
  end.
Proof. apply load_restart_lemma. Qed.

Lemma load_restart_witness :
  match load demo_db2 {| s_name := "orders"; s_tail := 0; s_beforeCommit := None |} with
  | (db', s, None) => s_tail s = 3 ∧ opened db' s demo_queue2
  | _ => False
  end.
Proof.
  pose proof (load_restart demo_db2 "orders" demo_queue2 ltac:(reflexivity) ltac:(apply demo_opened2)) as H.
  destruct (load _ _) as [[db' s] [e|]]; [by destruct H|]. destruct H as (-> & Ho & _). by split.
Defined.

(** C25. [load] is an exact check of arbitrary database contents: it succeeds
    only on contents where the schema is the supported one, every record key is
    well formed, the tail bounds every stored sequence and no sequence is both
    pending and dead, and then returns the stored tail; it reports one of the
    corruption errors only on contents that are not so; and it writes nothing
    but a missing schema version. *)
Theorem load_checks {B : Badger} {BS : BadgerSpec B} (db : DB) (s : Stream) :
  match load db s with
  | (db', s', None) =>
      loadable (s_name s) (db_map db) (s_tail s') ∧ s' = set_tail s (s_tail s')
      ∧ db_map db' = if decide (db_map db !! metaKey (s_name s) schemaMetaKey = None)
                     then <[metaKey (s_name s) schemaMetaKey := [byte_of_Z schemaVersion]]> (db_map db)
                     else db_map db
  | (db', _, Some e) =>
      db_map db' = db_map db
      ∧ (db_fails e ∨ corrupt e ∧ ∀ tail, ¬ loadable (s_name s) (db_map db) tail)
  end.
Proof. apply load_lemma. Qed.

(** [Counts] reports the tail, the number of pending records and of dead
    letters, and the sequence and instant of the oldest pending record. *)
Theorem CountsOf_refines {B : Badger} {BS : BadgerSpec B} (db : DB) (s : Stream) (q : queue) :
  opened db s q →
  match CountsOf db s with
  | (counts, None) => counts = q_counts q
  | (_, Some e) => db_fails e
  end.
Proof. apply CountsOf_lemma. Qed.

Lemma CountsOf_refines_witness :
  CountsOf demo_db2 demo_stream1 =
    ({| c_Tail := 3; c_Pending := 2; c_DeadLetter := 1; c_OldestSeq := 1; c_OldestTime := 7 |}, None)
  ∧ match CountsOf demo_db2 demo_stream1 with
    | (counts, None) => counts = q_counts demo_queue2
    | _ => False
    end.
Proof.
  split; [vm_compute; reflexivity|].
  pose proof (CountsOf_refines demo_db2 demo_stream1 demo_queue2 demo_opened2) as H.
  destruct (CountsOf _ _) as [counts [e|]]; [by destruct H|done].
Defined.

(** ** Keys and encodings *)

(** C26. Streams do not share keys: no key of one stream, whether a record, a
    dead letter or metadata, is a key of another stream with a valid name, and
    within a stream the three kinds are disjoint.  Within either kind that holds
    records each sequence has its own key, the keys are ordered as the sequences
    are, and the sequence is read back from the key. *)
Theorem keys_isolated (s t : string) (a b : Z) (n m : string) :
  valid_name s → valid_name t → is_u64 a → is_u64 b →
  (∀ k, k ∈ [pendingKey s a; deadKey s a; metaKey s n] →
        k ∈ [pendingKey t b; deadKey t b; metaKey t m] →
        s = t ∧ (k = metaKey s n ∨ a = b))
  ∧ pendingKey s a ≠ deadKey s b ∧ pendingKey s a ≠ metaKey s n ∧ deadKey s a ≠ metaKey s n
  ∧ (bytes_le (pendingKey s a) (pendingKey s b) ↔ a ≤ b)
  ∧ (bytes_le (deadKey s a) (deadKey s b) ↔ a ≤ b)
  ∧ parseSequence (pendingPrefix s) (pendingKey s a) = Some a
  ∧ parseSequence (deadPrefix s) (deadKey s a) = Some a.
Proof.
  intros Hs Ht Ha Hb. split_and!.
  2-4: auto using pendingKey_ne_dead, pendingKey_ne_meta, deadKey_ne_meta.
  2-3: by apply sequenceKey_le. 2-3: by apply parseSequence_key.
  intros k Hk1 Hk2.
  assert (Heq : s = t).
  { eapply (streamPrefix_inj s t k); [done|done|..].
    - rewrite !elem_of_cons in Hk1. destruct Hk1 as [->|[->|[->|[]%elem_of_nil]]]; auto with teak.
    - rewrite !elem_of_cons in Hk2. destruct Hk2 as [->|[->|[->|[]%elem_of_nil]]]; auto with teak. }
  split; [done|]. subst t. rewrite !elem_of_cons in Hk1, Hk2.
  destruct Hk1 as [->|[->|[->|[]%elem_of_nil]]], Hk2 as [H|[H|[H|[]%elem_of_nil]]]; try (by left).
  - right. by apply pendingKey_inj in H.
  - by apply pendingKey_ne_dead in H.
  - by apply pendingKey_ne_meta in H.
  - symmetry in H. by apply pendingKey_ne_dead in H.
  - right. by apply deadKey_inj in H.
  - by apply deadKey_ne_meta in H.
Qed.

Lemma keys_isolated_witness :
  valid_name "a.b" ∧ valid_name "a" ∧ pendingKey "a" 1 ≠ pendingKey "a.b" 1.
Proof.
  assert (Hs : valid_name "a") by reflexivity. assert (Ht : valid_name "a.b") by reflexivity.
  split_and!; [done..|]. intros Heq.
  destruct (keys_isolated "a" "a.b" 1 1 "tail" "tail" Hs Ht ltac:(by vm_compute) ltac:(by vm_compute)) as [H _].
  destruct (H (pendingKey "a" 1)) as [? _]; [by left|rewrite Heq; by left|done].
Defined.






(** A torn or padded value is never taken for a record: of two values that
    decode, neither is a proper prefix of the other. *)
Theorem decodePending_prefix_free (d1 d2 : bytes) (v1 v2 : pendingEnvelope) :
  decodePending d1 = Ok v1 → decodePending d2 = Ok v2 → d1 `prefix_of` d2 → d1 = d2.
Proof. apply decodePending_prefix_lemma. Qed.

Definition demo_value : bytes := pending_layout (fresh_envelope 7 [x2a]).

Lemma decodePending_prefix_free_witness :
  demo_value `prefix_of` demo_value ∧ demo_value = demo_value
  ∧ decodePending (removelast demo_value) = Err (Sentinel store_ErrCorruptEnvelope).
Proof.
  split; [done|]. split; [|vm_compute; reflexivity].
  apply (decodePending_prefix_free demo_value demo_value (fresh_envelope 7 [x2a]) (fresh_envelope 7 [x2a]));
    [vm_compute; reflexivity..|done].
Defined.

(** The facade hides the internal error values: an error that [mapError]
    returns never matches one of the internal sentinels that have a public
    counterpart, whatever the internal error wrapped. *)
Theorem mapError_hides (e e' : goerr) (s : sentinel) :
  mapError (Some e) = Some e' → s ∈ replaced_sentinels → errors_Is e' s = false.
Proof. apply mapError_hides_lemma. Qed.

Lemma mapError_hides_witness :
  errors_Is (Errorf "%w: %v" [Sentinel ErrNotFound]) store_ErrNotFound = false.
Proof.
  apply (mapError_hides (Errorf "%w: %s/%d" [Sentinel store_ErrNotFound])); [reflexivity|].
  unfold replaced_sentinels. rewrite !elem_of_cons. tauto.
Defined.
