(* ===== verification/Heap.v ===== *)
(** * The retry lane: a binary heap (internal/dispatch/dispatch.go, retryHeap)

    [retryHeap] implements the interface of Go's container/heap, whose [Push]
    and [Pop] are modelled here on the list of the slice, together with the five
    methods they call.  The order is by [readyAt] and then by sequence; every
    item records its position in [index]. *)
From S2P Require Import Prelude Store.
#[local] Open Scope Z_scope.

(** [dispatch.queuedRecord] *)
Record queuedRecord : Type := {
  qr_record : StoreRecord;
  qr_attempt : Z;
  qr_readyAt : Z;
  qr_index : Z
}.

Definition set_index (item : queuedRecord) (index : Z) : queuedRecord :=
  {| qr_record := qr_record item; qr_attempt := qr_attempt item; qr_readyAt := qr_readyAt item; qr_index := index |}.

Abbreviation retryHeap := (list queuedRecord).

(** ** The methods of retryHeap *)

(** [Less] on the two items. *)
Definition item_less (first second : queuedRecord) : bool :=
  if qr_readyAt first =? qr_readyAt second
  then r_Seq (qr_record first) <? r_Seq (qr_record second)
  else qr_readyAt first <? qr_readyAt second.

(** Indexes out of range panic in Go; the algorithms below never use one
    ([heap_Push_spec], [heap_Pop_spec]). *)
Definition retryHeap_Less (h : retryHeap) (first second : nat) : bool :=
  match h !! first, h !! second with
  | Some a, Some b => item_less a b
  | _, _ => false
  end.

Definition retryHeap_Swap (h : retryHeap) (first second : nat) : retryHeap :=
  match h !! first, h !! second with
  | Some a, Some b =>
      <[second := set_index a (Z.of_nat second)]> (<[first := set_index b (Z.of_nat first)]> h)
  | _, _ => h
  end.

Definition retryHeap_Push (h : retryHeap) (item : queuedRecord) : retryHeap :=
  h ++ [set_index item (Z.of_nat (length h))].

Definition retryHeap_Pop (h : retryHeap) : option (queuedRecord * retryHeap) :=
  match last h with
  | Some item => Some (set_index item (-1), removelast h)
  | None => None
  end.

(** ** container/heap *)

(** [up]: the loop moves to a smaller index each time, so [j + 1] rounds do. *)
Fixpoint heap_up (fuel : nat) (h : retryHeap) (j : nat) : retryHeap :=
  match fuel with
  | O => h
  | S fuel =>
      let i := ((j - 1) / 2)%nat in
      if (i =? j)%nat || negb (retryHeap_Less h j i) then h
      else heap_up fuel (retryHeap_Swap h i j) i
  end.

(** [down]: the loop moves to a greater index below [n] each time. *)
Fixpoint heap_down (fuel : nat) (h : retryHeap) (i n : nat) : retryHeap :=
  match fuel with
  | O => h
  | S fuel =>
      let j1 := (2 * i + 1)%nat in
      if (n <=? j1)%nat then h
      else
        let j2 := (j1 + 1)%nat in
        let j := if (j2 <? n)%nat && retryHeap_Less h j2 j1 then j2 else j1 in
        if negb (retryHeap_Less h j i) then h
        else heap_down fuel (retryHeap_Swap h i j) j n
  end.

Definition heap_Push (h : retryHeap) (item : queuedRecord) : retryHeap :=
  let h := retryHeap_Push h item in heap_up (length h) h (length h - 1).

Definition heap_Pop (h : retryHeap) : option (queuedRecord * retryHeap) :=
  let n := (length h - 1)%nat in
  retryHeap_Pop (heap_down (length h) (retryHeap_Swap h 0 n) 0 n).

(** ** The order *)

(** [a] does not have to come after [b]. *)
Definition item_le (a b : queuedRecord) : Prop := item_less b a = false.

Lemma item_le_spec a b :
  item_le a b ↔ qr_readyAt a < qr_readyAt b
                ∨ (qr_readyAt a = qr_readyAt b ∧ r_Seq (qr_record a) ≤ r_Seq (qr_record b)).
Proof.
  unfold item_le, item_less. destruct (Z.eqb_spec (qr_readyAt b) (qr_readyAt a)).
  - rewrite Z.ltb_ge. lia.
  - rewrite Z.ltb_ge. lia.
Qed.

Lemma item_less_le a b : item_less a b = true → item_le a b.
Proof.
  rewrite item_le_spec. unfold item_less. destruct (Z.eqb_spec (qr_readyAt a) (qr_readyAt b)); intros H; zbool; lia.
Qed.

#[global] Instance item_le_refl : Reflexive item_le.
Proof. intros a. apply item_le_spec. lia. Qed.

#[global] Instance item_le_trans : Transitive item_le.
Proof. intros a b c. rewrite !item_le_spec. lia. Qed.

Lemma item_le_total a b : item_le a b ∨ item_le b a.
Proof. rewrite !item_le_spec. lia. Qed.

(** What an item is apart from its position. *)
Definition item_key (item : queuedRecord) : StoreRecord * Z * Z := (qr_record item, qr_attempt item, qr_readyAt item).

Lemma item_key_set_index item i : item_key (set_index item i) = item_key item.
Proof. done. Qed.

Lemma item_le_key a b a' b' : item_key a = item_key a' → item_key b = item_key b' → item_le a b ↔ item_le a' b'.
Proof. intros [= H1 _ H2] [= H3 _ H4]. rewrite !item_le_spec. by rewrite H1, H2, H3, H4. Qed.

(** ** Heaps *)

Definition parent (i : nat) : nat := ((i - 1) / 2)%nat.

(** No item comes before its parent. *)
Definition heap_ordered (h : retryHeap) : Prop :=
  ∀ i a b, (0 < i)%nat → h !! parent i = Some a → h !! i = Some b → item_le a b.

(** Every item knows its position. *)
Definition heap_indexed (h : retryHeap) : Prop := ∀ i a, h !! i = Some a → qr_index a = Z.of_nat i.

Lemma parent_lt i : (0 < i)%nat → (parent i < i)%nat.
Proof. unfold parent. intros. pose proof (Nat.Div0.div_le_upper_bound (i - 1) 2 (i - 1)). lia. Qed.

Lemma parent_children i j : parent j = i → (0 < j)%nat → j = (2 * i + 1)%nat ∨ j = (2 * i + 2)%nat.
Proof.
  unfold parent. intros <- Hj. pose proof (Nat.div_mod_eq (j - 1) 2) as H.
  pose proof (Nat.mod_upper_bound (j - 1) 2 ltac:(lia)). lia.
Qed.

Lemma parent_left i : parent (2 * i + 1) = i.
Proof. unfold parent. replace (2 * i + 1 - 1)%nat with (i * 2)%nat by lia. apply Nat.div_mul. lia. Qed.

Lemma parent_right i : parent (2 * i + 2) = i.
Proof.
  unfold parent. replace (2 * i + 2 - 1)%nat with (1 + i * 2)%nat by lia. rewrite Nat.div_add by lia. done.
Qed.

(** The root of a heap comes first. *)
Lemma heap_ordered_root h a : heap_ordered h → h !! 0%nat = Some a → ∀ i b, h !! i = Some b → item_le a b.
Proof.
  intros Ho Ha i. induction i as [i IH] using lt_wf_ind. intros b Hb.
  destruct (decide (i = 0)%nat) as [->|Hi]; [by simplify_eq|].
  pose proof (parent_lt i ltac:(lia)) as Hp.
  destruct (lookup_lt_is_Some_2 h (parent i)) as [p Hpa]; [apply lookup_lt_Some in Hb; lia|].
  etrans; [by eapply IH|]. eapply (Ho i); [lia|done..].
Qed.

(** *** Swapping *)

Section swap.
Context (h : retryHeap) (i j : nat) (a b : queuedRecord).
Context (Ha : h !! i = Some a) (Hb : h !! j = Some b).

Lemma Swap_eq : retryHeap_Swap h i j = <[j := set_index a (Z.of_nat j)]> (<[i := set_index b (Z.of_nat i)]> h).
Proof. unfold retryHeap_Swap. by rewrite Ha, Hb. Qed.

Lemma Swap_length : length (retryHeap_Swap h i j) = length h.
Proof. by rewrite Swap_eq, !length_insert. Qed.

Lemma Swap_second : retryHeap_Swap h i j !! j = Some (set_index a (Z.of_nat j)).
Proof. rewrite Swap_eq. apply list_lookup_insert_eq. rewrite length_insert. by eapply lookup_lt_Some. Qed.

Lemma Swap_first : i ≠ j → retryHeap_Swap h i j !! i = Some (set_index b (Z.of_nat i)).
Proof.
  intros Hne. rewrite Swap_eq, list_lookup_insert_ne by done.
  apply list_lookup_insert_eq. by eapply lookup_lt_Some.
Qed.

Lemma Swap_other k : k ≠ i → k ≠ j → retryHeap_Swap h i j !! k = h !! k.
Proof. intros. rewrite Swap_eq, !list_lookup_insert_ne; auto. Qed.

Lemma Swap_perm : item_key <$> retryHeap_Swap h i j ≡ₚ item_key <$> h.
Proof.
  rewrite Swap_eq, !list_fmap_insert, !item_key_set_index.
  destruct (decide (i = j)) as [->|Hne].
  { simplify_eq. rewrite list_insert_insert_eq, list_insert_id; [done|]. by rewrite list_lookup_fmap, Ha. }
  assert (Hi : (item_key <$> h) !! i = Some (item_key a)) by (by rewrite list_lookup_fmap, Ha).
  assert (Hj : (item_key <$> h) !! j = Some (item_key b)) by (by rewrite list_lookup_fmap, Hb).
  by apply Permutation_insert_swap.
Qed.

Lemma Swap_indexed : heap_indexed h → heap_indexed (retryHeap_Swap h i j).
Proof.
  intros Hx k c Hk. destruct (decide (k = j)) as [->|]; [rewrite Swap_second in Hk; by injection Hk as <-|].
  destruct (decide (k = i)) as [->|]; [rewrite Swap_first in Hk by done; by injection Hk as <-|].
  rewrite Swap_other in Hk by done. by apply Hx.
Qed.
End swap.

(** *** Sifting up *)

(** A heap but for the item at [j], which may come before its parent. *)
Record up_inv (h : retryHeap) (j : nat) : Prop := {
  up_rest k a b : (0 < k)%nat → k ≠ j → h !! parent k = Some a → h !! k = Some b → item_le a b;
  up_grand k a b : (0 < k)%nat → (0 < j)%nat → parent k = j → h !! parent j = Some a → h !! k = Some b → item_le a b
}.

Lemma up_swap h i j a b :
  i = parent j → (0 < j)%nat → h !! i = Some a → h !! j = Some b → item_le b a →
  up_inv h j → up_inv (retryHeap_Swap h i j) i.
Proof.
  intros Hi Hj Ha Hb Hle [Hrest Hgrand]. pose proof (parent_lt j Hj) as Hlt. rewrite <- Hi in Hlt.
  assert (Hne : i ≠ j) by lia.
  split.
  - intros k x y Hk Hki Hx Hy. destruct (decide (k = j)) as [->|Hkj].
    + rewrite <- Hi, (Swap_first h i j a b) in Hx by done. rewrite (Swap_second h i j a b) in Hy by done.
      by simplify_eq.
    + rewrite (Swap_other h i j a b Ha Hb k) in Hy by done.
      destruct (decide (parent k = i)) as [Hpi|Hpi]; [|destruct (decide (parent k = j)) as [Hpj|Hpj]].
      * rewrite Hpi, (Swap_first h i j a b) in Hx by done. injection Hx as <-.
        change (item_le b y). trans a; [done|]. eapply (Hrest k); [done..|by rewrite Hpi|done].
      * rewrite Hpj, (Swap_second h i j a b) in Hx by done. injection Hx as <-.
        change (item_le a y). eapply (Hgrand k); [done..|by rewrite <- Hi|done].
      * rewrite (Swap_other h i j a b) in Hx by done. by eapply (Hrest k).
  - intros k x y Hk Hi0 Hpk Hx Hy. pose proof (parent_lt i Hi0).
    rewrite (Swap_other h i j a b) in Hx by (done || lia).
    assert (Hxa : item_le x a) by (eapply (Hrest i); [done..|exact Ha]).
    destruct (decide (k = j)) as [->|Hkj].
    + rewrite (Swap_second h i j a b) in Hy by done. by injection Hy as <-.
    + pose proof (parent_lt k Hk). rewrite (Swap_other h i j a b) in Hy by (done || lia).
      trans a; [done|]. eapply (Hrest k); [done..|by rewrite Hpk|done].
Qed.

Lemma heap_up_spec fuel h j :
  (j < length h)%nat → (j < fuel)%nat → up_inv h j → heap_indexed h →
  heap_ordered (heap_up fuel h j) ∧ heap_indexed (heap_up fuel h j)
  ∧ item_key <$> heap_up fuel h j ≡ₚ item_key <$> h.
Proof.
  revert h j. induction fuel as [|fuel IH]; intros h j Hj Hf Hup Hx; [lia|]. cbn [heap_up].
  fold (parent j). destruct (Nat.eqb_spec (parent j) j) as [Hp|Hp]; cbn [orb].
  { split_and!; [|done|done]. intros k a b Hk Ha Hb. destruct (decide (k = j)) as [->|].
    - pose proof (parent_lt j Hk). lia.
    - by eapply (up_rest _ _ Hup k). }
  assert (Hj0 : (0 < j)%nat) by (destruct j; [done|lia]).
  pose proof (parent_lt j Hj0) as Hlt.
  destruct (lookup_lt_is_Some_2 h (parent j)) as [a Ha]; [lia|].
  destruct (lookup_lt_is_Some_2 h j) as [b Hb]; [done|].
  unfold retryHeap_Less. rewrite Ha, Hb. destruct (item_less b a) eqn:Hless; cbn [negb].
  - edestruct (IH (retryHeap_Swap h (parent j) j) (parent j)) as (Ho & Hx' & Hperm).
    + by rewrite (Swap_length h _ _ a b) by done; lia.
    + lia.
    + eapply up_swap; [done..|by apply item_less_le|done].
    + by apply (Swap_indexed h _ _ a b).
    + split_and!; [done|done|]. rewrite Hperm. by apply (Swap_perm h _ _ a b).
  - split_and!; [|done|done]. intros k x y Hk Hxk Hyk. destruct (decide (k = j)) as [->|].
    + by simplify_eq.
    + by eapply (up_rest _ _ Hup k).
Qed.

(** *** Sifting down *)

Definition ordered_below (h : retryHeap) (n : nat) : Prop :=
  ∀ k a b, (0 < k < n)%nat → h !! parent k = Some a → h !! k = Some b → item_le a b.

(** A heap below [n] but for the item at [i], which may come after its children. *)
Record down_inv (h : retryHeap) (i n : nat) : Prop := {
  down_rest k a b : (0 < k < n)%nat → parent k ≠ i → h !! parent k = Some a → h !! k = Some b → item_le a b;
  down_grand k a b : (0 < k < n)%nat → (0 < i)%nat → parent k = i → h !! parent i = Some a → h !! k = Some b → item_le a b
}.

Lemma down_swap h i j n a b :
  parent j = i → (0 < j < n)%nat → h !! i = Some a → h !! j = Some b → item_le b a →
  (∀ k c, (0 < k < n)%nat → parent k = i → h !! k = Some c → item_le b c) →
  down_inv h i n → down_inv (retryHeap_Swap h i j) j n.
Proof.
  intros Hi Hj Ha Hb Hle Hmin [Hrest Hgrand]. pose proof (parent_lt j ltac:(lia)) as Hlt. rewrite Hi in Hlt.
  assert (Hne : i ≠ j) by lia. split.
  - intros k x y Hk Hpk Hx Hy. destruct (decide (parent k = i)) as [Hpi|Hpi].
    + rewrite Hpi, (Swap_first h i j a b) in Hx by done. injection Hx as <-. change (item_le b y).
      destruct (decide (k = j)) as [->|Hkj]; [rewrite (Swap_second h i j a b) in Hy by done; by injection Hy as <-|].
      pose proof (parent_lt k ltac:(lia)). rewrite (Swap_other h i j a b) in Hy by (done || lia). by eapply (Hmin k).
    + rewrite (Swap_other h i j a b) in Hx by done.
      destruct (decide (k = i)) as [->|Hki].
      * rewrite (Swap_first h i j a b) in Hy by done. injection Hy as <-. change (item_le x b).
        eapply (Hgrand j); [lia|lia|done..].
      * destruct (decide (k = j)) as [->|Hkj]; [done|].
        rewrite (Swap_other h i j a b) in Hy by done. by eapply (Hrest k).
  - intros k x y Hk Hj0 Hpk Hx Hy. pose proof (parent_lt k ltac:(lia)).
    rewrite Hi, (Swap_first h i j a b) in Hx by done. injection Hx as <-. change (item_le b y).
    rewrite (Swap_other h i j a b) in Hy by (done || lia).
    eapply (Hrest k); [done|lia|by rewrite Hpk|done].
Qed.

(** The child that [down] compares with: the first of the two. *)
Lemma down_child h i n j :
  (n ≤ length h)%nat → (2 * i + 1 < n)%nat →
  j = (if (2 * i + 1 + 1 <? n)%nat && retryHeap_Less h (2 * i + 1 + 1) (2 * i + 1) then 2 * i + 1 + 1 else 2 * i + 1)%nat →
  parent j = i ∧ (0 < j < n)%nat ∧
  ∀ b k c, h !! j = Some b → (0 < k < n)%nat → parent k = i → h !! k = Some c → item_le b c.
Proof.
  intros Hn Hl ->. replace (2 * i + 1 + 1)%nat with (2 * i + 2)%nat by lia.
  destruct (lookup_lt_is_Some_2 h (2 * i + 1)) as [x Hx]; [lia|].
  destruct (Nat.ltb_spec (2 * i + 2) n) as [Hr|Hr]; cbn [andb].
  - destruct (lookup_lt_is_Some_2 h (2 * i + 2)) as [y Hy]; [lia|].
    unfold retryHeap_Less. rewrite Hx, Hy. destruct (item_less y x) eqn:E.
    + split_and!; [apply parent_right|lia|lia|]. intros b k c Hb Hk Hpk Hc.
      destruct (parent_children _ _ Hpk ltac:(lia)) as [->| ->]; simplify_eq; [by apply item_less_le|done].
    + split_and!; [apply parent_left|lia|lia|]. intros b k c Hb Hk Hpk Hc.
      destruct (parent_children _ _ Hpk ltac:(lia)) as [->| ->]; simplify_eq; done.
  - split_and!; [apply parent_left|lia|lia|]. intros b k c Hb Hk Hpk Hc.
    destruct (parent_children _ _ Hpk ltac:(lia)) as [->| ->]; simplify_eq; [done|lia].
Qed.

Lemma heap_down_spec fuel h i n :
  (n ≤ length h)%nat → (n ≤ i + fuel)%nat → down_inv h i n → heap_indexed h →
  ordered_below (heap_down fuel h i n) n ∧ heap_indexed (heap_down fuel h i n)
  ∧ item_key <$> heap_down fuel h i n ≡ₚ item_key <$> h
  ∧ length (heap_down fuel h i n) = length h
  ∧ ∀ k, (n ≤ k)%nat → heap_down fuel h i n !! k = h !! k.
Proof.
  revert h i. induction fuel as [|fuel IH]; intros h i Hn Hf Hd Hx.
  { split_and!; [|done..]. intros k a b Hk. pose proof (parent_lt k ltac:(lia)).
    eapply (down_rest _ _ _ Hd k); [done|]. lia. }
  cbn [heap_down]. case_match eqn:E.
  { apply Nat.leb_le in E. split_and!; [|done..]. intros k a b Hk. eapply (down_rest _ _ _ Hd k); [done|].
    intros Hp. destruct (parent_children _ _ Hp ltac:(lia)); lia. }
  apply Nat.leb_gt in E.
  set (j := (if (2 * i + 1 + 1 <? n)%nat && retryHeap_Less h (2 * i + 1 + 1) (2 * i + 1) then 2 * i + 1 + 1 else 2 * i + 1)%nat).
  destruct (down_child h i n j) as (Hpj & Hj & Hmin); [done|done|reflexivity|].
  pose proof (parent_lt j ltac:(lia)) as Hlt. rewrite Hpj in Hlt.
  destruct (lookup_lt_is_Some_2 h i) as [a Ha]; [lia|]. destruct (lookup_lt_is_Some_2 h j) as [b Hb]; [lia|].
  assert (Hl : retryHeap_Less h j i = item_less b a) by (unfold retryHeap_Less; by rewrite Ha, Hb).
  rewrite Hl. destruct (item_less b a) eqn:Hless; cbn [negb].
  - edestruct (IH (retryHeap_Swap h i j) j) as (Ho & Hx' & Hperm & Hlen & Hhigh).
    + by rewrite (Swap_length h i j a b).
    + lia.
    + apply (down_swap h i j n a b); [done..|by apply item_less_le| |done]. intros k c ? ? ?. by eapply Hmin.
    + by apply (Swap_indexed h i j a b).
    + split_and!; [done|done| | |].
      * rewrite Hperm. by apply (Swap_perm h i j a b).
      * rewrite Hlen. by apply (Swap_length h i j a b).
      * intros k Hk. rewrite Hhigh by done. apply (Swap_other h i j a b); [done..|lia|lia].
  - split_and!; [|done..]. intros k x y Hk Hxk Hyk. destruct (decide (parent k = i)) as [Hpk|Hpk].
    + rewrite Hpk in Hxk. simplify_eq. trans b; [done|]. by eapply Hmin.
    + by eapply (down_rest _ _ _ Hd k).
Qed.

(** ** Push and Pop *)

Record heap_ok (h : retryHeap) : Prop := {
  heap_ok_ordered : heap_ordered h;
  heap_ok_indexed : heap_indexed h
}.

Lemma heap_ok_nil : heap_ok [].
Proof. split; [intros i a b _ Ha|intros i a Ha]; by rewrite lookup_nil in Ha. Qed.

Lemma heap_Push_lemma h item :
  heap_ok h → heap_ok (heap_Push h item) ∧ item_key <$> heap_Push h item ≡ₚ item_key item :: (item_key <$> h).
Proof.
  intros [Ho Hx]. unfold heap_Push. set (h1 := retryHeap_Push h item).
  assert (Hl : length h1 = S (length h)) by (unfold h1, retryHeap_Push; rewrite length_app; cbn; lia).
  assert (Hlow : ∀ k, (k < length h)%nat → h1 !! k = h !! k) by (intros; by apply lookup_app_l).
  assert (Hx1 : heap_indexed h1).
  { intros k a Hk. apply lookup_app_Some in Hk as [Hk|[Hge Hk]]; [by apply Hx|].
    apply list_lookup_singleton_Some in Hk as [Hk <-]. cbn. lia. }
  edestruct (heap_up_spec (length h1) h1 (length h1 - 1)) as (Ho' & Hx' & Hp); [lia|lia| |done|].
  - split.
    + intros k a b Hk Hkj Ha Hb. pose proof (lookup_lt_Some _ _ _ Hb). pose proof (parent_lt k Hk).
      rewrite Hlow in Ha, Hb by lia. by eapply (Ho k).
    + intros k a b Hk Hj Hpk Ha Hb. pose proof (lookup_lt_Some _ _ _ Hb). pose proof (parent_lt k Hk). lia.
  - split; [by split|]. rewrite Hp. unfold h1, retryHeap_Push. rewrite fmap_app. cbn.
    by rewrite <- Permutation_cons_append.
Qed.

Lemma last_removelast {A} (l : list A) x : last l = Some x → l = removelast l ++ [x].
Proof.
  intros H. apply last_Some in H as [l' ->]. rewrite removelast_app by done. cbn. by rewrite app_nil_r.
Qed.

Lemma heap_Pop_lemma h root rest :
  heap_ok h → h = root :: rest →
  ∃ item h', heap_Pop h = Some (item, h') ∧ heap_ok h' ∧ item_key item = item_key root ∧ qr_index item = -1
    ∧ item_key <$> h ≡ₚ item_key item :: (item_key <$> h')
    ∧ ∀ other, other ∈ h' → item_le item other.
Proof.
  intros [Ho Hx] Hh. unfold heap_Pop. set (n := (length h - 1)%nat).
  assert (Hn : length h = S n) by (unfold n; subst h; cbn; lia).
  assert (H0 : h !! 0%nat = Some root) by (by subst h).
  destruct (lookup_lt_is_Some_2 h n) as [b Hb]; [lia|].
  edestruct (heap_down_spec (length h) (retryHeap_Swap h 0 n) 0 n) as (Ho' & Hx' & Hp & Hlen & Hhigh).
  - rewrite (Swap_length h 0 n root b) by done. lia.
  - lia.
  - split; [|lia]. intros k x y Hk Hpk Hxk Hyk. pose proof (parent_lt k ltac:(lia)).
    rewrite (Swap_other h 0 n root b) in Hxk, Hyk by (done || lia). eapply (Ho k); [lia|done..].
  - by apply (Swap_indexed h 0 n root b).
  - set (h2 := heap_down _ _ _ _) in *. rewrite (Swap_length h 0 n root b) in Hlen by done.
    assert (Hl : last h2 = Some (set_index root (Z.of_nat n))).
    { rewrite last_lookup, Hlen, Hn. cbn [pred]. rewrite Hhigh by done. by apply (Swap_second h 0 n root b). }
    exists (set_index (set_index root (Z.of_nat n)) (-1)), (removelast h2).
    unfold retryHeap_Pop. rewrite Hl. apply last_removelast in Hl as Hsplit.
    assert (Hlr : length (removelast h2) = n) by (apply (f_equal length) in Hsplit; rewrite length_app in Hsplit; cbn in Hsplit; lia).
    assert (Hlow : ∀ k, (k < n)%nat → removelast h2 !! k = h2 !! k).
    { intros k Hk. rewrite Hsplit at 2. by rewrite lookup_app_l by lia. }
    assert (Hperm : item_key <$> h ≡ₚ item_key root :: (item_key <$> removelast h2)).
    { rewrite <- (Swap_perm h 0 n root b) by done. rewrite <- Hp, Hsplit, fmap_app. cbn.
      rewrite removelast_app by done. cbn. rewrite app_nil_r. by rewrite <- Permutation_cons_append. }
    split_and!; [done| |done|done|done|].
    + split.
      * intros k x y Hk Hxk Hyk. pose proof (lookup_lt_Some _ _ _ Hyk). pose proof (parent_lt k Hk).
        rewrite Hlow in Hxk, Hyk by lia. eapply (Ho' k); [lia|done..].
      * intros k x Hk. pose proof (lookup_lt_Some _ _ _ Hk). rewrite Hlow in Hk by lia. by apply Hx'.
    + intros other Hin. assert (Hk : item_key other ∈ item_key <$> h).
      { rewrite Hperm. right. by apply list_elem_of_fmap_2. }
      apply list_elem_of_fmap in Hk as (o & Hko & Hino). apply list_elem_of_lookup in Hino as [k Hk].
      change (item_le root other). rewrite (item_le_key root other root o) by done.
      by eapply (heap_ordered_root h root Ho H0).
Qed.

(** Popping until the heap is empty. *)
Fixpoint heap_drain (fuel : nat) (h : retryHeap) : list queuedRecord :=
  match fuel with
  | O => []
  | S fuel => match heap_Pop h with
              | None => []
              | Some (item, h) => item :: heap_drain fuel h
              end
  end.

Lemma heap_fill_spec items h :
  heap_ok h → heap_ok (foldl heap_Push h items)
  ∧ item_key <$> foldl heap_Push h items ≡ₚ (item_key <$> items) ++ (item_key <$> h).
Proof.
  revert h. induction items as [|item items IH]; intros h Hh; [done|]. cbn [foldl].
  destruct (heap_Push_lemma h item Hh) as [Hh' Hp]. destruct (IH _ Hh') as [H1 H2].
  split; [done|]. rewrite H2, Hp. cbn. by rewrite <- Permutation_middle.
Qed.

Lemma heap_drain_spec n h :
  heap_ok h → length h = n →
  StronglySorted item_le (heap_drain n h) ∧ item_key <$> heap_drain n h ≡ₚ item_key <$> h.
Proof.
  revert h. induction n as [|n IH]; intros h Hh Hl; cbn [heap_drain].
  { destruct h; [|done]. split; [constructor|done]. }
  destruct h as [|root rest]; [done|].
  destruct (heap_Pop_lemma _ root rest Hh eq_refl) as (item & h' & -> & Hh' & _ & _ & Hp & Hmin).
  assert (Hl' : length h' = n).
  { apply Permutation_length in Hp. cbn in Hp, Hl. rewrite !length_fmap in Hp. lia. }
  destruct (IH h' Hh' Hl') as [Hs Hp']. split.
  - constructor; [done|]. apply Forall_forall. intros x Hx.
    assert (Hk : item_key x ∈ item_key <$> h') by (rewrite <- Hp'; by apply list_elem_of_fmap_2).
    apply list_elem_of_fmap in Hk as (y & Hk & Hy). rewrite (item_le_key item x item y) by done. by apply Hmin.
  - rewrite Hp. cbn. by rewrite Hp'.
Qed.
