(* ===== verification/Backoff.v ===== *)
(** * Retry backoff (internal/dispatch/dispatch.go: retryDelay, nextAttempt)

    Durations are [int64] nanoseconds; the multiplier is a [float64], computed
    with the Standard Library's model of IEEE 754 (53 bits, [emax] 1024).  Go
    leaves the conversion of a float that no [int64] holds to the
    implementation: [out_of_range] stands for it. *)
From S2P Require Import Prelude.
From Stdlib Require Import Floats.SpecFloat.
#[local] Open Scope Z_scope.

(** ** float64 *)

Abbreviation float64 := spec_float.

(** [float64(z)], to the nearest, ties to even. *)
Definition float64_of_Z (z : Z) : float64 := binary_normalize 53 1024 z 0 false.
Definition float64_mul (x y : float64) : float64 := SFmul 53 1024 x y.
Definition float64_leb (x y : float64) : bool := SFleb x y.
Definition float64_ltb (x y : float64) : bool := SFltb x y.

(** The value without its fraction, if it is a number. *)
Definition float64_trunc (x : float64) : option Z :=
  match x with
  | S754_zero _ => Some 0
  | S754_finite s m e =>
      let a := if 0 <=? e then Z.pos m * 2 ^ e else Z.pos m / 2 ^ (- e) in
      Some (if s then - a else a)
  | S754_infinity _ | S754_nan => None
  end.

Definition in_i64 (z : Z) : bool := (- 2 ^ 63 <=? z) && (z <? 2 ^ 63).

(** ** Attempts *)

Definition nextAttempt (attempt : Z) : Z := if attempt =? max_uint32 then attempt else u32 (attempt + 1).

Lemma nextAttempt_spec attempt : is_u32 attempt → nextAttempt attempt = Z.min max_uint32 (attempt + 1).
Proof.
  unfold is_u32, nextAttempt, max_uint32. intros H. case_match; zbool; [lia|].
  rewrite u32_id; [lia|]. unfold is_u32. lia.
Qed.

Lemma nextAttempt_range attempt : is_u32 attempt → is_u32 (nextAttempt attempt).
Proof. intros H. rewrite nextAttempt_spec by done. unfold is_u32, max_uint32 in *. lia. Qed.

Section delay.
Context (out_of_range : float64 → Z).
Context (RetryInitial RetryMax : Z) (RetryMultiplier : float64).

(** [time.Duration(x)] *)
Definition duration_of_float64 (x : float64) : Z :=
  match float64_trunc x with
  | Some z => if in_i64 z then z else out_of_range x
  | None => out_of_range x
  end.

(** The loop, from [current] to [attempt], which is [remaining] rounds away. *)
Fixpoint retry_loop (remaining : nat) (delay : Z) : Z :=
  match remaining with
  | O => delay
  | S remaining =>
      if delay <? RetryMax then
        let next := duration_of_float64 (float64_mul (float64_of_Z delay) RetryMultiplier) in
        if (next <=? delay) || (RetryMax <? next) then RetryMax else retry_loop remaining next
      else delay
  end.

Definition retryDelay (attempt : Z) : Z :=
  if float64_leb RetryMultiplier (float64_of_Z 1) then RetryInitial
  else retry_loop (Z.to_nat (attempt - 1)) RetryInitial.

(** ** Bounds *)

Lemma retry_loop_range n delay : delay ≤ RetryMax → delay ≤ retry_loop n delay ≤ RetryMax.
Proof.
  revert delay. induction n as [|n IH]; intros delay Hd; cbn [retry_loop]; [lia|].
  case_match eqn:E1; [|lia]. case_match eqn:E2; [lia|]. zbool.
  specialize (IH _ ltac:(eassumption)). lia.
Qed.

(** Waiting longer never shortens the delay. *)
Lemma retry_loop_mono n m delay : (n ≤ m)%nat → delay ≤ RetryMax → retry_loop n delay ≤ retry_loop m delay.
Proof.
  revert n delay. induction m as [|m IH]; intros n delay Hnm Hd; [by destruct n; [|lia]|].
  destruct n as [|n]; [apply (retry_loop_range (S m)); done|].
  cbn [retry_loop]. case_match; [|done]. case_match eqn:E2; [done|]. zbool. apply IH; lia.
Qed.

(** A multiplier above one keeps growing the delay until the cap. *)
Lemma retry_loop_grows n delay :
  delay ≤ RetryMax → RetryMax ≤ retry_loop n delay ∨ delay + Z.of_nat n ≤ retry_loop n delay.
Proof.
  revert delay. induction n as [|n IH]; intros delay Hd; cbn [retry_loop]; [right; lia|].
  case_match eqn:E1; zbool; [|left; lia]. case_match eqn:E2; [left; lia|]. zbool.
  destruct (IH _ ltac:(eassumption)); [by left|right; lia].
Qed.
End delay.

(** ** The default configuration *)

Definition second : Z := 1000000000.

Lemma retry_loop_default out n :
  retry_loop out (60 * second) (float64_of_Z 2) n (1 * second) = Z.min (60 * second) (second * 2 ^ Z.of_nat n).
Proof.
  do 6 (destruct n as [|n]; [vm_compute; reflexivity|]).
  assert (H : ∀ n, retry_loop out (60 * second) (float64_of_Z 2) (6 + n) (1 * second) = 60 * second).
  { intros m. unfold second. cbn -[float64_of_Z float64_mul]. vm_compute. reflexivity. }
  change (S (S (S (S (S (S n)))))) with (6 + n)%nat. rewrite H, Nat2Z.inj_add, Z.pow_add_r by lia.
  pose proof (Z.pow_pos_nonneg 2 (Z.of_nat n) ltac:(lia) ltac:(lia)). unfold second. lia.
Qed.
