(* ===== verification/Dispatch.v ===== *)
(** * The dispatcher (internal/dispatch/dispatch.go)

    The process-local scheduler of one stream: the fresh lane, the retry heap,
    the leases and the state of every tracked sequence, with each method as a
    function of the state.  A method that holds [d.mu] throughout is one
    function; [fillFresh] and [Read], which release it, are given as the blocks
    between two critical sections, for the interleavings of Queue.v.

    Instants are nanoseconds; the zero [time.Time] is [zero_time].  What a
    method reads from outside is a parameter: the clock, the random receipts and
    the order in which [range] visits a map. *)
From S2P Require Import Prelude Errors Store Heap Backoff.
#[local] Open Scope Z_scope.

(** [dispatch.Config] *)
Record Config : Type := {
  cfg_PrefetchCapacity : Z;
  cfg_MaxInFlight : Z;
  cfg_VisibilityTimeout : Z;
  cfg_RetryInitial : Z;
  cfg_RetryMax : Z;
  cfg_RetryMultiplier : float64
}.

(** [dispatch.Receipt]: 16 bytes. *)
Definition Receipt : Type := bytes.
#[global] Instance Receipt_eq_dec : EqDecision Receipt := _.
#[global] Instance Receipt_countable : Countable Receipt := _.

(** [dispatch.Delivery] *)
Record Delivery : Type := {
  dl_Record : StoreRecord;
  dl_Receipt : Receipt;
  dl_Attempt : Z;
  dl_Deadline : Z
}.

(** [dispatch.Stats] *)
Record Stats : Type := {
  st_Ready : Z;
  st_Retry : Z;
  st_InFlight : Z;
  st_Deliveries : Z;
  st_Retries : Z;
  st_LeaseExpirations : Z;
  st_DuplicateAttempts : Z;
  st_Backpressure : Z
}.

Definition zero_stats : Stats :=
  {| st_Ready := 0; st_Retry := 0; st_InFlight := 0; st_Deliveries := 0; st_Retries := 0;
     st_LeaseExpirations := 0; st_DuplicateAttempts := 0; st_Backpressure := 0 |}.

(** [dispatch.state] *)
Inductive state : Set := stateFresh | stateRetry | stateInFlight.
#[global] Instance state_eq_dec : EqDecision state.
Proof. solve_decision. Defined.

Definition receiptCollisionLimit : nat := 16.

(** [time.Unix(1<<62, 0)] *)
Definition farFuture : Z := 2 ^ 62 * 1000000000.

(** [dispatch.flight] *)
Record flight : Type := {
  fl_record : StoreRecord;
  fl_receipt : Receipt;
  fl_attempt : Z;
  fl_deadline : Z
}.

(** [dispatch.Dispatcher] without its locks, its source and the functions it
    calls; [d_signal] is whether the channel of capacity one holds a token. *)
Record Dispatcher : Type := {
  d_config : Config;
  d_closed : bool;
  d_cursor : Z;
  d_scanDone : bool;
  d_scanEmpty : bool;
  d_fresh : list queuedRecord;
  d_retries : retryHeap;
  d_inFlight : gmap Receipt flight;
  d_states : gmap Z state;
  d_preferRetry : bool;
  d_signal : bool;
  d_stats : Stats;
  d_expireAt : Z
}.

(** ** Assignments to fields *)

Definition with_closed (d : Dispatcher) (x : bool) : Dispatcher :=
  {| d_config := d_config d; d_closed := x; d_cursor := d_cursor d; d_scanDone := d_scanDone d;
     d_scanEmpty := d_scanEmpty d; d_fresh := d_fresh d; d_retries := d_retries d; d_inFlight := d_inFlight d;
     d_states := d_states d; d_preferRetry := d_preferRetry d; d_signal := d_signal d; d_stats := d_stats d;
     d_expireAt := d_expireAt d |}.
Definition with_cursor (d : Dispatcher) (x : Z) : Dispatcher :=
  {| d_config := d_config d; d_closed := d_closed d; d_cursor := x; d_scanDone := d_scanDone d;
     d_scanEmpty := d_scanEmpty d; d_fresh := d_fresh d; d_retries := d_retries d; d_inFlight := d_inFlight d;
     d_states := d_states d; d_preferRetry := d_preferRetry d; d_signal := d_signal d; d_stats := d_stats d;
     d_expireAt := d_expireAt d |}.
Definition with_scanDone (d : Dispatcher) (x : bool) : Dispatcher :=
  {| d_config := d_config d; d_closed := d_closed d; d_cursor := d_cursor d; d_scanDone := x;
     d_scanEmpty := d_scanEmpty d; d_fresh := d_fresh d; d_retries := d_retries d; d_inFlight := d_inFlight d;
     d_states := d_states d; d_preferRetry := d_preferRetry d; d_signal := d_signal d; d_stats := d_stats d;
     d_expireAt := d_expireAt d |}.
Definition with_scanEmpty (d : Dispatcher) (x : bool) : Dispatcher :=
  {| d_config := d_config d; d_closed := d_closed d; d_cursor := d_cursor d; d_scanDone := d_scanDone d;
     d_scanEmpty := x; d_fresh := d_fresh d; d_retries := d_retries d; d_inFlight := d_inFlight d;
     d_states := d_states d; d_preferRetry := d_preferRetry d; d_signal := d_signal d; d_stats := d_stats d;
     d_expireAt := d_expireAt d |}.
(** The lanes and the states, which change together. *)
Definition with_lanes (d : Dispatcher) (fresh : list queuedRecord) (retries : retryHeap)
    (inFlight : gmap Receipt flight) (states : gmap Z state) : Dispatcher :=
  {| d_config := d_config d; d_closed := d_closed d; d_cursor := d_cursor d; d_scanDone := d_scanDone d;
     d_scanEmpty := d_scanEmpty d; d_fresh := fresh; d_retries := retries; d_inFlight := inFlight;
     d_states := states; d_preferRetry := d_preferRetry d; d_signal := d_signal d; d_stats := d_stats d;
     d_expireAt := d_expireAt d |}.
Definition with_preferRetry (d : Dispatcher) (x : bool) : Dispatcher :=
  {| d_config := d_config d; d_closed := d_closed d; d_cursor := d_cursor d; d_scanDone := d_scanDone d;
     d_scanEmpty := d_scanEmpty d; d_fresh := d_fresh d; d_retries := d_retries d; d_inFlight := d_inFlight d;
     d_states := d_states d; d_preferRetry := x; d_signal := d_signal d; d_stats := d_stats d;
     d_expireAt := d_expireAt d |}.
Definition with_signal (d : Dispatcher) (x : bool) : Dispatcher :=
  {| d_config := d_config d; d_closed := d_closed d; d_cursor := d_cursor d; d_scanDone := d_scanDone d;
     d_scanEmpty := d_scanEmpty d; d_fresh := d_fresh d; d_retries := d_retries d; d_inFlight := d_inFlight d;
     d_states := d_states d; d_preferRetry := d_preferRetry d; d_signal := x; d_stats := d_stats d;
     d_expireAt := d_expireAt d |}.
Definition with_stats (d : Dispatcher) (x : Stats) : Dispatcher :=
  {| d_config := d_config d; d_closed := d_closed d; d_cursor := d_cursor d; d_scanDone := d_scanDone d;
     d_scanEmpty := d_scanEmpty d; d_fresh := d_fresh d; d_retries := d_retries d; d_inFlight := d_inFlight d;
     d_states := d_states d; d_preferRetry := d_preferRetry d; d_signal := d_signal d; d_stats := x;
     d_expireAt := d_expireAt d |}.
Definition with_expireAt (d : Dispatcher) (x : Z) : Dispatcher :=
  {| d_config := d_config d; d_closed := d_closed d; d_cursor := d_cursor d; d_scanDone := d_scanDone d;
     d_scanEmpty := d_scanEmpty d; d_fresh := d_fresh d; d_retries := d_retries d; d_inFlight := d_inFlight d;
     d_states := d_states d; d_preferRetry := d_preferRetry d; d_signal := d_signal d; d_stats := d_stats d;
     d_expireAt := x |}.

(** *** Counters, [uint64] *)

Definition add_Deliveries (s : Stats) (n : Z) : Stats :=
  {| st_Ready := st_Ready s; st_Retry := st_Retry s; st_InFlight := st_InFlight s;
     st_Deliveries := u64 (st_Deliveries s + n); st_Retries := st_Retries s;
     st_LeaseExpirations := st_LeaseExpirations s; st_DuplicateAttempts := st_DuplicateAttempts s;
     st_Backpressure := st_Backpressure s |}.
Definition add_Retries (s : Stats) : Stats :=
  {| st_Ready := st_Ready s; st_Retry := st_Retry s; st_InFlight := st_InFlight s;
     st_Deliveries := st_Deliveries s; st_Retries := u64 (st_Retries s + 1);
     st_LeaseExpirations := st_LeaseExpirations s; st_DuplicateAttempts := st_DuplicateAttempts s;
     st_Backpressure := st_Backpressure s |}.
Definition add_LeaseExpirations (s : Stats) : Stats :=
  {| st_Ready := st_Ready s; st_Retry := st_Retry s; st_InFlight := st_InFlight s;
     st_Deliveries := st_Deliveries s; st_Retries := st_Retries s;
     st_LeaseExpirations := u64 (st_LeaseExpirations s + 1); st_DuplicateAttempts := st_DuplicateAttempts s;
     st_Backpressure := st_Backpressure s |}.
Definition add_DuplicateAttempts (s : Stats) : Stats :=
  {| st_Ready := st_Ready s; st_Retry := st_Retry s; st_InFlight := st_InFlight s;
     st_Deliveries := st_Deliveries s; st_Retries := st_Retries s;
     st_LeaseExpirations := st_LeaseExpirations s; st_DuplicateAttempts := u64 (st_DuplicateAttempts s + 1);
     st_Backpressure := st_Backpressure s |}.
Definition add_Backpressure (s : Stats) : Stats :=
  {| st_Ready := st_Ready s; st_Retry := st_Retry s; st_InFlight := st_InFlight s;
     st_Deliveries := st_Deliveries s; st_Retries := st_Retries s;
     st_LeaseExpirations := st_LeaseExpirations s; st_DuplicateAttempts := st_DuplicateAttempts s;
     st_Backpressure := u64 (st_Backpressure s + 1) |}.

(** ** New, Notify *)

(** The conditions of [New] on the configuration. *)
Definition config_invalid (config : Config) : bool :=
  (cfg_PrefetchCapacity config <=? 0) || (cfg_MaxInFlight config <=? 0)
  || (cfg_VisibilityTimeout config <=? 0) || (cfg_RetryInitial config <? 0)
  || (cfg_RetryMax config <? cfg_RetryInitial config)
  || float64_ltb (cfg_RetryMultiplier config) (float64_of_Z 1).

Definition New (sourceNil : bool) (config : Config) : res Dispatcher :=
  if sourceNil || config_invalid config then Err (Sentinel dispatch_ErrInvalidConfig)
  else Ok {| d_config := config; d_closed := false; d_cursor := 1; d_scanDone := false; d_scanEmpty := false;
             d_fresh := []; d_retries := []; d_inFlight := ∅; d_states := ∅; d_preferRetry := false;
             d_signal := false; d_stats := zero_stats; d_expireAt := zero_time |}.

(** A send that does not block: the token is there afterwards in either case. *)
Definition notifyLocked (d : Dispatcher) : Dispatcher := with_signal d true.

Definition Notify (d : Dispatcher) : Dispatcher := notifyLocked (with_scanEmpty d false).

Definition Close (d : Dispatcher) : Dispatcher :=
  if d_closed d then d else notifyLocked (with_closed d true).

(** ** Receipts *)

Section receipts.
Context {Rng : Type} (newReceipt : Rng → res Receipt * Rng).

(** The loop of [uniqueReceiptLocked]. *)
Fixpoint unique_loop (attempts : nat) (inFlight : gmap Receipt flight) (g : Rng) : res Receipt * Rng :=
  match attempts with
  | O => (Err (NewError "receipt collision limit reached"), g)
  | S attempts =>
      match newReceipt g with
      | (Err e, g) => (Err e, g)
      | (Ok receipt, g) =>
          match inFlight !! receipt with
          | None => (Ok receipt, g)
          | Some _ => unique_loop attempts inFlight g
          end
      end
  end.

Definition uniqueReceiptLocked (d : Dispatcher) (g : Rng) : res Receipt * Rng :=
  unique_loop receiptCollisionLimit (d_inFlight d) g.
End receipts.

(** ** Leases *)

(** The body of the loop of [expireLocked]; [earliest] is the loop's variable. *)
Definition expire_one (now : Z) (d_earliest : Dispatcher * Z) (entry : Receipt * flight) : Dispatcher * Z :=
  let '(d, earliest) := d_earliest in
  let '(receipt, current) := entry in
  if now <? fl_deadline current then
    (d, if fl_deadline current <? earliest then fl_deadline current else earliest)
  else
    let d := with_lanes d (d_fresh d)
               (heap_Push (d_retries d)
                  {| qr_record := fl_record current; qr_attempt := nextAttempt (fl_attempt current);
                     qr_readyAt := now; qr_index := 0 |})
               (delete receipt (d_inFlight d))
               (<[r_Seq (fl_record current) := stateRetry]> (d_states d)) in
    (with_stats d (add_LeaseExpirations (d_stats d)), earliest).

(** [visits] is the order in which [range d.inFlight] visits the leases. *)
Definition expireLocked (visits : list (Receipt * flight)) (now : Z) (d : Dispatcher) : Dispatcher :=
  if now <? d_expireAt d then d
  else
    let '(d, earliest) := foldl (expire_one now) (d, farFuture) visits in with_expireAt d earliest.

(** The loop of [validateLocked]; [seen] are the receipts so far. *)
Fixpoint validate_loop (inFlight : gmap Receipt flight) (seen : gset Receipt) (deliveries : list Delivery)
    : res (list Z) :=
  match deliveries with
  | [] => Ok []
  | delivery :: deliveries =>
      if bool_decide (dl_Receipt delivery ∈ seen) then Err (Sentinel dispatch_ErrStaleDelivery)
      else
        match inFlight !! dl_Receipt delivery with
        | None => Err (Sentinel dispatch_ErrStaleDelivery)
        | Some current =>
            if negb (r_Seq (fl_record current) =? r_Seq (dl_Record delivery))
               || negb (fl_attempt current =? dl_Attempt delivery)
            then Err (Sentinel dispatch_ErrStaleDelivery)
            else
              seqs ← validate_loop inFlight ({[dl_Receipt delivery]} ∪ seen) deliveries;
              Ok (r_Seq (fl_record current) :: seqs)
        end
  end.

Definition validateLocked (d : Dispatcher) (deliveries : list Delivery) : res (list Z) :=
  validate_loop (d_inFlight d) ∅ deliveries.

(** [delete(d.inFlight, delivery.Receipt); delete(d.states, delivery.Record.Seq)] *)
Definition release (d : Dispatcher) (delivery : Delivery) : Dispatcher :=
  with_lanes d (d_fresh d) (d_retries d)
    (delete (dl_Receipt delivery) (d_inFlight d)) (delete (r_Seq (dl_Record delivery)) (d_states d)).

(** What a call reads from outside: the clock and the order of [range]. *)
Record Env : Type := {
  e_now : Z;
  e_visits : list (Receipt * flight)
}.

(** [persist] acts on a state [W] outside the dispatcher. *)
Definition Commit {W} (persist : list Z → W → W * option goerr) (env : Env)
    (d : Dispatcher) (w : W) (deliveries : list Delivery) : Dispatcher * W * option goerr :=
  match deliveries with
  | [] => (d, w, None)
  | _ :: _ =>
      if d_closed d then (d, w, Some (Sentinel dispatch_ErrClosed))
      else
        let d := expireLocked (e_visits env) (e_now env) d in
        match validateLocked d deliveries with
        | Err e => (d, w, Some e)
        | Ok seqs =>
            match persist seqs w with
            | (w, Some e) => (d, w, Some e)
            | (w, None) => (notifyLocked (foldl release d deliveries), w, None)
            end
        end
  end.

(** [d.inFlight[receipt]] of a missing key is the zero [flight]. *)
Definition zero_flight : flight :=
  {| fl_record := zero_record; fl_receipt := []; fl_attempt := 0; fl_deadline := zero_time |}.

Definition retry_one (out_of_range : float64 → Z) (now : Z) (d : Dispatcher) (delivery : Delivery) : Dispatcher :=
  let current := default zero_flight (d_inFlight d !! dl_Receipt delivery) in
  let d := with_lanes d (d_fresh d)
             (heap_Push (d_retries d)
                {| qr_record := fl_record current; qr_attempt := nextAttempt (fl_attempt current);
                   qr_readyAt := now + retryDelay out_of_range (cfg_RetryInitial (d_config d))
                                         (cfg_RetryMax (d_config d)) (cfg_RetryMultiplier (d_config d))
                                         (fl_attempt current);
                   qr_index := 0 |})
             (delete (dl_Receipt delivery) (d_inFlight d))
             (<[r_Seq (fl_record current) := stateRetry]> (d_states d)) in
  with_stats d (add_Retries (d_stats d)).

Definition Retry (out_of_range : float64 → Z) (env : Env) (d : Dispatcher) (deliveries : list Delivery)
    : Dispatcher * option goerr :=
  match deliveries with
  | [] => (d, None)
  | _ :: _ =>
      if d_closed d then (d, Some (Sentinel dispatch_ErrClosed))
      else
        let d := expireLocked (e_visits env) (e_now env) d in
        match validateLocked d deliveries with
        | Err e => (d, Some e)
        | Ok _ => (notifyLocked (foldl (retry_one out_of_range (e_now env)) d deliveries), None)
        end
  end.

Definition extend_one (extension : Z) (d : Dispatcher) (delivery : Delivery) : Dispatcher :=
  let current := default zero_flight (d_inFlight d !! dl_Receipt delivery) in
  with_lanes d (d_fresh d) (d_retries d)
    (<[dl_Receipt delivery := {| fl_record := fl_record current; fl_receipt := fl_receipt current;
                                 fl_attempt := fl_attempt current;
                                 fl_deadline := fl_deadline current + extension |}]> (d_inFlight d))
    (d_states d).

Definition Extend (env : Env) (extension : Z) (d : Dispatcher) (deliveries : list Delivery)
    : Dispatcher * option goerr :=
  if extension <=? 0 then (d, Some (Sentinel dispatch_ErrInvalidExtension))
  else
    match deliveries with
    | [] => (d, None)
    | _ :: _ =>
        if d_closed d then (d, Some (Sentinel dispatch_ErrClosed))
        else
          let d := expireLocked (e_visits env) (e_now env) d in
          match validateLocked d deliveries with
          | Err e => (d, Some e)
          | Ok _ => (notifyLocked (foldl (extend_one extension) d deliveries), None)
          end
    end.

Definition DeadLetter {W} (persist : Z → W → W * option goerr) (env : Env)
    (d : Dispatcher) (w : W) (delivery : Delivery) : Dispatcher * W * option goerr :=
  if d_closed d then (d, w, Some (Sentinel dispatch_ErrClosed))
  else
    let d := expireLocked (e_visits env) (e_now env) d in
    match validateLocked d [delivery] with
    | Err e => (d, w, Some e)
    | Ok _ =>
        match persist (r_Seq (dl_Record delivery)) w with
        | (w, Some e) => (d, w, Some e)
        | (w, None) => (notifyLocked (release d delivery), w, None)
        end
    end.

Definition Snapshot (env : Env) (d : Dispatcher) : Dispatcher * Stats :=
  let d := expireLocked (e_visits env) (e_now env) d in
  (d, {| st_Ready := Z.of_nat (length (d_fresh d)); st_Retry := Z.of_nat (length (d_retries d));
         st_InFlight := Z.of_nat (size (d_inFlight d));
         st_Deliveries := st_Deliveries (d_stats d); st_Retries := st_Retries (d_stats d);
         st_LeaseExpirations := st_LeaseExpirations (d_stats d);
         st_DuplicateAttempts := st_DuplicateAttempts (d_stats d);
         st_Backpressure := st_Backpressure (d_stats d) |}).

(** ** Selecting records *)

(** [dispatch.selectedRecord] *)
Record selectedRecord : Type := {
  sel_item : queuedRecord;
  sel_previousState : state;
  sel_receipt : Receipt
}.

(** The body of the loop of [rollbackSelectionLocked]. *)
Definition rollback_one (d : Dispatcher) (current : selectedRecord) : Dispatcher :=
  let states := <[r_Seq (qr_record (sel_item current)) := sel_previousState current]> (d_states d) in
  let inFlight := delete (sel_receipt current) (d_inFlight d) in
  match sel_previousState current with
  | stateRetry => with_lanes d (d_fresh d) (heap_Push (d_retries d) (sel_item current)) inFlight states
  | _ => with_lanes d (sel_item current :: d_fresh d) (d_retries d) inFlight states
  end.

(** The loop runs from the last selected record to the first. *)
Definition rollbackSelectionLocked (d : Dispatcher) (selected : list selectedRecord) (preference : bool) : Dispatcher :=
  let d := foldl rollback_one d (rev selected) in
  let d := with_preferRetry d preference in
  with_stats d (add_Deliveries (d_stats d) (- Z.of_nat (length selected))).

Definition popFreshLocked (d : Dispatcher) : option (queuedRecord * Dispatcher) :=
  match d_fresh d with
  | [] => None
  | item :: fresh => Some (item, with_lanes d fresh (d_retries d) (d_inFlight d) (d_states d))
  end.

Definition popRetryLocked (d : Dispatcher) : option (queuedRecord * Dispatcher) :=
  match heap_Pop (d_retries d) with
  | None => None
  | Some (item, retries) => Some (item, with_lanes d (d_fresh d) retries (d_inFlight d) (d_states d))
  end.

(** [len(d.retries) > 0 && !d.retries[0].readyAt.After(now)] *)
Definition retry_ready (now : Z) (d : Dispatcher) : bool :=
  match d_retries d with
  | [] => false
  | head :: _ => negb (now <? qr_readyAt head)
  end.

Definition fresh_ready (d : Dispatcher) : bool :=
  let trackedLimit := i64 (cfg_PrefetchCapacity (d_config d) + cfg_MaxInFlight (d_config d)) in
  negb (bool_decide (d_fresh d = []))
  && (Z.of_nat (length (d_retries d)) + Z.of_nat (size (d_inFlight d)) <? trackedLimit).

(** The [switch] of [takeLocked]: the item, its state and the new state of the
    dispatcher ([None] where the code would index an empty slice; it does not,
    since the switch follows the two ready conditions). *)
Definition select (retryReady freshReady : bool) (d : Dispatcher) : option (queuedRecord * state * Dispatcher) :=
  match retryReady, freshReady, d_preferRetry d with
  | true, true, true =>
      '(item, d) ← popRetryLocked d; Some (item, stateRetry, with_preferRetry d false)
  | true, true, false =>
      '(item, d) ← popFreshLocked d; Some (item, stateFresh, with_preferRetry d true)
  | true, false, _ => '(item, d) ← popRetryLocked d; Some (item, stateRetry, d)
  | false, true, _ => '(item, d) ← popFreshLocked d; Some (item, stateFresh, d)
  | false, false, _ => None
  end.

(** Leases [item] under [receipt]. *)
Definition lease (now : Z) (receipt : Receipt) (item : queuedRecord) (d : Dispatcher) : Dispatcher * Delivery :=
  let deadline := now + cfg_VisibilityTimeout (d_config d) in
  let d := if deadline <? d_expireAt d then with_expireAt d deadline else d in
  let d := with_lanes d (d_fresh d) (d_retries d)
             (<[receipt := {| fl_record := qr_record item; fl_receipt := receipt; fl_attempt := qr_attempt item;
                              fl_deadline := deadline |}]> (d_inFlight d))
             (<[r_Seq (qr_record item) := stateInFlight]> (d_states d)) in
  (with_stats d (add_Deliveries (d_stats d) 1),
   {| dl_Record := qr_record item; dl_Receipt := receipt; dl_Attempt := qr_attempt item; dl_Deadline := deadline |}).

Section take.
Context {Rng : Type} (newReceipt : Rng → res Receipt * Rng).

(** The loop of [takeLocked]; [remaining] is [count - len(deliveries)]. *)
Fixpoint take_loop (remaining : nat) (now : Z) (originalPreference : bool) (d : Dispatcher) (g : Rng)
    (deliveries : list Delivery) (selected : list selectedRecord) : Dispatcher * Rng * res (list Delivery) :=
  match remaining with
  | O => (d, g, Ok deliveries)
  | S remaining =>
      let retryReady := retry_ready now d in
      let freshReady := fresh_ready d in
      if negb retryReady && negb freshReady then (d, g, Ok deliveries)
      else
        match uniqueReceiptLocked newReceipt d g with
        | (Err e, g) =>
            (rollbackSelectionLocked d selected originalPreference, g, Err (Errorf "dispatch: create receipt: %w" [e]))
        | (Ok receipt, g) =>
            match select retryReady freshReady d with
            | None => (d, g, Ok deliveries)
            | Some (item, previousState, d) =>
                let '(d, delivery) := lease now receipt item d in
                take_loop remaining now originalPreference d g (deliveries ++ [delivery])
                  (selected ++ [{| sel_item := item; sel_previousState := previousState; sel_receipt := receipt |}])
            end
        end
  end.

Definition takeLocked (count now : Z) (d : Dispatcher) (g : Rng) : Dispatcher * Rng * res (list Delivery) :=
  let availableSlots := cfg_MaxInFlight (d_config d) - Z.of_nat (size (d_inFlight d)) in
  let count := if availableSlots <? count then availableSlots else count in
  take_loop (Z.to_nat count) now (d_preferRetry d) d g [] [].
End take.

(** ** Filling the fresh lane *)

(** The first critical section of [fillFresh]: [Some (from, free)] when it goes
    on to scan. *)
Definition fill_begin (d : Dispatcher) : Dispatcher * option (Z * Z) :=
  if d_closed d || d_scanDone d || d_scanEmpty d then (d, None)
  else
    let free := cfg_PrefetchCapacity (d_config d) - Z.of_nat (length (d_fresh d)) in
    if free <=? 0 then (d, None) else (with_scanEmpty d true, Some (d_cursor d, free)).

(** The body of the loop over the scanned records; [progress] is its variable. *)
Definition fill_one (d_progress : Dispatcher * bool) (record : StoreRecord) : Dispatcher * bool :=
  let '(d, progress) := d_progress in
  if r_Seq record <? d_cursor d then (d, progress)
  else
    let d := if r_Seq record =? max_uint64 then with_scanDone d true
             else with_cursor d (u64 (r_Seq record + 1)) in
    match d_states d !! r_Seq record with
    | Some _ => (with_stats d (add_DuplicateAttempts (d_stats d)), true)
    | None =>
        (with_lanes d
           (d_fresh d ++ [{| qr_record := record; qr_attempt := 1; qr_readyAt := zero_time; qr_index := 0 |}])
           (d_retries d) (d_inFlight d) (<[r_Seq record := stateFresh]> (d_states d)), true)
    end.

(** The critical section after the scan. *)
Definition fill_end (free : Z) (scanned : list StoreRecord * option goerr) (d : Dispatcher) : Dispatcher * res bool :=
  match scanned with
  | (_, Some e) => (with_scanEmpty d false, Err e)
  | (records, None) =>
      let d := if Z.of_nat (length records) =? free then with_scanEmpty d false else d in
      let '(d, progress) := foldl fill_one (d, false) records in (d, Ok progress)
  end.

(** [fillFresh] when nothing else runs between its critical sections. *)
Definition fillFresh (scan : Z → Z → list StoreRecord * option goerr) (d : Dispatcher) : Dispatcher * res bool :=
  match fill_begin d with
  | (d, None) => (d, Ok false)
  | (d, Some (from, free)) => fill_end free (scan from free) d
  end.

(** ** Reading *)

(** [IsZero] *)
Definition is_zero (t : Z) : bool := t =? zero_time.

Definition wake_one (wake : Z) (entry : Receipt * flight) : Z :=
  if is_zero wake || (fl_deadline entry.2 <? wake) then fl_deadline entry.2 else wake.

Definition nextWakeLocked (visits : list (Receipt * flight)) (d : Dispatcher) : Z :=
  let wake := match d_retries d with [] => zero_time | head :: _ => qr_readyAt head end in
  foldl wake_one wake visits.

(** How the critical section at the top of the loop of [Read] ends. *)
Inductive read_next : Type :=
| ReadReturn (r : res (list Delivery))
| ReadRefill
| ReadFill (wakeAt : Z).

(** The critical section at the top of the loop. [visits'] is the order of the
    second [range], in [nextWakeLocked]. *)
Definition read_top {Rng} (newReceipt : Rng → res Receipt * Rng) (env : Env) (visits' : list (Receipt * flight))
    (count : Z) (d : Dispatcher) (g : Rng) : Dispatcher * Rng * read_next :=
  if d_closed d then (d, g, ReadReturn (Err (Sentinel dispatch_ErrClosed)))
  else
    let now := e_now env in
    let d := expireLocked (e_visits env) now d in
    if bool_decide (d_fresh d = []) && negb (bool_decide (d_retries d = []))
       && (Z.of_nat (size (d_inFlight d)) <? cfg_MaxInFlight (d_config d))
       && negb (d_scanDone d) && negb (d_scanEmpty d)
    then (d, g, ReadRefill)
    else
      match takeLocked newReceipt count now d g with
      | (d, g, Err e) => (d, g, ReadReturn (Err e))
      | (d, g, Ok (delivery :: deliveries)) => (d, g, ReadReturn (Ok (delivery :: deliveries)))
      | (d, g, Ok []) =>
          let wakeAt := nextWakeLocked visits' d in
          let d := if (cfg_MaxInFlight (d_config d) <=? Z.of_nat (size (d_inFlight d)))
                      || (cfg_PrefetchCapacity (d_config d) <=? Z.of_nat (length (d_fresh d)))
                   then with_stats d (add_Backpressure (d_stats d)) else d in
          (d, g, ReadFill wakeAt)
      end.

(** What can end [wait]: the context, a token of the channel, the timer. *)
Inductive wait_event : Type :=
| WaitContext (e : goerr)
| WaitSignal
| WaitTimer.

(** [wait] at instant [now], ended by [ev]: [None] when [ev] cannot end it.
    A wake time that has passed returns before any of the channels is looked
    at; a zero wake time sets no timer. *)
Definition wait (now wakeAt : Z) (ev : wait_event) (d : Dispatcher) : option (Dispatcher * option goerr) :=
  if negb (is_zero wakeAt) && (wakeAt - now <=? 0) then
    match ev with WaitTimer => Some (d, None) | _ => None end
  else
    match ev with
    | WaitContext e => Some (d, Some e)
    | WaitSignal => if d_signal d then Some (with_signal d false, None) else None
    | WaitTimer => if is_zero wakeAt then None else Some (d, None)
    end.
