(* ===== verification/DispatchInv.v ===== *)
(** * The dispatcher's invariant

    Every tracked sequence is in exactly one lane, and [states] says which: the
    state map is, as a list of pairs, a permutation of the lanes.  The lemmas
    here are about the primitive moves between lanes; DispatchOps.v has the
    operations. *)
From S2P Require Import Prelude Errors Store Heap Backoff Dispatch.
#[local] Open Scope Z_scope.

(** ** Lanes *)

Definition fresh_entry (item : queuedRecord) : Z * state := (r_Seq (qr_record item), stateFresh).
Definition retry_entry (item : queuedRecord) : Z * state := (r_Seq (qr_record item), stateRetry).
Definition flight_entry (entry : Receipt * flight) : Z * state := (r_Seq (fl_record entry.2), stateInFlight).

Definition lanes (fresh : list queuedRecord) (retries : retryHeap) (inFlight : gmap Receipt flight) : list (Z * state) :=
  (fresh_entry <$> fresh) ++ (retry_entry <$> retries) ++ (flight_entry <$> map_to_list inFlight).

#[global] Arguments lanes : simpl never.

Record lanes_ok (d : Dispatcher) : Prop := {
  lanes_states : map_to_list (d_states d) ≡ₚ lanes (d_fresh d) (d_retries d) (d_inFlight d);
  lanes_heap : heap_ok (d_retries d);
  lanes_receipt receipt f : d_inFlight d !! receipt = Some f → fl_receipt f = receipt
}.

(** *** The state map as a list *)

Section states.
Implicit Types (m : gmap Z state) (rest : list (Z * state)).

Lemma states_of_list m k s rest :
  map_to_list m ≡ₚ (k, s) :: rest → k ∉ rest.*1 ∧ NoDup rest.*1 ∧ m = <[k := s]> (list_to_map rest).
Proof.
  intros H. pose proof (NoDup_fst_map_to_list m) as Hn. rewrite H in Hn. cbn in Hn.
  apply NoDup_cons in Hn as [Hk Hn]. split_and!; [done..|].
  rewrite <- (list_to_map_to_list m). trans (list_to_map ((k, s) :: rest) : gmap Z state); [|done].
  apply list_to_map_proper; [apply NoDup_fst_map_to_list|done].
Qed.

Lemma states_move m k s s' rest :
  map_to_list m ≡ₚ (k, s) :: rest → map_to_list (<[k := s']> m) ≡ₚ (k, s') :: rest.
Proof.
  intros (Hk & Hn & ->)%states_of_list. rewrite insert_insert_eq.
  change (<[k := s']> (list_to_map rest : gmap Z state)) with ((list_to_map ((k, s') :: rest)) : gmap Z state).
  apply map_to_list_to_map. by apply NoDup_cons.
Qed.

Lemma states_delete m k s rest :
  map_to_list m ≡ₚ (k, s) :: rest → map_to_list (delete k m) ≡ₚ rest.
Proof.
  intros (Hk & Hn & ->)%states_of_list. rewrite delete_insert_id by by apply not_elem_of_list_to_map_1.
  by apply map_to_list_to_map.
Qed.

Lemma states_lookup m k s rest : map_to_list m ≡ₚ (k, s) :: rest → m !! k = Some s.
Proof. intros (_ & _ & ->)%states_of_list. apply lookup_insert_eq. Qed.
End states.

(** *** Permutations of the lanes *)

Lemma lanes_fresh_cons item fresh retries inFlight :
  lanes (item :: fresh) retries inFlight = fresh_entry item :: lanes fresh retries inFlight.
Proof. done. Qed.

Lemma lanes_fresh_snoc item fresh retries inFlight :
  lanes (fresh ++ [item]) retries inFlight ≡ₚ fresh_entry item :: lanes fresh retries inFlight.
Proof. unfold lanes. rewrite fmap_app. cbn. rewrite <- app_assoc. cbn. by rewrite <- Permutation_middle. Qed.

Lemma retry_entries_perm (a b : retryHeap) :
  item_key <$> a ≡ₚ item_key <$> b → retry_entry <$> a ≡ₚ retry_entry <$> b.
Proof.
  intros H. assert (He : ∀ l : retryHeap, retry_entry <$> l = (λ k, (r_Seq k.1.1, stateRetry)) <$> (item_key <$> l)).
  { intros l. rewrite <- list_fmap_compose. by apply list_fmap_ext. }
  by rewrite !He, H.
Qed.

Lemma lanes_retries_perm fresh a b inFlight :
  item_key <$> a ≡ₚ item_key <$> b → lanes fresh a inFlight ≡ₚ lanes fresh b inFlight.
Proof. intros H. unfold lanes. by rewrite (retry_entries_perm a b H). Qed.

Lemma lanes_retries_cons fresh item a b inFlight :
  item_key <$> a ≡ₚ item_key item :: (item_key <$> b) →
  lanes fresh a inFlight ≡ₚ retry_entry item :: lanes fresh b inFlight.
Proof.
  intros H. rewrite (lanes_retries_perm fresh a (item :: b)) by done. unfold lanes. cbn.
  by rewrite <- Permutation_middle.
Qed.

Lemma lanes_inFlight_insert fresh retries inFlight receipt f :
  inFlight !! receipt = None →
  lanes fresh retries (<[receipt := f]> inFlight) ≡ₚ flight_entry (receipt, f) :: lanes fresh retries inFlight.
Proof.
  intros H. unfold lanes. rewrite map_to_list_insert by done. cbn.
  by rewrite <- !Permutation_middle.
Qed.

Lemma lanes_inFlight_delete fresh retries inFlight receipt f :
  inFlight !! receipt = Some f →
  lanes fresh retries inFlight ≡ₚ flight_entry (receipt, f) :: lanes fresh retries (delete receipt inFlight).
Proof.
  intros H. rewrite <- (lanes_inFlight_insert fresh retries (delete receipt inFlight) receipt f) by apply lookup_delete_eq.
  by rewrite insert_delete_id.
Qed.

(** Which lane a state names. *)
Lemma lanes_ok_flight d receipt f :
  lanes_ok d → d_inFlight d !! receipt = Some f → d_states d !! r_Seq (fl_record f) = Some stateInFlight.
Proof.
  intros [Hs _ _] Hf. eapply states_lookup. rewrite Hs. by apply (lanes_inFlight_delete _ _ _ receipt f).
Qed.

(** Two leases are never for the same record. *)
Lemma lanes_ok_flight_inj d r1 r2 f1 f2 :
  lanes_ok d → d_inFlight d !! r1 = Some f1 → d_inFlight d !! r2 = Some f2 →
  r_Seq (fl_record f1) = r_Seq (fl_record f2) → r1 = r2.
Proof.
  intros [Hs _ _] H1 H2 He. destruct (decide (r1 = r2)) as [|Hne]; [done|]. exfalso.
  rewrite (lanes_inFlight_delete _ _ _ r1 f1 H1) in Hs.
  rewrite (lanes_inFlight_delete _ _ _ r2 f2) in Hs by by rewrite lookup_delete_ne.
  destruct (states_of_list _ _ _ _ Hs) as [Hn _]. apply Hn. cbn. rewrite He. by left.
Qed.

(** *** The records in the lanes *)

Definition held (d : Dispatcher) (record : StoreRecord) : Prop :=
  record ∈ qr_record <$> d_fresh d
  ∨ record ∈ qr_record <$> d_retries d
  ∨ ∃ receipt f, d_inFlight d !! receipt = Some f ∧ fl_record f = record.

(** The record of a key of the retry lane. *)
Definition key_record (key : StoreRecord * Z * Z) : StoreRecord := key.1.1.

Lemma key_records (h : retryHeap) : key_record <$> (item_key <$> h) = qr_record <$> h.
Proof. rewrite <- list_fmap_compose. by apply list_fmap_ext. Qed.

Lemma perm_key_records (a : retryHeap) keys :
  item_key <$> a ≡ₚ keys → qr_record <$> a ≡ₚ key_record <$> keys.
Proof. intros H. by rewrite <- key_records, H. Qed.

(** What is in a lane is tracked. *)
Lemma held_state d record : lanes_ok d → held d record → is_Some (d_states d !! r_Seq record).
Proof.
  intros [Hs _ _] Hh.
  assert (Hin : ∃ s, (r_Seq record, s) ∈ lanes (d_fresh d) (d_retries d) (d_inFlight d)).
  { unfold lanes. destruct Hh as [(item & -> & Hin)%list_elem_of_fmap|[(item & -> & Hin)%list_elem_of_fmap|(r & f & Hf & <-)]].
    - exists stateFresh. rewrite !elem_of_app. left. by apply (list_elem_of_fmap_2 fresh_entry).
    - exists stateRetry. rewrite !elem_of_app. right; left. by apply (list_elem_of_fmap_2 retry_entry).
    - exists stateInFlight. rewrite !elem_of_app. right; right. apply elem_of_map_to_list in Hf.
      by apply (list_elem_of_fmap_2 flight_entry) in Hf. }
  destruct Hin as [s Hin]. exists s. apply elem_of_map_to_list. by rewrite Hs.
Qed.

(** Fewer items are held. *)
Lemma held_less d d' keys :
  d_fresh d' = d_fresh d → item_key <$> d_retries d' ≡ₚ keys →
  (∀ key, key ∈ keys → held d (key_record key)) →
  (∀ receipt f, d_inFlight d' !! receipt = Some f → held d (fl_record f)) →
  ∀ record, held d' record → held d record.
Proof.
  intros Hf Hr Hkeys Hif record [Hin|[Hin|(receipt & f & Hin & <-)]].
  - left. by rewrite <- Hf.
  - rewrite (perm_key_records _ _ Hr) in Hin. apply list_elem_of_fmap in Hin as (key & -> & Hin). by apply Hkeys.
  - by eapply Hif.
Qed.

Lemma held_retry_key d key : key ∈ item_key <$> d_retries d → held d (key_record key).
Proof. intros (item & -> & Hin)%list_elem_of_fmap. right; left. by apply (list_elem_of_fmap_2 qr_record). Qed.

Lemma held_flight d receipt f : d_inFlight d !! receipt = Some f → held d (fl_record f).
Proof. intros Hf. right; right. by exists receipt, f. Qed.

(** ** Moves *)

Definition retry_item (record : StoreRecord) (attempt readyAt : Z) : queuedRecord :=
  {| qr_record := record; qr_attempt := attempt; qr_readyAt := readyAt; qr_index := 0 |}.

(** A lease becomes a retry. *)
Lemma move_to_retry d receipt f attempt readyAt :
  lanes_ok d → d_inFlight d !! receipt = Some f →
  lanes_ok (with_lanes d (d_fresh d) (heap_Push (d_retries d) (retry_item (fl_record f) attempt readyAt))
              (delete receipt (d_inFlight d)) (<[r_Seq (fl_record f) := stateRetry]> (d_states d))).
Proof.
  intros [Hs Hh Hr] Hf. destruct (heap_Push_lemma (d_retries d) (retry_item (fl_record f) attempt readyAt) Hh) as [Hh' Hp].
  split; cbn.
  - rewrite (lanes_retries_cons _ (retry_item (fl_record f) attempt readyAt) _ (d_retries d)) by done.
    apply (states_move _ _ stateInFlight). rewrite Hs. by apply (lanes_inFlight_delete _ _ _ receipt f).
  - done.
  - intros r f' Hf'. apply lookup_delete_Some in Hf' as [_ ?]. auto.
Qed.

(** A lease is released. *)
Lemma move_release d receipt f :
  lanes_ok d → d_inFlight d !! receipt = Some f →
  lanes_ok (with_lanes d (d_fresh d) (d_retries d) (delete receipt (d_inFlight d))
              (delete (r_Seq (fl_record f)) (d_states d))).
Proof.
  intros [Hs Hh Hr] Hf. split; cbn.
  - apply (states_delete _ _ stateInFlight). rewrite Hs. by apply (lanes_inFlight_delete _ _ _ receipt f).
  - done.
  - intros r f' Hf'. apply lookup_delete_Some in Hf' as [_ ?]. auto.
Qed.

(** A lease is replaced by one for the same record. *)
Lemma move_replace d receipt f f' :
  lanes_ok d → d_inFlight d !! receipt = Some f →
  r_Seq (fl_record f') = r_Seq (fl_record f) → fl_receipt f' = receipt →
  lanes_ok (with_lanes d (d_fresh d) (d_retries d) (<[receipt := f']> (d_inFlight d)) (d_states d)).
Proof.
  intros [Hs Hh Hr] Hf Hseq Hrec. split; cbn.
  - rewrite Hs, (lanes_inFlight_delete _ _ _ receipt f) by done.
    rewrite <- insert_delete_eq, lanes_inFlight_insert by apply lookup_delete_eq.
    unfold flight_entry. cbn. by rewrite Hseq.
  - done.
  - intros r f'' Hf''. apply lookup_insert_Some in Hf'' as [[<- <-]|[_ ?]]; auto.
Qed.

(** A selected item: out of its lane, with the state it had there. *)
Record selected_from (d : Dispatcher) (item : queuedRecord) (previous : state) (d' : Dispatcher) : Prop := {
  sf_perm : lanes (d_fresh d) (d_retries d) (d_inFlight d)
            ≡ₚ (r_Seq (qr_record item), previous) :: lanes (d_fresh d') (d_retries d') (d_inFlight d');
  sf_heap : heap_ok (d_retries d');
  sf_inFlight : d_inFlight d' = d_inFlight d;
  sf_states : d_states d' = d_states d
}.

Lemma pop_fresh_spec d item d' :
  lanes_ok d → popFreshLocked d = Some (item, d') → selected_from d item stateFresh d'.
Proof.
  intros [Hs Hh Hr]. unfold popFreshLocked. destruct (d_fresh d) as [|i fresh] eqn:Hf; [done|].
  intros [= <- <-]. split; cbn; [by rewrite Hf|done..].
Qed.

Lemma pop_retry_spec d item d' :
  lanes_ok d → popRetryLocked d = Some (item, d') → selected_from d item stateRetry d'.
Proof.
  intros [Hs Hh Hr]. unfold popRetryLocked. destruct (d_retries d) as [|root rest] eqn:Hf; [done|].
  destruct (heap_Pop_lemma (root :: rest) root rest Hh eq_refl) as (i & h' & -> & Hh' & Hk & _ & Hp & _).
  intros [= <- <-]. split; cbn; [|done..]. rewrite Hf. by apply (lanes_retries_cons _ i).
Qed.

Lemma selected_prefer d item previous d' b :
  selected_from d item previous d' → selected_from d item previous (with_preferRetry d' b).
Proof. by intros []. Qed.

Lemma select_spec rr fr d item previous d' :
  lanes_ok d → select rr fr d = Some (item, previous, d') →
  selected_from d item previous d' ∧ (previous = stateFresh ∨ previous = stateRetry).
Proof.
  intros Hok. unfold select.
  destruct rr, fr, (d_preferRetry d); intros H; try done;
    first [ destruct (popRetryLocked d) as [[i d1]|] eqn:E; [|done]; apply pop_retry_spec in E; [|done]
          | destruct (popFreshLocked d) as [[i d1]|] eqn:E; [|done]; apply pop_fresh_spec in E; [|done] ];
    cbn in H; injection H as <- <- <-; split; auto using selected_prefer.
Qed.

(** A selected item becomes a lease. *)
Lemma move_to_flight d item previous d1 receipt now :
  lanes_ok d → selected_from d item previous d1 → d_inFlight d !! receipt = None →
  lanes_ok (lease now receipt item d1).1.
Proof.
  intros [Hs Hh Hr] [Hp Hh1 Hif Hst] Hnone. unfold lease. case_match; cbn; split; cbn; rewrite ?Hif, ?Hst.
  1,4: rewrite <- Hif, lanes_inFlight_insert by (by rewrite Hif);
    apply (states_move _ _ previous); by rewrite Hs, Hp.
  1,3: done.
  all: intros r f Hf; apply lookup_insert_Some in Hf as [[<- <-]|[_ ?]]; auto.
Qed.
