(* ===== verification/DispatchOps.v ===== *)
(** * The operations keep the invariant, and what each one does *)
From S2P Require Import Prelude Errors Store Heap Backoff Dispatch DispatchInv.
#[local] Open Scope Z_scope.

(** ** The invariant *)

Record bounds_ok (d : Dispatcher) : Prop := {
  bounds_inFlight : Z.of_nat (size (d_inFlight d)) ≤ cfg_MaxInFlight (d_config d);
  bounds_fresh : Z.of_nat (length (d_fresh d)) ≤ cfg_PrefetchCapacity (d_config d);
  bounds_tracked : Z.of_nat (length (d_retries d)) + Z.of_nat (size (d_inFlight d))
                   ≤ cfg_PrefetchCapacity (d_config d) + cfg_MaxInFlight (d_config d)
}.

(** The scan position: what is tracked was scanned. *)
Record scan_ok (d : Dispatcher) : Prop := {
  scan_cursor : 1 ≤ d_cursor d ≤ max_uint64;
  scan_tracked seq s : d_states d !! seq = Some s →
    is_u64 seq ∧ (seq < d_cursor d ∨ d_scanDone d = true ∧ seq = max_uint64)
}.

Definition expire_ok (d : Dispatcher) : Prop :=
  ∀ receipt f, d_inFlight d !! receipt = Some f → d_expireAt d ≤ fl_deadline f.

Record dispatch_inv (d : Dispatcher) : Prop := {
  inv_config : config_invalid (d_config d) = false;
  inv_lanes : lanes_ok d;
  inv_expire : expire_ok d;
  inv_bounds : bounds_ok d;
  inv_scan : scan_ok d
}.

Lemma config_bounds config :
  config_invalid config = false →
  0 < cfg_PrefetchCapacity config ∧ 0 < cfg_MaxInFlight config ∧ 0 < cfg_VisibilityTimeout config.
Proof. unfold config_invalid. intros Hc. repeat (apply orb_false_iff in Hc as [Hc ?]). zbool. lia. Qed.

(** What an operation that does not scan leaves alone. *)
Record frame (d d' : Dispatcher) : Prop := {
  frame_config : d_config d' = d_config d;
  frame_closed : d_closed d' = d_closed d;
  frame_cursor : d_cursor d' = d_cursor d;
  frame_scanDone : d_scanDone d' = d_scanDone d;
  frame_scanEmpty : d_scanEmpty d' = d_scanEmpty d;
  frame_states seq : is_Some (d_states d' !! seq) → is_Some (d_states d !! seq)
}.

#[global] Instance frame_refl : Reflexive frame.
Proof. by intros d. Qed.

#[global] Instance frame_trans : Transitive frame.
Proof. intros d1 d2 d3 [] []. split; try congruence. auto. Qed.

Lemma frame_scan d d' : frame d d' → scan_ok d → scan_ok d'.
Proof.
  intros [Hc _ Hcur Hdone _ Hst] [H1 H2]. split; [by rewrite Hcur|].
  intros seq s Hs. rewrite Hcur, Hdone. destruct (Hst seq) as [s' Hs']; [eauto|]. by eapply H2.
Qed.

Lemma frame_with_signal d x : frame d (with_signal d x).
Proof. done. Qed.
Lemma frame_with_stats d x : frame d (with_stats d x).
Proof. done. Qed.
Lemma frame_with_expireAt d x : frame d (with_expireAt d x).
Proof. done. Qed.
Lemma frame_with_preferRetry d x : frame d (with_preferRetry d x).
Proof. done. Qed.

Lemma frame_lanes d fresh retries inFlight states :
  (∀ seq, is_Some (states !! seq) → is_Some (d_states d !! seq)) →
  frame d (with_lanes d fresh retries inFlight states).
Proof. by split. Qed.

#[export] Hint Resolve frame_with_signal frame_with_stats frame_with_expireAt frame_with_preferRetry frame_refl : teak.

Lemma lanes_ok_ext d d' :
  d_fresh d' = d_fresh d → d_retries d' = d_retries d → d_inFlight d' = d_inFlight d → d_states d' = d_states d →
  lanes_ok d → lanes_ok d'.
Proof. intros H1 H2 H3 H4 [Hs Hh Hr]. by split; rewrite ?H1, ?H2, ?H3, ?H4. Qed.

(** A change of the fields the invariant does not look at. *)
Record same_lanes (d d' : Dispatcher) : Prop := {
  same_config : d_config d' = d_config d;
  same_cursor : d_cursor d' = d_cursor d;
  same_scanDone : d_scanDone d' = d_scanDone d;
  same_fresh : d_fresh d' = d_fresh d;
  same_retries : d_retries d' = d_retries d;
  same_inFlight : d_inFlight d' = d_inFlight d;
  same_states : d_states d' = d_states d;
  same_expireAt : d_expireAt d' = d_expireAt d
}.

Lemma same_lanes_inv d d' : same_lanes d d' → dispatch_inv d → dispatch_inv d'.
Proof.
  intros [H1 H2 H3 H4 H5 H6 H7 H8] [Hc Hl He [Hb1 Hb2 Hb3] [Hs1 Hs2]]. split.
  - by rewrite H1.
  - by eapply lanes_ok_ext.
  - intros r f Hf. rewrite H6 in Hf. rewrite H8. by eapply He.
  - split; by rewrite ?H1, ?H4, ?H5, ?H6.
  - split; [by rewrite H2|]. intros seq s. rewrite H7, H2, H3. apply Hs2.
Qed.

Ltac same_lanes := eapply same_lanes_inv; [by split|].

(** ** Expiry *)

Definition expired_item (now : Z) (f : flight) : queuedRecord :=
  retry_item (fl_record f) (nextAttempt (fl_attempt f)) now.

(** The records of the leases that are due. *)
Definition due_keys (now : Z) (visits : list (Receipt * flight)) : list (StoreRecord * Z * Z) :=
  omap (λ entry, if now <? fl_deadline entry.2 then None else Some (item_key (expired_item now entry.2))) visits.

Record swept (now : Z) (visits : list (Receipt * flight)) (d : Dispatcher) (earliest : Z)
    (d' : Dispatcher) (earliest' : Z) : Prop := {
  swept_lanes : lanes_ok d';
  swept_frame : frame d d';
  swept_fresh : d_fresh d' = d_fresh d;
  swept_prefer : d_preferRetry d' = d_preferRetry d;
  swept_signal : d_signal d' = d_signal d;
  swept_inFlight receipt f : d_inFlight d' !! receipt = Some f ↔
    d_inFlight d !! receipt = Some f ∧ ((receipt, f) ∈ visits → now < fl_deadline f);
  swept_retries : item_key <$> d_retries d' ≡ₚ due_keys now visits ++ (item_key <$> d_retries d);
  swept_size : (length (d_retries d') + size (d_inFlight d') = length (d_retries d) + size (d_inFlight d))%nat;
  swept_states seq : is_Some (d_states d' !! seq) ↔ is_Some (d_states d !! seq);
  swept_earliest : earliest' ≤ earliest ∧ ∀ receipt f, (receipt, f) ∈ visits → now < fl_deadline f → earliest' ≤ fl_deadline f
}.

Lemma length_heap_Push h item : heap_ok h → length (heap_Push h item) = S (length h).
Proof.
  intros H. destruct (heap_Push_lemma h item H) as [_ Hp]. apply Permutation_length in Hp.
  cbn in Hp. by rewrite !length_fmap in Hp.
Qed.

Lemma expire_fold now visits d earliest :
  lanes_ok d → NoDup visits.*1 → (∀ receipt f, (receipt, f) ∈ visits → d_inFlight d !! receipt = Some f) →
  swept now visits d earliest (foldl (expire_one now) (d, earliest) visits).1
                              (foldl (expire_one now) (d, earliest) visits).2.
Proof.
  revert d earliest. induction visits as [|[receipt f] visits IH]; intros d earliest Hok Hn Hv.
  { split; cbn; try done.
    - intros r g. split; [|tauto]. intros ?. split; [done|]. by intros ?%elem_of_nil.
    - split; [done|]. by intros r g ?%elem_of_nil. }
  cbn in Hn. apply NoDup_cons in Hn as [Hnin Hn].
  assert (Hf : d_inFlight d !! receipt = Some f) by (apply Hv; by left).
  assert (Hother : ∀ r g, (r, g) ∈ visits → r ≠ receipt).
  { intros r g Hin ->. apply Hnin. apply list_elem_of_fmap. by exists (receipt, g). }
  cbn [foldl expire_one]. destruct (now <? fl_deadline f) eqn:Hd; zbool.
  - set (e := if _ <? _ then _ else _).
    assert (He : e ≤ earliest ∧ e ≤ fl_deadline f) by (unfold e; case_match; zbool; lia).
    destruct (IH d e Hok Hn ltac:(intros; apply Hv; by right)) as [H1 H2 H3 H4 H5 H6 H7 H8 H9 [H10 H11]].
    split; try done.
    + intros r g. rewrite H6. rewrite elem_of_cons. split; [|tauto].
      intros [Hr Hg]. split; [done|]. intros [[= -> ->]|?]; auto.
    + rewrite H7. unfold due_keys. cbn. by rewrite (proj2 (Z.ltb_lt _ _) Hd).
    + split; [lia|]. intros r g [[= -> ->]|Hin]%elem_of_cons ?; [lia|by eapply H11].
  - set (d1 := with_stats _ _).
    assert (Hok1 : lanes_ok d1).
    { eapply lanes_ok_ext; [..|apply (move_to_retry d receipt f (nextAttempt (fl_attempt f)) now Hok Hf)]; done. }
    assert (Hst : ∀ seq, is_Some (d_states d1 !! seq) ↔ is_Some (d_states d !! seq)).
    { intros seq. cbn. rewrite lookup_insert. case_decide as Hs; [|done]. subst seq.
      by rewrite (lanes_ok_flight d receipt f Hok Hf). }
    destruct (IH d1 earliest Hok1 Hn) as [H1 H2 H3 H4 H5 H6 H7 H8 H9 [H10 H11]].
    { intros r g Hin. cbn. rewrite lookup_delete_ne by (symmetry; by eapply Hother). apply Hv. by right. }
    pose proof (lanes_heap _ Hok) as Hh.
    split; try done.
    + trans d1; [|done]. split; try done. intros seq. apply Hst.
    + intros r g. rewrite H6. cbn. rewrite lookup_delete_Some, elem_of_cons. split.
      * intros [[Hne Hr] Hg]. split; [done|]. intros [[= -> ->]|?]; [done|auto].
      * intros [Hr Hg]. split; [|auto]. split; [|done]. intros <-. rewrite Hf in Hr. injection Hr as <-.
        specialize (Hg ltac:(by left)). lia.
    + rewrite H7. unfold due_keys. cbn. rewrite (proj2 (Z.ltb_ge _ _) Hd). cbn.
      destruct (heap_Push_lemma (d_retries d) (expired_item now f) Hh) as [_ Hp].
      unfold expired_item, retry_item in Hp. rewrite Hp. by rewrite <- Permutation_middle.
    + rewrite H8. cbn. rewrite (length_heap_Push _ _ Hh), (size_delete_Some (d_inFlight d) receipt f Hf). lia.
    + intros seq. by rewrite H9, Hst.
    + split; [done|]. intros r g [[= -> ->]|Hin]%elem_of_cons ?; [lia|by eapply H11].
Qed.

(** The order in which [range] visits a map: each entry once. *)
Definition range_of (visits : list (Receipt * flight)) (d : Dispatcher) : Prop := visits ≡ₚ map_to_list (d_inFlight d).

Lemma range_of_elem visits d receipt f :
  range_of visits d → ((receipt, f) ∈ visits ↔ d_inFlight d !! receipt = Some f).
Proof. intros H. unfold range_of in H. by rewrite H, elem_of_map_to_list. Qed.

Lemma range_of_NoDup visits d : range_of visits d → NoDup visits.*1.
Proof. intros H. unfold range_of in H. rewrite H. apply NoDup_fst_map_to_list. Qed.

(** [expireLocked] without the watermark: what is due becomes ready to retry. *)
Record expires (now : Z) (d d' : Dispatcher) : Prop := {
  ex_inv : dispatch_inv d';
  ex_frame : frame d d';
  ex_fresh : d_fresh d' = d_fresh d;
  ex_prefer : d_preferRetry d' = d_preferRetry d;
  ex_signal : d_signal d' = d_signal d;
  ex_inFlight : d_inFlight d' = filter (λ entry, now < fl_deadline entry.2) (d_inFlight d);
  ex_retries : item_key <$> d_retries d' ≡ₚ
               due_keys now (map_to_list (d_inFlight d)) ++ (item_key <$> d_retries d);
  ex_size : (length (d_retries d') + size (d_inFlight d') = length (d_retries d) + size (d_inFlight d))%nat;
  ex_states seq : is_Some (d_states d' !! seq) ↔ is_Some (d_states d !! seq)
}.

Lemma held_due_key d now key : key ∈ due_keys now (map_to_list (d_inFlight d)) → held d (key_record key).
Proof.
  intros Hin. unfold due_keys in Hin. apply list_elem_of_omap in Hin as ([receipt f] & Hin & Hk). cbn in Hk.
  case_match; [done|]. injection Hk as <-. apply elem_of_map_to_list in Hin. by apply (held_flight d receipt).
Qed.

Lemma expires_held now d d' record : expires now d d' → held d' record → held d record.
Proof.
  intros [_ _ Hf _ _ Hi Hr _ _]. apply (held_less d d' _ Hf Hr).
  - intros key [?%held_due_key|?%held_retry_key]%elem_of_app; done.
  - intros receipt f. rewrite Hi. intros [Hf' _]%map_lookup_filter_Some. by eapply held_flight.
Qed.

Lemma due_keys_none now visits :
  (∀ receipt f, (receipt, f) ∈ visits → now < fl_deadline f) → due_keys now visits = [].
Proof.
  intros H. induction visits as [|[r f] visits IH]; [done|]. unfold due_keys. cbn.
  rewrite (proj2 (Z.ltb_lt _ _)) by (apply (H r); by left). apply IH. intros r' f' Hin. apply (H r'). by right.
Qed.

Lemma expireLocked_lemma visits now d :
  dispatch_inv d → range_of visits d → expires now d (expireLocked visits now d).
Proof.
  intros [Hc Hl He Hb Hs] Hv. unfold expireLocked. case_match eqn:Hnow; zbool.
  - assert (Hdue : ∀ receipt f, d_inFlight d !! receipt = Some f → now < fl_deadline f).
    { intros r f Hf. specialize (He r f Hf). lia. }
    split; try done.
    + rewrite map_filter_id; [done|]. intros r f Hf. by apply (Hdue r f).
    + rewrite due_keys_none; [done|]. intros r f Hin%elem_of_map_to_list. by eapply Hdue.
  - pose proof (expire_fold now visits d farFuture Hl (range_of_NoDup _ _ Hv)
      ltac:(intros r f; by apply range_of_elem)) as Hsw.
    destruct (foldl _ _ _) as [d1 earliest]. cbn in Hsw. destruct Hsw as [H1 H2 H3 H4 H5 H6 H7 H8 H9 [H10 H11]].
    assert (Hif : d_inFlight d1 = filter (λ entry, now < fl_deadline entry.2) (d_inFlight d)).
    { apply map_eq. intros r. apply option_eq. intros f. rewrite H6, map_lookup_filter_Some. cbn.
      rewrite (range_of_elem visits d r f Hv). tauto. }
    split; try done.
    + split; [by cbn; rewrite (frame_config _ _ H2)| | | |eapply (frame_scan d1); [apply frame_with_expireAt|by eapply frame_scan]].
      * by eapply lanes_ok_ext; [..|exact H1].
      * intros r f Hf. cbn in *. pose proof (proj1 (H6 r f) Hf) as [Hf' Hd].
        apply (H11 r f); [by apply (range_of_elem visits d)|]. apply Hd. by apply (range_of_elem visits d).
      * destruct Hb as [Hb1 Hb2 Hb3]. split; cbn; rewrite ?(frame_config _ _ H2), ?H3; [|done|lia].
        rewrite Hif. etrans; [|exact Hb1]. apply inj_le. rewrite <- !size_dom. apply subseteq_size.
        apply dom_filter_subseteq.
    + trans d1; [done|]. apply frame_with_expireAt.
    + cbn. rewrite H7. unfold due_keys. unfold range_of in Hv. by rewrite Hv.
Qed.

(** ** Receipts a caller presents *)

Definition matches (inFlight : gmap Receipt flight) (delivery : Delivery) (f : flight) : Prop :=
  inFlight !! dl_Receipt delivery = Some f
  ∧ r_Seq (fl_record f) = r_Seq (dl_Record delivery) ∧ fl_attempt f = dl_Attempt delivery.

(** Distinct receipts of live leases, for the records and attempts they name. *)
Definition valid_deliveries (inFlight : gmap Receipt flight) (deliveries : list Delivery) : Prop :=
  NoDup (dl_Receipt <$> deliveries) ∧ ∀ delivery, delivery ∈ deliveries → ∃ f, matches inFlight delivery f.

Definition delivered_seqs (deliveries : list Delivery) : list Z := (λ dl, r_Seq (dl_Record dl)) <$> deliveries.

Lemma validate_loop_spec inFlight seen deliveries :
  match validate_loop inFlight seen deliveries with
  | Ok seqs => seqs = delivered_seqs deliveries ∧ valid_deliveries inFlight deliveries
               ∧ ∀ delivery, delivery ∈ deliveries → dl_Receipt delivery ∉ seen
  | Err e => e = Sentinel dispatch_ErrStaleDelivery
             ∧ ¬ (valid_deliveries inFlight deliveries
                  ∧ ∀ delivery, delivery ∈ deliveries → dl_Receipt delivery ∉ seen)
  end.
Proof.
  revert seen. induction deliveries as [|dl ds IH]; intros seen; cbn [validate_loop].
  { split_and!; [done| |by intros ? ?%elem_of_nil]. split; [constructor|by intros ? ?%elem_of_nil]. }
  case_bool_decide as Hseen.
  { split; [done|]. intros [_ H]. by apply (H dl); [left|]. }
  destruct (inFlight !! dl_Receipt dl) as [f|] eqn:Hf.
  2: { split; [done|]. intros [[_ H] _]. destruct (H dl) as (f & Hm & _); [by left|congruence]. }
  destruct (negb _ || negb _) eqn:Hm.
  { split; [done|]. intros [[_ H] _]. destruct (H dl) as (f' & Hf' & Hs & Ha); [by left|].
    assert (f' = f) as -> by congruence. rewrite Hs, Ha, !Z.eqb_refl in Hm. discriminate Hm. }
  apply orb_false_iff in Hm as [Hs Ha]. zbool.
  specialize (IH ({[dl_Receipt dl]} ∪ seen)). destruct (validate_loop _ _ _) as [seqs|e]; cbn.
  - destruct IH as (-> & [Hn Hv] & Hd). split_and!; [by rewrite Hs| |].
    + split.
      * cbn. apply NoDup_cons. split; [|done]. intros (dl' & Heq & Hin)%list_elem_of_fmap.
        apply (Hd dl' Hin). rewrite <- Heq. set_solver.
      * intros dl' [->|Hin]%elem_of_cons; [by exists f|by apply Hv].
    + intros dl' [->|Hin]%elem_of_cons; [done|]. intros H. apply (Hd dl' Hin). set_solver.
  - destruct IH as [-> IH]. split; [done|]. intros [[Hn Hv] Hd]. apply IH. cbn in Hn. apply NoDup_cons in Hn as [Hnin Hn].
    split; [split; [done|]; intros dl' Hin; apply Hv; by right|]. intros dl' Hin.
    rewrite elem_of_union, elem_of_singleton. intros [Heq|Hs']; [|by eapply (Hd dl'); [right|]].
    apply Hnin. apply list_elem_of_fmap. by exists dl'.
Qed.

Lemma validateLocked_lemma d deliveries :
  match validateLocked d deliveries with
  | Ok seqs => seqs = delivered_seqs deliveries ∧ valid_deliveries (d_inFlight d) deliveries
  | Err e => e = Sentinel dispatch_ErrStaleDelivery ∧ ¬ valid_deliveries (d_inFlight d) deliveries
  end.
Proof.
  pose proof (validate_loop_spec (d_inFlight d) ∅ deliveries) as H. unfold validateLocked.
  destruct (validate_loop _ _ _); [tauto|]. destruct H as [-> H]. split; [done|]. intros Hv. apply H.
  split; [done|]. intros. apply not_elem_of_empty.
Qed.

Lemma valid_deliveries_cons inFlight dl ds :
  valid_deliveries inFlight (dl :: ds) →
  (∃ f, matches inFlight dl f) ∧ valid_deliveries inFlight ds ∧ dl_Receipt dl ∉ dl_Receipt <$> ds.
Proof.
  intros [Hn Hv]. cbn in Hn. apply NoDup_cons in Hn as [Hnin Hn]. split_and!; [apply Hv; by left| |done].
  split; [done|]. intros dl' Hin. apply Hv. by right.
Qed.

Lemma valid_deliveries_change inFlight inFlight' ds :
  (∀ r, r ∈ dl_Receipt <$> ds → inFlight' !! r = inFlight !! r) →
  valid_deliveries inFlight ds → valid_deliveries inFlight' ds.
Proof.
  intros Hr [Hn Hv]. split; [done|]. intros dl Hin. destruct (Hv dl Hin) as (f & Hf & Hm).
  exists f. split; [|done]. rewrite Hr; [done|]. by apply list_elem_of_fmap_2.
Qed.

(** *** A loop over valid deliveries *)

Section fold.
Context (step : Dispatcher → Delivery → Dispatcher).
Context (I : Dispatcher → Prop).
Context (R : Dispatcher → Dispatcher → Prop) `{!Reflexive R, !Transitive R}.
Context (step_ok : ∀ d dl f, I d → matches (d_inFlight d) dl f →
  I (step d dl) ∧ R d (step d dl) ∧ ∀ r, r ≠ dl_Receipt dl → d_inFlight (step d dl) !! r = d_inFlight d !! r).

Lemma fold_deliveries d ds :
  I d → valid_deliveries (d_inFlight d) ds →
  I (foldl step d ds) ∧ R d (foldl step d ds)
  ∧ ∀ r, r ∉ dl_Receipt <$> ds → d_inFlight (foldl step d ds) !! r = d_inFlight d !! r.
Proof.
  revert d. induction ds as [|dl ds IH]; intros d HI Hv; cbn [foldl]; [done|].
  apply valid_deliveries_cons in Hv as ([f Hf] & Hv & Hnin).
  destruct (step_ok d dl f HI Hf) as (HI' & HR & Hr).
  destruct (IH (step d dl) HI') as (HI2 & HR2 & Hr2).
  { eapply valid_deliveries_change; [|done]. intros r Hin. apply Hr. by intros ->. }
  split_and!; [done|by etrans|]. intros r Hin. cbn in Hin. rewrite not_elem_of_cons in Hin.
  rewrite Hr2, Hr; tauto.
Qed.
End fold.

(** ** Completing *)

Definition released (d d' : Dispatcher) : Prop :=
  frame d d' ∧ d_fresh d' = d_fresh d ∧ d_retries d' = d_retries d ∧ d_expireAt d' = d_expireAt d
  ∧ d_stats d' = d_stats d ∧ (size (d_inFlight d') ≤ size (d_inFlight d))%nat.

#[global] Instance released_refl : Reflexive released.
Proof. by intros d. Qed.
#[global] Instance released_trans : Transitive released.
Proof.
  intros a b c (F & ? & ? & ? & ? & ?) (F' & ? & ? & ? & ? & ?). split_and!; try congruence; [by trans b|lia].
Qed.

Lemma release_step d dl f :
  lanes_ok d ∧ expire_ok d → matches (d_inFlight d) dl f →
  (lanes_ok (release d dl) ∧ expire_ok (release d dl)) ∧ released d (release d dl)
  ∧ ∀ r, r ≠ dl_Receipt dl → d_inFlight (release d dl) !! r = d_inFlight d !! r.
Proof.
  intros [Hl He] (Hf & Hs & _). split_and!.
  - unfold release. rewrite <- Hs. by apply move_release.
  - intros r g. cbn. intros [_ Hg]%lookup_delete_Some. by eapply He.
  - split_and!; [|done..|cbn; rewrite (size_delete_Some (d_inFlight d) _ f Hf); lia].
    apply frame_lanes. intros seq [x Hx]. apply lookup_delete_Some in Hx as [_ Hx]. by eexists.
  - intros r Hr. cbn. by rewrite lookup_delete_ne.
Qed.

(** What the loop of [Commit] removes. *)
Lemma release_fold_lookup d ds :
  (∀ r, r ∈ dl_Receipt <$> ds → d_inFlight (foldl release d ds) !! r = None)
  ∧ ∀ seq, d_states (foldl release d ds) !! seq = if decide (seq ∈ delivered_seqs ds) then None else d_states d !! seq.
Proof.
  revert d. induction ds as [|dl ds IH]; intros d; cbn [foldl].
  { split; [by intros ? ?%elem_of_nil|]. intros seq. rewrite decide_False; [done|apply not_elem_of_nil]. }
  assert (Hm : ∀ ds d r, d_inFlight d !! r = None → d_inFlight (foldl release d ds) !! r = None).
  { clear. induction ds as [|dl ds IH]; intros d r Hr; [done|]. apply IH. cbn. rewrite lookup_delete. by case_decide. }
  destruct (IH (release d dl)) as [H1 H2]. split.
  - intros r [->|Hin]%elem_of_cons; [|by apply H1]. apply Hm. cbn. apply lookup_delete_eq.
  - intros seq. rewrite H2. cbn [delivered_seqs fmap list_fmap]. change (list_fmap _ _ _ ds) with (delivered_seqs ds).
    destruct (decide (seq ∈ delivered_seqs ds)) as [Hin|Hin]; [by rewrite decide_True by by right|]. cbn.
    rewrite lookup_delete. case_decide as Heq.
    + subst. by rewrite decide_True by by left.
    + rewrite decide_False; [done|]. rewrite elem_of_cons. intros [?|?]; [congruence|done].
Qed.

Lemma release_inv d ds :
  dispatch_inv d → valid_deliveries (d_inFlight d) ds →
  dispatch_inv (notifyLocked (foldl release d ds)) ∧ released d (foldl release d ds)
  ∧ ∀ r, r ∉ dl_Receipt <$> ds → d_inFlight (foldl release d ds) !! r = d_inFlight d !! r.
Proof.
  intros [Hc Hl He [Hb1 Hb2 Hb3] Hs] Hv.
  destruct (fold_deliveries release (λ d, lanes_ok d ∧ expire_ok d) released release_step d ds (conj Hl He) Hv)
    as ([Hl' He'] & Hrel & Hother).
  split_and!; [|done|done]. apply (same_lanes_inv (foldl release d ds)); [done|].
  destruct Hrel as (F & Hfr & Hre & _ & _ & Hsz). split; [by rewrite (frame_config _ _ F)|done|done| |by eapply frame_scan].
  split; rewrite (frame_config _ _ F), ?Hfr, ?Hre; lia.
Qed.

(** *** Retry *)

Section retry.
Context (out_of_range : float64 → Z) (now : Z).

Definition delay_of (d : Dispatcher) (attempt : Z) : Z :=
  retryDelay out_of_range (cfg_RetryInitial (d_config d)) (cfg_RetryMax (d_config d))
    (cfg_RetryMultiplier (d_config d)) attempt.

(** The item a lease becomes. *)
Definition retried (d : Dispatcher) (f : flight) : queuedRecord :=
  retry_item (fl_record f) (nextAttempt (fl_attempt f)) (now + delay_of d (fl_attempt f)).

Definition requeued (d d' : Dispatcher) : Prop :=
  frame d d' ∧ d_fresh d' = d_fresh d ∧ d_expireAt d' = d_expireAt d
  ∧ (length (d_retries d') + size (d_inFlight d') = length (d_retries d) + size (d_inFlight d))%nat
  ∧ (size (d_inFlight d') ≤ size (d_inFlight d))%nat
  ∧ (∀ record, held d' record → held d record)
  ∧ ∀ seq, is_Some (d_states d' !! seq) ↔ is_Some (d_states d !! seq).

#[local] Instance requeued_refl : Reflexive requeued.
Proof. by intros d. Qed.
#[local] Instance requeued_trans : Transitive requeued.
Proof.
  intros a b c (F & ? & ? & ? & ? & Hh & Hs) (F' & ? & ? & ? & ? & Hh' & Hs').
  split_and!; try congruence; try lia; [by trans b|by auto|]. intros seq. by rewrite Hs', Hs.
Qed.

Lemma retry_step d dl f :
  lanes_ok d ∧ expire_ok d → matches (d_inFlight d) dl f →
  (lanes_ok (retry_one out_of_range now d dl) ∧ expire_ok (retry_one out_of_range now d dl))
  ∧ requeued d (retry_one out_of_range now d dl)
  ∧ ∀ r, r ≠ dl_Receipt dl → d_inFlight (retry_one out_of_range now d dl) !! r = d_inFlight d !! r.
Proof.
  intros [Hl He] (Hf & Hs & _). unfold retry_one. rewrite Hf. cbn [default].
  assert (Hst : ∀ seq, is_Some (<[r_Seq (fl_record f):=stateRetry]> (d_states d) !! seq) ↔ is_Some (d_states d !! seq)).
  { intros seq. rewrite lookup_insert. case_decide as Heq; [|done]. subst seq.
    by rewrite (lanes_ok_flight d _ f Hl Hf). }
  split_and!.
  - eapply lanes_ok_ext; [..|apply (move_to_retry d _ f (nextAttempt (fl_attempt f)) (now + delay_of d (fl_attempt f)) Hl Hf)]; done.
  - intros r g. cbn. intros [_ Hg]%lookup_delete_Some. by eapply He.
  - split_and!; [|done|done|..|exact Hst].
    + split; try done. intros seq. apply Hst.
    + cbn. rewrite (length_heap_Push _ _ (lanes_heap _ Hl)), (size_delete_Some (d_inFlight d) _ f Hf). lia.
    + cbn. rewrite (size_delete_Some (d_inFlight d) _ f Hf). lia.
    + eapply held_less; [done|apply (heap_Push_lemma (d_retries d) _ (lanes_heap _ Hl))|..].
      * intros key [->|Hin]%elem_of_cons; [by apply (held_flight d _ f Hf)|by apply held_retry_key].
      * intros r g. cbn. intros [_ Hg]%lookup_delete_Some. by eapply held_flight.
  - intros r Hr. cbn. by rewrite lookup_delete_ne.
Qed.

(** The retry lane after the loop of [Retry]. *)
Fixpoint retried_keys (d : Dispatcher) (ds : list Delivery) : list (StoreRecord * Z * Z) :=
  match ds with
  | [] => []
  | dl :: ds =>
      match d_inFlight d !! dl_Receipt dl with
      | Some f => item_key (retried d f) :: retried_keys d ds
      | None => retried_keys d ds
      end
  end.

Lemma retried_keys_step d dl ds :
  dl_Receipt dl ∉ dl_Receipt <$> ds → retried_keys (retry_one out_of_range now d dl) ds = retried_keys d ds.
Proof.
  induction ds as [|dl' ds IH]; intros Hnin; [done|]. cbn in Hnin.
  rewrite not_elem_of_cons in Hnin. destruct Hnin as [Hne Hnin]. cbn [retried_keys].
  rewrite IH by done. unfold retry_one at 1. cbn. by rewrite lookup_delete_ne by done.
Qed.

Lemma retry_fold_keys d ds :
  lanes_ok d ∧ expire_ok d → valid_deliveries (d_inFlight d) ds →
  item_key <$> d_retries (foldl (retry_one out_of_range now) d ds) ≡ₚ
    reverse (retried_keys d ds) ++ (item_key <$> d_retries d)
  ∧ ∀ r, r ∈ dl_Receipt <$> ds → d_inFlight (foldl (retry_one out_of_range now) d ds) !! r = None.
Proof.
  revert d. induction ds as [|dl ds IH]; intros d HI Hv; cbn [foldl].
  { split; [done|by intros ? ?%elem_of_nil]. }
  apply valid_deliveries_cons in Hv as ([f Hf] & Hv & Hnin).
  destruct (retry_step d dl f HI Hf) as (HI' & _ & Hr). pose proof HI as [Hl _].
  assert (Hv' : valid_deliveries (d_inFlight (retry_one out_of_range now d dl)) ds).
  { eapply valid_deliveries_change; [|done]. intros r Hin. apply Hr. by intros ->. }
  destruct (IH _ HI' Hv') as [H1 H2]. split.
  - rewrite H1, retried_keys_step by done. cbn [retried_keys]. destruct Hf as (Hf & _).
    rewrite Hf. rewrite reverse_cons, <- app_assoc. f_equiv. unfold retry_one. rewrite Hf. cbn.
    destruct (heap_Push_lemma (d_retries d) (retried d f) (lanes_heap _ Hl)) as [_ Hp]. exact Hp.
  - intros r [->|Hin]%elem_of_cons; [|by apply H2].
    destruct (fold_deliveries (retry_one out_of_range now) (λ d, lanes_ok d ∧ expire_ok d) requeued retry_step
      _ ds HI' Hv') as (_ & _ & Hother). rewrite Hother by done. cbn. apply lookup_delete_eq.
Qed.

Lemma retry_inv d ds :
  dispatch_inv d → valid_deliveries (d_inFlight d) ds →
  dispatch_inv (notifyLocked (foldl (retry_one out_of_range now) d ds))
  ∧ requeued d (foldl (retry_one out_of_range now) d ds)
  ∧ ∀ r, r ∉ dl_Receipt <$> ds → d_inFlight (foldl (retry_one out_of_range now) d ds) !! r = d_inFlight d !! r.
Proof.
  intros [Hc Hl He [Hb1 Hb2 Hb3] Hs] Hv.
  destruct (fold_deliveries (retry_one out_of_range now) (λ d, lanes_ok d ∧ expire_ok d) requeued retry_step
    d ds (conj Hl He) Hv) as ([Hl' He'] & Hrel & Hother).
  split_and!; [|done|done]. apply (same_lanes_inv (foldl (retry_one out_of_range now) d ds)); [done|].
  destruct Hrel as (F & Hfr & _ & Hsz & Hle & _ & _).
  split; [by rewrite (frame_config _ _ F)|done|done| |by eapply frame_scan].
  split; rewrite (frame_config _ _ F), ?Hfr; lia.
Qed.
End retry.

(** *** Extend *)

Definition extended (d d' : Dispatcher) : Prop :=
  frame d d' ∧ d_fresh d' = d_fresh d ∧ d_retries d' = d_retries d ∧ d_expireAt d' = d_expireAt d
  ∧ d_states d' = d_states d ∧ size (d_inFlight d') = size (d_inFlight d)
  ∧ ∀ record, held d' record → held d record.

#[global] Instance extended_refl : Reflexive extended.
Proof. by intros d. Qed.
#[global] Instance extended_trans : Transitive extended.
Proof.
  intros a b c (F & ? & ? & ? & ? & ? & ?) (F' & ? & ? & ? & ? & ? & ?). split_and!; try congruence; [by trans b|by auto].
Qed.

Definition extend_flight (extension : Z) (f : flight) : flight :=
  {| fl_record := fl_record f; fl_receipt := fl_receipt f; fl_attempt := fl_attempt f;
     fl_deadline := fl_deadline f + extension |}.

Lemma extend_step extension d dl f :
  0 < extension → lanes_ok d ∧ expire_ok d → matches (d_inFlight d) dl f →
  (lanes_ok (extend_one extension d dl) ∧ expire_ok (extend_one extension d dl))
  ∧ extended d (extend_one extension d dl)
  ∧ ∀ r, r ≠ dl_Receipt dl → d_inFlight (extend_one extension d dl) !! r = d_inFlight d !! r.
Proof.
  intros Hx [Hl He] (Hf & Hs & _). unfold extend_one. rewrite Hf. cbn [default].
  split_and!; try done.
  - apply (move_replace d _ f (extend_flight extension f) Hl Hf); [done|]. exact (lanes_receipt _ Hl _ _ Hf).
  - intros r g. cbn. intros [[<- <-]|[_ Hg]]%lookup_insert_Some; [|by eapply He]. cbn.
    specialize (He _ _ Hf). lia.
  - split_and!; try done; [cbn; by rewrite map_size_insert_Some|].
    eapply held_less; [done..|intros key; apply (held_retry_key d)|].
    intros r g. cbn. intros [[<- <-]|[_ Hg]]%lookup_insert_Some; [by apply (held_flight d _ f Hf)|by eapply held_flight].
  - intros r Hr. cbn. by rewrite lookup_insert_ne.
Qed.

Lemma extend_fold_lookup extension d ds r f :
  0 < extension → lanes_ok d ∧ expire_ok d → valid_deliveries (d_inFlight d) ds →
  r ∈ dl_Receipt <$> ds → d_inFlight d !! r = Some f →
  d_inFlight (foldl (extend_one extension) d ds) !! r = Some (extend_flight extension f).
Proof.
  intros Hx. revert d. induction ds as [|dl ds IH]; intros d HI Hv Hin Hf; [by apply elem_of_nil in Hin|].
  apply valid_deliveries_cons in Hv as ([g Hg] & Hv & Hnin).
  destruct (extend_step extension d dl g Hx HI Hg) as (HI' & _ & Hr).
  assert (Hv' : valid_deliveries (d_inFlight (extend_one extension d dl)) ds).
  { eapply valid_deliveries_change; [|done]. intros r' Hin'. apply Hr. by intros ->. }
  cbn [foldl]. apply elem_of_cons in Hin as [->|Hin].
  - destruct (fold_deliveries (extend_one extension) (λ d, lanes_ok d ∧ expire_ok d) extended
      (λ d dl f, extend_step extension d dl f Hx) _ ds HI' Hv') as (_ & _ & Hother).
    rewrite Hother by done. unfold extend_one. rewrite Hf. cbn. apply lookup_insert_eq.
  - apply IH; [done..|]. rewrite Hr; [done|]. by intros ->.
Qed.

Lemma extend_inv extension d ds :
  0 < extension → dispatch_inv d → valid_deliveries (d_inFlight d) ds →
  dispatch_inv (notifyLocked (foldl (extend_one extension) d ds)) ∧ extended d (foldl (extend_one extension) d ds)
  ∧ ∀ r, r ∉ dl_Receipt <$> ds → d_inFlight (foldl (extend_one extension) d ds) !! r = d_inFlight d !! r.
Proof.
  intros Hx [Hc Hl He [Hb1 Hb2 Hb3] Hs] Hv.
  destruct (fold_deliveries (extend_one extension) (λ d, lanes_ok d ∧ expire_ok d) extended
    (λ d dl f, extend_step extension d dl f Hx) d ds (conj Hl He) Hv) as ([Hl' He'] & Hrel & Hother).
  split_and!; [|done|done]. apply (same_lanes_inv (foldl (extend_one extension) d ds)); [done|].
  destruct Hrel as (F & Hfr & Hre & _ & _ & Hsz & _).
  split; [by rewrite (frame_config _ _ F)|done|done| |by eapply frame_scan].
  split; rewrite (frame_config _ _ F), ?Hfr, ?Hre, ?Hsz; done.
Qed.
