(* ===== verification/DispatchTake.v ===== *)
(** * Leasing records: takeLocked and its rollback *)
From S2P Require Import Prelude Errors Store Heap Backoff Dispatch DispatchInv DispatchOps.
#[local] Open Scope Z_scope.

(** ** Receipts *)

Section receipts.
Context {Rng : Type} (newReceipt : Rng → res Receipt * Rng).

(** A receipt that is handed out is not the receipt of a live lease. *)
Lemma unique_loop_fresh n inFlight g receipt g' :
  unique_loop newReceipt n inFlight g = (Ok receipt, g') → inFlight !! receipt = None.
Proof.
  revert g. induction n as [|n IH]; intros g; cbn [unique_loop]; [done|].
  destruct (newReceipt g) as [[r|e] g1]; [|done]. destruct (inFlight !! r) eqn:E; [apply IH|].
  by intros [= <- <-].
Qed.

Lemma uniqueReceipt_fresh d g receipt g' :
  uniqueReceiptLocked newReceipt d g = (Ok receipt, g') → d_inFlight d !! receipt = None.
Proof. apply unique_loop_fresh. Qed.
End receipts.

(** ** Selecting *)

(** The fields a selection does not touch. *)
Record untouched (d d' : Dispatcher) : Prop := {
  un_config : d_config d' = d_config d;
  un_closed : d_closed d' = d_closed d;
  un_cursor : d_cursor d' = d_cursor d;
  un_scanDone : d_scanDone d' = d_scanDone d;
  un_scanEmpty : d_scanEmpty d' = d_scanEmpty d;
  un_signal : d_signal d' = d_signal d
}.

#[global] Instance untouched_refl : Reflexive untouched.
Proof. by intros d. Qed.
#[global] Instance untouched_trans : Transitive untouched.
Proof. intros a b c [] []. split; congruence. Qed.
#[global] Instance untouched_sym : Symmetric untouched.
Proof. intros a b []. by split. Qed.

Record selects (rr fr : bool) (d : Dispatcher) (item : queuedRecord) (previous : state) (d' : Dispatcher) : Prop := {
  se_from : selected_from d item previous d';
  se_untouched : untouched d d';
  se_stats : d_stats d' = d_stats d;
  se_expireAt : d_expireAt d' = d_expireAt d;
  se_lane :
    (previous = stateFresh ∧ fr = true ∧ d_fresh d = item :: d_fresh d' ∧ d_retries d' = d_retries d)
    ∨ (previous = stateRetry ∧ rr = true ∧ d_fresh d' = d_fresh d
       ∧ item_key <$> d_retries d ≡ₚ item_key item :: (item_key <$> d_retries d')
       ∧ ∃ root, hd_error (d_retries d) = Some root ∧ item_key item = item_key root);
  se_prefer : if rr && fr then d_preferRetry d' = negb (d_preferRetry d)
                              ∧ previous = (if d_preferRetry d then stateRetry else stateFresh)
              else d_preferRetry d' = d_preferRetry d
}.

Lemma pop_fresh_lane d item d' :
  popFreshLocked d = Some (item, d') → d_fresh d = item :: d_fresh d' ∧ d_retries d' = d_retries d
  ∧ untouched d d' ∧ d_stats d' = d_stats d ∧ d_expireAt d' = d_expireAt d ∧ d_preferRetry d' = d_preferRetry d.
Proof. unfold popFreshLocked. destruct (d_fresh d); [done|]. by intros [= <- <-]. Qed.

Lemma pop_retry_lane d item d' :
  heap_ok (d_retries d) →
  popRetryLocked d = Some (item, d') → d_fresh d' = d_fresh d
  ∧ item_key <$> d_retries d ≡ₚ item_key item :: (item_key <$> d_retries d')
  ∧ (∃ root, hd_error (d_retries d) = Some root ∧ item_key item = item_key root)
  ∧ untouched d d' ∧ d_stats d' = d_stats d ∧ d_expireAt d' = d_expireAt d ∧ d_preferRetry d' = d_preferRetry d.
Proof.
  intros Hh. unfold popRetryLocked. destruct (d_retries d) as [|root rest] eqn:Hr; [done|].
  destruct (heap_Pop_lemma _ root rest Hh eq_refl) as (i & h' & -> & _ & Hk & _ & Hp & _).
  intros [= <- <-]. split_and!; try done. by exists root.
Qed.

Lemma select_lemma rr fr d item previous d' :
  lanes_ok d → select rr fr d = Some (item, previous, d') → selects rr fr d item previous d'.
Proof.
  intros Hok. unfold select.
  destruct rr, fr, (d_preferRetry d) eqn:Hpref; intros H; try done;
    first
      [ destruct (popRetryLocked d) as [[i d1]|] eqn:E; [|done];
        pose proof (pop_retry_spec _ _ _ Hok E) as Hf;
        apply (pop_retry_lane _ _ _ (lanes_heap _ Hok)) in E as (H1 & H2 & H3 & [] & H4 & H5 & H6)
      | destruct (popFreshLocked d) as [[i d1]|] eqn:E; [|done];
        pose proof (pop_fresh_spec _ _ _ Hok E) as Hf; apply pop_fresh_lane in E as (H1 & H2 & [] & H3 & H4 & H5) ];
    cbn in H; injection H as <- <- <-;
    (split; [by auto using selected_prefer|by split|done|done| |cbn; rewrite ?Hpref; try congruence; done]);
    first [ left; by split_and! | right; by split_and! ].
Qed.

(** Something is selected when a lane is ready. *)
Lemma select_Some now d :
  retry_ready now d || fresh_ready d = true → heap_ok (d_retries d) →
  is_Some (select (retry_ready now d) (fresh_ready d) d).
Proof.
  intros Hr Hh.
  assert (H1 : retry_ready now d = true → is_Some (popRetryLocked d)).
  { unfold retry_ready, popRetryLocked. destruct (d_retries d) as [|root rest]; [done|]. intros _.
    destruct (heap_Pop_lemma _ root rest Hh eq_refl) as (i & h' & -> & _). by eexists. }
  assert (H2 : fresh_ready d = true → is_Some (popFreshLocked d)).
  { unfold fresh_ready, popFreshLocked. destruct (d_fresh d); [done|]. by eexists. }
  unfold select. destruct (retry_ready now d), (fresh_ready d), (d_preferRetry d); try done;
    first [ destruct (H1 eq_refl) as [[i d1] ->] | destruct (H2 eq_refl) as [[i d1] ->] ]; by eexists.
Qed.

(** The root of the heap is ready when the lane is, so what is popped is. *)
Lemma select_ready now fr d item d' :
  selects (retry_ready now d) fr d item stateRetry d' → qr_readyAt item ≤ now.
Proof.
  intros H. destruct (se_lane _ _ _ _ _ _ H) as [(? & _)|(_ & Hr & _ & _ & head & Hh & Hk)]; [done|].
  unfold retry_ready in Hr. destruct (d_retries d) as [|root rest]; [done|]. cbn in Hh.
  injection Hh as ->. zbool. injection Hk as _ _ Hk. lia.
Qed.

(** ** Leasing one record *)

Definition flight_of (delivery : Delivery) : flight :=
  {| fl_record := dl_Record delivery; fl_receipt := dl_Receipt delivery; fl_attempt := dl_Attempt delivery;
     fl_deadline := dl_Deadline delivery |}.

Record leased (now : Z) (d : Dispatcher) (receipt : Receipt) (item : queuedRecord) (d' : Dispatcher) (delivery : Delivery) : Prop := {
  le_delivery : delivery = {| dl_Record := qr_record item; dl_Receipt := receipt; dl_Attempt := qr_attempt item;
                              dl_Deadline := now + cfg_VisibilityTimeout (d_config d) |};
  le_untouched : untouched d d';
  le_prefer : d_preferRetry d' = d_preferRetry d;
  le_fresh : d_fresh d' = d_fresh d;
  le_retries : d_retries d' = d_retries d;
  le_inFlight : d_inFlight d' = <[receipt := flight_of delivery]> (d_inFlight d);
  le_states : d_states d' = <[r_Seq (qr_record item) := stateInFlight]> (d_states d);
  le_stats : d_stats d' = add_Deliveries (d_stats d) 1;
  le_expireAt : d_expireAt d' = Z.min (d_expireAt d) (now + cfg_VisibilityTimeout (d_config d))
}.

Lemma lease_spec now receipt item d :
  leased now d receipt item (lease now receipt item d).1 (lease now receipt item d).2.
Proof. unfold lease. case_match eqn:E; zbool; split; try done; cbn; lia. Qed.

(** ** Rolling back *)

(** The dispatcher up to the arrangement of the heap, the preference, the
    counters and the watermark. *)
Record restored (d d' : Dispatcher) : Prop := {
  re_untouched : untouched d d';
  re_fresh : d_fresh d' = d_fresh d;
  re_retries : item_key <$> d_retries d' ≡ₚ item_key <$> d_retries d;
  re_heap : heap_ok (d_retries d) ↔ heap_ok (d_retries d');
  re_inFlight : d_inFlight d' = d_inFlight d;
  re_states : d_states d' = d_states d
}.

#[global] Instance restored_equiv : Equivalence restored.
Proof.
  split.
  - by intros d.
  - intros a b []. split; try done; by symmetry.
  - intros a b c [] []. split; try congruence; [by trans b|by etrans|tauto].
Qed.

Lemma rollback_one_restored s d d' :
  heap_ok (d_retries d) → restored d d' → restored (rollback_one d s) (rollback_one d' s) ∧ heap_ok (d_retries (rollback_one d s)).
Proof.
  intros Hh [[] Hf Hp Hho Hi Hs]. pose proof (proj1 Hho Hh) as Hh'.
  unfold rollback_one. destruct (sel_previousState s); cbn.
  - split; [|done]. split; cbn; [done|by rewrite Hf|done|done|by rewrite Hi|by rewrite Hs].
  - destruct (heap_Push_lemma (d_retries d) (sel_item s) Hh) as [H1 H2].
    destruct (heap_Push_lemma (d_retries d') (sel_item s) Hh') as [H3 H4].
    split; [|done]. split; cbn; [done|done|by rewrite H2, H4, Hp|done|by rewrite Hi|by rewrite Hs].
  - split; [|done]. split; cbn; [done|by rewrite Hf|done|done|by rewrite Hi|by rewrite Hs].
Qed.

Lemma rollback_fold_restored sel d d' :
  heap_ok (d_retries d) → restored d d' →
  restored (foldl rollback_one d sel) (foldl rollback_one d' sel) ∧ heap_ok (d_retries (foldl rollback_one d sel)).
Proof.
  revert d d'. induction sel as [|s sel IH]; intros d d' Hh Hr; [done|]. cbn [foldl].
  destruct (rollback_one_restored s d d' Hh Hr). by apply IH.
Qed.

(** Undoing a lease directly after taking it. *)
Lemma rollback_lease now rr fr d item previous d1 receipt d2 delivery :
  lanes_ok d → selects rr fr d item previous d1 → d_inFlight d !! receipt = None →
  leased now d1 receipt item d2 delivery →
  restored d (rollback_one d2 {| sel_item := item; sel_previousState := previous; sel_receipt := receipt |}).
Proof.
  intros Hok Hsel Hnone [_ Hun2 _ Hf2 Hr2 Hi2 Hs2 _ _]. destruct Hsel as [Hfrom Hun1 _ _ Hlane _].
  pose proof Hfrom as [Hperm Hh1 Hi1 Hs1].
  assert (Hst : d_states d !! r_Seq (qr_record item) = Some previous).
  { eapply states_lookup. by rewrite (lanes_states _ Hok). }
  assert (Hstates : <[r_Seq (qr_record item) := previous]> (d_states d2) = d_states d).
  { rewrite Hs2, insert_insert_eq, Hs1. by apply insert_id. }
  assert (Hif : delete receipt (d_inFlight d2) = d_inFlight d).
  { by rewrite Hi2, delete_insert_id, Hi1 by by rewrite Hi1. }
  assert (Hun : untouched d d2) by by trans d1.
  destruct Hlane as [(-> & _ & Hfr & Hre)|(-> & _ & Hfr & Hp & _)]; unfold rollback_one; cbn.
  - split; cbn; [by destruct Hun|by rewrite Hf2|by rewrite Hr2, Hre|by rewrite Hr2, Hre|done|done].
  - destruct (heap_Push_lemma (d_retries d2) item) as [H1 H2]; [by rewrite Hr2|].
    split; cbn; [by destruct Hun|by rewrite Hf2|by rewrite H2, Hr2, Hp|split; [done|intros; apply Hok]|done|done].
Qed.

(** ** The loop *)

(** What [takeLocked] has done after some rounds, from [d0]. *)
Record took (now : Z) (d0 d : Dispatcher) (ds : list Delivery) (sel : list selectedRecord) : Prop := {
  tk_lanes : lanes_ok d;
  tk_untouched : untouched d0 d;
  tk_rollback : restored d0 (foldl rollback_one d (rev sel));
  tk_length : length sel = length ds;
  tk_stats : is_u64 (st_Deliveries (d_stats d0)) → d_stats d = add_Deliveries (d_stats d0) (Z.of_nat (length ds));
  tk_expire : expire_ok d;
  tk_expireAt : d_expireAt d ≤ d_expireAt d0;
  tk_size : size (d_inFlight d) = (size (d_inFlight d0) + length ds)%nat;
  tk_lanes_size : (length (d_fresh d) ≤ length (d_fresh d0))%nat;
  tk_tracked : Z.of_nat (length (d_retries d)) + Z.of_nat (size (d_inFlight d))
               ≤ cfg_PrefetchCapacity (d_config d) + cfg_MaxInFlight (d_config d);
  tk_same seq s : d_states d !! seq = Some s → s ≠ stateInFlight → d_states d0 !! seq = Some s;
  tk_states seq : is_Some (d_states d !! seq) ↔ is_Some (d_states d0 !! seq);
  tk_subset : d_inFlight d0 ⊆ d_inFlight d;
  tk_delivered dl : dl ∈ ds →
    d_inFlight d !! dl_Receipt dl = Some (flight_of dl) ∧ d_inFlight d0 !! dl_Receipt dl = None
    ∧ dl_Deadline dl = now + cfg_VisibilityTimeout (d_config d0)
    ∧ (d_states d0 !! r_Seq (dl_Record dl) = Some stateFresh ∨ d_states d0 !! r_Seq (dl_Record dl) = Some stateRetry);
  tk_receipts : NoDup (dl_Receipt <$> ds);
  tk_held record : held d record → held d0 record
}.

Lemma took_start now d :
  lanes_ok d → expire_ok d → bounds_ok d → took now d d [] [].
Proof.
  intros Hl He [_ _ Hb]. split; try done.
  - intros Hu. unfold add_Deliveries. cbn. rewrite Z.add_0_r, u64_id by done. by destruct (d_stats d).
  - by intros ? ?%elem_of_nil.
  - constructor.
Qed.

(** A record that is leased was in the lane it was selected from. *)
Lemma selected_held rr fr d item previous d1 receipt now d2 delivery record :
  selects rr fr d item previous d1 → leased now d1 receipt item d2 delivery → held d2 record → held d record.
Proof.
  intros [Hfrom _ _ _ Hlane _] [Hd _ _ Hf2 Hr2 Hi2 _ _ _].
  assert (Hitem : held d (qr_record item)).
  { destruct Hlane as [(_ & _ & Hf & _)|(_ & _ & _ & Hp & _)]; [left; rewrite Hf; by left|].
    apply (held_retry_key d (item_key item)). rewrite Hp. by left. }
  unfold held at 1. rewrite Hf2, Hr2, Hi2, (sf_inFlight _ _ _ _ Hfrom). intros [Hin|[Hin|(r & f & Hin & <-)]].
  - left. destruct Hlane as [(_ & _ & -> & _)|(_ & _ & <- & _)]; [by right|done].
  - right; left. destruct Hlane as [(_ & _ & _ & <-)|(_ & _ & _ & Hp & _)]; [done|].
    rewrite (perm_key_records _ _ Hp). cbn. right. by rewrite key_records.
  - apply lookup_insert_Some in Hin as [[_ <-]|[_ Hin]]; [by rewrite Hd|by eapply held_flight].
Qed.

Lemma length_perm_keys (a b : retryHeap) item :
  item_key <$> a ≡ₚ item_key item :: (item_key <$> b) → length a = S (length b).
Proof. intros H%Permutation_length. cbn in H. by rewrite !length_fmap in H. Qed.

(** The clauses of [took] about the deliveries and the tracked records, one round later. *)
Lemma took_delivered now d0 d ds sel item previous d1 receipt d2 delivery :
  took now d0 d ds sel →
  selects (retry_ready now d) (fresh_ready d) d item previous d1 → d_inFlight d !! receipt = None →
  leased now d1 receipt item d2 delivery →
  ∀ dl, dl ∈ ds ++ [delivery] →
    d_inFlight d2 !! dl_Receipt dl = Some (flight_of dl) ∧ d_inFlight d0 !! dl_Receipt dl = None
    ∧ dl_Deadline dl = now + cfg_VisibilityTimeout (d_config d0)
    ∧ (d_states d0 !! r_Seq (dl_Record dl) = Some stateFresh ∨ d_states d0 !! r_Seq (dl_Record dl) = Some stateRetry).
Proof.
  intros Htk [[Hperm _ Hi1 _] Hun1 _ _ Hlane _] Hnone [Hd _ _ _ _ Hi2 _ _ _].
  assert (Hconf : d_config d1 = d_config d0).
  { rewrite (un_config _ _ Hun1). apply (un_config _ _ (tk_untouched _ _ _ _ _ Htk)). }
  assert (Hprev : d_states d !! r_Seq (qr_record item) = Some previous).
  { eapply states_lookup. by rewrite (lanes_states _ (tk_lanes _ _ _ _ _ Htk)). }
  intros dl [Hin| ->%list_elem_of_singleton]%elem_of_app.
  - destruct (tk_delivered _ _ _ _ _ Htk dl Hin) as (H1 & H2 & H3 & H4). split_and!; [|done..].
    rewrite Hi2, Hi1, lookup_insert_ne; [done|]. intros ->. congruence.
  - rewrite Hi2, Hd. cbn. split_and!.
    + apply lookup_insert_eq.
    + apply eq_None_not_Some. intros [f Hf]. eapply lookup_weaken in Hf; [|exact (tk_subset _ _ _ _ _ Htk)]. congruence.
    + by rewrite Hconf.
    + destruct Hlane as [(-> & _)|(-> & _)]; [left|right]; by eapply (tk_same _ _ _ _ _ Htk).
Qed.

Lemma took_lengths now d0 d ds sel item previous d1 receipt d2 delivery :
  took now d0 d ds sel →
  selects (retry_ready now d) (fresh_ready d) d item previous d1 →
  leased now d1 receipt item d2 delivery → size (d_inFlight d2) = S (size (d_inFlight d)) →
  (length (d_fresh d2) ≤ length (d_fresh d0))%nat
  ∧ Z.of_nat (length (d_retries d2)) + Z.of_nat (size (d_inFlight d2))
    ≤ cfg_PrefetchCapacity (d_config d2) + cfg_MaxInFlight (d_config d2).
Proof.
  intros Htk [_ Hun1 _ _ Hlane _] [_ Hun2 _ Hf2 Hr2 _ _ _ _] Hsize2.
  pose proof (tk_lanes_size _ _ _ _ _ Htk) as Hfsz. pose proof (tk_tracked _ _ _ _ _ Htk) as Htr. split.
  - rewrite Hf2. destruct Hlane as [(_ & _ & Hfr & _)|(_ & _ & Hfr & _)]; [rewrite Hfr in Hfsz; cbn in Hfsz; lia|by rewrite Hfr].
  - rewrite Hr2, Hsize2, (un_config _ _ Hun2), (un_config _ _ Hun1).
    destruct Hlane as [(_ & Hfr & _ & Hre)|(_ & _ & _ & Hp & _)].
    + rewrite Hre. unfold fresh_ready in Hfr. zbool.
      pose proof (i64_le (cfg_PrefetchCapacity (d_config d) + cfg_MaxInFlight (d_config d)) ltac:(lia)). lia.
    + apply length_perm_keys in Hp. lia.
Qed.

Lemma took_step now d0 d ds sel item previous d1 receipt d2 delivery :
  0 < cfg_VisibilityTimeout (d_config d0) →
  took now d0 d ds sel →
  selects (retry_ready now d) (fresh_ready d) d item previous d1 → d_inFlight d !! receipt = None →
  leased now d1 receipt item d2 delivery →
  took now d0 d2 (ds ++ [delivery])
    (sel ++ [{| sel_item := item; sel_previousState := previous; sel_receipt := receipt |}]).
Proof.
  intros Hvis Htk Hsel Hnone Hle. pose proof (λ record, selected_held _ _ _ _ _ _ _ _ _ _ record Hsel Hle) as Hheld'.
  pose proof (rollback_lease _ _ _ _ _ _ _ _ _ _ (tk_lanes _ _ _ _ _ Htk) Hsel Hnone Hle) as Hrb.
  pose proof (took_delivered _ _ _ _ _ _ _ _ _ _ _ Htk Hsel Hnone Hle) as Hdel'.
  pose proof (took_lengths _ _ _ _ _ _ _ _ _ _ _ Htk Hsel Hle) as Hlens.
  destruct Htk as [Hl Hun Hroll Hlen Hstats Hex Hexa Hsz Hfsz Htr Hsame Hst Hsub Hdel Hrec Hheld].
  assert (Hl2 : lanes_ok d2).
  { pose proof (move_to_flight d item previous d1 receipt now Hl (se_from _ _ _ _ _ _ Hsel) Hnone) as H.
    pose proof (lease_spec now receipt item d1) as Hls. destruct Hle, Hls. eapply lanes_ok_ext; [..|exact H]; congruence. }
  pose proof (lanes_heap _ Hl2) as Hh2.
  destruct Hle as [Hd Hun2 Hpr2 Hf2 Hr2 Hi2 Hs2 Hst2 He2]. destruct Hsel as [[Hperm Hh1 Hi1 Hs1] Hun1 Hst1 He1 Hlane _].
  assert (Hprev : d_states d !! r_Seq (qr_record item) = Some previous).
  { eapply states_lookup. by rewrite (lanes_states _ Hl). }
  assert (Hsize2 : size (d_inFlight d2) = S (size (d_inFlight d))).
  { rewrite Hi2, Hi1. by apply map_size_insert_None. }
  split.
  - done.
  - trans d; [done|]. by trans d1.
  - rewrite rev_app_distr. cbn [rev app foldl]. etrans; [exact Hroll|].
    by apply rollback_fold_restored; [apply Hl|].
  - rewrite !length_app, Hlen. done.
  - intros Hu. rewrite Hst2, Hst1, Hstats by done. unfold add_Deliveries, u64. cbn. rewrite length_app. cbn. f_equal. zmod.
  - intros r f. rewrite Hi2, Hi1, lookup_insert_Some. intros [[<- <-]|[_ Hf]]; rewrite He2.
    + rewrite Hd. cbn. lia.
    + specialize (Hex r f Hf). rewrite He1. lia.
  - rewrite He2, He1. lia.
  - rewrite Hsize2, Hsz, length_app. cbn. lia.
  - by apply Hlens.
  - by apply Hlens.
  - intros seq s. rewrite Hs2, Hs1, lookup_insert. case_decide; [congruence|]. apply Hsame.
  - intros seq. rewrite <- Hst, Hs2, Hs1, lookup_insert. case_decide as Heq; [|done]. subst seq. by rewrite Hprev.
  - rewrite Hi2, Hi1. etrans; [exact Hsub|]. by apply insert_subseteq.
  - done.
  - rewrite fmap_app. cbn. apply NoDup_app. split_and!; [done| |apply NoDup_singleton].
    intros r Hr ->%list_elem_of_singleton. apply list_elem_of_fmap in Hr as (dl & Heq & Hin).
    destruct (Hdel dl Hin) as (H1 & _). rewrite <- Heq, Hd in H1. cbn in H1. congruence.
  - by auto.
Qed.

Lemma rollback_fold_frame sel d :
  d_stats (foldl rollback_one d sel) = d_stats d ∧ d_expireAt (foldl rollback_one d sel) = d_expireAt d.
Proof.
  revert d. induction sel as [|s sel IH]; intros d; [done|]. cbn [foldl]. destruct (IH (rollback_one d s)) as [-> ->].
  unfold rollback_one. by destruct (sel_previousState s).
Qed.

(** A selection that is undone. *)
Record undone (d d' : Dispatcher) : Prop := {
  ud_restored : restored d d';
  ud_prefer : d_preferRetry d' = d_preferRetry d;
  ud_stats : is_u64 (st_Deliveries (d_stats d)) → d_stats d' = d_stats d;
  ud_expireAt : d_expireAt d' ≤ d_expireAt d
}.

Lemma took_undo now d0 d ds sel :
  took now d0 d ds sel → undone d0 (rollbackSelectionLocked d sel (d_preferRetry d0)).
Proof.
  intros H. unfold rollbackSelectionLocked. destruct (rollback_fold_frame (rev sel) d) as [Hst He].
  pose proof (tk_rollback _ _ _ _ _ H) as [[] Hf Hp Hh Hi Hs]. split.
  - by split; [split|..].
  - done.
  - intros Hu. cbn. rewrite Hst, (tk_stats _ _ _ _ _ H Hu), (tk_length _ _ _ _ _ H).
    unfold add_Deliveries. cbn. destruct (d_stats d0). cbn in *. f_equal. unfold is_u64, u64 in *. zmod.
  - cbn. rewrite He. apply (tk_expireAt _ _ _ _ _ H).
Qed.

Lemma undone_inv d d' : dispatch_inv d → undone d d' → dispatch_inv d'.
Proof.
  intros [Hc Hl He [Hb1 Hb2 Hb3] [Hs1 Hs2]] [[[] Hf Hp Hh Hi Hs] _ _ Hex]. split.
  - congruence.
  - split; [by rewrite Hs, Hf, Hi, (lanes_retries_perm _ _ _ _ Hp), (lanes_states _ Hl)|by apply Hh, Hl|].
    intros r f. rewrite Hi. apply (lanes_receipt _ Hl).
  - intros r f. rewrite Hi. intros Hr. specialize (He r f Hr). lia.
  - apply Permutation_length in Hp. rewrite !length_fmap in Hp. split; congruence.
  - split; [congruence|]. intros seq s. rewrite Hs. rewrite un_cursor0, un_scanDone0. apply Hs2.
Qed.

Lemma took_inv now d0 d ds sel :
  dispatch_inv d0 → took now d0 d ds sel →
  Z.of_nat (size (d_inFlight d0)) + Z.of_nat (length ds) ≤ cfg_MaxInFlight (d_config d0) → dispatch_inv d.
Proof.
  intros [Hc Hl He [Hb1 Hb2 Hb3] [Hs1 Hs2]] H Hle. pose proof (tk_untouched _ _ _ _ _ H) as [].
  pose proof (tk_size _ _ _ _ _ H). pose proof (tk_lanes_size _ _ _ _ _ H). split.
  - congruence.
  - apply H.
  - apply H.
  - split; [rewrite un_config0; lia|rewrite un_config0; lia|apply H].
  - split; [congruence|]. intros seq s Hs. destruct (proj1 (tk_states _ _ _ _ _ H seq)) as [s' Hs']; [eauto|].
    rewrite un_cursor0, un_scanDone0. by eapply Hs2.
Qed.

Section loop.
Context {Rng : Type} (newReceipt : Rng → res Receipt * Rng).

(** The error of a receipt that could not be made, as it leaves [takeLocked]. *)
Definition receipt_error (e : goerr) : Prop :=
  ∃ d g cause, (uniqueReceiptLocked newReceipt d g).1 = Err cause ∧ e = Errorf "dispatch: create receipt: %w" [cause].

(** How [takeLocked] ends. *)
Definition take_result (now : Z) (d0 : Dispatcher) (limit : nat) (out : Dispatcher * Rng * res (list Delivery)) : Prop :=
  match out with
  | (d, _, Ok ds) =>
      (∃ sel, took now d0 d ds sel) ∧ (length ds ≤ limit)%nat
      ∧ ((length ds < limit)%nat → retry_ready now d = false ∧ fresh_ready d = false)
  | (d, _, Err e) => undone d0 d ∧ receipt_error e
  end.

Lemma take_loop_lemma remaining now d0 d g ds sel :
  0 < cfg_VisibilityTimeout (d_config d0) → took now d0 d ds sel →
  take_result now d0 (length ds + remaining) (take_loop newReceipt remaining now (d_preferRetry d0) d g ds sel).
Proof.
  intros Hvis. revert d g ds sel. induction remaining as [|remaining IH]; intros d g ds sel Htk; cbn [take_loop].
  { split_and!; [by exists sel|lia|lia]. }
  destruct (negb (retry_ready now d) && negb (fresh_ready d)) eqn:Hready.
  { apply andb_true_iff in Hready as [H1 H2]. zbool. split_and!; [by exists sel|lia|done]. }
  pose proof (tk_lanes _ _ _ _ _ Htk) as Hl.
  destruct (uniqueReceiptLocked newReceipt d g) as [[receipt|e] g'] eqn:Hu.
  2: { split; [by eapply took_undo|]. exists d, g, e. by rewrite Hu. }
  apply uniqueReceipt_fresh in Hu.
  destruct (select_Some now d) as [[[item previous] d1] Hsel]; [|apply Hl|].
  { apply andb_false_iff in Hready as [?%negb_false_iff|?%negb_false_iff]; apply orb_true_iff; auto. }
  rewrite Hsel. apply select_lemma in Hsel; [|done].
  rewrite (surjective_pairing (lease now receipt item d1)).
  pose proof (took_step now d0 d ds sel item previous d1 receipt _ _ Hvis Htk Hsel Hu (lease_spec now receipt item d1)) as Hstep.
  specialize (IH _ g' _ _ Hstep). rewrite length_app in IH. cbn [length] in IH.
  replace (length ds + S remaining)%nat with (length ds + 1 + remaining)%nat by lia. exact IH.
Qed.

(** The number of leases a call may take. *)
Definition take_limit (count : Z) (d : Dispatcher) : nat :=
  Z.to_nat (Z.min count (cfg_MaxInFlight (d_config d) - Z.of_nat (size (d_inFlight d)))).

Lemma takeLocked_lemma count now d g :
  dispatch_inv d →
  take_result now d (take_limit count d) (takeLocked newReceipt count now d g)
  ∧ dispatch_inv (takeLocked newReceipt count now d g).1.1.
Proof.
  intros Hinv. pose proof Hinv as [Hc Hl He Hb Hs].
  destruct (config_bounds _ Hc) as (_ & _ & Hvis).
  assert (H : take_result now d (take_limit count d) (takeLocked newReceipt count now d g)).
  { unfold takeLocked, take_limit.
    replace (if _ <? count then _ else _) with
      (Z.min count (cfg_MaxInFlight (d_config d) - Z.of_nat (size (d_inFlight d)))) by (case_match; zbool; lia).
    by apply (take_loop_lemma _ now d d g [] [] Hvis), took_start. }
  split; [done|]. destruct (takeLocked _ _ _ _ _) as [[d' g'] [ds|e]]; cbn in H |- *.
  - destruct H as ([sel Htk] & Hlen & _). eapply took_inv; [done..|]. unfold take_limit in Hlen.
    pose proof (bounds_inFlight _ Hb). lia.
  - by eapply undone_inv; [|apply H].
Qed.
End loop.

(** ** Alternation *)

Section alternate.
Context {Rng : Type} (newReceipt : Rng → res Receipt * Rng).

Lemma take_loop_prefix remaining now pref d g ds sel :
  match take_loop newReceipt remaining now pref d g ds sel with
  | (_, _, Ok ds') => ds `prefix_of` ds'
  | _ => True
  end.
Proof.
  revert d g ds sel. induction remaining as [|remaining IH]; intros d g ds sel; cbn [take_loop]; [done|].
  destruct (negb _ && negb _); [done|]. destruct (uniqueReceiptLocked newReceipt d g) as [[receipt|e] g']; [|done].
  destruct (select _ _ d) as [[[item previous] d1]|]; [|done].
  rewrite (surjective_pairing (lease now receipt item d1)).
  specialize (IH (lease now receipt item d1).1 g' (ds ++ [(lease now receipt item d1).2])
    (sel ++ [{| sel_item := item; sel_previousState := previous; sel_receipt := receipt |}])).
  destruct (take_loop _ _ _ _ _ _ _ _) as [[d2 g2] [ds'|e]]; [|done]. etrans; [|exact IH]. by eexists.
Qed.

(** One round of the loop. *)
Lemma take_loop_round remaining now pref d g ds sel :
  lanes_ok d → retry_ready now d || fresh_ready d = true →
  (∃ receipt item previous d1 g',
     d_inFlight d !! receipt = None
     ∧ selects (retry_ready now d) (fresh_ready d) d item previous d1
     ∧ take_loop newReceipt (S remaining) now pref d g ds sel
       = take_loop newReceipt remaining now pref (lease now receipt item d1).1 g' (ds ++ [(lease now receipt item d1).2])
           (sel ++ [{| sel_item := item; sel_previousState := previous; sel_receipt := receipt |}]))
  ∨ ∃ e, (take_loop newReceipt (S remaining) now pref d g ds sel).2 = Err e.
Proof.
  intros Hl Hr. cbn [take_loop].
  assert (negb (retry_ready now d) && negb (fresh_ready d) = false) as -> by (by destruct (retry_ready now d), (fresh_ready d)).
  destruct (uniqueReceiptLocked newReceipt d g) as [[receipt|e] g'] eqn:Hu; [left|right; by eexists].
  apply uniqueReceipt_fresh in Hu.
  destruct (select_Some now d Hr (lanes_heap _ Hl)) as [[[item previous] d1] Hsel]. rewrite Hsel.
  apply select_lemma in Hsel; [|done].
  exists receipt, item, previous, d1, g'. split_and!; [done|done|].
  by rewrite (surjective_pairing (lease now receipt item d1)).
Qed.

(** The lane of the second of two records, when the first left both lanes ready
    or only the other one. *)
Lemma second_lane now d d1 d2 item previous receipt delivery :
  selects true true d item previous d1 → leased now d1 receipt item d2 delivery → d_inFlight d !! receipt = None →
  retry_ready now d = true → fresh_ready d = true →
  (if d_preferRetry d then fresh_ready d2 = true else retry_ready now d2 = true)
  ∧ d_preferRetry d2 = negb (d_preferRetry d).
Proof.
  intros Hsel [_ Hun2 Hp2 Hf2 Hr2 Hi2 _ _ _] Hnone Hrr Hfr. pose proof (se_prefer _ _ _ _ _ _ Hsel) as [Hp1 Hprev].
  split; [|by rewrite Hp2].
  destruct (se_lane _ _ _ _ _ _ Hsel) as [(-> & _ & Hfresh & Hret)|(-> & _ & Hfresh & Hret & _)];
    destruct (d_preferRetry d); try done.
  - unfold retry_ready in *. by rewrite Hr2, Hret.
  - unfold fresh_ready in *. zbool. rewrite Hf2, Hfresh, Hr2, (un_config _ _ Hun2), (un_config _ _ (se_untouched _ _ _ _ _ _ Hsel)).
    rewrite Hi2, (sf_inFlight _ _ _ _ (se_from _ _ _ _ _ _ Hsel)), map_size_insert_None by done.
    apply length_perm_keys in Hret. apply andb_true_iff. split; [by rewrite negb_true_iff|]. apply Z.ltb_lt. lia.
Qed.

(** The second round takes the other lane when that lane is ready. *)
Lemma second_previous rr fr d item previous d' :
  selects rr fr d item previous d' → (if d_preferRetry d then rr else fr) = true →
  previous = if d_preferRetry d then stateRetry else stateFresh.
Proof.
  intros Hsel Hready. pose proof (se_prefer _ _ _ _ _ _ Hsel) as H. pose proof (se_lane _ _ _ _ _ _ Hsel) as L.
  destruct (d_preferRetry d); rewrite Hready in H, L.
  - destruct fr; cbn in H; [by destruct H|]. by destruct L as [(_ & ? & _)|(? & _)].
  - destruct rr; cbn in H; [by destruct H|]. by destruct L as [(? & _)|(_ & ? & _)].
Qed.

Lemma takeLocked_alternates count now d g :
  dispatch_inv d → retry_ready now d = true → fresh_ready d = true →
  2 ≤ count → Z.of_nat (size (d_inFlight d)) + 2 ≤ cfg_MaxInFlight (d_config d) →
  match takeLocked newReceipt count now d g with
  | (_, _, Ok ds) => ∃ a b rest, ds = a :: b :: rest ∧
      if d_preferRetry d
      then d_states d !! r_Seq (dl_Record a) = Some stateRetry ∧ d_states d !! r_Seq (dl_Record b) = Some stateFresh
      else d_states d !! r_Seq (dl_Record a) = Some stateFresh ∧ d_states d !! r_Seq (dl_Record b) = Some stateRetry
  | (_, _, Err _) => True
  end.
Proof.
  intros Hinv Hrr Hfr Hcount Hslots. pose proof Hinv as [Hc Hl He Hb Hs].
  destruct (config_bounds _ Hc) as (_ & _ & Hvis).
  unfold takeLocked. set (limit := if _ <? count then _ else _).
  assert (Hn : ∃ n, Z.to_nat limit = S (S n)).
  { exists (Z.to_nat (limit - 2)). assert (2 ≤ limit) by (unfold limit; case_match; zbool; lia). lia. }
  destruct Hn as [n ->].
  destruct (take_loop_round (S n) now (d_preferRetry d) d g [] [] Hl) as [(r1 & i1 & p1 & d1 & g1 & Hn1 & Hs1 & ->)|[e He1]].
  { by rewrite Hrr. }
  2: { destruct (take_loop _ (S (S n)) _ _ _ _ _ _) as [[? ?] [?|?]]; by cbn in He1. }
  pose proof (lease_spec now r1 i1 d1) as Hle1.
  pose proof (took_step now d d [] [] i1 p1 d1 r1 _ _ Hvis (took_start now d Hl He Hb) Hs1 Hn1 Hle1) as Htk.
  rewrite Hrr, Hfr in Hs1. destruct (second_lane now d d1 _ i1 p1 r1 _ Hs1 Hle1 Hn1 Hrr Hfr) as [Hlane Hpref].
  set (d2 := (lease now r1 i1 d1).1) in *. pose proof (tk_lanes _ _ _ _ _ Htk) as Hl2.
  destruct (take_loop_round n now (d_preferRetry d) d2 g1 ([] ++ [(lease now r1 i1 d1).2])
    ([] ++ [{| sel_item := i1; sel_previousState := p1; sel_receipt := r1 |}]) Hl2)
    as [(r2 & i2 & p2 & d3 & g2 & Hn2 & Hs2 & ->)|[e He2]].
  { destruct (d_preferRetry d); rewrite Hlane; [apply orb_true_r|done]. }
  2: { destruct (take_loop _ (S n) _ _ _ _ _ _) as [[? ?] [?|?]]; by cbn in He2. }
  pose proof (lease_spec now r2 i2 d3) as Hle2. cbn [app].
  pose proof (take_loop_prefix n now (d_preferRetry d) (lease now r2 i2 d3).1 g2
    [(lease now r1 i1 d1).2; (lease now r2 i2 d3).2]
    [{| sel_item := i1; sel_previousState := p1; sel_receipt := r1 |}; {| sel_item := i2; sel_previousState := p2; sel_receipt := r2 |}]) as Hpre.
  destruct (take_loop _ _ _ _ _ _ _ _) as [[d4 g4] [ds|e]]; [|done]. destruct Hpre as [rest ->].
  exists (lease now r1 i1 d1).2, (lease now r2 i2 d3).2, rest. split; [done|].
  assert (Ha : d_states d !! r_Seq (dl_Record (lease now r1 i1 d1).2) = Some p1).
  { rewrite (le_delivery _ _ _ _ _ _ Hle1). cbn. eapply states_lookup.
    rewrite (lanes_states _ Hl). apply (sf_perm _ _ _ _ (se_from _ _ _ _ _ _ Hs1)). }
  assert (Hp2 : p2 = if d_preferRetry d then stateFresh else stateRetry).
  { rewrite (second_previous _ _ _ _ _ _ Hs2); rewrite Hpref; by destruct (d_preferRetry d). }
  assert (Hb2 : d_states d !! r_Seq (dl_Record (lease now r2 i2 d3).2) = Some p2).
  { rewrite (le_delivery _ _ _ _ _ _ Hle2). cbn. eapply (tk_same _ _ _ _ _ Htk).
    - eapply states_lookup. rewrite (lanes_states _ Hl2). apply (sf_perm _ _ _ _ (se_from _ _ _ _ _ _ Hs2)).
    - rewrite Hp2. by destruct (d_preferRetry d). }
  rewrite Ha, Hb2, Hp2. destruct (se_prefer _ _ _ _ _ _ Hs1) as [_ ->]. by destruct (d_preferRetry d).
Qed.
End alternate.
