(* ===== verification/DispatchFill.v ===== *)
(** * Filling the fresh lane: fillFresh *)
From S2P Require Import Prelude Errors Store Heap Backoff Dispatch DispatchInv DispatchOps.
From S2P Require Import DispatchTake.
#[local] Open Scope Z_scope.

(** The records of a page: in sequence order, each sequence a [uint64] from one. *)
Definition page_ok (records : list StoreRecord) : Prop :=
  StronglySorted (λ a b, r_Seq a < r_Seq b) records
  ∧ ∀ record, record ∈ records → 1 ≤ r_Seq record ≤ max_uint64.

(** Scanned: below the cursor, or anything once the last sequence was scanned. *)
Definition scanned (d : Dispatcher) (seq : Z) : Prop := seq < d_cursor d ∨ d_scanDone d = true.

(** The items the loop appends to the fresh lane. *)
Definition fresh_item (record : StoreRecord) : queuedRecord :=
  {| qr_record := record; qr_attempt := 1; qr_readyAt := zero_time; qr_index := 0 |}.

Definition new_records (d : Dispatcher) (records : list StoreRecord) : list StoreRecord :=
  filter (λ record, d_cursor d ≤ r_Seq record) records.

Record filled (d : Dispatcher) (records : list StoreRecord) (d' : Dispatcher) : Prop := {
  fi_lanes : lanes_ok d';
  fi_scan : scan_ok d';
  fi_config : d_config d' = d_config d;
  fi_closed : d_closed d' = d_closed d;
  fi_scanEmpty : d_scanEmpty d' = d_scanEmpty d;
  fi_prefer : d_preferRetry d' = d_preferRetry d;
  fi_signal : d_signal d' = d_signal d;
  fi_expireAt : d_expireAt d' = d_expireAt d;
  fi_stats : d_stats d' = d_stats d;
  fi_fresh : d_fresh d' = d_fresh d ++ (fresh_item <$> new_records d records);
  fi_retries : d_retries d' = d_retries d;
  fi_inFlight : d_inFlight d' = d_inFlight d;
  fi_states seq : d_states d' !! seq =
    if decide (seq ∈ r_Seq <$> new_records d records) then Some stateFresh else d_states d !! seq;
  fi_scanned seq : seq ≤ max_uint64 → scanned d' seq ↔
    scanned d seq ∨ ∃ record, record ∈ new_records d records ∧ seq ≤ r_Seq record
}.

Lemma filled_held d records d' record :
  filled d records d' → held d' record → held d record ∨ record ∈ new_records d records.
Proof.
  intros Hf. unfold held. rewrite (fi_fresh _ _ _ Hf), (fi_retries _ _ _ Hf), (fi_inFlight _ _ _ Hf), fmap_app.
  intros [[Hin|Hin]%elem_of_app|Hin]; [by left; left| |by left; right]. right.
  rewrite <- list_fmap_compose in Hin. by apply list_elem_of_fmap in Hin as (r & -> & Hin).
Qed.

Lemma new_records_all d records :
  (∀ record, record ∈ records → d_cursor d ≤ r_Seq record) → new_records d records = records.
Proof.
  intros H. unfold new_records. induction records as [|r records IH]; [done|].
  rewrite filter_cons_True by (apply H; by left). f_equal. apply IH. intros r' Hr'. apply H. by right.
Qed.

Lemma page_ok_cons r records :
  page_ok (r :: records) → 1 ≤ r_Seq r ≤ max_uint64 ∧ page_ok records ∧ ∀ r', r' ∈ records → r_Seq r < r_Seq r'.
Proof.
  intros [Hs Hr]. apply StronglySorted_inv in Hs as [Hs Hf]. split; [apply Hr; by left|]. split.
  - split; [done|]. intros r' Hr'. apply Hr. by right.
  - intros r' Hr'. by eapply Forall_forall in Hf.
Qed.

(** The lanes after one new record. *)
Lemma move_to_fresh d record :
  lanes_ok d → d_states d !! r_Seq record = None →
  lanes_ok (with_lanes d (d_fresh d ++ [fresh_item record]) (d_retries d) (d_inFlight d)
              (<[r_Seq record := stateFresh]> (d_states d))).
Proof.
  intros [Hs Hh Hr] Hn. split; cbn; [|done|done].
  by rewrite map_to_list_insert, lanes_fresh_snoc, Hs by done.
Qed.

Lemma filled_nil d : lanes_ok d → scan_ok d → filled d [] d.
Proof.
  intros Hl Hs. split; try done.
  - cbn. by rewrite app_nil_r.
  - intros seq _. split; [by left|]. intros [?|(r & ?%elem_of_nil & _)]; done.
Qed.

Lemma filled_skip d r records d' : r_Seq r < d_cursor d → filled d records d' → filled d (r :: records) d'.
Proof.
  intros Hr H. assert (He : new_records d (r :: records) = new_records d records).
  { unfold new_records. rewrite filter_cons_False; [done|lia]. }
  by destruct H; split; rewrite ?He.
Qed.

(** One new record and then the rest. *)
Lemma filled_step d r records d1 d' :
  d_cursor d ≤ r_Seq r → (∀ r', r' ∈ records → r_Seq r < r_Seq r') →
  d_fresh d1 = d_fresh d ++ [fresh_item r] → d_states d1 = <[r_Seq r := stateFresh]> (d_states d) →
  new_records d1 records = records → (∀ seq, seq ≤ max_uint64 → scanned d1 seq ↔ scanned d seq ∨ seq ≤ r_Seq r) →
  d_config d1 = d_config d → d_closed d1 = d_closed d → d_scanEmpty d1 = d_scanEmpty d →
  d_signal d1 = d_signal d → d_stats d1 = d_stats d →
  d_preferRetry d1 = d_preferRetry d → d_expireAt d1 = d_expireAt d →
  d_retries d1 = d_retries d → d_inFlight d1 = d_inFlight d →
  filled d1 records d' → filled d (r :: records) d'.
Proof.
  intros Hr Hrest Hf Hst Hnew Hsc U1 U2 U3 U4 Hstats Hpr Hex Hre Hif [F1 F2 F3 F4 F5 F6 F7 F8 F9 F10 F11 F12 F13 F14].
  assert (He : new_records d (r :: records) = r :: records).
  { apply new_records_all. intros r' [->|Hin]%elem_of_cons; [done|]. specialize (Hrest r' Hin). lia. }
  rewrite Hnew in F10, F13, F14.
  split; rewrite ?He; try congruence.
  - rewrite F10, Hf, <- app_assoc. done.
  - intros seq. rewrite F13, Hst. cbn. destruct (decide (seq ∈ r_Seq <$> records)) as [Hin|Hin].
    + by rewrite decide_True by by right.
    + rewrite lookup_insert. case_decide as Heq.
      * subst. by rewrite decide_True by by left.
      * rewrite decide_False; [done|]. rewrite elem_of_cons. intros [?|?]; [congruence|done].
  - intros seq Hseq. rewrite F14, Hsc by done. split.
    + intros [[?|?]|(x & Hx & ?)]; [by left|right; exists r; split; [by left|done]|right; exists x; split; [by right|done]].
    + intros [?|(x & [->|Hx]%elem_of_cons & ?)]; [by left; left|by left; right|right; by exists x].
Qed.

Lemma fill_fold_lemma d progress records :
  lanes_ok d → scan_ok d → d_scanDone d = false → page_ok records →
  filled d records (foldl fill_one (d, progress) records).1
  ∧ (foldl fill_one (d, progress) records).2 = progress || bool_decide (new_records d records ≠ []).
Proof.
  revert d progress. induction records as [|r records IH]; intros d progress Hl Hs Hdone Hp; cbn [foldl].
  { split; [by apply filled_nil|]. cbn. by rewrite orb_false_r. }
  apply page_ok_cons in Hp as (Hr & Hp & Hrest). unfold fill_one at 2 4. case_match eqn:Hc; zbool.
  { destruct (IH d progress Hl Hs Hdone Hp) as [H1 H2]. split; [by apply filled_skip|].
    rewrite H2. unfold new_records. by rewrite filter_cons_False by (cbn; lia). }
  assert (Hnone : d_states d !! r_Seq r = None).
  { destruct (d_states d !! r_Seq r) as [s|] eqn:E; [|done].
    destruct (scan_tracked _ Hs _ _ E) as [_ [?|[? _]]]; [lia|congruence]. }
  pose proof (scan_cursor _ Hs) as Hcur.
  assert (Hne : new_records d (r :: records) ≠ []).
  { unfold new_records. by rewrite filter_cons_True by (cbn; lia). }
  rewrite (bool_decide_true _ Hne), orb_true_r. destruct (r_Seq r =? max_uint64) eqn:Hmax; zbool; cbn [d_states with_scanDone with_cursor].
  - destruct records as [|r' records]; [|specialize (Hrest r' ltac:(by left)); destruct Hp as [_ Hp];
      specialize (Hp r' ltac:(by left)); lia].
    rewrite Hnone. cbn [foldl fst snd]. set (d1 := with_lanes _ _ _ _ _). split; [|done].
    eapply (filled_step d r [] d1); [done|by intros ? ?%elem_of_nil|..]; try reflexivity.
    + intros seq Hseq. unfold scanned. cbn. split; [by right; lia|by right].
    + apply filled_nil; [eapply lanes_ok_ext; [..|exact (move_to_fresh d r Hl Hnone)]; done|].
      split; cbn; [done|]. intros seq s [[<- <-]|[_ Hst]]%lookup_insert_Some; [unfold is_u64, max_uint64 in *; split; [lia|by right]|].
      destruct (scan_tracked _ Hs _ _ Hst) as [Hu [?|[? _]]]; [split; [done|by left]|congruence].
  - rewrite Hnone. rewrite u64_id by (unfold is_u64, max_uint64 in *; lia).
    set (d1 := with_lanes _ _ _ _ _).
    assert (Hnew : new_records d1 records = records).
    { apply new_records_all. intros r' Hin. specialize (Hrest r' Hin). cbn. lia. }
    destruct (IH d1 true) as [H1 H2].
    + eapply lanes_ok_ext; [..|exact (move_to_fresh d r Hl Hnone)]; done.
    + split; cbn; [unfold max_uint64 in *; lia|].
      intros seq s [[<- <-]|[_ Hst]]%lookup_insert_Some; [unfold is_u64, max_uint64 in *; split; [lia|left; lia]|].
      destruct (scan_tracked _ Hs _ _ Hst) as [Hu [?|[? _]]]; [split; [done|left; lia]|congruence].
    + done.
    + done.
    + split; [|by rewrite H2]. eapply (filled_step d r records d1); try done.
      intros seq Hseq. unfold scanned. cbn. rewrite Hdone. split; [intros [?|?]; [right; lia|done]|intros [[?|?]|?]; [left; lia|done|left; lia]].
Qed.

(** ** A fill with nothing in between *)

Lemma New_inv config d : New false config = Ok d → dispatch_inv d.
Proof.
  unfold New. cbn. destruct (config_invalid config) eqn:Hc; [done|]. intros [= <-].
  pose proof (config_bounds config Hc) as Hp.
  split; cbn.
  - done.
  - split; cbn; [by rewrite map_to_list_empty|apply heap_ok_nil|]. intros r f. by rewrite lookup_empty.
  - intros r f. cbn. by rewrite lookup_empty.
  - split; cbn; rewrite ?map_size_empty; lia.
  - split; cbn; [unfold max_uint64; lia|]. intros seq s. by rewrite lookup_empty.
Qed.

(** A page that fits in the free capacity keeps the invariant. *)
Lemma fillFresh_inv scan d :
  dispatch_inv d →
  (∀ from free records, 0 < free → scan from free = (records, None) →
     page_ok records ∧ Z.of_nat (length records) ≤ free) →
  dispatch_inv (fillFresh scan d).1.
Proof.
  intros Hd Hscan. pose proof Hd as [Hc Hl He [Hb1 Hb2 Hb3] Hs]. unfold fillFresh, fill_begin.
  destruct (d_closed d || d_scanDone d || d_scanEmpty d) eqn:Hskip; [done|].
  apply orb_false_iff in Hskip as [Hskip _]. apply orb_false_iff in Hskip as [_ Hdone].
  set (free := cfg_PrefetchCapacity (d_config d) - Z.of_nat (length (d_fresh d))).
  destruct (free <=? 0) eqn:Hfree; [done|]. zbool.
  assert (Hse : ∀ b, dispatch_inv (with_scanEmpty d b)) by (intros b; by apply (same_lanes_inv d)).
  destruct (scan (d_cursor d) free) as [records [e|]] eqn:Escan; cbn [fill_end]; [apply (Hse false)|].
  destruct (Hscan _ _ _ Hfree Escan) as [Hpage Hlen].
  set (d1 := if _ =? _ then _ else _).
  assert (Hd1 : dispatch_inv d1 ∧ d_scanDone d1 = false ∧ d_fresh d1 = d_fresh d ∧ d_config d1 = d_config d).
  { unfold d1. destruct (_ =? _); split_and!; first [apply (Hse false)|apply (Hse true)|done]. }
  destruct Hd1 as ([_ Hl1 He1 [Hc1 Hc2 Hc3] Hs1] & Hdone1 & Hf1 & Hg1).
  destruct (fill_fold_lemma d1 false records Hl1 Hs1 Hdone1 Hpage) as [Hf _].
  destruct (foldl fill_one (d1, false) records) as [d2 progress]. cbn in Hf |- *. destruct Hf.
  split.
  - by rewrite fi_config0, Hg1.
  - done.
  - intros r f. rewrite fi_inFlight0, fi_expireAt0. apply He1.
  - split; rewrite fi_config0, ?fi_inFlight0, ?fi_retries0; [done| |done].
    rewrite fi_fresh0, length_app, length_fmap, Hf1, Hg1. unfold new_records.
    pose proof (length_filter (λ record, d_cursor d1 ≤ r_Seq record) records). unfold free in *. lia.
  - done.
Qed.
