(* ===== verification/DispatchCalls.v ===== *)
(** * The dispatcher's methods as wholes

    For each method what it does on every branch, that it keeps the invariant,
    and ([quiet]) that it does not touch the scan position. *)
From S2P Require Import Prelude Errors Store Heap Backoff Dispatch DispatchInv DispatchOps.
From S2P Require Import DispatchTake DispatchFill.
#[local] Open Scope Z_scope.

Definition tracked (d : Dispatcher) (seq : Z) : Prop := is_Some (d_states d !! seq).

(** Same configuration, scan position and tracked sequences. *)
Record quiet (d d' : Dispatcher) : Prop := {
  qt_config : d_config d' = d_config d;
  qt_cursor : d_cursor d' = d_cursor d;
  qt_scanDone : d_scanDone d' = d_scanDone d;
  qt_scanEmpty : d_scanEmpty d' = d_scanEmpty d;
  qt_fresh : (length (d_fresh d') ≤ length (d_fresh d))%nat;
  qt_tracked seq : tracked d' seq ↔ tracked d seq;
  qt_held record : held d' record → held d record
}.

#[global] Instance quiet_refl : Reflexive quiet.
Proof. by intros d. Qed.
#[global] Instance quiet_trans : Transitive quiet.
Proof.
  intros a b c [? ? ? ? ? H Hh] [? ? ? ? ? H' Hh']. split; try congruence; [lia| |by auto]. intros seq. by rewrite H', H.
Qed.

Lemma quiet_stats d x : quiet d (with_stats d x).
Proof. done. Qed.
Lemma quiet_notify d : quiet d (notifyLocked d).
Proof. done. Qed.

Lemma expires_quiet now d d' : expires now d d' → quiet d d'.
Proof.
  intros Hex. pose proof (expires_held now d d') as Hh. pose proof Hex as [_ [] Hf _ _ _ _ _ Hs].
  split; try done; [by rewrite Hf|by auto].
Qed.

Lemma took_quiet now d d' ds sel : took now d d' ds sel → quiet d d'.
Proof. intros H. pose proof (tk_untouched _ _ _ _ _ H) as []. split; try done; apply H. Qed.

Lemma undone_quiet d d' : undone d d' → quiet d d'.
Proof.
  intros [[[] Hf Hr _ Hi Hs] _ _ _]. split; try done; [by rewrite Hf|intros seq; unfold tracked; by rewrite Hs|].
  apply (held_less d d' _ Hf Hr); [by apply held_retry_key|]. intros receipt f. rewrite Hi. apply held_flight.
Qed.

Lemma requeued_quiet d d' : requeued d d' → quiet d d'.
Proof. intros ([] & Hf & _ & _ & _ & Hh & Hs). split; try done. by rewrite Hf. Qed.

Lemma extended_quiet d d' : extended d d' → quiet d d'.
Proof.
  intros ([] & Hf & _ & _ & Hs & _ & Hh). split; try done; [by rewrite Hf|]. intros seq. unfold tracked. by rewrite Hs.
Qed.

(** ** Validation behind an expiry *)

(** The leases that are still live at [now]. *)
Definition live (now : Z) (d : Dispatcher) : gmap Receipt flight :=
  filter (λ entry, now < fl_deadline entry.2) (d_inFlight d).

Lemma live_lookup now d r f : live now d !! r = Some f ↔ d_inFlight d !! r = Some f ∧ now < fl_deadline f.
Proof. unfold live. by rewrite map_lookup_filter_Some. Qed.

Section calls.
Context (env : Env).
Implicit Types (d : Dispatcher).

Lemma expire_call d :
  dispatch_inv d → range_of (e_visits env) d →
  expires (e_now env) d (expireLocked (e_visits env) (e_now env) d).
Proof. apply expireLocked_lemma. Qed.

(** ** Commit *)

(** What a completing call leaves of the dispatcher. *)
Record completed (d : Dispatcher) (deliveries : list Delivery) (d' : Dispatcher) : Prop := {
  co_inv : dispatch_inv d';
  co_config : d_config d' = d_config d;
  co_closed : d_closed d' = d_closed d;
  co_scan : d_cursor d' = d_cursor d ∧ d_scanDone d' = d_scanDone d ∧ d_scanEmpty d' = d_scanEmpty d;
  co_fresh : d_fresh d' = d_fresh d;
  co_signal : d_signal d' = true;
  co_inFlight receipt : d_inFlight d' !! receipt =
    if decide (receipt ∈ dl_Receipt <$> deliveries) then None else live (e_now env) d !! receipt;
  co_tracked seq : tracked d' seq ↔ tracked d seq ∧ seq ∉ delivered_seqs deliveries;
  co_retries : item_key <$> d_retries d' ≡ₚ
    due_keys (e_now env) (map_to_list (d_inFlight d)) ++ (item_key <$> d_retries d)
}.

Lemma completed_held d deliveries d' record :
  completed d deliveries d' → held d' record → held d record ∧ r_Seq record ∉ delivered_seqs deliveries.
Proof.
  intros Hco Hh. split.
  - revert Hh. apply (held_less d d' _ (co_fresh _ _ _ Hco) (co_retries _ _ _ Hco)).
    + intros key [?%held_due_key|?%held_retry_key]%elem_of_app; done.
    + intros receipt f. rewrite (co_inFlight _ _ _ Hco). case_decide; [done|]. intros [Hf _]%live_lookup. by eapply held_flight.
  - apply (co_tracked _ _ _ Hco). by apply held_state; [apply inv_lanes, Hco|].
Qed.

Lemma release_completed d deliveries :
  dispatch_inv d → range_of (e_visits env) d → valid_deliveries (live (e_now env) d) deliveries →
  completed d deliveries
    (notifyLocked (foldl release (expireLocked (e_visits env) (e_now env) d) deliveries)).
Proof.
  intros Hinv Hr Hv. pose proof (expire_call d Hinv Hr) as Hex. set (d1 := expireLocked _ _ _) in *.
  change (live (e_now env) d) with (filter (λ entry, e_now env < fl_deadline entry.2) (d_inFlight d)) in Hv.
  rewrite <- (ex_inFlight _ _ _ Hex) in Hv.
  destruct (release_inv d1 deliveries (ex_inv _ _ _ Hex) Hv) as (Hi & (F & Hf & Hre & _) & Hother).
  destruct (release_fold_lookup d1 deliveries) as [Hgone Hst].
  pose proof (ex_frame _ _ _ Hex) as F1. pose proof (frame_trans _ _ _ F1 F) as [].
  split; try done.
  - by rewrite <- (ex_fresh _ _ _ Hex).
  - intros receipt. cbn. case_decide as Hin; [by apply Hgone|]. rewrite Hother by done. by rewrite (ex_inFlight _ _ _ Hex).
  - intros seq. unfold tracked. cbn. rewrite Hst, <- (ex_states _ _ _ Hex seq).
    case_decide; [split; [by intros []|tauto]|tauto].
  - cbn. rewrite Hre. apply Hex.
Qed.

Definition commit_result {W} (persist : list Z → W → W * option goerr) (d : Dispatcher) (w : W)
    (deliveries : list Delivery) (out : Dispatcher * W * option goerr) : Prop :=
  let '(d', w', err) := out in
  match err with
  | None =>
      deliveries = [] ∧ d' = d ∧ w' = w
      ∨ d_closed d = false ∧ valid_deliveries (live (e_now env) d) deliveries
        ∧ persist (delivered_seqs deliveries) w = (w', None) ∧ completed d deliveries d'
  | Some e =>
      d_closed d = true ∧ e = Sentinel dispatch_ErrClosed ∧ d' = d ∧ w' = w
      ∨ d_closed d = false ∧ expires (e_now env) d d'
        ∧ (¬ valid_deliveries (live (e_now env) d) deliveries ∧ e = Sentinel dispatch_ErrStaleDelivery ∧ w' = w
           ∨ valid_deliveries (live (e_now env) d) deliveries
             ∧ persist (delivered_seqs deliveries) w = (w', Some e))
  end.

Lemma Commit_lemma {W} (persist : list Z → W → W * option goerr) d (w : W) deliveries :
  dispatch_inv d → range_of (e_visits env) d →
  commit_result persist d w deliveries (Commit persist env d w deliveries).
Proof.
  intros Hinv Hr. unfold Commit. destruct deliveries as [|dl ds]; [by left|].
  destruct (d_closed d) eqn:Hc; [by left|]. pose proof (expire_call d Hinv Hr) as Hex.
  pose proof (validateLocked_lemma (expireLocked (e_visits env) (e_now env) d) (dl :: ds)) as Hv.
  rewrite (ex_inFlight _ _ _ Hex) in Hv. change (filter _ (d_inFlight d)) with (live (e_now env) d) in Hv.
  destruct (validateLocked _ _) as [seqs|e].
  - destruct Hv as [-> Hv]. destruct (persist _ w) as [w' [e|]] eqn:Hp.
    + right. split_and!; [done|done|]. by right.
    + right. split_and!; [done|done|done|]. by apply release_completed.
  - destruct Hv as [-> Hv]. right. split_and!; [done|done|]. by left.
Qed.

Definition dead_letter_result {W} (persist : Z → W → W * option goerr) (d : Dispatcher) (w : W)
    (delivery : Delivery) (out : Dispatcher * W * option goerr) : Prop :=
  let '(d', w', err) := out in
  match err with
  | None =>
      d_closed d = false ∧ valid_deliveries (live (e_now env) d) [delivery]
      ∧ persist (r_Seq (dl_Record delivery)) w = (w', None) ∧ completed d [delivery] d'
  | Some e =>
      d_closed d = true ∧ e = Sentinel dispatch_ErrClosed ∧ d' = d ∧ w' = w
      ∨ d_closed d = false ∧ expires (e_now env) d d'
        ∧ (¬ valid_deliveries (live (e_now env) d) [delivery] ∧ e = Sentinel dispatch_ErrStaleDelivery ∧ w' = w
           ∨ valid_deliveries (live (e_now env) d) [delivery]
             ∧ persist (r_Seq (dl_Record delivery)) w = (w', Some e))
  end.

Lemma DeadLetter_lemma {W} (persist : Z → W → W * option goerr) d (w : W) delivery :
  dispatch_inv d → range_of (e_visits env) d →
  dead_letter_result persist d w delivery (DeadLetter persist env d w delivery).
Proof.
  intros Hinv Hr. unfold DeadLetter. destruct (d_closed d) eqn:Hc; [by left|]. pose proof (expire_call d Hinv Hr) as Hex.
  pose proof (validateLocked_lemma (expireLocked (e_visits env) (e_now env) d) [delivery]) as Hv.
  rewrite (ex_inFlight _ _ _ Hex) in Hv. change (filter _ (d_inFlight d)) with (live (e_now env) d) in Hv.
  destruct (validateLocked _ _) as [seqs|e].
  - destruct Hv as [-> Hv]. destruct (persist _ w) as [w' [e|]] eqn:Hp.
    + right. split_and!; [done|done|]. by right.
    + split_and!; [done|done|done|]. by apply (release_completed d [delivery]).
  - destruct Hv as [-> Hv]. right. split_and!; [done|done|]. by left.
Qed.

(** ** Retry, Extend, Snapshot *)

Section retry.
Context (out_of_range : float64 → Z).

Record retries_done (d : Dispatcher) (deliveries : list Delivery) (d' : Dispatcher) : Prop := {
  rd_inv : dispatch_inv d';
  rd_quiet : quiet d d';
  rd_fresh : d_fresh d' = d_fresh d;
  rd_signal : d_signal d' = true;
  rd_inFlight receipt : d_inFlight d' !! receipt =
    if decide (receipt ∈ dl_Receipt <$> deliveries) then None else live (e_now env) d !! receipt;
  rd_retries : item_key <$> d_retries d' ≡ₚ
    retried_keys out_of_range (e_now env) d deliveries
    ++ due_keys (e_now env) (map_to_list (d_inFlight d)) ++ (item_key <$> d_retries d)
}.

Lemma retried_keys_live d d' deliveries :
  d_config d' = d_config d → d_inFlight d' = live (e_now env) d →
  valid_deliveries (live (e_now env) d) deliveries →
  retried_keys out_of_range (e_now env) d' deliveries = retried_keys out_of_range (e_now env) d deliveries.
Proof.
  intros Hc Hi [_ Hv]. induction deliveries as [|dl ds IH]; [done|]. cbn [retried_keys].
  destruct (Hv dl) as (f & Hf & _); [by left|]. rewrite Hi, Hf.
  apply live_lookup in Hf as [Hf _]. rewrite Hf, IH by (intros dl' Hin; apply Hv; by right).
  unfold retried, delay_of. by rewrite Hc.
Qed.

Lemma Retry_lemma d deliveries :
  dispatch_inv d → range_of (e_visits env) d →
  match Retry out_of_range env d deliveries with
  | (d', None) => deliveries = [] ∧ d' = d
                  ∨ d_closed d = false ∧ valid_deliveries (live (e_now env) d) deliveries ∧ retries_done d deliveries d'
  | (d', Some e) =>
      d_closed d = true ∧ e = Sentinel dispatch_ErrClosed ∧ d' = d
      ∨ d_closed d = false ∧ expires (e_now env) d d'
        ∧ ¬ valid_deliveries (live (e_now env) d) deliveries ∧ e = Sentinel dispatch_ErrStaleDelivery
  end.
Proof.
  intros Hinv Hr. unfold Retry. destruct deliveries as [|dl ds]; [by left|].
  destruct (d_closed d) eqn:Hc; [by left|]. pose proof (expire_call d Hinv Hr) as Hex.
  pose proof (validateLocked_lemma (expireLocked (e_visits env) (e_now env) d) (dl :: ds)) as Hv.
  set (d1 := expireLocked _ _ _) in *.
  destruct (validateLocked _ _) as [seqs|e].
  2: { destruct Hv as [-> Hv]. rewrite (ex_inFlight _ _ _ Hex) in Hv. right. by split_and!. }
  destruct Hv as [_ Hv]. right.
  destruct (retry_inv out_of_range (e_now env) d1 (dl :: ds) (ex_inv _ _ _ Hex) Hv) as (Hi & Hq & Hother).
  destruct (retry_fold_keys out_of_range (e_now env) d1 (dl :: ds)) as [Hkeys Hgone]; [split; apply Hex|done|].
  pose proof Hv as Hv'. rewrite (ex_inFlight _ _ _ Hex) in Hv'.
  split_and!; [done|done|]. split; try done.
  - trans d1; [by eapply expires_quiet|]. trans (foldl (retry_one out_of_range (e_now env)) d1 (dl :: ds)); [|apply quiet_notify].
    by apply requeued_quiet.
  - cbn [notifyLocked with_signal d_fresh]. destruct Hq as (_ & -> & _). apply Hex.
  - intros receipt. cbn [notifyLocked with_signal d_inFlight]. case_decide as Hin; [by apply Hgone|]. rewrite Hother by done.
    by rewrite (ex_inFlight _ _ _ Hex).
  - cbn [notifyLocked with_signal d_retries]. rewrite Hkeys, reverse_Permutation, (ex_retries _ _ _ Hex).
    rewrite (retried_keys_live d d1); [done|apply Hex|apply Hex|done].
Qed.
End retry.

Record extends_done (extension : Z) (d : Dispatcher) (deliveries : list Delivery) (d' : Dispatcher) : Prop := {
  ed_inv : dispatch_inv d';
  ed_quiet : quiet d d';
  ed_signal : d_signal d' = true;
  ed_inFlight receipt f : d_inFlight d' !! receipt = Some f ↔
    ∃ f0, live (e_now env) d !! receipt = Some f0
      ∧ f = if decide (receipt ∈ dl_Receipt <$> deliveries) then extend_flight extension f0 else f0
}.

Lemma Extend_lemma extension d deliveries :
  dispatch_inv d → range_of (e_visits env) d →
  match Extend env extension d deliveries with
  | (d', None) => 0 < extension ∧
      (deliveries = [] ∧ d' = d
       ∨ d_closed d = false ∧ valid_deliveries (live (e_now env) d) deliveries ∧ extends_done extension d deliveries d')
  | (d', Some e) =>
      extension ≤ 0 ∧ e = Sentinel dispatch_ErrInvalidExtension ∧ d' = d
      ∨ d_closed d = true ∧ e = Sentinel dispatch_ErrClosed ∧ d' = d
      ∨ d_closed d = false ∧ expires (e_now env) d d'
        ∧ ¬ valid_deliveries (live (e_now env) d) deliveries ∧ e = Sentinel dispatch_ErrStaleDelivery
  end.
Proof.
  intros Hinv Hr. unfold Extend. destruct (extension <=? 0) eqn:Hx; zbool; [by left|].
  destruct deliveries as [|dl ds]; [split; [done|by left]|].
  destruct (d_closed d) eqn:Hc; [by right; left|]. pose proof (expire_call d Hinv Hr) as Hex.
  pose proof (validateLocked_lemma (expireLocked (e_visits env) (e_now env) d) (dl :: ds)) as Hv.
  set (d1 := expireLocked _ _ _) in *.
  destruct (validateLocked _ _) as [seqs|e].
  2: { destruct Hv as [-> Hv]. rewrite (ex_inFlight _ _ _ Hex) in Hv. right; right. by split_and!. }
  destruct Hv as [_ Hv]. split; [done|]. right.
  destruct (extend_inv extension d1 (dl :: ds) Hx (ex_inv _ _ _ Hex) Hv) as (Hi & Hq & Hother).
  assert (Hin : ∀ r f, r ∈ dl_Receipt <$> dl :: ds → d_inFlight d1 !! r = Some f →
    d_inFlight (foldl (extend_one extension) d1 (dl :: ds)) !! r = Some (extend_flight extension f)).
  { intros r f Hin Hf. apply (extend_fold_lookup extension d1 (dl :: ds) r f Hx); [split; apply Hex|exact Hv|exact Hin|exact Hf]. }
  pose proof Hv as Hv'. rewrite (ex_inFlight _ _ _ Hex) in Hv'.
  split_and!; [done|done|]. split; try done.
  - trans d1; [by eapply expires_quiet|]. trans (foldl (extend_one extension) d1 (dl :: ds)); [|apply quiet_notify].
    by apply extended_quiet.
  - intros receipt f. cbn [notifyLocked with_signal d_inFlight].
    change (live (e_now env) d) with (filter (λ entry, e_now env < fl_deadline entry.2) (d_inFlight d)).
    rewrite <- (ex_inFlight _ _ _ Hex). case_decide as Hr'.
    + destruct Hv as [_ Hv]. apply list_elem_of_fmap in Hr' as Hr''. destruct Hr'' as (dl' & -> & Hdl').
      destruct (Hv dl' Hdl') as (f0 & Hf0 & _). rewrite (Hin _ f0) by done.
      split; [intros [= <-]; by exists f0|intros (f1 & Hf1 & ->); congruence].
    + rewrite Hother by done. split; [intros Hf; by exists f|by intros (f0 & Hf0 & ->)].
Qed.

Lemma Snapshot_lemma d :
  dispatch_inv d → range_of (e_visits env) d →
  let '(d', stats) := Snapshot env d in
  expires (e_now env) d d'
  ∧ st_Ready stats + st_Retry stats + st_InFlight stats = Z.of_nat (size (d_states d'))
  ∧ st_InFlight stats = Z.of_nat (size (live (e_now env) d)) ∧ st_InFlight stats ≤ cfg_MaxInFlight (d_config d)
  ∧ st_Ready stats = Z.of_nat (length (d_fresh d)) ∧ st_Ready stats ≤ cfg_PrefetchCapacity (d_config d).
Proof.
  intros Hinv Hr. pose proof (expire_call d Hinv Hr) as Hex. unfold Snapshot.
  set (d1 := expireLocked _ _ _) in *. cbn. pose proof (ex_inv _ _ _ Hex) as Hi.
  pose proof (lanes_states _ (inv_lanes _ Hi)) as Hp. apply Permutation_length in Hp.
  unfold lanes in Hp. rewrite !length_app, !length_fmap, !length_map_to_list in Hp.
  destruct (inv_bounds _ Hi) as [Hb1 Hb2 _]. pose proof (frame_config _ _ (ex_frame _ _ _ Hex)) as Hc.
  rewrite Hc in *. split_and!; [done|lia|by rewrite (ex_inFlight _ _ _ Hex)|done|by rewrite (ex_fresh _ _ _ Hex)|done].
Qed.
End calls.

(** ** The top of Read *)

Section top.
Context {Rng : Type} (newReceipt : Rng → res Receipt * Rng).
Context (env : Env) (visits' : list (Receipt * flight)).

Record read_ok (count : Z) (d d' : Dispatcher) (next : read_next) : Prop := {
  ro_inv : dispatch_inv d';
  ro_quiet : quiet d d';
  ro_next :
    match next with
    | ReadReturn (Ok ds) =>
        d_closed d = false ∧ ds ≠ [] ∧ Z.of_nat (length ds) ≤ count
        ∧ ∃ d1 sel, expires (e_now env) d d1 ∧ took (e_now env) d1 d' ds sel
    | ReadReturn (Err e) =>
        d_closed d = true ∧ e = Sentinel dispatch_ErrClosed ∧ d' = d
        ∨ d_closed d = false ∧ (∃ d1, expires (e_now env) d d1 ∧ undone d1 d')
          ∧ receipt_error newReceipt e
    | ReadRefill => d_closed d = false ∧ expires (e_now env) d d' ∧ d_fresh d' = [] ∧ d_scanEmpty d' = false ∧ d_scanDone d' = false
    | ReadFill wakeAt =>
        d_closed d = false ∧ wakeAt = nextWakeLocked visits' d'
        ∧ (count ≤ 0 ∨ Z.of_nat (size (d_inFlight d')) = cfg_MaxInFlight (d_config d)
           ∨ retry_ready (e_now env) d' = false ∧ fresh_ready d' = false)
        ∧ ∃ d1, expires (e_now env) d d1 ∧ restored d1 d'
    end
}.

Lemma read_top_lemma count d g d' g' next :
  dispatch_inv d → range_of (e_visits env) d →
  read_top newReceipt env visits' count d g = (d', g', next) → read_ok count d d' next.
Proof.
  intros Hinv Hr. unfold read_top. destruct (d_closed d) eqn:Hc.
  { intros [= <- <- <-]. split; [done|done|by left]. }
  pose proof (expireLocked_lemma (e_visits env) (e_now env) d Hinv Hr) as Hex. set (d1 := expireLocked _ _ _) in *.
  pose proof (expires_quiet _ _ _ Hex) as Hq. case_match eqn:Hcond.
  { intros [= <- <- <-]. split; [by apply Hex|done|]. repeat (apply andb_true_iff in Hcond as [Hcond ?]). zbool.
    apply bool_decide_eq_true in Hcond. done. }
  clear Hcond. destruct (takeLocked_lemma newReceipt count (e_now env) d1 g (ex_inv _ _ _ Hex)) as [Htake Hinv'].
  destruct (takeLocked _ _ _ _ _) as [[d2 g2] [ds|e]]; cbn in Htake, Hinv'.
  2: { intros [= <- <- <-]. destruct Htake as [Hu Hcause]. split; [done|by trans d1; [|apply undone_quiet]|].
       right. split_and!; [done|by exists d1|done]. }
  destruct Htake as ([sel Htk] & Hlen & Hidle). pose proof (took_quiet _ _ _ _ _ Htk) as Hq2.
  pose proof (quiet_trans _ _ _ Hq Hq2) as Hq'.
  destruct ds as [|dl ds].
  - intros [= <- <- <-]. split.
    + case_match; [|done]. apply (same_lanes_inv d2); [by split|done].
    + case_match; [|done]. trans d2; [done|apply quiet_stats].
    + assert (Hback : restored d1 d2).
      { pose proof (tk_rollback _ _ _ _ _ Htk) as H. pose proof (tk_length _ _ _ _ _ Htk). by destruct sel. }
      split_and!; [done|by case_match| |exists d1; split; [done|]; case_match; by destruct Hback as [[] ? ? ? ? ?]].
      assert (Hd : d_config d2 = d_config d) by apply Hq'.
      assert (Hs : size (d_inFlight d2) = size (d_inFlight d1)) by (rewrite (tk_size _ _ _ _ _ Htk); cbn; lia).
      assert (Hsame : ∀ s, (count ≤ 0 ∨ Z.of_nat (size (d_inFlight d2)) = cfg_MaxInFlight (d_config d)
           ∨ retry_ready (e_now env) d2 = false ∧ fresh_ready d2 = false) →
         count ≤ 0 ∨ Z.of_nat (size (d_inFlight (with_stats d2 s))) = cfg_MaxInFlight (d_config d)
           ∨ retry_ready (e_now env) (with_stats d2 s) = false ∧ fresh_ready (with_stats d2 s) = false) by done.
      assert (Hmain : count ≤ 0 ∨ Z.of_nat (size (d_inFlight d2)) = cfg_MaxInFlight (d_config d)
           ∨ retry_ready (e_now env) d2 = false ∧ fresh_ready d2 = false).
      { destruct (decide (count ≤ 0)) as [|Hcount]; [by left|]. right.
        destruct (decide (Z.of_nat (size (d_inFlight d2)) = cfg_MaxInFlight (d_config d))) as [|Hfull]; [by left|].
        right. apply Hidle. unfold take_limit. pose proof (bounds_inFlight _ (inv_bounds _ Hinv')). cbn.
        rewrite (qt_config _ _ Hq). rewrite Hd in *. lia. }
      case_match; [by apply Hsame|done].
  - intros [= <- <- <-]. split; [done|done|]. split_and!; [done|done| |by exists d1, sel].
    unfold take_limit in Hlen. cbn in *. lia.
Qed.
End top.
