(* ===== verification/DispatchTheorems.v ===== *)
(** * Correctness of internal/dispatch

    The properties of the dispatcher's parts and methods, with instances on a
    small dispatcher that has one record in each lane. *)
From S2P Require Import Prelude Errors Keys Store Heap Backoff Dispatch DispatchInv DispatchOps.
From S2P Require Import DispatchTake DispatchFill DispatchCalls.
From Stdlib Require Import Strings.Byte Floats.SpecFloat.
#[local] Open Scope Z_scope.

(** ** A small dispatcher *)

Definition demo_config : Config :=
  {| cfg_PrefetchCapacity := 3; cfg_MaxInFlight := 2; cfg_VisibilityTimeout := 10; cfg_RetryInitial := 5;
     cfg_RetryMax := 40; cfg_RetryMultiplier := float64_of_Z 2 |}.

Definition demo_record (seq : Z) : StoreRecord :=
  {| r_Seq := seq; r_CreatedAt := 1; r_OriginStream := ""; r_OriginSeq := 0; r_Payload := [x2a] |}.

(** A source with three records. *)
Definition demo_scan (from free : Z) : list StoreRecord * option goerr :=
  (take (Z.to_nat free) (filter (λ record, from ≤ r_Seq record) [demo_record 1; demo_record 2; demo_record 4]), None).

(** Receipts drawn from a list; reading fails when it is empty. *)
Definition list_receipt (g : list Receipt) : res Receipt * list Receipt :=
  match g with
  | [] => (Err (NewError "no entropy"), [])
  | receipt :: g => (Ok receipt, g)
  end.

Definition demo_new : Dispatcher :=
  {| d_config := demo_config; d_closed := false; d_cursor := 1; d_scanDone := false; d_scanEmpty := false;
     d_fresh := []; d_retries := []; d_inFlight := ∅; d_states := ∅; d_preferRetry := false;
     d_signal := false; d_stats := zero_stats; d_expireAt := zero_time |}.

Definition demo_filled : Dispatcher := (fillFresh demo_scan demo_new).1.

(** Records 1 and 2 leased at instant 100, record 4 still fresh. *)
Definition demo_leased : Dispatcher := (takeLocked list_receipt 2 100 demo_filled [[x01]; [x02]]).1.1.

(** Record 1 retried at instant 103: one record in each lane. *)
Definition demo_delivery1 : Delivery :=
  {| dl_Record := demo_record 1; dl_Receipt := [x01]; dl_Attempt := 1; dl_Deadline := 110 |}.
Definition demo_delivery2 : Delivery :=
  {| dl_Record := demo_record 2; dl_Receipt := [x02]; dl_Attempt := 1; dl_Deadline := 110 |}.
Definition demo_env (now : Z) (d : Dispatcher) : Env := {| e_now := now; e_visits := map_to_list (d_inFlight d) |}.
Definition demo_lanes : Dispatcher := (Retry (λ _, 0) (demo_env 103 demo_leased) demo_leased [demo_delivery1]).1.

Lemma demo_range now d : range_of (e_visits (demo_env now d)) d.
Proof. unfold range_of. reflexivity. Qed.

Lemma StronglySorted_filter_seq (P : StoreRecord → Prop) `{!∀ x, Decision (P x)} (l : list StoreRecord) :
  StronglySorted (λ a b, r_Seq a < r_Seq b) l → StronglySorted (λ a b, r_Seq a < r_Seq b) (filter P l).
Proof.
  induction 1 as [|x l Hs IH Hf]; [constructor|]. rewrite filter_cons. case_decide; [|done].
  constructor; [done|]. apply Forall_forall. intros y [_ Hy]%list_elem_of_filter. by eapply Forall_forall in Hf.
Qed.

Lemma demo_scan_page from free records :
  0 < free → demo_scan from free = (records, None) → page_ok records ∧ Z.of_nat (length records) ≤ free.
Proof.
  intros Hfree [= <-].
  set (l := filter _ _). assert (Hl : page_ok l).
  { split.
    - apply StronglySorted_filter_seq. repeat constructor.
    - intros record [_ Hin]%list_elem_of_filter. rewrite !elem_of_cons in Hin.
      destruct Hin as [->|[->|[->|[]%elem_of_nil]]]; vm_compute; split; discriminate. }
  destruct Hl as [Hs Hr]. split; [split|rewrite length_take; lia].
  - rewrite <- (take_drop (Z.to_nat free) l) in Hs. by apply StronglySorted_app_1_l in Hs.
  - intros record Hin. apply Hr. rewrite <- (take_drop (Z.to_nat free) l). apply elem_of_app. by left.
Qed.

Lemma demo_new_inv : dispatch_inv demo_new.
Proof. apply (New_inv demo_config). vm_compute. reflexivity. Qed.

Lemma demo_filled_inv : dispatch_inv demo_filled.
Proof. apply fillFresh_inv; [apply demo_new_inv|apply demo_scan_page]. Qed.

Lemma demo_leased_inv : dispatch_inv demo_leased.
Proof. apply (takeLocked_lemma list_receipt 2 100 demo_filled [[x01]; [x02]] demo_filled_inv). Qed.

Lemma demo_leased_flights :
  d_inFlight demo_leased = {[ [x01] := flight_of demo_delivery1; [x02] := flight_of demo_delivery2 ]}.
Proof. vm_compute. reflexivity. Qed.

Lemma demo_valid : valid_deliveries (live 103 demo_leased) [demo_delivery1].
Proof.
  split; [apply NoDup_singleton|]. intros dl ->%list_elem_of_singleton. exists (flight_of demo_delivery1).
  split_and!; vm_compute; reflexivity.
Qed.

Lemma demo_lanes_inv : dispatch_inv demo_lanes.
Proof.
  pose proof (Retry_lemma (demo_env 103 demo_leased) (λ _, 0) demo_leased [demo_delivery1] demo_leased_inv
    (demo_range _ _)) as H. unfold demo_lanes.
  assert (Hok : (Retry (λ _, 0) (demo_env 103 demo_leased) demo_leased [demo_delivery1]).2 = None) by (vm_compute; reflexivity).
  destruct (Retry _ _ _ _) as [d [e|]]; [done|]. destruct H as [[? _]|(_ & _ & [])]; done.
Qed.

(** ** The retry lane and the backoff *)

(** The item that is ready earlier goes first, and of two that are ready at the
    same instant the one with the lower sequence. *)
Definition goes_before (a b : queuedRecord) : Prop :=
  qr_readyAt a < qr_readyAt b
  ∨ qr_readyAt a = qr_readyAt b ∧ r_Seq (qr_record a) ≤ r_Seq (qr_record b).

(** C29. The retry heap is a priority queue: whatever is pushed comes out again,
    item for item, the earliest ready time first and, at the same ready time, the
    lowest sequence first. *)
Theorem retry_lane_sorts (items : list queuedRecord) :
  let h := foldl heap_Push [] items in
  heap_ok h
  ∧ StronglySorted goes_before (heap_drain (length h) h)
  ∧ item_key <$> heap_drain (length h) h ≡ₚ item_key <$> items.
Proof.
  cbn. destruct (heap_fill_spec items [] heap_ok_nil) as [Hh Hp]. rewrite app_nil_r in Hp.
  destruct (heap_drain_spec _ _ Hh eq_refl) as [Hs Hd]. split_and!; [done| |by rewrite Hd].
  clear Hd. induction Hs as [|a l Hs IH Ha]; [constructor|]. constructor; [exact IH|].
  eapply Forall_impl; [exact Ha|]. intros b. apply item_le_spec.
Qed.

(** A pop returns the record that is ready first, and removes only it. *)
Theorem heap_Pop_first (h : retryHeap) (root : queuedRecord) (rest : retryHeap) :
  heap_ok h → h = root :: rest →
  ∃ item h', heap_Pop h = Some (item, h') ∧ heap_ok h' ∧ item_key item = item_key root ∧ qr_index item = -1
    ∧ item_key <$> h ≡ₚ item_key item :: (item_key <$> h')
    ∧ ∀ other, other ∈ h' → item_le item other.
Proof. apply heap_Pop_lemma. Qed.

Definition demo_heap : retryHeap :=
  foldl heap_Push [] [retry_item (demo_record 3) 2 9; retry_item (demo_record 1) 2 9; retry_item (demo_record 2) 3 4].

Lemma retry_lane_sorts_witness :
  r_Seq ∘ qr_record <$> heap_drain (length demo_heap) demo_heap = [2; 1; 3]
  ∧ StronglySorted goes_before (heap_drain (length demo_heap) demo_heap).
Proof.
  split; [vm_compute; reflexivity|].
  exact (proj1 (proj2 (retry_lane_sorts
    [retry_item (demo_record 3) 2 9; retry_item (demo_record 1) 2 9; retry_item (demo_record 2) 3 4]))).
Defined.

Lemma heap_Pop_first_witness :
  ∃ item h', heap_Pop demo_heap = Some (item, h') ∧ r_Seq (qr_record item) = 2 ∧ ∀ other, other ∈ h' → item_le item other.
Proof.
  assert (Hh : heap_ok demo_heap) by (apply heap_fill_spec, heap_ok_nil).
  assert (He : demo_heap = hd (retry_item (demo_record 0) 0 0) demo_heap :: tl demo_heap) by (vm_compute; reflexivity).
  destruct (heap_Pop_first demo_heap _ _ Hh He) as (item & h' & Hpop & _ & Hk & _ & _ & Hmin).
  exists item, h'. split; [done|]. split; [|done]. apply (f_equal (λ k, r_Seq k.1.1)) in Hk. cbn in Hk.
  rewrite Hk. vm_compute. reflexivity.
Defined.



(** With the default configuration the delay before attempt [n + 1] is one
    second doubled [n - 1] times, capped at a minute: the floating-point
    computation is exact. *)
Theorem retryDelay_default (out_of_range : float64 → Z) (attempt : Z) :
  1 ≤ attempt →
  retryDelay out_of_range (1 * second) (60 * second) (float64_of_Z 2) attempt
  = Z.min (60 * second) (second * 2 ^ (attempt - 1)).
Proof.
  intros Ha. unfold retryDelay. assert (float64_leb (float64_of_Z 2) (float64_of_Z 1) = false) as -> by (vm_compute; reflexivity).
  rewrite retry_loop_default. by rewrite Z2Nat.id by lia.
Qed.

Lemma retryDelay_default_witness :
  retryDelay (λ _, 0) (1 * second) (60 * second) (float64_of_Z 2) 4 = 8 * second.
Proof. rewrite (retryDelay_default (λ _, 0) 4); [vm_compute; reflexivity|lia]. Defined.

(** ** Leases *)

(** C17. Expiry is exact, and its watermark is sound: at instant [now] a call
    turns exactly the leases whose deadline is not after [now] into retries that
    are ready at once, with the next attempt, and keeps every other lease, also
    when the watermark lets it skip the sweep, and in whatever order the map is
    visited. *)
Theorem expireLocked_exact (visits : list (Receipt * flight)) (now : Z) (d : Dispatcher) :
  dispatch_inv d → range_of visits d →
  let d' := expireLocked visits now d in
  dispatch_inv d'
  ∧ d_inFlight d' = filter (λ entry, now < fl_deadline entry.2) (d_inFlight d)
  ∧ item_key <$> d_retries d' ≡ₚ due_keys now (map_to_list (d_inFlight d)) ++ (item_key <$> d_retries d)
  ∧ d_fresh d' = d_fresh d
  ∧ ∀ seq, is_Some (d_states d' !! seq) ↔ is_Some (d_states d !! seq).
Proof. intros Hd Hr. destruct (expireLocked_lemma visits now d Hd Hr). by split_and!. Qed.

Lemma expireLocked_exact_witness :
  d_inFlight (expireLocked (map_to_list (d_inFlight demo_leased)) 109 demo_leased) = d_inFlight demo_leased
  ∧ d_inFlight (expireLocked (map_to_list (d_inFlight demo_leased)) 110 demo_leased) = ∅.
Proof.
  destruct (expireLocked_exact (map_to_list (d_inFlight demo_leased)) 109 demo_leased demo_leased_inv (reflexivity _)) as (_ & -> & _).
  split; [|vm_compute; reflexivity]. rewrite demo_leased_flights. vm_compute. reflexivity.
Defined.

(** C31. A batch of receipts is accepted exactly when the receipts are distinct
    and each is that of a live lease for the very record and attempt it is
    presented with; the sequences returned are those of the leases. *)
Theorem validateLocked_exact (d : Dispatcher) (deliveries : list Delivery) :
  match validateLocked d deliveries with
  | Ok seqs => seqs = delivered_seqs deliveries ∧ valid_deliveries (d_inFlight d) deliveries
  | Err e => e = Sentinel dispatch_ErrStaleDelivery ∧ ¬ valid_deliveries (d_inFlight d) deliveries
  end.
Proof. apply validateLocked_lemma. Qed.

(** C16. [takeLocked] leases at most [count] records and at most the free slots,
    each under a receipt of its own, and stops early only when no lane is ready;
    when a receipt cannot be made, nothing has been leased: the lanes, the
    states, the preference and the counters are as before. *)
Theorem takeLocked_all_or_nothing {Rng : Type} (newReceipt : Rng → res Receipt * Rng)
    (count now : Z) (d : Dispatcher) (g : Rng) :
  dispatch_inv d →
  match takeLocked newReceipt count now d g with
  | (d', _, Ok ds) =>
      dispatch_inv d' ∧ (length ds ≤ take_limit count d)%nat
      ∧ NoDup (dl_Receipt <$> ds) ∧ d_inFlight d ⊆ d_inFlight d'
      ∧ size (d_inFlight d') = (size (d_inFlight d) + length ds)%nat
      ∧ (∀ dl, dl ∈ ds → d_inFlight d' !! dl_Receipt dl = Some (flight_of dl) ∧ d_inFlight d !! dl_Receipt dl = None
           ∧ dl_Deadline dl = now + cfg_VisibilityTimeout (d_config d))
      ∧ ((length ds < take_limit count d)%nat → retry_ready now d' = false ∧ fresh_ready d' = false)
  | (d', _, Err e) =>
      dispatch_inv d' ∧ d_fresh d' = d_fresh d ∧ item_key <$> d_retries d' ≡ₚ item_key <$> d_retries d
      ∧ d_inFlight d' = d_inFlight d ∧ d_states d' = d_states d ∧ d_preferRetry d' = d_preferRetry d
      ∧ (is_u64 (st_Deliveries (d_stats d)) → d_stats d' = d_stats d)
  end.
Proof.
  intros Hinv. destruct (takeLocked_lemma newReceipt count now d g Hinv) as [H Hinv'].
  destruct (takeLocked _ _ _ _ _) as [[d' g'] [ds|e]]; cbn in H, Hinv'.
  - destruct H as ([sel Htk] & Hlen & Hidle). split_and!; try done; [apply Htk..|].
    intros dl Hin. destruct (tk_delivered _ _ _ _ _ Htk dl Hin) as (? & ? & ? & _). done.
  - destruct H as [[[] Hp Hs He] _]. by split_and!.
Qed.

Lemma takeLocked_all_or_nothing_witness :
  match takeLocked list_receipt 2 100 demo_filled [[x01]] with
  | (d', _, Err e) => d_fresh d' = d_fresh demo_filled ∧ d_inFlight d' = ∅ ∧ length (d_fresh d') = 3%nat
  | _ => False
  end.
Proof.
  pose proof (takeLocked_all_or_nothing list_receipt 2 100 demo_filled [[x01]] demo_filled_inv) as H.
  assert (He : ∃ e, (takeLocked list_receipt 2 100 demo_filled [[x01]]).2 = Err e) by (vm_compute; by eexists).
  assert (Hf : length (d_fresh demo_filled) = 3%nat ∧ d_inFlight demo_filled = ∅) by (vm_compute; done).
  destruct (takeLocked _ _ _ _ _) as [[d' g'] [ds|e]]; [by destruct He|].
  destruct H as (_ & H1 & _ & H2 & _). rewrite H1, H2. split_and!; [done|apply Hf|apply Hf].
Defined.

(** C32. Neither lane starves the other: when a fresh record and a due retry are
    both waiting, the first two records of a read are one of each, the lane
    [preferRetry] names first. *)
Theorem takeLocked_fair {Rng : Type} (newReceipt : Rng → res Receipt * Rng) (count now : Z) (d : Dispatcher) (g : Rng) :
  dispatch_inv d → retry_ready now d = true → fresh_ready d = true →
  2 ≤ count → Z.of_nat (size (d_inFlight d)) + 2 ≤ cfg_MaxInFlight (d_config d) →
  match takeLocked newReceipt count now d g with
  | (_, _, Ok ds) => ∃ a b rest, ds = a :: b :: rest ∧
      if d_preferRetry d
      then d_states d !! r_Seq (dl_Record a) = Some stateRetry ∧ d_states d !! r_Seq (dl_Record b) = Some stateFresh
      else d_states d !! r_Seq (dl_Record a) = Some stateFresh ∧ d_states d !! r_Seq (dl_Record b) = Some stateRetry
  | (_, _, Err _) => True
  end.
Proof. apply takeLocked_alternates. Qed.

(** All leases of [demo_lanes] are over at instant 120. *)
Definition demo_due : Dispatcher := expireLocked (map_to_list (d_inFlight demo_lanes)) 120 demo_lanes.

Lemma takeLocked_fair_witness :
  match takeLocked list_receipt 2 120 demo_due [[x05]; [x06]] with
  | (_, _, Ok ds) => r_Seq ∘ dl_Record <$> ds = [4; 1]
  | _ => False
  end
  ∧ match takeLocked list_receipt 2 120 demo_due [[x05]; [x06]] with
    | (_, _, Ok ds) => ∃ a b rest, ds = a :: b :: rest ∧
      if d_preferRetry demo_due
      then d_states demo_due !! r_Seq (dl_Record a) = Some stateRetry ∧ d_states demo_due !! r_Seq (dl_Record b) = Some stateFresh
      else d_states demo_due !! r_Seq (dl_Record a) = Some stateFresh ∧ d_states demo_due !! r_Seq (dl_Record b) = Some stateRetry
    | (_, _, Err _) => True
    end.
Proof.
  split; [vm_compute; reflexivity|]. apply takeLocked_fair; [|vm_compute; congruence..].
  apply (expireLocked_lemma _ 120 demo_lanes demo_lanes_inv). unfold range_of. reflexivity.
Defined.

(** ** The methods *)

(** C15. [Commit] completes all of its deliveries or none: it calls [persist]
    with their sequences only when every receipt is live, and only if that
    succeeds do the leases end; a refused or failed commit leaves every live
    lease as it was, whatever [persist] does. *)
Theorem Commit_atomic {W : Type} (persist : list Z → W → W * option goerr) (env : Env) (d : Dispatcher) (w : W)
    (deliveries : list Delivery) :
  dispatch_inv d → range_of (e_visits env) d →
  commit_result env persist d w deliveries (Commit persist env d w deliveries).
Proof. apply Commit_lemma. Qed.

(** Persisting collects the sequences; it fails for sequence 2. *)
Definition demo_persist (seqs : list Z) (w : list Z) : list Z * option goerr :=
  if bool_decide (2 ∈ seqs) then (w, Some (NewError "disk")) else (w ++ seqs, None).

Lemma Commit_atomic_witness :
  commit_result (demo_env 103 demo_leased) demo_persist demo_leased [] [demo_delivery1; demo_delivery2]
    (Commit demo_persist (demo_env 103 demo_leased) demo_leased [] [demo_delivery1; demo_delivery2])
  ∧ (Commit demo_persist (demo_env 103 demo_leased) demo_leased [] [demo_delivery1]).2 = None
  ∧ (Commit demo_persist (demo_env 103 demo_leased) demo_leased [] [demo_delivery1; demo_delivery2]).2 = Some (NewError "disk").
Proof.
  split; [|split; vm_compute; reflexivity].
  apply (Commit_atomic demo_persist (demo_env 103 demo_leased) demo_leased []); [apply demo_leased_inv|apply demo_range].
Defined.

(** [DeadLetter] ends a lease only when its transfer was persisted. *)
Theorem DeadLetter_atomic {W : Type} (persist : Z → W → W * option goerr) (env : Env) (d : Dispatcher) (w : W)
    (delivery : Delivery) :
  dispatch_inv d → range_of (e_visits env) d →
  dead_letter_result env persist d w delivery (DeadLetter persist env d w delivery).
Proof. apply DeadLetter_lemma. Qed.

Lemma DeadLetter_atomic_witness :
  dead_letter_result (demo_env 103 demo_leased) (λ seq, demo_persist [seq]) demo_leased [] demo_delivery2
    (DeadLetter (λ seq, demo_persist [seq]) (demo_env 103 demo_leased) demo_leased [] demo_delivery2).
Proof. apply DeadLetter_atomic; [apply demo_leased_inv|apply demo_range]. Defined.

(** C33. [Retry] moves all of its deliveries into the retry lane or none: each
    becomes ready after the backoff of its attempt, with the next attempt, and
    its lease is gone; a stale receipt changes no lease. *)
Theorem Retry_atomic (out_of_range : float64 → Z) (env : Env) (d : Dispatcher) (deliveries : list Delivery) :
  dispatch_inv d → range_of (e_visits env) d →
  match Retry out_of_range env d deliveries with
  | (d', None) => deliveries = [] ∧ d' = d
                  ∨ d_closed d = false ∧ valid_deliveries (live (e_now env) d) deliveries
                    ∧ retries_done env out_of_range d deliveries d'
  | (d', Some e) =>
      d_closed d = true ∧ e = Sentinel dispatch_ErrClosed ∧ d' = d
      ∨ d_closed d = false ∧ expires (e_now env) d d'
        ∧ ¬ valid_deliveries (live (e_now env) d) deliveries ∧ e = Sentinel dispatch_ErrStaleDelivery
  end.
Proof. apply Retry_lemma. Qed.

Lemma Retry_atomic_witness :
  item_key <$> d_retries demo_lanes = [(demo_record 1, 2, 108)]
  ∧ retries_done (demo_env 103 demo_leased) (λ _, 0) demo_leased [demo_delivery1] demo_lanes.
Proof.
  split; [vm_compute; reflexivity|].
  pose proof (Retry_atomic (λ _, 0) (demo_env 103 demo_leased) demo_leased [demo_delivery1] demo_leased_inv (demo_range _ _)) as H.
  assert (Hok : (Retry (λ _, 0) (demo_env 103 demo_leased) demo_leased [demo_delivery1]).2 = None) by (vm_compute; reflexivity).
  unfold demo_lanes. destruct (Retry _ _ _ _) as [d' [e|]]; [done|]. by destruct H as [[? _]|(_ & _ & ?)].
Defined.

(** [Extend] moves the deadlines of exactly the presented leases, by exactly
    the extension, when all of them are live, and none otherwise. *)
Theorem Extend_atomic (env : Env) (extension : Z) (d : Dispatcher) (deliveries : list Delivery) :
  dispatch_inv d → range_of (e_visits env) d →
  match Extend env extension d deliveries with
  | (d', None) => 0 < extension ∧
      (deliveries = [] ∧ d' = d
       ∨ d_closed d = false ∧ valid_deliveries (live (e_now env) d) deliveries ∧ extends_done env extension d deliveries d')
  | (d', Some e) =>
      extension ≤ 0 ∧ e = Sentinel dispatch_ErrInvalidExtension ∧ d' = d
      ∨ d_closed d = true ∧ e = Sentinel dispatch_ErrClosed ∧ d' = d
      ∨ d_closed d = false ∧ expires (e_now env) d d'
        ∧ ¬ valid_deliveries (live (e_now env) d) deliveries ∧ e = Sentinel dispatch_ErrStaleDelivery
  end.
Proof. apply Extend_lemma. Qed.

Lemma Extend_atomic_witness :
  match Extend (demo_env 103 demo_leased) 7 demo_leased [demo_delivery1] with
  | (d', None) => extends_done (demo_env 103 demo_leased) 7 demo_leased [demo_delivery1] d'
  | _ => False
  end.
Proof.
  pose proof (Extend_atomic (demo_env 103 demo_leased) 7 demo_leased [demo_delivery1] demo_leased_inv (demo_range _ _)) as H.
  assert (Hok : (Extend (demo_env 103 demo_leased) 7 demo_leased [demo_delivery1]).2 = None) by (vm_compute; reflexivity).
  destruct (Extend _ _ _ _) as [d' [e|]]; [done|]. by destruct H as [_ [[? _]|(_ & _ & ?)]].
Defined.

(** A snapshot is consistent: its three lanes add up to the tracked records,
    the leases it counts are live at that instant, and the lanes are within
    their configured bounds. *)
Theorem Snapshot_consistent (env : Env) (d : Dispatcher) :
  dispatch_inv d → range_of (e_visits env) d →
  let '(d', stats) := Snapshot env d in
  expires (e_now env) d d'
  ∧ st_Ready stats + st_Retry stats + st_InFlight stats = Z.of_nat (size (d_states d'))
  ∧ st_InFlight stats = Z.of_nat (size (live (e_now env) d)) ∧ st_InFlight stats ≤ cfg_MaxInFlight (d_config d)
  ∧ st_Ready stats = Z.of_nat (length (d_fresh d)) ∧ st_Ready stats ≤ cfg_PrefetchCapacity (d_config d).
Proof. apply Snapshot_lemma. Qed.

Lemma Snapshot_consistent_witness :
  let '(d', stats) := Snapshot (demo_env 115 demo_lanes) demo_lanes in
  (st_Ready stats, st_Retry stats, st_InFlight stats) = (1, 2, 0)
  ∧ st_Ready stats + st_Retry stats + st_InFlight stats = Z.of_nat (size (d_states d')).
Proof.
  pose proof (Snapshot_consistent (demo_env 115 demo_lanes) demo_lanes demo_lanes_inv (demo_range _ _)) as H.
  destruct (Snapshot _ _) as [d' stats] eqn:E. destruct H as (_ & H & _). split; [|exact H].
  replace stats with (Snapshot (demo_env 115 demo_lanes) demo_lanes).2 by (by rewrite E). vm_compute. reflexivity.
Defined.

(** ** Integer overflow *)

(** The limit on tracked records overflows.  When [PrefetchCapacity] and
    [MaxInFlight], each a valid positive [int], add up to more than an [int]
    holds, the sum wraps to a negative number: a dispatcher without retries
    never leases a record, however many are in its fresh lane. *)
Theorem tracked_limit_overflow {Rng : Type} (newReceipt : Rng → res Receipt * Rng) (count now : Z) (d : Dispatcher) (g : Rng) :
  is_i64 (cfg_PrefetchCapacity (d_config d)) → is_i64 (cfg_MaxInFlight (d_config d)) →
  2 ^ 63 ≤ cfg_PrefetchCapacity (d_config d) + cfg_MaxInFlight (d_config d) →
  d_retries d = [] →
  takeLocked newReceipt count now d g = (d, g, Ok []).
Proof.
  intros Hp Hm Hsum Hr. unfold takeLocked. destruct (Z.to_nat _); [done|]. cbn [take_loop].
  assert (Hf : fresh_ready d = false).
  { unfold fresh_ready. apply andb_false_intro2. apply Z.ltb_ge.
    assert (i64 (cfg_PrefetchCapacity (d_config d) + cfg_MaxInFlight (d_config d)) < 0); [|lia].
    unfold is_i64, i64, u64 in *. case_match; zbool; zmod. }
  assert (Hrr : retry_ready now d = false) by (unfold retry_ready; by rewrite Hr). by rewrite Hf, Hrr.
Qed.

Definition huge_config : Config :=
  {| cfg_PrefetchCapacity := 1024; cfg_MaxInFlight := 2 ^ 63 - 1; cfg_VisibilityTimeout := 30 * second;
     cfg_RetryInitial := 1 * second; cfg_RetryMax := 60 * second; cfg_RetryMultiplier := float64_of_Z 2 |}.
Definition huge_new : Dispatcher :=
  {| d_config := huge_config; d_closed := false; d_cursor := 1; d_scanDone := false; d_scanEmpty := false;
     d_fresh := []; d_retries := []; d_inFlight := ∅; d_states := ∅; d_preferRetry := false;
     d_signal := false; d_stats := zero_stats; d_expireAt := zero_time |}.
Definition huge_filled : Dispatcher := (fillFresh demo_scan huge_new).1.

Lemma tracked_limit_overflow_witness :
  New false huge_config = Ok huge_new ∧ length (d_fresh huge_filled) = 3%nat
  ∧ takeLocked list_receipt 1 100 huge_filled [[x01]] = (huge_filled, [[x01]], Ok []).
Proof.
  split; [vm_compute; reflexivity|]. split; [vm_compute; reflexivity|].
  apply tracked_limit_overflow; vm_compute; try done; split; done.
Defined.
