(* ===== verification/Queue.v ===== *)
(** * One log at work: readers, producers and the store together

    The shared state is the durable log, the dispatcher, the scan lock and the
    program counters of the goroutines in [Read].  A step is one critical
    section of the code, or the scan between two of them, so every interleaving
    of the goroutines is a sequence of steps.

    What the dispatcher needs of the store is the class [DurableLog]; the store
    is an instance (StoreLog.v). *)
From S2P Require Import Prelude Errors Store Heap Backoff Dispatch DispatchInv DispatchOps.
From S2P Require Import DispatchTake DispatchFill DispatchCalls.
#[local] Open Scope Z_scope.

(** ** What the dispatcher relies on *)

Class DurableLog (W : Type) : Type := {
  log_ok : W → Prop;
  (** The pending record of a sequence, as it is stored. *)
  log_record : W → Z → option StoreRecord;
  log_tail : W → Z;
  log_scan : W → Z → Z → list StoreRecord * option goerr
}.

Definition log_pending {W} `{DurableLog W} (w : W) (seq : Z) : Prop := is_Some (log_record w seq).

(** A page: the pending records from [from] on, in order, [limit] at most; it
    is short of [limit] only when there is nothing above it. *)
Record page_of {W} `{DurableLog W} (w : W) (from limit : Z) (records : list StoreRecord) : Prop := {
  page_sorted : page_ok records;
  page_limit : Z.of_nat (length records) ≤ limit;
  page_record record : record ∈ records → from ≤ r_Seq record ∧ log_record w (r_Seq record) = Some record;
  page_complete seq : from ≤ seq → log_pending w seq →
    seq ∈ r_Seq <$> records
    ∨ Z.of_nat (length records) = limit ∧ ∀ record, record ∈ records → r_Seq record < seq
}.

Class DurableLogSpec (W : Type) `{DurableLog W} : Prop := {
  log_range w seq : log_ok w → log_pending w seq → 1 ≤ seq ≤ log_tail w;
  log_tail_range w : log_ok w → 0 ≤ log_tail w ≤ max_uint64;
  log_scan_spec w from limit records :
    log_ok w → 1 ≤ from ≤ max_uint64 → 0 < limit → log_scan w from limit = (records, None) → page_of w from limit records
}.

Section queue.
Context {W : Type} `{!DurableLog W} `{!DurableLogSpec W}.

(** A write that makes records pending: above the tail, and no other change. *)
Record grows (w w' : W) : Prop := {
  grows_ok : log_ok w';
  grows_tail : log_tail w ≤ log_tail w';
  grows_old seq record : log_record w seq = Some record → log_record w' seq = Some record;
  grows_new seq : log_pending w' seq → log_pending w seq ∨ log_tail w < seq
}.

(** A call that completes the records [seqs], all or none. *)
Definition completes_in (w : W) (seqs : list Z) (out : W * option goerr) : Prop :=
  let '(w', err) := out in
  log_ok w' ∧ log_tail w' = log_tail w
  ∧ ∀ seq, log_record w' seq =
      match err with Some _ => log_record w seq | None => if decide (seq ∈ seqs) then None else log_record w seq end.

Lemma grows_pending w w' seq : grows w w' → log_pending w seq → log_pending w' seq.
Proof. intros Hg [record Hr]. exists record. by apply (grows_old _ _ Hg). Qed.

Lemma completes_in_pending w seqs w' err seq :
  completes_in w seqs (w', err) → (log_pending w' seq ↔ log_pending w seq ∧ (err = None → seq ∉ seqs)).
Proof.
  intros (_ & _ & Hr). unfold log_pending. rewrite Hr. destruct err as [e|].
  - split; [by split|by intros []].
  - case_decide as Hin; split.
    + by intros [].
    + intros [_ Hn]. by specialize (Hn eq_refl).
    + by split.
    + by intros [].
Qed.

Definition completes (persist : list Z → W → W * option goerr) : Prop :=
  ∀ seqs w, log_ok w → (∀ seq, seq ∈ seqs → log_pending w seq) → completes_in w seqs (persist seqs w).
Definition completes_one (persist : Z → W → W * option goerr) : Prop :=
  ∀ seq w, log_ok w → log_pending w seq → completes_in w [seq] (persist seq w).

(** ** States *)

(** Where a goroutine is in [Read]; [after] is the wake time it waits for when
    the scan makes no progress, none in the early call of [fillFresh]. *)
Inductive pc : Type :=
| PcTop (count : Z)
| PcFill (count : Z) (after : option Z)
| PcScan (count : Z) (after : option Z) (from free : Z)
| PcScanned (count : Z) (after : option Z) (from free : Z) (result : list StoreRecord * option goerr)
| PcWait (count wakeAt : Z)
| PcDone (r : res (list Delivery)).

Record sys : Type := {
  sys_log : W;
  sys_d : Dispatcher;
  sys_scanMu : option nat;
  sys_readers : gmap nat pc;
  (** Writes whose [Notify] has not run yet. *)
  sys_unnotified : nat
}.

Definition sys_init (w : W) (d : Dispatcher) : sys :=
  {| sys_log := w; sys_d := d; sys_scanMu := None; sys_readers := ∅; sys_unnotified := 0 |}.

Definition set_d (s : sys) (d : Dispatcher) : sys :=
  {| sys_log := sys_log s; sys_d := d; sys_scanMu := sys_scanMu s; sys_readers := sys_readers s;
     sys_unnotified := sys_unnotified s |}.
Definition set_log (s : sys) (w : W) : sys :=
  {| sys_log := w; sys_d := sys_d s; sys_scanMu := sys_scanMu s; sys_readers := sys_readers s;
     sys_unnotified := sys_unnotified s |}.
Definition set_unnotified (s : sys) (n : nat) : sys :=
  {| sys_log := sys_log s; sys_d := sys_d s; sys_scanMu := sys_scanMu s; sys_readers := sys_readers s;
     sys_unnotified := n |}.
Definition set_reader (s : sys) (i : nat) (p : pc) : sys :=
  {| sys_log := sys_log s; sys_d := sys_d s; sys_scanMu := sys_scanMu s; sys_readers := <[i := p]> (sys_readers s);
     sys_unnotified := sys_unnotified s |}.
Definition set_scanMu (s : sys) (holder : option nat) : sys :=
  {| sys_log := sys_log s; sys_d := sys_d s; sys_scanMu := holder; sys_readers := sys_readers s;
     sys_unnotified := sys_unnotified s |}.

(** ** The code of Read *)

(** [Read] up to its loop. *)
Definition read_start (count : Z) : pc :=
  if count <=? 0 then PcDone (Err (Sentinel dispatch_ErrInvalidCount)) else PcTop count.

(** After [read_top]. *)
Definition after_top (count : Z) (next : read_next) : pc :=
  match next with
  | ReadReturn r => PcDone r
  | ReadRefill => PcFill count None
  | ReadFill wakeAt => PcFill count (Some wakeAt)
  end.

(** After [fillFresh]. *)
Definition after_fill (count : Z) (after : option Z) (r : res bool) : pc :=
  match r, after with
  | Err e, _ => PcDone (Err e)
  | Ok _, None => PcTop count
  | Ok true, Some _ => PcTop count
  | Ok false, Some wakeAt => PcWait count wakeAt
  end.

(** After [wait]. *)
Definition after_wait (count : Z) (err : option goerr) : pc :=
  match err with Some e => PcDone (Err e) | None => PcTop count end.

(** ** Steps *)

Inductive reader_step (i : nat) : sys → sys → Prop :=
| step_start s count :
    sys_readers s !! i = None →
    reader_step i s (set_reader s i (read_start count))
| step_top s count (Rng : Type) (newReceipt : Rng → res Receipt * Rng) (g g' : Rng) env visits' d next :
    sys_readers s !! i = Some (PcTop count) →
    range_of (e_visits env) (sys_d s) →
    read_top newReceipt env visits' count (sys_d s) g = (d, g', next) →
    reader_step i s (set_reader (set_d s d) i (after_top count next))
| step_fill_skip s count after d :
    sys_readers s !! i = Some (PcFill count after) → sys_scanMu s = None →
    fill_begin (sys_d s) = (d, None) →
    reader_step i s (set_reader (set_d s d) i (after_fill count after (Ok false)))
| step_fill_begin s count after d from free :
    sys_readers s !! i = Some (PcFill count after) → sys_scanMu s = None →
    fill_begin (sys_d s) = (d, Some (from, free)) →
    reader_step i s (set_scanMu (set_reader (set_d s d) i (PcScan count after from free)) (Some i))
| step_scan s count after from free :
    sys_readers s !! i = Some (PcScan count after from free) →
    reader_step i s (set_reader s i (PcScanned count after from free (log_scan (sys_log s) from free)))
| step_fill_end s count after from free result d r :
    sys_readers s !! i = Some (PcScanned count after from free result) →
    fill_end free result (sys_d s) = (d, r) →
    reader_step i s (set_scanMu (set_reader (set_d s d) i (after_fill count after r)) None)
| step_wait s count wakeAt now ev d err :
    sys_readers s !! i = Some (PcWait count wakeAt) →
    wait now wakeAt ev (sys_d s) = Some (d, err) →
    reader_step i s (set_reader (set_d s d) i (after_wait count err)).

(** Everything else that runs beside the readers. *)
Inductive other_step : sys → sys → Prop :=
| step_write s w :
    grows (sys_log s) w → other_step s (set_unnotified (set_log s w) (S (sys_unnotified s)))
| step_notify s n :
    sys_unnotified s = S n → other_step s (set_unnotified (set_d s (Notify (sys_d s))) n)
| step_Commit s persist env d w err deliveries :
    completes persist → range_of (e_visits env) (sys_d s) →
    Commit persist env (sys_d s) (sys_log s) deliveries = (d, w, err) →
    other_step s (set_log (set_d s d) w)
| step_DeadLetter s persist env d w err delivery :
    completes_one persist →
    range_of (e_visits env) (sys_d s) →
    DeadLetter persist env (sys_d s) (sys_log s) delivery = (d, w, err) →
    other_step s (set_log (set_d s d) w)
| step_Retry s out_of_range env d err deliveries :
    range_of (e_visits env) (sys_d s) →
    Retry out_of_range env (sys_d s) deliveries = (d, err) → other_step s (set_d s d)
| step_Extend s extension env d err deliveries :
    range_of (e_visits env) (sys_d s) →
    Extend env extension (sys_d s) deliveries = (d, err) → other_step s (set_d s d)
| step_Snapshot s env d stats :
    range_of (e_visits env) (sys_d s) →
    Snapshot env (sys_d s) = (d, stats) → other_step s (set_d s d)
| step_Close s : other_step s (set_d s (Close (sys_d s))).

Definition step (s s' : sys) : Prop := (∃ i, reader_step i s s') ∨ other_step s s'.

(** ** The invariant *)

(** What a goroutine between the critical sections of [fillFresh] knows. *)
Record scanning (s : sys) (i : nat) (from free : Z) : Prop := {
  scanning_mu : sys_scanMu s = Some i;
  scanning_cursor : d_cursor (sys_d s) = from ∧ d_scanDone (sys_d s) = false;
  scanning_free : 0 < free ∧ free + Z.of_nat (length (d_fresh (sys_d s))) ≤ cfg_PrefetchCapacity (d_config (sys_d s))
}.

(** A page that was read before: later writes are above it. *)
Record stale_page (s : sys) (from free : Z) (records : list StoreRecord) : Prop := {
  stale_sorted : page_ok records;
  stale_limit : Z.of_nat (length records) ≤ free;
  stale_record record : record ∈ records → from ≤ r_Seq record ∧ log_record (sys_log s) (r_Seq record) = Some record;
  stale_complete seq record : from ≤ seq → log_pending (sys_log s) seq → record ∈ records → seq ≤ r_Seq record →
    seq ∈ r_Seq <$> records;
  stale_all seq : d_scanEmpty (sys_d s) = true → sys_unnotified s = 0%nat → Z.of_nat (length records) ≠ free →
    from ≤ seq → log_pending (sys_log s) seq → seq ∈ r_Seq <$> records
}.

Definition reader_ok (s : sys) (i : nat) (p : pc) : Prop :=
  match p with
  | PcScan _ _ from free => scanning s i from free
  | PcScanned _ _ from free (records, None) => scanning s i from free ∧ stale_page s from free records
  | PcScanned _ _ from free (_, Some _) => scanning s i from free
  | _ => sys_scanMu s ≠ Some i
  end.

Record sys_inv (s : sys) : Prop := {
  si_log : log_ok (sys_log s);
  si_dispatch : dispatch_inv (sys_d s);
  si_readers i p : sys_readers s !! i = Some p → reader_ok s i p;
  si_holder i : sys_scanMu s = Some i → is_Some (sys_readers s !! i);
  (** The scan does not run ahead of the tail. *)
  si_cursor : d_cursor (sys_d s) ≤ log_tail (sys_log s) + 1
              ∧ (d_scanDone (sys_d s) = true → log_tail (sys_log s) = max_uint64);
  (** What is in a lane is as the store has it. *)
  si_held record : held (sys_d s) record → log_record (sys_log s) (r_Seq record) = Some record;
  (** What is tracked is pending. *)
  si_tracked seq : tracked (sys_d s) seq → log_pending (sys_log s) seq;
  (** Nothing pending is skipped. *)
  si_scanned seq : log_pending (sys_log s) seq → scanned (sys_d s) seq → tracked (sys_d s) seq;
  (** The empty-scan mark is right once every write is notified. *)
  si_scanEmpty seq : sys_scanMu s = None → sys_unnotified s = 0%nat → d_scanEmpty (sys_d s) = true →
    log_pending (sys_log s) seq → scanned (sys_d s) seq
}.
End queue.
