(* ===== verification/QueueInv.v ===== *)
(** * The invariant of a running log

    Every step of Queue.v keeps [sys_inv]. *)
From S2P Require Import Prelude Errors Store Heap Backoff Dispatch DispatchInv DispatchOps.
From S2P Require Import DispatchTake DispatchFill DispatchCalls Queue.
#[local] Open Scope Z_scope.

Section inv.
Context {W : Type} `{!DurableLog W} `{!DurableLogSpec W}.
Implicit Types (s : sys (W := W)) (w : W) (d : Dispatcher).

(** ** Program counters *)

(** Outside the scan. *)
Definition idle (p : pc) : Prop :=
  match p with PcScan _ _ _ _ | PcScanned _ _ _ _ _ => False | _ => True end.

Lemma idle_ok s i p : idle p → (reader_ok s i p ↔ sys_scanMu s ≠ Some i).
Proof. by destruct p. Qed.

Lemma not_holder_idle s i p : reader_ok s i p → sys_scanMu s ≠ Some i → idle p.
Proof. destruct p as [| | |? ? ? ? [? [|]]| |]; cbn; try done; [intros []|intros []|intros [[] _]]; done. Qed.

Lemma stale_page_ext s s' from free records :
  sys_log s' = sys_log s → sys_d s' = sys_d s → sys_unnotified s' = sys_unnotified s →
  stale_page s from free records → stale_page s' from free records.
Proof. intros H1 H2 H3 []. split; rewrite ?H1, ?H2, ?H3; done. Qed.

Lemma scanning_ext s s' i from free :
  sys_d s' = sys_d s → sys_scanMu s' = sys_scanMu s → scanning s i from free → scanning s' i from free.
Proof. intros H1 H2 []. by split; rewrite ?H1, ?H2. Qed.

Lemma reader_ok_ext s s' i p :
  sys_log s' = sys_log s → sys_d s' = sys_d s → sys_unnotified s' = sys_unnotified s → sys_scanMu s' = sys_scanMu s →
  reader_ok s i p → reader_ok s' i p.
Proof.
  intros H1 H2 H3 H4. destruct p as [| | |? ? ? ? [? [|]]| |]; cbn; rewrite ?H4; try done.
  - by apply scanning_ext.
  - by apply scanning_ext.
  - intros [Hs Hp]. split; [by apply (scanning_ext s)|by apply (stale_page_ext s)].
Qed.

Lemma after_top_idle count next : idle (after_top count next).
Proof. by destruct next. Qed.
Lemma after_fill_idle count after r : idle (after_fill count after r).
Proof. by destruct r as [[]|], after. Qed.
Lemma after_wait_idle count err : idle (after_wait count err).
Proof. by destruct err. Qed.
Lemma read_start_idle count : idle (read_start count).
Proof. unfold read_start. by case_match. Qed.

Lemma set_reader_inv s i p :
  sys_inv s → sys_scanMu s ≠ Some i → idle p → sys_inv (set_reader s i p).
Proof.
  intros [Hlog Hdi Hrd Hho Hcu Hhe Htr Hsn Hse] Hmu Hp. split; try done.
  - intros j q. cbn. rewrite lookup_insert. case_decide as Heq.
    + subst j. intros [= <-]. by apply idle_ok.
    + intros Hq. apply (reader_ok_ext s); [done..|by apply Hrd].
  - intros j Hj. cbn. rewrite lookup_insert. case_decide; [by eexists|]. by apply Hho.
Qed.

(** ** Dispatcher steps that do not scan or complete *)

Lemma quiet_scanned d d' seq : quiet d d' → (scanned d' seq ↔ scanned d seq).
Proof. intros []. unfold scanned. by rewrite qt_cursor, qt_scanDone. Qed.

Lemma scanning_quiet s i from free d' : quiet (sys_d s) d' → scanning s i from free → scanning (set_d s d') i from free.
Proof.
  intros [] [H1 H2 [H3 H4]]. split; cbn; [done|by rewrite qt_cursor, qt_scanDone|rewrite qt_config; lia].
Qed.

Lemma quiet_inv s d' : sys_inv s → dispatch_inv d' → quiet (sys_d s) d' → sys_inv (set_d s d').
Proof.
  intros [Hlog Hdi Hrd Hho Hcu Hhe Htr Hsn Hse] Hd Hq. split; try done; cbn.
  - intros i p Hp. specialize (Hrd i p Hp).
    destruct p as [| | |? ? ? ? [? [|]]| |]; try done; cbn in *.
    + by apply scanning_quiet.
    + by apply scanning_quiet.
    + destruct Hrd as [Hsc []]. split; [by apply scanning_quiet|]. split; try done. cbn.
      by rewrite (qt_scanEmpty _ _ Hq).
  - by rewrite (qt_cursor _ _ Hq), (qt_scanDone _ _ Hq).
  - intros record Hin. by apply Hhe, (qt_held _ _ Hq).
  - intros seq. rewrite (qt_tracked _ _ Hq). auto.
  - intros seq. rewrite (qt_tracked _ _ Hq), (quiet_scanned _ _ _ Hq). auto.
  - intros seq. rewrite (quiet_scanned _ _ _ Hq), (qt_scanEmpty _ _ Hq). auto.
Qed.

(** ** The scan *)

Lemma fill_begin_spec d d' from free :
  fill_begin d = (d', Some (from, free)) →
  d' = with_scanEmpty d true ∧ d_scanDone d = false ∧ d_closed d = false ∧ from = d_cursor d ∧ 0 < free
  ∧ free = cfg_PrefetchCapacity (d_config d) - Z.of_nat (length (d_fresh d)).
Proof.
  unfold fill_begin. destruct (d_closed d || d_scanDone d || d_scanEmpty d) eqn:E; [done|].
  apply orb_false_iff in E as [E _]. apply orb_false_iff in E as [E1 E2].
  case_match eqn:Hf; [done|]. intros [= <- <- <-]. zbool. by split_and!.
Qed.

Lemma fill_begin_skip d d' : fill_begin d = (d', None) → d' = d.
Proof. unfold fill_begin. repeat case_match; congruence. Qed.

Lemma scanEmpty_inv d b : dispatch_inv d → dispatch_inv (with_scanEmpty d b).
Proof. by apply same_lanes_inv. Qed.

Lemma step_fill_begin_inv s i count after d' from free :
  sys_inv s → sys_readers s !! i = Some (PcFill count after) → sys_scanMu s = None →
  fill_begin (sys_d s) = (d', Some (from, free)) →
  sys_inv (set_scanMu (set_reader (set_d s d') i (PcScan count after from free)) (Some i)).
Proof.
  intros [Hlog Hdi Hrd Hho Hcu Hhe Htr Hsn Hse] Hi Hmu (-> & Hdone & Hcl & -> & Hfree & Hf)%fill_begin_spec. split; try done; cbn.
  - by apply scanEmpty_inv.
  - intros j p. rewrite lookup_insert. case_decide as Heq.
    + subst j. intros [= <-]. cbn. split; cbn; [done|done|lia].
    + intros Hp. apply idle_ok; [|cbn; congruence]. eapply not_holder_idle; [by apply Hrd|by rewrite Hmu].
  - intros j [= <-]. by rewrite lookup_insert_eq.
Qed.

Lemma page_stale s from free records :
  page_of (sys_log s) from free records → stale_page s from free records.
Proof.
  intros []. split; try done.
  - intros seq record Hfrom Hpend Hin Hle. destruct (page_complete seq Hfrom Hpend) as [?|[_ Hall]]; [done|].
    specialize (Hall record Hin). lia.
  - intros seq _ _ Hne Hfrom Hpend. by destruct (page_complete seq Hfrom Hpend) as [?|[? _]].
Qed.

Lemma step_scan_inv s i count after from free :
  sys_inv s → sys_readers s !! i = Some (PcScan count after from free) →
  sys_inv (set_reader s i (PcScanned count after from free (log_scan (sys_log s) from free))).
Proof.
  intros Hinv Hi. pose proof Hinv as [Hlog Hdi Hrd Hho Hcu Hhe Htr Hsn Hse]. pose proof (Hrd i _ Hi) as Hsc. cbn in Hsc.
  split; try done; cbn.
  - intros j p. rewrite lookup_insert. case_decide as Heq.
    + subst j. intros [= <-]. cbn. destruct (log_scan (sys_log s) from free) as [records [e|]] eqn:Escan; [by apply (scanning_ext s)|].
      split; [by apply (scanning_ext s)|]. eapply (stale_page_ext s); [done..|]. apply page_stale.
      destruct Hsc as [_ [<- _] [Hfree _]]. apply log_scan_spec; [done| |done|done].
      apply (scan_cursor _ (inv_scan _ Hdi)).
    + intros Hp. apply (reader_ok_ext s); [done..|by apply Hrd].
  - intros j Hj. rewrite lookup_insert. case_decide; [by eexists|]. by apply Hho.
Qed.

(** The records of a page that come after the fill. *)
Lemma new_records_page d from records :
  d_cursor d = from → (∀ record, record ∈ records → from ≤ r_Seq record) → new_records d records = records.
Proof. intros <-. apply new_records_all. Qed.

(** The dispatcher after the pages's records went into the fresh lane. *)
Lemma filled_inv d records d' :
  dispatch_inv d → filled d records d' → new_records d records = records →
  Z.of_nat (length records) + Z.of_nat (length (d_fresh d)) ≤ cfg_PrefetchCapacity (d_config d) → dispatch_inv d'.
Proof.
  intros [Hc Hl He [Hb1 Hb2 Hb3] Hs] [] Hnew Hlen. split.
  - by rewrite fi_config.
  - done.
  - intros r f. rewrite fi_inFlight, fi_expireAt. apply He.
  - split; rewrite fi_config, ?fi_inFlight, ?fi_retries; [done| |done].
    rewrite fi_fresh, Hnew, length_app, length_fmap. lia.
  - done.
Qed.

(** Releasing the scan lock: no goroutine is scanning any more. *)
Lemma readers_released s i d' p :
  sys_scanMu s = Some i → (∀ j q, sys_readers s !! j = Some q → reader_ok s j q) → idle p →
  ∀ j q, <[i := p]> (sys_readers s) !! j = Some q →
    reader_ok (set_scanMu (set_reader (set_d s d') i p) None) j q.
Proof.
  intros Hmu Hrd Hp j q. rewrite lookup_insert. case_decide as Heq.
  - intros [= <-]. by apply idle_ok.
  - intros Hq. apply idle_ok; [|done]. eapply not_holder_idle; [by apply Hrd|]. rewrite Hmu. congruence.
Qed.

(** The cursor after a fill stays behind the tail. *)
Lemma filled_cursor d records d' w :
  scan_ok d → filled d records d' → d_scanDone d = false →
  (∀ record, record ∈ records → r_Seq record ≤ log_tail w) →
  log_ok w → d_cursor d ≤ log_tail w + 1 →
  d_cursor d' ≤ log_tail w + 1 ∧ (d_scanDone d' = true → log_tail w = max_uint64).
Proof.
  intros Hs Hf Hdone Htail Hw Hcur. pose proof (log_tail_range w Hw) as Hmax.
  pose proof (scan_cursor _ (fi_scan _ _ _ Hf)) as Hc'. pose proof (scan_cursor _ Hs) as Hc.
  assert (Hnew : ∀ record, record ∈ new_records d records → r_Seq record ≤ log_tail w).
  { intros record Hin. apply Htail. by apply list_elem_of_filter in Hin as [_ ?]. }
  split.
  - destruct (proj1 (fi_scanned _ _ _ Hf (d_cursor d' - 1) ltac:(lia))) as [[?|?]|(record & Hin & Hle)];
      [left; lia|lia|congruence|]. specialize (Hnew record Hin). lia.
  - intros Hd. destruct (proj1 (fi_scanned _ _ _ Hf max_uint64 ltac:(lia))) as [[?|?]|(record & Hin & Hle)];
      [by right|lia|congruence|]. specialize (Hnew record Hin). lia.
Qed.

Lemma step_fill_end_ok s i count after from free records d1 d' r :
  sys_inv s → sys_scanMu s = Some i → scanning s i from free → stale_page s from free records →
  d1 = (if Z.of_nat (length records) =? free then with_scanEmpty (sys_d s) false else sys_d s) →
  filled d1 records d' →
  sys_inv (set_scanMu (set_reader (set_d s d') i (after_fill count after r)) None).
Proof.
  intros [Hlog Hdi Hrd Hho Hcu Hhe Htr Hsn Hse] Hmu [_ [Hfrom Hdone] [Hfree Hroom]] [Hso Hli Hpe Hco Hal] Hd1 Hf.
  assert (Hdi1 : dispatch_inv d1) by (subst d1; case_match; [by apply scanEmpty_inv|done]).
  assert (Hsame : d_cursor d1 = from ∧ d_config d1 = d_config (sys_d s) ∧ d_fresh d1 = d_fresh (sys_d s)
    ∧ d_states d1 = d_states (sys_d s) ∧ d_scanDone d1 = false) by (subst d1; by case_match).
  destruct Hsame as (Hc1 & Hg1 & Hf1 & Hs1 & Hd1').
  assert (Hnew : new_records d1 records = records).
  { apply (new_records_page d1 from); [done|]. intros record Hin. by apply Hpe. }
  assert (Htracked : ∀ seq, tracked d' seq ↔ seq ∈ r_Seq <$> records ∨ tracked (sys_d s) seq).
  { intros seq. unfold tracked. rewrite (fi_states _ _ _ Hf), Hnew, Hs1. case_decide; [|tauto].
    split; [by left|]. intros _. by eexists. }
  assert (Hscanned : ∀ seq, seq ≤ max_uint64 → scanned d' seq ↔ scanned (sys_d s) seq ∨ ∃ record, record ∈ records ∧ seq ≤ r_Seq record).
  { intros seq Hseq. rewrite (fi_scanned _ _ _ Hf seq Hseq), Hnew. unfold scanned. by rewrite Hc1, Hd1', Hfrom, Hdone. }
  assert (Hrange : ∀ seq, log_pending (sys_log s) seq → seq ≤ max_uint64).
  { intros seq Hp. pose proof (log_range _ _ Hlog Hp). pose proof (log_tail_range _ Hlog). lia. }
  split; try done; cbn.
  - eapply (filled_inv d1); [done|done|done|]. rewrite Hf1, Hg1. lia.
  - apply readers_released; [done|done|apply after_fill_idle].
  - apply (filled_cursor d1 records); [apply Hdi1|done|done| |done|rewrite Hc1, <- Hfrom; apply Hcu].
    intros record Hin. destruct (Hpe record Hin) as [_ Hp]. by apply (log_range _ _ Hlog (mk_is_Some _ _ Hp)).
  - intros record Hin. apply (filled_held _ _ _ _ Hf) in Hin as [Hin|Hin].
    + apply Hhe. subst d1. by destruct (_ =? free).
    + rewrite Hnew in Hin. by apply Hpe.
  - intros seq. rewrite Htracked. intros [(record & -> & Hin)%list_elem_of_fmap|Ht]; [|by apply Htr].
    exists record. by apply Hpe.
  - intros seq Hp. rewrite Hscanned, Htracked by by apply Hrange. intros [Hsc|(record & Hin & Hle)]; [right; by apply Hsn|].
    destruct (decide (seq < from)) as [Hlt|Hge]; [right; apply Hsn; [done|]; left; lia|].
    left. eapply Hco; [lia|done|done|done].
  - intros seq _ Hun Hempty Hp. rewrite (fi_scanEmpty _ _ _ Hf) in Hempty.
    rewrite Hscanned by by apply Hrange. destruct (decide (seq < from)) as [Hlt|Hge]; [left; left; lia|right].
    destruct (Z.eqb_spec (Z.of_nat (length records)) free) as [He|Hne]; subst d1; [done|].
    destruct (proj1 (list_elem_of_fmap _ _ _) (Hal seq Hempty Hun Hne ltac:(lia) Hp)) as (record & -> & Hin).
    by exists record.
Qed.

Lemma step_fill_end_inv s i count after from free result d' r :
  sys_inv s → sys_readers s !! i = Some (PcScanned count after from free result) →
  fill_end free result (sys_d s) = (d', r) →
  sys_inv (set_scanMu (set_reader (set_d s d') i (after_fill count after r)) None).
Proof.
  intros Hinv Hi Hend. pose proof (si_readers _ Hinv i _ Hi) as Hok. destruct result as [records [e|]]; cbn in Hok.
  - cbn in Hend. injection Hend as <- <-. destruct Hinv as [Hlog Hdi Hrd Hho Hcu Hhe Htr Hsn Hse].
    split; try done; cbn.
    + by apply scanEmpty_inv.
    + by apply readers_released; [apply Hok|..].
  - destruct Hok as [Hsc Hst]. cbn [fill_end] in Hend. set (d1 := if _ =? _ then _ else _) in Hend.
    assert (Hd : lanes_ok d1 ∧ scan_ok d1 ∧ d_scanDone d1 = false).
    { pose proof (si_dispatch _ Hinv) as Hdi. pose proof (scanning_cursor _ _ _ _ Hsc) as [_ Hdone].
      apply (scanEmpty_inv _ false) in Hdi as Hdi'. unfold d1. destruct (Z.of_nat (length records) =? free); split_and!;
        first [exact (inv_lanes _ Hdi')|exact (inv_scan _ Hdi')|exact (inv_lanes _ Hdi)|exact (inv_scan _ Hdi)|exact Hdone]. }
    destruct Hd as (Hl & Hs & Hdone).
    destruct (fill_fold_lemma d1 false records Hl Hs Hdone (stale_sorted _ _ _ _ Hst)) as [Hf Hp].
    destruct (foldl fill_one (d1, false) records) as [d2 progress]. injection Hend as <- <-. cbn in Hf.
    eapply step_fill_end_ok; [done|apply Hsc|done|done|reflexivity|done].
Qed.

(** ** Writes *)

Lemma step_write_inv s w :
  sys_inv s → grows (sys_log s) w → sys_inv (set_unnotified (set_log s w) (S (sys_unnotified s))).
Proof.
  intros [Hlog Hdi Hrd Hho Hcu Hhe Htr Hsn Hse] [Hw Htail Hold Hnew].
  pose proof (log_tail_range _ Hw) as Hmax.
  assert (Hfresh : ∀ seq, log_pending w seq → scanned (sys_d s) seq → log_pending (sys_log s) seq).
  { intros seq Hp Hs. destruct (Hnew seq Hp) as [|Hgt]; [done|]. pose proof (log_range _ _ Hw Hp).
    destruct Hs as [Hs|Hs]; [lia|]. destruct Hcu as [_ Hcu]. specialize (Hcu Hs). lia. }
  split; try done; cbn.
  - intros i p Hp. specialize (Hrd i p Hp). destruct p as [| | |? ? ? ? [? [|]]| |]; try done; cbn in *.
    + by apply (scanning_ext s).
    + by apply (scanning_ext s).
    + destruct Hrd as [Hsc [Hso Hli Hpe Hco Hal]]. split; [by apply (scanning_ext s)|]. split; cbn; try done.
      * intros record Hin. destruct (Hpe record Hin). auto.
      * intros seq record Hfrom Hp' Hin Hle. eapply Hco; [done| |done|done].
        destruct (Hnew seq Hp') as [|Hgt]; [done|]. destruct (Hpe record Hin) as [_ Hpr].
        pose proof (log_range _ _ Hlog (mk_is_Some _ _ Hpr)). lia.
  - split; [lia|]. intros Hd. destruct Hcu as [_ Hcu]. specialize (Hcu Hd). lia.
  - auto.
  - intros seq Ht. destruct (Htr seq Ht) as [record Hr]. exists record. auto.
  - auto.
Qed.

Lemma step_notify_inv s n :
  sys_inv s → sys_unnotified s = S n → sys_inv (set_unnotified (set_d s (Notify (sys_d s))) n).
Proof.
  intros [Hlog Hdi Hrd Hho Hcu Hhe Htr Hsn Hse] Hn. split; try done; cbn.
  - by apply (same_lanes_inv (sys_d s)).
  - intros i p Hp. specialize (Hrd i p Hp). destruct p as [| | |? ? ? ? [? [|]]| |]; try done; cbn in *.
    + by destruct Hrd.
    + by destruct Hrd.
    + destruct Hrd as [[] [Hso Hli Hpe Hco Hal]]. split; [done|]. split; cbn; done.
Qed.

(** ** Completion *)

Lemma valid_tracked d now deliveries seq :
  dispatch_inv d → valid_deliveries (live now d) deliveries → seq ∈ delivered_seqs deliveries → tracked d seq.
Proof.
  intros Hdi [_ Hv] (dl & -> & Hin)%list_elem_of_fmap. destruct (Hv dl Hin) as (f & Hf & Hs & _).
  apply live_lookup in Hf as [Hf _]. rewrite <- Hs. unfold tracked.
  by rewrite (lanes_ok_flight _ _ _ (inv_lanes _ Hdi) Hf).
Qed.

Lemma complete_inv s env deliveries d' w' :
  sys_inv s → valid_deliveries (live (e_now env) (sys_d s)) deliveries →
  completed env (sys_d s) deliveries d' →
  completes_in (sys_log s) (delivered_seqs deliveries) (w', None) →
  sys_inv (set_log (set_d s d') w').
Proof.
  intros [Hlog Hdi Hrd Hho Hcu Hhe Htr Hsn Hse] Hv Hdone Hcompl. pose proof (λ record, completed_held env _ _ _ record Hdone) as Hheld.
  destruct Hdone as [Ci Cc Ccl [Cc1 [Cc2 Cc3]] Cf Csig Cif Ct _].
  pose proof (λ seq, completes_in_pending _ _ _ _ seq Hcompl) as Hpend. destruct Hcompl as (Hw & Htail & Hrecord).
  pose proof (λ seq, valid_tracked (sys_d s) _ deliveries seq Hdi Hv) as Hseqs.
  assert (Hscan : ∀ seq, scanned d' seq ↔ scanned (sys_d s) seq) by (intros; unfold scanned; by rewrite Cc1, Cc2).
  split; try done; cbn.
  - intros i p Hp. specialize (Hrd i p Hp).
    assert (Hsc' : ∀ from free, scanning s i from free → scanning (set_log (set_d s d') w') i from free).
    { intros from free [H1 H2 H3]. split; cbn; [done|by rewrite Cc1, Cc2|by rewrite Cc, Cf]. }
    destruct p as [| | |? ? ? ? [? [|]]| |]; try done; cbn in *; [by apply Hsc'|by apply Hsc'|].
    destruct Hrd as [Hsc [Hso Hli Hpe Hco Hal]]. split; [by apply Hsc'|]. split; cbn; try done.
    + intros record Hin. destruct (Hpe record Hin) as [Hfr Hpr]. split; [done|]. rewrite Hrecord.
      rewrite decide_False; [done|]. intros [s' Hs']%Hseqs. destruct (scan_tracked _ (inv_scan _ Hdi) _ _ Hs') as [_ [Hlt|[Hd _]]];
        destruct (scanning_cursor _ _ _ _ Hsc) as [Hcur Hdone]; [lia|congruence].
    + intros seq record Hfr [Hp' _]%Hpend. by apply Hco.
    + intros seq. rewrite Cc3. intros He Hu Hne Hfr [Hp' _]%Hpend. by apply Hal.
  - by rewrite Cc1, Cc2, Htail.
  - intros record [Hh Hn]%Hheld. rewrite Hrecord, decide_False by done. by apply Hhe.
  - intros seq [Ht Hn]%Ct. apply Hpend. auto.
  - intros seq [Hp Hn]%Hpend Hs%Hscan. apply Ct. split; [by apply Hsn|by apply Hn].
  - intros seq Hmu Hu. rewrite Cc3. intros He [Hp _]%Hpend. apply Hscan. by apply Hse.
Qed.

(** A completing call that fails changes neither what is pending nor the tail. *)
Lemma log_same_inv s w' e seqs :
  sys_inv s → completes_in (sys_log s) seqs (w', Some e) → sys_inv (set_log s w').
Proof.
  intros [Hlog Hdi Hrd Hho Hcu Hhe Htr Hsn Hse] (Hw & Htail & Hrecord).
  assert (Hp : ∀ seq, log_pending w' seq ↔ log_pending (sys_log s) seq) by (intros seq; unfold log_pending; by rewrite Hrecord).
  split; try done; cbn.
  - intros i p Hi. specialize (Hrd i p Hi). destruct p as [| | |? ? ? ? [? [|]]| |]; try done; cbn in *.
    + by apply (scanning_ext s).
    + by apply (scanning_ext s).
    + destruct Hrd as [Hsc [Hso Hli Hpe Hco Hal]]. split; [by apply (scanning_ext s)|]. split; cbn; try done.
      * intros record Hin. rewrite Hrecord. by apply Hpe.
      * intros seq record. rewrite Hp. apply Hco.
      * intros seq. rewrite Hp. apply Hal.
  - by rewrite Htail.
  - intros record Hin. rewrite Hrecord. by apply Hhe.
  - intros seq. rewrite Hp. apply Htr.
  - intros seq. rewrite Hp. apply Hsn.
  - intros seq. rewrite Hp. apply Hse.
Qed.

Lemma quiet_log_inv s d' :
  sys_inv s → dispatch_inv d' → quiet (sys_d s) d' → sys_inv (set_log (set_d s d') (sys_log s)).
Proof. apply quiet_inv. Qed.

(** ** Every step *)

Lemma reader_step_inv i s s' : reader_step i s s' → sys_inv s → sys_inv s'.
Proof.
  intros Hstep Hinv. destruct Hstep as
    [s count Hi|s count Rng newReceipt g g' env visits' d next Hi Hr Htop|s count after d Hi Hmu Hb
    |s count after d from free Hi Hmu Hb|s count after from free Hi|s count after from free result d r Hi He
    |s count wakeAt now ev d err Hi Hw].
  - apply set_reader_inv; [done| |apply read_start_idle].
    intros Hmu. destruct (si_holder _ Hinv i Hmu). congruence.
  - destruct (read_top_lemma newReceipt env visits' count (sys_d s) g d g' next (si_dispatch _ Hinv) Hr Htop) as [Hd Hq _].
    apply set_reader_inv; [by apply quiet_inv|exact (si_readers _ Hinv i _ Hi)|apply after_top_idle].
  - apply fill_begin_skip in Hb as ->. apply set_reader_inv; [|by cbn; rewrite Hmu|apply after_fill_idle].
    apply quiet_inv; [done|apply Hinv|done].
  - by eapply step_fill_begin_inv.
  - by eapply step_scan_inv.
  - by eapply step_fill_end_inv.
  - assert (Hq : dispatch_inv d ∧ quiet (sys_d s) d).
    { pose proof (si_dispatch _ Hinv) as Hd. unfold wait in Hw.
      assert (Hsig : dispatch_inv (with_signal (sys_d s) false)) by (by apply (same_lanes_inv (sys_d s))).
      repeat case_match; try done; by injection Hw as <- <-. }
    destruct Hq as [Hd Hq]. apply set_reader_inv; [by apply quiet_inv|exact (si_readers _ Hinv i _ Hi)|apply after_wait_idle].
Qed.

(** Completing calls. *)
Lemma valid_log_pending s now deliveries seq :
  sys_inv s → valid_deliveries (live now (sys_d s)) deliveries → seq ∈ delivered_seqs deliveries → log_pending (sys_log s) seq.
Proof. intros Hinv Hv Hin. apply (si_tracked _ Hinv). eapply valid_tracked; [apply Hinv|done|done]. Qed.

Lemma failed_step_inv s now d seqs w e :
  sys_inv s → expires now (sys_d s) d → completes_in (sys_log s) seqs (w, Some e) → sys_inv (set_log (set_d s d) w).
Proof.
  intros Hinv Hex Hc. eapply log_same_inv; [|exact Hc]. apply (quiet_inv _ _ Hinv); [apply Hex|by eapply expires_quiet].
Qed.

Lemma step_Commit_inv s persist env d w err deliveries :
  sys_inv s → completes persist → range_of (e_visits env) (sys_d s) →
  Commit persist env (sys_d s) (sys_log s) deliveries = (d, w, err) → sys_inv (set_log (set_d s d) w).
Proof.
  intros Hinv Hc Hr He. pose proof (si_dispatch _ Hinv) as Hd.
  pose proof (Commit_lemma env persist (sys_d s) (sys_log s) deliveries Hd Hr) as H. rewrite He in H. cbn in H.
  pose proof (λ Hv, Hc (delivered_seqs deliveries) (sys_log s) (si_log _ Hinv)
    (λ seq, valid_log_pending s (e_now env) deliveries seq Hinv Hv)) as Hc'.
  destruct err as [e|].
  - destruct H as [(_ & _ & -> & ->)|(_ & Hex & [(_ & _ & ->)|(Hval & Hp)])]; [by apply quiet_log_inv|..].
    + apply quiet_log_inv; [done|apply Hex|by eapply expires_quiet].
    + specialize (Hc' Hval). rewrite Hp in Hc'. by eapply failed_step_inv.
  - destruct H as [(_ & -> & ->)|(_ & Hv & Hp & Hco)]; [by apply quiet_log_inv|].
    specialize (Hc' Hv). rewrite Hp in Hc'. by eapply complete_inv.
Qed.

Lemma step_DeadLetter_inv s persist env d w err delivery :
  sys_inv s → completes_one persist → range_of (e_visits env) (sys_d s) →
  DeadLetter persist env (sys_d s) (sys_log s) delivery = (d, w, err) → sys_inv (set_log (set_d s d) w).
Proof.
  intros Hinv Hc Hr He. pose proof (si_dispatch _ Hinv) as Hd.
  pose proof (DeadLetter_lemma env persist (sys_d s) (sys_log s) delivery Hd Hr) as H. rewrite He in H. cbn in H.
  pose proof (λ Hv, Hc (r_Seq (dl_Record delivery)) (sys_log s) (si_log _ Hinv)
    (valid_log_pending s (e_now env) [delivery] _ Hinv Hv ltac:(by left))) as Hc'.
  destruct err as [e|].
  - destruct H as [(_ & _ & -> & ->)|(_ & Hex & [(_ & _ & ->)|(Hval & Hp)])]; [by apply quiet_log_inv|..].
    + apply quiet_log_inv; [done|apply Hex|by eapply expires_quiet].
    + specialize (Hc' Hval). rewrite Hp in Hc'. by eapply failed_step_inv.
  - destruct H as (_ & Hv & Hp & Hco). specialize (Hc' Hv). rewrite Hp in Hc'. by eapply (complete_inv s env [delivery]).
Qed.

Lemma other_step_inv s s' : other_step s s' → sys_inv s → sys_inv s'.
Proof.
  intros Hstep Hinv. pose proof (si_dispatch _ Hinv) as Hd.
  destruct Hstep as [s w Hg|s n Hn|s persist env d w err deliveries Hc Hr He|s persist env d w err delivery Hc Hr He
    |s out env d err deliveries Hr He|s extension env d err deliveries Hr He|s env d stats Hr He|s].
  - by apply step_write_inv.
  - by apply step_notify_inv.
  - by eapply step_Commit_inv.
  - by eapply step_DeadLetter_inv.
  - pose proof (Retry_lemma env out (sys_d s) deliveries Hd Hr) as H. rewrite He in H. apply (quiet_inv _ _ Hinv).
    + destruct err; [by destruct H as [(_ & _ & ->)|(_ & [] & _)]|by destruct H as [[_ ->]|(_ & _ & [])]].
    + destruct err; [destruct H as [(_ & _ & ->)|(_ & Hex & _)]; [done|by eapply expires_quiet]|].
      by destruct H as [[_ ->]|(_ & _ & [])].
  - pose proof (Extend_lemma env extension (sys_d s) deliveries Hd Hr) as H. rewrite He in H. apply (quiet_inv _ _ Hinv).
    + destruct err; [by destruct H as [(_ & _ & ->)|[(_ & _ & ->)|(_ & [] & _)]]|by destruct H as (_ & [[_ ->]|(_ & _ & [])])].
    + destruct err; [destruct H as [(_ & _ & ->)|[(_ & _ & ->)|(_ & Hex & _)]]; [done|done|by eapply expires_quiet]|].
      by destruct H as (_ & [[_ ->]|(_ & _ & [])]).
  - pose proof (expire_call env (sys_d s) Hd Hr) as Hex. injection He as <- _.
    apply (quiet_inv _ _ Hinv); [by apply Hex|by eapply expires_quiet].
  - unfold Close. destruct (d_closed (sys_d s)); apply (quiet_inv _ _ Hinv); try done.
    by apply (same_lanes_inv (sys_d s)).
Qed.
End inv.
