(* ===== verification/StoreLog.v ===== *)
(** * The store as the dispatcher's log

    A stream handle on its database is a [DurableLog]: it meets the laws the
    dispatcher relies on, its writes grow it, and its [Commit] and [DeadLetter]
    complete records. *)
From S2P Require Import Prelude Errors Keys Envelope Badger Store StoreIter StoreSpec StoreRefine.
From S2P Require Import StoreLoad StoreHistory Heap Backoff Dispatch DispatchInv DispatchOps.
From S2P Require Import DispatchTake DispatchFill DispatchCalls Queue.
#[local] Open Scope Z_scope.

(** ** Pages of a queue *)

Lemma elem_of_take_all {A} (n : nat) (l : list A) x : x ∈ take n l → x ∈ l.
Proof. intros H. rewrite <- (take_drop n l). apply elem_of_app. by left. Qed.

Lemma fmap_page {V R} (m : gmap Z V) (mk : Z → V → R) (f : R → Z) (seqs : list Z) :
  (∀ seq v, f (mk seq v) = seq) → (∀ seq, seq ∈ seqs → is_Some (m !! seq)) →
  f <$> omap (λ seq, mk seq <$> m !! seq) seqs = seqs.
Proof.
  intros Hf. induction seqs as [|seq seqs IH]; intros Hin; [done|]. cbn.
  destruct (Hin seq) as [v Hv]; [by left|]. rewrite Hv. cbn. rewrite Hf, IH; [done|].
  intros seq' Hin'. apply Hin. by right.
Qed.

Lemma StronglySorted_app_lt (l k : list Z) : StronglySorted Z.lt (l ++ k) → ∀ a b, a ∈ l → b ∈ k → a < b.
Proof.
  induction l as [|x l IH]; intros Hs a b Ha Hb; [by apply elem_of_nil in Ha|].
  apply StronglySorted_inv in Hs as [Hs Hf]. apply elem_of_cons in Ha as [->|Ha]; [|by apply IH].
  eapply Forall_forall in Hf; [exact Hf|]. apply elem_of_app. by right.
Qed.

Lemma StronglySorted_fmap_inv {A} (f : A → Z) (l : list A) :
  StronglySorted Z.lt (f <$> l) → StronglySorted (λ a b, f a < f b) l.
Proof.
  induction l as [|x l IH]; intros Hs; [constructor|]. apply StronglySorted_inv in Hs as [Hs Hf].
  constructor; [by apply IH|]. apply Forall_forall. intros y Hy. eapply Forall_forall in Hf; [exact Hf|]. by apply list_elem_of_fmap_2.
Qed.

Section page.
Context (P : gmap Z pendingEnvelope) (from limit : Z).
Context (Hrange : ∀ seq v, P !! seq = Some v → 1 ≤ seq ≤ max_uint64) (Hlimit : 0 < limit).

Lemma q_page_seqs :
  r_Seq <$> q_page P record_of from limit = take (Z.to_nat limit) (seqs_from (dom P) from).
Proof.
  apply fmap_page; [done|]. intros seq Hin. apply elem_of_dom.
  assert (Hin' : seq ∈ seqs_from (dom P) from) by (by eapply elem_of_take_all).
  by apply elem_of_seqs_from in Hin' as [? _].
Qed.

Lemma q_page_elem record :
  record ∈ q_page P record_of from limit → from ≤ r_Seq record ∧ is_Some (P !! r_Seq record).
Proof.
  intros Hin. assert (Hseq : r_Seq record ∈ take (Z.to_nat limit) (seqs_from (dom P) from)).
  { rewrite <- q_page_seqs. by apply list_elem_of_fmap_2. }
  apply elem_of_take_all in Hseq. apply elem_of_seqs_from in Hseq as [Hd Hle]. split; [done|by apply elem_of_dom].
Qed.

Lemma q_page_record record :
  record ∈ q_page P record_of from limit →
  from ≤ r_Seq record ∧ ∃ v, P !! r_Seq record = Some v ∧ record = record_of (r_Seq record) v.
Proof.
  intros Hin. split; [by apply q_page_elem|]. unfold q_page in Hin.
  apply list_elem_of_omap in Hin as (seq & _ & Hseq). destruct (P !! seq) as [v|] eqn:Hv; [|done]. injection Hseq as <-.
  by exists v.
Qed.

Lemma q_page_ok : page_ok (q_page P record_of from limit).
Proof.
  split.
  - apply StronglySorted_fmap_inv. rewrite q_page_seqs.
    pose proof (sorted_strict _ (sorted_seqs_from (dom P) from) (NoDup_seqs_from _ _)) as Hs.
    rewrite <- (take_drop (Z.to_nat limit)) in Hs. by apply StronglySorted_app_1_l in Hs.
  - intros record Hin. destruct (q_page_elem record Hin) as [_ [v Hv]]. by eapply Hrange.
Qed.

Lemma q_page_complete seq :
  from ≤ seq → is_Some (P !! seq) →
  seq ∈ r_Seq <$> q_page P record_of from limit
  ∨ Z.of_nat (length (q_page P record_of from limit)) = limit
    ∧ ∀ record, record ∈ q_page P record_of from limit → r_Seq record < seq.
Proof.
  intros Hfrom Hs. assert (Hin : seq ∈ seqs_from (dom P) from).
  { apply elem_of_seqs_from. split; [by apply elem_of_dom|done]. }
  pose proof (sorted_strict _ (sorted_seqs_from (dom P) from) (NoDup_seqs_from _ _)) as Hsort.
  rewrite <- (take_drop (Z.to_nat limit) (seqs_from _ _)) in Hin, Hsort.
  apply elem_of_app in Hin as [Hin|Hin]; [left; by rewrite q_page_seqs|right]. split.
  - rewrite <- (length_fmap r_Seq), q_page_seqs, length_take.
    assert (Hl : (0 < length (drop (Z.to_nat limit) (seqs_from (dom P) from)))%nat).
    { destruct (drop _ _); [by apply elem_of_nil in Hin|cbn; lia]. }
    rewrite length_drop in Hl. lia.
  - intros record Hr. eapply StronglySorted_app_lt; [exact Hsort| |exact Hin].
    rewrite <- q_page_seqs. by apply list_elem_of_fmap_2.
Qed.
End page.

(** ** The instance *)

Section log.
Context {B : Badger} {BS : BadgerSpec B}.

Definition store_log : Type := DB * Stream.

(** The pending record the database holds for a sequence. *)
Definition stored_record (w : store_log) (seq : Z) : option StoreRecord :=
  if (0 <=? seq) && (seq <? 2 ^ 64) then
    match db_map w.1 !! pendingKey (s_name w.2) seq with
    | Some data => match decodePending data with Ok v => Some (record_of seq v) | Err _ => None end
    | None => None
    end
  else None.

#[global] Instance store_durable_log : DurableLog store_log := {|
  log_ok w := ∃ q, opened w.1 w.2 q;
  log_record := stored_record;
  log_tail w := s_tail w.2;
  log_scan w from limit := ScanBatch w.1 w.2 from limit
|}.

Lemma log_pending_u64 (w : store_log) seq : log_pending w seq → is_u64 seq.
Proof.
  unfold log_pending. cbn. unfold stored_record. destruct ((0 <=? seq) && (seq <? 2 ^ 64)) eqn:E; [|by intros []].
  intros _. zbool. done.
Qed.

(** What is pending, when the database represents [q]. *)
Lemma opened_record (w : store_log) q seq :
  opened w.1 w.2 q → log_record w seq = record_of seq <$> q_pending q !! seq.
Proof.
  intros (_ & Hrep & _). cbn. unfold stored_record. pose proof (rep_wf _ _ _ Hrep) as Hwf.
  destruct ((0 <=? seq) && (seq <? 2 ^ 64)) eqn:E.
  - zbool. rewrite (maps_pending _ _ _ _ (rep_maps _ _ _ Hrep)) by done.
    destruct (q_pending q !! seq) as [v|] eqn:Hv; [|done]. cbn [fmap option_fmap option_map].
    rewrite pending_layout_decodes; [done|]. by apply (wf_pending _ Hwf seq).
  - destruct (q_pending q !! seq) as [v|] eqn:Hv; [|done]. exfalso.
    destruct (wf_pending _ Hwf seq v Hv) as [Hr _], (wf_tail _ Hwf). apply andb_false_iff in E as [E|E]; zbool; lia.
Qed.

Lemma opened_pending (w : store_log) q seq : opened w.1 w.2 q → (log_pending w seq ↔ is_Some (q_pending q !! seq)).
Proof. intros Ho. unfold log_pending. rewrite (opened_record w q seq Ho). apply fmap_is_Some. Qed.

Lemma opened_range db s q seq v : opened db s q → q_pending q !! seq = Some v → 1 ≤ seq ≤ s_tail s ∧ s_tail s ≤ max_uint64.
Proof.
  intros (_ & Hrep & ->) Hv. destruct (wf_pending _ (rep_wf _ _ _ Hrep) _ _ Hv) as [Hr _].
  destruct (wf_tail _ (rep_wf _ _ _ Hrep)). unfold max_uint64. lia.
Qed.

#[global] Instance store_durable_log_spec : DurableLogSpec store_log.
Proof.
  split.
  - intros [db s] seq [q Hq] [v Hv]%(opened_pending (db, s) q seq Hq). by destruct (opened_range _ _ _ _ _ Hq Hv).
  - intros [db s] [q (_ & Hrep & Ht)]. cbn in *. rewrite Ht.
    destruct (wf_tail _ (rep_wf _ _ _ Hrep)). unfold max_uint64. lia.
  - intros [db s] from limit records [q Hq] Hfrom Hlimit Hscan. cbn in Hq, Hscan.
    pose proof (ScanBatch_lemma db s q from limit Hq) as H.
    rewrite Hscan in H. rewrite H by (unfold is_u64, max_uint64 in *; lia). unfold q_scan.
    assert (Hr : ∀ seq v, q_pending q !! seq = Some v → 1 ≤ seq ≤ max_uint64).
    { intros seq v Hv. pose proof (opened_range _ _ _ _ _ Hq Hv). lia. }
    pose proof (λ seq, opened_pending (db, s) q seq Hq) as Hp.
    split.
    + by apply q_page_ok.
    + rewrite <- (length_fmap r_Seq), q_page_seqs, length_take. lia.
    + intros record Hin. destruct (q_page_record _ _ _ record Hin) as (Hle & v & Hv & Hrec). split; [done|].
      rewrite (opened_record (db, s) q _ Hq), Hv. cbn. by rewrite <- Hrec.
    + intros seq Hseq [v Hv]%Hp. apply q_page_complete; [done|done|by eexists].
Qed.

(** ** The store's operations on the log *)

(** A queue operation that only adds pending records above the tail. *)
Lemma opened_grows (w w' : store_log) q q' :
  opened w.1 w.2 q → opened w'.1 w'.2 q' → q_tail q ≤ q_tail q' →
  (∀ seq v, q_pending q !! seq = Some v → q_pending q' !! seq = Some v) →
  (∀ seq, is_Some (q_pending q' !! seq) → is_Some (q_pending q !! seq) ∨ q_tail q < seq) →
  grows w w'.
Proof.
  intros Ho Ho' Ht Hold Hnew. pose proof (proj2 (proj2 Ho)) as Htail. pose proof (proj2 (proj2 Ho')) as Htail'.
  split; cbn.
  - by exists q'.
  - by rewrite Htail, Htail'.
  - intros seq record. change (stored_record w seq) with (log_record w seq). change (stored_record w' seq) with (log_record w' seq).
    rewrite (opened_record w q seq Ho), (opened_record w' q' seq Ho'). intros (v & Hv & ->)%fmap_Some.
    by rewrite (Hold seq v Hv).
  - intros seq. rewrite (opened_pending w q seq Ho), (opened_pending w' q' seq Ho'), Htail. apply Hnew.
Qed.

Lemma AppendBatch_grows_lemma db s payloads now :
  log_ok (db, s) → is_i64 now →
  match AppendBatch db s payloads now with (db', s', Ok _) => grows (db, s) (db', s') | _ => True end.
Proof.
  intros [q Hq] Hnow. pose proof (AppendBatch_lemma db s q payloads now Hq Hnow) as H.
  destruct (AppendBatch db s payloads now) as [[db' s'] [records|e]]; [|done]. destruct H as (_ & Ho & _ & _).
  apply (opened_grows (db, s) (db', s') q (q_append now payloads q)); [done|done| | |].
  - cbn. unfold len. lia.
  - intros seq v Hv. unfold q_append. cbn. rewrite append_pending_lookup. case_decide as Hd; [|done].
    pose proof (opened_range _ _ _ _ _ Hq Hv). destruct Hq as (_ & _ & Ht). lia.
  - intros seq [v Hv]. destruct (q_exec_fresh (s_name s) (OpAppend payloads now) q seq v Hv); [left; by eexists|by right].
Qed.

Lemma Requeue_grows_lemma db s seq :
  log_ok (db, s) → is_u64 seq →
  match Requeue db s seq with (db', s', Ok _) => grows (db, s) (db', s') | _ => True end.
Proof.
  intros [q Hq] Hseq. pose proof (Requeue_lemma db s q seq Hq Hseq) as H.
  destruct (Requeue db s seq) as [[db' s'] [record|e]]; [|done]. destruct H as (v & Hv & _ & Ho & _ & _).
  apply (opened_grows (db, s) (db', s') q (q_requeue seq q)); [done|done| | |].
  - apply (q_exec_tail (s_name s) (OpRequeue seq)).
  - intros seq' v' Hv'. unfold q_requeue. rewrite Hv. cbn. rewrite lookup_insert. case_decide as Heq; [|done].
    pose proof (opened_range _ _ _ _ _ Hq Hv'). destruct Hq as (_ & _ & Ht). lia.
  - intros seq' [v' Hv']. destruct (q_exec_fresh (s_name s) (OpRequeue seq) q seq' v' Hv'); [left; by eexists|by right].
Qed.

Definition store_commit (seqs : list Z) (w : store_log) : store_log * option goerr :=
  let '(db, err) := Store.Commit w.1 w.2 seqs in ((db, w.2), err).

Definition store_dead_letter (reason : string) (now : Z) (seq : Z) (w : store_log) : store_log * option goerr :=
  let '(db, err) := Store.DeadLetter w.1 w.2 seq reason now in ((db, w.2), err).

Lemma log_unchanged (db db' : DB) (s : Stream) q e seqs :
  opened db s q → db_map db' = db_map db → completes_in (db, s) seqs ((db', s), Some e).
Proof.
  intros (Hn & Hrep & Ht) Hm. split_and!; [|done|].
  - exists q. split_and!; [done|by cbn; rewrite Hm|done].
  - intros seq. cbn. unfold stored_record. cbn. by rewrite Hm.
Qed.

Lemma store_commit_completes_lemma : completes store_commit.
Proof.
  intros seqs [db s] [q Hq] Hp. cbn in Hq.
  assert (Hf : Forall is_u64 seqs) by (apply Forall_forall; intros seq Hin; by apply (log_pending_u64 (db, s)), Hp). unfold store_commit. cbn [fst snd].
  pose proof (store_Commit_lemma db s q seqs Hq Hf) as H. destruct (Store.Commit db s seqs) as [db' [e|]].
  - destruct H as [Hm _]. by apply (log_unchanged db db' s q).
  - destruct H as (_ & Ho & _). split_and!; [by exists (q_commit seqs q)|done|].
    intros seq. rewrite (opened_record (db', s) _ seq Ho), (opened_record (db, s) _ seq Hq). cbn.
    rewrite delete_all_lookup. by case_decide.
Qed.

Lemma store_dead_letter_completes_lemma reason now : is_i64 now → completes_one (store_dead_letter reason now).
Proof.
  intros Hnow seq [db s] [q Hq] Hseq%log_pending_u64. cbn in Hq. unfold store_dead_letter. cbn [fst snd].
  pose proof (store_DeadLetter_lemma db s q seq reason now Hq Hseq Hnow) as H.
  destruct (Store.DeadLetter db s seq reason now) as [db' [e|]].
  - destruct H as [Hm _]. by apply (log_unchanged db db' s q).
  - destruct H as ([v Hv] & Ho & _). split_and!; [by eexists; exact Ho|done|].
    intros seq'. rewrite (opened_record (db', s) _ seq' Ho), (opened_record (db, s) _ seq' Hq).
    unfold q_dead_letter. rewrite Hv. cbn. rewrite lookup_delete. repeat case_decide; subst; try done; set_solver.
Qed.
End log.
