(* ===== verification/QueueTheorems.v ===== *)
(** * Correctness of a log at work

    What holds in every state that the readers, the producers and the other
    callers of one log can reach together, whatever the interleaving; the store
    as the log underneath; and two ways in which a blocked reader is left
    behind.  The instances run the in-memory store under a small dispatcher. *)
From S2P Require Import Prelude Errors Keys Badger BadgerMem Store StoreSpec StoreRefine StoreHistory.
From S2P Require Import Heap Backoff Dispatch DispatchInv DispatchOps DispatchTake DispatchFill.
From S2P Require Import DispatchCalls Queue QueueInv StoreLog StoreTheorems DispatchTheorems.
From Stdlib Require Import Strings.Byte.
#[local] Open Scope Z_scope.

Lemma NoDup_fmap_inj_on {A B} (f : A → B) (l : list A) (x y : A) :
  NoDup (f <$> l) → x ∈ l → y ∈ l → f x = f y → x = y.
Proof.
  intros Hn [i Hi]%list_elem_of_lookup [j Hj]%list_elem_of_lookup He.
  assert (i = j) as ->; [|congruence].
  eapply NoDup_lookup; [exact Hn|by rewrite list_lookup_fmap, Hi|by rewrite list_lookup_fmap, Hj, He].
Qed.

Section reachable.
Context {W : Type} `{!DurableLog W} `{!DurableLogSpec W}.

(** ** Reachable states *)

Lemma sys_init_inv (w : W) (d : Dispatcher) (config : Config) :
  log_ok w → New false config = Ok d → sys_inv (sys_init w d).
Proof.
  intros Hw HN. pose proof (New_inv _ _ HN) as Hd. pose proof (log_tail_range w Hw) as Ht.
  assert (Hc : config_invalid config = false) by (unfold New in HN; by destruct (config_invalid config)).
  unfold New in HN. rewrite Hc in HN. cbn in HN. injection HN as <-.
  split; cbn; try done.
  - split; [lia|done].
  - intros record [Hin|[Hin|(r & f & Hf & _)]]; [by apply elem_of_nil in Hin..|]. cbn in Hf. by rewrite lookup_empty in Hf.
  - intros seq [s Hs]. cbn in Hs. by rewrite lookup_empty in Hs.
  - intros seq Hp [Hs|Hs]; [|done]. cbn in Hs. pose proof (log_range w seq Hw Hp). lia.
Qed.

(** The states that a log opened on [w] with [config] can be in. *)
Definition reachable (w : W) (config : Config) (s : sys) : Prop :=
  ∃ d, New false config = Ok d ∧ rtc step (sys_init w d) s.

Lemma step_inv s s' : step s s' → sys_inv s → sys_inv s'.
Proof. intros [[i H]|H]; [by apply (reader_step_inv i)|by apply other_step_inv]. Qed.

Lemma steps_inv s s' : rtc step s s' → sys_inv s → sys_inv s'.
Proof. induction 1 as [|a b c Hs _ IH]; [done|]. intros Ha. by apply IH, (step_inv a). Qed.

Lemma reachable_inv w config s : log_ok w → reachable w config s → sys_inv s.
Proof. intros Hw (d & Hd & Hs). eapply steps_inv; [done|by eapply sys_init_inv]. Qed.

(** A reader that runs alone through [fillFresh]. *)
Definition fill_run (s : @sys W) (i : nat) (count : Z) (after : option Z) : @sys W :=
  match fill_begin (sys_d s) with
  | (d, None) => set_reader (set_d s d) i (after_fill count after (Ok false))
  | (d, Some (from, free)) =>
      let s1 := set_scanMu (set_reader (set_d s d) i (PcScan count after from free)) (Some i) in
      let result := log_scan (sys_log s1) from free in
      let s2 := set_reader s1 i (PcScanned count after from free result) in
      let '(d', r) := fill_end free result (sys_d s2) in
      set_scanMu (set_reader (set_d s2 d') i (after_fill count after r)) None
  end.

(** A blocked reader that nobody is going to wake: the log is closed, the
    channel is empty, there is no timer, and no [Notify] is outstanding. *)
Record stranded (s : @sys W) (i : nat) : Prop := {
  stranded_closed : d_closed (sys_d s) = true;
  stranded_signal : d_signal (sys_d s) = false;
  stranded_notify : sys_unnotified s = 0%nat;
  stranded_waits : ∃ count, sys_readers s !! i = Some (PcWait count zero_time)
}.

(** ** What happens to the log *)

Lemma pending_ext_completes (w : W) seqs e : log_ok w → completes_in w seqs (w, Some e).
Proof. done. Qed.

Lemma Commit_log s persist env d w err deliveries :
  sys_inv s → completes persist → range_of (e_visits env) (sys_d s) →
  Commit persist env (sys_d s) (sys_log s) deliveries = (d, w, err) →
  completes_in (sys_log s) (delivered_seqs deliveries) (w, err).
Proof.
  intros Hinv Hc Hr He. pose proof (si_dispatch _ Hinv) as Hd. pose proof (si_log _ Hinv) as Hl.
  assert (Hp : ∀ seq, valid_deliveries (live (e_now env) (sys_d s)) deliveries →
    seq ∈ delivered_seqs deliveries → log_pending (sys_log s) seq).
  { intros seq Hv Hin. apply (si_tracked _ Hinv). by eapply valid_tracked. }
  pose proof (Commit_lemma env persist (sys_d s) (sys_log s) deliveries Hd Hr) as H. rewrite He in H. cbn in H.
  destruct err as [e|].
  - destruct H as [(_ & _ & _ & ->)|(_ & _ & [(_ & _ & ->)|(Hv & <-)])]; [by apply pending_ext_completes..|].
    apply Hc; [done|]. intros seq. by apply Hp.
  - destruct H as [(-> & _ & ->)|(_ & Hv & <- & _)]; [|apply Hc; [done|]; intros seq; by apply Hp].
    split_and!; [done|done|]. intros seq. cbn. rewrite decide_False; [done|apply not_elem_of_nil].
Qed.

Lemma DeadLetter_log s persist env d w err delivery :
  sys_inv s → completes_one persist → range_of (e_visits env) (sys_d s) →
  DeadLetter persist env (sys_d s) (sys_log s) delivery = (d, w, err) →
  completes_in (sys_log s) [r_Seq (dl_Record delivery)] (w, err).
Proof.
  intros Hinv Hc Hr He. pose proof (si_dispatch _ Hinv) as Hd. pose proof (si_log _ Hinv) as Hl.
  assert (Hp : valid_deliveries (live (e_now env) (sys_d s)) [delivery] → log_pending (sys_log s) (r_Seq (dl_Record delivery))).
  { intros Hv. apply (si_tracked _ Hinv). eapply valid_tracked; [done|done|by left]. }
  pose proof (DeadLetter_lemma env persist (sys_d s) (sys_log s) delivery Hd Hr) as H. rewrite He in H. cbn in H.
  destruct err as [e|].
  - destruct H as [(_ & _ & _ & ->)|(_ & _ & [(_ & _ & ->)|(Hv & <-)])]; [by apply pending_ext_completes..|].
    apply Hc; [done|by apply Hp].
  - destruct H as (_ & Hv & <- & _). apply Hc; [done|by apply Hp].
Qed.

(** Assigned and no longer pending. *)
Definition gone (w : W) (seq : Z) : Prop := seq ≤ log_tail w ∧ ¬ log_pending w seq.

Lemma completes_in_gone w seqs w' err seq : completes_in w seqs (w', err) → gone w seq → gone w' seq.
Proof.
  intros Hc [Hle Hn]. split; [by destruct Hc as (_ & -> & _)|]. by intros [? _]%(completes_in_pending _ _ _ _ _ Hc).
Qed.

Lemma step_gone s s' seq : step s s' → sys_inv s → gone (sys_log s) seq → gone (sys_log s') seq.
Proof.
  intros [[i Hs]|Hs] Hinv Hg; [by destruct Hs|].
  destruct Hs as [s w [? Ht _ Hnew]|s n Hn|s persist env d w err deliveries Hc Hr He|s persist env d w err delivery Hc Hr He
    |s out env d err deliveries Hr He|s extension env d err deliveries Hr He|s env d stats Hr He|s]; try done.
  - destruct Hg as [Hle Hn]. split; cbn; [lia|]. intros [?|?]%Hnew; [done|lia].
  - eapply completes_in_gone; [by eapply Commit_log|done].
  - eapply completes_in_gone; [by eapply DeadLetter_log|done].
Qed.

Lemma steps_gone s s' seq : rtc step s s' → sys_inv s → gone (sys_log s) seq → gone (sys_log s') seq.
Proof.
  induction 1 as [|a b c Hs _ IH]; [done|]. intros Ha Hg. apply IH; [by apply (step_inv a)|by eapply step_gone].
Qed.

(** What is gone is in no lane. *)
Lemma gone_untracked s seq : sys_inv s → gone (sys_log s) seq →
  ¬ tracked (sys_d s) seq ∧ ∀ receipt f, d_inFlight (sys_d s) !! receipt = Some f → r_Seq (fl_record f) ≠ seq.
Proof.
  intros Hinv [_ Hn]. assert (Ht : ¬ tracked (sys_d s) seq) by (intros ?%(si_tracked _ Hinv); done).
  split; [done|]. intros receipt f Hf <-. apply Ht. unfold tracked.
  by rewrite (lanes_ok_flight _ _ _ (inv_lanes _ (si_dispatch _ Hinv)) Hf).
Qed.

Lemma completed_gone s persist env d w deliveries seq :
  sys_inv s → completes persist → range_of (e_visits env) (sys_d s) →
  Commit persist env (sys_d s) (sys_log s) deliveries = (d, w, None) →
  seq ∈ delivered_seqs deliveries → gone w seq.
Proof.
  intros Hinv Hc Hr He Hin. pose proof (Commit_log _ _ _ _ _ _ _ Hinv Hc Hr He) as Hcl.
  pose proof (λ seq, completes_in_pending _ _ _ _ seq Hcl) as Hp. destruct Hcl as (_ & Ht & _).
  pose proof (Commit_lemma env persist (sys_d s) (sys_log s) deliveries (si_dispatch _ Hinv) Hr) as H. rewrite He in H.
  destruct H as [(-> & _)|(_ & Hv & _)]; [by apply elem_of_nil in Hin|]. split.
  - rewrite Ht. apply (log_range (sys_log s)); [apply Hinv|]. apply (si_tracked _ Hinv). by eapply (valid_tracked _ _ _ _ (si_dispatch _ Hinv)).
  - intros [_ Hn]%Hp. by apply Hn.
Qed.

(** ** What a fill finds *)

Lemma fill_run_steps s i count after :
  sys_readers s !! i = Some (PcFill count after) → sys_scanMu s = None → rtc (reader_step i) s (fill_run s i count after).
Proof.
  intros Hi Hmu. unfold fill_run. destruct (fill_begin (sys_d s)) as [d [[from free]|]] eqn:Hb.
  - destruct (fill_end free _ _) as [d' r] eqn:He.
    eapply rtc_l; [by eapply step_fill_begin|].
    eapply rtc_l; [eapply step_scan; cbn; apply lookup_insert_eq|].
    eapply rtc_once, step_fill_end; [cbn; apply lookup_insert_eq|exact He].
  - by eapply rtc_once, step_fill_skip.
Qed.

Lemma fill_run_result s i count after :
  let '(d, r) := fillFresh (log_scan (sys_log s)) (sys_d s) in
  sys_log (fill_run s i count after) = sys_log s ∧ sys_d (fill_run s i count after) = d
  ∧ sys_readers (fill_run s i count after) !! i = Some (after_fill count after r).
Proof.
  unfold fillFresh, fill_run. destruct (fill_begin (sys_d s)) as [d [[from free]|]]; cbn.
  - destruct (fill_end _ _ _) as [d' r]. cbn. split_and!; [done|done|apply lookup_insert_eq].
  - split_and!; [done|done|apply lookup_insert_eq].
Qed.

Lemma fill_finds s seq :
  sys_inv s → sys_scanMu s = None → sys_unnotified s = 0%nat →
  log_pending (sys_log s) seq → ¬ tracked (sys_d s) seq →
  d_closed (sys_d s) = false → Z.of_nat (length (d_fresh (sys_d s))) < cfg_PrefetchCapacity (d_config (sys_d s)) →
  match fillFresh (log_scan (sys_log s)) (sys_d s) with
  | (d', Ok progress) =>
      progress = true ∧ ∃ item, item ∈ d_fresh d' ∧ r_Seq (qr_record item) ≤ seq
        ∧ ¬ tracked (sys_d s) (r_Seq (qr_record item))
        ∧ log_record (sys_log s) (r_Seq (qr_record item)) = Some (qr_record item)
  | (_, Err e) => ∃ from limit records, log_scan (sys_log s) from limit = (records, Some e)
  end.
Proof.
  intros Hinv Hmu Hun Hp Ht Hcl Hroom. pose proof (si_dispatch _ Hinv) as Hdi. pose proof (inv_scan _ Hdi) as Hsc.
  assert (Hns : ¬ scanned (sys_d s) seq) by (intros Hs; apply Ht; by apply (si_scanned _ Hinv)).
  assert (He : d_scanEmpty (sys_d s) = false).
  { destruct (d_scanEmpty (sys_d s)) eqn:E; [|done]. destruct Hns. by apply (si_scanEmpty _ Hinv). }
  assert (Hd : d_scanDone (sys_d s) = false) by (destruct (d_scanDone (sys_d s)) eqn:E; [destruct Hns; by right|done]).
  assert (Hcur : d_cursor (sys_d s) ≤ seq) by (destruct (decide (seq < d_cursor (sys_d s))); [destruct Hns; by left|lia]).
  unfold fillFresh, fill_begin. rewrite Hcl, Hd, He. cbn [orb]. set (free := cfg_PrefetchCapacity _ - _).
  destruct (Z.leb_spec free 0); [lia|]. destruct (log_scan _ _ _) as [records [e|]] eqn:Hscan; [by do 3 eexists|]. cbn [fill_end].
  pose proof (scan_cursor _ Hsc) as Hcr.
  destruct (log_scan_spec (sys_log s) (d_cursor (sys_d s)) free records (si_log _ Hinv) ltac:(lia) ltac:(lia) Hscan) as [Hso Hli Hpe Hco].
  set (d1 := if _ =? free then _ else _).
  assert (Hd1 : d_cursor d1 = d_cursor (sys_d s) ∧ d_states d1 = d_states (sys_d s) ∧ d_scanDone d1 = false
    ∧ lanes_ok d1 ∧ scan_ok d1).
  { apply (scanEmpty_inv _ true) in Hdi as H1. apply (scanEmpty_inv _ false) in Hdi as H2.
    unfold d1. case_match; split_and!; try done; first [apply H1|apply H2]. }
  destruct Hd1 as (Hc1 & Hs1 & Hd1 & Hl1 & Hsc1).
  destruct (fill_fold_lemma d1 false records Hl1 Hsc1 Hd1 Hso) as [Hf Hpr].
  destruct (foldl fill_one (d1, false) records) as [d2 progress]. cbn in Hf, Hpr.
  assert (Hnew : new_records d1 records = records) by (apply (new_records_page d1 _ _ Hc1); intros r Hin; by apply Hpe).
  assert (Hrec : ∃ record, record ∈ records ∧ r_Seq record ≤ seq).
  { destruct (Hco seq Hcur Hp) as [(record & -> & Hin)%list_elem_of_fmap|[Hlen Hlt]]; [by exists record|].
    destruct records as [|record records]; [cbn in Hlen; lia|]. exists record. split; [by left|].
    specialize (Hlt record ltac:(by left)). lia. }
  destruct Hrec as (record & Hin & Hle). rewrite Hpr, Hnew. split.
  { cbn. apply bool_decide_eq_true. intros ->. by apply elem_of_nil in Hin. }
  exists (fresh_item record). split_and!; [|done| |by apply (Hpe record)].
  - rewrite (fi_fresh _ _ _ Hf), Hnew. apply elem_of_app. right. by apply list_elem_of_fmap_2.
  - intros [st Hst]. destruct (scan_tracked _ Hsc _ _ Hst) as [_ [?|[? _]]]; [|congruence].
    destruct (Hpe record Hin). cbn in *. lia.
Qed.

(** ** A stranded reader *)

Definition hushed (d d' : Dispatcher) : Prop := d_closed d' = d_closed d ∧ d_signal d' = d_signal d.

Lemma expireLocked_hushed visits now d : hushed d (expireLocked visits now d).
Proof.
  unfold expireLocked. destruct (now <? d_expireAt d); [done|].
  assert (H : ∀ acc, hushed acc.1 (foldl (expire_one now) acc visits).1).
  { induction visits as [|[r f] visits IH]; intros [d0 e0]; [done|]. cbn [foldl].
    specialize (IH (expire_one now (d0, e0) (r, f))). revert IH. cbn [expire_one].
    by destruct (now <? fl_deadline f). }
  specialize (H (d, farFuture)). by destruct (foldl _ _ _).
Qed.

Lemma fill_end_hushed free result d d' r : fill_end free result d = (d', r) → hushed d d'.
Proof.
  destruct result as [records [e|]]; cbn; [by intros [= <- _]|].
  assert (H : ∀ acc, hushed acc.1 (foldl fill_one acc records).1).
  { induction records as [|record records IH]; intros [d0 p0]; [done|]. cbn [foldl].
    specialize (IH (fill_one (d0, p0) record)). revert IH. cbn [fill_one].
    by repeat case_match. }
  set (d1 := if _ =? free then _ else _). specialize (H (d1, false)). destruct (foldl _ _ _) as [d2 p].
  intros [= <- _]. destruct H as [H1 H2]. cbn in H1, H2. unfold hushed. rewrite H1, H2. unfold d1. by destruct (_ =? free).
Qed.

Lemma stranded_reader s j i d p :
  stranded s i → i ≠ j → hushed (sys_d s) d → stranded (set_reader (set_d s d) j p) i.
Proof. intros [H1 H2 H3 [c H4]] Hne [Hc Hs]. split; cbn; [congruence..|]. exists c. by rewrite lookup_insert_ne. Qed.

Lemma stranded_step s s' i : stranded s i → step s s' →
  stranded s' i ∨ (∃ e, sys_readers s' !! i = Some (PcDone (Err e))) ∨ sys_unnotified s' ≠ 0%nat.
Proof.
  intros [H1 H2 H3 [c H4]] [[j Hs]|Hs].
  - assert (St : stranded s i) by (split; [done..|by exists c]).
    destruct (decide (i = j)) as [<-|Hne].
    { destruct Hs as [|? ? ? ? ? ? ? ? ? ? Hi|? ? ? ? Hi|? ? ? ? ? ? Hi|? ? ? ? ? Hi|? ? ? ? ? ? ? ? Hi|? ? ? ? ev ? ? Hi Hw];
        try congruence.
      rewrite H4 in Hi. injection Hi as -> <-. unfold wait in Hw. cbn in Hw. rewrite H2 in Hw.
      destruct ev as [e| |]; [|done|done]. injection Hw as <- <-. right. left. exists e. cbn. apply lookup_insert_eq. }
    left. destruct Hs as [|? ? ? ? ? ? ? ? ? ? Hi Hr Ht|? ? ? ? Hi Hmu Hb|? ? ? ? ? ? Hi Hmu Hb|? ? ? ? ? Hi|? ? ? ? ? ? ? ? Hi He|? ? ? ? ev ? ? Hi Hw].
    + by apply stranded_reader.
    + apply stranded_reader; [done|done|]. unfold read_top in Ht. rewrite H1 in Ht. by injection Ht as <- _ _.
    + apply stranded_reader; [done|done|]. by apply fill_begin_skip in Hb as ->.
    + unfold fill_begin in Hb. by rewrite H1 in Hb.
    + by apply stranded_reader.
    + destruct (stranded_reader s j i d (after_fill count after r) St Hne) as []; [by eapply fill_end_hushed|by split].
    + apply stranded_reader; [done|done|]. unfold wait in Hw. rewrite H2 in Hw.
      repeat case_match; try done; by injection Hw as <- _.
  - assert (Hn : ∀ d, hushed (sys_d s) d → ∀ w, stranded (set_log (set_d s d) w) i).
    { intros d [Hc Hg] w. split; cbn; [congruence..|by exists c]. }
    destruct Hs as [s w Hg|s n Hun|s persist env d w err deliveries Hc Hr He|s persist env d w err delivery Hc Hr He
      |s out env d err deliveries Hr He|s extension env d err deliveries Hr He|s env d stats Hr He|s].
    + by right; right.
    + congruence.
    + left. apply Hn. unfold Commit in He. rewrite H1 in He. by destruct deliveries; injection He as <- _ _.
    + left. apply Hn. unfold DeadLetter in He. rewrite H1 in He. by injection He as <- _ _.
    + left. apply (Hn d). unfold Retry in He. rewrite H1 in He. by destruct deliveries; injection He as <- _.
    + left. unfold Extend in He. rewrite H1 in He. assert (d = sys_d s) as -> by (repeat case_match; by injection He as <- _).
      by split; [..|exists c].
    + left. injection He as <- _. destruct (expireLocked_hushed (e_visits env) (e_now env) (sys_d s)) as [Hc Hg].
      split; cbn; [congruence..|by exists c].
    + left. unfold Close. rewrite H1. by split; [..|exists c].
Qed.

End reachable.

(** ** The properties *)

Section properties.
Context {W : Type} `{!DurableLog W} `{!DurableLogSpec W}.
Implicit Types (s : @sys W) (w : W) (config : Config).

(** C4. In every state the goroutines of a log can reach: a record is leased
    under at most one receipt; whatever is fresh, waiting for a retry or leased
    is still pending in the store, with the contents it has there, and is so in
    exactly one of the three lanes; the lanes never exceed the configured bounds. *)
Theorem log_safety w config s :
  log_ok w → reachable w config s →
  let d := sys_d s in
  (∀ r1 r2 f1 f2, d_inFlight d !! r1 = Some f1 → d_inFlight d !! r2 = Some f2 →
     r_Seq (fl_record f1) = r_Seq (fl_record f2) → r1 = r2)
  ∧ map_to_list (d_states d) ≡ₚ lanes (d_fresh d) (d_retries d) (d_inFlight d)
  ∧ (∀ seq, is_Some (d_states d !! seq) → log_pending (sys_log s) seq)
  ∧ (∀ record, held d record → log_record (sys_log s) (r_Seq record) = Some record)
  ∧ Z.of_nat (size (d_inFlight d)) ≤ cfg_MaxInFlight (d_config d)
  ∧ Z.of_nat (length (d_fresh d)) ≤ cfg_PrefetchCapacity (d_config d)
  ∧ Z.of_nat (size (d_states d)) ≤ 2 * cfg_PrefetchCapacity (d_config d) + cfg_MaxInFlight (d_config d).
Proof.
  intros Hw Hr. pose proof (reachable_inv w config s Hw Hr) as Hinv. pose proof (si_dispatch _ Hinv) as Hd.
  pose proof (inv_lanes _ Hd) as Hl. pose proof (inv_bounds _ Hd) as [B1 B2 B3]. cbn. split_and!; try done.
  - intros r1 r2 f1 f2. by apply lanes_ok_flight_inj.
  - apply Hl.
  - apply (si_tracked _ Hinv).
  - apply (si_held _ Hinv).
  - rewrite <- length_map_to_list, (lanes_states _ Hl). unfold lanes.
    rewrite !length_app, !length_fmap, length_map_to_list. lia.
Qed.

(** C8. No pending record is forgotten: whatever happened before, once every
    write is notified and no scan is running, a pending record either is in a
    lane or is found by the next [fillFresh] with room for it: it appends the
    record, or an older one that no lane had, to the fresh lane as the log has
    it, or returns an error that the scan of the log returned. *)
Theorem pending_is_found w config s i count after seq :
  log_ok w → reachable w config s →
  sys_scanMu s = None → sys_unnotified s = 0%nat → d_closed (sys_d s) = false →
  Z.of_nat (length (d_fresh (sys_d s))) < cfg_PrefetchCapacity (d_config (sys_d s)) →
  sys_readers s !! i = Some (PcFill count after) →
  log_pending (sys_log s) seq → ¬ tracked (sys_d s) seq →
  ∃ s', rtc (reader_step i) s s' ∧
    ((∃ e from limit records, sys_readers s' !! i = Some (PcDone (Err e))
        ∧ log_scan (sys_log s) from limit = (records, Some e))
     ∨ sys_readers s' !! i = Some (PcTop count)
       ∧ ∃ item, item ∈ d_fresh (sys_d s') ∧ r_Seq (qr_record item) ≤ seq
         ∧ ¬ tracked (sys_d s) (r_Seq (qr_record item))
         ∧ log_record (sys_log s') (r_Seq (qr_record item)) = Some (qr_record item)).
Proof.
  intros Hw Hr Hmu Hun Hcl Hroom Hi Hp Ht.
  exists (fill_run s i count after). split; [by apply fill_run_steps|].
  pose proof (fill_finds s seq (reachable_inv w config s Hw Hr) Hmu Hun Hp Ht Hcl Hroom) as Hf.
  pose proof (fill_run_result s i count after) as Hres.
  destruct (fillFresh _ _) as [d' [progress|e]]; destruct Hres as (-> & -> & ->).
  - right. destruct Hf as [-> Hf]. split; [by destruct after|done].
  - left. destruct Hf as (from & limit & records & Hf). by exists e, from, limit, records.
Qed.

(** C9. A completed record never comes back: once a [Commit] that lists it has
    succeeded, no later state of the log has it pending, in a lane or leased,
    whatever the readers that were in the middle of a scan do. *)
Theorem completed_never_redelivered w config s persist env d' w' deliveries seq s' :
  log_ok w → reachable w config s →
  completes persist → range_of (e_visits env) (sys_d s) →
  Commit persist env (sys_d s) (sys_log s) deliveries = (d', w', None) →
  seq ∈ delivered_seqs deliveries →
  rtc step (set_log (set_d s d') w') s' →
  ¬ log_pending (sys_log s') seq ∧ ¬ tracked (sys_d s') seq
  ∧ ∀ receipt f, d_inFlight (sys_d s') !! receipt = Some f → r_Seq (fl_record f) ≠ seq.
Proof.
  intros Hw Hr Hc Hv He Hin Hsteps. pose proof (reachable_inv w config s Hw Hr) as Hinv.
  assert (Hinv1 : sys_inv (set_log (set_d s d') w')) by (eapply step_inv; [right; by eapply step_Commit|done]).
  assert (Hg : gone (sys_log s') seq) by (eapply steps_gone; [done|done|exact (completed_gone s persist env d' w' deliveries seq Hinv Hc Hv He Hin)]).
  pose proof (gone_untracked s' seq (steps_inv _ _ Hsteps Hinv1) Hg) as [? ?]. split_and!; [apply Hg|done|done].
Qed.

(** C11. What [Read] returns: between one and [count] records, all pending and
    with the payload, instant and origin the store has for them, each leased to this call alone, under a receipt of its own and until the
    visibility timeout from the instant of the call. *)
Theorem Read_delivers w config s i count (Rng : Type) (newReceipt : Rng → res Receipt * Rng) (g g' : Rng)
    env visits' d ds :
  log_ok w → reachable w config s →
  sys_readers s !! i = Some (PcTop count) → range_of (e_visits env) (sys_d s) →
  read_top newReceipt env visits' count (sys_d s) g = (d, g', ReadReturn (Ok ds)) →
  d_closed (sys_d s) = false ∧ ds ≠ [] ∧ Z.of_nat (length ds) ≤ count
  ∧ NoDup (dl_Receipt <$> ds) ∧ NoDup (delivered_seqs ds)
  ∧ ∀ dl, dl ∈ ds →
      log_record (sys_log s) (r_Seq (dl_Record dl)) = Some (dl_Record dl)
      ∧ live (e_now env) (sys_d s) !! dl_Receipt dl = None
      ∧ d_inFlight d !! dl_Receipt dl = Some (flight_of dl)
      ∧ dl_Deadline dl = e_now env + cfg_VisibilityTimeout (d_config (sys_d s)).
Proof.
  intros Hw Hr Hi Hv Htop. pose proof (reachable_inv w config s Hw Hr) as Hinv.
  destruct (read_top_lemma newReceipt env visits' count (sys_d s) g d g' _ (si_dispatch _ Hinv) Hv Htop)
    as [Hd Hq (Hcl & Hne & Hlen & d1 & sel & Hex & Htk)].
  assert (Hdl : ∀ dl, dl ∈ ds → d_inFlight d !! dl_Receipt dl = Some (flight_of dl)) by (intros dl Hin; by apply Htk).
  split_and!; [done|done|done|apply Htk| |].
  - apply NoDup_fmap_2_strong; [|eapply NoDup_fmap_1; apply (tk_receipts _ _ _ _ _ Htk)].
    intros a b Ha Hb Heq.
    pose proof (lanes_ok_flight_inj d _ _ _ _ (inv_lanes _ Hd) (Hdl a Ha) (Hdl b Hb) Heq) as Hab.
    exact (NoDup_fmap_inj_on dl_Receipt ds a b (tk_receipts _ _ _ _ _ Htk) Ha Hb Hab).
  - intros dl Hin. destruct (tk_delivered _ _ _ _ _ Htk dl Hin) as (H1 & H2 & H3 & _). split_and!; [| |done|].
    + apply (si_held _ Hinv), (qt_held _ _ Hq). exact (held_flight d _ _ H1).
    + unfold live. rewrite <- (ex_inFlight _ _ _ Hex). done.
    + rewrite H3. by rewrite (frame_config _ _ (ex_frame _ _ _ Hex)).
Qed.
End properties.

(** ** The in-memory store under a small dispatcher *)

Definition demo_log : store_log := (demo_db1, demo_stream1).

Lemma demo_log_ok : log_ok demo_log.
Proof. exists demo_queue1. apply demo_opened1. Qed.

(** The critical section at the top of [Read], at instant [now]. *)
Definition top_run (s : @sys store_log) (i : nat) (count now : Z) (g : list Receipt) : @sys store_log :=
  let '(d, _, next) := read_top list_receipt (demo_env now (sys_d s)) (map_to_list (d_inFlight (sys_d s)))
                         count (sys_d s) g in
  set_reader (set_d s d) i (after_top count next).

Lemma top_run_step (s : @sys store_log) i count now g : sys_readers s !! i = Some (PcTop count) → step s (top_run s i count now g).
Proof.
  intros Hi. left. exists i. unfold top_run. destruct (read_top _ _ _ _ _ _) as [[d g'] next] eqn:E.
  eapply step_top; [done| |exact E]. apply demo_range.
Qed.

Lemma steps_step {W : Type} `{!DurableLog W} (a b c : @sys W) : rtc step a b → step b c → rtc step a c.
Proof. intros H1 H2. eapply rtc_r; [exact H1|exact H2]. Qed.

Lemma steps_fill (a b : @sys store_log) i count after :
  rtc step a b → sys_readers b !! i = Some (PcFill count after) → sys_scanMu b = None →
  rtc step a (fill_run b i count after).
Proof.
  intros H Hi Hmu. etrans; [exact H|]. eapply (rtc_subrel (reader_step i)); [intros x y Hxy; left; by exists i|].
  by apply fill_run_steps.
Qed.

(** Reader 1 asks for two records; it fills the lane and leases records 1 and 2
    at instant 100; record 1 is committed at 103; reader 2 comes at 120, when
    the lease of record 2 has expired. *)
Definition demo_sys0 : @sys store_log := sys_init demo_log demo_new.
Definition demo_sys1 : @sys store_log := set_reader demo_sys0 1 (read_start 2).
Definition demo_sys2 : @sys store_log := top_run demo_sys1 1 2 100 [].
Definition demo_sys3 : @sys store_log := fill_run demo_sys2 1 2 (Some zero_time).
Definition demo_sys4 : @sys store_log := top_run demo_sys3 1 2 100 [[x01]; [x02]].
Definition demo_commit : Dispatcher * store_log * option goerr :=
  Commit store_commit (demo_env 103 (sys_d demo_sys4)) (sys_d demo_sys4) (sys_log demo_sys4) [demo_delivery1].
Definition demo_sys5 : @sys store_log := set_log (set_d demo_sys4 demo_commit.1.1) demo_commit.1.2.
Definition demo_sys6 : @sys store_log := set_reader demo_sys5 2 (read_start 2).
Definition demo_sys7 : @sys store_log := top_run demo_sys6 2 2 120 [[x05]; [x06]].

Lemma demo_steps2 : rtc step demo_sys0 demo_sys2.
Proof.
  eapply steps_step; [|apply top_run_step; vm_compute; reflexivity].
  apply rtc_once. left. exists 1%nat. apply step_start. vm_compute. reflexivity.
Qed.

Lemma demo_steps3 : rtc step demo_sys0 demo_sys3.
Proof. apply steps_fill; [apply demo_steps2|vm_compute; reflexivity..]. Qed.

Lemma demo_steps4 : rtc step demo_sys0 demo_sys4.
Proof. eapply steps_step; [apply demo_steps3|]. apply top_run_step. vm_compute. reflexivity. Qed.

Lemma demo_commit_ok :
  Commit store_commit (demo_env 103 (sys_d demo_sys4)) (sys_d demo_sys4) (sys_log demo_sys4) [demo_delivery1]
  = (demo_commit.1.1, demo_commit.1.2, None).
Proof.
  assert (H : demo_commit.2 = None) by (vm_compute; reflexivity). unfold demo_commit in H at 1. unfold demo_commit.
  destruct (Commit _ _ _ _ _) as [[d w] err]. cbn in *. by subst.
Qed.

Lemma demo_steps7 : rtc step demo_sys5 demo_sys7.
Proof.
  eapply steps_step; [|apply top_run_step; vm_compute; reflexivity].
  apply rtc_once. left. exists 2%nat. apply step_start. vm_compute. reflexivity.
Qed.

Lemma demo_reachable (s : @sys store_log) : rtc step demo_sys0 s → reachable demo_log demo_config s.
Proof. intros H. exists demo_new. split; [vm_compute; reflexivity|exact H]. Qed.

Lemma log_safety_witness :
  r_Seq ∘ fl_record ∘ snd <$> map_to_list (d_inFlight (sys_d demo_sys4)) = [1; 2]
  ∧ Z.of_nat (size (d_inFlight (sys_d demo_sys4))) ≤ 2
  ∧ ∀ seq, is_Some (d_states (sys_d demo_sys4) !! seq) → log_pending (sys_log demo_sys4) seq.
Proof.
  destruct (log_safety demo_log demo_config demo_sys4 demo_log_ok (demo_reachable _ demo_steps4))
    as (_ & _ & H & _ & Hb & _). split; [|split; [exact Hb|exact H]].
  vm_compute. reflexivity.
Defined.

Lemma pending_is_found_witness :
  ∃ s', rtc (reader_step 1) demo_sys2 s' ∧
    ((∃ e from limit records, sys_readers s' !! 1%nat = Some (PcDone (Err e))
        ∧ log_scan (sys_log demo_sys2) from limit = (records, Some e))
     ∨ sys_readers s' !! 1%nat = Some (PcTop 2)
       ∧ ∃ item, item ∈ d_fresh (sys_d s') ∧ r_Seq (qr_record item) ≤ 3
         ∧ ¬ tracked (sys_d demo_sys2) (r_Seq (qr_record item))
         ∧ log_record (sys_log s') (r_Seq (qr_record item)) = Some (qr_record item)).
Proof.
  apply (pending_is_found demo_log demo_config demo_sys2 1 2 (Some zero_time) 3 demo_log_ok (demo_reachable _ demo_steps2));
    try (vm_compute; reflexivity).
  - vm_compute. by eexists.
  - intros [st Hst]. vm_compute in Hst. discriminate.
Defined.

Lemma completed_never_redelivered_witness :
  match sys_readers demo_sys7 !! 2%nat with
  | Some (PcDone (Ok ds)) => delivered_seqs ds = [3; 2]
  | _ => False
  end
  ∧ ¬ log_pending (sys_log demo_sys7) 1.
Proof.
  split; [vm_compute; reflexivity|].
  destruct (completed_never_redelivered demo_log demo_config demo_sys4 store_commit (demo_env 103 (sys_d demo_sys4))
    demo_commit.1.1 demo_commit.1.2 [demo_delivery1] 1 demo_sys7 demo_log_ok (demo_reachable _ demo_steps4)
    store_commit_completes_lemma (demo_range _ _) demo_commit_ok ltac:(by left) demo_steps7) as [H _]. exact H.
Defined.

Definition demo_read : Dispatcher * list Receipt * read_next :=
  read_top list_receipt (demo_env 100 (sys_d demo_sys3)) [] 2 (sys_d demo_sys3) [[x01]; [x02]].

Lemma Read_delivers_witness :
  match demo_read with
  | (d, g, ReadReturn (Ok ds)) => delivered_seqs ds = [1; 2] ∧ NoDup (delivered_seqs ds)
      ∧ ∀ dl, dl ∈ ds → log_record (sys_log demo_sys3) (r_Seq (dl_Record dl)) = Some (dl_Record dl)
  | _ => False
  end.
Proof.
  assert (Hok : match demo_read.2 with ReadReturn (Ok ds) => delivered_seqs ds = [1; 2] | _ => False end)
    by (vm_compute; reflexivity).
  destruct demo_read as [[d g] next] eqn:E. cbn in Hok. destruct next as [[ds|err]| |wake]; try (exfalso; exact Hok).
  destruct (Read_delivers demo_log demo_config demo_sys3 1 2 _ list_receipt [[x01]; [x02]] g
    (demo_env 100 (sys_d demo_sys3)) [] d ds demo_log_ok (demo_reachable _ demo_steps3) ltac:(vm_compute; reflexivity)
    (demo_range _ _) E) as (_ & _ & _ & _ & Hn & Hp). split_and!; [exact Hok|exact Hn|intros dl Hin; apply (Hp dl Hin)].
Defined.

(** ** The store under the dispatcher *)

(** C14. The store keeps what the dispatcher relies on: appending and requeueing
    only add pending records above the tail, [Commit] and [DeadLetter] complete
    all of their records or none and touch no other, and a scan returns a
    faithful page: what is proved of a log at work holds over the real store. *)
Theorem store_is_durable_log {B : Badger} {BS : BadgerSpec B} (w : store_log) payloads now seq reason from limit :
  log_ok w → is_i64 now → is_u64 seq → 1 ≤ from ≤ max_uint64 → 0 < limit →
  match AppendBatch w.1 w.2 payloads now with (db, s, Ok _) => grows w (db, s) | _ => True end
  ∧ match Requeue w.1 w.2 seq with (db, s, Ok _) => grows w (db, s) | _ => True end
  ∧ completes store_commit
  ∧ completes_one (store_dead_letter reason now)
  ∧ match ScanBatch w.1 w.2 from limit with (records, None) => page_of w from limit records | _ => True end.
Proof.
  destruct w as [db s]. intros Hw Hnow Hseq Hfrom Hlimit. split_and!.
  - by apply AppendBatch_grows_lemma.
  - by apply Requeue_grows_lemma.
  - apply store_commit_completes_lemma.
  - by apply store_dead_letter_completes_lemma.
  - cbn. destruct (ScanBatch db s from limit) as [records [e|]] eqn:E; [done|].
    by apply (log_scan_spec (db, s)).
Qed.

Lemma store_is_durable_log_witness :
  r_Seq <$> (ScanBatch demo_log.1 demo_log.2 2 5).1 = [2; 3]
  ∧ page_of demo_log 2 5 (ScanBatch demo_log.1 demo_log.2 2 5).1.
Proof.
  split; [vm_compute; reflexivity|].
  destruct (store_is_durable_log demo_log [[]] 8 2 "broken" 2 5 demo_log_ok ltac:(by vm_compute) ltac:(by vm_compute)
    ltac:(by vm_compute) ltac:(by vm_compute)) as (_ & _ & _ & _ & H).
  assert (Hok : (ScanBatch demo_log.1 demo_log.2 2 5).2 = None) by (vm_compute; reflexivity).
  destruct (ScanBatch _ _ 2 5) as [records [e|]]; [discriminate Hok|exact H].
Defined.

(** ** Readers left behind *)

Section done.
Context {W : Type} `{!DurableLog W}.

(** A call of [Read] that has returned stays so. *)
Lemma done_step (s s' : @sys W) i r : sys_readers s !! i = Some (PcDone r) → step s s' → sys_readers s' !! i = Some (PcDone r).
Proof.
  intros Hi [[j Hs]|Hs]; [|by destruct Hs].
  destruct (decide (i = j)) as [<-|Hne]; [by destruct Hs; congruence|].
  destruct Hs; cbn; by rewrite lookup_insert_ne.
Qed.

Definition silent_step (s s' : @sys W) : Prop := step s s' ∧ sys_unnotified s' = 0%nat.

Lemma stranded_forever `{!DurableLogSpec W} (s s' : @sys W) i :
  stranded s i → rtc silent_step s s' → stranded s' i ∨ ∃ e, sys_readers s' !! i = Some (PcDone (Err e)).
Proof.
  intros Hs Hsteps. assert (H : stranded s i ∨ ∃ e, sys_readers s !! i = Some (PcDone (Err e))) by by left.
  clear Hs. induction Hsteps as [|a b c [Hab Hu] _ IH]; [done|]. apply IH. destruct H as [H|[e He]].
  - destruct (stranded_step a b i H Hab) as [?|[?|?]]; [by left|by right|congruence].
  - right. exists e. by eapply done_step.
Qed.
End done.

(** After [wait] has received the token. *)
Definition woken (s : @sys store_log) (i : nat) (count : Z) : @sys store_log :=
  set_reader (set_d s (with_signal (sys_d s) false)) i (PcTop count).

Lemma woken_step (s : @sys store_log) i count :
  sys_readers s !! i = Some (PcWait count zero_time) → d_signal (sys_d s) = true → step s (woken s i count).
Proof.
  intros Hi Hsig. left. exists i. eapply (step_wait i s count zero_time 0 WaitSignal _ None); [done|].
  unfold wait. cbn. by rewrite Hsig.
Qed.

(** Two calls of [Read(1)] on an empty log: both find nothing and wait. *)
Definition empty_log : store_log := (∅, demo_stream).
Definition wait_sys0 : @sys store_log := sys_init empty_log demo_new.
Definition wait_sys1 : @sys store_log := top_run (set_reader wait_sys0 1 (read_start 1)) 1 1 100 [].
Definition wait_sys2 : @sys store_log := fill_run wait_sys1 1 1 (Some zero_time).
Definition wait_sys3 : @sys store_log := top_run (set_reader wait_sys2 2 (read_start 1)) 2 1 100 [].
Definition wait_sys4 : @sys store_log := fill_run wait_sys3 2 1 (Some zero_time).

Lemma wait_steps4 : rtc step wait_sys0 wait_sys4.
Proof.
  apply steps_fill; [|vm_compute; reflexivity..].
  eapply steps_step; [eapply steps_step|apply top_run_step; vm_compute; reflexivity].
  2: { left. exists 2%nat. apply step_start. vm_compute. reflexivity. }
  apply steps_fill; [|vm_compute; reflexivity..].
  eapply steps_step; [apply rtc_once|apply top_run_step; vm_compute; reflexivity].
  left. exists 1%nat. apply step_start. vm_compute. reflexivity.
Qed.

(** [Close], and what the reader that gets the token does. *)
Definition close_sys5 : @sys store_log := set_d wait_sys4 (Close (sys_d wait_sys4)).
Definition close_sys6 : @sys store_log := top_run (woken close_sys5 1 1) 1 1 101 [].

Lemma close_steps6 : rtc step wait_sys0 close_sys6.
Proof.
  eapply steps_step; [|apply top_run_step; vm_compute; reflexivity].
  eapply steps_step; [|apply woken_step; vm_compute; reflexivity].
  eapply steps_step; [apply wait_steps4|]. right. apply step_Close.
Qed.

(** C39. [Close] wakes one blocked reader only.  Two calls of [Read] that wait on
    an empty log: after [Close] the first returns [ErrClosed], and however long
    the program runs without another write, which a closed log refuses, nothing
    ever wakes the second; only the end of its own context can. *)
Theorem Close_strands_reader :
  ∃ s : @sys store_log,
    reachable empty_log demo_config s ∧ d_closed (sys_d s) = true
    ∧ sys_readers s !! 1%nat = Some (PcDone (Err (Sentinel dispatch_ErrClosed)))
    ∧ sys_readers s !! 2%nat = Some (PcWait 1 zero_time)
    ∧ ∀ s', rtc silent_step s s' → stranded s' 2 ∨ ∃ e, sys_readers s' !! 2%nat = Some (PcDone (Err e)).
Proof.
  exists close_sys6. split_and!.
  - exists demo_new. split; [vm_compute; reflexivity|apply close_steps6].
  - vm_compute. reflexivity.
  - vm_compute. reflexivity.
  - vm_compute. reflexivity.
  - intros s'. apply stranded_forever. split; [vm_compute; reflexivity..|]. exists 1. vm_compute. reflexivity.
Qed.

(** A batch of two records, one [Notify], and what the reader it wakes does. *)
Definition batch_log : store_log := (AppendBatch empty_log.1 empty_log.2 [string_bytes "one"; string_bytes "two"] 7).1.
Definition batch_sys5 : @sys store_log := set_unnotified (set_log wait_sys4 batch_log) 1.
Definition batch_sys6 : @sys store_log := set_unnotified (set_d batch_sys5 (Notify (sys_d batch_sys5))) 0.
Definition batch_sys7 : @sys store_log := top_run (woken batch_sys6 1 1) 1 1 102 [].
Definition batch_sys8 : @sys store_log := fill_run batch_sys7 1 1 (Some zero_time).
Definition batch_sys9 : @sys store_log := top_run batch_sys8 1 1 102 [[x01]].

Lemma batch_grows : grows empty_log batch_log.
Proof.
  assert (Hw : log_ok empty_log) by (exists empty_queue; apply demo_opened0).
  pose proof (AppendBatch_grows_lemma empty_log.1 empty_log.2 [string_bytes "one"; string_bytes "two"] 7 Hw
    ltac:(by vm_compute)) as H.
  assert (Hok : is_Ok (AppendBatch empty_log.1 empty_log.2 [string_bytes "one"; string_bytes "two"] 7).2)
    by (vm_compute; by eexists).
  unfold batch_log. destruct (AppendBatch _ _ _ _) as [[db' s'] [rs|e]]; [exact H|by destruct Hok].
Qed.

Lemma batch_steps9 : rtc step wait_sys0 batch_sys9.
Proof.
  eapply steps_step; [|apply top_run_step; vm_compute; reflexivity].
  apply steps_fill; [|vm_compute; reflexivity..].
  eapply steps_step; [eapply steps_step|apply top_run_step; vm_compute; reflexivity].
  2: { apply woken_step; vm_compute; reflexivity. }
  eapply steps_step; [eapply steps_step; [apply wait_steps4|]|].
  - right. exact (step_write wait_sys4 batch_log batch_grows).
  - right. exact (step_notify batch_sys5 0 (reflexivity _)).
Qed.

(** A [Notify] after a batch wakes one blocked reader only.  Two calls of
    [Read(1)] wait on an empty log and two records are written together: the
    first reader returns with one, the other record stays in the fresh lane with
    a free slot, where a new call of [Read] would get it, and the second reader
    waits on, without a timer, and nothing but its own context ends the wait. *)
Theorem Notify_strands_reader :
  ∃ s : @sys store_log,
    reachable empty_log demo_config s ∧ d_closed (sys_d s) = false ∧ sys_unnotified s = 0%nat
    ∧ (∃ dl, sys_readers s !! 1%nat = Some (PcDone (Ok [dl])))
    ∧ sys_readers s !! 2%nat = Some (PcWait 1 zero_time)
    ∧ (∃ d g ds, read_top list_receipt (demo_env 103 (sys_d s)) [] 1 (sys_d s) [[x07]] = (d, g, ReadReturn (Ok ds)))
    ∧ ∀ now ev, (∃ out, wait now zero_time ev (sys_d s) = Some out) → ∃ e, ev = WaitContext e.
Proof.
  exists batch_sys9. split_and!.
  - exists demo_new. split; [vm_compute; reflexivity|apply batch_steps9].
  - vm_compute. reflexivity.
  - vm_compute. reflexivity.
  - eexists. vm_compute. reflexivity.
  - vm_compute. reflexivity.
  - do 3 eexists. vm_compute. reflexivity.
  - assert (Hsig : d_signal (sys_d batch_sys9) = false) by (vm_compute; reflexivity).
    intros now ev [out Hout]. unfold wait in Hout. cbn -[d_signal] in Hout. rewrite Hsig in Hout.
    destruct ev; [by eexists|discriminate Hout|discriminate Hout].
Qed.

(** ** A read that does not wait *)

Lemma expire_none (visits : list (Receipt * flight)) (now : Z) (d : Dispatcher) (earliest : Z) :
  (∀ receipt f, (receipt, f) ∈ visits → now < fl_deadline f) →
  (foldl (expire_one now) (d, earliest) visits).1 = d.
Proof.
  revert earliest. induction visits as [|[r f] visits IH]; intros earliest H; [done|]. cbn [foldl expire_one].
  destruct (Z.ltb_spec now (fl_deadline f)) as [_|Hle]; [apply IH; intros r' f' Hin; eapply H; by right|].
  pose proof (H r f ltac:(by left)). lia.
Qed.

Lemma expireLocked_none (visits : list (Receipt * flight)) (now : Z) (d : Dispatcher) :
  (∀ receipt f, (receipt, f) ∈ visits → now < fl_deadline f) →
  ∃ t, expireLocked visits now d = with_expireAt d t.
Proof.
  intros H. unfold expireLocked. destruct (now <? d_expireAt d); [exists (d_expireAt d); by destruct d|].
  pose proof (expire_none visits now d farFuture H) as He. destruct (foldl _ _ _) as [d' t]. cbn in He. subst d'. by exists t.
Qed.

Lemma wake_none (visits : list (Receipt * flight)) (wake : Z) :
  is_zero wake = false → (∀ receipt f, (receipt, f) ∈ visits → wake < fl_deadline f) → foldl wake_one wake visits = wake.
Proof.
  intros Hz. induction visits as [|[r f] visits IH]; intros H; [done|]. cbn [foldl]. unfold wake_one at 2. rewrite Hz. cbn.
  destruct (Z.ltb_spec (fl_deadline f) wake) as [Hlt|_]; [pose proof (H r f ltac:(by left)); lia|].
  apply IH. intros r' f' Hin. eapply H. by right.
Qed.

(** C40. A [Read] that cannot lease spins.  While every slot is taken by a live
    lease and a retry is already due, each turn of the loop of [Read] leaves the
    lanes as they are, counts a backpressure, and gets a wake time that has
    passed: [wait] returns at once, and never sees that the context is over. *)
Theorem Read_ignores_context {Rng : Type} (newReceipt : Rng → res Receipt * Rng) env visits' count (d : Dispatcher) (g : Rng)
    (head : queuedRecord) (rest : retryHeap) :
  d_closed d = false → range_of (e_visits env) d → range_of visits' d →
  Z.of_nat (size (d_inFlight d)) = cfg_MaxInFlight (d_config d) →
  (∀ receipt f, d_inFlight d !! receipt = Some f → e_now env < fl_deadline f) →
  d_retries d = head :: rest → zero_time < qr_readyAt head ≤ e_now env →
  ∃ t d', read_top newReceipt env visits' count d g = (d', g, ReadFill (qr_readyAt head))
    ∧ d' = with_stats (with_expireAt d t) (add_Backpressure (d_stats d))
    ∧ ∀ now, e_now env ≤ now →
        (∀ e, wait now (qr_readyAt head) (WaitContext e) d' = None)
        ∧ wait now (qr_readyAt head) WaitSignal d' = None
        ∧ wait now (qr_readyAt head) WaitTimer d' = Some (d', None).
Proof.
  intros Hcl Hr Hr' Hfull Hlive Hh [Hz Hle].
  assert (Hz' : is_zero (qr_readyAt head) = false) by (unfold is_zero; apply Z.eqb_neq; lia).
  assert (Hvis : ∀ vs : list (Receipt * flight), range_of vs d → ∀ r f, (r, f) ∈ vs → e_now env < fl_deadline f).
  { intros vs Hvs r f Hin. apply (Hlive r). apply elem_of_map_to_list. by rewrite <- Hvs. }
  destruct (expireLocked_none (e_visits env) (e_now env) d (Hvis _ Hr)) as [t Ht]. exists t. eexists. split; [|split; [reflexivity|]].
  - unfold read_top. rewrite Hcl, Ht. cbn [d_inFlight d_config with_expireAt d_fresh d_retries d_scanDone d_scanEmpty].
    rewrite Hfull, Z.ltb_irrefl, !andb_false_r. cbn [andb]. unfold takeLocked.
    cbn [d_inFlight d_config with_expireAt]. rewrite Hfull, Z.sub_diag.
    assert (Hn : Z.to_nat (if 0 <? count then 0 else count) = 0%nat) by (destruct (Z.ltb_spec 0 count); lia).
    rewrite Hn. cbn [take_loop]. unfold nextWakeLocked. cbn [d_retries with_expireAt]. rewrite Hh, wake_none; [|done|].
    + cbn [d_inFlight d_config with_expireAt]. by rewrite Hfull, Z.leb_refl.
    + intros r f Hin. pose proof (Hvis visits' Hr' r f Hin). lia.
  - intros now Hnow. unfold wait. rewrite Hz'. destruct (Z.leb_spec (qr_readyAt head - now) 0); [done|lia].
Qed.

(** One slot: record 1 was leased and retried without delay, and record 2 has
    the slot until 112. *)
Definition spin_config : Config :=
  {| cfg_PrefetchCapacity := 3; cfg_MaxInFlight := 1; cfg_VisibilityTimeout := 10; cfg_RetryInitial := 0;
     cfg_RetryMax := 40; cfg_RetryMultiplier := float64_of_Z 2 |}.
Definition spin_new : Dispatcher :=
  {| d_config := spin_config; d_closed := false; d_cursor := 1; d_scanDone := false; d_scanEmpty := false;
     d_fresh := []; d_retries := []; d_inFlight := ∅; d_states := ∅; d_preferRetry := false;
     d_signal := false; d_stats := zero_stats; d_expireAt := zero_time |}.
Definition spin_retried : Dispatcher :=
  let d := (takeLocked list_receipt 1 100 (fillFresh demo_scan spin_new).1 [[x01]]).1.1 in
  (Retry (λ _, 0) (demo_env 101 d) d [demo_delivery1]).1.
Definition spin_full : Dispatcher := (takeLocked list_receipt 1 102 (with_preferRetry spin_retried false) [[x02]]).1.1.

Lemma Read_ignores_context_witness :
  ∃ t d', read_top list_receipt (demo_env 105 spin_full) (map_to_list (d_inFlight spin_full)) 1 spin_full [[x03]]
    = (d', [[x03]], ReadFill 101)
    ∧ d' = with_stats (with_expireAt spin_full t) (add_Backpressure (d_stats spin_full))
    ∧ ∀ now, 105 ≤ now → (∀ e, wait now 101 (WaitContext e) d' = None)
        ∧ wait now 101 WaitSignal d' = None ∧ wait now 101 WaitTimer d' = Some (d', None).
Proof.
  set (head := hd (retry_item (demo_record 0) 0 0) (d_retries spin_full)).
  assert (Hh : d_retries spin_full = head :: tl (d_retries spin_full)) by (vm_compute; reflexivity).
  assert (H101 : qr_readyAt head = 101) by (vm_compute; reflexivity). clearbody head. rewrite <- H101.
  apply (Read_ignores_context list_receipt (demo_env 105 spin_full) (map_to_list (d_inFlight spin_full)) 1 spin_full
    [[x03]] head (tl (d_retries spin_full)) ltac:(vm_compute; reflexivity) (demo_range _ _) (reflexivity _) ltac:(vm_compute; reflexivity)).
  - intros r f Hf. apply elem_of_map_to_list in Hf. revert Hf. vm_compute map_to_list. intros Hf.
    apply list_elem_of_singleton in Hf. injection Hf as -> ->. vm_compute. reflexivity.
  - exact Hh.
  - rewrite H101. vm_compute. split; [reflexivity|discriminate].
Defined.
