(* ===== verification/ReadRun.v ===== *)
(** * Read, run to its end

    [Read] of internal/dispatch/dispatch.go as one function, for the time in
    which no other goroutine runs: the loop until it returns or has to wait.
    Its steps are those of Queue.v.  Two rounds are enough, and it waits only
    when there is nothing that it could lease. *)
From S2P Require Import Prelude Errors Store Heap Backoff Dispatch DispatchInv DispatchOps.
From S2P Require Import DispatchTake DispatchFill DispatchCalls Queue QueueInv QueueTheorems.
#[local] Open Scope Z_scope.

(** How a run of the loop ends; [ReadGoesOn] when its clock runs out. *)
Inductive read_outcome : Type :=
| ReadDone (r : res (list Delivery))
| ReadWaits (wakeAt : Z)
| ReadGoesOn.

Section run.
Context {W : Type} `{!DurableLog W} `{!DurableLogSpec W}.
Context {Rng : Type} (newReceipt : Rng → res Receipt * Rng).
(** The order in which [range] visits the leases. *)
Context (visits : Dispatcher → list (Receipt * flight)).

(** The body of the loop, at instant [now]. *)
Definition read_round (now count : Z) (w : W) (d : Dispatcher) (g : Rng) : Dispatcher * Rng * read_outcome :=
  let env := {| e_now := now; e_visits := visits d |} in
  match read_top newReceipt env (visits (expireLocked (visits d) now d)) count d g with
  | (d, g, ReadReturn r) => (d, g, ReadDone r)
  | (d, g, ReadRefill) =>
      match fillFresh (log_scan w) d with
      | (d, Err e) => (d, g, ReadDone (Err e))
      | (d, Ok _) => (d, g, ReadGoesOn)
      end
  | (d, g, ReadFill wakeAt) =>
      match fillFresh (log_scan w) d with
      | (d, Err e) => (d, g, ReadDone (Err e))
      | (d, Ok true) => (d, g, ReadGoesOn)
      | (d, Ok false) => (d, g, ReadWaits wakeAt)
      end
  end.

(** The loop; [clock] are the instants that its rounds read. *)
Fixpoint Read_loop (clock : list Z) (count : Z) (w : W) (d : Dispatcher) (g : Rng) : Dispatcher * Rng * read_outcome :=
  match clock with
  | [] => (d, g, ReadGoesOn)
  | now :: clock =>
      match read_round now count w d g with
      | (d, g, ReadGoesOn) => Read_loop clock count w d g
      | out => out
      end
  end.

Definition Read (clock : list Z) (count : Z) (w : W) (d : Dispatcher) (g : Rng) : Dispatcher * Rng * read_outcome :=
  if count <=? 0 then (d, g, ReadDone (Err (Sentinel dispatch_ErrInvalidCount)))
  else Read_loop clock count w d g.

(** ** What holds when nothing else runs *)

(** Every write was notified, and no goroutine scans. *)
Definition alone (w : W) (d : Dispatcher) : Prop := sys_inv (sys_init w d).

Lemma alone_of s : sys_inv s → sys_scanMu s = None → sys_unnotified s = 0%nat → alone (sys_log s) (sys_d s).
Proof. intros [Hlog Hdi Hrd Hho Hcu Hhe Htr Hsn Hse] Hmu Hun. split; cbn; try done. intros seq _ _. by apply Hse. Qed.

Lemma alone_reader w d p : alone w d → idle p → sys_inv (set_reader (sys_init w d) 0 p).
Proof. intros H Hp. by apply set_reader_inv. Qed.

Lemma fill_run_rest s i count after :
  sys_scanMu s = None →
  sys_scanMu (fill_run s i count after) = None ∧ sys_unnotified (fill_run s i count after) = sys_unnotified s.
Proof. intros Hmu. unfold fill_run. destruct (fill_begin _) as [? [[? ?]|]]; [|done]. by destruct (fill_end _ _ _). Qed.

Lemma alone_fill w d : alone w d → alone w (fillFresh (log_scan w) d).1.
Proof.
  intros H. pose proof (alone_reader w d (PcFill 1 None) H I) as Hs. set (s := set_reader _ _ _) in Hs.
  assert (Hi : sys_readers s !! 0%nat = Some (PcFill 1 None)) by apply lookup_insert_eq.
  assert (Hrun : sys_inv (fill_run s 0 1 None)).
  { eapply steps_inv; [|exact Hs]. eapply (rtc_subrel (reader_step 0)); [intros x y ?; left; by exists 0%nat|].
    by apply fill_run_steps. }
  pose proof (fill_run_rest s 0 1 None eq_refl) as Hrest.
  pose proof (fill_run_result s 0 1 None) as Hres. cbn [sys_log sys_d s set_reader sys_init] in Hres.
  destruct (fillFresh (log_scan w) d) as [d' r]. destruct Hres as (Hlog & Hd & _).
  pose proof (alone_of _ Hrun (proj1 Hrest) (proj2 Hrest)) as Hal. by rewrite Hlog, Hd in Hal.
Qed.

(** What keeps it: a call that completes nothing, a write and its [Notify], a
    completion, and a log that holds the same. *)
Lemma alone_quiet w d d' : alone w d → dispatch_inv d' → quiet d d' → alone w d'.
Proof. exact (quiet_inv (sys_init w d) d'). Qed.

Lemma alone_grown w w' d : alone w d → grows w w' → alone w' (Notify d).
Proof.
  intros Ha Hg. pose proof (step_write_inv (sys_init w d) w' Ha Hg) as H.
  exact (step_notify_inv _ 0 H eq_refl).
Qed.

Lemma alone_completed w w' d d' env deliveries :
  alone w d → valid_deliveries (live (e_now env) d) deliveries → completed env d deliveries d' →
  completes_in w (delivered_seqs deliveries) (w', None) → alone w' d'.
Proof. intros Ha Hv Hc Hin. exact (complete_inv (sys_init w d) env deliveries d' w' Ha Hv Hc Hin). Qed.

Lemma alone_same w w' d :
  alone w d → log_ok w' → log_tail w' = log_tail w → (∀ seq, log_record w' seq = log_record w seq) → alone w' d.
Proof.
  intros Ha Hw Ht Hr. exact (log_same_inv (sys_init w d) w' (NewError "") [] Ha (conj Hw (conj Ht Hr))).
Qed.

(** The part of the scan position that decides whether a scan starts. *)
Definition filled_up (d : Dispatcher) : Prop :=
  d_scanDone d = true ∨ d_scanEmpty d = true ∨ cfg_PrefetchCapacity (d_config d) ≤ Z.of_nat (length (d_fresh d)).

(** An error of a scan that the dispatcher may ask for. *)
Definition scan_fails (w : W) (e : goerr) : Prop :=
  ∃ from limit records, 1 ≤ from ≤ max_uint64 ∧ 0 < limit ∧ log_scan w from limit = (records, Some e).

(** What a fill changes: the end of the fresh lane. *)
Record refilled (w : W) (d : Dispatcher) (records : list StoreRecord) (d' : Dispatcher) : Prop := {
  rf_alone : alone w d';
  rf_up : filled_up d';
  rf_config : d_config d' = d_config d;
  rf_closed : d_closed d' = d_closed d;
  rf_retries : d_retries d' = d_retries d;
  rf_inFlight : d_inFlight d' = d_inFlight d;
  rf_fresh : d_fresh d' = d_fresh d ++ (fresh_item <$> records);
  rf_page : page_ok records;
  rf_new record : record ∈ records → d_scanDone d = false ∧ d_cursor d ≤ r_Seq record
}.

Lemma fillFresh_alone w d :
  alone w d → d_closed d = false →
  match fillFresh (log_scan w) d with
  | (d', Ok progress) => ∃ records, refilled w d records d' ∧ progress = bool_decide (records ≠ [])
  | (d', Err e) => alone w d' ∧ scan_fails w e
  end.
Proof.
  intros Ha Hcl. pose proof (alone_fill w d Ha) as Ha'. pose proof (si_dispatch _ Ha) as Hdi. pose proof (inv_scan _ Hdi) as Hsc.
  cbn in Hdi, Hsc. unfold fillFresh in *. destruct (fill_begin d) as [d1 [[from free]|]] eqn:Hb.
  2: { apply fill_begin_skip in Hb as Heq. subst d1. exists []. split; [|done]. split; try done.
       - unfold fill_begin in Hb. rewrite Hcl in Hb. unfold filled_up.
         destruct (d_scanDone d), (d_scanEmpty d); try (by auto). cbn in Hb. case_match eqn:Hf; [|done]. zbool. right; right. lia.
       - cbn. by rewrite app_nil_r.
       - split; [constructor|]. by intros ? ?%elem_of_nil.
       - by intros ? ?%elem_of_nil. }
  apply fill_begin_spec in Hb as (-> & Hdone & _ & -> & Hfree & Hroom).
  destruct (log_scan w (d_cursor d) free) as [records [e|]] eqn:Hscan.
  { cbn [fill_end] in *. split; [exact Ha'|]. eexists _, _, _. split_and!; [apply (scan_cursor _ Hsc)..|exact Hfree|exact Hscan]. }
  destruct (log_scan_spec w _ free records (si_log _ Ha) (scan_cursor _ Hsc) Hfree Hscan) as [Hso Hli Hre Hco].
  cbn [fill_end] in *. set (d1 := if _ =? free then _ else _) in *.
  assert (Hd1 : lanes_ok d1 ∧ scan_ok d1 ∧ d_scanDone d1 = false ∧ d_cursor d1 = d_cursor d).
  { pose proof (scanEmpty_inv _ true Hdi) as H1. pose proof (scanEmpty_inv _ false Hdi) as H2.
    unfold d1. destruct (Z.of_nat (length records) =? free); split_and!;
      first [exact (inv_lanes _ H1)|exact (inv_lanes _ H2)|exact (inv_scan _ H1)|exact (inv_scan _ H2)|exact Hdone|done]. }
  destruct Hd1 as (Hl1 & Hs1 & Hdone1 & Hc1).
  destruct (fill_fold_lemma d1 false records Hl1 Hs1 Hdone1 Hso) as [Hf Hp].
  destruct (foldl fill_one (d1, false) records) as [d2 progress]. cbn [fst snd orb] in Hf, Hp, Ha'.
  assert (Hnew : new_records d1 records = records) by (apply (new_records_page d1 _ _ Hc1); intros r Hin; by apply Hre).
  rewrite Hnew in Hp. exists records. split; [|done].
  assert (Hsame : d_config d1 = d_config d ∧ d_closed d1 = d_closed d ∧ d_retries d1 = d_retries d
    ∧ d_inFlight d1 = d_inFlight d ∧ d_fresh d1 = d_fresh d) by (unfold d1; by case_match).
  destruct Hsame as (S1 & S2 & S3 & S4 & S5). pose proof Hf as [_ _ F3 F4 F5 _ _ _ _ F10 F11 F12 _ _]. rewrite Hnew in F10.
  split; try congruence; [|intros r Hin; split; [done|by apply Hre]].
  unfold filled_up. rewrite F5, F3, S1, F10, S5, length_app, length_fmap. right.
  unfold d1. destruct (Z.eqb_spec (Z.of_nat (length records)) free); [right; lia|by left].
Qed.

(** ** A round *)

Context (Hvisits : ∀ d, range_of (visits d) d).

(** The records [ds] were leased by this call, at [now]. *)
Record leased_by (w : W) (now count : Z) (d d' : Dispatcher) (ds : list Delivery) : Prop := {
  lb_some : ds ≠ [];
  lb_count : Z.of_nat (length ds) ≤ count;
  lb_receipts : NoDup (dl_Receipt <$> ds);
  lb_record dl : dl ∈ ds → log_record w (r_Seq (dl_Record dl)) = Some (dl_Record dl);
  lb_lease dl : dl ∈ ds → d_inFlight d' !! dl_Receipt dl = Some (flight_of dl);
  lb_deadline dl : dl ∈ ds → dl_Deadline dl = now + cfg_VisibilityTimeout (d_config d)
}.

(** Nothing can be leased at [now], and [wakeAt] is not after the first instant
    at which time alone changes that. *)
Record blocked (w : W) (now : Z) (d : Dispatcher) (wakeAt : Z) : Prop := {
  bl_lanes : Z.of_nat (size (d_inFlight d)) = cfg_MaxInFlight (d_config d)
             ∨ retry_ready now d = false ∧ fresh_ready d = false;
  bl_found seq : d_fresh d = [] → log_pending w seq → tracked d seq;
  bl_zero : d_inFlight d = ∅ → d_retries d = [] → wakeAt = zero_time;
  bl_wake :
    (∀ receipt f, d_inFlight d !! receipt = Some f → zero_time < fl_deadline f) →
    (∀ item, item ∈ d_retries d → zero_time < qr_readyAt item) →
    wakeAt = zero_time ∧ d_inFlight d = ∅ ∧ d_retries d = []
    ∨ (∀ receipt f, d_inFlight d !! receipt = Some f → wakeAt ≤ fl_deadline f)
      ∧ ∀ item, item ∈ d_retries d → wakeAt ≤ qr_readyAt item
}.

Definition read_fails (w : W) (d : Dispatcher) (e : goerr) : Prop :=
  d_closed d = true ∧ e = Sentinel dispatch_ErrClosed
  ∨ receipt_error newReceipt e
  ∨ scan_fails w e.

Lemma expires_alone w now d d' : alone w d → expires now d d' → alone w d'.
Proof.
  intros Ha Hex. change (sys_init w d') with (set_d (sys_init w d) d').
  apply (quiet_inv _ _ Ha); [by apply Hex|by eapply expires_quiet].
Qed.

Lemma top_alone w env visits' count d g d' g' next :
  alone w d → range_of (e_visits env) d → read_top newReceipt env visits' count d g = (d', g', next) →
  alone w d' ∧ read_ok newReceipt env visits' count d d' next.
Proof.
  intros Ha Hr Htop. pose proof (read_top_lemma newReceipt env visits' count d g d' g' next (si_dispatch _ Ha) Hr Htop) as Hok.
  split; [|done]. change (sys_init w d') with (set_d (sys_init w d) d'). apply (quiet_inv _ _ Ha); apply Hok.
Qed.

(** The scan position only matters to [fillFresh]. *)
Lemma filled_up_ext d d' :
  d_scanDone d' = d_scanDone d → d_scanEmpty d' = d_scanEmpty d → d_config d' = d_config d →
  d_fresh d' = d_fresh d → filled_up d → filled_up d'.
Proof. unfold filled_up. by intros -> -> -> ->. Qed.

Lemma filled_up_skip scan d : filled_up d → fillFresh scan d = (d, Ok false).
Proof.
  intros Hup. unfold fillFresh, fill_begin. destruct (d_closed d); [done|].
  destruct Hup as [->|[->|Hup]]; [done|by destruct (d_scanDone d)|].
  destruct (d_scanDone d), (d_scanEmpty d); try done. cbn [orb]. by rewrite (proj2 (Z.leb_le _ _)) by lia.
Qed.

(** In a lane other than the fresh one, or scanned and not pending. *)
Lemma filled_up_found w d seq : alone w d → filled_up d → d_fresh d = [] → log_pending w seq → tracked d seq.
Proof.
  intros Ha Hup Hf Hp. destruct Hup as [Hup|[Hup|Hup]].
  - apply (si_scanned _ Ha); [done|]. by right.
  - apply (si_scanned _ Ha); [done|]. by apply (si_scanEmpty _ Ha).
  - rewrite Hf in Hup. destruct (config_bounds _ (inv_config _ (si_dispatch _ Ha))) as [Hc _]. cbn in Hup, Hc. lia.
Qed.

Lemma wake_fold visits' wake :
  let t := foldl wake_one wake visits' in
  (∀ r f, (r, f) ∈ visits' → zero_time < fl_deadline f) → zero_time ≤ wake →
  zero_time ≤ t ∧ (t = zero_time ↔ wake = zero_time ∧ visits' = [])
  ∧ (∀ r f, (r, f) ∈ visits' → t ≤ fl_deadline f) ∧ (wake ≠ zero_time → t ≤ wake).
Proof.
  revert wake. induction visits' as [|[r f] visits' IH]; intros wake; cbn zeta; cbn [foldl]; intros Hd Hw.
  { split_and!; [done|tauto|by intros ? ? ?%elem_of_nil|done]. }
  pose proof (Hd r f ltac:(by left)) as Hrf.
  assert (Hone : zero_time < wake_one wake (r, f) ∧ wake_one wake (r, f) ≤ fl_deadline f
    ∧ (wake ≠ zero_time → wake_one wake (r, f) ≤ wake)).
  { unfold wake_one, is_zero. cbn. destruct (Z.eqb_spec wake zero_time); cbn; [lia|].
    destruct (Z.ltb_spec (fl_deadline f) wake); lia. }
  destruct (IH (wake_one wake (r, f))) as (H1 & H2 & H3 & H4); [intros r' f' Hin; apply (Hd r' f'); by right|lia|].
  assert (Hle : foldl wake_one (wake_one wake (r, f)) visits' ≤ wake_one wake (r, f)) by (apply H4; lia).
  split_and!; [done| | |lia].
  - split; [|by intros []]. intros Hz. apply H2 in Hz. lia.
  - intros r' f' [[= -> ->]|Hin]%elem_of_cons; [lia|by eapply H3].
Qed.

Lemma wake_spec visits' d :
  range_of visits' d → heap_ok (d_retries d) →
  let wakeAt := nextWakeLocked visits' d in
  (∀ receipt f, d_inFlight d !! receipt = Some f → zero_time < fl_deadline f) →
  (∀ item, item ∈ d_retries d → zero_time < qr_readyAt item) →
  wakeAt = zero_time ∧ d_inFlight d = ∅ ∧ d_retries d = []
  ∨ (∀ receipt f, d_inFlight d !! receipt = Some f → wakeAt ≤ fl_deadline f)
    ∧ ∀ item, item ∈ d_retries d → wakeAt ≤ qr_readyAt item.
Proof.
  intros Hr [Ho _] wakeAt Hd Hready. unfold wakeAt, nextWakeLocked. set (wake := match d_retries d with [] => _ | _ => _ end).
  pose proof (λ receipt f, range_of_elem visits' d receipt f Hr) as Hel.
  assert (Hw : zero_time ≤ wake ∧ (wake = zero_time → d_retries d = [])
    ∧ ∀ item, item ∈ d_retries d → wake ≤ qr_readyAt item).
  { unfold wake. destruct (d_retries d) as [|head rest] eqn:E; [split_and!; [done|done|by intros ? ?%elem_of_nil]|].
    pose proof (Hready head ltac:(by left)). split_and!; [lia|lia|]. intros item [i Hi]%list_elem_of_lookup.
    pose proof (heap_ordered_root _ head Ho eq_refl i item Hi) as Hle. apply item_le_spec in Hle. lia. }
  destruct Hw as (Hw & Hnil & Hmin).
  destruct (wake_fold visits' wake) as (H1 & H2 & H3 & H4); [intros r f Hin; by apply (Hd r), Hel|done|].
  destruct (decide (foldl wake_one wake visits' = zero_time)) as [Hz|Hz].
  - left. apply H2 in Hz as Hz'. destruct Hz' as [Hz1 Hz2]. split_and!; [done| |by apply Hnil].
    subst visits'. apply map_to_list_empty_iff. by apply Permutation_nil.
  - right. split; [intros r f Hf; eapply H3; by apply Hel|]. intros item Hin. specialize (Hmin item Hin).
    destruct (decide (wake = zero_time)) as [Hwz|Hwz]; [|specialize (H4 Hwz); lia].
    apply Hnil in Hwz. rewrite Hwz in Hin. by apply elem_of_nil in Hin.
Qed.

Lemma wake_zero visits' d :
  range_of visits' d → d_inFlight d = ∅ → d_retries d = [] → nextWakeLocked visits' d = zero_time.
Proof.
  intros Hr Hi Hre. unfold range_of in Hr. rewrite Hi, map_to_list_empty in Hr. apply Permutation_nil_r in Hr as ->.
  unfold nextWakeLocked. by rewrite Hre.
Qed.

(** What one round achieves: it ends the run, or it brings the fresh lane as
    far as it gets. *)
Definition round_result (w : W) (now count : Z) (d d' : Dispatcher) (out : read_outcome) : Prop :=
  match out with
  | ReadDone (Ok ds) => leased_by w now count d d' ds
  | ReadDone (Err e) => read_fails w d e
  | ReadWaits wakeAt => blocked w now d' wakeAt
  | ReadGoesOn => ¬ filled_up d ∧ filled_up d' ∧ d_config d' = d_config d ∧ d_closed d' = d_closed d
  end.

Lemma round_done w now count d d' ds :
  alone w d → alone w d' → read_ok newReceipt {| e_now := now; e_visits := visits d |} (visits (expireLocked (visits d) now d)) count d d'
    (ReadReturn (Ok ds)) →
  leased_by w now count d d' ds.
Proof.
  intros Ha Ha' [Hi Hq (Hcl & Hne & Hlen & d1 & sel & Hex & Htk)].
  split; [done|done|apply Htk| |intros dl Hin; by apply Htk|].
  - intros dl Hin. apply (si_held _ Ha'). destruct (tk_delivered _ _ _ _ _ Htk dl Hin) as [Hf _].
    exact (held_flight d' _ _ Hf).
  - intros dl Hin. destruct (tk_delivered _ _ _ _ _ Htk dl Hin) as (_ & _ & -> & _).
    by rewrite (frame_config _ _ (ex_frame _ _ _ Hex)).
Qed.

Lemma round_blocked w now count d d1 d2 wakeAt :
  0 < count → alone w d → alone w d1 →
  read_ok newReceipt {| e_now := now; e_visits := visits d |} (visits (expireLocked (visits d) now d)) count d d1 (ReadFill wakeAt) →
  refilled w d1 [] d2 → blocked w now d2 wakeAt.
Proof.
  intros Hcount Ha Ha1 [Hi Hq (Hcl & -> & Hidle & d0 & Hex & Hre)] [Ha2 Hup Rc _ Rr Ri Rf _ _].
  cbn in Rf. rewrite app_nil_r in Rf. rewrite <- (qt_config _ _ Hq) in Hidle.
  assert (Hrange : range_of (visits (expireLocked (visits d) now d)) d1).
  { assert (He : d_inFlight d1 = d_inFlight (expireLocked (visits d) now d)).
    { rewrite (re_inFlight _ _ Hre), (ex_inFlight _ _ _ Hex).
      by rewrite (ex_inFlight _ _ _ (expireLocked_lemma (visits d) now d (si_dispatch _ Ha) (Hvisits d))). }
    unfold range_of. rewrite He. apply Hvisits. }
  split.
  - rewrite Ri, Rc. unfold retry_ready, fresh_ready in *. rewrite Rr, Rf, Ri, Rc. destruct Hidle as [?|?]; [lia|done].
  - intros seq Hf. by apply filled_up_found.
  - rewrite Rr, Ri. by apply wake_zero.
  - rewrite Rr, Ri. apply wake_spec; [done|apply (lanes_heap _ (inv_lanes _ Hi))].
Qed.

Lemma read_round_lemma now count w d g :
  alone w d → 0 < count →
  let '(d', g', out) := read_round now count w d g in alone w d' ∧ round_result w now count d d' out.
Proof.
  intros Ha Hcount. unfold read_round. set (env := {| e_now := now; e_visits := visits d |}).
  set (visits' := visits (expireLocked (visits d) now d)).
  destruct (read_top newReceipt env visits' count d g) as [[d1 g1] next] eqn:Htop.
  destruct (top_alone w env visits' count d g d1 g1 next Ha (Hvisits d) Htop) as [Ha1 Hok]. pose proof Hok as [_ Hq Hnext].
  destruct next as [[ds|e]| |wakeAt]; cbn [round_result].
  - split; [done|]. by apply round_done.
  - split; [done|]. destruct Hnext as [(Hcl & -> & _)|(_ & _ & Hcause)]; [by left|by right; left].
  - destruct Hnext as (Hcl & Hex & Hf & He & Hdone).
    pose proof (fillFresh_alone w d1 Ha1) as Hfill. rewrite (frame_closed _ _ (ex_frame _ _ _ Hex)), Hcl in Hfill.
    specialize (Hfill eq_refl). destruct (fillFresh (log_scan w) d1) as [d2 [progress|e]]; cbn [round_result].
    2: { destruct Hfill as [Ha2 Herr]. split; [done|]. by right; right. }
    destruct Hfill as (records & [Ha2 Hup Rc Rcl _ _ _ _ _] & _).
    split_and!; [done| |done|by rewrite Rc, (qt_config _ _ Hq)|by rewrite Rcl, (frame_closed _ _ (ex_frame _ _ _ Hex))].
    intros [Hu|[Hu|Hu]].
    + rewrite <- (qt_scanDone _ _ Hq) in Hu. congruence.
    + rewrite <- (qt_scanEmpty _ _ Hq) in Hu. congruence.
    + rewrite <- (ex_fresh _ _ _ Hex), Hf in Hu. cbn in Hu.
      destruct (config_bounds _ (inv_config _ (si_dispatch _ Ha))) as [Hc _]. cbn in Hc. lia.
  - destruct Hnext as (Hcl & Hwake & Hidle & d0 & Hex & Hre).
    assert (Hcl1 : d_closed d1 = false) by (by rewrite (un_closed _ _ (re_untouched _ _ Hre)), (frame_closed _ _ (ex_frame _ _ _ Hex))).
    assert (Hskip : filled_up d → fillFresh (log_scan w) d1 = (d1, Ok false)).
    { intros Hu. apply filled_up_skip. revert Hu. apply filled_up_ext; [apply Hq..|].
      by rewrite (re_fresh _ _ Hre), (ex_fresh _ _ _ Hex). }
    pose proof (fillFresh_alone w d1 Ha1 Hcl1) as Hfill.
    destruct (fillFresh (log_scan w) d1) as [d2 [progress|e]]; cbn [round_result].
    2: { destruct Hfill as [Ha2 Herr]. split; [done|]. by right; right. }
    destruct Hfill as (records & Hfill & ->). destruct records as [|record records].
    + cbn. split; [apply Hfill|]. exact (round_blocked w now count d d1 d2 wakeAt Hcount Ha Ha1 Hok Hfill).
    + cbn. pose proof Hfill as [Ha2 Hup Rc Rcl _ _ Rf _ Rn]. split_and!; [done| |done|by rewrite Rc, (qt_config _ _ Hq)|congruence].
      by intros [= _ ?]%Hskip.
Qed.

Lemma Read_loop_settles clock t1 t2 count w d g :
  alone w d → 0 < count →
  let '(d', g', out) := Read_loop (t1 :: t2 :: clock) count w d g in
  alone w d' ∧ out ≠ ReadGoesOn ∧ ∃ now, (now = t1 ∨ now = t2) ∧ round_result w now count d d' out.
Proof.
  intros Ha Hcount. cbn [Read_loop]. pose proof (read_round_lemma t1 count w d g Ha Hcount) as H1.
  destruct (read_round t1 count w d g) as [[d1 g1] [r|wakeAt|]]; destruct H1 as [Ha1 H1];
    [split_and!; [done|done|exists t1; auto]..|].
  destruct H1 as (_ & Hup & Hc & Hcl). pose proof (read_round_lemma t2 count w d1 g1 Ha1 Hcount) as H2.
  destruct (read_round t2 count w d1 g1) as [[d2 g2] [r|wakeAt|]]; destruct H2 as [Ha2 H2]; [| |by destruct H2].
  - split_and!; [done|done|]. exists t2. split; [by right|]. destruct r as [ds|e]; cbn in H2 |- *.
    + destruct H2. split; try done. by rewrite <- Hc.
    + unfold read_fails in *. by rewrite <- Hcl.
  - split_and!; [done|done|]. exists t2. auto.
Qed.

(** ** The configuration *)

Lemma fillFresh_config scan d : dispatch_inv d → d_config (fillFresh scan d).1 = d_config d.
Proof.
  intros Hdi. unfold fillFresh. destruct (fill_begin d) as [d1 [[from free]|]] eqn:Hb.
  2: { by apply fill_begin_skip in Hb as ->. }
  apply fill_begin_spec in Hb as (-> & _). destruct (scan from free) as [records [e|]]; [done|]. cbn [fill_end].
  assert (Hf : ∀ l dp, d_config (foldl fill_one dp l).1 = d_config dp.1).
  { induction l as [|record l IH]; intros dp; [done|]. cbn [foldl]. rewrite IH. destruct dp. unfold fill_one. by repeat case_match. }
  specialize (Hf records (if Z.of_nat (length records) =? free then with_scanEmpty (with_scanEmpty d true) false else with_scanEmpty d true, false)).
  destruct (foldl fill_one _ records) as [d2 progress]. cbn in Hf |- *. rewrite Hf. by case_match.
Qed.

Lemma read_round_config now count w d g : alone w d → d_config (read_round now count w d g).1.1 = d_config d.
Proof.
  intros Ha. unfold read_round. set (env := {| e_now := now; e_visits := visits d |}).
  destruct (read_top newReceipt env _ count d g) as [[d1 g1] next] eqn:Htop.
  destruct (top_alone w env _ count d g d1 g1 next Ha (Hvisits d) Htop) as [Ha1 [_ Hq _]].
  pose proof (fillFresh_config (log_scan w) d1 (si_dispatch _ Ha1)) as Hf.
  destruct next as [r| |wakeAt]; [by apply Hq|..];
    (destruct (fillFresh _ d1) as [d2 [[]|e]]; cbn in Hf |- *; rewrite Hf; by apply Hq).
Qed.

Lemma Read_config t1 t2 count w d g :
  alone w d → 0 < count → d_config (Read [t1; t2] count w d g).1.1 = d_config d.
Proof.
  intros Ha Hcount. unfold Read. rewrite (proj2 (Z.leb_gt _ _)) by done. cbn [Read_loop].
  pose proof (read_round_config t1 count w d g Ha) as H1. pose proof (read_round_lemma t1 count w d g Ha Hcount) as R1.
  destruct (read_round t1 count w d g) as [[d1 g1] [r|wakeAt|]]; [done..|]. destruct R1 as [Ha1 _].
  pose proof (read_round_config t2 count w d1 g1 Ha1) as H2. cbn in H1, H2.
  destruct (read_round t2 count w d1 g1) as [[d2 g2] [r|wakeAt|]]; cbn in *; congruence.
Qed.

(** ** A call that waits *)

(** Two rounds, the instant of the wait that may follow, and why it ends. *)
Definition turn : Type := Z * Z * Z * wait_event.

(** [Read] until it returns; [None] when it is still under way after [turns]. *)
Fixpoint Read_turns (turns : list turn) (count : Z) (w : W) (d : Dispatcher) (g : Rng)
    : option (Dispatcher * Rng * res (list Delivery)) :=
  match turns with
  | [] => None
  | (t1, t2, t3, ev) :: turns =>
      match Read [t1; t2] count w d g with
      | (d, g, ReadDone r) => Some (d, g, r)
      | (d, g, ReadWaits wakeAt) =>
          match wait t3 wakeAt ev d with
          | Some (d, Some err) => Some (d, g, Err err)
          | Some (d, None) => Read_turns turns count w d g
          | None => None
          end
      | (_, _, ReadGoesOn) => None
      end
  end.

Lemma wait_alone w t wakeAt ev d d' err :
  alone w d → wait t wakeAt ev d = Some (d', err) → alone w d' ∧ d_config d' = d_config d.
Proof.
  intros Ha Hw. pose proof (si_dispatch _ Ha) as Hd. unfold wait in Hw.
  assert (Hsig : alone w (with_signal d false)) by (apply (alone_quiet w d); [done|by apply (same_lanes_inv d)|done]).
  repeat case_match; try done; by injection Hw as <- <-.
Qed.

Lemma Read_turns_lemma turns count w d g :
  alone w d →
  match Read_turns turns count w d g with
  | Some (d', _, r) =>
      alone w d' ∧ match r with Ok ds => ∃ now, leased_by w now count d d' ds | Err _ => True end
  | None => True
  end.
Proof.
  revert d g. induction turns as [|[[[t1 t2] t3] ev] turns IH]; intros d g Ha; cbn [Read_turns]; [done|].
  destruct (Z.leb_spec count 0) as [Hc|Hc].
  { unfold Read. by rewrite (proj2 (Z.leb_le _ _) Hc). }
  pose proof (Read_config t1 t2 count w d g Ha Hc) as Hcfg. unfold Read in *. rewrite (proj2 (Z.leb_gt _ _)) in * by done.
  pose proof (Read_loop_settles [] t1 t2 count w d g Ha Hc) as H.
  destruct (Read_loop [t1; t2] count w d g) as [[d1 g1] [[ds|e]|wakeAt|]]; [|by destruct H| |done].
  - destruct H as (Ha1 & _ & now & _ & Hl). split; [done|]. by exists now.
  - destruct H as (Ha1 & _). destruct (wait t3 wakeAt ev d1) as [[d2 [e|]]|] eqn:Hw; [|..|done].
    + split; [|done]. by eapply wait_alone.
    + destruct (wait_alone _ _ _ _ _ _ _ Ha1 Hw) as [Ha2 Hcfg2]. specialize (IH d2 g1 Ha2).
      destruct (Read_turns turns count w d2 g1) as [[[d3 g3] [ds|e]]|]; [|done..].
      destruct IH as [Ha3 [now [H1 H2 H3 H4 H5 H6]]]. split; [done|]. exists now. split; try done.
      cbn in Hcfg. by rewrite Hcfg2, Hcfg in H6.
Qed.

(** ** The run as steps *)

Definition outcome_pc (count : Z) (out : read_outcome) : pc :=
  match out with ReadDone r => PcDone r | ReadWaits wakeAt => PcWait count wakeAt | ReadGoesOn => PcTop count end.

(** [s'] is [s] after reader [i] got to [p] and nobody else moved. *)
Record ran (i : nat) (s s' : @sys W) (d : Dispatcher) (p : pc) : Prop := {
  ran_steps : rtc (reader_step i) s s';
  ran_log : sys_log s' = sys_log s;
  ran_d : sys_d s' = d;
  ran_scanMu : sys_scanMu s' = None;
  ran_reader : sys_readers s' !! i = Some p
}.

Lemma ran_fill i s s1 d1 count after :
  ran i s s1 d1 (PcFill count after) →
  let '(d, r) := fillFresh (log_scan (sys_log s)) d1 in ∃ s', ran i s s' d (after_fill count after r).
Proof.
  intros [H1 Hl Hd Hm Hr]. pose proof (fill_run_result s1 i count after) as Hres. rewrite Hl, Hd in Hres.
  destruct (fillFresh _ d1) as [d r]. destruct Hres as (H3 & H4 & H5). exists (fill_run s1 i count after).
  split; [|done|done|by apply fill_run_rest|done]. etrans; [exact H1|]. by apply fill_run_steps.
Qed.

Lemma read_round_steps i now count s g :
  sys_readers s !! i = Some (PcTop count) → sys_scanMu s = None →
  let '(d', g', out) := read_round now count (sys_log s) (sys_d s) g in ∃ s', ran i s s' d' (outcome_pc count out).
Proof.
  intros Hi Hmu. unfold read_round. set (env := {| e_now := now; e_visits := visits (sys_d s) |}).
  destruct (read_top newReceipt env _ count (sys_d s) g) as [[d1 g1] next] eqn:Htop.
  assert (H1 : ran i s (set_reader (set_d s d1) i (after_top count next)) d1 (after_top count next)).
  { split; [|done|done|done|apply lookup_insert_eq]. eapply rtc_once, (step_top i s count); [done| |exact Htop]. apply Hvisits. }
  destruct next as [r| |wakeAt]; cbn [after_top] in H1.
  - by eexists.
  - apply ran_fill in H1. destruct (fillFresh _ d1) as [d2 [[]|e]]; done.
  - apply ran_fill in H1. destruct (fillFresh _ d1) as [d2 [[]|e]]; done.
Qed.

Lemma Read_loop_steps i clock count s g :
  sys_readers s !! i = Some (PcTop count) → sys_scanMu s = None →
  let '(d', g', out) := Read_loop clock count (sys_log s) (sys_d s) g in ∃ s', ran i s s' d' (outcome_pc count out).
Proof.
  revert s g. induction clock as [|now clock IH]; intros s g Hi Hmu; cbn [Read_loop]; [by exists s|].
  pose proof (read_round_steps i now count s g Hi Hmu) as H.
  destruct (read_round now count _ _ g) as [[d1 g1] [r|wakeAt|]]; [done..|].
  destruct H as (s1 & [H1 Hl Hd Hm Hr]). specialize (IH s1 g1 Hr Hm). rewrite Hl, Hd in IH.
  destruct (Read_loop clock count (sys_log s) d1 g1) as [[d2 g2] out]. destruct IH as (s2 & [H2 Hl2 Hd2 Hm2 Hr2]).
  exists s2. split; [by etrans|congruence|done..].
Qed.
End run.
