(* ===== verification/Consumer.v ===== *)
(** * A consumer that reads and commits

    One goroutine that calls [Read] and then [Commit] with what it got, until
    there is nothing left, on a log that was just opened: the loop of the
    package documentation's example.  It gets every pending record exactly once,
    in the order of the sequences, with the contents the store has for it. *)
From S2P Require Import Prelude Errors Store Heap Backoff Dispatch DispatchInv DispatchOps.
From S2P Require Import DispatchTake DispatchFill DispatchCalls Queue QueueInv StoreLog QueueTheorems ReadRun.
#[local] Open Scope Z_scope.

(** How the consumer stops; [Unfinished] when its clock runs out. *)
Inductive consumer_end : Type :=
| Drained
| Stopped (e : goerr)
| Unfinished.

Section consume.
Context {W : Type} `{!DurableLog W}.
Context {Rng : Type} (newReceipt : Rng → res Receipt * Rng) (visits : Dispatcher → list (Receipt * flight)).
Context (persist : list Z → W → W * option goerr).

(** [clock] are the instants of its rounds. *)
Fixpoint consume (clock : list Z) (count : Z) (w : W) (d : Dispatcher) (g : Rng)
    : W * Dispatcher * list StoreRecord * consumer_end :=
  match clock with
  | [] => (w, d, [], Unfinished)
  | now :: clock =>
      match Read newReceipt visits [now; now] count w d g with
      | (d, g, ReadDone (Ok deliveries)) =>
          match Commit persist {| e_now := now; e_visits := visits d |} d w deliveries with
          | (d, w, None) =>
              let '(w, d, records, outcome) := consume clock count w d g in
              (w, d, (dl_Record <$> deliveries) ++ records, outcome)
          | (d, w, Some e) => (w, d, [], Stopped e)
          end
      | (d, g, ReadDone (Err e)) => (w, d, [], Stopped e)
      | (d, g, ReadWaits _) => (w, d, [], Drained)
      | (d, g, ReadGoesOn) => (w, d, [], Unfinished)
      end
  end.
End consume.

Lemma strict_NoDup (l : list Z) : StronglySorted Z.lt l → NoDup l.
Proof.
  induction 1 as [|x l Hs IH Hx]; [constructor|]. apply NoDup_cons. split; [|done].
  intros Hin. eapply Forall_forall in Hx; [|exact Hin]. lia.
Qed.

(** ** Taking from the fresh lane alone *)

Section fifo.
Context {Rng : Type} (newReceipt : Rng → res Receipt * Rng).

(** [more] came off the front of the fresh lane, in order. *)
Record fifo (d d' : Dispatcher) (more : list Delivery) : Prop := {
  ff_retries : d_retries d' = [];
  ff_fresh : qr_record <$> d_fresh d = (dl_Record <$> more) ++ (qr_record <$> d_fresh d');
  ff_inFlight receipt : receipt ∉ dl_Receipt <$> more → d_inFlight d' !! receipt = d_inFlight d !! receipt
}.

Lemma take_loop_fifo remaining now pref d g ds sel :
  d_retries d = [] →
  match take_loop newReceipt remaining now pref d g ds sel with
  | (d', _, Ok ds') => ∃ more, ds' = ds ++ more ∧ fifo d d' more
  | _ => True
  end.
Proof.
  revert d g ds sel. induction remaining as [|remaining IH]; intros d g ds sel Hr; cbn [take_loop].
  { exists []. by rewrite app_nil_r. }
  assert (Hrr : retry_ready now d = false) by (unfold retry_ready; by rewrite Hr). rewrite Hrr. cbn [negb andb].
  destruct (fresh_ready d) eqn:Hfr; cbn [negb]; [|exists []; by rewrite app_nil_r].
  destruct (uniqueReceiptLocked newReceipt d g) as [[receipt|e] g']; [|done].
  unfold select, popFreshLocked. destruct (d_fresh d) as [|item fresh] eqn:Hf; [by unfold fresh_ready in Hfr; rewrite Hf in Hfr|].
  set (d1 := with_lanes _ _ _ _ _). cbn [mbind option_bind].
  rewrite (surjective_pairing (lease now receipt item d1)).
  destruct (lease_spec now receipt item d1) as [Hd _ _ Hf2 Hr2 Hi2 _ _ _].
  specialize (IH (lease now receipt item d1).1 g' (ds ++ [(lease now receipt item d1).2])
    (sel ++ [{| sel_item := item; sel_previousState := stateFresh; sel_receipt := receipt |}])).
  rewrite Hr2 in IH. specialize (IH Hr).
  destruct (take_loop _ _ _ _ _ _ _ _) as [[d2 g2] [ds'|e]]; [|done]. destruct IH as (more & -> & [F1 F2 F3]).
  exists ((lease now receipt item d1).2 :: more). split; [by rewrite <- app_assoc|]. split; [done| |].
  - rewrite Hf, !fmap_cons. cbn [app]. rewrite <- F2, Hf2, Hd. done.
  - intros r. rewrite fmap_cons, not_elem_of_cons. intros [Hne Hnin]. rewrite (F3 r Hnin), Hi2.
    rewrite Hd in Hne. by rewrite lookup_insert_ne by (intros ->; by apply Hne).
Qed.
End fifo.

(** ** The states between two rounds *)

Section clear.
Context {W : Type} `{!DurableLog W} `{!DurableLogSpec W}.
Context {Rng : Type} (newReceipt : Rng → res Receipt * Rng) (visits : Dispatcher → list (Receipt * flight)).
Context (Hvisits : ∀ d, range_of (visits d) d).
Implicit Types (w : W) (d : Dispatcher) (ds : list Delivery).

Definition fresh_seqs (d : Dispatcher) : list Z := r_Seq <$> (qr_record <$> d_fresh d).

(** The limit on tracked records does not overflow [int]. *)
Definition limit_fits (config : Config) : Prop := is_i64 (cfg_PrefetchCapacity config + cfg_MaxInFlight config).

(** Only the fresh lane is in use. *)
Record clear (w : W) (d : Dispatcher) : Prop := {
  cl_alone : alone w d;
  cl_closed : d_closed d = false;
  cl_limit : limit_fits (d_config d);
  cl_retries : d_retries d = [];
  cl_inFlight : d_inFlight d = ∅;
  cl_sorted : StronglySorted Z.lt (fresh_seqs d)
}.

(** The deliveries [ds] are leased, and nothing else. *)
Record handed (w : W) (now : Z) (d : Dispatcher) (ds : list Delivery) : Prop := {
  hd_alone : alone w d;
  hd_closed : d_closed d = false;
  hd_limit : limit_fits (d_config d);
  hd_retries : d_retries d = [];
  hd_some : ds ≠ [];
  hd_receipts : NoDup (dl_Receipt <$> ds);
  hd_record dl : dl ∈ ds → log_record w (r_Seq (dl_Record dl)) = Some (dl_Record dl);
  hd_lease dl : dl ∈ ds → d_inFlight d !! dl_Receipt dl = Some (flight_of dl);
  hd_live dl : dl ∈ ds → now < dl_Deadline dl;
  hd_other receipt : receipt ∉ dl_Receipt <$> ds → d_inFlight d !! receipt = None;
  hd_sorted : StronglySorted Z.lt (delivered_seqs ds ++ fresh_seqs d)
}.

(** Everything in the fresh lane was scanned. *)
Lemma fresh_scanned w d seq : alone w d → seq ∈ fresh_seqs d → seq < d_cursor d ∨ d_scanDone d = true.
Proof.
  intros Ha (record & -> & Hin)%list_elem_of_fmap. pose proof (si_dispatch _ Ha) as Hdi. cbn in Hdi.
  destruct (held_state d record (inv_lanes _ Hdi) (or_introl Hin)) as [s Hs].
  destruct (scan_tracked _ (inv_scan _ Hdi) _ _ Hs) as [_ [?|[? _]]]; [by left|by right].
Qed.

(** What is tracked is in the fresh lane. *)
Lemma clear_tracked w d seq : clear w d → tracked d seq → seq ∈ fresh_seqs d.
Proof.
  intros [Ha _ _ Hr Hi _] [s Hs]. apply elem_of_map_to_list in Hs. pose proof (inv_lanes _ (si_dispatch _ Ha)) as Hl. cbn in Hl.
  rewrite (lanes_states _ Hl) in Hs. unfold lanes in Hs. rewrite Hr, Hi, map_to_list_empty in Hs. cbn in Hs.
  rewrite app_nil_r in Hs. apply list_elem_of_fmap in Hs as (item & [= -> _] & Hin).
  unfold fresh_seqs. by do 2 apply list_elem_of_fmap_2.
Qed.

Lemma sorted_app (l k : list Z) :
  StronglySorted Z.lt l → StronglySorted Z.lt k → (∀ a b, a ∈ l → b ∈ k → a < b) → StronglySorted Z.lt (l ++ k).
Proof.
  induction l as [|x l IH]; intros Hl Hk Hlt; [done|]. cbn. apply StronglySorted_inv in Hl as [Hl Hx].
  constructor; [apply IH; [done..|]; intros a b Ha; apply Hlt; by right|].
  apply Forall_app. split; [done|]. apply Forall_forall. intros b Hb. apply Hlt; [by left|done].
Qed.

Lemma page_seqs_sorted (records : list StoreRecord) : page_ok records → StronglySorted Z.lt (r_Seq <$> records).
Proof.
  intros [Hs _]. induction Hs as [|r records Hs IH Hf]; [constructor|]. constructor; [done|].
  apply Forall_forall. intros seq (r' & -> & Hin)%list_elem_of_fmap. by eapply Forall_forall in Hf.
Qed.

Lemma clear_refilled w d records d' : clear w d → refilled w d records d' → clear w d'.
Proof.
  intros [Ha Hcl Hli Hr Hi Hs] [Ha' _ Rc Rcl Rr Ri Rf Rp Rn]. split; [done|congruence|by rewrite Rc|congruence|congruence|].
  unfold fresh_seqs. rewrite Rf, !fmap_app.
  assert (He : qr_record <$> (fresh_item <$> records) = records) by (rewrite <- list_fmap_compose; apply list_fmap_id).
  rewrite He. apply sorted_app; [done|by apply page_seqs_sorted|].
  intros a b Hin (record & -> & Hb)%list_elem_of_fmap. destruct (Rn record Hb) as [Hdone Hle].
  destruct (fresh_scanned w d a Ha Hin) as [?|?]; [lia|congruence].
Qed.

Lemma expires_clear w now d d' : clear w d → expires now d d' → clear w d'.
Proof.
  intros [Ha Hcl Hli Hr Hi Hs] Hex. pose proof Hex as [Hinv F Hf _ _ Hif Hre _ _].
  split; [by eapply expires_alone|by rewrite (frame_closed _ _ F)|by rewrite (frame_config _ _ F)| |by rewrite Hif, Hi, map_filter_empty|].
  - rewrite Hi, Hr, map_to_list_empty in Hre. cbn in Hre. symmetry in Hre. apply Permutation_nil in Hre.
    by apply fmap_nil_inv in Hre.
  - unfold fresh_seqs. by rewrite Hf.
Qed.

(** ** One call of Read *)

Lemma delivered_seqs_records ds : delivered_seqs ds = r_Seq <$> (dl_Record <$> ds).
Proof. unfold delivered_seqs. by rewrite <- list_fmap_compose. Qed.

Lemma top_fifo env visits' count d g d' g' ds :
  d_retries (expireLocked (e_visits env) (e_now env) d) = [] →
  read_top newReceipt env visits' count d g = (d', g', ReadReturn (Ok ds)) →
  fifo (expireLocked (e_visits env) (e_now env) d) d' ds.
Proof.
  intros Hr. unfold read_top. destruct (d_closed d); [done|]. set (d1 := expireLocked _ _ _) in *.
  case_match; [done|]. unfold takeLocked. set (limit := if _ <? count then _ else _).
  pose proof (take_loop_fifo newReceipt (Z.to_nat limit) (e_now env) (d_preferRetry d1) d1 g [] [] Hr) as Hloop.
  destruct (take_loop _ _ _ _ _ _ _ _) as [[d2 g2] [ds'|e]]; [|done].
  destruct Hloop as (more & -> & Hff). cbn [app]. destruct more; [done|]. by intros [= <- <- <-].
Qed.

Lemma top_handed w now visits' count d g d' g' ds :
  clear w d → read_top newReceipt {| e_now := now; e_visits := visits d |} visits' count d g = (d', g', ReadReturn (Ok ds)) →
  handed w now d' ds.
Proof.
  intros Hc Htop. pose proof (cl_alone _ _ Hc) as Ha. pose proof (si_dispatch _ Ha) as Hdi. cbn in Hdi.
  set (env := {| e_now := now; e_visits := visits d |}) in *.
  pose proof (expires_clear w now d _ Hc (expireLocked_lemma (visits d) now d Hdi (Hvisits d))) as Hc1.
  destruct (top_fifo env visits' count d g d' g' ds (cl_retries _ _ Hc1) Htop) as [F1 F2 F3].
  destruct (top_alone newReceipt w env visits' count d g d' g' _ Ha (Hvisits d) Htop) as [Ha' [_ Hq (Hcl & Hne & _ & d1 & sel & Hex & Htk)]].
  pose proof (config_bounds _ (inv_config _ Hdi)) as (_ & _ & Hvis).
  assert (Hdl : ∀ dl, dl ∈ ds → d_inFlight d' !! dl_Receipt dl = Some (flight_of dl)
    ∧ dl_Deadline dl = now + cfg_VisibilityTimeout (d_config d)).
  { intros dl Hin. destruct (tk_delivered _ _ _ _ _ Htk dl Hin) as (H1 & _ & H2 & _). split; [done|].
    by rewrite H2, (frame_config _ _ (ex_frame _ _ _ Hex)). }
  split; [done| |by rewrite (qt_config _ _ Hq); apply Hc|done|done|apply Htk| |by intros dl [? _]%Hdl| | |].
  - by rewrite (un_closed _ _ (tk_untouched _ _ _ _ _ Htk)), (frame_closed _ _ (ex_frame _ _ _ Hex)).
  - intros dl Hin. apply (si_held _ Ha'). exact (held_flight d' _ _ (proj1 (Hdl dl Hin))).
  - intros dl Hin. destruct (Hdl dl Hin). lia.
  - intros receipt Hin. rewrite (F3 receipt Hin). cbn. by rewrite (cl_inFlight _ _ Hc1), lookup_empty.
  - pose proof (cl_sorted _ _ Hc1) as Hs. unfold fresh_seqs in Hs |- *. cbn in F2. rewrite F2, fmap_app in Hs.
    by rewrite delivered_seqs_records.
Qed.

Lemma read_round_clear now count w d g :
  clear w d → 0 < count →
  match read_round newReceipt visits now count w d g with
  | (d', _, ReadDone (Ok ds)) => handed w now d' ds
  | (_, _, ReadDone (Err _)) => True
  | (d', _, _) => clear w d'
  end.
Proof.
  intros Hc Hcount. pose proof (cl_alone _ _ Hc) as Ha. unfold read_round. set (env := {| e_now := now; e_visits := visits d |}).
  destruct (read_top newReceipt env _ count d g) as [[d1 g1] next] eqn:Htop.
  destruct (top_alone newReceipt w env _ count d g d1 g1 next Ha (Hvisits d) Htop) as [Ha1 [_ Hq Hnext]].
  assert (Hfill : ∀ d2, clear w d2 →
    match fillFresh (log_scan w) d2 with (d3, Ok _) => clear w d3 | _ => True end).
  { intros d2 Hc2. pose proof (fillFresh_alone w d2 (cl_alone _ _ Hc2) (cl_closed _ _ Hc2)) as H.
    destruct (fillFresh _ d2) as [d3 [p|e]]; [|done]. destruct H as (records & H & _). by eapply clear_refilled. }
  destruct next as [[ds|e]| |wakeAt]; [by eapply top_handed|done|..].
  - destruct Hnext as (_ & Hex & _). specialize (Hfill d1 (expires_clear w _ d d1 Hc Hex)).
    by destruct (fillFresh _ d1) as [d2 [[]|e]].
  - destruct Hnext as (_ & _ & _ & d0 & Hex & [[] Rf Rr _ Ri _]). pose proof (expires_clear w _ d d0 Hc Hex) as [_ E1 E2 E3 E4 E5].
    assert (Hc1 : clear w d1).
    { split; [done|congruence|congruence| |congruence|unfold fresh_seqs; by rewrite Rf].
      rewrite E3 in Rr. cbn in Rr. symmetry in Rr. apply Permutation_nil in Rr. by apply fmap_nil_inv in Rr. }
    specialize (Hfill d1 Hc1). by destruct (fillFresh _ d1) as [d2 [[]|e]].
Qed.

(** A call of [Read] hands out something, fails, or there is nothing pending. *)
Lemma Read_clear now count w d g :
  clear w d → 0 < count →
  match Read newReceipt visits [now; now] count w d g with
  | (d', _, ReadDone (Ok ds)) => handed w now d' ds
  | (_, _, ReadDone (Err e)) => read_fails newReceipt w d e
  | (d', _, ReadWaits wakeAt) => clear w d' ∧ wakeAt = zero_time ∧ ∀ seq, ¬ log_pending w seq
  | (_, _, ReadGoesOn) => False
  end.
Proof.
  intros Hc Hcount. unfold Read. rewrite (proj2 (Z.leb_gt _ _)) by done.
  pose proof (Read_loop_settles newReceipt visits Hvisits [] now now count w d g (cl_alone _ _ Hc) Hcount) as Hs.
  assert (Hblocked : ∀ d' t, clear w d' → blocked w now d' t → clear w d' ∧ t = zero_time ∧ ∀ seq, ¬ log_pending w seq).
  { intros d' t Hc' [Hl Hfound Hz _]. split_and!; [done|apply Hz; apply Hc'|]. intros seq Hp. pose proof Hc' as [Ha' _ Hli Hr' Hi' _].
    pose proof (config_bounds _ (inv_config _ (si_dispatch _ Ha'))) as (B1 & B2 & _). cbn in B1, B2.
    rewrite Hi', map_size_empty in Hl. destruct Hl as [?|[_ Hf]]; [lia|]. unfold fresh_ready in Hf. rewrite Hr', Hi', map_size_empty in Hf.
    rewrite i64_id in Hf by done. destruct (d_fresh d') as [|item fresh] eqn:Hfr.
    - specialize (Hfound seq eq_refl Hp). apply (clear_tracked w d' seq Hc') in Hfound. unfold fresh_seqs in Hfound.
      rewrite Hfr in Hfound. by apply elem_of_nil in Hfound.
    - cbn in Hf. zbool. lia. }
  cbn [Read_loop] in *. pose proof (read_round_clear now count w d g Hc Hcount) as H1.
  destruct (read_round _ _ now count w d g) as [[d1 g1] [[ds|e]|t|]].
  - done.
  - destruct Hs as (_ & _ & t & _ & Hs). exact Hs.
  - destruct Hs as (_ & _ & t' & [->| ->] & Hs); by apply (Hblocked d1 t).
  - pose proof (read_round_clear now count w d1 g1 H1 Hcount) as H2.
    destruct (read_round _ _ now count w d1 g1) as [[d2 g2] [[ds|e]|t|]].
    + done.
    + destruct Hs as (_ & _ & t & _ & Hs). exact Hs.
    + destruct Hs as (_ & _ & t' & [->| ->] & Hs); by apply (Hblocked d2 t).
    + by destruct Hs as (_ & ? & _).
Qed.

(** ** One call of Commit *)

Context (persist : list Z → W → W * option goerr) (Hpersist : completes persist).

(** A commit of pending records that returned the error [e]. *)
Definition persist_fails (w w' : W) (e : goerr) : Prop :=
  ∃ seqs, NoDup seqs ∧ (∀ seq, seq ∈ seqs → log_pending w seq) ∧ persist seqs w = (w', Some e).

Lemma handed_valid w now d ds : handed w now d ds → valid_deliveries (live now d) ds.
Proof.
  intros Hh. split; [apply Hh|]. intros dl Hin. exists (flight_of dl). split; [|done].
  apply live_lookup. split; [by apply Hh|]. cbn. by eapply hd_live.
Qed.

Lemma handed_due w now d ds : handed w now d ds → due_keys now (map_to_list (d_inFlight d)) = [].
Proof.
  intros Hh. apply due_keys_none. intros receipt f Hf%elem_of_map_to_list.
  destruct (decide (receipt ∈ dl_Receipt <$> ds)) as [Hin|Hin].
  - apply list_elem_of_fmap in Hin as (dl & -> & Hin). rewrite (hd_lease _ _ _ _ Hh dl Hin) in Hf. injection Hf as <-.
    cbn. by eapply hd_live.
  - rewrite (hd_other _ _ _ _ Hh receipt Hin) in Hf. done.
Qed.

Lemma handed_NoDup w now d ds : handed w now d ds → NoDup (delivered_seqs ds).
Proof. intros Hh. by eapply strict_NoDup, StronglySorted_app_1_l, hd_sorted. Qed.

Lemma commit_clear now w d ds :
  handed w now d ds →
  match Commit persist {| e_now := now; e_visits := visits d |} d w ds with
  | (d', w', None) =>
      clear w' d' ∧ persist (delivered_seqs ds) w = (w', None) ∧ completes_in w (delivered_seqs ds) (w', None)
      ∧ ∀ seq seq', seq ∈ delivered_seqs ds → log_pending w' seq' → seq < seq'
  | (_, w', Some e) => persist_fails w w' e ∧ completes_in w (delivered_seqs ds) (w', Some e)
  end.
Proof.
  intros Hh. pose proof (handed_valid w now d ds Hh) as Hv. pose proof (handed_due w now d ds Hh) as Hdue.
  pose proof (handed_NoDup w now d ds Hh) as Hnodup.
  destruct Hh as [Ha Hcl Hli Hr Hne Hrec Hlog Hlease Hlive Hother Hs]. pose proof (si_dispatch _ Ha) as Hdi. cbn in Hdi.
  set (env := {| e_now := now; e_visits := visits d |}).
  pose proof (Commit_lemma env persist d w ds Hdi (Hvisits d)) as H.
  assert (Hpend : ∀ seq, seq ∈ delivered_seqs ds → log_pending w seq).
  { intros seq (dl & -> & Hdl)%list_elem_of_fmap. eexists. by apply Hlog. }
  pose proof (Hpersist (delivered_seqs ds) w (si_log _ Ha) Hpend) as Hin.
  destruct (Commit persist env d w ds) as [[d' w'] [e|]]; cbn in H.
  { destruct H as [(? & _)|(_ & _ & [(? & _)|(_ & Hp)])]; [congruence|done|].
    rewrite Hp in Hin. split; [|done]. by exists (delivered_seqs ds). }
  destruct H as [(? & _)|(_ & _ & Hp & Hco)]; [done|]. rewrite Hp in Hin.
  assert (Ha' : alone w' d') by exact (complete_inv (sys_init w d) env ds d' w' Ha Hv Hco Hin).
  assert (Hc' : clear w' d').
  { split; [done|by rewrite (co_closed _ _ _ _ Hco)|by rewrite (co_config _ _ _ _ Hco)|..].
    - pose proof (co_retries _ _ _ _ Hco) as Hk. cbn in Hk. rewrite Hdue, Hr in Hk. symmetry in Hk. apply Permutation_nil in Hk.
      by apply fmap_nil_inv in Hk.
    - apply map_empty. intros receipt. rewrite (co_inFlight _ _ _ _ Hco). case_decide as Hd; [done|].
      apply eq_None_not_Some. intros [f [Hf _]%live_lookup]. rewrite (Hother receipt Hd) in Hf. done.
    - unfold fresh_seqs in *. rewrite (co_fresh _ _ _ _ Hco). by apply StronglySorted_app_1_r in Hs. }
  split_and!; [done|done|done|]. intros seq seq' Hseq Hpend'.
  destruct (decide (tracked d' seq')) as [Ht|Ht].
  - apply (clear_tracked w' d' seq' Hc') in Ht. unfold fresh_seqs in Ht. rewrite (co_fresh _ _ _ _ Hco) in Ht.
    exact (StronglySorted_app_lt _ _ Hs _ _ Hseq Ht).
  - apply list_elem_of_fmap in Hseq as (dl & -> & Hdl).
    destruct (held_state d (dl_Record dl) (inv_lanes _ Hdi) (held_flight d _ _ (Hlease dl Hdl))) as [st Hst].
    assert (Hns : ¬ scanned d' seq') by (intros Hsc; by apply Ht, (si_scanned _ Ha')).
    destruct (co_scan _ _ _ _ Hco) as (Hcur & Hdone & _). unfold scanned in Hns. rewrite Hcur, Hdone in Hns.
    destruct (scan_tracked _ (inv_scan _ Hdi) _ _ Hst) as [_ [?|[? _]]]; [|destruct Hns; by right].
    destruct (decide (seq' < d_cursor d)); [destruct Hns; by left|lia].
Qed.

(** ** The whole run *)

(** The consumer got [records]: the oldest pending ones, each once, in order and
    as the log [w] has them; the others are left in [w']. *)
Record consumed (w w' : W) (records : list StoreRecord) : Prop := {
  cs_sorted : StronglySorted Z.lt (r_Seq <$> records);
  cs_record record : record ∈ records → log_record w (r_Seq record) = Some record;
  cs_left seq : log_record w' seq = if decide (seq ∈ r_Seq <$> records) then None else log_record w seq;
  cs_oldest seq seq' : seq ∈ r_Seq <$> records → log_pending w' seq' → seq < seq'
}.

(** A commit that succeeded. *)
Definition committed (w w' : W) : Prop := ∃ seqs, persist seqs w = (w', None).

(** The errors that stop it with the log [w']: commits that succeeded led to a
    log [w1], and on that log a receipt could not be made, a scan returned the
    error, or a commit returned it. *)
Definition consumer_error (w w' : W) (e : goerr) : Prop :=
  ∃ w1, rtc committed w w1 ∧ log_ok w1
    ∧ (w' = w1 ∧ (receipt_error newReceipt e ∨ scan_fails w1 e) ∨ persist_fails w1 w' e).

Lemma consumer_error_step w w1 w' e : committed w w1 → consumer_error w1 w' e → consumer_error w w' e.
Proof. intros Hc (w2 & Hsteps & H). exists w2. split; [by eapply rtc_l|done]. Qed.

Lemma consumed_nil w w' : (∀ seq, log_record w' seq = log_record w seq) → consumed w w' [].
Proof.
  intros Hw. split; [constructor|by intros ? ?%elem_of_nil| |by intros ? ? ?%elem_of_nil].
  intros seq. rewrite decide_False; [done|apply not_elem_of_nil].
Qed.

Lemma consumed_cons w w1 w' now d ds records :
  handed w now d ds → completes_in w (delivered_seqs ds) (w1, None) →
  (∀ seq seq', seq ∈ delivered_seqs ds → log_pending w1 seq' → seq < seq') →
  consumed w1 w' records → consumed w w' ((dl_Record <$> ds) ++ records).
Proof.
  intros Hh (_ & _ & Hleft) Hlt [C1 C2 C3 C4]. rewrite delivered_seqs_records in Hleft, Hlt.
  assert (Hpend : ∀ record, record ∈ records → log_pending w1 (r_Seq record)) by (intros record Hin; eexists; by apply C2).
  split.
  - rewrite fmap_app. apply sorted_app; [|done|].
    + rewrite <- delivered_seqs_records. by eapply StronglySorted_app_1_l, hd_sorted.
    + intros a b Ha (record & -> & Hb)%list_elem_of_fmap. by apply Hlt, Hpend.
  - intros record [(dl & -> & Hin)%list_elem_of_fmap|Hin]%elem_of_app; [by eapply hd_record|].
    specialize (C2 record Hin). rewrite Hleft in C2. by case_decide.
  - intros seq. rewrite C3, Hleft, fmap_app. repeat case_decide; try done; rewrite elem_of_app in *; tauto.
  - intros seq seq' Hin [record Hr]. rewrite fmap_app in Hin. apply elem_of_app in Hin as [Hin|Hin].
    + apply Hlt; [done|]. rewrite C3 in Hr. case_decide; [done|]. by exists record.
    + apply C4; [done|]. by exists record.
Qed.

Lemma consume_clear clock count w d g :
  clear w d → 0 < count →
  (∀ seqs, NoDup seqs → (∀ seq, seq ∈ seqs → log_pending w seq) → (length seqs < length clock)%nat) →
  let '(w', d', records, outcome) := consume newReceipt visits persist clock count w d g in
  consumed w w' records
  ∧ match outcome with
    | Drained => ∀ seq, ¬ log_pending w' seq
    | Stopped e => consumer_error w w' e
    | Unfinished => False
    end.
Proof.
  intros Hc Hcount. revert w d g Hc. induction clock as [|now clock IH]; intros w d g Hc Hfuel; cbn [consume].
  { specialize (Hfuel [] (NoDup_nil_2) ltac:(by intros ? ?%elem_of_nil)). cbn in Hfuel. lia. }
  pose proof (Read_clear now count w d g Hc Hcount) as Hread.
  destruct (Read _ _ _ _ _ _ _) as [[d1 g1] [[ds|e]|t|]]; [| |split; [by apply consumed_nil|apply Hread]|done].
  2: { split; [by apply consumed_nil|]. destruct Hread as [[Hcl _]|Hread]; [by rewrite (cl_closed _ _ Hc) in Hcl|].
       exists w. split_and!; [done|apply (si_log _ (cl_alone _ _ Hc))|by left]. }
  pose proof (commit_clear now w d1 ds Hread) as Hcommit.
  destruct (Commit _ _ _ _ _) as [[d2 w2] [e|]].
  { destruct Hcommit as [Hp (_ & _ & Hsame)]. split; [by apply consumed_nil|]. exists w. split_and!; [done|apply (si_log _ (hd_alone _ _ _ _ Hread))|by right]. }
  destruct Hcommit as (Hc2 & Hp & Hin & Hlt).
  specialize (IH w2 d2 g1 Hc2). destruct (consume _ _ _ clock _ _ _ _) as [[[w3 d3] records] outcome].
  destruct IH as [IH1 IH2]; [|split; [by eapply consumed_cons|]].
  2: { destruct outcome; [done| |done]. eapply consumer_error_step; [|done]. by exists (delivered_seqs ds). }
  intros seqs Hn Hall. destruct ds as [|dl ds]; [by destruct (hd_some _ _ _ _ Hread)|].
  assert (Hdl : log_pending w (r_Seq (dl_Record dl))) by (eexists; eapply (hd_record _ _ _ _ Hread); by left).
  specialize (Hfuel (r_Seq (dl_Record dl) :: seqs)). cbn in Hfuel. apply Nat.succ_lt_mono, Hfuel.
  - apply NoDup_cons. split; [|done]. intros Hs%Hall. specialize (Hlt _ _ ltac:(by left) Hs). lia.
  - intros seq [->|Hs]%elem_of_cons; [done|]. by apply (completes_in_pending _ _ _ _ _ Hin), Hall.
Qed.
End clear.
