(* ===== verification/ConsumerTheorems.v ===== *)
(** * Correctness of reading to the end

    A [Read] that runs alone, a consumer that drains a log, and what was written
    through the store and read back, with instances on the in-memory store. *)
From S2P Require Import Prelude Errors Keys Badger BadgerMem Store StoreIter StoreSpec StoreRefine.
From S2P Require Import StoreCounts StoreLoad StoreHistory.
From S2P Require Import Heap Backoff Dispatch DispatchInv DispatchOps DispatchTake DispatchFill.
From S2P Require Import DispatchCalls Queue QueueInv StoreLog StoreTheorems DispatchTheorems.
From S2P Require Import QueueTheorems ReadRun Consumer.
From Stdlib Require Import Strings.Byte.
#[local] Open Scope Z_scope.

(** ** One call of Read *)

(** C10. [Read] comes to an end.  Whatever happened before, when every write is
    notified and no scan runs, a goroutine in [Read] that runs alone needs two
    rounds of its loop at most: then it has leased at least one record, or
    returns an error of the store, of the receipts or of the closed dispatcher,
    or it waits, and then it could not lease anything: every pending record is
    leased, waits for its retry, or does not fit the limits, and the wake time
    is not after the next deadline or retry. *)
Theorem Read_settles {W : Type} `{!DurableLog W} `{!DurableLogSpec W} {Rng : Type} (newReceipt : Rng → res Receipt * Rng)
    (visits : Dispatcher → list (Receipt * flight)) (w : W) (config : Config) (s : sys) (i : nat)
    (t1 t2 count : Z) (clock : list Z) (g : Rng) :
  log_ok w → reachable w config s → sys_scanMu s = None → sys_unnotified s = 0%nat →
  (∀ d, range_of (visits d) d) → 0 < count → sys_readers s !! i = Some (PcTop count) →
  let '(d', _, out) := Read newReceipt visits (t1 :: t2 :: clock) count (sys_log s) (sys_d s) g in
  (∃ s', ran i s s' d' (outcome_pc count out))
  ∧ ∃ now, (now = t1 ∨ now = t2) ∧
    match out with
    | ReadDone (Ok ds) => leased_by (sys_log s) now count (sys_d s) d' ds
    | ReadDone (Err e) => read_fails newReceipt (sys_log s) (sys_d s) e
    | ReadWaits wakeAt => blocked (sys_log s) now d' wakeAt
    | ReadGoesOn => False
    end.
Proof.
  intros Hw Hr Hmu Hun Hvisits Hcount Hi. pose proof (alone_of s (reachable_inv w config s Hw Hr) Hmu Hun) as Ha.
  unfold Read. rewrite (proj2 (Z.leb_gt _ _)) by done.
  pose proof (Read_loop_settles newReceipt visits Hvisits clock t1 t2 count (sys_log s) (sys_d s) g Ha Hcount) as H.
  pose proof (Read_loop_steps newReceipt visits Hvisits i (t1 :: t2 :: clock) count s g Hi Hmu) as Hsteps.
  destruct (Read_loop _ _ _ _ _ _ _) as [[d' g'] out]. split; [done|]. destruct H as (_ & Hne & now & Hnow & H).
  exists now. split; [done|]. by destruct out as [[ds|e]| |].
Qed.

(** The leases in the order of the map. *)
Definition demo_visits (d : Dispatcher) : list (Receipt * flight) := map_to_list (d_inFlight d).

Lemma demo_visits_range d : range_of (demo_visits d) d.
Proof. unfold range_of, demo_visits. reflexivity. Qed.

Definition demo_run : Dispatcher * list Receipt * read_outcome :=
  Read list_receipt demo_visits [100; 101] 2 (sys_log demo_sys1) (sys_d demo_sys1) [[x01]; [x02]].

Lemma demo_steps1 : rtc step demo_sys0 demo_sys1.
Proof. apply rtc_once. left. exists 1%nat. apply step_start. vm_compute. reflexivity. Qed.

Lemma Read_settles_witness :
  match demo_run with
  | (d', _, ReadDone (Ok ds)) => delivered_seqs ds = [1; 2] ∧ ∃ now, leased_by (sys_log demo_sys1) now 2 (sys_d demo_sys1) d' ds
  | _ => False
  end.
Proof.
  assert (Hok : match demo_run.2 with ReadDone (Ok ds) => delivered_seqs ds = [1; 2] | _ => False end)
    by (vm_compute; reflexivity).
  pose proof (Read_settles list_receipt demo_visits demo_log demo_config demo_sys1 1 100 101 2 [] [[x01]; [x02]]
    demo_log_ok (demo_reachable _ demo_steps1) eq_refl eq_refl demo_visits_range eq_refl
    ltac:(vm_compute; reflexivity)) as H.
  fold demo_run in H. destruct demo_run as [[d' g'] [[ds|e]|t|]]; cbn in Hok; try (exfalso; exact Hok).
  destruct H as (_ & now & _ & H). split; [exact Hok|]. exists now. exact H.
Defined.

(** ** The records of a batch *)

Lemma appended_records_elem T now payloads record :
  record ∈ appended_records T now payloads ↔
  ∃ i payload, payloads !! i = Some payload ∧ record = record_of (T + 1 + Z.of_nat i) (fresh_envelope now payload).
Proof.
  revert T. induction payloads as [|p ps IH]; intros T; cbn [appended_records].
  { split; [by intros ?%elem_of_nil|by intros (i & ? & ? & _)]. }
  rewrite elem_of_cons, IH. split.
  - intros [->|(i & payload & Hi & ->)]; [exists 0%nat, p; split; [done|f_equal; lia]|].
    exists (S i), payload. split; [done|f_equal; lia].
  - intros ([|i] & payload & Hi & ->); [injection Hi as ->; left; f_equal; lia|].
    right. exists i, payload. split; [done|f_equal; lia].
Qed.

Lemma appended_records_payloads T now payloads : r_Payload <$> appended_records T now payloads = payloads.
Proof. revert T. induction payloads as [|p ps IH]; intros T; [done|]. cbn. by rewrite IH. Qed.

Lemma appended_records_sorted T now payloads : StronglySorted Z.lt (r_Seq <$> appended_records T now payloads).
Proof.
  revert T. induction payloads as [|p ps IH]; intros T; [constructor|]. cbn. constructor; [apply IH|].
  apply Forall_forall. intros seq (record & -> & Hin)%list_elem_of_fmap.
  apply appended_records_elem in Hin as (i & payload & _ & ->). cbn. lia.
Qed.

(** Sorted lists with the same elements are the same. *)
Lemma sorted_records_eq (a b : list StoreRecord) :
  StronglySorted Z.lt (r_Seq <$> a) → StronglySorted Z.lt (r_Seq <$> b) → (∀ record, record ∈ a ↔ record ∈ b) → a = b.
Proof.
  intros Ha Hb Hab. apply (StronglySorted_unique_strong (λ x y, r_Seq x < r_Seq y));
    [intros; lia|by apply StronglySorted_fmap_inv..|].
  apply NoDup_Permutation; [by eapply NoDup_fmap_1, strict_NoDup..|done].
Qed.

(** ** All records of a queue *)

Definition all_records (q : queue) : list StoreRecord :=
  omap (λ seq, record_of seq <$> q_pending q !! seq) (seqs_from (dom (q_pending q)) 0).

Lemma all_records_seqs q : r_Seq <$> all_records q = seqs_from (dom (q_pending q)) 0.
Proof. apply fmap_page; [done|]. intros seq [Hin _]%elem_of_seqs_from. by apply elem_of_dom. Qed.

Lemma all_records_sorted q : StronglySorted Z.lt (r_Seq <$> all_records q).
Proof. rewrite all_records_seqs. apply sorted_strict; [apply sorted_seqs_from|apply NoDup_seqs_from]. Qed.

Lemma all_records_elem q record :
  queue_wf q → (record ∈ all_records q ↔ record_of (r_Seq record) <$> q_pending q !! r_Seq record = Some record).
Proof.
  intros Hwf. unfold all_records. rewrite list_elem_of_omap. split.
  - intros (seq & _ & Hs). apply fmap_Some in Hs as (v & Hv & ->). cbn. by rewrite Hv.
  - intros Hr. exists (r_Seq record). split; [|done]. apply elem_of_seqs_from.
    apply fmap_Some in Hr as (v & Hv & _). destruct (wf_pending _ Hwf _ _ Hv) as [? _]. split; [by apply elem_of_dom|lia].
Qed.

Lemma all_records_length q : queue_wf q → size (q_pending q) = length (all_records q).
Proof.
  intros Hwf. rewrite <- (length_fmap r_Seq), all_records_seqs, length_seqs_from; [by rewrite size_dom|].
  intros seq [v Hin]%elem_of_dom. destruct (wf_pending _ Hwf _ _ Hin). lia.
Qed.

Lemma appended_all q now payloads :
  queue_wf (q_append now payloads q) → q_pending q = ∅ →
  all_records (q_append now payloads q) = appended_records (q_tail q) now payloads.
Proof.
  intros Hwf Hq. apply sorted_records_eq; [apply all_records_sorted|apply appended_records_sorted|]. intros record.
  rewrite all_records_elem by done. unfold q_append. cbn [q_pending].
  rewrite append_pending_lookup, Hq, lookup_empty, appended_records_elem. split.
  - case_decide as Hd; [|done]. intros (v & Hv' & Hre)%fmap_Some. apply fmap_Some in Hv' as (payload & Hp & ->).
    exists (Z.to_nat (r_Seq record - q_tail q - 1)), payload. split; [exact Hp|]. etrans; [exact Hre|]. f_equal. lia.
  - intros (i & payload & Hi & ->). cbn. pose proof (lookup_lt_Some _ _ _ Hi). unfold len.
    rewrite decide_True by lia. replace (Z.to_nat _) with i by lia. by rewrite Hi.
Qed.

(** What a consumer that is done got from a store. *)
Lemma consumed_all {B : Badger} {BS : BadgerSpec B} (w w' : store_log) q records :
  opened w.1 w.2 q → consumed w w' records → (∀ seq, ¬ log_pending w' seq) → records = all_records q.
Proof.
  intros Ho Hc Hnone. assert (Hwf : queue_wf q) by (destruct Ho as (_ & Hr & _); apply Hr).
  apply sorted_records_eq; [apply Hc|apply all_records_sorted|]. intros record.
  rewrite (all_records_elem q record Hwf), <- (opened_record w q _ Ho). split; [apply Hc|].
  intros Hr. pose proof (cs_left _ _ _ Hc (r_Seq record)) as Hl. case_decide as Hd.
  - apply list_elem_of_fmap in Hd as (record' & Heq & Hin). pose proof (cs_record _ _ _ Hc _ Hin) as Hr'.
    rewrite <- Heq in Hr'. by injection (eq_trans (eq_sym Hr) Hr') as ->.
  - destruct (Hnone (r_Seq record)). exists record. by rewrite Hl.
Qed.

Lemma StronglySorted_filter (P : StoreRecord → Prop) `{!∀ x, Decision (P x)} (l : list StoreRecord) :
  StronglySorted Z.lt (r_Seq <$> l) → StronglySorted Z.lt (r_Seq <$> filter P l).
Proof.
  induction l as [|x l IH]; intros Hs; [constructor|]. apply StronglySorted_inv in Hs as [Hs Hx].
  rewrite filter_cons. case_decide; [|by apply IH]. constructor; [by apply IH|]. apply Forall_forall.
  intros seq (y & -> & [_ Hy]%list_elem_of_filter)%list_elem_of_fmap. eapply Forall_forall in Hx; [exact Hx|].
  by apply list_elem_of_fmap_2.
Qed.

(** What a consumer got so far are the oldest records. *)
Lemma consumed_prefix {B : Badger} {BS : BadgerSpec B} (w w' : store_log) q records :
  opened w.1 w.2 q → consumed w w' records → records `prefix_of` all_records q.
Proof.
  intros Ho Hc. assert (Hwf : queue_wf q) by (destruct Ho as (_ & Hr & _); apply Hr).
  set (rest := filter (λ r, r_Seq r ∉ r_Seq <$> records) (all_records q)). exists rest.
  assert (Hel : ∀ r, r ∈ all_records q ↔ log_record w (r_Seq r) = Some r).
  { intros r. by rewrite (all_records_elem q r Hwf), (opened_record w q _ Ho). }
  apply sorted_records_eq; [apply all_records_sorted|rewrite fmap_app; apply sorted_app|].
  - apply Hc.
  - apply StronglySorted_filter, all_records_sorted.
  - intros a b Ha (r & -> & [Hn Hr]%list_elem_of_filter)%list_elem_of_fmap. apply (cs_oldest _ _ _ Hc); [done|].
    apply Hel in Hr. exists r. rewrite (cs_left _ _ _ Hc). by rewrite decide_False.
  - intros r. unfold rest. rewrite elem_of_app, list_elem_of_filter. split.
    + intros Hr. destruct (decide (r_Seq r ∈ r_Seq <$> records)) as [Hin|Hin]; [left|by right].
      apply list_elem_of_fmap in Hin as (r' & Heq & Hin). pose proof (cs_record _ _ _ Hc r' Hin) as Hr'.
      apply Hel in Hr. rewrite Heq in Hr. by injection (eq_trans (eq_sym Hr) Hr') as ->.
    + intros [Hr|[_ Hr]]; [|done]. by apply Hel, Hc.
Qed.

(** One round per pending record and one more are enough. *)
Lemma pending_bound {B : Badger} {BS : BadgerSpec B} (w : store_log) q (clock : list Z) :
  opened w.1 w.2 q → (size (q_pending q) < length clock)%nat →
  ∀ seqs, NoDup seqs → (∀ seq, seq ∈ seqs → log_pending w seq) → (length seqs < length clock)%nat.
Proof.
  intros Ho Hfuel seqs Hn Hall. eapply Nat.le_lt_trans; [|exact Hfuel]. rewrite <- size_dom, <- (size_list_to_set (C := gset Z) seqs) by done.
  apply subseteq_size. intros seq Hs%elem_of_list_to_set. apply elem_of_dom, (opened_pending w q seq Ho). by apply Hall.
Qed.

(** ** Draining a log *)

Lemma opened_clear {W : Type} `{!DurableLog W} `{!DurableLogSpec W} (w : W) config d :
  log_ok w → New false config = Ok d → limit_fits config → clear w d.
Proof.
  intros Hw HN Hl. pose proof (sys_init_inv w d config Hw HN) as Ha. unfold New in HN.
  destruct (false || config_invalid config); [done|]. injection HN as <-. split; try done. constructor.
Qed.

(** C7. A consumer of a log that was just opened gets everything, once and in order.
    When the dispatcher is new, its limit on tracked records does not overflow
    ([limit_fits]), and one goroutine alone reads and commits what it read at the
    same instant, until [Read] would wait, it ends after at most as many rounds as
    records are pending, plus one: then nothing is left, and what was delivered
    are exactly the pending records, in the order of their sequences and with
    their contents; or it stops at the error that a scan, a commit or the making
    of a receipt returned, and then what was delivered are the oldest records and
    the others are still there, untouched. *)
Theorem consumer_drains {W : Type} `{!DurableLog W} `{!DurableLogSpec W} {Rng : Type}
    (newReceipt : Rng → res Receipt * Rng) (visits : Dispatcher → list (Receipt * flight))
    (persist : list Z → W → W * option goerr) (w : W) (config : Config) (d : Dispatcher)
    (clock : list Z) (count : Z) (g : Rng) :
  log_ok w → New false config = Ok d → limit_fits config → (∀ d, range_of (visits d) d) → completes persist →
  0 < count →
  (∀ seqs, NoDup seqs → (∀ seq, seq ∈ seqs → log_pending w seq) → (length seqs < length clock)%nat) →
  let '(w', d', records, outcome) := consume newReceipt visits persist clock count w d g in
  consumed w w' records
  ∧ match outcome with
    | Drained => (∀ seq, ¬ log_pending w' seq) ∧ ∀ seq, log_pending w seq → seq ∈ r_Seq <$> records
    | Stopped e => consumer_error newReceipt persist w w' e
    | Unfinished => False
    end.
Proof.
  intros Hw HN Hl Hv Hp Hcount Hfuel. pose proof (opened_clear w config d Hw HN Hl) as Hc.
  pose proof (consume_clear newReceipt visits Hv persist Hp clock count w d g Hc Hcount Hfuel) as H.
  destruct (consume _ _ _ _ _ _ _ _) as [[[w' d'] records] outcome]. destruct H as [Hcons Hout]. split; [done|].
  destruct outcome; [|done..]. split; [done|]. intros seq Hs. specialize (Hout seq). unfold log_pending in Hout, Hs.
  rewrite (cs_left _ _ _ Hcons) in Hout. by case_decide.
Qed.

Lemma demo_New : New false demo_config = Ok demo_new.
Proof. vm_compute. reflexivity. Qed.

Lemma demo_limit : limit_fits demo_config.
Proof. unfold limit_fits, is_i64, demo_config. cbn. lia. Qed.

Definition demo_consumed : store_log * Dispatcher * list StoreRecord * consumer_end :=
  consume list_receipt demo_visits store_commit [100; 101; 102; 103] 2 demo_log demo_new [[x01]; [x02]; [x03]].

Lemma demo_pending_few seqs :
  NoDup seqs → (∀ seq, seq ∈ seqs → log_pending demo_log seq) → (length seqs < length [100; 101; 102; 103])%nat.
Proof.
  intros Hn Hall. apply (Nat.le_lt_trans _ (length [1; 2; 3])); [|cbn; lia].
  apply submseteq_length, NoDup_submseteq; [done|]. intros seq Hin%Hall.
  pose proof (log_range demo_log seq demo_log_ok Hin) as Hr. change (log_tail demo_log) with 3 in Hr.
  rewrite !elem_of_cons. lia.
Qed.

Lemma consumer_drains_witness :
  match demo_consumed with
  | (w', _, records, Drained) => r_Payload <$> records = demo_payloads ∧ ∀ seq, ¬ log_pending w' seq
  | _ => False
  end.
Proof.
  assert (Hok : match demo_consumed with (_, _, records, Drained) => r_Payload <$> records = demo_payloads | _ => False end)
    by (vm_compute; reflexivity).
  pose proof (consumer_drains list_receipt demo_visits store_commit demo_log demo_config demo_new [100; 101; 102; 103] 2
    [[x01]; [x02]; [x03]] demo_log_ok demo_New demo_limit demo_visits_range
    store_commit_completes_lemma ltac:(lia) demo_pending_few) as H.
  fold demo_consumed in H. destruct demo_consumed as [[[w' d'] records] [|e|]]; try (exfalso; exact Hok).
  destruct H as (_ & H & _). split; [exact Hok|exact H].
Defined.

(** C6. What is written is what is read: a batch that the store appended to an
    empty queue comes out of a new dispatcher whose limit does not overflow as the
    records that [AppendBatch] returned, payload for payload, in order, once,
    through both encodings, the scan, the lanes, the leases and the commits, and
    afterwards nothing is pending; unless a scan, a commit or the making of a
    receipt returns an error, and then the oldest of them came out and the others
    are still pending. *)
Theorem written_is_read {B : Badger} {BS : BadgerSpec B} {Rng : Type} (newReceipt : Rng → res Receipt * Rng)
    (visits : Dispatcher → list (Receipt * flight)) (db db1 : DB) (s s1 : Stream) (q : queue)
    (payloads : list bytes) (now : Z) (records : list StoreRecord) (config : Config) (d : Dispatcher)
    (clock : list Z) (count : Z) (g : Rng) :
  opened db s q → q_pending q = ∅ → is_i64 now → AppendBatch db s payloads now = (db1, s1, Ok records) →
  New false config = Ok d → limit_fits config → (∀ d, range_of (visits d) d) → 0 < count →
  (length payloads < length clock)%nat →
  let '(w', d', got, outcome) := consume newReceipt visits store_commit clock count (db1, s1) d g in
  match outcome with
  | Drained => got = records ∧ r_Payload <$> got = payloads ∧ ∀ seq, ¬ log_pending w' seq
  | Stopped e => consumed (db1, s1) w' got ∧ consumer_error newReceipt store_commit (db1, s1) w' e
  | Unfinished => False
  end.
Proof.
  intros Ho Hq Hnow Happ HN Hl Hv Hcount Hfuel.
  pose proof (AppendBatch_lemma db s q payloads now Ho Hnow) as Hab. rewrite Happ in Hab. destruct Hab as (-> & Ho1 & _).
  assert (Hwf : queue_wf (q_append now payloads q)) by (destruct Ho1 as (_ & Hr & _); apply Hr).
  pose proof (appended_all q now payloads Hwf Hq) as Hall.
  pose proof (opened_clear (db1, s1) config d (ex_intro _ _ Ho1) HN Hl) as Hc.
  pose proof (consume_clear newReceipt visits Hv store_commit store_commit_completes_lemma clock count _ d g Hc Hcount) as H.
  destruct (consume _ _ _ _ _ _ _ _) as [[[w' d'] got] outcome]. destruct H as [Hcons Hout].
  { apply (pending_bound (db1, s1) (q_append now payloads q) clock Ho1).
    by rewrite (all_records_length _ Hwf), Hall, <- (length_fmap r_Payload), appended_records_payloads. }
  destruct outcome; [|done..]. pose proof (consumed_all (db1, s1) w' _ got Ho1 Hcons Hout) as ->. rewrite Hall.
  split_and!; [done|apply appended_records_payloads|done].
Qed.

Definition demo_read_back : store_log * Dispatcher * list StoreRecord * consumer_end :=
  consume list_receipt demo_visits store_commit [100; 101; 102; 103] 2 (demo_db1, demo_stream1) demo_new [[x01]; [x02]; [x03]].

Lemma demo_now : is_i64 7.
Proof. unfold is_i64. lia. Qed.

Lemma demo_count : 0 < 2.
Proof. lia. Qed.

Lemma demo_rounds : (length demo_payloads < length [100; 101; 102; 103])%nat.
Proof. vm_compute. lia. Qed.

Lemma written_is_read_witness :
  match demo_read_back with
  | (_, _, got, Drained) => r_Payload <$> got = demo_payloads
  | _ => False
  end.
Proof.
  assert (Hok : match demo_read_back.2 with Drained => True | _ => False end) by (vm_compute; exact I).
  assert (Hs : (AppendBatch (∅ : DB) demo_stream demo_payloads 7).1.2 = demo_stream1) by (vm_compute; reflexivity).
  assert (Hr : is_Ok (AppendBatch (∅ : DB) demo_stream demo_payloads 7).2) by (vm_compute; by eexists).
  assert (Hdb : (AppendBatch (∅ : DB) demo_stream demo_payloads 7).1.1 = demo_db1) by reflexivity.
  destruct (AppendBatch (∅ : DB) demo_stream demo_payloads 7) as [[db s] [records|e]] eqn:E; [|exfalso; destruct Hr as [x Hx]; discriminate Hx].
  cbn [fst snd] in Hs, Hdb. subst db s.
  pose proof (written_is_read list_receipt demo_visits (∅ : DB) demo_db1 demo_stream demo_stream1 empty_queue demo_payloads 7
    records demo_config demo_new [100; 101; 102; 103] 2 [[x01]; [x02]; [x03]] demo_opened0 eq_refl
    demo_now E demo_New demo_limit demo_visits_range demo_count demo_rounds) as H.
  fold demo_read_back in H. destruct demo_read_back as [[[w' d'] got] [|e|]]; cbn in Hok; try (exfalso; exact Hok).
  apply H.
Defined.
