(* ===== verification/Options.v ===== *)
(** * Configuration (options.go; the first part of New and the configuration
    that Open picks, factory.go)

    Options hold a Go map of per-log overrides.  A map is a reference: [maps] is
    the store of maps, an [Options] value holds the location of its map or none
    for nil, and every operation that allocates or assigns returns the store. *)
From S2P Require Import Prelude Errors Keys Store Backoff Dispatch.
From Stdlib Require Import Floats.SpecFloat.
#[local] Open Scope Z_scope.

(** ** Data *)

(** [BackoffConfig] *)
Record BackoffConfig : Type := {
  bc_Initial : Z;
  bc_Max : Z;
  bc_Multiplier : float64
}.

(** [LogConfig] *)
Record LogConfig : Type := {
  lc_PrefetchCapacity : Z;
  lc_MaxInFlight : Z;
  lc_VisibilityTimeout : Z;
  lc_RetryBackoff : BackoffConfig
}.

(** A reference to a [map[string]LogConfig]. *)
Abbreviation loc := nat.
Abbreviation maps := (gmap loc (gmap string LogConfig)).

(** [Options]; [o_Logger] is whether the logger is non-nil. *)
Record Options : Type := {
  o_Dir : string;
  o_DefaultLog : LogConfig;
  o_Logs : option loc;
  o_Logger : bool;
  o_MaintenanceInterval : Z;
  o_ValueLogGCDiscardRatio : float64
}.

(** What a read of the map of [o] sees: a nil map reads as an empty one. *)
Definition logs_of (h : maps) (o : Options) : gmap string LogConfig :=
  match o_Logs o with None => ∅ | Some l => default ∅ (h !! l) end.

(** ** Defaults *)

Definition defaultPrefetchCapacity : Z := 1024.
Definition defaultMaxInFlight : Z := 1024.
Definition defaultVisibility : Z := 30 * second.
Definition defaultRetryInitial : Z := second.
Definition defaultRetryMax : Z := 60 * second.
Definition defaultRetryMultiplier : float64 := float64_of_Z 2.

(** The literal [0.5]. *)
Definition float64_half : float64 := binary_normalize 53 1024 1 (-1) false.
(** [x == 0] on floats: true of both zeros, false of NaN. *)
Definition float64_is_zero (x : float64) : bool := SFeqb x (float64_of_Z 0).

Definition DefaultLogConfig : LogConfig :=
  {| lc_PrefetchCapacity := defaultPrefetchCapacity; lc_MaxInFlight := defaultMaxInFlight;
     lc_VisibilityTimeout := defaultVisibility;
     lc_RetryBackoff := {| bc_Initial := defaultRetryInitial; bc_Max := defaultRetryMax;
                           bc_Multiplier := defaultRetryMultiplier |} |}.

Definition DefaultOptions (dir : string) : Options :=
  {| o_Dir := dir; o_DefaultLog := DefaultLogConfig; o_Logs := None; o_Logger := false;
     o_MaintenanceInterval := 5 * 60 * second; o_ValueLogGCDiscardRatio := float64_half |}.

(** ** Copies with one field set *)

Definition WithDir (o : Options) (dir : string) : Options :=
  {| o_Dir := dir; o_DefaultLog := o_DefaultLog o; o_Logs := o_Logs o; o_Logger := o_Logger o;
     o_MaintenanceInterval := o_MaintenanceInterval o; o_ValueLogGCDiscardRatio := o_ValueLogGCDiscardRatio o |}.
Definition WithLogger (o : Options) (logger : bool) : Options :=
  {| o_Dir := o_Dir o; o_DefaultLog := o_DefaultLog o; o_Logs := o_Logs o; o_Logger := logger;
     o_MaintenanceInterval := o_MaintenanceInterval o; o_ValueLogGCDiscardRatio := o_ValueLogGCDiscardRatio o |}.
Definition WithDefaultLog (o : Options) (config : LogConfig) : Options :=
  {| o_Dir := o_Dir o; o_DefaultLog := config; o_Logs := o_Logs o; o_Logger := o_Logger o;
     o_MaintenanceInterval := o_MaintenanceInterval o; o_ValueLogGCDiscardRatio := o_ValueLogGCDiscardRatio o |}.
Definition with_Logs (o : Options) (logs : option loc) : Options :=
  {| o_Dir := o_Dir o; o_DefaultLog := o_DefaultLog o; o_Logs := logs; o_Logger := o_Logger o;
     o_MaintenanceInterval := o_MaintenanceInterval o; o_ValueLogGCDiscardRatio := o_ValueLogGCDiscardRatio o |}.
Definition WithMaintenanceInterval (o : Options) (interval : Z) : Options :=
  {| o_Dir := o_Dir o; o_DefaultLog := o_DefaultLog o; o_Logs := o_Logs o; o_Logger := o_Logger o;
     o_MaintenanceInterval := interval; o_ValueLogGCDiscardRatio := o_ValueLogGCDiscardRatio o |}.
Definition WithValueLogGCDiscardRatio (o : Options) (ratio : float64) : Options :=
  {| o_Dir := o_Dir o; o_DefaultLog := o_DefaultLog o; o_Logs := o_Logs o; o_Logger := o_Logger o;
     o_MaintenanceInterval := o_MaintenanceInterval o; o_ValueLogGCDiscardRatio := ratio |}.

Definition WithPrefetchCapacity (c : LogConfig) (capacity : Z) : LogConfig :=
  {| lc_PrefetchCapacity := capacity; lc_MaxInFlight := lc_MaxInFlight c;
     lc_VisibilityTimeout := lc_VisibilityTimeout c; lc_RetryBackoff := lc_RetryBackoff c |}.
Definition WithMaxInFlight (c : LogConfig) (maximum : Z) : LogConfig :=
  {| lc_PrefetchCapacity := lc_PrefetchCapacity c; lc_MaxInFlight := maximum;
     lc_VisibilityTimeout := lc_VisibilityTimeout c; lc_RetryBackoff := lc_RetryBackoff c |}.
Definition WithVisibilityTimeout (c : LogConfig) (timeout : Z) : LogConfig :=
  {| lc_PrefetchCapacity := lc_PrefetchCapacity c; lc_MaxInFlight := lc_MaxInFlight c;
     lc_VisibilityTimeout := timeout; lc_RetryBackoff := lc_RetryBackoff c |}.
Definition WithRetryBackoff (c : LogConfig) (backoff : BackoffConfig) : LogConfig :=
  {| lc_PrefetchCapacity := lc_PrefetchCapacity c; lc_MaxInFlight := lc_MaxInFlight c;
     lc_VisibilityTimeout := lc_VisibilityTimeout c; lc_RetryBackoff := backoff |}.

Definition WithInitial (b : BackoffConfig) (initial : Z) : BackoffConfig :=
  {| bc_Initial := initial; bc_Max := bc_Max b; bc_Multiplier := bc_Multiplier b |}.
Definition WithMax (b : BackoffConfig) (maximum : Z) : BackoffConfig :=
  {| bc_Initial := bc_Initial b; bc_Max := maximum; bc_Multiplier := bc_Multiplier b |}.
Definition WithMultiplier (b : BackoffConfig) (multiplier : float64) : BackoffConfig :=
  {| bc_Initial := bc_Initial b; bc_Max := bc_Max b; bc_Multiplier := multiplier |}.

(** [make(map[string]LogConfig)]: a location that is not in use. *)
Definition alloc (h : maps) (m : gmap string LogConfig) : maps * loc :=
  let l := fresh (dom h) in (<[l := m]> h, l).

(** The loop copies every entry into the new map before [name] is assigned. *)
Definition WithLog (h : maps) (o : Options) (name : string) (config : LogConfig) : maps * Options :=
  let '(h, logs) := alloc h (<[name := config]> (logs_of h o)) in (h, with_Logs o (Some logs)).

(** [configs[name] = config] by whoever holds the map: what the copies guard
    against. *)
Definition assign (h : maps) (l : loc) (name : string) (config : LogConfig) : maps :=
  match h !! l with None => h | Some m => <[l := <[name := config]> m]> h end.

Definition cloneLogConfigs (h : maps) (configs : option loc) : maps * option loc :=
  match configs with
  | None => (h, None)
  | Some l => let '(h, cloned) := alloc h (default ∅ (h !! l)) in (h, Some cloned)
  end.

(** ** Normalizing, merging, validating *)

(** [if x == 0 { x = y }] *)
Definition or_default (x y : Z) : Z := if x =? 0 then y else x.
Definition or_default_float (x y : float64) : float64 := if float64_is_zero x then y else x.

Definition mergeLogConfig (config base : LogConfig) : LogConfig :=
  {| lc_PrefetchCapacity := or_default (lc_PrefetchCapacity config) (lc_PrefetchCapacity base);
     lc_MaxInFlight := or_default (lc_MaxInFlight config) (lc_MaxInFlight base);
     lc_VisibilityTimeout := or_default (lc_VisibilityTimeout config) (lc_VisibilityTimeout base);
     lc_RetryBackoff :=
       {| bc_Initial := or_default (bc_Initial (lc_RetryBackoff config)) (bc_Initial (lc_RetryBackoff base));
          bc_Max := or_default (bc_Max (lc_RetryBackoff config)) (bc_Max (lc_RetryBackoff base));
          bc_Multiplier := or_default_float (bc_Multiplier (lc_RetryBackoff config))
                             (bc_Multiplier (lc_RetryBackoff base)) |} |}.

Definition normalizeLogConfig (config : LogConfig) : LogConfig :=
  let defaults := DefaultLogConfig in
  {| lc_PrefetchCapacity := or_default (lc_PrefetchCapacity config) (lc_PrefetchCapacity defaults);
     lc_MaxInFlight := or_default (lc_MaxInFlight config) (lc_MaxInFlight defaults);
     lc_VisibilityTimeout := or_default (lc_VisibilityTimeout config) (lc_VisibilityTimeout defaults);
     lc_RetryBackoff :=
       {| bc_Initial := or_default (bc_Initial (lc_RetryBackoff config)) (bc_Initial (lc_RetryBackoff defaults));
          bc_Max := or_default (bc_Max (lc_RetryBackoff config)) (bc_Max (lc_RetryBackoff defaults));
          bc_Multiplier := or_default_float (bc_Multiplier (lc_RetryBackoff config))
                             (bc_Multiplier (lc_RetryBackoff defaults)) |} |}.

Definition validateLogConfig (config : LogConfig) : option goerr :=
  if (lc_PrefetchCapacity config <=? 0) || (lc_MaxInFlight config <=? 0) || (lc_VisibilityTimeout config <=? 0)
     || (bc_Initial (lc_RetryBackoff config) <? 0)
     || (bc_Max (lc_RetryBackoff config) <? bc_Initial (lc_RetryBackoff config))
     || float64_ltb (bc_Multiplier (lc_RetryBackoff config)) (float64_of_Z 1)
  then Some (Sentinel ErrInvalidOptions) else None.

(** The loop over the overrides; [visits] is the order in which [range] visits
    the map. *)
Fixpoint validate_logs (base : LogConfig) (visits : list (string * LogConfig)) : option goerr :=
  match visits with
  | [] => None
  | (name, config) :: visits =>
      match ValidateStreamName name with
      | Some _ => Some (Errorf "%w: log %q: %v" [Sentinel ErrInvalidName])
      | None =>
          match validateLogConfig (mergeLogConfig config base) with
          | Some err => Some (Errorf "teak: invalid configuration for log %q: %w" [err])
          | None => validate_logs base visits
          end
      end
  end.

Definition validateOptions (visits : list (string * LogConfig)) (o : Options) : option goerr :=
  if bool_decide (o_Dir o = "") then Some (Errorf "%w: directory is required" [Sentinel ErrInvalidOptions])
  else
    match validateLogConfig (o_DefaultLog o) with
    | Some err => Some err
    | None =>
        if o_MaintenanceInterval o <? 0
        then Some (Errorf "%w: maintenance interval must not be negative" [Sentinel ErrInvalidOptions])
        else if float64_leb (o_ValueLogGCDiscardRatio o) (float64_of_Z 0)
             || float64_leb (float64_of_Z 1) (o_ValueLogGCDiscardRatio o)
        then Some (Errorf "%w: value-log GC discard ratio must be between zero and one" [Sentinel ErrInvalidOptions])
        else validate_logs (o_DefaultLog o) visits
    end.

(** ** What the factory makes of them *)

(** The assignments at the top of [New]. *)
Definition New_options (h : maps) (o : Options) : maps * Options :=
  let o := WithDefaultLog o (normalizeLogConfig (o_DefaultLog o)) in
  let '(h, logs) := cloneLogConfigs h (o_Logs o) in
  let o := with_Logs o logs in
  (h, if float64_is_zero (o_ValueLogGCDiscardRatio o) then WithValueLogGCDiscardRatio o float64_half else o).

(** The configuration that [Open] gives the log [name]. *)
Definition log_config (h : maps) (o : Options) (name : string) : LogConfig :=
  match logs_of h o !! name with
  | Some override => mergeLogConfig override (o_DefaultLog o)
  | None => o_DefaultLog o
  end.

(** ... and passes on to [dispatch.New]. *)
Definition dispatch_config (config : LogConfig) : Config :=
  {| cfg_PrefetchCapacity := lc_PrefetchCapacity config; cfg_MaxInFlight := lc_MaxInFlight config;
     cfg_VisibilityTimeout := lc_VisibilityTimeout config; cfg_RetryInitial := bc_Initial (lc_RetryBackoff config);
     cfg_RetryMax := bc_Max (lc_RetryBackoff config); cfg_RetryMultiplier := bc_Multiplier (lc_RetryBackoff config) |}.

(** ** Lemmas *)

Lemma validateLogConfig_config config :
  validateLogConfig config = None ↔ config_invalid (dispatch_config config) = false.
Proof. unfold validateLogConfig, config_invalid, dispatch_config. cbn. by destruct (_ || _). Qed.

Lemma validate_logs_spec base visits :
  validate_logs base visits = None ↔
  ∀ name config, (name, config) ∈ visits →
    valid_name name ∧ validateLogConfig (mergeLogConfig config base) = None.
Proof.
  induction visits as [|[name config] visits IH]; cbn [validate_logs].
  { split; [|done]. intros _ name config Hin. by apply elem_of_nil in Hin. }
  unfold valid_name. destruct (ValidateStreamName name) as [e|] eqn:Hname.
  { split; [done|]. intros H. destruct (H name config ltac:(by left)) as [Hv _]. congruence. }
  destruct (validateLogConfig (mergeLogConfig config base)) as [e|] eqn:Hc.
  { split; [done|]. intros H. destruct (H name config ltac:(by left)) as [_ Hv]. congruence. }
  rewrite IH. split.
  - intros H n c [[= -> ->]|Hin]%elem_of_cons; [by rewrite Hname|by apply H].
  - intros H n c Hin. apply H. by right.
Qed.

(** Comparisons of floats, where only a NaN is not comparable. *)
Lemma SFcompare_opp (x y : float64) : SFcompare y x = option_map CompOpp (SFcompare x y).
Proof.
  destruct x as [[]|[]| |[] m e], y as [[]|[]| |[] m' e']; try done; cbn [SFcompare option_map];
    rewrite (Z.compare_antisym e e'); change (Pos.compare_cont Eq) with Pos.compare; rewrite (Pos.compare_antisym m m');
    destruct (e ?= e')%Z; cbn; by rewrite ?CompOpp_involutive.
Qed.

Lemma SFcompare_None (x y : float64) : SFcompare x y = None → x = S754_nan ∨ y = S754_nan.
Proof. destruct x as [[]|[]| |[] m e], y as [[]|[]| |[] m' e']; try (by auto); try done. all: cbn; by repeat case_match. Qed.

Lemma float64_leb_false x y : float64_leb x y = false ↔ (x = S754_nan ∨ y = S754_nan) ∨ float64_ltb y x = true.
Proof.
  unfold float64_leb, float64_ltb, SFleb, SFltb. rewrite (SFcompare_opp x y).
  pose proof (SFcompare_None x y) as Hn. assert (Hnan : x = S754_nan ∨ y = S754_nan → SFcompare x y = None).
  { intros [->| ->]; [done|]. by destruct x as [[]|[]| |[] ? ?]. }
  destruct (SFcompare x y) as [[]|]; cbn; split; try done; try (by intros [[=]%Hnan|?]); by auto.
Qed.

Lemma float64_ltb_false x y : float64_ltb x y = false ↔ (x = S754_nan ∨ y = S754_nan) ∨ float64_leb y x = true.
Proof.
  unfold float64_leb, float64_ltb, SFleb, SFltb. rewrite (SFcompare_opp x y).
  pose proof (SFcompare_None x y) as Hn. assert (Hnan : x = S754_nan ∨ y = S754_nan → SFcompare x y = None).
  { intros [->| ->]; [done|]. by destruct x as [[]|[]| |[] ? ?]. }
  destruct (SFcompare x y) as [[]|]; cbn; split; try done; try (by intros [[=]%Hnan|?]); by auto.
Qed.

(** The ranges of a configuration.  A NaN passes every comparison of the code. *)
Record config_in_range (config : LogConfig) : Prop := {
  cr_prefetch : 0 < lc_PrefetchCapacity config;
  cr_inFlight : 0 < lc_MaxInFlight config;
  cr_visibility : 0 < lc_VisibilityTimeout config;
  cr_delays : 0 ≤ bc_Initial (lc_RetryBackoff config) ≤ bc_Max (lc_RetryBackoff config);
  cr_multiplier : bc_Multiplier (lc_RetryBackoff config) = S754_nan
    ∨ float64_leb (float64_of_Z 1) (bc_Multiplier (lc_RetryBackoff config)) = true
}.

Lemma config_in_range_spec config : config_invalid (dispatch_config config) = false ↔ config_in_range config.
Proof.
  unfold config_invalid, dispatch_config. cbn [cfg_PrefetchCapacity cfg_MaxInFlight cfg_VisibilityTimeout cfg_RetryInitial cfg_RetryMax cfg_RetryMultiplier].
  rewrite !orb_false_iff, float64_ltb_false, !Z.leb_gt, !Z.ltb_ge. split.
  - intros [[[[[? ?] ?] ?] ?] [[?|Hone]|?]]; [split; auto|by vm_compute in Hone|split; auto].
  - intros [? ? ? [? ?] [?|?]]; split_and!; auto.
Qed.

Definition ratio_in_range (ratio : float64) : Prop :=
  ratio = S754_nan ∨ float64_ltb (float64_of_Z 0) ratio = true ∧ float64_ltb ratio (float64_of_Z 1) = true.

Lemma ratio_in_range_spec ratio :
  float64_leb ratio (float64_of_Z 0) = false ∧ float64_leb (float64_of_Z 1) ratio = false ↔ ratio_in_range ratio.
Proof.
  rewrite !float64_leb_false. unfold ratio_in_range. split.
  - intros [[[?|Hz]|?] [[Ho|?]|?]]; auto; first [by vm_compute in Hz|by vm_compute in Ho].
  - intros [?|[? ?]]; auto.
Qed.

(** What an accepted configuration is. *)
Record options_valid (logs : gmap string LogConfig) (o : Options) : Prop := {
  ov_dir : o_Dir o ≠ "";
  ov_default : config_in_range (o_DefaultLog o);
  ov_interval : 0 ≤ o_MaintenanceInterval o;
  ov_ratio : ratio_in_range (o_ValueLogGCDiscardRatio o);
  ov_logs name config : logs !! name = Some config →
    valid_name name ∧ config_in_range (mergeLogConfig config (o_DefaultLog o))
}.

Lemma validateOptions_lemma visits (logs : gmap string LogConfig) o :
  visits ≡ₚ map_to_list logs → (validateOptions visits o = None ↔ options_valid logs o).
Proof.
  intros Hv. unfold validateOptions. case_bool_decide as Hd; [split; [done|by intros []]|].
  destruct (validateLogConfig (o_DefaultLog o)) as [e|] eqn:Hc.
  { split; [done|]. intros [_ H _ _ _]. apply config_in_range_spec, validateLogConfig_config in H. congruence. }
  apply validateLogConfig_config, config_in_range_spec in Hc.
  destruct (Z.ltb_spec (o_MaintenanceInterval o) 0) as [Hi|Hi]; [split; [done|]; intros []; lia|].
  destruct (_ || _) eqn:Hr.
  { split; [done|]. intros [_ _ _ H _]. apply ratio_in_range_spec in H as [H0 H1]. by rewrite H0, H1 in Hr. }
  apply orb_false_iff, ratio_in_range_spec in Hr. rewrite validate_logs_spec. split.
  - intros H. split; [done..|]. intros name config Hl. rewrite <- config_in_range_spec, <- validateLogConfig_config. apply H.
    by rewrite Hv, elem_of_map_to_list.
  - intros [_ _ _ _ H] name config Hin. rewrite Hv, elem_of_map_to_list in Hin.
    rewrite validateLogConfig_config, config_in_range_spec. by apply H.
Qed.

Lemma alloc_lookup h m l m' : h !! l = Some m' → (alloc h m).1 !! l = Some m'.
Proof.
  intros Hl. unfold alloc. cbn. rewrite lookup_insert_ne; [done|]. intros <-.
  apply (is_fresh (dom h)). apply elem_of_dom. by exists m'.
Qed.

Lemma alloc_new h m : (alloc h m).1 !! (alloc h m).2 = Some m.
Proof. apply lookup_insert_eq. Qed.

Lemma alloc_fresh h m : h !! (alloc h m).2 = None.
Proof. apply not_elem_of_dom. unfold alloc. cbn. apply is_fresh. Qed.
