(* ===== verification/Log.v ===== *)
(** * The log facade (log.go, the types of teak.go, checkContext of factory.go)

    One log: the store handle, the dispatcher, the counters and the lifecycle
    count, with every method of [Log] as a function of them.  [begin] and [end]
    bracket a method; what runs beside it is the subject of Queue.v, and the
    blocking part of [close] of Lifecycle.v.  Writing to the logger is not
    modelled: it has no effect on the program.

    A pointer to a [logStream] is a number, nil is [None]; a context is what
    [ctx.Err()] returns once it is done, [None] before. *)
From S2P Require Import Prelude Errors Keys Badger Store StoreLog Dispatch.
#[local] Open Scope Z_scope.

(** ** Data *)

(** [teak.Position] *)
Record Position : Type := { p_Seq : Z }.

(** [teak.Delivery] *)
Record Delivery : Type := {
  td_Position : Position;
  td_Payload : bytes;
  td_Attempt : Z;
  td_Deadline : Z;
  td_OriginStream : string;
  td_OriginSeq : Z;
  td_receipt : Receipt;
  td_owner : option nat
}.

(** [teak.DeadLetter] *)
Record DeadLetter : Type := {
  tl_Position : Position;
  tl_Payload : bytes;
  tl_Reason : string;
  tl_CreatedAt : Z;
  tl_DeadLetteredAt : Z;
  tl_OriginStream : string;
  tl_OriginSeq : Z;
  tl_owner : option nat;
  tl_identitySeq : Z
}.

(** [teak.Stats] *)
Record Stats : Type := {
  ts_DurableTail : Z;
  ts_Pending : Z;
  ts_Ready : Z;
  ts_InFlight : Z;
  ts_Retry : Z;
  ts_DeadLetter : Z;
  ts_Writes : Z;
  ts_Deliveries : Z;
  ts_Commits : Z;
  ts_Retries : Z;
  ts_LeaseExpirations : Z;
  ts_DuplicateAttempts : Z;
  ts_BackpressureEvents : Z;
  ts_StorageErrors : Z;
  ts_OldestPendingSeq : Z;
  ts_OldestPendingAge : Z
}.

(** [logStream] without its store handle, which the methods take beside it, and
    its logger; [l_self] is its address. *)
Record logStream : Type := {
  l_self : nat;
  l_dispatcher : Dispatcher;
  l_closing : bool;
  l_active : Z;
  l_writes : Z;
  l_commits : Z;
  l_storageErrors : Z
}.

Definition newLogStream (self : nat) (scheduler : Dispatcher) : logStream :=
  {| l_self := self; l_dispatcher := scheduler; l_closing := false; l_active := 0; l_writes := 0; l_commits := 0;
     l_storageErrors := 0 |}.

Definition with_dispatcher (l : logStream) (d : Dispatcher) : logStream :=
  {| l_self := l_self l; l_dispatcher := d; l_closing := l_closing l; l_active := l_active l;
     l_writes := l_writes l; l_commits := l_commits l; l_storageErrors := l_storageErrors l |}.
Definition with_active (l : logStream) (active : Z) : logStream :=
  {| l_self := l_self l; l_dispatcher := l_dispatcher l; l_closing := l_closing l; l_active := active;
     l_writes := l_writes l; l_commits := l_commits l; l_storageErrors := l_storageErrors l |}.
Definition with_closing (l : logStream) (closing : bool) : logStream :=
  {| l_self := l_self l; l_dispatcher := l_dispatcher l; l_closing := closing; l_active := l_active l;
     l_writes := l_writes l; l_commits := l_commits l; l_storageErrors := l_storageErrors l |}.
Definition add_writes (l : logStream) (n : Z) : logStream :=
  {| l_self := l_self l; l_dispatcher := l_dispatcher l; l_closing := l_closing l; l_active := l_active l;
     l_writes := u64 (l_writes l + n); l_commits := l_commits l; l_storageErrors := l_storageErrors l |}.
Definition add_commits (l : logStream) (n : Z) : logStream :=
  {| l_self := l_self l; l_dispatcher := l_dispatcher l; l_closing := l_closing l; l_active := l_active l;
     l_writes := l_writes l; l_commits := u64 (l_commits l + n); l_storageErrors := l_storageErrors l |}.
Definition with_storageErrors (l : logStream) (n : Z) : logStream :=
  {| l_self := l_self l; l_dispatcher := l_dispatcher l; l_closing := l_closing l; l_active := l_active l;
     l_writes := l_writes l; l_commits := l_commits l; l_storageErrors := n |}.

(** ** The lifecycle of a call *)

Definition checkContext (ctx : option goerr) : option goerr := ctx.

Definition begin (l : logStream) (ctx : option goerr) : logStream * option goerr :=
  match checkContext ctx with
  | Some e => (l, Some e)
  | None => if l_closing l then (l, Some (Sentinel ErrClosed)) else (with_active l (l_active l + 1), None)
  end.

Definition end_ (l : logStream) : logStream := with_active l (l_active l - 1).

(** A method: [begin], a deferred [end] and the body. *)
Definition call {W A : Type} (ctx : option goerr) (body : W → logStream → W * logStream * res A)
    (w : W) (l : logStream) : W * logStream * res A :=
  match begin l ctx with
  | (l, Some e) => (w, l, Err e)
  | (l, None) => let '(w, l, r) := body w l in (w, end_ l, r)
  end.

(** [close] up to the wait for [active] to reach zero; [end] broadcasts when it
    does. *)
Definition close_begin (l : logStream) : logStream :=
  if l_closing l then l else with_dispatcher (with_closing l true) (Close (l_dispatcher l)).

(** [Close] when none of the log's calls is running. *)
Definition Log_Close (l : logStream) (ctx : option goerr) : logStream * option goerr :=
  match checkContext ctx with
  | Some e => (l, Some e)
  | None => (close_begin l, None)
  end.

(** ** Helpers *)

(** [mapError] of a non-nil error. *)
Definition map_err (e : goerr) : goerr := default e (mapError (Some e)).

(** [error] as the result of a method without another one. *)
Definition of_error (err : option goerr) : res unit := match err with None => Ok tt | Some e => Err e end.

Definition storageError (l : logStream) (err : goerr) : logStream * goerr :=
  (with_storageErrors l (u64 (l_storageErrors l + 1)), err).

Definition wrap (l : logStream) (delivery : Dispatch.Delivery) : Delivery :=
  {| td_Position := {| p_Seq := r_Seq (dl_Record delivery) |}; td_Payload := r_Payload (dl_Record delivery);
     td_Attempt := dl_Attempt delivery; td_Deadline := dl_Deadline delivery;
     td_OriginStream := r_OriginStream (dl_Record delivery); td_OriginSeq := r_OriginSeq (dl_Record delivery);
     td_receipt := dl_Receipt delivery; td_owner := Some (l_self l) |}.

(** The body of the loop of [unwrap]: only the fields the dispatcher looks at. *)
Definition unwrap_one (delivery : Delivery) : Dispatch.Delivery :=
  {| dl_Record := {| r_Seq := p_Seq (td_Position delivery); r_CreatedAt := zero_time; r_OriginStream := "";
                     r_OriginSeq := 0; r_Payload := [] |};
     dl_Receipt := td_receipt delivery; dl_Attempt := td_Attempt delivery; dl_Deadline := zero_time |}.

Fixpoint unwrap (l : logStream) (deliveries : list Delivery) : res (list Dispatch.Delivery) :=
  match deliveries with
  | [] => Ok []
  | delivery :: deliveries =>
      if negb (bool_decide (td_owner delivery = Some (l_self l))) then Err (Sentinel ErrInvalidDelivery)
      else internal ← unwrap l deliveries; Ok (unwrap_one delivery :: internal)
  end.

(** ** The methods *)

Section log.
Context {B : Badger}.

Definition Log_Write (ctx : option goerr) (data : bytes) (now : Z) : store_log → logStream → store_log * logStream * res Position :=
  call ctx (λ w l,
    match Append w.1 w.2 data now with
    | (db, s, Err err) => let '(l, err) := storageError l (map_err err) in ((db, s), l, Err err)
    | (db, s, Ok record) =>
        let l := add_writes l 1 in
        ((db, s), with_dispatcher l (Notify (l_dispatcher l)), Ok {| p_Seq := r_Seq record |})
    end).

Definition Log_BatchWrite (ctx : option goerr) (data : list bytes) (now : Z)
    : store_log → logStream → store_log * logStream * res (list Position) :=
  call ctx (λ w l,
    match AppendBatch w.1 w.2 data now with
    | (db, s, Err err) => let '(l, err) := storageError l (map_err err) in ((db, s), l, Err err)
    | (db, s, Ok records) =>
        let positions := (λ record, {| p_Seq := r_Seq record |}) <$> records in
        let l := add_writes l (len records) in
        ((db, s), if 0 <? len records then with_dispatcher l (Notify (l_dispatcher l)) else l, Ok positions)
    end).

(** [read] is the run of [Dispatcher.Read], whose steps are those of Queue.v. *)
Definition Log_Read (ctx : option goerr) (read : Dispatcher → Dispatcher * res (list Dispatch.Delivery))
    : store_log → logStream → store_log * logStream * res (list Delivery) :=
  call ctx (λ w l,
    match read (l_dispatcher l) with
    | (d, Err err) =>
        let l := with_dispatcher l d in
        let mapped := map_err err in
        if negb (errors_Is mapped context_Canceled) && negb (errors_Is mapped context_DeadlineExceeded)
           && negb (errors_Is mapped ErrClosed) && negb (errors_Is mapped ErrInvalidCount)
        then let '(l, mapped) := storageError l mapped in (w, l, Err mapped)
        else (w, l, Err mapped)
    | (d, Ok internal) => let l := with_dispatcher l d in (w, l, Ok (wrap l <$> internal))
    end).

(** The [persist] of [Commit], on the store and the count of storage errors. *)
Definition commit_persist (seqs : list Z) (w : store_log * Z) : store_log * Z * option goerr :=
  let '((db, s), errors) := w in
  match Store.Commit db s seqs with
  | (db, Some err) => ((db, s), u64 (errors + 1), Some err)
  | (db, None) => ((db, s), errors, None)
  end.

Definition Log_Commit (ctx : option goerr) (env : Env) (deliveries : list Delivery)
    : store_log → logStream → store_log * logStream * res unit :=
  call ctx (λ w l,
    match unwrap l deliveries with
    | Err err => (w, l, Err err)
    | Ok internal =>
        let '(d, (w, errors), err) := Dispatch.Commit commit_persist env (l_dispatcher l) (w, l_storageErrors l) internal in
        let l := with_storageErrors (with_dispatcher l d) errors in
        match err with
        | Some err => (w, l, Err (map_err err))
        | None => (w, add_commits l (len deliveries), Ok tt)
        end
    end).

Definition Log_Retry (ctx : option goerr) (out_of_range : Backoff.float64 → Z) (env : Env) (deliveries : list Delivery)
    : store_log → logStream → store_log * logStream * res unit :=
  call ctx (λ w l,
    match unwrap l deliveries with
    | Err err => (w, l, Err err)
    | Ok internal =>
        let '(d, err) := Retry out_of_range env (l_dispatcher l) internal in
        (w, with_dispatcher l d, of_error (mapError err))
    end).

Definition Log_Extend (ctx : option goerr) (env : Env) (extension : Z) (deliveries : list Delivery)
    : store_log → logStream → store_log * logStream * res unit :=
  call ctx (λ w l,
    match unwrap l deliveries with
    | Err err => (w, l, Err err)
    | Ok internal =>
        let '(d, err) := Extend env extension (l_dispatcher l) internal in
        (w, with_dispatcher l d, of_error (mapError err))
    end).

Definition dead_letter_persist (reason : string) (now : Z) (seq : Z) (w : store_log * Z) : store_log * Z * option goerr :=
  let '((db, s), errors) := w in
  match Store.DeadLetter db s seq reason now with
  | (db, Some err) => ((db, s), u64 (errors + 1), Some err)
  | (db, None) => ((db, s), errors, None)
  end.

(** [internal[0]] exists: [unwrap] returns as many as it is given. *)
Definition Log_DeadLetter (ctx : option goerr) (env : Env) (delivery : Delivery) (reason : string) (now : Z)
    : store_log → logStream → store_log * logStream * res unit :=
  call ctx (λ w l,
    match unwrap l [delivery] with
    | Err err => (w, l, Err err)
    | Ok internal =>
        let '(d, (w, errors), err) :=
          Dispatch.DeadLetter (dead_letter_persist reason now) env (l_dispatcher l) (w, l_storageErrors l)
            (hd (unwrap_one delivery) internal) in
        (w, with_storageErrors (with_dispatcher l d) errors, of_error (mapError err))
    end).

Definition dead_letter_result (l : logStream) (record : DeadRecord) : DeadLetter :=
  {| tl_Position := {| p_Seq := dr_Seq record |}; tl_Payload := dr_Payload record; tl_Reason := dr_Reason record;
     tl_CreatedAt := dr_CreatedAt record; tl_DeadLetteredAt := dr_DeadLetteredAt record;
     tl_OriginStream := dr_OriginStream record; tl_OriginSeq := dr_OriginSeq record;
     tl_owner := Some (l_self l); tl_identitySeq := dr_Seq record |}.

Definition Log_DeadLetters (ctx : option goerr) (from : Position) (count : Z)
    : store_log → logStream → store_log * logStream * res (list DeadLetter) :=
  call ctx (λ w l,
    if count <=? 0 then (w, l, Err (Sentinel ErrInvalidCount))
    else
      match DeadLetters w.1 w.2 (p_Seq from) count with
      | (_, Some err) => let '(l, err) := storageError l (map_err err) in (w, l, Err err)
      | (records, None) => (w, l, Ok (dead_letter_result l <$> records))
      end).

Definition Log_Requeue (ctx : option goerr) (deadLetter : DeadLetter)
    : store_log → logStream → store_log * logStream * res Position :=
  call ctx (λ w l,
    if negb (bool_decide (tl_owner deadLetter = Some (l_self l)))
       || negb (tl_identitySeq deadLetter =? p_Seq (tl_Position deadLetter))
    then (w, l, Err (Sentinel ErrInvalidDeadLetter))
    else
      match Requeue w.1 w.2 (p_Seq (tl_Position deadLetter)) with
      | (db, s, Err err) => let '(l, err) := storageError l (map_err err) in ((db, s), l, Err err)
      | (db, s, Ok record) => ((db, s), with_dispatcher l (Notify (l_dispatcher l)), Ok {| p_Seq := r_Seq record |})
      end).

(** [time.Since], which saturates. *)
Definition time_Since (now t : Z) : Z := Z.max (- 2 ^ 63) (Z.min (2 ^ 63 - 1) (now - t)).

Definition oldest_age (now oldest : Z) : Z :=
  if is_zero oldest then 0
  else let age := time_Since now oldest in if age <? 0 then 0 else age.

Definition Log_Stats (env : Env) (now : Z) : store_log → logStream → store_log * logStream * res Stats :=
  call None (λ w l,
    match CountsOf w.1 w.2 with
    | (_, Some err) => let '(l, err) := storageError l (map_err err) in (w, l, Err err)
    | (persistent, None) =>
        let '(d, local) := Snapshot env (l_dispatcher l) in
        let l := with_dispatcher l d in
        (w, l, Ok {| ts_DurableTail := c_Tail persistent; ts_Pending := c_Pending persistent;
                     ts_Ready := st_Ready local; ts_InFlight := st_InFlight local; ts_Retry := st_Retry local;
                     ts_DeadLetter := c_DeadLetter persistent; ts_Writes := l_writes l;
                     ts_Deliveries := st_Deliveries local; ts_Commits := l_commits l; ts_Retries := st_Retries local;
                     ts_LeaseExpirations := st_LeaseExpirations local;
                     ts_DuplicateAttempts := st_DuplicateAttempts local;
                     ts_BackpressureEvents := st_Backpressure local; ts_StorageErrors := l_storageErrors l;
                     ts_OldestPendingSeq := c_OldestSeq persistent;
                     ts_OldestPendingAge := oldest_age now (c_OldestTime persistent) |})
    end).
End log.
