(* ===== verification/LogRefine.v ===== *)
(** * The facade refines the durable queue

    Each method of a log, on the store and the dispatcher together: what it does
    to the queue when it succeeds and what it answers, that it does nothing to it
    when it fails, and which errors a caller can see. *)
From S2P Require Import Prelude Errors Keys Envelope Badger Store StoreSpec StoreRefine StoreCounts StoreHistory.
From S2P Require Import Heap Backoff Dispatch DispatchInv DispatchOps DispatchTake DispatchFill.
From S2P Require Import DispatchCalls Queue QueueInv StoreLog ReadRun Log.
#[local] Open Scope Z_scope.

(** ** Operations *)

Inductive log_op : Type :=
| OWrite (data : bytes) (now : Z)
| OBatchWrite (data : list bytes) (now : Z)
| ORead (count : Z) (read : Dispatcher → Dispatcher * res (list Dispatch.Delivery))
| OCommit (env : Env) (deliveries : list Delivery)
| ORetry (out_of_range : float64 → Z) (env : Env) (deliveries : list Delivery)
| OExtend (env : Env) (extension : Z) (deliveries : list Delivery)
| ODeadLetter (env : Env) (delivery : Delivery) (reason : string) (now : Z)
| ODeadLetters (from : Position) (count : Z)
| ORequeue (deadLetter : DeadLetter)
| OStats (env : Env) (now : Z).

(** What they answer. *)
Inductive log_result : Type :=
| RDone
| RPositions (positions : list Position)
| RDeliveries (deliveries : list Delivery)
| RDeadLetters (deadLetters : list DeadLetter)
| RStats (stats : Stats).

(** The context a call runs under: [Stats] takes none. *)
Definition op_ctx (ctx : option goerr) (op : log_op) : option goerr :=
  match op with OStats _ _ => None | _ => ctx end.

Definition seq_of (delivery : Delivery) : Z := p_Seq (td_Position delivery).

(** What a call that returns nil does to the queue of the stream [name]. *)
Definition log_effect (name : string) (op : log_op) (q : queue) : queue :=
  match op with
  | OWrite data now => q_append now [data] q
  | OBatchWrite data now => q_append now data q
  | OCommit _ deliveries => q_commit (seq_of <$> deliveries) q
  | ODeadLetter _ delivery reason now => q_dead_letter name (seq_of delivery) reason now q
  | ORequeue deadLetter => q_requeue (p_Seq (tl_Position deadLetter)) q
  | _ => q
  end.

(** The sequences after [tail]. *)
Definition positions (tail : Z) (n : nat) : list Position := (λ i, {| p_Seq := tail + 1 + Z.of_nat i |}) <$> seq 0 n.

(** A delivery of the log [self]: it carries the pending record as it is. *)
Record delivery_of (self : nat) (q : queue) (delivery : Delivery) : Prop := {
  do_owner : td_owner delivery = Some self;
  do_record : ∃ v, q_pending q !! seq_of delivery = Some v ∧ td_Payload delivery = pe_Payload v
                   ∧ td_OriginStream delivery = pe_OriginStream v ∧ td_OriginSeq delivery = pe_OriginSeq v
}.

Definition dead_letter_of (self : nat) (record : DeadRecord) : DeadLetter :=
  {| tl_Position := {| p_Seq := dr_Seq record |}; tl_Payload := dr_Payload record; tl_Reason := dr_Reason record;
     tl_CreatedAt := dr_CreatedAt record; tl_DeadLetteredAt := dr_DeadLetteredAt record;
     tl_OriginStream := dr_OriginStream record; tl_OriginSeq := dr_OriginSeq record; tl_owner := Some self;
     tl_identitySeq := dr_Seq record |}.

(** What a call that returns nil answers, on the log [self] with the queue [q]. *)
Definition log_answer (self : nat) (q : queue) (op : log_op) (r : log_result) : Prop :=
  match op, r with
  | OWrite _ _, RPositions ps => ps = positions (q_tail q) 1
  | OBatchWrite data _, RPositions ps => ps = positions (q_tail q) (length data)
  | ORead count _, RDeliveries ds =>
      ds ≠ [] ∧ len ds ≤ count ∧ NoDup (td_receipt <$> ds) ∧ ∀ dl, dl ∈ ds → delivery_of self q dl
  | OCommit _ ds, RDone => can_commit (seq_of <$> ds) q ∧ ∀ dl, dl ∈ ds → td_owner dl = Some self
  | ORetry _ _ ds, RDone | OExtend _ _ ds, RDone => ∀ dl, dl ∈ ds → td_owner dl = Some self ∧ is_Some (q_pending q !! seq_of dl)
  | ODeadLetter _ dl _ _, RDone => td_owner dl = Some self ∧ is_Some (q_pending q !! seq_of dl)
  | ODeadLetters from count, RDeadLetters ls => 0 < count ∧ ls = dead_letter_of self <$> q_dead_page (p_Seq from) count q
  | ORequeue dl, RPositions ps => ps = positions (q_tail q) 1 ∧ is_Some (q_dead q !! p_Seq (tl_Position dl))
  | OStats _ _, RStats s =>
      (ts_DurableTail s, ts_Pending s, ts_DeadLetter s, ts_OldestPendingSeq s)
      = (c_Tail (q_counts q), c_Pending (q_counts q), c_DeadLetter (q_counts q), c_OldestSeq (q_counts q))
      ∧ ts_Ready s + ts_Retry s + ts_InFlight s ≤ ts_Pending s
  | _, _ => False
  end.

Section exec.
Context {B : Badger} {BS : BadgerSpec B}.

Definition answered {A} (f : A → log_result) (out : store_log * logStream * res A) : store_log * logStream * res log_result :=
  let '(w, l, r) := out in (w, l, match r with Ok a => Ok (f a) | Err e => Err e end).

Definition log_exec (ctx : option goerr) (op : log_op) (w : store_log) (l : logStream)
    : store_log * logStream * res log_result :=
  match op with
  | OWrite data now => answered (λ p, RPositions [p]) (Log_Write ctx data now w l)
  | OBatchWrite data now => answered RPositions (Log_BatchWrite ctx data now w l)
  | ORead count read => answered RDeliveries (Log_Read ctx read w l)
  | OCommit env deliveries => answered (λ _, RDone) (Log_Commit ctx env deliveries w l)
  | ORetry out_of_range env deliveries => answered (λ _, RDone) (Log_Retry ctx out_of_range env deliveries w l)
  | OExtend env extension deliveries => answered (λ _, RDone) (Log_Extend ctx env extension deliveries w l)
  | ODeadLetter env delivery reason now => answered (λ _, RDone) (Log_DeadLetter ctx env delivery reason now w l)
  | ODeadLetters from count => answered RDeadLetters (Log_DeadLetters ctx from count w l)
  | ORequeue deadLetter => answered (λ p, RPositions [p]) (Log_Requeue ctx deadLetter w l)
  | OStats env now => answered RStats (Log_Stats env now w l)
  end.

(** A run of [Dispatcher.Read] from [d], whatever the receipts, the clock, the
    order of maps and what its waits end with. *)
Definition Read_returns (w : store_log) (count : Z) (d d' : Dispatcher) (r : res (list Dispatch.Delivery)) : Prop :=
  ∃ (Rng : Type) (newReceipt : Rng → res Receipt * Rng) visits turns g g',
    (∀ d, range_of (visits d) d) ∧ Read_turns newReceipt visits turns count w d g = Some (d', g', r).

(** The arguments are values of their types, and maps are ranged over once. *)
Definition op_ok (w : store_log) (l : logStream) (op : log_op) : Prop :=
  match op with
  | OWrite _ now | OBatchWrite _ now => is_i64 now
  | ORead count read => Read_returns w count (l_dispatcher l) (read (l_dispatcher l)).1 (read (l_dispatcher l)).2
  | OCommit env _ | ORetry _ env _ | OExtend env _ _ | OStats env _ => range_of (e_visits env) (l_dispatcher l)
  | ODeadLetter env _ _ now => range_of (e_visits env) (l_dispatcher l) ∧ is_i64 now
  | ORequeue deadLetter => is_u64 (p_Seq (tl_Position deadLetter))
  | ODeadLetters from _ => is_u64 (p_Seq from)
  end.
End exec.

(** ** Errors *)

(** None of the internal sentinels that have a public counterpart. *)
Definition public (e : goerr) : Prop := ∀ s, s ∈ replaced_sentinels → errors_Is e s = false.

Lemma public_sentinel s : bool_decide (s ∈ replaced_sentinels) = false → public (Sentinel s).
Proof. intros Hs%bool_decide_eq_false t Ht. rewrite errors_Is_Sentinel. apply bool_decide_eq_false. by intros ->. Qed.

Lemma public_map e : public (map_err e).
Proof.
  intros s Hs. unfold map_err. destruct (mapError (Some e)) as [e'|] eqn:E; [|done].
  by apply (mapError_hides_lemma e).
Qed.

Lemma public_mapError e err : of_error (mapError err) = Err e → public e.
Proof. destruct err as [e0|]; [|done]. cbn. intros [= <-]. apply (public_map e0). Qed.

Lemma of_mapError err : match err with None => of_error (mapError err) = Ok tt | Some e => of_error (mapError err) = Err (map_err e) end.
Proof. by destruct err. Qed.

Section refine.
Context {B : Badger} {BS : BadgerSpec B}.

(** ** The invariant *)

(** The store holds [q], and the dispatcher is consistent with it: what it holds
    is as it is stored, and nothing pending was skipped. *)
Record log_inv (q : queue) (w : store_log) (l : logStream) : Prop := {
  li_store : opened w.1 w.2 q;
  li_alone : alone w (l_dispatcher l)
}.

Implicit Types (w : store_log) (l : logStream) (q : queue) (d : Dispatcher).

Lemma li_dispatch q w l : log_inv q w l → dispatch_inv (l_dispatcher l).
Proof. intros [_ Ha]. exact (si_dispatch _ Ha). Qed.

Lemma li_tracked q w l seq : log_inv q w l → tracked (l_dispatcher l) seq → is_Some (q_pending q !! seq).
Proof. intros [Ho Ha] Ht. apply (opened_pending w q seq Ho). exact (si_tracked _ Ha seq Ht). Qed.

Lemma log_inv_wf q w l : log_inv q w l → queue_wf q.
Proof. intros [(_ & Hr & _) _]. apply (rep_wf _ _ _ Hr). Qed.

(** The handle got a new tail, and only keys of its stream changed. *)
Record only_stream (w w' : store_log) : Prop := {
  os_handle : w'.2 = set_tail w.2 (s_tail w'.2);
  os_outside : same_outside (s_name w.2) (db_map w.1) (db_map w'.1)
}.

Lemma only_stream_refl w : only_stream w w.
Proof. split; [by destruct w as [? []]|auto with teak]. Qed.

Lemma only_stream_db (db db' : DB) s : same_outside (s_name s) (db_map db) (db_map db') → only_stream (db, s) (db', s).
Proof. split; [by destruct s|done]. Qed.

Lemma only_stream_same (db db' : DB) s : db_map db' = db_map db → only_stream (db, s) (db', s).
Proof. intros Hm. apply only_stream_db. rewrite Hm. auto with teak. Qed.

#[local] Hint Resolve only_stream_refl only_stream_db only_stream_same : teak.

(** What a body of a method has done, from the handle [l]. *)
Definition outcome {A} (q q' : queue) (post : A → Prop) w l (out : store_log * logStream * res A) : Prop :=
  let '(w', l', r) := out in
  log_inv (match r with Ok _ => q' | Err _ => q end) w' l' ∧ only_stream w w'
  ∧ l_self l' = l_self l ∧ l_active l' = l_active l ∧ l_closing l' = l_closing l
  ∧ match r with Ok a => post a | Err e => public e end.

(** ** Calls *)

(** How a call ends: refused, or with the outcome of its body. *)
Definition called {A} (ctx : option goerr) q q' (post : A → Prop) w l (out : store_log * logStream * res A) : Prop :=
  (∃ e, ctx = Some e ∧ out = (w, l, Err e))
  ∨ (ctx = None ∧ l_closing l = true ∧ out = (w, l, Err (Sentinel ErrClosed)))
  ∨ (ctx = None ∧ l_closing l = false ∧ outcome q q' post w l out).

Lemma call_lemma {A} ctx (body : store_log → logStream → store_log * logStream * res A) w l q q' post :
  log_inv q w l →
  (∀ l0, log_inv q w l0 → l_self l0 = l_self l → l_dispatcher l0 = l_dispatcher l → outcome q q' post w l0 (body w l0)) →
  called ctx q q' post w l (call ctx body w l).
Proof.
  intros Hinv Hbody. unfold called, call, begin, checkContext. destruct ctx as [e|]; [left; by exists e|right].
  destruct (l_closing l) eqn:Hc; [by left|right]. split_and!; [done|done|].
  assert (H : outcome q q' post w (with_active l (l_active l + 1)) (body w (with_active l (l_active l + 1)))).
  { by apply Hbody; [destruct Hinv|..]. }
  destruct (body w _) as [[w' l'] r]. destruct H as (Hi & Hn & Hs & Ha & Hcl & Hp). cbn in Ha, Hcl, Hs.
  split_and!; [by destruct Hi|done|done|cbn; lia|cbn; congruence|done].
Qed.

(** ** Changes that keep the invariant *)

Lemma log_inv_quiet q w l l' :
  log_inv q w l → dispatch_inv (l_dispatcher l') → quiet (l_dispatcher l) (l_dispatcher l') → log_inv q w l'.
Proof. intros [Hs Ha] Hd Hq. split; [done|]. by apply (alone_quiet w (l_dispatcher l)). Qed.

Lemma log_inv_same q w l l' : l_dispatcher l' = l_dispatcher l → log_inv q w l → log_inv q w l'.
Proof. intros He [Hs Ha]. split; [done|]. by rewrite He. Qed.

(** A store that holds the same queue. *)
Lemma log_inv_opened q w w' l : opened w'.1 w'.2 q → log_inv q w l → log_inv q w' l.
Proof.
  intros Ho' [Ho Ha]. split; [done|]. apply (alone_same w); [done|by exists q| |].
  - destruct Ho as (_ & _ & Ht), Ho' as (_ & _ & Ht'). cbn. congruence.
  - intros seq. by rewrite (opened_record w q seq Ho), (opened_record w' q seq Ho').
Qed.

Lemma opened_same (db db' : DB) (s : Stream) q : db_map db' = db_map db → opened db s q → opened db' s q.
Proof. intros Hm (Hn & Hr & Ht). split_and!; [done|by rewrite Hm|done]. Qed.

Lemma log_inv_unchanged q db db' s l : db_map db' = db_map db → log_inv q (db, s) l → log_inv q (db', s) l.
Proof. intros Hm Hi. apply (log_inv_opened q (db, s)); [|done]. by apply (opened_same db); [|apply Hi]. Qed.

Lemma log_inv_grown q q' w w' l l' :
  log_inv q w l → opened w'.1 w'.2 q' → grows w w' → l_dispatcher l' = Notify (l_dispatcher l) → log_inv q' w' l'.
Proof. intros [_ Ha] Ho Hg Hl. split; [done|]. rewrite Hl. by apply (alone_grown w). Qed.

(** The completion of some pending records. *)
Lemma opened_completes w w' q q' seqs :
  opened w.1 w.2 q → opened w'.1 w'.2 q' → q_tail q' = q_tail q →
  (∀ seq, q_pending q' !! seq = if decide (seq ∈ seqs) then None else q_pending q !! seq) →
  completes_in w seqs (w', None).
Proof.
  intros Ho Ho' Ht Hp. split_and!; [by exists q'| |].
  - destruct Ho as (_ & _ & H), Ho' as (_ & _ & H'). cbn. congruence.
  - intros seq. rewrite (opened_record w q seq Ho), (opened_record w' q' seq Ho'), Hp. by case_decide.
Qed.

Lemma completed_inv q q' w w' l env internal d' errors :
  log_inv q w l → opened w'.1 w'.2 q' → valid_deliveries (live (e_now env) (l_dispatcher l)) internal →
  completed env (l_dispatcher l) internal d' → q_tail q' = q_tail q →
  (∀ seq, q_pending q' !! seq = if decide (seq ∈ delivered_seqs internal) then None else q_pending q !! seq) →
  log_inv q' w' (with_storageErrors (with_dispatcher l d') errors).
Proof.
  intros [Ho Ha] Ho' Hv Hc Ht Hp. split; [done|]. cbn. eapply (alone_completed w); [done|done|done|].
  by eapply opened_completes.
Qed.

Lemma expired_inv q w l now d' :
  log_inv q w l → expires now (l_dispatcher l) d' → log_inv q w (with_dispatcher l d').
Proof. intros Hi Hex. apply (log_inv_quiet q w l); [done|apply Hex|by eapply expires_quiet]. Qed.

(** ** Writing *)

Lemma positions_appended tail now payloads :
  (λ record, {| p_Seq := r_Seq record |}) <$> appended_records tail now payloads = positions tail (length payloads).
Proof.
  unfold positions. revert tail. induction payloads as [|p ps IH]; intros tail; [done|].
  cbn [appended_records length seq fmap list_fmap]. f_equal; [f_equal; cbn; lia|]. rewrite IH, <- fmap_S_seq, <- list_fmap_compose.
  apply list_fmap_ext. intros _ i _. cbn. f_equal. lia.
Qed.

Lemma BatchWrite_body q w l data now :
  log_inv q w l → is_i64 now →
  match AppendBatch w.1 w.2 data now with
  | (db, s, Ok records) => records = appended_records (q_tail q) now data ∧ only_stream w (db, s)
      ∧ ∀ l', l_dispatcher l' = Notify (l_dispatcher l) ∨ data = [] ∧ l_dispatcher l' = l_dispatcher l →
          log_inv (q_append now data q) (db, s) l'
  | (db, s, Err _) => log_inv q (db, s) l ∧ only_stream w (db, s)
  end.
Proof.
  destruct w as [db s]. intros Hi Hnow. pose proof (AppendBatch_lemma db s q data now (li_store _ _ _ Hi) Hnow) as H.
  pose proof (AppendBatch_grows_lemma db s data now (ex_intro _ _ (li_store _ _ _ Hi)) Hnow) as Hg.
  cbn. destruct (AppendBatch db s data now) as [[db' s'] [records|e]].
  - destruct H as (-> & Ho & -> & Hs). split_and!; [done|by split|]. intros l' [Hl'|[-> Hl']].
    + by eapply log_inv_grown.
    + apply (log_inv_same _ _ l); [done|]. assert (Hq : q_append now [] q = q).
      { unfold q_append, len. cbn. rewrite Z.add_0_r. by destruct q. }
      rewrite Hq in *. by apply (log_inv_opened q (db, s)).
  - destruct H as (Hm & -> & _). split; [by apply (log_inv_unchanged q db)|auto with teak].
Qed.

Lemma Write_refines_log ctx data now q w l :
  log_inv q w l → is_i64 now →
  called ctx q (q_append now [data] q) (λ p, [p] = positions (q_tail q) 1) w l (Log_Write ctx data now w l).
Proof.
  intros Hi Hnow. apply call_lemma; [done|]. intros l0 Hi0 _ _.
  pose proof (BatchWrite_body q w l0 [data] now Hi0 Hnow) as H. unfold Append.
  destruct (AppendBatch w.1 w.2 [data] now) as [[db s] [records|e]].
  - destruct H as (-> & Hos & Hl). cbn. split_and!; try done; [by apply Hl; left|]. unfold positions. cbn. do 2 f_equal. lia.
  - destruct H as [Hi' Hos]. cbn. split_and!; try done; [by apply (log_inv_same q _ l0)|apply public_map].
Qed.

Lemma BatchWrite_refines_log ctx data now q w l :
  log_inv q w l → is_i64 now →
  called ctx q (q_append now data q) (λ ps, ps = positions (q_tail q) (length data)) w l (Log_BatchWrite ctx data now w l).
Proof.
  intros Hi Hnow. apply call_lemma; [done|]. intros l0 Hi0 _ _.
  pose proof (BatchWrite_body q w l0 data now Hi0 Hnow) as H.
  destruct (AppendBatch w.1 w.2 data now) as [[db s] [records|e]].
  - destruct H as (-> & Hos & Hl). rewrite positions_appended. destruct data as [|payload data]; cbn [appended_records].
    + split_and!; try done. apply Hl. by right.
    + split_and!; try done. apply Hl. by left.
  - destruct H as [Hi' Hos]. cbn. split_and!; try done; [by apply (log_inv_same q _ l0)|apply public_map].
Qed.

Lemma Requeue_refines_log ctx dl q w l :
  log_inv q w l → is_u64 (p_Seq (tl_Position dl)) →
  called ctx q (q_requeue (p_Seq (tl_Position dl)) q)
    (λ p, [p] = positions (q_tail q) 1 ∧ is_Some (q_dead q !! p_Seq (tl_Position dl))) w l (Log_Requeue ctx dl w l).
Proof.
  destruct w as [db s]. intros Hi Hseq. apply call_lemma; [done|]. intros l0 Hi0 _ _.
  destruct (negb _ || negb _).
  { cbn. split_and!; try done; [auto with teak|by apply public_sentinel]. }
  pose proof (Requeue_lemma db s q (p_Seq (tl_Position dl)) (li_store _ _ _ Hi0) Hseq) as H. cbn [fst snd].
  pose proof (Requeue_grows_lemma db s _ (ex_intro _ _ (li_store _ _ _ Hi0)) Hseq) as Hg.
  destruct (Requeue db s _) as [[db' s'] [record|e]]; cbn in H |- *.
  - destruct H as (v & Hv & -> & Ho & -> & Hs). split_and!; try done.
    + by eapply (log_inv_grown q _ (db, s)).
    + unfold positions. cbn. do 2 f_equal. lia.
  - destruct H as (Hm & -> & _). split_and!; try done; [|auto with teak|apply public_map].
    apply (log_inv_same q _ l0); [done|by apply (log_inv_unchanged q db)].
Qed.

(** ** Reading *)

Lemma Read_refines_log ctx count read q w l :
  log_inv q w l → Read_returns w count (l_dispatcher l) (read (l_dispatcher l)).1 (read (l_dispatcher l)).2 →
  called ctx q q (λ ds, log_answer (l_self l) q (ORead count read) (RDeliveries ds)) w l (Log_Read ctx read w l).
Proof.
  intros Hi Hread. apply call_lemma; [done|]. intros l0 Hi0 Hself Hl0. rewrite <- Hl0 in Hread. rewrite <- Hself.
  destruct Hread as (Rng & newReceipt & visits & turns & g & g' & Hv & Hread).
  pose proof (Read_turns_lemma newReceipt visits Hv turns count w (l_dispatcher l0) g (li_alone _ _ _ Hi0)) as H.
  rewrite Hread in H. destruct (read (l_dispatcher l0)) as [d' [ds|e]]; cbn [fst snd] in H.
  - destruct H as [Ha (now & [Hne Hlen Hn Hrec _ _])]. cbn [outcome]. split_and!; try done;
      [by split; [apply Hi0|]|auto with teak|]. cbn. split_and!.
    + by intros ->%fmap_nil_inv.
    + unfold len. by rewrite length_fmap.
    + rewrite <- list_fmap_compose. exact Hn.
    + intros dl (dl' & -> & Hin)%list_elem_of_fmap. split; [done|]. specialize (Hrec dl' Hin).
      rewrite (opened_record w q _ (li_store _ _ _ Hi0)) in Hrec. apply fmap_Some in Hrec as (v & Hv' & Heq).
      exists v. split; [done|]. cbn. by rewrite Heq.
  - destruct H as [Ha _]. assert (Hi' : ∀ l', l_dispatcher l' = d' → log_inv q w l') by (intros l' Hl'; split; [apply Hi0|by rewrite Hl']).
    cbn zeta. case_match; (split_and!; [by apply Hi'|auto with teak|done..|apply public_map]).
Qed.

(** ** Deliveries *)

Lemma unwrap_lemma l deliveries :
  match unwrap l deliveries with
  | Ok internal => internal = unwrap_one <$> deliveries ∧ ∀ dl, dl ∈ deliveries → td_owner dl = Some (l_self l)
  | Err e => e = Sentinel ErrInvalidDelivery ∧ ∃ dl, dl ∈ deliveries ∧ td_owner dl ≠ Some (l_self l)
  end.
Proof.
  induction deliveries as [|dl ds IH]; cbn [unwrap].
  { split; [done|]. intros dl Hin. by apply elem_of_nil in Hin. }
  case_bool_decide as Ho; cbn [negb].
  - destruct (unwrap l ds) as [internal|e]; cbn.
    + destruct IH as [-> H]. split; [done|]. intros dl' [->|Hin]%elem_of_cons; [done|by apply H].
    + destruct IH as (-> & dl' & Hin & Hn). split; [done|]. exists dl'. split; [by right|done].
  - split; [done|]. exists dl. split; [by left|done].
Qed.

Lemma unwrap_seqs deliveries : delivered_seqs (unwrap_one <$> deliveries) = seq_of <$> deliveries.
Proof. unfold delivered_seqs. rewrite <- list_fmap_compose. by apply list_fmap_ext. Qed.

(** What a caller gets from [Read] passes the dispatcher's checks as it came. *)
Lemma unwrap_wrap l deliveries :
  unwrap l (wrap l <$> deliveries) = Ok (unwrap_one ∘ wrap l <$> deliveries).
Proof.
  pose proof (unwrap_lemma l (wrap l <$> deliveries)) as H. destruct (unwrap l _) as [internal|e].
  - destruct H as [-> _]. by rewrite <- list_fmap_compose.
  - destruct H as (_ & dl & Hin & Hn). apply list_elem_of_fmap in Hin as (d & -> & _). by destruct Hn.
Qed.

Lemma valid_unwrap inFlight l deliveries :
  valid_deliveries inFlight (unwrap_one ∘ wrap l <$> deliveries) ↔ valid_deliveries inFlight deliveries.
Proof.
  assert (Hr : dl_Receipt <$> (unwrap_one ∘ wrap l <$> deliveries) = dl_Receipt <$> deliveries).
  { rewrite <- list_fmap_compose. by apply list_fmap_ext. }
  unfold valid_deliveries. rewrite Hr. split; intros [Hn H]; (split; [done|]); intros dl Hin.
  - exact (H (unwrap_one (wrap l dl)) (list_elem_of_fmap_2 (unwrap_one ∘ wrap l) _ _ Hin)).
  - apply list_elem_of_fmap in Hin as (d & -> & Hin). exact (H d Hin).
Qed.

(** ** Completing *)

Lemma valid_pending q w l now deliveries seq :
  log_inv q w l → valid_deliveries (live now (l_dispatcher l)) deliveries → seq ∈ delivered_seqs deliveries →
  is_Some (q_pending q !! seq).
Proof.
  intros Hi [_ Hv] (dl & -> & Hin)%list_elem_of_fmap. destruct (Hv dl Hin) as (f & Hf & Hs & _).
  apply (li_tracked _ _ _ _ Hi). apply live_lookup in Hf as [Hf _]. rewrite <- Hs. unfold tracked.
  by rewrite (lanes_ok_flight _ _ _ (inv_lanes _ (li_dispatch _ _ _ Hi)) Hf).
Qed.

Lemma pending_u64 q seq : queue_wf q → is_Some (q_pending q !! seq) → is_u64 seq.
Proof.
  intros Hwf [v Hv]. destruct (wf_pending _ Hwf _ _ Hv) as [? _]. pose proof (wf_tail _ Hwf). unfold is_u64 in *. lia.
Qed.

(** A completing call that failed: the store is as it was, and so are the
    leases, the expired ones aside. *)
Lemma failed_inv q w w' l d' now errors :
  log_inv q w l → opened w'.1 w'.2 q → d' = l_dispatcher l ∨ expires now (l_dispatcher l) d' →
  log_inv q w' (with_storageErrors (with_dispatcher l d') errors).
Proof.
  intros Hi Ho [->|Hex].
  - apply (log_inv_opened q w); [done|by apply (log_inv_same q w l)].
  - apply (log_inv_opened q w); [done|]. apply (log_inv_same q w (with_dispatcher l d')); [done|by eapply expired_inv].
Qed.

Lemma commit_persist_lemma q w errors seqs :
  opened w.1 w.2 q → (∀ seq, seq ∈ seqs → is_Some (q_pending q !! seq)) →
  match commit_persist seqs (w, errors) with
  | (w', _, None) => can_commit seqs q ∧ opened w'.1 w'.2 (q_commit seqs q) ∧ only_stream w w'
  | (w', _, Some _) => opened w'.1 w'.2 q ∧ only_stream w w'
  end.
Proof.
  destruct w as [db s]. intros Ho Hp. assert (Hf : Forall is_u64 seqs).
  { apply Forall_forall. intros seq Hin. apply (pending_u64 q); [|by apply Hp]. destruct Ho as (_ & Hr & _). apply Hr. }
  cbn. pose proof (store_Commit_lemma db s q seqs Ho Hf) as H. destruct (Store.Commit db s seqs) as [db' [e|]].
  - destruct H as [Hm _]. split; [by apply (opened_same db)|auto with teak].
  - destruct H as (Hc & Ho' & Hs). split_and!; [done|done|auto with teak].
Qed.

Lemma dead_letter_persist_lemma q w errors reason now seq :
  opened w.1 w.2 q → is_Some (q_pending q !! seq) → is_i64 now →
  match dead_letter_persist reason now seq (w, errors) with
  | (w', _, None) => opened w'.1 w'.2 (q_dead_letter (s_name w.2) seq reason now q) ∧ only_stream w w'
  | (w', _, Some _) => opened w'.1 w'.2 q ∧ only_stream w w'
  end.
Proof.
  destruct w as [db s]. intros Ho Hp Hnow. assert (Hu : is_u64 seq).
  { apply (pending_u64 q); [|done]. destruct Ho as (_ & Hr & _). apply Hr. }
  cbn. pose proof (store_DeadLetter_lemma db s q seq reason now Ho Hu Hnow) as H.
  destruct (Store.DeadLetter db s seq reason now) as [db' [e|]].
  - destruct H as [Hm _]. split; [by apply (opened_same db)|auto with teak].
  - destruct H as (_ & Ho' & Hs). split_and!; [done|auto with teak].
Qed.

Lemma Commit_refines_log ctx env deliveries q w l :
  log_inv q w l → range_of (e_visits env) (l_dispatcher l) →
  called ctx q (q_commit (seq_of <$> deliveries) q)
    (λ _, can_commit (seq_of <$> deliveries) q ∧ ∀ dl, dl ∈ deliveries → td_owner dl = Some (l_self l))
    w l (Log_Commit ctx env deliveries w l).
Proof.
  intros Hi Hr. apply call_lemma; [done|]. intros l0 Hi0 Hself Hl0. rewrite <- Hl0 in Hr. rewrite <- Hself.
  pose proof (unwrap_lemma l0 deliveries) as Hu. destruct (unwrap l0 deliveries) as [internal|e].
  2: { destruct Hu as [-> _]. cbn. split_and!; try done; [auto with teak|by apply public_sentinel]. }
  destruct Hu as [-> Hown]. rewrite <- unwrap_seqs. set (internal := unwrap_one <$> deliveries).
  pose proof (Commit_lemma env commit_persist (l_dispatcher l0) (w, l_storageErrors l0) internal (li_dispatch _ _ _ Hi0) Hr) as H.
  destruct (Dispatch.Commit _ _ _ _ _) as [[d' [w' errors]] err]. cbn -[commit_persist] in H.
  pose proof (λ Hv, commit_persist_lemma q w (l_storageErrors l0) (delivered_seqs internal) (li_store _ _ _ Hi0)
    (λ seq, valid_pending q w l0 (e_now env) internal seq Hi0 Hv)) as Hstore.
  pose proof (failed_inv q w w' l0 d' (e_now env) errors Hi0) as Hfail.
  destruct err as [e|].
  - assert (Hout : opened w'.1 w'.2 q ∧ only_stream w w' ∧ (d' = l_dispatcher l0 ∨ expires (e_now env) (l_dispatcher l0) d')).
    { destruct H as [(_ & _ & -> & [= -> ->])|(_ & Hex & [(_ & _ & [= -> ->])|(Hv & Hp)])].
      - split_and!; [apply Hi0|auto with teak|by left].
      - split_and!; [apply Hi0|auto with teak|by right].
      - specialize (Hstore Hv). rewrite Hp in Hstore. destruct Hstore. split_and!; [done|done|by right]. }
    destruct Hout as (Ho & Hos & Hd). cbn. split_and!; try done; [by apply Hfail|apply public_map].
  - destruct H as [(He & -> & [= -> ->])|(_ & Hv & Hp & Hc)].
    + rewrite He. cbn. split_and!; try done; [|auto with teak|split; [constructor|by intros ? ?%elem_of_nil]].
      apply (log_inv_same _ w l0); [done|]. by destruct q.
    + specialize (Hstore Hv). rewrite Hp in Hstore. destruct Hstore as (Hcan & Ho & Hos). cbn. split_and!; try done.
      apply (log_inv_same _ _ (with_storageErrors (with_dispatcher l0 d') errors)); [done|].
      eapply completed_inv; [done|done|done|done|done|]. intros seq. apply delete_all_lookup.
Qed.

Lemma DeadLetter_refines_log ctx env delivery reason now q w l :
  log_inv q w l → range_of (e_visits env) (l_dispatcher l) → is_i64 now →
  called ctx q (q_dead_letter (s_name w.2) (seq_of delivery) reason now q)
    (λ _, td_owner delivery = Some (l_self l) ∧ is_Some (q_pending q !! seq_of delivery))
    w l (Log_DeadLetter ctx env delivery reason now w l).
Proof.
  intros Hi Hr Hnow. apply call_lemma; [done|]. intros l0 Hi0 Hself Hl0. rewrite <- Hl0 in Hr. rewrite <- Hself.
  pose proof (unwrap_lemma l0 [delivery]) as Hu. destruct (unwrap l0 [delivery]) as [internal|e].
  2: { destruct Hu as [-> _]. cbn. split_and!; try done; [auto with teak|by apply public_sentinel]. }
  destruct Hu as [-> Hown]. cbn [fmap list_fmap hd]. set (dl := unwrap_one delivery).
  pose proof (DeadLetter_lemma env (dead_letter_persist reason now) (l_dispatcher l0) (w, l_storageErrors l0) dl
    (li_dispatch _ _ _ Hi0) Hr) as H.
  destruct (Dispatch.DeadLetter _ _ _ _ _) as [[d' [w' errors]] err]. cbn -[dead_letter_persist] in H.
  pose proof (λ Hv, valid_pending q w l0 (e_now env) [dl] (seq_of delivery) Hi0 Hv ltac:(by left)) as Hpend.
  pose proof (λ Hv, dead_letter_persist_lemma q w (l_storageErrors l0) reason now (seq_of delivery) (li_store _ _ _ Hi0)
    (Hpend Hv) Hnow) as Hstore. unfold seq_of in Hstore.
  pose proof (failed_inv q w w' l0 d' (e_now env) errors Hi0) as Hfail. destruct err as [e|].
  - assert (Hout : opened w'.1 w'.2 q ∧ only_stream w w' ∧ (d' = l_dispatcher l0 ∨ expires (e_now env) (l_dispatcher l0) d')).
    { destruct H as [(_ & _ & -> & [= -> ->])|(_ & Hex & [(_ & _ & [= -> ->])|(Hv & Hp)])].
      - split_and!; [apply Hi0|auto with teak|by left].
      - split_and!; [apply Hi0|auto with teak|by right].
      - specialize (Hstore Hv). rewrite Hp in Hstore. destruct Hstore. split_and!; [done|done|by right]. }
    destruct Hout as (Ho & Hos & Hd). cbn -[mapError]. split_and!; try done; [by apply Hfail|apply (public_map e)].
  - destruct H as (_ & Hv & Hp & Hc). specialize (Hstore Hv). rewrite Hp in Hstore. destruct Hstore as [Ho Hos].
    cbn. split_and!; try done; [|apply Hown; by left|by apply Hpend].
    destruct (Hpend Hv) as [v Hpv]. eapply completed_inv; [done|done|done|done|unfold q_dead_letter; by rewrite Hpv|].
    intros seq. unfold q_dead_letter. rewrite Hpv. cbn. rewrite lookup_delete.
    change (delivered_seqs [dl]) with [seq_of delivery].
    destruct (decide (seq_of delivery = seq)) as [<-|Hne]; [by rewrite decide_True by (by left)|].
    rewrite decide_False; [done|]. intros ->%list_elem_of_singleton. by destruct Hne.
Qed.

(** ** Rescheduling and looking *)

(** A call of the dispatcher that completes nothing. *)
Lemma quiet_outcome {A} q (post : A → Prop) w l l' (r : res A) :
  log_inv q w l → dispatch_inv (l_dispatcher l') → quiet (l_dispatcher l) (l_dispatcher l') →
  l_self l' = l_self l → l_active l' = l_active l → l_closing l' = l_closing l →
  match r with Ok a => post a | Err e => public e end →
  outcome q q post w l (w, l', r).
Proof.
  intros Hi Hd Hq Hs Ha Hc Hp. split_and!; try done; [|auto with teak]. destruct r; by apply (log_inv_quiet q w l).
Qed.

Lemma mapError_post (post : unit → Prop) err :
  (err = None → post tt) → match of_error (mapError err) with Ok a => post a | Err e => public e end.
Proof. intros Hp. destruct err as [e|]; [apply (public_map e)|by apply Hp]. Qed.

(** The deliveries of a call that accepted them. *)
Lemma accepted_owned q w l now deliveries :
  log_inv q w l → valid_deliveries (live now (l_dispatcher l)) (unwrap_one <$> deliveries) →
  (∀ dl, dl ∈ deliveries → td_owner dl = Some (l_self l)) →
  ∀ dl, dl ∈ deliveries → td_owner dl = Some (l_self l) ∧ is_Some (q_pending q !! seq_of dl).
Proof.
  intros Hi Hv Hown dl Hin. split; [by apply Hown|]. eapply valid_pending; [done|done|].
  rewrite unwrap_seqs. by apply list_elem_of_fmap_2.
Qed.

Lemma Retry_refines_log ctx out env deliveries q w l :
  log_inv q w l → range_of (e_visits env) (l_dispatcher l) →
  called ctx q q (λ _, ∀ dl, dl ∈ deliveries → td_owner dl = Some (l_self l) ∧ is_Some (q_pending q !! seq_of dl))
    w l (Log_Retry ctx out env deliveries w l).
Proof.
  intros Hi Hr. apply call_lemma; [done|]. intros l0 Hi0 Hself Hl0. rewrite <- Hl0 in Hr. rewrite <- Hself.
  pose proof (unwrap_lemma l0 deliveries) as Hu. destruct (unwrap l0 deliveries) as [internal|e].
  2: { destruct Hu as [-> _]. cbn. split_and!; try done; [auto with teak|by apply public_sentinel]. }
  destruct Hu as [-> Hown]. pose proof (Retry_lemma env out (l_dispatcher l0) (unwrap_one <$> deliveries) (li_dispatch _ _ _ Hi0) Hr) as H.
  destruct (Retry _ _ _ _) as [d' err]. pose proof (li_dispatch _ _ _ Hi0) as Hdi.
  assert (Hd : dispatch_inv d' ∧ quiet (l_dispatcher l0) d').
  { destruct err as [e|].
    - destruct H as [(_ & _ & ->)|(_ & Hex & _)]; [done|]. split; [apply Hex|by eapply expires_quiet].
    - by destruct H as [[_ ->]|(_ & _ & [])]. }
  destruct Hd. apply quiet_outcome; try done. apply mapError_post. intros ->.
  destruct H as [[->%fmap_nil_inv _]|(_ & Hv & _)]; [by intros ? ?%elem_of_nil|by eapply accepted_owned].
Qed.

Lemma Extend_refines_log ctx env extension deliveries q w l :
  log_inv q w l → range_of (e_visits env) (l_dispatcher l) →
  called ctx q q (λ _, ∀ dl, dl ∈ deliveries → td_owner dl = Some (l_self l) ∧ is_Some (q_pending q !! seq_of dl))
    w l (Log_Extend ctx env extension deliveries w l).
Proof.
  intros Hi Hr. apply call_lemma; [done|]. intros l0 Hi0 Hself Hl0. rewrite <- Hl0 in Hr. rewrite <- Hself.
  pose proof (unwrap_lemma l0 deliveries) as Hu. destruct (unwrap l0 deliveries) as [internal|e].
  2: { destruct Hu as [-> _]. cbn. split_and!; try done; [auto with teak|by apply public_sentinel]. }
  destruct Hu as [-> Hown].
  pose proof (Extend_lemma env extension (l_dispatcher l0) (unwrap_one <$> deliveries) (li_dispatch _ _ _ Hi0) Hr) as H.
  destruct (Extend _ _ _ _) as [d' err]. pose proof (li_dispatch _ _ _ Hi0) as Hdi.
  assert (Hd : dispatch_inv d' ∧ quiet (l_dispatcher l0) d').
  { destruct err as [e|].
    - destruct H as [(_ & _ & ->)|[(_ & _ & ->)|(_ & Hex & _)]]; [done|done|]. split; [apply Hex|by eapply expires_quiet].
    - by destruct H as (_ & [[_ ->]|(_ & _ & [])]). }
  destruct Hd. apply quiet_outcome; try done. apply mapError_post. intros ->.
  destruct H as (_ & [[->%fmap_nil_inv _]|(_ & Hv & _)]); [by intros ? ?%elem_of_nil|by eapply accepted_owned].
Qed.

Lemma DeadLetters_refines_log ctx from count q w l :
  log_inv q w l → is_u64 (p_Seq from) →
  called ctx q q (λ ls, 0 < count ∧ ls = dead_letter_of (l_self l) <$> q_dead_page (p_Seq from) count q)
    w l (Log_DeadLetters ctx from count w l).
Proof.
  intros Hi Hfrom. apply call_lemma; [done|]. intros l0 Hi0 <- _. pose proof (li_dispatch _ _ _ Hi0).
  destruct (Z.leb_spec count 0) as [Hc|Hc]; [apply quiet_outcome; try done; by apply public_sentinel|].
  pose proof (DeadLetters_lemma w.1 w.2 q (p_Seq from) count (li_store _ _ _ Hi0) Hfrom Hc) as Hp.
  destruct (DeadLetters _ _ _ _) as [records [e|]]; apply quiet_outcome; try done; [apply public_map|].
  split; [done|]. by rewrite Hp.
Qed.

Lemma tracked_size q w l d' :
  log_inv q w l → (∀ seq, tracked d' seq → tracked (l_dispatcher l) seq) →
  Z.of_nat (size (d_states d')) ≤ Z.of_nat (size (q_pending q)).
Proof.
  intros Hi Hq. rewrite <- !size_dom. apply inj_le, subseteq_size. intros seq Hs%elem_of_dom.
  apply elem_of_dom. by apply (li_tracked q w l), Hq.
Qed.

Lemma Stats_refines_log env now q w l :
  log_inv q w l → range_of (e_visits env) (l_dispatcher l) →
  called None q q (λ s, log_answer (l_self l) q (OStats env now) (RStats s)) w l (Log_Stats env now w l).
Proof.
  intros Hi Hr. apply call_lemma; [done|]. intros l0 Hi0 _ Hl0. rewrite <- Hl0 in Hr.
  pose proof (li_dispatch _ _ _ Hi0) as Hd. pose proof (CountsOf_lemma w.1 w.2 q (li_store _ _ _ Hi0)) as Hcounts.
  destruct (CountsOf _ _) as [persistent [e|]].
  { apply quiet_outcome; try done. apply public_map. }
  subst persistent. pose proof (Snapshot_lemma env (l_dispatcher l0) Hd Hr) as H.
  destruct (Snapshot env (l_dispatcher l0)) as [d' local]. destruct H as (Hex & Hsum & _).
  apply quiet_outcome; try done; [apply Hex|by eapply expires_quiet|]. split; [done|]. cbn -[q_counts].
  pose proof (tracked_size q w l0 d' Hi0) as Hsize. assert (Hq : ∀ seq, tracked d' seq → tracked (l_dispatcher l0) seq).
  { intros seq. by apply (expires_quiet _ _ _ Hex). }
  specialize (Hsize Hq). cbn. lia.
Qed.

(** ** Every operation *)

(** A call, seen from outside: it was refused without an effect, or it did and
    answered what it promises, or it failed and did nothing; the rest of the
    handle is as it was. *)
Definition finished {A} (ctx : option goerr) q q' (post : A → Prop) w l (out : store_log * logStream * res A) : Prop :=
  let '(w', l', r) := out in
  log_inv (match r with Ok _ => q' | Err _ => q end) w' l' ∧ only_stream w w'
  ∧ l_self l' = l_self l ∧ l_active l' = l_active l ∧ l_closing l' = l_closing l
  ∧ (l_closing l = true ∨ is_Some ctx → w' = w ∧ l' = l ∧ r = Err (default (Sentinel ErrClosed) ctx))
  ∧ match r with Ok a => post a | Err e => ctx = None → public e end.

Lemma answered_called {A} (f : A → log_result) ctx q q' post (post' : log_result → Prop) w l
    (out : store_log * logStream * res A) :
  log_inv q w l → called ctx q q' post w l out → (∀ a, post a → post' (f a)) →
  finished ctx q q' post' w l (answered f out).
Proof.
  intros Hi H Hpost. destruct out as [[w' l'] r]. cbn.
  destruct H as [(e & -> & [= -> -> ->])|[(-> & Hc & [= -> -> ->])|(-> & Hc & Ho)]].
  - split_and!; try done; auto with teak.
  - split_and!; try done; [auto with teak|]. intros _. by apply public_sentinel.
  - destruct Ho as (H1 & H2 & H3 & H4 & H5 & H6). split_and!; try done; [by destruct r|..].
    + intros [?|[? ?]]; [congruence|done].
    + destruct r; [by apply Hpost|done].
Qed.

Lemma log_exec_lemma ctx op q w l :
  log_inv q w l → op_ok w l op →
  finished (op_ctx ctx op) q (log_effect (s_name w.2) op q) (log_answer (l_self l) q op) w l (log_exec ctx op w l).
Proof.
  intros Hi Hok. destruct op; cbn in Hok;
    [eapply answered_called; [done|by apply Write_refines_log|by intros p]
    |eapply answered_called; [done|by apply BatchWrite_refines_log|by intros p]
    |eapply answered_called; [done|by apply Read_refines_log|by intros p]
    |eapply answered_called; [done|by apply Commit_refines_log|by intros p]
    |eapply answered_called; [done|by apply Retry_refines_log|by intros p]
    |eapply answered_called; [done|by apply Extend_refines_log|by intros p]
    |destruct Hok; eapply answered_called; [done|by apply DeadLetter_refines_log|by intros p]
    |eapply answered_called; [done|by apply DeadLetters_refines_log|by intros p]
    |eapply answered_called; [done|by apply Requeue_refines_log|by intros p]
    |eapply answered_called; [done|by apply Stats_refines_log|by intros p]].
Qed.
End refine.
