(* ===== verification/LogConsumer.v ===== *)
(** * A consumer of a log

    The loop of a client on the public interface: [Log.Read] under a context that
    ends when there is nothing to read, [Log.Commit] with what it returned.  It
    is the consumer of Consumer.v, seen through [wrap], [unwrap] and [mapError]. *)
From S2P Require Import Prelude Errors Badger Store StoreSpec StoreRefine StoreHistory.
From S2P Require Import Dispatch DispatchInv DispatchOps DispatchTake DispatchFill DispatchCalls Queue QueueInv.
From S2P Require Import StoreLog QueueTheorems ReadRun Consumer Log LogRefine.
#[local] Open Scope Z_scope.

Definition deadline : goerr := Sentinel context_DeadlineExceeded.

Section drain.
Context {B : Badger} {BS : BadgerSpec B}.
Context {Rng : Type} (newReceipt : Rng → res Receipt * Rng) (visits : Dispatcher → list (Receipt * flight)).

(** One call of [Log.Read] at [now]; its context ends in its first wait. *)
Definition drain_read (now count : Z) (w : store_log) (l : logStream) (g : Rng)
    : option (store_log * logStream * Rng * res (list Delivery)) :=
  '(d, g, r) ← Read_turns newReceipt visits [(now, now, now, WaitContext deadline)] count w (l_dispatcher l) g;
  let '(w, l, r) := Log_Read None (λ _, (d, r)) w l in Some (w, l, g, r).

(** What was delivered and committed, and the error that ended the loop; no
    error when the clock ran out or a call of [Read] is still under way. *)
Fixpoint drain (clock : list Z) (count : Z) (w : store_log) (l : logStream) (g : Rng)
    : store_log * logStream * list Delivery * option goerr :=
  match clock with
  | [] => (w, l, [], None)
  | now :: clock =>
      match drain_read now count w l g with
      | None => (w, l, [], None)
      | Some (w, l, g, Err e) => (w, l, [], Some e)
      | Some (w, l, g, Ok deliveries) =>
          match Log_Commit None {| e_now := now; e_visits := visits (l_dispatcher l) |} deliveries w l with
          | (w, l, Err e) => (w, l, [], Some e)
          | (w, l, Ok _) => let '(w, l, more, err) := drain clock count w l g in (w, l, deliveries ++ more, err)
          end
      end
  end.
End drain.

(** ** Commit through the facade *)

Section commit.
Context {B : Badger} {BS : BadgerSpec B}.
Implicit Types (ds : list Dispatch.Delivery).

Lemma validate_unwrap inFlight seen l ds :
  validate_loop inFlight seen (unwrap_one ∘ wrap l <$> ds) = validate_loop inFlight seen ds.
Proof.
  revert seen. induction ds as [|dl ds IH]; intros seen; [done|].
  rewrite fmap_cons. cbn [validate_loop]. by rewrite IH.
Qed.

Lemma release_unwrap d l ds : foldl release d (unwrap_one ∘ wrap l <$> ds) = foldl release d ds.
Proof. revert d. induction ds as [|dl ds IH]; intros d; [done|]. cbn. apply IH. Qed.

Lemma commit_persist_store seqs (w : store_log) n :
  ∃ n', commit_persist seqs (w, n) = ((store_commit seqs w).1, n', (store_commit seqs w).2).
Proof.
  destruct w as [db s]. unfold commit_persist, store_commit. cbn. destruct (Store.Commit db s seqs) as [db' [e|]]; by eexists.
Qed.

(** The deliveries come back as [wrap] gave them out. *)
Lemma Commit_unwrap env d (w : store_log) n l ds :
  ∃ n', Commit commit_persist env d (w, n) (unwrap_one ∘ wrap l <$> ds)
        = let '(d', w', err) := Commit store_commit env d w ds in (d', (w', n'), err).
Proof.
  unfold Commit. destruct ds as [|dl ds]; [by exists n|]. rewrite fmap_cons.
  rewrite <- (fmap_cons (unwrap_one ∘ wrap l) dl ds).
  destruct (d_closed d); [by exists n|]. set (d1 := expireLocked _ _ _). unfold validateLocked. rewrite validate_unwrap.
  destruct (validate_loop _ _ (dl :: ds)) as [seqs|e]; [|by exists n].
  destruct (commit_persist_store seqs w n) as [n' ->]. exists n'. destruct (store_commit seqs w) as [w' [e|]]; [done|].
  cbn [fst snd]. by rewrite release_unwrap.
Qed.

Lemma Log_Commit_wrap env w l ds :
  l_closing l = false →
  let '(d', w', err) := Commit store_commit env (l_dispatcher l) w ds in
  ∃ l', Log_Commit None env (wrap l <$> ds) w l
        = (w', l', match err with Some e => Err (map_err e) | None => Ok tt end)
  ∧ l_dispatcher l' = d' ∧ l_closing l' = false ∧ l_self l' = l_self l.
Proof.
  intros Hc. unfold Log_Commit, call, begin, checkContext. rewrite Hc. set (l0 := with_active l _).
  change (wrap l <$> ds) with (wrap l0 <$> ds). rewrite unwrap_wrap.
  destruct (Commit_unwrap env (l_dispatcher l0) w (l_storageErrors l0) l0 ds) as [n' ->].
  change (l_dispatcher l0) with (l_dispatcher l).
  destruct (Commit store_commit env (l_dispatcher l) w ds) as [[d' w'] [e|]]; by eexists.
Qed.
End commit.

(** ** The simulation *)

(** What a consumer sees of a record. *)
Definition content : Type := Z * bytes * string * Z.
Definition delivery_content (dl : Delivery) : content :=
  (seq_of dl, td_Payload dl, td_OriginStream dl, td_OriginSeq dl).
Definition record_content (r : StoreRecord) : content := (r_Seq r, r_Payload r, r_OriginStream r, r_OriginSeq r).

Lemma wrap_content l (ds : list Dispatch.Delivery) : delivery_content <$> (wrap l <$> ds) = record_content <$> (dl_Record <$> ds).
Proof. rewrite <- !list_fmap_compose. by apply list_fmap_ext. Qed.

(** The same content is the same bytes under the same positions. *)
Lemma content_fields (ds : list Delivery) (records : list StoreRecord) :
  delivery_content <$> ds = record_content <$> records →
  td_Payload <$> ds = r_Payload <$> records ∧ td_Position <$> ds = (λ r, {| p_Seq := r_Seq r |}) <$> records.
Proof.
  revert records. induction ds as [|dl ds IH]; intros [|r records] H; try done.
  cbn in H. injection H as Hs Hp _ _ H. destruct (IH records H) as [H1 H2]. cbn. rewrite H1, H2, Hp. split; [done|].
  f_equal. unfold seq_of in Hs. destruct (td_Position dl). cbn in Hs. by rewrite Hs.
Qed.

Section sim.
Context {B : Badger} {BS : BadgerSpec B}.
Context {Rng : Type} (newReceipt : Rng → res Receipt * Rng) (visits : Dispatcher → list (Receipt * flight)).
Context (Hvisits : ∀ d, range_of (visits d) d).

Lemma drain_read_clear now count w l g :
  clear w (l_dispatcher l) → l_closing l = false → 0 < count →
  let '(d', g', out) := Read newReceipt visits [now; now] count w (l_dispatcher l) g in
  match out with
  | ReadDone r => ∃ l', drain_read newReceipt visits now count w l g
        = Some (w, l', g', match r with Ok ds => Ok (wrap l' <$> ds) | Err e => Err (map_err e) end)
      ∧ l_dispatcher l' = d' ∧ l_closing l' = false ∧ l_self l' = l_self l
  | ReadWaits _ => ∃ l', drain_read newReceipt visits now count w l g = Some (w, l', g', Err deadline)
      ∧ l_dispatcher l' = d' ∧ l_closing l' = false ∧ l_self l' = l_self l
  | ReadGoesOn => False
  end.
Proof.
  intros Hclear Hc Hcount. pose proof (Read_clear newReceipt visits Hvisits now count w (l_dispatcher l) g Hclear Hcount) as Hr.
  assert (Hlog : ∀ d' r, ∃ l', Log_Read None (λ _, (d', r)) w l
      = (w, l', match r with Ok ds => Ok (wrap l' <$> ds) | Err e => Err (map_err e) end)
    ∧ l_dispatcher l' = d' ∧ l_closing l' = false ∧ l_self l' = l_self l).
  { intros d' [ds|e]; unfold Log_Read, call, begin, checkContext; rewrite Hc;
      [by exists (end_ (with_dispatcher (with_active l (l_active l + 1)) d'))|].
    cbn zeta. match goal with |- context [if ?b then _ else _] => destruct b end; by eexists. }
  unfold drain_read. cbn [Read_turns].
  destruct (Read newReceipt visits [now; now] count w (l_dispatcher l) g) as [[d' g'] [r|wakeAt|]]; [| |destruct Hr].
  - destruct (Hlog d' r) as (l' & Hl & Hrest). exists l'. split; [|done]. cbn [mbind option_bind]. by rewrite Hl.
  - assert (Hz : wakeAt = zero_time) by apply Hr. subst wakeAt.
    destruct (Hlog d' (Err deadline)) as (l' & Hl & Hrest). exists l'. split; [|done].
    change (wait now zero_time (WaitContext deadline) d') with (Some (d', Some deadline)).
    cbn [mbind option_bind]. by rewrite Hl.
Qed.

(** The loop on the log does what the consumer of Consumer.v does on its
    dispatcher and its store. *)
Lemma drain_consume clock count w l g :
  clear w (l_dispatcher l) → l_closing l = false → 0 < count →
  let '(w1, d1, records, outcome) := consume newReceipt visits store_commit clock count w (l_dispatcher l) g in
  ∃ l' ds, drain newReceipt visits clock count w l g
    = (w1, l', ds, match outcome with Drained => Some deadline | Stopped e => Some (map_err e) | Unfinished => None end)
  ∧ delivery_content <$> ds = record_content <$> records ∧ ∀ dl, dl ∈ ds → td_owner dl = Some (l_self l).
Proof.
  revert w l g. induction clock as [|now clock IH]; intros w l g Hclear Hc Hcount; cbn [consume drain].
  { exists l, []. split_and!; [done|done|by intros ? ?%elem_of_nil]. }
  pose proof (drain_read_clear now count w l g Hclear Hc Hcount) as Hread.
  pose proof (Read_clear newReceipt visits Hvisits now count w (l_dispatcher l) g Hclear Hcount) as Hr.
  destruct (Read newReceipt visits [now; now] count w (l_dispatcher l) g) as [[d1 g1] [[ds|e]|wakeAt|]]; [| | |done].
  2-3: destruct Hread as (l1 & -> & _); exists l1, []; split_and!; [done|done|by intros ? ?%elem_of_nil].
  destruct Hread as (l1 & -> & <- & Hc1 & Hself). set (env := {| e_now := now; e_visits := visits (l_dispatcher l1) |}).
  pose proof (commit_clear visits Hvisits store_commit store_commit_completes_lemma now w (l_dispatcher l1) ds Hr) as Hcommit.
  pose proof (Log_Commit_wrap env w l1 ds Hc1) as Hlog. fold env in Hcommit.
  destruct (Commit store_commit env (l_dispatcher l1) w ds) as [[d2 w2] [e|]]; destruct Hlog as (l2 & -> & <- & Hc2 & Hself2).
  { exists l2, []. split_and!; [done|done|by intros ? ?%elem_of_nil]. }
  destruct Hcommit as (Hclear2 & _). specialize (IH w2 l2 g1 Hclear2 Hc2 Hcount).
  destruct (consume _ _ _ clock count w2 (l_dispatcher l2) g1) as [[[w3 d3] records] outcome].
  destruct IH as (l3 & ds3 & -> & Hcontent & Hown). exists l3, ((wrap l1 <$> ds) ++ ds3). split_and!; [done| |].
  - by rewrite !fmap_app, wrap_content, Hcontent.
  - intros dl [Hin|Hin]%elem_of_app; [|rewrite <- Hself, <- Hself2; by apply Hown].
    apply list_elem_of_fmap in Hin as (dl0 & -> & _). by rewrite <- Hself.
Qed.

(** The end of its context is no other error. *)
Lemma map_err_Errorf format causes s : map_err (Errorf format causes) ≠ Sentinel s.
Proof. unfold map_err, mapError. cbn [default]. by repeat case_match. Qed.

(** An error of the database as it leaves the store. *)
Definition storage_error (e : goerr) : Prop :=
  ∃ e', db_fails e'
    ∧ (e = e' ∨ errors_Is e' badger_ErrTxnTooBig = true ∧ e = Errorf "%w: %v" [Sentinel store_ErrBatchTooLarge]).

(** What ends a consumer early, with the store [w'] and the error [err] from its
    loop: an operation of the run returned the error, and it is the error of a
    receipt or one of the database. *)
Definition stopped_by (w w' : store_log) (err : goerr) : Prop :=
  consumer_error newReceipt store_commit w w' err ∧ (receipt_error newReceipt err ∨ storage_error err).

(** On a store without a [beforeCommit] hook nothing else does. *)
Lemma store_consumer_error w w2 e :
  consumer_error newReceipt store_commit w w2 e → s_beforeCommit w.2 = None → stopped_by w w2 e.
Proof.
  intros Hce Hhook. split; [done|]. destruct Hce as (w' & Hsteps & [q Ho] & Herr).
  assert (Hhook' : s_beforeCommit w'.2 = None).
  { clear Ho Herr. induction Hsteps as [|a b c [seqs Hab] _ IH]; [done|]. apply IH. rewrite <- Hhook.
    unfold store_commit in Hab. destruct (Store.Commit _ _ _) as [db' err]. by injection Hab as <- _. }
  destruct Herr as [[_ [?|(from & limit & records & Hfrom & Hlimit & Hscan)]]|(seqs & Hn & Hp & He)]; [by left|right..].
  - pose proof (ScanBatch_lemma w'.1 w'.2 q from limit Ho ltac:(unfold is_u64, max_uint64 in *; lia) Hlimit) as H.
    change (ScanBatch w'.1 w'.2 from limit) with (log_scan w' from limit) in H. rewrite Hscan in H. exists e. split; [done|by left].
  - destruct w' as [db s]. cbn in Ho, Hhook'. assert (Hcan : can_commit seqs q).
    { split; [done|]. intros seq Hin. by apply (opened_pending (db, s) q seq Ho), Hp. }
    assert (Hf : Forall is_u64 seqs) by (apply Forall_forall; intros seq Hin; by apply (log_pending_u64 (db, s)), Hp).
    pose proof (store_Commit_lemma db s q seqs Ho Hf) as H. unfold store_commit in He. cbn in He.
    destruct (Store.Commit db s seqs) as [db' [err|]]; [|done].
    injection He as _ ->. destruct H as (_ & err' & [[Hdb|Hbefore]|[_ H]] & ->); [| |done].
    { exists err'. split; [done|]. destruct (errors_Is err' badger_ErrTxnTooBig) eqn:Htoo; [by right|by left]. }
    unfold before_commit in Hbefore. by rewrite Hhook' in Hbefore.
Qed.
End sim.
