(* ===== verification/Factory.v ===== *)
(** * The factory (factory.go)

    [New], [Open], [RunMaintenance], the maintenance worker, [Stats] and [Close]
    as functions of the factory, the database and the store of option maps.  The
    locks make each of them atomic except [Close] and [RunMaintenance], whose
    interleavings are the subject of Lifecycle.v.  A caller of [Open] gets the
    name under which the factory holds the log. *)
From S2P Require Import Prelude Errors Keys Badger Store Backoff Dispatch StoreLog Options Log.
From S2P Require Import LogRefine.
#[local] Open Scope Z_scope.

(** [FactoryStats] *)
Record FactoryStats : Type := {
  fs_ValueLogGCRuns : Z;
  fs_ValueLogGCRewrites : Z;
  fs_ValueLogGCNoRewrite : Z;
  fs_ValueLogGCErrors : Z;
  fs_MaintenancePanics : Z
}.

(** [factory] without its locks and channels; [fa_loop] is whether [New] started
    the maintenance goroutine. *)
Record factory : Type := {
  fa_root : Root;
  fa_options : Options;
  fa_closed : bool;
  fa_closeErr : option goerr;
  fa_logs : gmap string logStream;
  fa_loop : bool;
  fa_gcRuns : Z;
  fa_gcRewrites : Z;
  fa_gcNoRewrite : Z;
  fa_gcErrors : Z;
  fa_maintenancePanics : Z
}.

Definition with_root (f : factory) (r : Root) : factory :=
  {| fa_root := r; fa_options := fa_options f; fa_closed := fa_closed f; fa_closeErr := fa_closeErr f;
     fa_logs := fa_logs f; fa_loop := fa_loop f; fa_gcRuns := fa_gcRuns f; fa_gcRewrites := fa_gcRewrites f;
     fa_gcNoRewrite := fa_gcNoRewrite f; fa_gcErrors := fa_gcErrors f; fa_maintenancePanics := fa_maintenancePanics f |}.
Definition with_logs (f : factory) (logs : gmap string logStream) : factory :=
  {| fa_root := fa_root f; fa_options := fa_options f; fa_closed := fa_closed f; fa_closeErr := fa_closeErr f;
     fa_logs := logs; fa_loop := fa_loop f; fa_gcRuns := fa_gcRuns f; fa_gcRewrites := fa_gcRewrites f;
     fa_gcNoRewrite := fa_gcNoRewrite f; fa_gcErrors := fa_gcErrors f; fa_maintenancePanics := fa_maintenancePanics f |}.
Definition with_close (f : factory) (closed : bool) (closeErr : option goerr) : factory :=
  {| fa_root := fa_root f; fa_options := fa_options f; fa_closed := closed; fa_closeErr := closeErr;
     fa_logs := fa_logs f; fa_loop := fa_loop f; fa_gcRuns := fa_gcRuns f; fa_gcRewrites := fa_gcRewrites f;
     fa_gcNoRewrite := fa_gcNoRewrite f; fa_gcErrors := fa_gcErrors f; fa_maintenancePanics := fa_maintenancePanics f |}.
(** The counters, each an atomic [uint64]. *)
Definition add_counters (f : factory) (runs rewrites noRewrite errors panics : Z) : factory :=
  {| fa_root := fa_root f; fa_options := fa_options f; fa_closed := fa_closed f; fa_closeErr := fa_closeErr f;
     fa_logs := fa_logs f; fa_loop := fa_loop f; fa_gcRuns := u64 (fa_gcRuns f + runs);
     fa_gcRewrites := u64 (fa_gcRewrites f + rewrites); fa_gcNoRewrite := u64 (fa_gcNoRewrite f + noRewrite);
     fa_gcErrors := u64 (fa_gcErrors f + errors); fa_maintenancePanics := u64 (fa_maintenancePanics f + panics) |}.

(** How a call that may panic ends. *)
Inductive outcome_of (A : Type) : Type :=
| Returned (a : A)
| Panicked (value : string).
Arguments Returned {A} a.
Arguments Panicked {A} value.

Section factory.
Context {B : Badger}.

(** [New]; [visits] is the order in which [range] visits the copy of the map of
    overrides. *)
Definition Factory_New (badger_Open : BadgerOptions → res DB) (visits : list (string * LogConfig)) (h : maps) (o : Options)
    : maps * res (DB * factory) :=
  let '(h, o) := New_options h o in
  match validateOptions visits o with
  | Some err => (h, Err err)
  | None =>
      match Open badger_Open (o_Dir o) with
      | Err err => (h, Err err)
      | Ok (db, root) =>
          (h, Ok (db, {| fa_root := root; fa_options := o; fa_closed := false; fa_closeErr := None; fa_logs := ∅;
                         fa_loop := 0 <? o_MaintenanceInterval o; fa_gcRuns := 0; fa_gcRewrites := 0;
                         fa_gcNoRewrite := 0; fa_gcErrors := 0; fa_maintenancePanics := 0 |}))
      end
  end.

(** [Open]; [self] is the address of the [logStream] it may allocate. *)
Definition Factory_Open (h : maps) (ctx : option goerr) (self : nat) (name : string) (db : DB) (f : factory)
    : DB * factory * res string :=
  match checkContext ctx with
  | Some err => (db, f, Err err)
  | None =>
      if fa_closed f then (db, f, Err (Sentinel ErrClosed))
      else
        match fa_logs f !! name with
        | Some _ => (db, f, Ok name)
        | None =>
            match Root_Stream db (fa_root f) name with
            | (db, root, Err err) => (db, with_root f root, Err (map_err err))
            | (db, root, Ok _) =>
                let f := with_root f root in
                let config := log_config h (fa_options f) name in
                match New false (dispatch_config config) with
                | Err err => (db, f, Err (map_err err))
                | Ok scheduler =>
                    (db, with_logs f (<[name := newLogStream self scheduler]> (fa_logs f)), Ok name)
                end
            end
        end
  end.

(** A method of the log [name], on the handle that the root holds for it. *)
Definition Factory_log (ctx : option goerr) (name : string) (op : log_op) (db : DB) (f : factory)
    : option (DB * factory * res log_result) :=
  l ← fa_logs f !! name;
  s ← root_streams (fa_root f) !! name;
  let '((db, s), l, r) := log_exec ctx op (db, s) l in
  let root := {| root_closed := root_closed (fa_root f); root_streams := <[name := s]> (root_streams (fa_root f)) |} in
  Some (db, with_logs (with_root f root) (<[name := l]> (fa_logs f)), r).

(** [Close] when no call is running, so that nothing has to be waited for. *)
Definition Factory_Close (ctx : option goerr) (db : DB) (f : factory) : DB * factory * option goerr :=
  match checkContext ctx with
  | Some err => (db, f, Some err)
  | None =>
      if fa_closed f then (db, f, fa_closeErr f)
      else
        let f := with_logs f (close_begin <$> fa_logs f) in
        let '(db, root, storageErr) := Root_Close db (fa_root f) in
        let closeErr := match storageErr with
                        | Some err => Some (Errorf "teak: close storage: %w" [err])
                        | None => None
                        end in
        (db, with_close (with_root f root) true closeErr, closeErr)
  end.

(** ** Maintenance

    [runGC] is the field of that name, [root.RunValueLogGC] in every factory that
    [New] returns; it may panic. *)
Section maintenance.
Context (runGC : float64 → DB → DB * outcome_of (option goerr)).

Definition RunMaintenance (ctx : option goerr) (db : DB) (f : factory) : DB * factory * outcome_of (option goerr) :=
  match checkContext ctx with
  | Some err => (db, f, Returned (Some err))
  | None =>
      if fa_closed f then (db, f, Returned (Some (Sentinel ErrClosed)))
      else
        let f := add_counters f 1 0 0 0 0 in
        match runGC (o_ValueLogGCDiscardRatio (fa_options f)) db with
        | (db, Panicked value) => (db, f, Panicked value)
        | (db, Returned None) => (db, add_counters f 0 1 0 0 0, Returned None)
        | (db, Returned (Some err)) =>
            if errors_Is err store_ErrNoRewrite then (db, add_counters f 0 0 1 0 0, Returned None)
            else (db, add_counters f 0 0 0 1 0, Returned (Some (Errorf "teak: value-log GC: %w" [err])))
        end
  end.

(** Whether the worker keeps waiting; a nil error matches no sentinel. *)
Definition runMaintenanceTick (ctx : option goerr) (db : DB) (f : factory) : DB * factory * bool :=
  match RunMaintenance ctx db f with
  | (db, f, Panicked _) => (db, add_counters f 0 0 0 0 1, true)
  | (db, f, Returned None) => (db, f, true)
  | (db, f, Returned (Some err)) => (db, f, negb (errors_Is err ErrClosed) && negb (errors_Is err context_Canceled))
  end.

(** What the worker's [select] receives: a tick, with the context as it is when
    the attempt starts, or the end of the context. *)
Inductive worker_event : Type :=
| WorkerDone
| WorkerTick (ctx : option goerr).

(** The worker on a sequence of events: whether it is still waiting. *)
Fixpoint maintenanceWorker (events : list worker_event) (db : DB) (f : factory) : DB * factory * bool :=
  match events with
  | [] => (db, f, true)
  | WorkerDone :: _ => (db, f, false)
  | WorkerTick ctx :: events =>
      let '(db, f, keepRunning) := runMaintenanceTick ctx db f in
      if keepRunning then maintenanceWorker events db f else (db, f, false)
  end.
End maintenance.

(** [root.RunValueLogGC] as the [runGC] of a factory. *)
Definition root_runGC (ratio : float64) (db : DB) : DB * outcome_of (option goerr) :=
  let '(db, err) := RunValueLogGC db ratio in (db, Returned err).

Definition Factory_Stats (f : factory) : FactoryStats :=
  {| fs_ValueLogGCRuns := fa_gcRuns f; fs_ValueLogGCRewrites := fa_gcRewrites f;
     fs_ValueLogGCNoRewrite := fa_gcNoRewrite f; fs_ValueLogGCErrors := fa_gcErrors f;
     fs_MaintenancePanics := fa_maintenancePanics f |}.
End factory.

(** ** What New makes *)

Lemma Factory_New_lemma {B : Badger} (badger_Open : BadgerOptions → res DB) (visits : list (string * LogConfig))
    (h h' : maps) (o : Options) (db : DB) (f : factory) :
  visits ≡ₚ map_to_list (logs_of (New_options h o).1 (New_options h o).2) →
  Factory_New badger_Open visits h o = (h', Ok (db, f)) →
  options_valid (logs_of h' (fa_options f)) (fa_options f)
  ∧ (∀ name, config_in_range (log_config h' (fa_options f) name)
       ∧ is_Ok (New false (dispatch_config (log_config h' (fa_options f) name))))
  ∧ (∃ opts, badger_Open opts = Ok db)
  ∧ fa_root f = {| root_closed := false; root_streams := ∅ |} ∧ fa_closed f = false ∧ fa_logs f = ∅.
Proof.
  intros Hv HN. unfold Factory_New in HN. destruct (New_options h o) as [h1 o1]. cbn [fst snd] in Hv.
  destruct (validateOptions visits o1) as [e|] eqn:Hval; [done|].
  destruct (Open badger_Open (o_Dir o1)) as [[db1 root]|e] eqn:Hopen; [|done]. injection HN as <- <- <-. cbn.
  apply (validateOptions_lemma visits _ o1 Hv) in Hval as [Hd Hdef Hi Hr Hl]. split; [done|]. split.
  - intros name. assert (Hin : config_in_range (log_config h1 o1 name)).
    { unfold log_config. destruct (logs_of h1 o1 !! name) as [config|] eqn:Hn; [by apply (Hl name config)|done]. }
    split; [done|]. unfold New. rewrite (proj2 (config_in_range_spec _) Hin). by eexists.
  - unfold Open in Hopen. case_bool_decide; [done|]. destruct (badger_Open _) as [db'|e] eqn:Hb; [|done].
    injection Hopen as <- <-. split_and!; [by eexists|done..].
Qed.
