(* ===== verification/FactoryHistory.v ===== *)
(** * Histories of the whole package

    A history is a sequence of calls through the public interface: [New], [Open],
    the methods of the logs, their [Close], [RunMaintenance] and the factory's
    [Close].  [New] starts a new process on what the database holds, after a
    [Close] or after a crash: the logs and their leases are forgotten.  The
    package refines a family of queues, one per name. *)
From S2P Require Import Prelude Errors Keys Badger Store StoreSpec StoreRefine StoreLoad StoreHistory.
From S2P Require Import Dispatch DispatchInv DispatchOps DispatchTake DispatchFill DispatchCalls Queue QueueInv.
From S2P Require Import StoreLog QueueTheorems ReadRun Options Log.
From S2P Require Import LogRefine Factory.
#[local] Open Scope Z_scope.

Section exec.
Context {B : Badger} {BS : BadgerSpec B}.

(** ** Events *)

Inductive event : Type :=
| EvNew (badger_Open : BadgerOptions → res DB) (visits : list (string * LogConfig)) (h : maps) (o : Options)
| EvOpen (ctx : option goerr) (self : nat) (name : string)
| EvLog (ctx : option goerr) (name : string) (op : log_op)
| EvCloseLog (ctx : option goerr) (name : string)
| EvMaintenance (ctx : option goerr)
| EvClose (ctx : option goerr).

(** A process: the maps of its options, the database, and the factory, if [New]
    made one. *)
Record process : Type := {
  pr_maps : maps;
  pr_db : DB;
  pr_factory : option factory
}.

Definition set_factory (p : process) (db : DB) (f : factory) : process :=
  {| pr_maps := pr_maps p; pr_db := db; pr_factory := Some f |}.

Definition done_or (err : option goerr) : res log_result := match err with None => Ok RDone | Some e => Err e end.

(** [None] when there is nothing to call: no factory, or no log of that name. *)
Definition process_exec (p : process) (ev : event) : option (process * res log_result) :=
  match ev with
  | EvNew badger_Open visits h o =>
      match Factory_New badger_Open visits h o with
      | (h, Ok (db, f)) => Some ({| pr_maps := h; pr_db := db; pr_factory := Some f |}, Ok RDone)
      | (h, Err e) => Some ({| pr_maps := h; pr_db := pr_db p; pr_factory := None |}, Err e)
      end
  | EvOpen ctx self name =>
      f ← pr_factory p;
      let '(db, f, r) := Factory_Open (pr_maps p) ctx self name (pr_db p) f in
      Some (set_factory p db f, done_or (error_of r))
  | EvLog ctx name op =>
      f ← pr_factory p;
      '(db, f, r) ← Factory_log ctx name op (pr_db p) f;
      Some (set_factory p db f, r)
  | EvCloseLog ctx name =>
      f ← pr_factory p;
      l ← fa_logs f !! name;
      let '(l, err) := Log_Close l ctx in
      Some (set_factory p (pr_db p) (with_logs f (<[name := l]> (fa_logs f))), done_or err)
  | EvMaintenance ctx =>
      f ← pr_factory p;
      match RunMaintenance root_runGC ctx (pr_db p) f with
      | (db, f, Returned err) => Some (set_factory p db f, done_or err)
      | (_, _, Panicked _) => None
      end
  | EvClose ctx =>
      f ← pr_factory p;
      let '(db, f, err) := Factory_Close ctx (pr_db p) f in
      Some (set_factory p db f, done_or err)
  end.

Fixpoint process_run (p : process) (evs : list event) : option (process * list (event * res log_result)) :=
  match evs with
  | [] => Some (p, [])
  | ev :: evs =>
      '(p, r) ← process_exec p ev;
      '(p, trace) ← process_run p evs;
      Some (p, (ev, r) :: trace)
  end.

(** What an event needs: its arguments are values of their types, a database that
    is opened again holds what was stored. *)
Definition event_ok (p : process) (ev : event) : Prop :=
  match ev with
  | EvNew badger_Open visits h o =>
      (∀ opts db, badger_Open opts = Ok db → db_map db = db_map (pr_db p))
      ∧ visits ≡ₚ map_to_list (logs_of (New_options h o).1 (New_options h o).2)
  | EvLog _ name op =>
      ∀ f l s, pr_factory p = Some f → fa_logs f !! name = Some l → root_streams (fa_root f) !! name = Some s →
        op_ok (pr_db p, s) l op
  | _ => True
  end.

(** Every event of the run has something to call, with arguments that are ok. *)
Fixpoint run_ok (p : process) (evs : list event) : Prop :=
  match evs with
  | [] => True
  | ev :: evs => event_ok p ev ∧ match process_exec p ev with Some (p, _) => run_ok p evs | None => False end
  end.

(** ** The abstract history *)

(** Only calls that return nil count. *)
Definition event_effect (qs : gmap string queue) (entry : event * res log_result) : gmap string queue :=
  match entry with
  | (EvLog _ name op, Ok _) => <[name := log_effect name op (queue_of qs name)]> qs
  | _ => qs
  end.

Definition trace_effect (qs : gmap string queue) (trace : list (event * res log_result)) : gmap string queue :=
  foldl event_effect qs trace.

(** What the caller got: the answers of the queue, and public errors. *)
Definition event_answer (qs : gmap string queue) (entry : event * res log_result) : Prop :=
  match entry with
  | (EvLog _ name op, Ok a) => ∃ self, log_answer self (queue_of qs name) op a
  | (EvLog ctx _ op, Err e) => op_ctx ctx op = None → public e
  | (EvOpen ctx _ _, Err e) => ctx = None → public e
  | _ => True
  end.

Fixpoint answers (qs : gmap string queue) (trace : list (event * res log_result)) : Prop :=
  match trace with
  | [] => True
  | entry :: trace => event_answer qs entry ∧ answers (event_effect qs entry) trace
  end.
End exec.

(** ** The invariant *)

Section inv.
Context {B : Badger} {BS : BadgerSpec B}.
Implicit Types (qs : gmap string queue) (db : DB) (f : factory) (p : process).

Record factory_inv qs (h : maps) db f : Prop := {
  fv_rep name : valid_name name → represents name (db_map db) (queue_of qs name);
  fv_handle name s : root_streams (fa_root f) !! name = Some s →
    valid_name name ∧ s = {| s_name := name; s_tail := q_tail (queue_of qs name); s_beforeCommit := None |};
  fv_log name l : fa_logs f !! name = Some l →
    ∃ s, root_streams (fa_root f) !! name = Some s ∧ log_inv (queue_of qs name) (db, s) l
         ∧ (fa_closed f = true → l_closing l = true);
  fv_closed : fa_closed f = root_closed (fa_root f);
  fv_config name : is_Ok (New false (dispatch_config (log_config h (fa_options f) name)))
}.

Record process_inv qs p : Prop := {
  pv_rep name : valid_name name → represents name (db_map (pr_db p)) (queue_of qs name);
  pv_factory f : pr_factory p = Some f → factory_inv qs (pr_maps p) (pr_db p) f
}.

(** A family counts up to its queues. *)
Lemma factory_inv_ext qs qs' h db f :
  (∀ name, queue_of qs' name = queue_of qs name) → factory_inv qs h db f → factory_inv qs' h db f.
Proof.
  intros He [H1 H2 H3 H4 H5]. split; [intros name; rewrite He; auto|..|done|done].
  - intros name s Hs. rewrite He. auto.
  - intros name l Hl. rewrite He. auto.
Qed.

Lemma factory_process qs p db f : factory_inv qs (pr_maps p) db f → process_inv qs (set_factory p db f).
Proof. intros Hf. split; [apply Hf|]. by intros ? [= <-]. Qed.

Lemma factory_opened qs h db f name s :
  factory_inv qs h db f → root_streams (fa_root f) !! name = Some s → opened db s (queue_of qs name).
Proof. intros Hf Hs. destruct (fv_handle _ _ _ _ Hf _ _ Hs) as [Hv ->]. split_and!; [done|by apply Hf|done]. Qed.

(** A database with the same contents. *)
Lemma factory_inv_db qs h db db' f : db_map db' = db_map db → factory_inv qs h db f → factory_inv qs h db' f.
Proof.
  intros Hm Hf. pose proof Hf as [H1 H2 H3 H4 H5]. split; [intros name; rewrite Hm; auto|done| |done|done].
  intros name l Hl. destruct (H3 name l Hl) as (s & Hs & Hi & Hc). exists s. split_and!; [done| |done].
  by apply (log_inv_unchanged _ db).
Qed.

(** Another service of the factory: its counters. *)
Lemma factory_inv_counters qs h db f a b c d e : factory_inv qs h db f → factory_inv qs h db (add_counters f a b c d e).
Proof. by intros []. Qed.

(** ** One log moves *)

Lemma represents_moved qs name other db db' (s s' : Stream) :
  represents other (db_map db) (queue_of qs other) → valid_name name → valid_name other → name ≠ other →
  s_name s = name → only_stream (db, s) (db', s') → represents other (db_map db') (queue_of qs other).
Proof. intros Hr Hn Ho Hne Hs [_ H]. cbn in H. rewrite Hs in H. by apply (represents_other other name (db_map db)). Qed.

Definition with_stream (f : factory) (name : string) (s : Stream) (l : logStream) : factory :=
  with_logs (with_root f {| root_closed := root_closed (fa_root f); root_streams := <[name := s]> (root_streams (fa_root f)) |})
    (<[name := l]> (fa_logs f)).

Lemma factory_inv_log qs h db f name s l db' s' l' q' :
  factory_inv qs h db f → root_streams (fa_root f) !! name = Some s →
  fa_logs f !! name = Some l → log_inv q' (db', s') l' → only_stream (db, s) (db', s') → l_closing l' = l_closing l →
  factory_inv (<[name := q']> qs) h db' (with_stream f name s' l').
Proof.
  intros Hf Hs Hl Hi Hos Hc. destruct (fv_handle _ _ _ _ Hf _ _ Hs) as [Hv Heq]. pose proof Hf as [H1 H2 H3 H4 H5].
  assert (Hname : s_name s = name) by (by rewrite Heq).
  assert (Hs' : s' = {| s_name := name; s_tail := q_tail q'; s_beforeCommit := None |}).
  { destruct Hos as [Hh _]. destruct (li_store _ _ _ Hi) as (_ & _ & Ht). cbn in Hh, Ht. by rewrite Hh, Heq, Ht. }
  assert (Hrep' : represents name (db_map db') q').
  { destruct (li_store _ _ _ Hi) as (_ & Hr & _). cbn in Hr. by rewrite Hs' in Hr. }
  assert (Hother : ∀ other, valid_name other → name ≠ other → represents other (db_map db') (queue_of qs other)).
  { intros other Ho Hne. by eapply (represents_moved qs name other db); [apply H1|..]. }
  split; [| | |done|done].
  - intros other Ho. destruct (decide (name = other)) as [<-|Hne]; [by rewrite queue_of_insert|].
    rewrite queue_of_insert_ne by done. by apply Hother.
  - intros other s2. cbn. rewrite lookup_insert. case_decide as He.
    + subst other. intros [= <-]. rewrite queue_of_insert. done.
    + intros Hs2. rewrite queue_of_insert_ne by done. by apply H2.
  - intros other l2. cbn. rewrite lookup_insert. case_decide as He.
    + subst other. intros [= <-]. exists s'. rewrite lookup_insert_eq, queue_of_insert.
      destruct (H3 name l Hl) as (_ & _ & _ & Hcl). split_and!; [done|done|]. rewrite Hc. apply Hcl.
    + intros Hl2. destruct (H3 other l2 Hl2) as (s2 & Hs2 & Hi2 & Hcl). exists s2. rewrite lookup_insert_ne, queue_of_insert_ne by done.
      split_and!; [done| |done]. apply (log_inv_opened _ (db, s2)); [|done].
      destruct (H2 other s2 Hs2) as [Hv2 Heq2]. rewrite Heq2. split_and!; [done|by apply Hother|done].
Qed.

Lemma Factory_log_lemma qs h db f ctx name op :
  factory_inv qs h db f →
  (∀ l s, fa_logs f !! name = Some l → root_streams (fa_root f) !! name = Some s → op_ok (db, s) l op) →
  match Factory_log ctx name op db f with
  | Some (db', f', r) =>
      factory_inv (event_effect qs (EvLog ctx name op, r)) h db' f' ∧ event_answer qs (EvLog ctx name op, r)
  | None => fa_logs f !! name = None
  end.
Proof.
  intros Hf Hok. unfold Factory_log. destruct (fa_logs f !! name) as [l|] eqn:Hl; [|done]. cbn [mbind option_bind].
  destruct (fv_log _ _ _ _ Hf name l Hl) as (s & Hs & Hi & _). rewrite Hs. cbn [mbind option_bind].
  pose proof (log_exec_lemma ctx op _ _ _ Hi (Hok l s eq_refl Hs)) as H.
  destruct (log_exec ctx op (db, s) l) as [[[db' s'] l'] r]. destruct H as (Hi' & Hos & _ & _ & Hc & _ & Ha).
  destruct (fv_handle _ _ _ _ Hf _ _ Hs) as [_ Heq].
  assert (Hn : s_name s = name) by (by rewrite Heq). cbn [snd] in Hi'. rewrite Hn in Hi'.
  pose proof (factory_inv_log qs h db f name s l db' s' l' _ Hf Hs Hl Hi' Hos Hc) as Hf'.
  destruct r as [a|e]; cbn [event_effect event_answer].
  - split; [exact Hf'|]. by exists (l_self l).
  - split; [|exact Ha]. eapply factory_inv_ext; [|exact Hf']. intros other. symmetry. apply insert_queue_of_lookup.
Qed.
(** ** Opening *)

Lemma Root_Stream_keeps db r name db' r' res other s :
  Root_Stream db r name = (db', r', res) → root_streams r !! other = Some s → root_streams r' !! other = Some s.
Proof.
  unfold Root_Stream. destruct (ValidateStreamName name); [by intros [= <- <- <-]|].
  destruct (root_closed r); [by intros [= <- <- <-]|].
  destruct (root_streams r !! name) as [s0|] eqn:Hs; [by intros [= <- <- <-]|].
  destruct (load _ _) as [[db1 s1] [e|]]; [by intros [= <- <- <-]|]. intros [= <- <- <-] Ho. cbn.
  rewrite lookup_insert_ne; [done|]. congruence.
Qed.

Lemma factory_sim qs h db f : factory_inv qs h db f → fa_closed f = false → sim db (fa_root f) qs.
Proof. intros [H1 H2 _ H4 _] Hc. split; [done|done|congruence]. Qed.

Lemma factory_inv_root qs h db f db' r' :
  factory_inv qs h db f → fa_closed f = false → sim db' r' qs →
  (∀ other s, root_streams (fa_root f) !! other = Some s → root_streams r' !! other = Some s) →
  factory_inv qs h db' (with_root f r').
Proof.
  intros Hf Hc Hsim Hkeep. pose proof Hf as [H1 H2 H3 H4 H5]. split; [apply Hsim|apply Hsim| |cbn|done].
  - intros name l Hl. destruct (H3 name l Hl) as (s & Hs%Hkeep & Hi & Hcl). exists s. split_and!; [done| |done].
    apply (log_inv_opened _ (db, s)); [|done]. exact (sim_opened db' r' qs name s Hsim Hs).
  - rewrite Hc. symmetry. apply Hsim.
Qed.

(** What a call of [Open] that returned a log leaves behind. *)
Definition just_opened h (self : nat) (name : string) f f' : Prop :=
  fa_logs f !! name = None →
  ∃ d, New false (dispatch_config (log_config h (fa_options f) name)) = Ok d
       ∧ fa_logs f' !! name = Some (newLogStream self d).

Lemma Factory_Open_lemma qs h db f ctx self name :
  factory_inv qs h db f →
  let '(db', f', r) := Factory_Open h ctx self name db f in
  factory_inv qs h db' f'
  ∧ match r with Ok _ => just_opened h self name f f' | Err e => ctx = None → public e end.
Proof.
  intros Hf. unfold Factory_Open, checkContext. destruct ctx as [e|]; [done|].
  destruct (fa_closed f) eqn:Hc; [split; [done|]; intros _; by apply public_sentinel|].
  destruct (fa_logs f !! name) as [l|] eqn:Hl; [split; [done|]; unfold just_opened; congruence|].
  pose proof (Root_Stream_sim db (fa_root f) qs name (factory_sim qs h db f Hf Hc)) as Hsim.
  pose proof (λ db' r' res other s, Root_Stream_keeps db (fa_root f) name db' r' res other s) as Hkeep.
  destruct (Root_Stream db (fa_root f) name) as [[db' r'] [n|e]].
  2: { split; [|intros _; apply public_map]. eapply factory_inv_root; [done|done|by destruct Hsim|]. intros. by eapply Hkeep. }
  destruct Hsim as (-> & Hsim & [s Hs]).
  assert (Hf' : factory_inv qs h db' (with_root f r')).
  { eapply factory_inv_root; [done|done|done|]. intros. by eapply Hkeep. }
  destruct (fv_config _ _ _ _ Hf name) as [d Hd]. cbn [fa_options with_root]. rewrite Hd. split.
  - pose proof Hf' as [H1 H2 H3 H4 H5]. split; [done|done| |done|done]. intros other l. cbn. rewrite lookup_insert.
    case_decide as He; [|by apply H3]. subst other. intros [= <-]. exists s. split_and!; [done| |cbn; congruence].
    pose proof (sim_opened _ _ _ _ _ Hsim Hs) as Ho. split; [done|].
    exact (sys_init_inv (db', s) d _ (ex_intro _ _ Ho) Hd).
  - intros _. exists d. split; [done|]. cbn. by rewrite lookup_insert_eq.
Qed.

(** ** New *)

Lemma Factory_New_inv qs db badger_Open visits h o :
  (∀ name, valid_name name → represents name (db_map db) (queue_of qs name)) →
  (∀ opts db', badger_Open opts = Ok db' → db_map db' = db_map db) →
  visits ≡ₚ map_to_list (logs_of (New_options h o).1 (New_options h o).2) →
  match Factory_New badger_Open visits h o with
  | (h', Ok (db', f)) => factory_inv qs h' db' f
  | (_, Err _) => True
  end.
Proof.
  intros Hrep Hopen Hv. destruct (Factory_New badger_Open visits h o) as [h' [[db' f]|e]] eqn:HN; [|done].
  destruct (Factory_New_lemma _ _ _ _ _ _ _ Hv HN) as (_ & Hcfg & [opts Ho] & Hroot & Hc & Hl).
  rewrite <- (Hopen opts db' Ho) in Hrep. split; rewrite ?Hroot, ?Hc, ?Hl; try done. intros name. apply Hcfg.
Qed.

(** ** Closing *)

Lemma close_begin_inv q w l : log_inv q w l → log_inv q w (close_begin l) ∧ l_closing (close_begin l) = true.
Proof.
  intros Hi. unfold close_begin. destruct (l_closing l) eqn:Hc; [done|]. split; [|done].
  pose proof (li_dispatch _ _ _ Hi) as Hd. unfold Close.
  destruct (d_closed (l_dispatcher l)); (apply (log_inv_quiet q w l); cbn; [done| |done]); [done|].
  by apply (same_lanes_inv (l_dispatcher l)).
Qed.

(** The logs become other ones that are consistent with the same queues. *)
Lemma factory_inv_logs qs h db f db' f' :
  factory_inv qs h db f → db_map db' = db_map db →
  root_streams (fa_root f') = root_streams (fa_root f) → fa_options f' = fa_options f →
  fa_closed f' = root_closed (fa_root f') →
  (∀ name l', fa_logs f' !! name = Some l' → ∃ l, fa_logs f !! name = Some l
     ∧ (l' = l ∨ l' = close_begin l) ∧ (fa_closed f' = true → l_closing l' = true)) →
  factory_inv qs h db' f'.
Proof.
  intros Hf Hm Hr Ho Hc Hlogs. pose proof Hf as [H1 H2 H3 H4 H5]. split; rewrite ?Hm, ?Hr, ?Ho; [done|done| |done|done].
  intros name l' Hl'. destruct (Hlogs name l' Hl') as (l & Hl & Hor & Hcl).
  destruct (H3 name l Hl) as (s & Hs & Hi & _). exists s. split_and!; [done| |done].
  apply (log_inv_unchanged _ db); [done|]. destruct Hor as [->| ->]; [done|by apply close_begin_inv].
Qed.

Lemma close_begin_closing l : l_closing (close_begin l) = true.
Proof. unfold close_begin. by destruct (l_closing l) eqn:Hc. Qed.

Lemma Factory_Close_inv qs h db f ctx :
  factory_inv qs h db f →
  let '(db', f', err) := Factory_Close ctx db f in factory_inv qs h db' f'.
Proof.
  intros Hf. unfold Factory_Close, checkContext. destruct ctx as [e|]; [done|].
  destruct (fa_closed f) eqn:Hc; [done|]. cbn [with_logs fa_root]. unfold Root_Close.
  rewrite <- (fv_closed _ _ _ _ Hf), Hc. pose proof (Close_spec db) as Hm. destruct (db_Close db) as [db' err]. cbn in Hm.
  apply (factory_inv_logs qs h db f); [done|done|done|done|done|]. intros name l'. cbn. rewrite lookup_fmap.
  destruct (fa_logs f !! name) as [l|]; [|done]. intros [= <-]. exists l. split_and!; [done|by right|].
  intros _. apply close_begin_closing.
Qed.

Lemma RunMaintenance_inv qs h db f ctx :
  factory_inv qs h db f →
  match RunMaintenance root_runGC ctx db f with
  | (db', f', Returned _) => factory_inv qs h db' f'
  | (_, _, Panicked _) => False
  end.
Proof.
  intros Hf. unfold RunMaintenance, checkContext. destruct ctx as [e|]; [done|]. destruct (fa_closed f); [done|].
  unfold root_runGC, RunValueLogGC. set (f1 := add_counters _ _ _ _ _ _).
  pose proof (GC_spec db (o_ValueLogGCDiscardRatio (fa_options f1))) as Hm.
  assert (Hf1 : ∀ a b c d e db', db_map db' = db_map db → factory_inv qs h db' (add_counters f1 a b c d e)).
  { intros. by apply factory_inv_counters, factory_inv_counters, (factory_inv_db _ _ db). }
  destruct (db_RunValueLogGC db _) as [db' [e|]]; cbn in Hm; [|by apply Hf1].
  destruct (errors_Is _ store_ErrNoRewrite); by apply Hf1.
Qed.
End inv.

(** ** The refinement *)

Section run.
Context {B : Badger} {BS : BadgerSpec B}.

Lemma process_exec_lemma qs p ev :
  process_inv qs p → event_ok p ev →
  match process_exec p ev with
  | Some (p', r) => process_inv (event_effect qs (ev, r)) p' ∧ event_answer qs (ev, r)
  | None => True
  end.
Proof.
  intros [Hrep Hfac] Hok. destruct ev as [badger_Open visits h o|ctx self name|ctx name op|ctx name|ctx|ctx]; cbn in Hok |- *.
  { destruct Hok as [Hopen Hv]. pose proof (Factory_New_inv qs (pr_db p) badger_Open visits h o Hrep Hopen Hv) as H.
    destruct (Factory_New _ _ _ _) as [h' [[db' f]|e]]; (split; [|done]); split; try done; [apply H|by intros ? [= <-]]. }
  all: destruct (pr_factory p) as [f|]; [|done]; cbn; specialize (Hfac f eq_refl).
  - pose proof (Factory_Open_lemma qs _ _ f ctx self name Hfac) as H.
    destruct (Factory_Open _ _ _ _ _ _) as [[db' f'] r]. destruct H as [Hf' Hr].
    destruct r; (split; [by apply factory_process|done]).
  - pose proof (Factory_log_lemma qs _ _ f ctx name op Hfac (λ l s, Hok f l s eq_refl)) as H.
    destruct (Factory_log _ _ _ _ _) as [[[db' f'] r]|]; [|done]. destruct H. split; [by apply factory_process|done].
  - destruct (fa_logs f !! name) as [l|] eqn:Hl; [|done]. cbn. unfold Log_Close, checkContext.
    assert (Hgo : ∀ l', l' = l ∨ l' = close_begin l →
      process_inv qs (set_factory p (pr_db p) (with_logs f (<[name := l']> (fa_logs f))))).
    { intros l' Hl'. apply factory_process. apply (factory_inv_logs qs _ (pr_db p) f); [done|done|done|done|apply Hfac|].
      intros other l2. cbn. rewrite lookup_insert. case_decide as He.
      - subst other. intros [= <-]. exists l. split_and!; [done|done|]. intros Hc.
        destruct Hl' as [->| ->]; [|apply close_begin_closing]. destruct (fv_log _ _ _ _ Hfac name l Hl) as (_ & _ & _ & H). auto.
      - intros Hl2. exists l2. split_and!; [done|by left|]. intros Hc.
        destruct (fv_log _ _ _ _ Hfac other l2 Hl2) as (_ & _ & _ & H). auto. }
    destruct ctx; (split; [|done]); apply Hgo; [by left|by right].
  - pose proof (RunMaintenance_inv qs _ _ f ctx Hfac) as H.
    destruct (RunMaintenance _ _ _ _) as [[db' f'] [err|v]]; [|done]. split; [by apply factory_process|by destruct err].
  - pose proof (Factory_Close_inv qs _ _ f ctx Hfac) as H. destruct (Factory_Close _ _ _) as [[db' f'] err].
    split; [by apply factory_process|by destruct err].
Qed.

Lemma process_run_lemma qs p evs :
  process_inv qs p → run_ok p evs →
  ∃ p' trace, process_run p evs = Some (p', trace) ∧ process_inv (trace_effect qs trace) p' ∧ answers qs trace.
Proof.
  revert qs p. induction evs as [|ev evs IH]; intros qs p Hp Hok; cbn [run_ok process_run] in *.
  { by exists p, []. }
  destruct Hok as [Hev Hok]. pose proof (process_exec_lemma qs p ev Hp Hev) as H.
  destruct (process_exec p ev) as [[p1 r]|]; [|done]. destruct H as [Hp1 Ha].
  destruct (IH _ p1 Hp1 Hok) as (p' & trace & Hrun & Hp' & Has). exists p', ((ev, r) :: trace).
  split; [|done]. cbn. by rewrite Hrun.
Qed.
End run.
