(* ===== verification/Typed.v ===== *)
(** * The typed wrapper (typed/typed.go)

    A typed log is a codec in front of a byte log.  The codec is the caller's and
    may fail or panic; [safeEncode] and [safeDecode] turn a panic into an error.
    [JSONCodec] is the standard library's JSON and is not modelled: it is one of
    the codecs.  A method of the byte log is an argument, on the state of the
    program. *)
From S2P Require Import Prelude Errors Keys Dispatch Log Factory.
#[local] Open Scope Z_scope.

(** [Codec[T]]; either method may panic. *)
Record Codec (T : Type) : Type := {
  Encode : T → outcome_of (res bytes);
  Decode : bytes → outcome_of (res T)
}.
Arguments Encode {T}.
Arguments Decode {T}.

(** [typed.Delivery[T]] *)
Record TDelivery (T : Type) : Type := {
  yd_Position : Position;
  yd_Value : T;
  yd_Attempt : Z;
  yd_Deadline : Z;
  yd_OriginStream : string;
  yd_OriginSeq : Z;
  yd_raw : Delivery
}.
Arguments yd_Position {T}. Arguments yd_Value {T}. Arguments yd_Attempt {T}. Arguments yd_Deadline {T}.
Arguments yd_OriginStream {T}. Arguments yd_OriginSeq {T}. Arguments yd_raw {T}.

(** [typed.DeadLetter[T]] *)
Record TDeadLetter (T : Type) : Type := {
  yl_Position : Position;
  yl_Value : T;
  yl_Reason : string;
  yl_CreatedAt : Z;
  yl_DeadLetteredAt : Z;
  yl_OriginStream : string;
  yl_OriginSeq : Z;
  yl_raw : DeadLetter
}.
Arguments yl_Position {T}. Arguments yl_Value {T}. Arguments yl_Reason {T}. Arguments yl_CreatedAt {T}.
Arguments yl_DeadLetteredAt {T}. Arguments yl_OriginStream {T}. Arguments yl_OriginSeq {T}. Arguments yl_raw {T}.

(** What the readers return besides a value: an error of the byte log, or the
    [DecodeError] (for dead letters the [DeadLetterDecodeError]) with the raw
    page, the index and the codec's error. *)
Inductive read_error (D : Type) : Type :=
| RawError (err : goerr)
| DecodeError (Deliveries : list D) (Index : Z) (Err : goerr).
Arguments RawError {D} err.
Arguments DecodeError {D} Deliveries Index Err.

Section typed.
Context {T : Type} (codec : Codec T).

Definition safeEncode (value : T) : res bytes :=
  match Encode codec value with
  | Returned r => r
  | Panicked recovered => Err (CodecPanicError "encode" recovered)
  end.

Definition safeDecode (data : bytes) : res T :=
  match Decode codec data with
  | Returned r => r
  | Panicked recovered => Err (CodecPanicError "decode" recovered)
  end.

(** [Write]; [raw] is the byte log's [Write] on the state [W] of the program. *)
Definition Typed_Write {W : Type} (raw : bytes → W → W * res Position) (value : T) (w : W) : W * res Position :=
  match safeEncode value with
  | Err err => (w, Err (Errorf "typed: encode: %w" [err]))
  | Ok data => raw data w
  end.

(** The loop of [BatchWrite]. *)
Fixpoint encode_all (values : list T) : res (list bytes) :=
  match values with
  | [] => Ok []
  | value :: values =>
      match safeEncode value with
      | Err err => Err (Errorf "typed: encode value %d: %w" [err])
      | Ok encoded => data ← encode_all values; Ok (encoded :: data)
      end
  end.

Definition Typed_BatchWrite {W : Type} (raw : list bytes → W → W * res (list Position)) (values : list T) (w : W)
    : W * res (list Position) :=
  match encode_all values with
  | Err err => (w, Err err)
  | Ok data => raw data w
  end.

Definition typed_delivery (value : T) (delivery : Delivery) : TDelivery T :=
  {| yd_Position := td_Position delivery; yd_Value := value; yd_Attempt := td_Attempt delivery;
     yd_Deadline := td_Deadline delivery; yd_OriginStream := td_OriginStream delivery;
     yd_OriginSeq := td_OriginSeq delivery; yd_raw := delivery |}.

Definition typed_dead_letter (value : T) (deadLetter : DeadLetter) : TDeadLetter T :=
  {| yl_Position := tl_Position deadLetter; yl_Value := value; yl_Reason := tl_Reason deadLetter;
     yl_CreatedAt := tl_CreatedAt deadLetter; yl_DeadLetteredAt := tl_DeadLetteredAt deadLetter;
     yl_OriginStream := tl_OriginStream deadLetter; yl_OriginSeq := tl_OriginSeq deadLetter; yl_raw := deadLetter |}.

(** The loops of [Read] and [DeadLetters], which differ in their types only:
    the index and the codec's error where decoding fails. *)
Fixpoint decode_loop {D R : Type} (payload : D → bytes) (make : T → D → R) (index : Z) (raw : list D)
    : list R + (Z * goerr) :=
  match raw with
  | [] => inl []
  | delivery :: raw =>
      match safeDecode (payload delivery) with
      | Err decodeErr => inr (index, decodeErr)
      | Ok value =>
          match decode_loop payload make (index + 1) raw with
          | inl decoded => inl (make value delivery :: decoded)
          | inr failed => inr failed
          end
      end
  end.

Definition decode_page {D R : Type} (payload : D → bytes) (make : T → D → R) (r : res (list D))
    : result (read_error D) (list R) :=
  match r with
  | Err err => Err (RawError err)
  | Ok raw =>
      match decode_loop payload make 0 raw with
      | inr (index, decodeErr) => Err (DecodeError raw index decodeErr)
      | inl decoded => Ok decoded
      end
  end.

Definition Typed_Read (r : res (list Delivery)) : result (read_error Delivery) (list (TDelivery T)) :=
  decode_page td_Payload typed_delivery r.

Definition Typed_DeadLetters (r : res (list DeadLetter)) : result (read_error DeadLetter) (list (TDeadLetter T)) :=
  decode_page tl_Payload typed_dead_letter r.

(** [New]: whether the log and the codec are nil. *)
Definition Typed_New (rawNil codecNil : bool) : option goerr :=
  if rawNil || codecNil then Some (NewError "typed: raw log and codec are required") else None.

(** [unwrap]: what [Commit], [Retry] and [Extend] pass to the byte log. *)
Definition typed_unwrap (deliveries : list (TDelivery T)) : list Delivery := yd_raw <$> deliveries.

(** The methods that hand the raw records back to the byte log. *)
Definition Typed_Commit {W : Type} (raw : list Delivery → W → W * res unit) (deliveries : list (TDelivery T)) : W → W * res unit :=
  raw (typed_unwrap deliveries).
Definition Typed_Retry {W : Type} (raw : list Delivery → W → W * res unit) (deliveries : list (TDelivery T)) : W → W * res unit :=
  raw (typed_unwrap deliveries).
Definition Typed_Extend {W : Type} (raw : Z → list Delivery → W → W * res unit) (extension : Z)
    (deliveries : list (TDelivery T)) : W → W * res unit :=
  raw extension (typed_unwrap deliveries).
Definition Typed_DeadLetter {W : Type} (raw : Delivery → string → W → W * res unit) (delivery : TDelivery T)
    (reason : string) : W → W * res unit :=
  raw (yd_raw delivery) reason.
Definition Typed_Requeue {W : Type} (raw : DeadLetter → W → W * res Position) (deadLetter : TDeadLetter T)
    : W → W * res Position :=
  raw (yl_raw deadLetter).
End typed.

(** ** Lemmas *)

Section lemmas.
Context {T : Type} (codec : Codec T).

(** Every record of a decoded page is its raw record with its decoded value; a
    failure names the first record that does not decode. *)
Lemma decode_loop_lemma {D R : Type} (payload : D → bytes) (make : T → D → R) (index : Z) (raw : list D) :
  match decode_loop codec payload make index raw with
  | inl decoded => Forall2 (λ delivery r, ∃ value, safeDecode codec (payload delivery) = Ok value ∧ r = make value delivery) raw decoded
  | inr (i, err) => ∃ k delivery, i = index + Z.of_nat k ∧ raw !! k = Some delivery
      ∧ safeDecode codec (payload delivery) = Err err
      ∧ ∀ j before, (j < k)%nat → raw !! j = Some before → is_Ok (safeDecode codec (payload before))
  end.
Proof.
  revert index. induction raw as [|d raw IH]; intros index; cbn [decode_loop]; [constructor|].
  destruct (safeDecode codec (payload d)) as [value|e] eqn:Hd.
  - specialize (IH (index + 1)). destruct (decode_loop codec payload make (index + 1) raw) as [decoded|[i e]].
    + constructor; [by exists value|done].
    + destruct IH as (k & d' & -> & Hk & He & Hb). exists (S k), d'. split_and!; [lia|done|done|].
      intros [|j] before Hj; cbn; [|apply Hb; lia]. intros [= <-]. by exists value.
  - exists 0%nat, d. split_and!; [lia|done|done|]. intros j before Hj. lia.
Qed.

Lemma encode_all_lemma values :
  match encode_all codec values with
  | Ok data => Forall2 (λ value encoded, safeEncode codec value = Ok encoded) values data
  | Err _ => ∃ value err, value ∈ values ∧ safeEncode codec value = Err err
  end.
Proof.
  induction values as [|v values IH]; cbn [encode_all]; [constructor|].
  destruct (safeEncode codec v) as [encoded|e] eqn:He; [|exists v, e; split; [by left|done]].
  destruct (encode_all codec values) as [data|e]; cbn.
  - by constructor.
  - destruct IH as (v' & e' & Hin & H). exists v', e'. split; [by right|done].
Qed.
End lemmas.
