(* ===== verification/Lifecycle.v ===== *)
(** * Closing (begin, end and close of log.go; Open, Close, RunMaintenance and
    the maintenance loop of factory.go)

    What the goroutines of a process do to the lifecycle of one factory: calls
    on its logs begin, notify, wait and end, logs are opened and closed,
    maintenance passes wait for the lock [gcMu], and one call of [Close] shuts
    everything down.  A step is one critical section, so the steps interleave as
    the goroutines do.  Close stops at a step that waits until its condition
    holds.  A [Read] that waits without a deadline goes on only when it takes the
    token of the notification channel or its context ends, so Close can wait for
    it without end; [lone_reader] is the condition under which it does not.  Of
    the locks, [gcMu] is the only one that is held while another condition is
    waited for; the others are inside one step. *)
From S2P Require Import Prelude.
#[local] Open Scope Z_scope.

(** ** States *)

(** Where a call on a log is between [begin] and [end]. *)
Inductive call_pc : Set :=
(* a method other than Read, before and after it notified the readers *)
| CallBusy
| CallNotified
(* Read: on its way by itself, also when its wait has a deadline; in a wait
   without a deadline; past the point where it leaves the loop *)
| CallReading
| CallBlocked
| CallLeaving.

#[global] Instance call_pc_eq_dec : EqDecision call_pc.
Proof. solve_decision. Defined.

(** The lifecycle of a [logStream]: [lf_calls] are the calls that [active]
    counts, [lf_signal] is whether the channel of its dispatcher holds a token. *)
Record life : Type := {
  lf_closing : bool;
  lf_active : Z;
  lf_calls : gmap nat call_pc;
  lf_signal : bool
}.

(** Where a caller of [RunMaintenance] is, from its first check on. *)
Inductive gc_pc : Set :=
| GcWait
| GcHold
| GcCollect.

(** Where the first call of [Close] is; the list are the logs still to close. *)
Inductive close_pc : Type :=
| CloseIdle
| CloseLoop (todo : list string)
| CloseLogs (todo : list string)
| CloseWait (name : string) (todo : list string)
| CloseGc
| CloseHold
| CloseDone.

Inductive holder : Set :=
| HeldBy (caller : nat)
| HeldByClose.

(** The factory; caller 0 of [RunMaintenance] is the maintenance goroutine,
    [fc_loop] whether it is still there; [fc_storage] whether the database is
    closed. *)
Record fac : Type := {
  fc_closed : bool;
  fc_logs : gmap string life;
  fc_gcMu : option holder;
  fc_gc : gmap nat gc_pc;
  fc_loop : bool;
  fc_close : close_pc;
  fc_storage : bool
}.

(** After [New]. *)
Definition fac_init (loop : bool) : fac :=
  {| fc_closed := false; fc_logs := ∅; fc_gcMu := None; fc_gc := ∅; fc_loop := loop; fc_close := CloseIdle;
     fc_storage := false |}.

Definition life_init : life := {| lf_closing := false; lf_active := 0; lf_calls := ∅; lf_signal := false |}.

Definition life_begin (l : life) (i : nat) (pc : call_pc) : life :=
  {| lf_closing := lf_closing l; lf_active := lf_active l + 1; lf_calls := <[i := pc]> (lf_calls l);
     lf_signal := lf_signal l |}.
Definition life_end (l : life) (i : nat) : life :=
  {| lf_closing := lf_closing l; lf_active := lf_active l - 1; lf_calls := delete i (lf_calls l);
     lf_signal := lf_signal l |}.
(** A call gets to [pc]; [signal] is the channel afterwards. *)
Definition life_call (l : life) (i : nat) (pc : call_pc) (signal : bool) : life :=
  {| lf_closing := lf_closing l; lf_active := lf_active l; lf_calls := <[i := pc]> (lf_calls l); lf_signal := signal |}.
(** [close] up to its wait; [Dispatcher.Close] leaves a token in the channel. *)
Definition life_close (l : life) : life :=
  {| lf_closing := true; lf_active := lf_active l; lf_calls := lf_calls l;
     lf_signal := if lf_closing l then lf_signal l else true |}.

Definition set_logs (s : fac) (logs : gmap string life) : fac :=
  {| fc_closed := fc_closed s; fc_logs := logs; fc_gcMu := fc_gcMu s; fc_gc := fc_gc s; fc_loop := fc_loop s;
     fc_close := fc_close s; fc_storage := fc_storage s |}.
Definition set_gc (s : fac) (mu : option holder) (gc : gmap nat gc_pc) : fac :=
  {| fc_closed := fc_closed s; fc_logs := fc_logs s; fc_gcMu := mu; fc_gc := gc; fc_loop := fc_loop s;
     fc_close := fc_close s; fc_storage := fc_storage s |}.
Definition set_loop (s : fac) (loop : bool) : fac :=
  {| fc_closed := fc_closed s; fc_logs := fc_logs s; fc_gcMu := fc_gcMu s; fc_gc := fc_gc s; fc_loop := loop;
     fc_close := fc_close s; fc_storage := fc_storage s |}.
Definition set_close (s : fac) (pc : close_pc) : fac :=
  {| fc_closed := fc_closed s; fc_logs := fc_logs s; fc_gcMu := fc_gcMu s; fc_gc := fc_gc s; fc_loop := fc_loop s;
     fc_close := pc; fc_storage := fc_storage s |}.
Definition start_close (s : fac) (todo : list string) : fac :=
  {| fc_closed := true; fc_logs := fc_logs s; fc_gcMu := fc_gcMu s; fc_gc := fc_gc s; fc_loop := fc_loop s;
     fc_close := CloseLoop todo; fc_storage := fc_storage s |}.
Definition close_storage (s : fac) : fac :=
  {| fc_closed := fc_closed s; fc_logs := fc_logs s; fc_gcMu := None; fc_gc := fc_gc s; fc_loop := fc_loop s;
     fc_close := CloseDone; fc_storage := true |}.

(** ** Steps *)

(** A call that starts, or a context that ends: what the rest of the process
    decides. *)
Inductive new_step : fac → fac → Prop :=
| fac_open s name :
    fc_closed s = false → fc_logs s !! name = None → new_step s (set_logs s (<[name := life_init]> (fc_logs s)))
| fac_begin s name l i pc :
    fc_logs s !! name = Some l → lf_closing l = false → lf_calls l !! i = None → pc = CallBusy ∨ pc = CallReading →
    new_step s (set_logs s (<[name := life_begin l i pc]> (fc_logs s)))
| fac_cancel s name l i :
    fc_logs s !! name = Some l → lf_calls l !! i = Some CallBlocked →
    new_step s (set_logs s (<[name := life_call l i CallLeaving (lf_signal l)]> (fc_logs s)))
| fac_log_close s name l :
    fc_logs s !! name = Some l → new_step s (set_logs s (<[name := life_close l]> (fc_logs s)))
| fac_gc_call s i :
    fc_closed s = false → fc_gc s !! i = None → (i = 0%nat → fc_loop s = true) →
    new_step s (set_gc s (fc_gcMu s) (<[i := GcWait]> (fc_gc s)))
| fac_close_start s todo :
    fc_closed s = false → todo ≡ₚ (map_to_list (fc_logs s)).*1 → new_step s (start_close s todo).

(** What is under way goes on. *)
Inductive run_step : fac → fac → Prop :=
| fac_end s name l i pc :
    fc_logs s !! name = Some l → lf_calls l !! i = Some pc → pc ≠ CallBlocked →
    run_step s (set_logs s (<[name := life_end l i]> (fc_logs s)))
| fac_notify s name l i :
    fc_logs s !! name = Some l → lf_calls l !! i = Some CallBusy →
    run_step s (set_logs s (<[name := life_call l i CallNotified true]> (fc_logs s)))
| fac_block s name l i :
    fc_logs s !! name = Some l → lf_calls l !! i = Some CallReading →
    run_step s (set_logs s (<[name := life_call l i CallBlocked (lf_signal l)]> (fc_logs s)))
(* a reader takes the token; at the top of its loop it sees whether the log is closed *)
| fac_wake s name l i pc :
    fc_logs s !! name = Some l → lf_calls l !! i = Some pc → pc = CallReading ∨ pc = CallBlocked → lf_signal l = true →
    run_step s (set_logs s (<[name := life_call l i (if lf_closing l then CallLeaving else CallReading) false]> (fc_logs s)))
| fac_gc_lock s i :
    fc_gc s !! i = Some GcWait → fc_gcMu s = None →
    run_step s (set_gc s (Some (HeldBy i)) (<[i := GcHold]> (fc_gc s)))
| fac_gc_recheck s i :
    fc_gc s !! i = Some GcHold →
    run_step s (if fc_closed s then set_gc s None (delete i (fc_gc s))
                else set_gc s (fc_gcMu s) (<[i := GcCollect]> (fc_gc s)))
| fac_gc_done s i :
    fc_gc s !! i = Some GcCollect → run_step s (set_gc s None (delete i (fc_gc s)))
| fac_loop_exit s :
    fc_loop s = true → fc_closed s = true → fc_gc s !! 0%nat = None → run_step s (set_loop s false)
| fac_close_loop s todo :
    fc_close s = CloseLoop todo → fc_loop s = false → run_step s (set_close s (CloseLogs todo))
| fac_close_log s name todo l :
    fc_close s = CloseLogs (name :: todo) → fc_logs s !! name = Some l →
    run_step s (set_close (set_logs s (<[name := life_close l]> (fc_logs s))) (CloseWait name todo))
| fac_close_wait s name todo l :
    fc_close s = CloseWait name todo → fc_logs s !! name = Some l → lf_active l ≤ 0 →
    run_step s (set_close s (CloseLogs todo))
| fac_close_logs_done s :
    fc_close s = CloseLogs [] → run_step s (set_close s CloseGc)
| fac_close_lock s :
    fc_close s = CloseGc → fc_gcMu s = None → run_step s (set_gc (set_close s CloseHold) (Some HeldByClose) (fc_gc s))
| fac_close_storage s :
    fc_close s = CloseHold → run_step s (close_storage s).

Definition fac_step (s s' : fac) : Prop := new_step s s' ∨ run_step s s'.

(** ** The invariant *)

Definition drained (l : life) : Prop := lf_closing l = true ∧ lf_calls l = ∅.

(** The logs that [Close] has not closed yet. *)
Definition todo_of (pc : close_pc) : list string :=
  match pc with
  | CloseLoop todo | CloseLogs todo => todo
  | CloseWait name todo => name :: todo
  | _ => []
  end.

Record fac_inv (s : fac) : Prop := {
  fi_active name l : fc_logs s !! name = Some l → lf_active l = Z.of_nat (size (lf_calls l));
  fi_holder i : fc_gc s !! i = Some GcHold ∨ fc_gc s !! i = Some GcCollect → fc_gcMu s = Some (HeldBy i);
  fi_held i : fc_gcMu s = Some (HeldBy i) → fc_gc s !! i = Some GcHold ∨ fc_gc s !! i = Some GcCollect;
  fi_hold : fc_close s = CloseHold ↔ fc_gcMu s = Some HeldByClose;
  fi_closed : fc_closed s = false ↔ fc_close s = CloseIdle;
  fi_storage : fc_storage s = true ↔ fc_close s = CloseDone;
  (** Every log is on the list or drained. *)
  fi_logs name l : fc_closed s = true → fc_logs s !! name = Some l → name ∈ todo_of (fc_close s) ∨ drained l;
  fi_todo name : name ∈ todo_of (fc_close s) → is_Some (fc_logs s !! name);
  fi_wait name todo : fc_close s = CloseWait name todo → ∃ l, fc_logs s !! name = Some l ∧ lf_closing l = true;
  (** The maintenance goroutine is gone before the first log is closed. *)
  fi_loop : fc_loop s = false → fc_gc s !! 0%nat = None;
  fi_exited : fc_loop s = true → fc_closed s = true → ∃ todo, fc_close s = CloseLoop todo;
  fi_collect i : fc_close s = CloseDone → fc_gc s !! i ≠ Some GcCollect
}.

Lemma fac_init_inv loop : fac_inv (fac_init loop).
Proof.
  split; cbn; try done.
  - intros i. rewrite lookup_empty. by intros [?|?].
  - intros name Hin. by apply elem_of_nil in Hin.
Qed.

(** ** Every step keeps it *)

(** [active] is the number of calls. *)
Definition counted (l : life) : Prop := lf_active l = Z.of_nat (size (lf_calls l)).

Lemma life_begin_counted l i pc : lf_calls l !! i = None → counted l → counted (life_begin l i pc).
Proof. unfold counted. intros Hi Ha. cbn. rewrite map_size_insert_None by done. lia. Qed.

Lemma life_end_counted l i pc : lf_calls l !! i = Some pc → counted l → counted (life_end l i).
Proof. unfold counted. intros Hi Ha. cbn. pose proof (size_delete_Some _ _ _ Hi). lia. Qed.

Lemma life_call_counted l i pc pc' signal : lf_calls l !! i = Some pc → counted l → counted (life_call l i pc' signal).
Proof. unfold counted. intros Hi Ha. cbn. by rewrite map_size_insert_Some. Qed.

(** A call that is there keeps a log from being drained. *)
Lemma not_drained l i pc : lf_calls l !! i = Some pc → ¬ drained l.
Proof. intros Hi [_ Hd]. by rewrite Hd, lookup_empty in Hi. Qed.

(** A log changes: it stays as closed, and drained if it was. *)
Lemma set_log_inv s name l l' :
  fac_inv s → fc_logs s !! name = Some l → counted l' →
  (lf_closing l = true → lf_closing l' = true) → (drained l → drained l') →
  fac_inv (set_logs s (<[name := l']> (fc_logs s))).
Proof.
  intros [H1 H2 H3 H4 H5 H6 H7 H8 H9 H10 H11 H12] Hl Ha Hc Hd. split; cbn; try done.
  - intros n l0. rewrite lookup_insert. case_decide; [by intros [= <-]|apply H1].
  - intros n l0 Hcl. rewrite lookup_insert. case_decide as Hn; [|by apply H7]. intros [= <-]. subst n.
    destruct (H7 name l Hcl Hl); [by left|right; by apply Hd].
  - intros n Hn. rewrite lookup_insert. case_decide; [by eexists|by apply H8].
  - intros n todo Hp. destruct (H9 n todo Hp) as (l0 & Hl0 & Hc0). rewrite lookup_insert. case_decide; [|by exists l0].
    subst n. exists l'. split; [done|]. apply Hc. congruence.
Qed.

(** The maintenance callers and their lock change, by the caller [i]. *)
Lemma set_gc_inv s i mu pc :
  fac_inv s → let gc := match pc with None => delete i (fc_gc s) | Some pc => <[i := pc]> (fc_gc s) end in
  (fc_loop s = false → pc ≠ None → i ≠ 0%nat) →
  (fc_close s = CloseDone → pc ≠ Some GcCollect) →
  (mu = fc_gcMu s ∧ (pc = Some GcWait ∧ fc_gc s !! i = None ∨ pc = Some GcCollect ∧ fc_gc s !! i = Some GcHold)
   ∨ fc_gcMu s = None ∧ mu = Some (HeldBy i) ∧ (pc = Some GcHold ∨ pc = Some GcCollect)
   ∨ fc_gcMu s = Some (HeldBy i) ∧ mu = None ∧ pc = None) →
  fac_inv (set_gc s mu gc).
Proof.
  intros [H1 H2 H3 H4 H5 H6 H7 H8 H9 H10 H11 H12] gc Hloop Hdone Hmu.
  assert (Hgc : ∀ j, gc !! j = if decide (i = j) then pc else fc_gc s !! j).
  { intros j. unfold gc. destruct pc; [rewrite lookup_insert|rewrite lookup_delete]; done. }
  split; cbn; try done.
  - intros j. rewrite Hgc. case_decide as Hj.
    + subst j. destruct Hmu as [(-> & [[-> _]|[-> Hh]])|[(_ & -> & _)|(_ & _ & ->)]]; [by intros [?|?]|intros _; apply H2; by left|done|by intros [?|?]].
    + intros Hj'. pose proof (H2 j Hj') as Hm. destruct Hmu as [(-> & _)|[(Hn & _)|(Hn & _)]]; [done|congruence|congruence].
  - intros j. rewrite Hgc. case_decide as Hj.
    + subst j. destruct Hmu as [(-> & [[-> Hn]|[-> Hh]])|[(_ & -> & [-> | ->])|(_ & -> & ->)]]; try done; [|by right|by left|by right].
      intros Hm. destruct (H3 i Hm); congruence.
    + intros Hm. apply H3. destruct Hmu as [(<- & _)|[(_ & Hm' & _)|(_ & Hm' & _)]]; [done|congruence|congruence].
  - rewrite H4. destruct Hmu as [(-> & _)|[(-> & -> & _)|(-> & -> & _)]]; done.
  - intros Hl. rewrite Hgc. case_decide as Hj; [|by apply H10]. destruct pc as [pc|]; [|done]. by destruct (Hloop Hl).
  - intros j Hd. rewrite Hgc. case_decide; [by apply Hdone|by apply H12].
Qed.

(** A call that goes on changes nothing else. *)
Lemma call_inv s name l i pc pc' signal :
  fac_inv s → fc_logs s !! name = Some l → lf_calls l !! i = Some pc →
  fac_inv (set_logs s (<[name := life_call l i pc' signal]> (fc_logs s))).
Proof.
  intros Hinv Hl Hi. apply (set_log_inv s name l); [done|done| |done|by intros ?%(not_drained l i pc)].
  eapply life_call_counted; [done|]. by apply (fi_active _ Hinv name).
Qed.

Lemma new_step_inv s s' : new_step s s' → fac_inv s → fac_inv s'.
Proof.
  intros Hstep Hinv. destruct Hstep as [s name Hc Hn|s name l i pc Hl Hc Hi Hpc|s name l i Hl Hi|s name l Hl|s i Hc Hn Hloop|s todo Hc Ht].
  - destruct Hinv as [H1 H2 H3 H4 H5 H6 H7 H8 H9 H10 H11 H12]. split; cbn; try done.
    + intros n l. rewrite lookup_insert. case_decide; [by intros [= <-]|apply H1].
    + intros n l Hcl. congruence.
    + intros n Hin. rewrite lookup_insert. case_decide; [by eexists|by apply H8].
    + intros n todo Hp. destruct (H9 n todo Hp) as (l & Hl & Hcl). exists l. split; [|done].
      rewrite lookup_insert_ne; [done|congruence].
  - apply (set_log_inv s name l); [done|done|by apply life_begin_counted; [|apply (fi_active _ Hinv name)]|done|].
    intros [Hd _]. congruence.
  - by eapply call_inv.
  - apply (set_log_inv s name l); [done|done|exact (fi_active _ Hinv name l Hl)|done|]. by intros [_ ?].
  - apply (set_gc_inv s i (fc_gcMu s) (Some GcWait)); [done| |done|left; split; [done|by left]].
    intros Hl _ ->. rewrite Hloop in Hl; done.
  - destruct Hinv as [H1 H2 H3 H4 H5 H6 H7 H8 H9 H10 H11 H12].
    assert (Hidle : fc_close s = CloseIdle) by by apply H5.
    assert (Hin : ∀ name, name ∈ todo ↔ is_Some (fc_logs s !! name)).
    { intros name. rewrite Ht, list_elem_of_fmap. split.
      - intros ([n l] & -> & Hl%elem_of_map_to_list). by exists l.
      - intros [l Hl]. exists (name, l). split; [done|by apply elem_of_map_to_list]. }
    split; cbn; try done.
    + split; [done|]. intros Hm. apply H4 in Hm. congruence.
    + split; [|done]. intros Hs. apply H6 in Hs. congruence.
    + intros name l _ Hl. left. apply Hin. by exists l.
    + intros name. apply Hin.
    + intros _ _. by exists todo.
Qed.

(** [Close] moves on without touching the logs or the maintenance. *)
Lemma set_close_inv s pc :
  fac_inv s → fc_close s ≠ CloseIdle → fc_close s ≠ CloseHold → fc_close s ≠ CloseDone →
  pc ≠ CloseIdle → pc ≠ CloseHold → pc ≠ CloseDone →
  (∀ name, name ∈ todo_of pc → name ∈ todo_of (fc_close s)) →
  (∀ name l, name ∈ todo_of (fc_close s) → fc_logs s !! name = Some l → name ∈ todo_of pc ∨ drained l) →
  (∀ name todo, pc = CloseWait name todo → ∃ l, fc_logs s !! name = Some l ∧ lf_closing l = true) →
  (fc_loop s = true → ∃ todo, pc = CloseLoop todo) →
  fac_inv (set_close s pc).
Proof.
  intros [H1 H2 H3 H4 H5 H6 H7 H8 H9 H10 H11 H12] N1 N2 N3 P1 P2 P3 Hsub Hdone Hwait Hloop. split; cbn; try done.
  - split; [done|]. intros Hm%H4. done.
  - rewrite H5. by split.
  - rewrite H6. by split.
  - intros name l Hcl Hl. destruct (H7 name l Hcl Hl) as [Hin|]; [by apply Hdone|by right].
  - intros name Hin. by apply H8, Hsub.
  - intros Hl _. by apply Hloop.
Qed.

Lemma not_looping s : fac_inv s → fc_close s ≠ CloseIdle → (∀ todo, fc_close s ≠ CloseLoop todo) → fc_loop s = false.
Proof.
  intros Hinv Hi Ht. destruct (fc_loop s) eqn:Hl; [|done].
  assert (Hc : fc_closed s = true) by (destruct (fc_closed s) eqn:E; [done|by apply (fi_closed _ Hinv) in E]).
  destruct (fi_exited _ Hinv Hl Hc) as [todo Hp]. by destruct (Ht todo).
Qed.

Lemma active_zero l : counted l → lf_active l ≤ 0 → lf_calls l = ∅.
Proof. unfold counted. intros Ha Hz. apply map_size_empty_inv. lia. Qed.

Lemma close_lock_inv s :
  fac_inv s → fc_close s = CloseGc → fc_gcMu s = None →
  fac_inv (set_gc (set_close s CloseHold) (Some HeldByClose) (fc_gc s)).
Proof.
  intros Hinv Hp Hm. assert (Hloop : fc_loop s = false) by (apply not_looping; [done|congruence..]).
  destruct Hinv as [H1 H2 H3 H4 H5 H6 H7 H8 H9 H10 H11 H12]. rewrite Hp in *. split; cbn; try done.
  - intros i Hi. apply H2 in Hi. congruence.
  - by rewrite H5.
  - by rewrite H6.
  - congruence.
Qed.

(** The storage closes with the lock held, so no collection is running. *)
Lemma close_storage_inv s : fac_inv s → fc_close s = CloseHold → fac_inv (close_storage s).
Proof.
  intros Hinv Hp. assert (Hloop : fc_loop s = false) by (apply not_looping; [done|congruence..]).
  destruct Hinv as [H1 H2 H3 H4 H5 H6 H7 H8 H9 H10 H11 H12]. rewrite Hp in *.
  assert (Hm : fc_gcMu s = Some HeldByClose) by by apply H4. split; cbn; try done.
  - intros i Hi. apply H2 in Hi. congruence.
  - by rewrite H5.
  - congruence.
  - intros i _ Hi. assert (fc_gcMu s = Some (HeldBy i)) by (apply H2; by right). congruence.
Qed.

Lemma run_step_inv s s' : run_step s s' → fac_inv s → fac_inv s'.
Proof.
  intros Hstep Hinv. destruct Hstep as
    [s name l i pc Hl Hi Hpc|s name l i Hl Hi|s name l i Hl Hi|s name l i pc Hl Hi Hpc Hsig
    |s i Hi Hm|s i Hi|s i Hi|s Hl Hc Hg|s todo Hp Hl|s name todo l Hp Hl|s name todo l Hp Hl Ha|s Hp|s Hp Hm|s Hp].
  - apply (set_log_inv s name l); [done|done| |done|by intros ?%(not_drained l i pc)].
    eapply life_end_counted; [done|]. by apply (fi_active _ Hinv name).
  - by eapply call_inv.
  - by eapply call_inv.
  - by eapply call_inv.
  - apply (set_gc_inv s i (Some (HeldBy i)) (Some GcHold)); [done| |done|right; left; split_and!; [done|done|by left]].
    intros Hl _ ->. rewrite (fi_loop _ Hinv Hl) in Hi. done.
  - pose proof (fi_holder _ Hinv i (or_introl Hi)) as Hm. destruct (fc_closed s) eqn:Hc.
    + by apply (set_gc_inv s i None None); [..|right; right].
    + apply (set_gc_inv s i (fc_gcMu s) (Some GcCollect)); [done| | |left; split; [done|by right]].
      * intros Hl _ ->. rewrite (fi_loop _ Hinv Hl) in Hi. done.
      * intros Hd _. apply (fi_closed _ Hinv) in Hc. congruence.
  - pose proof (fi_holder _ Hinv i (or_intror Hi)) as Hm. by apply (set_gc_inv s i None None); [..|right; right].
  - destruct Hinv as [H1 H2 H3 H4 H5 H6 H7 H8 H9 H10 H11 H12]. by split.
  - apply set_close_inv; rewrite ?Hp; try done; first [by left|congruence|by intros; left].
  - assert (Hloop : fc_loop s = false) by (apply not_looping; [done|congruence..]).
    assert (Hinv1 : fac_inv (set_logs s (<[name := life_close l]> (fc_logs s)))).
    { apply (set_log_inv s name l); [done|done|exact (fi_active _ Hinv name l Hl)|done|]. by intros [_ ?]. }
    apply (set_close_inv _ (CloseWait name todo)) in Hinv1; cbn; rewrite ?Hp; try done.
    + intros n l0 Hn _. by left.
    + intros n t [= <- <-]. exists (life_close l). by rewrite lookup_insert_eq.
    + congruence.
  - assert (Hloop : fc_loop s = false) by (apply not_looping; [done|congruence..]).
    apply set_close_inv; rewrite ?Hp; try done; [by intros; right| |congruence].
    intros n l0 [->|Hn]%elem_of_cons Hl0; [|by left]. right. destruct (fi_wait _ Hinv _ _ Hp) as (l1 & Hl1 & Hc1).
    split; [congruence|]. apply active_zero; [by apply (fi_active _ Hinv name)|]. congruence.
  - assert (Hloop : fc_loop s = false) by (apply not_looping; [done|congruence..]).
    apply set_close_inv; rewrite ?Hp; try done; first [congruence|intros n l0 Hn; by apply elem_of_nil in Hn].
  - by apply close_lock_inv.
  - by apply close_storage_inv.
Qed.

Lemma fac_step_inv s s' : fac_step s s' → fac_inv s → fac_inv s'.
Proof. intros [H|H]; [by apply new_step_inv|by apply run_step_inv]. Qed.

Definition fac_reachable (s : fac) : Prop := ∃ loop, rtc fac_step (fac_init loop) s.

Lemma fac_reachable_inv s : fac_reachable s → fac_inv s.
Proof.
  intros [loop H]. pose proof (fac_init_inv loop) as Hi. induction H as [|a b c Hab _ IH]; [done|].
  by apply IH, (fac_step_inv a).
Qed.

(** ** Progress *)

(** The caller that holds the lock can go on. *)
Lemma holder_runs s i : fac_inv s → fc_gcMu s = Some (HeldBy i) → ∃ s', run_step s s'.
Proof.
  intros Hinv Hm. destruct (fi_held _ Hinv i Hm) as [H|H]; eexists; [by eapply fac_gc_recheck|by eapply fac_gc_done].
Qed.

(** A caller of [RunMaintenance] can go on, or whoever holds the lock can. *)
Lemma caller_runs s i pc : fac_inv s → fc_close s ≠ CloseHold → fc_gc s !! i = Some pc → ∃ s', run_step s s'.
Proof.
  intros Hinv Hp Hi. destruct pc.
  - destruct (fc_gcMu s) as [[j|]|] eqn:Hm; [by eapply holder_runs|by destruct Hp; apply (fi_hold _ Hinv)|].
    eexists. by eapply fac_gc_lock.
  - eexists. by eapply fac_gc_recheck.
  - eexists. by eapply fac_gc_done.
Qed.

(** [Close] waits for calls that nothing under way ends: every one of them waits
    for a notification, and the channel is empty. *)
Definition waits_for_readers (s : fac) : Prop :=
  ∃ name todo l, fc_close s = CloseWait name todo ∧ fc_logs s !! name = Some l ∧ lf_calls l ≠ ∅
    ∧ lf_signal l = false ∧ map_Forall (λ _ pc, pc = CallBlocked) (lf_calls l).

(** The calls of a log that is being closed end, or all that is left are readers
    that wait. *)
Lemma calls_progress s name l :
  fc_logs s !! name = Some l → lf_calls l ≠ ∅ →
  (∃ s', run_step s s') ∨ lf_signal l = false ∧ map_Forall (λ _ pc, pc = CallBlocked) (lf_calls l).
Proof.
  intros Hl Hne. destruct (decide (map_Forall (λ _ pc, pc = CallBlocked) (lf_calls l))) as [Hall|Hnot].
  - destruct (lf_signal l) eqn:Hsig; [left|by right]. apply map_choose in Hne as (i & pc & Hi).
    eexists. eapply fac_wake; [done|done| |done]. right. exact (Hall i pc Hi).
  - left. apply map_not_Forall in Hnot as (i & pc & Hi & Hpc); [|apply _]. eexists. by eapply fac_end.
Qed.

Lemma close_progress s :
  fac_inv s → fc_closed s = true → fc_close s ≠ CloseDone → (∃ s', run_step s s') ∨ waits_for_readers s.
Proof.
  intros Hinv Hc Hd. destruct (fc_close s) as [|todo|todo|name todo| | |] eqn:Hp; try done.
  - apply (fi_closed _ Hinv) in Hp. congruence.
  - left. destruct (fc_loop s) eqn:Hl; [|eexists; by eapply fac_close_loop].
    destruct (fc_gc s !! 0%nat) as [pc|] eqn:Hg; [eapply caller_runs; [done|congruence|done]|].
    eexists. by eapply fac_loop_exit.
  - left. destruct todo as [|name todo]; [eexists; by eapply fac_close_logs_done|].
    destruct (fi_todo _ Hinv name) as [l Hl]; [rewrite Hp; by left|]. eexists. by eapply fac_close_log.
  - destruct (fi_wait _ Hinv _ _ Hp) as (l & Hl & _). destruct (decide (lf_active l ≤ 0)) as [Ha|Ha].
    + left. eexists. by eapply fac_close_wait.
    + assert (Hr : lf_calls l ≠ ∅) by (intros Hr; rewrite (fi_active _ Hinv _ _ Hl), Hr, map_size_empty in Ha; lia).
      destruct (calls_progress s name l Hl Hr) as [?|[Hs Hall]]; [by left|right]. by exists name, todo, l.
  - left. destruct (fc_gcMu s) as [[j|]|] eqn:Hm; [by eapply holder_runs| |eexists; by eapply fac_close_lock].
    apply (fi_hold _ Hinv) in Hm. congruence.
  - left. eexists. by eapply fac_close_storage.
Qed.

(** ** A log with one reader *)

(** The call can get to a wait without a deadline, or is there. *)
Definition waits (l : life) (i : nat) : Prop := lf_calls l !! i = Some CallReading ∨ lf_calls l !! i = Some CallBlocked.

(** At most one [Read] is under way; when the log is closed already, the token of
    its [Close] is there for it. *)
Definition lone_reader (l : life) : Prop :=
  (∀ i j, waits l i → waits l j → i = j) ∧ (lf_closing l = true → ∀ i, waits l i → lf_signal l = true).

Definition lone_readers (s : fac) : Prop := ∀ name l, fc_logs s !! name = Some l → lone_reader l.

Lemma set_lone s logs name l' :
  lone_readers s → logs = <[name := l']> (fc_logs s) → lone_reader l' → lone_readers (set_logs s logs).
Proof. intros Hs -> Hl n l. cbn. rewrite lookup_insert. case_decide; [by intros [= <-]|apply Hs]. Qed.

(** Fewer calls that can wait, and the token is left to them. *)
Lemma lone_sub l l' :
  lone_reader l → lf_closing l' = lf_closing l → (∀ i, waits l' i → waits l i) →
  (∀ i, waits l' i → lf_signal l = true → lf_signal l' = true) → lone_reader l'.
Proof. intros [H1 H2] Hc Hw Hs. split; [auto|]. intros Hcl i Hi. rewrite Hc in Hcl. eauto. Qed.

Lemma waits_call l i pc signal j :
  waits (life_call l i pc signal) j ↔ if decide (i = j) then pc = CallReading ∨ pc = CallBlocked else waits l j.
Proof.
  unfold waits. cbn. rewrite lookup_insert. case_decide; [|done]. split; (intros [?|?]; [left|right]); congruence.
Qed.

Lemma run_step_lone s s' : run_step s s' → lone_readers s → lone_readers s'.
Proof.
  intros Hstep Hs. destruct Hstep as
    [s name l i pc Hl Hi Hpc|s name l i Hl Hi|s name l i Hl Hi|s name l i pc Hl Hi Hpc Hsig
    |s i Hi Hm|s i Hi|s i Hi|s Hl Hc Hg|s todo Hp Hl|s name todo l Hp Hl|s name todo l Hp Hl Ha|s Hp|s Hp Hm|s Hp];
    try exact Hs.
  - eapply set_lone; [done..|]. apply (lone_sub l); [by eapply Hs|done| |done]. intros j. unfold waits. cbn.
    rewrite lookup_delete. by case_decide; [intros [?|?]|].
  - eapply set_lone; [done..|]. apply (lone_sub l); [by eapply Hs|done| |done].
    intros j Hj%waits_call. case_decide; [by destruct Hj|done].
  - eapply set_lone; [done..|]. apply (lone_sub l); [by eapply Hs|done| |done].
    intros j Hj%waits_call. case_decide as Hd; [subst j; by left|done].
  - eapply set_lone; [done..|]. destruct (Hs _ _ Hl) as [H1 H2]. assert (Hwi : waits l i) by (unfold waits; destruct Hpc as [-> | ->]; auto).
    split.
    + intros j k Hj%waits_call Hk%waits_call. repeat case_decide; subst; try done.
      * by apply H1.
      * by apply H1.
      * by apply H1.
    + cbn. intros Hc j Hj%waits_call. rewrite Hc in Hj. case_decide as Hd; [by destruct Hj|]. by destruct Hd; apply H1.
  - by destruct (fc_closed s).
  - intros n l'. cbn. rewrite lookup_insert. case_decide; [|apply Hs]. intros [= <-]. destruct (Hs _ _ Hl) as [H1 H2].
    split; [exact H1|]. cbn. intros _ i Hi. destruct (lf_closing l) eqn:Hc; [|done]. by apply (H2 eq_refl i).
Qed.

Lemma run_steps_lone s s' : rtc run_step s s' → lone_readers s → lone_readers s'.
Proof. induction 1 as [|a b c Hab _ IH]; [done|]. intros Hs. by apply IH, (run_step_lone a). Qed.

(** Then [Close] does not wait for ever. *)
Lemma lone_not_waiting s : fac_inv s → lone_readers s → ¬ waits_for_readers s.
Proof.
  intros Hinv Hs (name & todo & l & Hp & Hl & Hne & Hsig & Hall). destruct (fi_wait _ Hinv _ _ Hp) as (l' & Hl' & Hc).
  assert (l' = l) as -> by congruence. apply map_choose in Hne as (i & pc & Hi). destruct (Hs _ _ Hl) as [_ H2].
  rewrite (H2 Hc i) in Hsig; [done|]. right. by rewrite Hi, (Hall i pc Hi).
Qed.

(** ** Termination *)

Section sums.
Context {K A : Type} `{Countable K} (f : A → nat).

Definition msum (m : gmap K A) : nat := sum_list_with (f ∘ snd) (map_to_list m).

Lemma msum_perm (l l' : list (K * A)) : l ≡ₚ l' → sum_list_with (f ∘ snd) l = sum_list_with (f ∘ snd) l'.
Proof. induction 1; cbn; lia. Qed.

Lemma msum_delete m k a : m !! k = Some a → msum m = (f a + msum (delete k m))%nat.
Proof. intros Hm. unfold msum. symmetry. exact (msum_perm ((k, a) :: map_to_list (delete k m)) _ (map_to_list_delete m k a Hm)). Qed.

Lemma msum_insert m k a b : m !! k = Some a → (msum (<[k := b]> m) + f a = msum m + f b)%nat.
Proof.
  intros Hm. rewrite (msum_delete m k a Hm), (msum_delete _ k b (lookup_insert_eq m k b)), delete_insert_eq. lia.
Qed.
End sums.

Definition gc_rank (pc : gc_pc) : nat := match pc with GcWait => 3 | GcHold => 2 | GcCollect => 1 end.

Definition close_rank (pc : close_pc) : nat :=
  match pc with
  | CloseIdle => 0
  | CloseLoop todo => 2 * length todo + 5
  | CloseLogs todo => 2 * length todo + 4
  | CloseWait _ todo => 2 * length todo + 5
  | CloseGc => 3
  | CloseHold => 2
  | CloseDone => 1
  end.

(** A token and the one that [Close] adds pay for the wait of a reader that a
    token wakes; a call that notifies pays for its token. *)
Definition call_rank (pc : call_pc) : nat :=
  match pc with CallBusy => 4 | CallNotified => 1 | CallReading => 2 | CallBlocked => 1 | CallLeaving => 1 end.

Definition life_work (l : life) : nat :=
  msum call_rank (lf_calls l) + (if lf_signal l then 2 else 0) + (if lf_closing l then 0 else 2).

(** What is left to do. *)
Definition work (s : fac) : nat :=
  msum life_work (fc_logs s) + msum gc_rank (fc_gc s) + (if fc_loop s then 1 else 0) + close_rank (fc_close s).

(** A log that has less to do. *)
Lemma log_work s name l l' :
  fc_logs s !! name = Some l → (life_work l' < life_work l)%nat →
  (work (set_logs s (<[name := l']> (fc_logs s))) < work s)%nat.
Proof. intros Hl Hw. unfold work. cbn. pose proof (msum_insert life_work _ _ _ l' Hl). lia. Qed.

Lemma call_work l i pc pc' signal :
  lf_calls l !! i = Some pc →
  (life_work (life_call l i pc' signal) + call_rank pc + (if lf_signal l then 2 else 0)
   = life_work l + call_rank pc' + (if signal then 2 else 0))%nat.
Proof. intros Hi. unfold life_work. cbn. pose proof (msum_insert call_rank _ _ _ pc' Hi). destruct (lf_signal l), signal; lia. Qed.

Lemma life_close_work l : (life_work (life_close l) ≤ life_work l)%nat.
Proof. unfold life_work. cbn. destruct (lf_closing l), (lf_signal l); lia. Qed.

Lemma run_step_work s s' : run_step s s' → (work s' < work s)%nat.
Proof.
  intros Hstep. destruct Hstep as
    [s name l i pc Hl Hi Hpc|s name l i Hl Hi|s name l i Hl Hi|s name l i pc Hl Hi Hpc Hsig
    |s i Hi Hm|s i Hi|s i Hi|s Hl Hc Hg|s todo Hp Hl|s name todo l Hp Hl|s name todo l Hp Hl Ha|s Hp|s Hp Hm|s Hp].
  1-4: apply (log_work _ _ l); [done|].
  5-14: unfold work; cbn; rewrite ?Hp; cbn [close_rank length].
  - unfold life_work. cbn. pose proof (msum_delete call_rank _ _ _ Hi). destruct pc; cbn in *; lia.
  - pose proof (call_work l i _ CallNotified true Hi) as H. cbn in H. destruct (lf_signal l); lia.
  - pose proof (call_work l i _ CallBlocked (lf_signal l) Hi) as H. cbn in H. lia.
  - pose proof (call_work l i _ (if lf_closing l then CallLeaving else CallReading) false Hi) as H.
    rewrite Hsig in H. destruct Hpc as [-> | ->], (lf_closing l); cbn in H; lia.
  - pose proof (msum_insert gc_rank _ _ _ GcHold Hi) as Hs. cbn in Hs. lia.
  - destruct (fc_closed s); cbn.
    + pose proof (msum_delete gc_rank _ _ _ Hi) as Hs. cbn in Hs. lia.
    + pose proof (msum_insert gc_rank _ _ _ GcCollect Hi) as Hs. cbn in Hs. lia.
  - pose proof (msum_delete gc_rank _ _ _ Hi) as Hs. cbn in Hs. lia.
  - rewrite Hl. lia.
  - lia.
  - pose proof (msum_insert life_work _ _ _ (life_close l) Hl) as Hs. pose proof (life_close_work l). lia.
  - lia.
  - lia.
  - lia.
  - lia.
Qed.

Lemma run_steps_bound n s s' : nsteps run_step n s s' → (n + work s' ≤ work s)%nat.
Proof. induction 1 as [|n a b c Hab _ IH]; [done|]. pose proof (run_step_work _ _ Hab). lia. Qed.

Lemma closed_run s s' : rtc run_step s s' → fc_closed s = true → fc_closed s' = true.
Proof.
  induction 1 as [|a b c Hab _ IH]; [done|]. intros Hc. apply IH. destruct Hab; try done. by rewrite Hc.
Qed.
