(* ===== verification/FacadeTheorems.v ===== *)
(** * Correctness of the facade

    The methods of a log over the store and the dispatcher, the factory, its
    options and its shutdown, and the typed wrapper, with instances on the
    in-memory store. *)
From S2P Require Import Prelude Errors Keys Envelope Badger BadgerMem Store StoreSpec StoreRefine StoreHistory.
From S2P Require Import StoreTheorems Heap Backoff Dispatch DispatchInv DispatchOps DispatchTake.
From S2P Require Import DispatchFill DispatchCalls DispatchTheorems Queue QueueInv StoreLog.
From S2P Require Import QueueTheorems ReadRun Consumer ConsumerTheorems Options Log LogRefine Factory Typed Lifecycle.
From Stdlib Require Import Strings.Byte Floats.SpecFloat.
#[local] Open Scope Z_scope.

(** ** The methods of a log *)

(** C3. Every method of a log is atomic on the durable queue.  A call that
    returns nil has done to the queue exactly what the method promises and
    answers what the queue has: the positions written, the records leased with
    their contents, the page of dead letters, the counts.  One that returns an
    error has done nothing.  What the dispatcher holds stays as it is stored and
    nothing pending is skipped; the count of running calls is restored; a closed
    log, or an ended context, refuses the call unchanged; and the caller's error
    matches none of the sentinels of the inner packages that [mapError] replaces
    by a public one ([replaced_sentinels]).  The others stay visible: corruption
    under [ErrCorruptStorage], and [ErrValueTooLarge] as it is
    ([ErrValueTooLarge_escapes]). *)
Theorem facade_refines {B : Badger} {BS : BadgerSpec B} (ctx : option goerr) (op : log_op) (q : queue)
    (w : store_log) (l : logStream) :
  log_inv q w l → op_ok w l op →
  let '(w', l', r) := log_exec ctx op w l in
  log_inv (match r with Ok _ => log_effect (s_name w.2) op q | Err _ => q end) w' l'
  ∧ only_stream w w'
  ∧ l_self l' = l_self l ∧ l_active l' = l_active l ∧ l_closing l' = l_closing l
  ∧ (l_closing l = true ∨ is_Some (op_ctx ctx op) → w' = w ∧ l' = l ∧ r = Err (default (Sentinel ErrClosed) (op_ctx ctx op)))
  ∧ match r with Ok a => log_answer (l_self l) q op a | Err e => op_ctx ctx op = None → public e end.
Proof. apply log_exec_lemma. Qed.

(** The log [orders] with three records, and a dispatcher that has leased two. *)
Definition demo_facade : logStream := newLogStream 7 (sys_d demo_sys4).
Definition demo_w : store_log := (demo_db1, demo_stream1).

Lemma demo_log_inv : log_inv demo_queue1 demo_w (newLogStream 7 demo_new).
Proof. split; [apply demo_opened1|]. exact (sys_init_inv _ _ demo_config demo_log_ok demo_New). Qed.

Lemma facade_refines_witness :
  (log_exec None (OWrite (string_bytes "four") 8) demo_w (newLogStream 7 demo_new)).2 = Ok (RPositions [{| p_Seq := 4 |}])
  ∧ let '(w', l', r) := log_exec None (OWrite (string_bytes "four") 8) demo_w (newLogStream 7 demo_new) in
    log_inv (match r with Ok _ => q_append 8 [string_bytes "four"] demo_queue1 | Err _ => demo_queue1 end) w' l'.
Proof.
  split; [vm_compute; reflexivity|].
  pose proof (facade_refines None (OWrite (string_bytes "four") 8) demo_queue1 demo_w (newLogStream 7 demo_new)
    demo_log_inv ltac:(by vm_compute)) as H.
  destruct (log_exec _ _ _ _) as [[w' l'] r]. by destruct H.
Defined.

(** A reason of 4 GiB or more: the sentinel of envelope.go has no public
    counterpart, and it reaches the caller. *)
Lemma ErrValueTooLarge_escapes {B : Badger} {BS : BadgerSpec B} (env : Env) (q : queue) (w : store_log) (l : logStream)
    (dl : Dispatch.Delivery) (reason : string) (now : Z) :
  BadgerReliable BS → s_beforeCommit w.2 = None → log_inv q w l → l_closing l = false → d_closed (l_dispatcher l) = false →
  range_of (e_visits env) (l_dispatcher l) → is_i64 now → valid_deliveries (live (e_now env) (l_dispatcher l)) [dl] →
  max_uint32 < string_len reason →
  (Log_DeadLetter None env (wrap l dl) reason now w l).2 = Err (Sentinel store_ErrValueTooLarge).
Proof.
  intros Hrel Hhook Hi Hc Hd Hr Hnow Hv Hreason. unfold Log_DeadLetter, call, begin, checkContext. rewrite Hc. cbn [with_active].
  set (l0 := with_active l (l_active l + 1)). change (wrap l dl) with (wrap l0 dl).
  change [wrap l0 dl] with (wrap l0 <$> [dl]). rewrite unwrap_wrap. cbn [fmap list_fmap hd].
  apply (valid_unwrap _ l0) in Hv as Hv'.
  pose proof (DeadLetter_lemma env (dead_letter_persist reason now) (l_dispatcher l0) (w, l_storageErrors l0)
    (unwrap_one (wrap l0 dl)) (li_dispatch _ _ _ Hi) Hr) as H.
  destruct w as [db s]. pose proof (valid_pending q (db, s) l _ [dl] (r_Seq (dl_Record dl)) Hi Hv ltac:(by left)) as Hp.
  pose proof (pending_u64 q _ (log_inv_wf _ _ _ Hi) Hp) as Hu.
  pose proof (store_DeadLetter_lemma db s q _ reason now (li_store _ _ _ Hi) Hu Hnow) as Hstore.
  assert (Herr : (Store.DeadLetter db s (r_Seq (dl_Record dl)) reason now).2 = Some (Sentinel store_ErrValueTooLarge)).
  { destruct (Store.DeadLetter db s _ reason now) as [db' [e|]]; cbn.
    - destruct Hstore as [_ [[Hf|Hb]|[[_ Hn]|(-> & _)]]]; [by destruct (Hrel e)| |by rewrite Hn in Hp; destruct Hp|done].
      unfold before_commit in Hb. cbn in Hhook. by rewrite Hhook in Hb.
    - destruct Hstore as (_ & (_ & Hrep & _) & _). destruct Hp as [v Hp].
      unfold q_dead_letter in Hrep. rewrite Hp in Hrep.
      destruct (wf_dead _ (rep_wf _ _ _ Hrep) (r_Seq (dl_Record dl)) (dead_of (s_name s) (r_Seq (dl_Record dl)) reason now v)
        (lookup_insert_eq _ _ _)) as [_ [_ Hfits]]. unfold dead_fits in Hfits. cbn in Hfits. lia. }
  destruct (Dispatch.DeadLetter _ _ _ _ _) as [[d' w'] err]. cbn -[mapError dead_letter_persist] in H |- *.
  destruct (Store.DeadLetter db s _ reason now) as [db' e] eqn:E. cbn in Herr. subst e.
  assert (Hpe : dead_letter_persist reason now (r_Seq (dl_Record dl)) ((db, s), l_storageErrors l)
    = ((db', s), u64 (l_storageErrors l + 1), Some (Sentinel store_ErrValueTooLarge))) by (cbn; by rewrite E).
  destruct w' as [w' errors]. cbn [snd]. destruct err as [e|].
  - destruct H as [(Hcl & _)|(_ & _ & [(Hn & _)|(_ & Hpersist)])]; [cbn in Hcl; congruence|by destruct Hn|].
    pose proof (eq_trans (eq_sym Hpe) Hpersist) as [= _ _ <-]. reflexivity.
  - destruct H as (_ & _ & Hpersist & _). pose proof (eq_trans (eq_sym Hpe) Hpersist) as [=].
Qed.

(** C13. What [Read] returned can be committed as it is: as long as the leases
    are live, [Commit] completes all of the records in the store, or returns the
    store's error, counted, and never takes a delivery for a foreign or stale
    one. *)
Theorem Read_Commit_roundtrip {B : Badger} {BS : BadgerSpec B} (env : Env) (q : queue) (w : store_log) (l : logStream)
    (ds : list Dispatch.Delivery) :
  log_inv q w l → l_closing l = false → d_closed (l_dispatcher l) = false →
  range_of (e_visits env) (l_dispatcher l) → valid_deliveries (live (e_now env) (l_dispatcher l)) ds →
  match Log_Commit None env (wrap l <$> ds) w l with
  | (w', l', Ok _) =>
      opened w'.1 w'.2 (q_commit (delivered_seqs ds) q) ∧ l_commits l' = u64 (l_commits l + len ds)
      ∧ ∀ seq, tracked (l_dispatcher l') seq → tracked (l_dispatcher l) seq
  | (w', l', Err e) =>
      ∃ err, (Store.Commit w.1 w.2 (delivered_seqs ds)).2 = Some err ∧ e = map_err err
      ∧ l_storageErrors l' = u64 (l_storageErrors l + 1)
  end.
Proof.
  intros Hi Hc Hd Hr Hv. unfold Log_Commit, call, begin, checkContext. rewrite Hc. cbn [with_active].
  change (wrap l <$> ds) with (wrap (with_active l (l_active l + 1)) <$> ds). rewrite unwrap_wrap.
  set (l0 := with_active l (l_active l + 1)). set (internal := unwrap_one ∘ wrap l0 <$> ds).
  assert (Hseqs : delivered_seqs internal = delivered_seqs ds).
  { unfold internal, delivered_seqs. rewrite <- list_fmap_compose. by apply list_fmap_ext. }
  apply (valid_unwrap _ l0) in Hv as Hv'. fold internal in Hv'.
  pose proof (Commit_lemma env commit_persist (l_dispatcher l0) (w, l_storageErrors l0) internal (li_dispatch _ _ _ Hi) Hr) as H.
  destruct (Dispatch.Commit _ _ _ _ _) as [[d' [w' errors]] err]. cbn -[commit_persist] in H. rewrite Hseqs in H.
  assert (Hf : Forall is_u64 (delivered_seqs ds)).
  { apply Forall_forall. intros seq Hin. apply (pending_u64 q); [by eapply log_inv_wf|exact (valid_pending q w l _ ds seq Hi Hv Hin)]. }
  destruct w as [db s]. pose proof (store_Commit_lemma db s q _ (li_store _ _ _ Hi) Hf) as Hstore.
  cbn [commit_persist] in H. cbn [fst snd]. destruct err as [e|]; cbn -[mapError].
  - destruct H as [(Hcl & _)|(_ & _ & [(Hn & _)|(_ & Hp)])]; [cbn in Hcl; congruence|by destruct Hn|].
    destruct (Store.Commit db s _) as [db' [err|]]; [|discriminate Hp]. injection Hp as <- <- <-. by exists err.
  - assert (Hlen : len (wrap l0 <$> ds) = len ds) by (unfold len; by rewrite length_fmap). rewrite Hlen.
    destruct H as [(Hnil & -> & [= -> ->])|(_ & _ & Hp & Hco)].
    + apply fmap_nil_inv in Hnil as ->. cbn. destruct Hi as [Ho _ _]. split_and!; [by destruct q|done|done].
    + destruct (Store.Commit db s _) as [db' [err|]]; [discriminate Hp|]. injection Hp as <- <-.
      destruct Hstore as (_ & Ho & _). split_and!; [done|done|]. intros seq Ht. by apply (co_tracked _ _ _ _ Hco) in Ht as [? _].
Qed.

Lemma demo_facade_inv : log_inv demo_queue1 demo_w demo_facade.
Proof.
  split; [apply demo_opened1|].
  exact (alone_of _ (reachable_inv _ _ _ demo_log_ok (demo_reachable _ demo_steps4)) eq_refl eq_refl).
Qed.

Lemma Read_Commit_roundtrip_witness :
  match Log_Commit None (demo_env 103 (sys_d demo_sys4)) (wrap demo_facade <$> [demo_delivery1]) demo_w demo_facade with
  | (w', l', Ok _) => opened w'.1 w'.2 (q_commit [1] demo_queue1) ∧ l_commits l' = 1
  | _ => False
  end.
Proof.
  assert (Hv : valid_deliveries (live 103 (sys_d demo_sys4)) [demo_delivery1]).
  { split; [apply NoDup_singleton|]. intros dl Hin. apply list_elem_of_singleton in Hin as ->. eexists. split_and!.
    - vm_compute. reflexivity.
    - vm_compute. reflexivity.
    - vm_compute. reflexivity. }
  pose proof (Read_Commit_roundtrip (demo_env 103 (sys_d demo_sys4)) demo_queue1 demo_w demo_facade [demo_delivery1]
    demo_facade_inv ltac:(vm_compute; reflexivity) ltac:(vm_compute; reflexivity) (demo_range _ _) Hv) as H.
  assert (Hok : is_Ok (Log_Commit None (demo_env 103 (sys_d demo_sys4)) (wrap demo_facade <$> [demo_delivery1]) demo_w demo_facade).2)
    by (vm_compute; by eexists).
  destruct (Log_Commit _ _ _ _ _) as [[w' l'] [u|e]]; [|by destruct Hok]. destruct H as (Ho & Hc & _). split; [exact Ho|exact Hc].
Defined.

(** ** Options *)

(** C34. Options that [New] accepts configure every log: the directory is there,
    the interval is not negative, the ratio is strictly between zero and one or a
    NaN, every override has a valid name, and whatever name is opened later, its
    merged configuration has positive capacities and timeout, delays in order and
    a multiplier of at least one or a NaN, and is one that the dispatcher
    accepts.  That a NaN passes is the code's doing ([NaN_accepted]). *)
Theorem accepted_options_open {B : Badger} (badger_Open : BadgerOptions → res DB) (visits : list (string * LogConfig))
    (h h' : maps) (o : Options) (db : DB) (f : factory) :
  visits ≡ₚ map_to_list (logs_of (New_options h o).1 (New_options h o).2) →
  Factory_New badger_Open visits h o = (h', Ok (db, f)) →
  options_valid (logs_of h' (fa_options f)) (fa_options f)
  ∧ ∀ name, config_in_range (log_config h' (fa_options f) name)
      ∧ is_Ok (New false (dispatch_config (log_config h' (fa_options f) name))).
Proof.
  intros Hv HN. by destruct (Factory_New_lemma badger_Open visits h h' o db f Hv HN) as (Ho & Hc & _).
Qed.

Definition demo_override : LogConfig :=
  {| lc_PrefetchCapacity := 8; lc_MaxInFlight := 0; lc_VisibilityTimeout := 0;
     lc_RetryBackoff := {| bc_Initial := 0; bc_Max := 0; bc_Multiplier := float64_of_Z 0 |} |}.
Definition demo_options : maps * Options := WithLog ∅ (DefaultOptions "/data") "orders" demo_override.
Definition demo_factory : maps * res (DB * factory) :=
  Factory_New (λ _, Ok (∅ : DB)) [("orders", demo_override)] demo_options.1 demo_options.2.
Definition demo_f : factory :=
  match demo_factory.2 with Ok (_, f) => f | Err _ =>
    {| fa_root := {| root_closed := true; root_streams := ∅ |}; fa_options := demo_options.2; fa_closed := true;
       fa_closeErr := None; fa_logs := ∅; fa_loop := false; fa_gcRuns := 0; fa_gcRewrites := 0; fa_gcNoRewrite := 0;
       fa_gcErrors := 0; fa_maintenancePanics := 0 |} end.

Lemma demo_factory_ok : demo_factory = (demo_factory.1, Ok (∅, demo_f)).
Proof. vm_compute. reflexivity. Qed.

(** Every test of validateOptions is false on a NaN. *)
Lemma NaN_accepted :
  let o := WithDefaultLog (WithValueLogGCDiscardRatio (DefaultOptions "/data") S754_nan)
    (WithRetryBackoff DefaultLogConfig (WithMultiplier (lc_RetryBackoff DefaultLogConfig) S754_nan)) in
  validateOptions [] (New_options ∅ o).2 = None
  ∧ o_ValueLogGCDiscardRatio (New_options ∅ o).2 = S754_nan
  ∧ bc_Multiplier (lc_RetryBackoff (o_DefaultLog (New_options ∅ o).2)) = S754_nan.
Proof. vm_compute. split_and!; reflexivity. Qed.

Lemma accepted_options_open_witness :
  lc_PrefetchCapacity (log_config demo_factory.1 (fa_options demo_f) "orders") = 8
  ∧ lc_MaxInFlight (log_config demo_factory.1 (fa_options demo_f) "orders") = 1024
  ∧ is_Ok (New false (dispatch_config (log_config demo_factory.1 (fa_options demo_f) "orders"))).
Proof.
  split; [vm_compute; reflexivity|]. split; [vm_compute; reflexivity|].
  apply (accepted_options_open (λ _, Ok (∅ : DB)) [("orders", demo_override)] demo_options.1 demo_factory.1 demo_options.2
    ∅ demo_f); [vm_compute; reflexivity|exact demo_factory_ok].
Defined.

(** C35. Options are values although they hold a map: [WithLog] never changes a
    map that already exists, it returns options that read as the old ones with
    the one entry set; and no assignment to a map the caller holds reaches the
    options that [New] keeps. *)
Theorem options_isolated (h : maps) (o : Options) (name : string) (config : LogConfig) :
  (∀ l, o_Logs o = Some l → is_Some (h !! l)) →
  (∀ l m, h !! l = Some m → (WithLog h o name config).1 !! l = Some m)
  ∧ logs_of (WithLog h o name config).1 (WithLog h o name config).2 = <[name := config]> (logs_of h o)
  ∧ logs_of (WithLog h o name config).1 o = logs_of h o
  ∧ let '(h', o') := New_options h o in
    logs_of h' o' = logs_of h o
    ∧ ∀ l name' config', is_Some (h !! l) → logs_of (assign h' l name' config') o' = logs_of h o.
Proof.
  intros Hwf. assert (Hkeep : ∀ m l m', h !! l = Some m' → (alloc h m).1 !! l = Some m') by (intros; by apply alloc_lookup).
  split_and!.
  - intros l m Hl. unfold WithLog. destruct (alloc h _) as [h1 l1] eqn:E.
    pose proof (Hkeep (<[name := config]> (logs_of h o)) l m Hl) as H. by rewrite E in H.
  - unfold WithLog. destruct (alloc h _) as [h1 l1] eqn:E. unfold logs_of at 1. cbn.
    pose proof (alloc_new h (<[name := config]> (logs_of h o))) as H. rewrite E in H. cbn in H. by rewrite H.
  - unfold WithLog. destruct (alloc h _) as [h1 l1] eqn:E. cbn [fst]. unfold logs_of at 1 2. destruct (o_Logs o) as [l|] eqn:Hl; [|done].
    destruct (Hwf l eq_refl) as [m Hm]. rewrite Hm. pose proof (Hkeep (<[name := config]> (logs_of h o)) l m Hm) as H.
    rewrite E in H. cbn in H. by rewrite H.
  - unfold New_options. cbn [o_Logs WithDefaultLog]. unfold cloneLogConfigs.
    assert (Hlogs : ∀ h1 o1 (b : bool), logs_of h1 (if b then WithValueLogGCDiscardRatio o1 float64_half else o1) = logs_of h1 o1)
      by (by intros ? ? []).
    destruct (o_Logs o) as [l|] eqn:Hl.
    + destruct (Hwf l eq_refl) as [m Hm]. rewrite Hm. change (default ∅ (Some m)) with m.
      pose proof (alloc_new h m) as Hnew. pose proof (alloc_fresh h m) as Hfresh. destruct (alloc h m) as [h1 l1].
      cbn in Hnew, Hfresh. assert (Ho : logs_of h o = m) by (unfold logs_of; by rewrite Hl, Hm).
      rewrite Ho. split.
      * rewrite Hlogs. unfold logs_of. cbn. by rewrite Hnew.
      * intros l' name' config' [m' Hm']. rewrite Hlogs. unfold logs_of, assign. cbn.
        destruct (h1 !! l'); [|by rewrite Hnew]. rewrite lookup_insert_ne by congruence. by rewrite Hnew.
    + assert (Ho : logs_of h o = ∅) by (unfold logs_of; by rewrite Hl). rewrite Ho.
      split; [by rewrite Hlogs|]. intros l name' config' _. by rewrite Hlogs.
Qed.

Lemma options_isolated_witness :
  logs_of (WithLog demo_options.1 demo_options.2 "mail" DefaultLogConfig).1 demo_options.2
  = logs_of demo_options.1 demo_options.2.
Proof.
  apply (options_isolated demo_options.1 demo_options.2 "mail" DefaultLogConfig).
  intros l [= <-]. vm_compute. by eexists.
Defined.

(** ** The factory *)

Section closed.
Context {B : Badger}.

Lemma call_closed {W A} (body : W → logStream → W * logStream * res A) (w : W) (l : logStream) :
  l_closing l = true → call None body w l = (w, l, Err (Sentinel ErrClosed)).
Proof. intros Hc. unfold call, begin, checkContext. by rewrite Hc. Qed.

Lemma log_exec_closed op (w : store_log) (l : logStream) :
  l_closing l = true → log_exec None op w l = (w, l, Err (Sentinel ErrClosed)).
Proof.
  intros Hc. destruct op; unfold log_exec, Log_Write, Log_BatchWrite, Log_Read, Log_Commit, Log_Retry, Log_Extend, Log_DeadLetter,
    Log_DeadLetters, Log_Requeue, Log_Stats; by rewrite call_closed.
Qed.

Lemma Factory_log_closed (name : string) op (db : DB) (f : factory) l s :
  fa_logs f !! name = Some l → root_streams (fa_root f) !! name = Some s → l_closing l = true →
  Factory_log None name op db f = Some (db, f, Err (Sentinel ErrClosed)).
Proof.
  intros Hl Hs Hc. unfold Factory_log. rewrite Hl, Hs. cbn. rewrite log_exec_closed by done. cbn.
  rewrite !insert_id by done. destruct f as [r ? ? ? ? ? ? ? ? ? ?], r. done.
Qed.
End closed.

(** C36. [Close] is final: afterwards the storage is closed, every log refuses
    every call, [Open] and [RunMaintenance] return [ErrClosed] and another
    [Close] returns what the first one did, and none of them changes the
    database or the factory. *)
Theorem Close_is_final {B : Badger} (db db' : DB) (f f' : factory) (err : option goerr) :
  fa_closed f = false → Factory_Close None db f = (db', f', err) →
  root_closed (fa_root f') = true
  ∧ (∀ h self name, Factory_Open h None self name db' f' = (db', f', Err (Sentinel ErrClosed)))
  ∧ (∀ runGC, RunMaintenance runGC None db' f' = (db', f', Returned (Some (Sentinel ErrClosed))))
  ∧ (∀ name op l s, fa_logs f' !! name = Some l → root_streams (fa_root f') !! name = Some s →
       Factory_log None name op db' f' = Some (db', f', Err (Sentinel ErrClosed)))
  ∧ Factory_Close None db' f' = (db', f', err).
Proof.
  intros Hc HC. unfold Factory_Close in HC. cbn [checkContext] in HC. rewrite Hc in HC.
  destruct (Root_Close db _) as [[db1 root] storageErr] eqn:Hroot. injection HC as <- <- <-.
  split_and!; try done.
  - cbn. unfold Root_Close in Hroot. cbn in Hroot. destruct (root_closed (fa_root f)) eqn:E; [by injection Hroot as <- <- <-|].
    destruct (db_Close db). by injection Hroot as <- <- <-.
  - intros name op l s Hl Hs. apply (Factory_log_closed name op _ _ l s); [done|done|]. cbn in Hl.
    rewrite lookup_fmap in Hl. destruct (fa_logs f !! name) as [l0|]; [|done]. injection Hl as <-.
    unfold close_begin. by destruct (l_closing l0) eqn:E.
Qed.

Definition demo_open : DB * factory * res string := Factory_Open demo_factory.1 None 7 "orders" ∅ demo_f.

Lemma Close_is_final_witness :
  is_Some (fa_logs demo_open.1.2 !! "orders")
  ∧ match Factory_Close None demo_open.1.1 demo_open.1.2 with
    | (db', f', err) => err = None ∧ Factory_Open demo_factory.1 None 8 "mail" db' f' = (db', f', Err (Sentinel ErrClosed))
    end.
Proof.
  split; [vm_compute; by eexists|].
  assert (Hok : (Factory_Close None demo_open.1.1 demo_open.1.2).2 = None) by (vm_compute; reflexivity).
  destruct (Factory_Close None demo_open.1.1 demo_open.1.2) as [[db' f'] err] eqn:E. split; [exact Hok|].
  apply (Close_is_final demo_open.1.1 db' demo_open.1.2 f' err ltac:(vm_compute; reflexivity) E).
Defined.

(** What Lifecycle.v keeps of a log, and its steps: they are what [begin], [end]
    and [close] of Log.v do to the log, the other fields left aside. *)
Definition life_of (l : logStream) (calls : gmap nat call_pc) : life :=
  {| lf_closing := l_closing l; lf_active := l_active l; lf_calls := calls; lf_signal := d_signal (l_dispatcher l) |}.

Lemma begin_steps s name l calls i ctx pc :
  fc_logs s !! name = Some (life_of l calls) → calls !! i = None → pc = CallBusy ∨ pc = CallReading →
  match begin l ctx with
  | (l', None) => new_step s (set_logs s (<[name := life_of l' (<[i := pc]> calls)]> (fc_logs s)))
  | (l', Some _) => life_of l' calls = life_of l calls
  end.
Proof.
  intros Hl Hi Hpc. unfold begin. destruct (checkContext ctx); [done|]. destruct (l_closing l) eqn:Hc; [done|].
  exact (fac_begin s name (life_of l calls) i pc Hl Hc Hi Hpc).
Qed.

Lemma end_steps s name l calls i pc :
  fc_logs s !! name = Some (life_of l calls) → calls !! i = Some pc → pc ≠ CallBlocked →
  run_step s (set_logs s (<[name := life_of (end_ l) (delete i calls)]> (fc_logs s))).
Proof. intros Hl Hi Hpc. exact (fac_end s name (life_of l calls) i pc Hl Hi Hpc). Qed.

Lemma close_steps s name l calls :
  d_closed (l_dispatcher l) = l_closing l → fc_logs s !! name = Some (life_of l calls) →
  new_step s (set_logs s (<[name := life_of (close_begin l) calls]> (fc_logs s))).
Proof.
  intros Hd Hl. assert (Heq : life_of (close_begin l) calls = life_close (life_of l calls)).
  { unfold close_begin, life_of, life_close, Close. rewrite Hd. by destruct (l_closing l) eqn:Hc; cbn; rewrite ?Hc. }
  rewrite Heq. by apply fac_log_close.
Qed.

(** A call that notifies, and a [Read] that takes the token in [wait], without a
    deadline or before it. *)
Lemma notify_steps s name l calls i :
  fc_logs s !! name = Some (life_of l calls) → calls !! i = Some CallBusy →
  run_step s (set_logs s (<[name := life_of (with_dispatcher l (notifyLocked (l_dispatcher l))) (<[i := CallNotified]> calls)]> (fc_logs s))).
Proof. intros Hl Hi. exact (fac_notify s name (life_of l calls) i Hl Hi). Qed.

Lemma wait_steps s name l calls i pc now wakeAt d :
  fc_logs s !! name = Some (life_of l calls) → calls !! i = Some pc → pc = CallReading ∨ pc = CallBlocked →
  wait now wakeAt WaitSignal (l_dispatcher l) = Some (d, None) →
  run_step s (set_logs s (<[name := life_of (with_dispatcher l d)
    (<[i := if l_closing l then CallLeaving else CallReading]> calls)]> (fc_logs s))).
Proof.
  intros Hl Hi Hpc Hw. assert (H : d_signal (l_dispatcher l) = true ∧ d_signal d = false).
  { unfold wait in Hw. repeat case_match; try done; by injection Hw as <-. }
  destruct H as [Hsig Hd].
  assert (Heq : life_of (with_dispatcher l d) (<[i := if l_closing l then CallLeaving else CallReading]> calls)
    = life_call (life_of l calls) i (if lf_closing (life_of l calls) then CallLeaving else CallReading) false).
  { unfold life_of, life_call. cbn. by rewrite Hd. }
  rewrite Heq. by apply (fac_wake s name (life_of l calls) i pc).
Qed.

(** C18. The storage is closed last, whatever the interleaving: when [Close] has
    closed the database, every log is closed and none of its calls is running,
    no value-log pass is collecting, and the maintenance goroutine has ended; and
    from then on no step of the program changes that. *)
Theorem storage_closed_last (s s' : fac) :
  fac_reachable s → fc_storage s = true → rtc fac_step s s' →
  fc_storage s' = true
  ∧ (∀ name l, fc_logs s' !! name = Some l → lf_closing l = true ∧ lf_active l = 0 ∧ lf_calls l = ∅)
  ∧ (∀ i, fc_gc s' !! i ≠ Some GcCollect) ∧ fc_loop s' = false.
Proof.
  intros Hr Hst Hsteps. assert (Hr' : fac_reachable s').
  { destruct Hr as [loop H]. exists loop. by etrans. }
  pose proof (fac_reachable_inv s' Hr') as Hinv.
  assert (Hst' : fc_storage s' = true).
  { clear Hinv Hr' Hr. induction Hsteps as [|a b c Hab _ IH]; [done|]. apply IH.
    destruct Hab as [H|H]; destruct H; try done. by destruct (fc_closed s). }
  pose proof (proj1 (fi_storage _ Hinv) Hst') as Hd.
  assert (Hc : fc_closed s' = true) by (destruct (fc_closed s') eqn:E; [done|apply (fi_closed _ Hinv) in E; congruence]).
  split_and!; [done| | |apply not_looping; [done|congruence|congruence]].
  - intros name l Hl. destruct (fi_logs _ Hinv name l Hc Hl) as [Hin|[Hcl Hrun]].
    + rewrite Hd in Hin. by apply elem_of_nil in Hin.
    + split_and!; [done| |done]. rewrite (fi_active _ Hinv _ _ Hl), Hrun, map_size_empty. done.
  - intros i. by apply (fi_collect _ Hinv).
Qed.

(** One log, a call running when [Close] starts, a pass behind it. *)
Definition close_path1 : fac := set_logs (fac_init false) {[ "orders" := life_init ]}.
Definition close_path2 : fac := set_logs close_path1 {[ "orders" := life_begin life_init 1 CallReading ]}.
Definition close_path3 : fac := start_close close_path2 ["orders"].
Definition close_path4 : fac := set_close close_path3 (CloseLogs ["orders"]).
Definition close_path5 : fac :=
  set_close (set_logs close_path4 {[ "orders" := life_close (life_begin life_init 1 CallReading) ]}) (CloseWait "orders" []).
Definition close_path6 : fac := set_logs close_path5 {[ "orders" := life_end (life_close (life_begin life_init 1 CallReading)) 1 ]}.
Definition close_path7 : fac := set_close (set_close close_path6 (CloseLogs [])) CloseGc.
Definition close_path8 : fac := close_storage (set_gc (set_close close_path7 CloseHold) (Some HeldByClose) (fc_gc close_path7)).

Lemma close_path_reachable3 : fac_reachable close_path3.
Proof.
  exists false. eapply rtc_l; [left; exact (fac_open (fac_init false) "orders" eq_refl eq_refl)|].
  change (set_logs _ _) with close_path1.
  eapply rtc_l; [left; apply (fac_begin close_path1 "orders" life_init 1 CallReading); [reflexivity|reflexivity|reflexivity|by right]|].
  eapply rtc_once. left. exact (fac_close_start close_path2 ["orders"] eq_refl (Permutation_refl _)).
Qed.

Lemma close_path_reachable8 : fac_reachable close_path8.
Proof.
  destruct close_path_reachable3 as [loop H]. exists loop. etrans; [exact H|].
  eapply rtc_l; [right; exact (fac_close_loop close_path3 ["orders"] eq_refl eq_refl)|].
  eapply rtc_l; [right; exact (fac_close_log close_path4 "orders" [] _ eq_refl eq_refl)|].
  eapply rtc_l; [right; apply (fac_end close_path5 "orders" (life_close (life_begin life_init 1 CallReading)) 1 CallReading); [reflexivity|reflexivity|done]|].
  eapply rtc_l; [right; apply (fac_close_wait close_path6 "orders" [] (life_end (life_close (life_begin life_init 1 CallReading)) 1));
    [reflexivity|reflexivity|vm_compute; discriminate]|].
  eapply rtc_l; [right; exact (fac_close_logs_done (set_close close_path6 (CloseLogs [])) eq_refl)|].
  eapply rtc_l; [right; exact (fac_close_lock close_path7 eq_refl eq_refl)|].
  eapply rtc_once. right. exact (fac_close_storage (set_gc (set_close close_path7 CloseHold) (Some HeldByClose) (fc_gc close_path7)) eq_refl).
Qed.

Lemma storage_closed_last_witness :
  fc_storage close_path8 = true ∧ ∀ name l, fc_logs close_path8 !! name = Some l → lf_calls l = ∅.
Proof.
  split; [reflexivity|]. intros name l Hl.
  destruct (storage_closed_last close_path8 close_path8 close_path_reachable8 eq_refl (rtc_refl _ _)) as (_ & H & _).
  destruct (H name l Hl) as (_ & _ & Hr). exact Hr.
Defined.




(** Nothing under way is left, and readers wait. *)
Lemma wait_stuck s name todo l :
  fc_close s = CloseWait name todo → fc_gc s = ∅ → fc_loop s = false →
  (∀ n l', fc_logs s !! n = Some l' → lf_signal l' = false ∧ map_Forall (λ _ pc, pc = CallBlocked) (lf_calls l')) →
  fc_logs s !! name = Some l → 0 < lf_active l → ∀ s', ¬ run_step s s'.
Proof.
  intros Hp Hg Hlo Hall Hl Ha s' Hstep.
  destruct Hstep as
    [s n l' i pc Hl' Hi Hpc|s n l' i Hl' Hi|s n l' i Hl' Hi|s n l' i pc Hl' Hi Hpc Hsig|s i Hi Hm|s i Hi|s i Hi|s Hl' Hc Hg'
    |s t Hp' Hl'|s n t l' Hp' Hl'|s n t l' Hp' Hl' Ha'|s Hp'|s Hp' Hm|s Hp'];
    try (by rewrite Hg, lookup_empty in Hi); try congruence.
  1-4: destruct (Hall _ _ Hl') as [Hs Hb]; try congruence; specialize (Hb i _ Hi); cbn in Hb; congruence.
  assert (n = name) as -> by congruence. assert (l' = l) as -> by congruence. lia.
Qed.

(** With two readers in their wait when [Close] starts, it can wait for ever: one
    of them takes the only notification. *)
Definition on_orders (s : fac) (l : life) : fac := set_logs s (<["orders" := l]> (fc_logs s)).
Definition hang_life1 : life := life_begin life_init 1 CallReading.
Definition hang_life2 : life := life_begin hang_life1 2 CallReading.
Definition hang_life3 : life := life_call hang_life2 1 CallBlocked false.
Definition hang_life4 : life := life_call hang_life3 2 CallBlocked false.
Definition hang_life5 : life := life_call (life_close hang_life4) 1 CallLeaving false.
Definition hang_start : fac :=
  start_close (on_orders (on_orders (on_orders (fac_init false) life_init) hang_life1) hang_life2) ["orders"].
Definition hang_logs : fac := set_close (on_orders (on_orders hang_start hang_life3) hang_life4) (CloseLogs ["orders"]).
Definition hang_wait : fac := set_close (on_orders hang_logs (life_close hang_life4)) (CloseWait "orders" []).
Definition hang_end : fac := on_orders (on_orders hang_wait hang_life5) (life_end hang_life5 1).

Lemma hang_reachable : fac_reachable hang_start.
Proof.
  exists false. eapply rtc_l; [left; exact (fac_open (fac_init false) "orders" eq_refl eq_refl)|].
  eapply rtc_l; [left; apply (fac_begin _ "orders" life_init 1 CallReading); [reflexivity|reflexivity|reflexivity|by right]|].
  eapply rtc_l; [left; apply (fac_begin _ "orders" hang_life1 2 CallReading); [reflexivity|reflexivity|reflexivity|by right]|].
  apply rtc_once. left. apply fac_close_start; [reflexivity|]. vm_compute. reflexivity.
Qed.

Lemma hang_runs : rtc run_step hang_start hang_end.
Proof.
  eapply rtc_l; [exact (fac_block hang_start "orders" hang_life2 1 eq_refl eq_refl)|].
  eapply rtc_l; [exact (fac_block (on_orders hang_start hang_life3) "orders" hang_life3 2 eq_refl eq_refl)|].
  eapply rtc_l; [exact (fac_close_loop (on_orders (on_orders hang_start hang_life3) hang_life4) ["orders"] eq_refl eq_refl)|].
  eapply rtc_l; [exact (fac_close_log hang_logs "orders" [] hang_life4 eq_refl eq_refl)|].
  eapply rtc_l; [apply (fac_wake hang_wait "orders" (life_close hang_life4) 1 CallBlocked); [reflexivity|reflexivity|by right|reflexivity]|].
  apply rtc_once. apply (fac_end (on_orders hang_wait hang_life5) "orders" hang_life5 1 CallLeaving); [reflexivity|reflexivity|done].
Qed.

Lemma hang_left : lf_calls (life_end hang_life5 1) = {[ 2%nat := CallBlocked ]}.
Proof. vm_compute. reflexivity. Qed.

Lemma Close_can_wait :
  ∃ s s', fac_reachable s ∧ fc_closed s = true ∧ rtc run_step s s' ∧ waits_for_readers s' ∧ ∀ s'', ¬ run_step s' s''.
Proof.
  assert (Hall : lf_signal (life_end hang_life5 1) = false
    ∧ map_Forall (λ _ pc, pc = CallBlocked) (lf_calls (life_end hang_life5 1))).
  { split; [reflexivity|]. rewrite hang_left. by apply map_Forall_singleton. }
  exists hang_start, hang_end. split_and!; [exact hang_reachable|reflexivity|exact hang_runs| |].
  - exists "orders", [], (life_end hang_life5 1). split_and!; [reflexivity|reflexivity| |apply Hall..].
    rewrite hang_left. apply map_non_empty_singleton.
  - apply (wait_stuck hang_end "orders" [] (life_end hang_life5 1)); [reflexivity|reflexivity|reflexivity| |reflexivity|reflexivity].
    intros n l' Hl'. assert (Heq : fc_logs hang_end = {[ "orders" := life_end hang_life5 1 ]}) by (vm_compute; reflexivity).
    rewrite Heq in Hl'. apply lookup_singleton_Some in Hl' as [_ <-]. exact Hall.
Qed.

(** ** Maintenance *)

Section maintenance.
Context {B : Badger} (runGC : float64 → DB → DB * outcome_of (option goerr)).

(** What no attempt changes, and the attempts that are not accounted for. *)
Definition same_service (f f' : factory) : Prop :=
  fa_closed f' = fa_closed f ∧ fa_logs f' = fa_logs f ∧ fa_options f' = fa_options f ∧ fa_root f' = fa_root f.
Definition unaccounted (f : factory) : Z :=
  u64 (fa_gcRuns f - fa_gcRewrites f - fa_gcNoRewrite f - fa_gcErrors f - fa_maintenancePanics f).

Lemma u64_shift x : ∃ k, u64 x = x + k * 2 ^ 64.
Proof. exists (- (x / 2 ^ 64)). unfold u64. zmod. Qed.

Lemma u64_plus x k : u64 (x + k * 2 ^ 64) = u64 x.
Proof. unfold u64. by rewrite Z.mod_add by lia. Qed.

Lemma unaccounted_add f runs rewrites noRewrite errors panics :
  unaccounted (add_counters f runs rewrites noRewrite errors panics)
  = u64 (unaccounted f + (runs - rewrites - noRewrite - errors - panics)).
Proof.
  unfold unaccounted, add_counters. cbn [fa_gcRuns fa_gcRewrites fa_gcNoRewrite fa_gcErrors fa_maintenancePanics].
  destruct (u64_shift (fa_gcRuns f + runs)) as [k1 ->]. destruct (u64_shift (fa_gcRewrites f + rewrites)) as [k2 ->].
  destruct (u64_shift (fa_gcNoRewrite f + noRewrite)) as [k3 ->]. destruct (u64_shift (fa_gcErrors f + errors)) as [k4 ->].
  destruct (u64_shift (fa_maintenancePanics f + panics)) as [k5 ->].
  destruct (u64_shift (fa_gcRuns f - fa_gcRewrites f - fa_gcNoRewrite f - fa_gcErrors f - fa_maintenancePanics f)) as [k6 ->].
  match goal with |- u64 ?a = u64 ?b => replace a with (b + (k1 - k2 - k3 - k4 - k5 - k6) * 2 ^ 64) by ring end.
  apply u64_plus.
Qed.

Lemma u64_u64 x : u64 (u64 x) = u64 x.
Proof. apply u64_id, u64_range. Qed.

Lemma unaccounted_u64 f : u64 (unaccounted f) = unaccounted f.
Proof. apply u64_u64. Qed.

Lemma runMaintenanceTick_lemma db f :
  fa_closed f = false →
  (∀ ratio db e, (runGC ratio db).2 = Returned (Some e) →
     errors_Is e ErrClosed = false ∧ errors_Is e context_Canceled = false) →
  let '(db', f', keepRunning) := runMaintenanceTick runGC None db f in
  keepRunning = true ∧ same_service f f' ∧ u64 (fa_gcRuns f') = u64 (fa_gcRuns f + 1) ∧ unaccounted f' = unaccounted f.
Proof.
  intros Hc He. unfold runMaintenanceTick, RunMaintenance, checkContext. rewrite Hc.
  specialize (He (o_ValueLogGCDiscardRatio (fa_options (add_counters f 1 0 0 0 0))) db).
  assert (Hacc : ∀ w n e p, w + n + e + p = 1 →
    let f' := add_counters (add_counters f 1 0 0 0 0) 0 w n e p in
    same_service f f' ∧ u64 (fa_gcRuns f') = u64 (fa_gcRuns f + 1) ∧ unaccounted f' = unaccounted f).
  { intros w n e p Hsum. split_and!; [done| |].
    - cbn [fa_gcRuns add_counters]. by rewrite !Z.add_0_r, !u64_u64.
    - rewrite !unaccounted_add. destruct (u64_shift (unaccounted f + (1 - 0 - 0 - 0 - 0))) as [k ->].
      rewrite <- (unaccounted_u64 f) at 2. rewrite <- (u64_plus (unaccounted f) k). f_equal. lia. }
  destruct (runGC _ db) as [db' [[e|]|value]]; cbn in He.
  - destruct (He e eq_refl) as [He1 He2]. destruct (errors_Is e store_ErrNoRewrite).
    + split; [done|]. by apply (Hacc 0 1 0 0).
    + split; [cbn; by rewrite He1, He2|]. by apply (Hacc 0 0 1 0).
  - split; [done|]. by apply (Hacc 1 0 0 0).
  - split; [done|]. by apply (Hacc 0 0 0 1).
Qed.

Lemma maintenanceWorker_lemma ticks db f :
  fa_closed f = false →
  (∀ ratio db e, (runGC ratio db).2 = Returned (Some e) →
     errors_Is e ErrClosed = false ∧ errors_Is e context_Canceled = false) →
  let '(db', f', waiting) := maintenanceWorker runGC (replicate ticks (WorkerTick None)) db f in
  waiting = true ∧ same_service f f' ∧ u64 (fa_gcRuns f') = u64 (fa_gcRuns f + Z.of_nat ticks) ∧ unaccounted f' = unaccounted f.
Proof.
  intros Hc He. revert db f Hc. induction ticks as [|ticks IH]; intros db f Hc; cbn [replicate maintenanceWorker].
  { by rewrite Z.add_0_r. }
  pose proof (runMaintenanceTick_lemma db f Hc He) as H.
  destruct (runMaintenanceTick runGC None db f) as [[db1 f1] keep]. destruct H as (-> & [S1 [S2 [S3 S4]]] & Hr & Hu).
  specialize (IH db1 f1 ltac:(congruence)). destruct (maintenanceWorker _ _ _ _) as [[db2 f2] waiting].
  destruct IH as (-> & [T1 [T2 [T3 T4]]] & Hr' & Hu'). split_and!; [done|split_and!; congruence| |congruence].
  rewrite Hr'. destruct (u64_shift (fa_gcRuns f1)) as [k Hk]. rewrite Hr in Hk.
  destruct (u64_shift (fa_gcRuns f + 1)) as [k' Hk'].
  rewrite <- (u64_plus (fa_gcRuns f + Z.of_nat (S ticks)) (k' - k)). f_equal. lia.
Qed.
End maintenance.

(** C37. Maintenance survives its failures.  As long as the factory is open, every
    tick runs one attempt, also after an attempt that failed or panicked, and
    every attempt is counted once: as a rewrite, as nothing to rewrite, as an
    error or as a panic; the service the factory gives is untouched. *)
Theorem maintenance_survives {B : Badger} (runGC : float64 → DB → DB * outcome_of (option goerr)) (ticks : nat)
    (db : DB) (f : factory) :
  fa_closed f = false →
  (∀ ratio db e, (runGC ratio db).2 = Returned (Some e) →
     errors_Is e ErrClosed = false ∧ errors_Is e context_Canceled = false) →
  let '(db', f', waiting) := maintenanceWorker runGC (replicate ticks (WorkerTick None)) db f in
  waiting = true ∧ same_service f f' ∧ u64 (fa_gcRuns f') = u64 (fa_gcRuns f + Z.of_nat ticks)
  ∧ unaccounted f' = unaccounted f.
Proof. apply maintenanceWorker_lemma. Qed.

(** A pass that always panics. *)
Definition panic_runGC (_ : float64) (db : DB) : DB * outcome_of (option goerr) := (db, Panicked "boom").

Lemma maintenance_survives_witness :
  let '(db', f', waiting) := maintenanceWorker panic_runGC (replicate 3 (WorkerTick None)) ∅ demo_f in
  fa_maintenancePanics f' = 3 ∧ fa_gcRuns f' = 3 ∧ waiting = true.
Proof.
  pose proof (maintenance_survives panic_runGC 3 ∅ demo_f ltac:(vm_compute; reflexivity)
    ltac:(intros ratio db e; discriminate)) as H.
  assert (Hn : fa_maintenancePanics (maintenanceWorker panic_runGC (replicate 3 (WorkerTick None)) ∅ demo_f).1.2 = 3
    ∧ fa_gcRuns (maintenanceWorker panic_runGC (replicate 3 (WorkerTick None)) ∅ demo_f).1.2 = 3)
    by (split; vm_compute; reflexivity).
  destruct (maintenanceWorker _ _ _ _) as [[db' f'] waiting]. destruct H as (Hw & _). destruct Hn as [Hp Hr].
  split; [exact Hp|split; [exact Hr|exact Hw]].
Defined.

(** ** The typed wrapper *)

(** C38. A typed [Read] loses no lease.  It decodes every record of the page, in
    order, each keeping the raw delivery that completes it; or it returns the
    byte log's error; or, when the codec fails or panics on a record, an error
    that holds every raw delivery of the page and the index of the first record
    that does not decode. *)
Theorem typed_Read_retains {T : Type} (codec : Codec T) (r : res (list Delivery)) :
  match Typed_Read codec r with
  | Ok decoded =>
      r = Ok (typed_unwrap decoded)
      ∧ ∀ y, y ∈ decoded → safeDecode codec (td_Payload (yd_raw y)) = Ok (yd_Value y)
          ∧ yd_Position y = td_Position (yd_raw y) ∧ yd_Attempt y = td_Attempt (yd_raw y)
  | Err (RawError err) => r = Err err
  | Err (DecodeError raw index err) =>
      r = Ok raw ∧ ∃ k delivery, index = Z.of_nat k ∧ raw !! k = Some delivery
        ∧ safeDecode codec (td_Payload delivery) = Err err
        ∧ ∀ j before, (j < k)%nat → raw !! j = Some before → is_Ok (safeDecode codec (td_Payload before))
  end.
Proof.
  unfold Typed_Read, decode_page. destruct r as [raw|e]; [|done].
  pose proof (decode_loop_lemma codec td_Payload typed_delivery 0 raw) as H.
  destruct (decode_loop codec td_Payload typed_delivery 0 raw) as [decoded|[i e]].
  - split.
    + f_equal. unfold typed_unwrap. induction H as [|d y raw decoded (v & _ & ->) _ IH]; [done|]. cbn. by f_equal.
    + induction H as [|d y raw decoded (v & Hv & ->) _ IH]; intros y' Hin; [by apply elem_of_nil in Hin|].
      apply elem_of_cons in Hin as [->|Hin]; [done|by apply IH].
  - split; [done|]. destruct H as (k & d & Hi & Hk & He & Hb). exists k, d. split_and!; [lia|done|done|done].
Qed.

(** A typed [BatchWrite] that cannot encode one of its values writes none of
    them, and otherwise writes the encodings, in order, as one batch of the byte
    log; a panic of the codec is an error that [errors.Is] finds to be
    [ErrCodecPanic]. *)
Theorem typed_BatchWrite_atomic {T W : Type} (codec : Codec T) (raw : list bytes → W → W * res (list Position))
    (values : list T) (w : W) :
  (∃ data, Forall2 (λ value encoded, safeEncode codec value = Ok encoded) values data
           ∧ Typed_BatchWrite codec raw values w = raw data w)
  ∨ ∃ value err e, value ∈ values ∧ safeEncode codec value = Err err
      ∧ Typed_BatchWrite codec raw values w = (w, Err e)
      ∧ ∀ p, Encode codec value = Panicked p → errors_Is err typed_ErrCodecPanic = true.
Proof.
  unfold Typed_BatchWrite. pose proof (encode_all_lemma codec values) as H.
  destruct (encode_all codec values) as [data|e].
  - left. by exists data.
  - right. destruct H as (v & err & Hin & He). exists v, err, e. split_and!; try done.
    intros p Hp. unfold safeEncode in He. rewrite Hp in He. by injection He as <-.
Qed.
