(* ===== verification/HistoryTheorems.v ===== *)
(** * Correctness of whole histories

    What the package promises over any sequence of public calls, restarts and
    crashes, with an instance on the in-memory store. *)
From S2P Require Import Prelude Errors Keys Badger BadgerMem Store StoreSpec StoreRefine StoreHistory.
From S2P Require Import StoreTheorems Dispatch DispatchInv DispatchOps Queue QueueInv StoreLog QueueTheorems ReadRun.
From S2P Require Import Consumer ConsumerTheorems Options Log LogRefine LogConsumer Factory FactoryHistory.
From S2P Require Import DispatchTheorems FacadeTheorems.
From Stdlib Require Import Strings.Byte.
#[local] Open Scope Z_scope.

(** C1. The whole package refines a family of durable queues.  In any history of
    [New], [Open], calls on any logs, their [Close], maintenance and the
    factory's [Close], with processes that end and start again on the same
    database, the database always represents the queues that exactly the calls
    that returned nil produce, every open log is consistent with its queue, what
    the calls answered is what the queues had at that moment, and no sentinel
    that [mapError] replaces is seen. *)
Theorem process_history_refines {B : Badger} {BS : BadgerSpec B} (qs : gmap string queue) (p : process) (evs : list event) :
  process_inv qs p → run_ok p evs →
  ∃ p' trace, process_run p evs = Some (p', trace) ∧ process_inv (trace_effect qs trace) p' ∧ answers qs trace.
Proof. apply process_run_lemma. Qed.

(** ** After a restart *)

(** C2. At least once, across restarts and crashes.  After any history, when a log
    whose limit on tracked records does not overflow ([limit_fits]) is opened for
    the first time in its process, a consumer that alone reads and commits until
    its context ends gets every record whose write returned nil and that no call
    that returned nil completed, whatever was leased, retried or under way before;
    each once, in the order of the sequences, with the bytes that were written;
    and then nothing is pending.  It ends earlier only with the error that an
    operation of this very run returned ([stopped_by]): a scan or a commit that
    the database failed, on the store as the commits before left it, or a receipt
    that could not be made; and then it has got the oldest records. *)
Theorem at_least_once {B : Badger} {BS : BadgerSpec B} {Rng : Type} (newReceipt : Rng → res Receipt * Rng)
    (visits : Dispatcher → list (Receipt * flight)) (qs : gmap string queue) (p p' : process) (evs : list event)
    (trace : list (event * res log_result)) (f f' : factory) (self : nat) (name opened_name : string) (db' : DB)
    (clock : list Z) (count : Z) (g : Rng) :
  process_inv qs p → run_ok p evs → process_run p evs = Some (p', trace) →
  pr_factory p' = Some f → fa_logs f !! name = None →
  Factory_Open (pr_maps p') None self name (pr_db p') f = (db', f', Ok opened_name) →
  limit_fits (dispatch_config (log_config (pr_maps p') (fa_options f) name)) →
  (∀ d, range_of (visits d) d) → 0 < count →
  (size (q_pending (queue_of (trace_effect qs trace) name)) < length clock)%nat →
  ∃ l s, fa_logs f' !! name = Some l ∧ root_streams (fa_root f') !! name = Some s
    ∧ let records := all_records (queue_of (trace_effect qs trace) name) in
      match drain newReceipt visits clock count (db', s) l g with
      | (w', _, ds, Some e) =>
          e = deadline ∧ delivery_content <$> ds = record_content <$> records ∧ (∀ seq, ¬ log_pending w' seq)
          ∨ (∃ err, e = map_err err ∧ stopped_by newReceipt (db', s) w' err)
            ∧ (delivery_content <$> ds) `prefix_of` (record_content <$> records)
      | (_, _, _, None) => False
      end.
Proof.
  intros Hp Hok Hrun Hf Hl Hopen Hlimit Hv Hcount Hfuel.
  destruct (process_run_lemma qs p evs Hp Hok) as (p1 & trace1 & Hrun' & Hp1 & _).
  rewrite Hrun in Hrun'. injection Hrun' as <- <-. set (qs' := trace_effect qs trace) in *.
  pose proof (Factory_Open_lemma qs' _ _ f None self name (pv_factory _ _ Hp1 f Hf)) as H. rewrite Hopen in H.
  destruct H as [Hf' Hj]. destruct (Hj Hl) as (d & Hd & Hl').
  destruct (fv_log _ _ _ _ Hf' name _ Hl') as (s & Hs & Hi & _). exists (newLogStream self d), s. split_and!; [done|done|].
  pose proof (li_store _ _ _ Hi) as Ho. destruct (fv_handle _ _ _ _ Hf' _ _ Hs) as [_ Hhandle].
  pose proof (opened_clear (db', s) _ d (ex_intro _ _ Ho) Hd Hlimit) as Hclear.
  pose proof (drain_consume newReceipt visits Hv clock count (db', s) (newLogStream self d) g Hclear eq_refl Hcount) as Hdrain.
  pose proof (consume_clear newReceipt visits Hv store_commit store_commit_completes_lemma clock count (db', s) d g Hclear Hcount
    (pending_bound (db', s) _ clock Ho Hfuel)) as Hcons. cbn [l_dispatcher newLogStream] in Hdrain.
  destruct (consume _ _ _ _ _ _ _ _) as [[[w1 d1] records] outcome]. destruct Hdrain as (l1 & ds & -> & Hcontent & _).
  destruct Hcons as [Hcons Hout]. rewrite Hcontent. destruct outcome as [|e|]; [| |done].
  - left. split_and!; [done| |done]. f_equal. by eapply (consumed_all (db', s)).
  - right. split.
    + exists e. split; [done|]. apply store_consumer_error; [done|by rewrite Hhandle].
    + destruct (consumed_prefix (db', s) w1 _ records Ho Hcons) as [rest ->]. rewrite fmap_app. by eexists.
Qed.

(** ** A history with a crash

    Three records are written and one of them is committed, two are leased when
    the process ends. *)

Definition advance {B : Badger} (p : process) (ev : event) : process :=
  match process_exec p ev with Some (p', _) => p' | None => p end.

Lemma run_ok_advance {B : Badger} {BS : BadgerSpec B} p ev evs :
  event_ok p ev → match process_exec p ev with Some _ => True | None => False end → run_ok (advance p ev) evs →
  run_ok p (ev :: evs).
Proof. intros Hev Hsome Hok. split; [done|]. unfold advance in Hok. by destruct (process_exec p ev) as [[p' r]|]. Qed.

Definition demo_p0 : process := {| pr_maps := ∅; pr_db := (∅ : DB); pr_factory := None |}.
Definition demo_new_on (db : DB) : event := EvNew (λ _, Ok db) [("orders", demo_override)] demo_options.1 demo_options.2.

Definition demo_ev1 : event := demo_new_on ∅.
Definition demo_p1 : process := advance demo_p0 demo_ev1.
Definition demo_ev2 : event := EvOpen None 7 "orders".
Definition demo_p2 : process := advance demo_p1 demo_ev2.
Definition demo_ev3 : event := EvLog None "orders" (OBatchWrite demo_payloads 7).
Definition demo_p3 : process := advance demo_p2 demo_ev3.

Definition demo_handle (p : process) : option (store_log * logStream) :=
  f ← pr_factory p; l ← fa_logs f !! "orders"; s ← root_streams (fa_root f) !! "orders"; Some ((pr_db p, s), l).
Definition demo_log_of (p : process) : store_log := match demo_handle p with Some (w, _) => w | None => demo_w end.
Definition demo_d_of (p : process) : Dispatcher :=
  match demo_handle p with Some (_, l) => l_dispatcher l | None => demo_new end.

Lemma demo_handle_eq p f l s :
  pr_factory p = Some f → fa_logs f !! "orders" = Some l → root_streams (fa_root f) !! "orders" = Some s →
  demo_handle p = Some ((pr_db p, s), l).
Proof. unfold demo_handle. by intros -> Hl Hs; cbn; rewrite Hl; cbn; rewrite Hs. Qed.

Definition demo_reads : option (Dispatcher * list Receipt * res (list Dispatch.Delivery)) :=
  Read_turns list_receipt demo_visits [(100, 100, 100, WaitContext deadline)] 2 (demo_log_of demo_p3) (demo_d_of demo_p3)
    [[x01]; [x02]].
Definition demo_ev4 : event :=
  EvLog None "orders" (ORead 2 (λ d, match demo_reads with Some (d', _, r) => (d', r) | None => (d, Err deadline) end)).
Definition demo_p4 : process := advance demo_p3 demo_ev4.
Definition demo_got : list Delivery :=
  match process_exec demo_p3 demo_ev4 with Some (_, Ok (RDeliveries ds)) => ds | _ => [] end.
Definition demo_ev5 : event :=
  EvLog None "orders" (OCommit {| e_now := 101; e_visits := demo_visits (demo_d_of demo_p4) |} (take 1 demo_got)).
Definition demo_p5 : process := advance demo_p4 demo_ev5.
Definition demo_ev6 : event := demo_new_on (pr_db demo_p5).
Definition demo_p6 : process := advance demo_p5 demo_ev6.
Definition demo_evs : list event := [demo_ev1; demo_ev2; demo_ev3; demo_ev4; demo_ev5; demo_ev6].

Lemma demo_p0_inv : process_inv ∅ demo_p0.
Proof. split; [|done]. intros name _. apply represents_empty. Qed.

Lemma demo_new_ok p : event_ok p (demo_new_on (pr_db p)).
Proof. split; [by intros opts db [= <-]|]. vm_compute. reflexivity. Qed.

Lemma demo_ev4_ok : event_ok demo_p3 demo_ev4.
Proof.
  intros f l s Hf Hl Hs. cbn [demo_ev4 op_ok]. pose proof (demo_handle_eq _ _ _ _ Hf Hl Hs) as Hh.
  assert (Hw : demo_log_of demo_p3 = (pr_db demo_p3, s)) by (unfold demo_log_of; by rewrite Hh).
  assert (Hd : demo_d_of demo_p3 = l_dispatcher l) by (unfold demo_d_of; by rewrite Hh).
  assert (Hok : match demo_reads with Some _ => True | None => False end) by (vm_compute; exact I).
  unfold Read_returns. rewrite <- Hw, <- Hd.
  destruct demo_reads as [[[d' g'] r]|] eqn:E; [|destruct Hok].
  eexists _, list_receipt, demo_visits, _, _, g'. split; [exact demo_visits_range|exact E].
Qed.

Lemma demo_ev5_ok : event_ok demo_p4 demo_ev5.
Proof.
  intros f l s Hf Hl Hs. cbn [demo_ev5 op_ok e_visits].
  replace (l_dispatcher l) with (demo_d_of demo_p4); [apply demo_visits_range|].
  unfold demo_d_of. by rewrite (demo_handle_eq _ _ _ _ Hf Hl Hs).
Qed.

Lemma demo_run_ok : run_ok demo_p0 demo_evs.
Proof.
  apply run_ok_advance; [exact (demo_new_ok demo_p0)|vm_compute; exact I|].
  apply (run_ok_advance demo_p1); [exact I|vm_compute; exact I|].
  apply (run_ok_advance demo_p2); [by intros ? ? ? _ _ _|vm_compute; exact I|].
  apply (run_ok_advance demo_p3); [exact demo_ev4_ok|vm_compute; exact I|].
  apply (run_ok_advance demo_p4); [exact demo_ev5_ok|vm_compute; exact I|].
  apply (run_ok_advance demo_p5); [exact (demo_new_ok demo_p5)|vm_compute; exact I|exact I].
Qed.

(** The first record was committed, the two others are still to be delivered. *)
Lemma process_history_refines_witness :
  match process_run demo_p0 demo_evs with
  | Some (_, trace) => r_Payload <$> all_records (queue_of (trace_effect ∅ trace) "orders") = drop 1 demo_payloads
                       ∧ answers ∅ trace
  | None => False
  end.
Proof.
  assert (Hok : match process_run demo_p0 demo_evs with
    | Some (_, trace) => r_Payload <$> all_records (queue_of (trace_effect ∅ trace) "orders") = drop 1 demo_payloads
    | None => False end) by (vm_compute; reflexivity).
  destruct (process_history_refines ∅ demo_p0 demo_evs demo_p0_inv demo_run_ok) as (p' & trace & Hrun & _ & Hanswers).
  rewrite Hrun in Hok |- *. split; [exact Hok|exact Hanswers].
Defined.

Definition demo_drain (db' : DB) (f' : factory) : list Delivery * option goerr :=
  match fa_logs f' !! "orders", root_streams (fa_root f') !! "orders" with
  | Some l, Some s =>
      let '(_, _, ds, err) := drain list_receipt demo_visits [200; 201; 202] 1 (db', s) l [[x03]; [x04]; [x05]] in (ds, err)
  | _, _ => ([], None)
  end.

Lemma at_least_once_witness :
  match process_run demo_p0 demo_evs with
  | Some (p', trace) =>
      match pr_factory p' with
      | Some f =>
          match Factory_Open (pr_maps p') None 8 "orders" (pr_db p') f with
          | (db', f', Ok _) =>
              (demo_drain db' f').2 = Some deadline
              ∧ (delivery_content <$> (demo_drain db' f').1) `prefix_of`
                (record_content <$> all_records (queue_of (trace_effect ∅ trace) "orders"))
              ∧ td_Payload <$> (demo_drain db' f').1 = drop 1 demo_payloads
          | _ => False
          end
      | None => False
      end
  | None => False
  end.
Proof.
  assert (Hok : match process_run demo_p0 demo_evs with
    | Some (p', trace) =>
        match pr_factory p' with
        | Some f =>
            match Factory_Open (pr_maps p') None 8 "orders" (pr_db p') f with
            | (db', f', Ok _) =>
                ((demo_drain db' f').2 = Some deadline ∧ td_Payload <$> (demo_drain db' f').1 = drop 1 demo_payloads)
                ∧ fa_logs f !! "orders" = None ∧ limit_fits (dispatch_config (log_config (pr_maps p') (fa_options f) "orders"))
                ∧ (size (q_pending (queue_of (trace_effect ∅ trace) "orders")) < length [200; 201; 202])%nat
            | _ => False
            end
        | None => False
        end
    | None => False
    end).
  { vm_compute. split_and!; try reflexivity. intros H; discriminate H. }
  destruct (process_run demo_p0 demo_evs) as [[p' trace]|] eqn:Hrun; [|destruct Hok].
  destruct (pr_factory p') as [f|] eqn:Hf; [|destruct Hok].
  destruct (Factory_Open _ _ _ _ _ _) as [[db' f'] [n|e]] eqn:Hopen; [|destruct Hok].
  destruct Hok as ([He Hp] & Hnone & Hlimit & Hfuel). split; [exact He|]. split; [|exact Hp].
  destruct (at_least_once list_receipt demo_visits ∅ demo_p0 p' demo_evs trace f f' 8 "orders" n db' [200; 201; 202] 1
    [[x03]; [x04]; [x05]] demo_p0_inv demo_run_ok Hrun Hf Hnone Hopen Hlimit demo_visits_range eq_refl Hfuel) as (l & s & Hl & Hs & H).
  unfold demo_drain in *. rewrite Hl, Hs in *. destruct (drain _ _ _ _ _ _ _) as [[[w' l'] ds] [e|]]; [|destruct H].
  destruct H as [(_ & Hc & _)|[_ Hc]]; [|exact Hc]. cbn [fst]. rewrite Hc. reflexivity.
Defined.
