(* ===== verification/TypedTheorems.v ===== *)
(** * What a typed log writes is what it reads

    The typed wrapper over the whole stack, with an instance on the in-memory
    store. *)
From S2P Require Import Prelude Errors Keys Badger BadgerMem Store StoreSpec StoreRefine StoreHistory.
From S2P Require Import StoreTheorems DispatchTheorems Dispatch DispatchInv DispatchOps Queue QueueInv StoreLog QueueTheorems ReadRun.
From S2P Require Import Consumer ConsumerTheorems Log LogRefine LogConsumer Factory Typed.
From Stdlib Require Import Strings.Byte.
#[local] Open Scope Z_scope.

(** ** Pages *)

Lemma decode_all {T : Type} (codec : Codec T) (index : Z) (values : list T) (ds : list Delivery) :
  Forall2 (λ value dl, safeDecode codec (td_Payload dl) = Ok value) values ds →
  decode_loop codec td_Payload typed_delivery index ds = inl (zip_with typed_delivery values ds).
Proof.
  intros H. revert index. induction H as [|value dl values ds Hd _ IH]; intros index; [done|].
  cbn [decode_loop zip_with]. by rewrite Hd, IH.
Qed.

Lemma zip_typed_values {T : Type} (values : list T) (ds : list Delivery) :
  length values = length ds →
  yd_Value <$> zip_with typed_delivery values ds = values
  ∧ yd_Position <$> zip_with typed_delivery values ds = td_Position <$> ds.
Proof.
  revert ds. induction values as [|v values IH]; intros [|dl ds] Hl; try done. cbn. injection Hl as Hl.
  destruct (IH ds Hl) as [H1 H2]. by rewrite <- H1 at 2; rewrite <- H2.
Qed.

Section write.
Context {B : Badger} {BS : BadgerSpec B}.

(** The byte log's [BatchWrite] on the store and the log. *)
Definition byte_BatchWrite (now : Z) (data : list bytes) (state : store_log * logStream)
    : (store_log * logStream) * res (list Position) :=
  let '(w, l, r) := Log_BatchWrite None data now state.1 state.2 in ((w, l), r).

Lemma Log_BatchWrite_dispatcher ctx data now (w : store_log) l :
  let '(_, l', _) := Log_BatchWrite ctx data now w l in
  (l_dispatcher l' = l_dispatcher l ∨ l_dispatcher l' = Notify (l_dispatcher l)) ∧ l_closing l' = l_closing l.
Proof.
  unfold Log_BatchWrite, call, begin. destruct (checkContext ctx); [by split; [left|]|].
  destruct (l_closing l) eqn:Hc; [by split; [left|]|].
  destruct (AppendBatch _ _ _ _) as [[db s] [records|e]]; cbn; [|by split; [left|]].
  destruct (0 <? len records); cbn; (split; [|done]); [by right|by left].
Qed.

Lemma clear_notified (w w' : store_log) d d' :
  clear w d → alone w' d' → d' = d ∨ d' = Notify d → clear w' d'.
Proof. intros [_ H1 H2 H3 H4 H5] Ha [->| ->]; by split. Qed.
End write.

(** What a byte log delivered of the records that hold encoded values is read as
    those values. *)
Lemma delivered_decodes {T : Type} (codec : Codec T) (values : list T) (data : list bytes) (T0 now : Z)
    (ds : list Delivery) (records : list StoreRecord) :
  (∀ value bs, safeEncode codec value = Ok bs → safeDecode codec bs = Ok value) →
  Forall2 (λ value bs, safeEncode codec value = Ok bs) values data →
  records `prefix_of` appended_records T0 now data → delivery_content <$> ds = record_content <$> records →
  ∃ decoded, Typed_Read codec (Ok ds) = Ok decoded
    ∧ yd_Value <$> decoded = take (length ds) values
    ∧ yd_Position <$> decoded = take (length ds) (positions T0 (length data)).
Proof.
  intros Hcodec Henc [rest Happ] Hcontent. destruct (content_fields _ _ Hcontent) as [Hpay Hpos].
  assert (Hlen : length records = length ds) by (by rewrite <- (length_fmap record_content), <- Hcontent, length_fmap).
  assert (Hdata : td_Payload <$> ds = take (length ds) data).
  { rewrite Hpay, <- (appended_records_payloads T0 now data), Happ, fmap_app, take_app_length'; [done|].
    by rewrite length_fmap. }
  assert (Hps : td_Position <$> ds = take (length ds) (positions T0 (length data))).
  { rewrite Hpos, <- (positions_appended T0 now data), Happ, fmap_app, take_app_length'; [done|]. by rewrite length_fmap. }
  apply (Forall2_take _ _ _ (length ds)) in Henc. rewrite <- Hdata in Henc. apply Forall2_fmap_r in Henc.
  pose proof (Forall2_length _ _ _ Henc) as Hl. destruct (zip_typed_values _ _ Hl) as [H1 H2].
  exists (zip_with typed_delivery (take (length ds) values) ds). unfold Typed_Read, decode_page. rewrite (decode_all codec 0 (take (length ds) values) ds).
  - by rewrite H1, H2.
  - eapply Forall2_impl; [exact Henc|]. intros v dl. apply Hcodec.
Qed.

(** C12. What a typed log writes is what it reads.  With a codec that decodes what
    it encoded, a typed [BatchWrite] on an empty log is read back by a consumer
    that runs alone on the new log, with a limit that does not overflow
    ([limit_fits]), as the same values, in order, once, under the positions that
    [BatchWrite] returned, through the codec, the envelope, the database, the
    dispatcher and the facade.  When the consumer ends early, with the error that
    an operation of this run returned ([stopped_by]), what it read are the first
    of the values, under their positions.  When [BatchWrite] fails, nothing was
    written. *)
Theorem typed_written_is_read {B : Badger} {BS : BadgerSpec B} {T Rng : Type} (codec : Codec T)
    (newReceipt : Rng → res Receipt * Rng) (visits : Dispatcher → list (Receipt * flight)) (w : store_log) (q : queue)
    (self : nat) (config : Config) (d : Dispatcher) (values : list T) (now : Z) (clock : list Z) (count : Z) (g : Rng) :
  (∀ value data, safeEncode codec value = Ok data → safeDecode codec data = Ok value) →
  opened w.1 w.2 q → s_beforeCommit w.2 = None → q_pending q = ∅ → is_i64 now →
  New false config = Ok d → limit_fits config → (∀ d, range_of (visits d) d) → 0 < count →
  (length values < length clock)%nat →
  match Typed_BatchWrite codec (byte_BatchWrite now) values (w, newLogStream self d) with
  | ((w1, l1), Ok positions) =>
      match drain newReceipt visits clock count w1 l1 g with
      | (w2, _, ds, Some e) =>
          ∃ decoded, Typed_Read codec (Ok ds) = Ok decoded
            ∧ (e = deadline ∧ yd_Value <$> decoded = values ∧ yd_Position <$> decoded = positions
               ∨ (∃ err, e = map_err err ∧ stopped_by newReceipt w1 w2 err)
                 ∧ (yd_Value <$> decoded) `prefix_of` values ∧ (yd_Position <$> decoded) `prefix_of` positions)
      | (_, _, _, None) => False
      end
  | ((w1, _), Err _) => ∀ seq, ¬ log_pending w1 seq
  end.
Proof.
  intros Hcodec Ho Hhook Hq Hnow HN Hl Hv Hcount Hfuel. set (l := newLogStream self d).
  pose proof (opened_clear w config d (ex_intro _ _ Ho) HN Hl) as Hclear.
  assert (Hi : log_inv q w l) by (split; [done|apply Hclear]).
  assert (Hnone : ∀ w1, opened w1.1 w1.2 q → ∀ seq, ¬ log_pending w1 seq).
  { intros w1 Ho1 seq Hs. apply (opened_pending w1 q seq Ho1) in Hs. rewrite Hq, lookup_empty in Hs. by destruct Hs. }
  unfold Typed_BatchWrite. pose proof (encode_all_lemma codec values) as Henc.
  destruct (encode_all codec values) as [data|e]; [|by apply Hnone].
  unfold byte_BatchWrite. cbn [fst snd].
  pose proof (BatchWrite_refines_log None data now q w l Hi Hnow) as Hcall.
  pose proof (Log_BatchWrite_dispatcher None data now w l) as Hdisp.
  destruct (Log_BatchWrite None data now w l) as [[w1 l1] [ps|e]].
  2: { destruct Hcall as [(? & ? & _)|[(_ & ? & _)|(_ & _ & Hi1 & _)]]; [done|done|]. apply Hnone, Hi1. }
  destruct Hcall as [(? & ? & _)|[(_ & ? & _)|(_ & _ & Hi1 & Hos & _ & _ & _ & ->)]]; [done|done|].
  pose proof (li_store _ _ _ Hi1) as Ho1. destruct Hdisp as [Hdisp Hclosing].
  pose proof (clear_notified w w1 d _ Hclear (li_alone _ _ _ Hi1) Hdisp) as Hclear1.
  assert (Hwf : queue_wf (q_append now data q)) by (destruct Ho1 as (_ & Hr & _); apply Hr).
  pose proof (appended_all q now data Hwf Hq) as Hall. pose proof (Forall2_length _ _ _ Henc) as Hlen.
  assert (Hsize : (size (q_pending (q_append now data q)) < length clock)%nat).
  { rewrite (all_records_length _ Hwf), Hall, <- (length_fmap r_Payload), appended_records_payloads. lia. }
  pose proof (drain_consume newReceipt visits Hv clock count w1 l1 g Hclear1 Hclosing Hcount) as Hdrain.
  pose proof (consume_clear newReceipt visits Hv store_commit store_commit_completes_lemma clock count w1 _ g Hclear1 Hcount
    (pending_bound w1 _ clock Ho1 Hsize)) as Hcons.
  destruct (consume _ _ _ _ _ _ _ _) as [[[w2 d2] records] outcome]. destruct Hdrain as (l2 & ds & -> & Hcontent & _).
  destruct Hcons as [Hcons Hout]. pose proof (consumed_prefix w1 w2 _ records Ho1 Hcons) as Hpre. rewrite Hall in Hpre.
  destruct (delivered_decodes codec values data _ now ds records Hcodec Henc Hpre Hcontent) as (decoded & Hread & Hvals & Hpos).
  destruct outcome as [|e|]; [| |done]; exists decoded; (split; [done|]).
  - left. pose proof (consumed_all w1 w2 _ records Ho1 Hcons Hout) as ->. rewrite Hall in Hcontent.
    apply (f_equal length) in Hcontent. rewrite !length_fmap, <- (length_fmap r_Payload), appended_records_payloads in Hcontent.
    rewrite Hvals, Hpos, Hcontent, !take_ge; [done|unfold positions; rewrite length_fmap, length_seq; lia|lia].
  - right. rewrite Hvals, Hpos. split_and!; [|by apply prefix_take..]. exists e. split; [done|].
    apply store_consumer_error; [done|]. by rewrite (os_handle _ _ Hos).
Qed.

(** 64-bit integers as eight bytes. *)
Definition demo_codec : Codec Z := {|
  Encode value := Returned (if (0 <=? value) && (value <? 2 ^ 64) then Ok (be_encode 8 value) else Err (NewError "range"));
  Decode data := Returned (Ok (be_decode data))
|}.

Lemma demo_codec_ok value data : safeEncode demo_codec value = Ok data → safeDecode demo_codec data = Ok value.
Proof.
  unfold safeEncode, safeDecode. cbn -[be_encode]. case_match eqn:E; [|done]. intros [= <-]. zbool.
  by rewrite be_decode_encode.
Qed.

Definition demo_values : list Z := [10; 20; 30].
Definition demo_written : (store_log * logStream) * res (list Position) :=
  Typed_BatchWrite demo_codec (byte_BatchWrite 7) demo_values (((∅ : DB), demo_stream) : store_log, newLogStream 7 demo_new).
Definition demo_typed_drain (written : (store_log * logStream) * res (list Position))
    : store_log * logStream * list Delivery * option goerr :=
  drain list_receipt demo_visits [100; 101; 102; 103] 2 written.1.1 written.1.2 [[x01]; [x02]; [x03]].

Lemma typed_written_is_read_witness :
  demo_written.2 = Ok (positions 0 3)
  ∧ match Typed_Read demo_codec (Ok (demo_typed_drain demo_written).1.2) with
    | Ok decoded => yd_Value <$> decoded = demo_values
    | Err _ => False
    end.
Proof.
  assert (Hw : demo_written.2 = Ok (positions 0 3)) by (vm_compute; reflexivity).
  assert (Hok : (demo_typed_drain demo_written).2 = Some deadline) by (vm_compute; reflexivity).
  split; [exact Hw|].
  pose proof (typed_written_is_read demo_codec list_receipt demo_visits (((∅ : DB), demo_stream) : store_log) empty_queue 7 demo_config
    demo_new demo_values 7 [100; 101; 102; 103] 2 [[x01]; [x02]; [x03]] demo_codec_ok demo_opened0 eq_refl eq_refl demo_now
    demo_New demo_limit demo_visits_range demo_count ltac:(cbn; lia)) as H.
  fold demo_written in H. destruct demo_written as [written r] eqn:E. destruct written as [w1 l1].
  destruct r as [ps|e]; [|discriminate Hw].
  change (drain list_receipt demo_visits [100; 101; 102; 103] 2 w1 l1 [[x01]; [x02]; [x03]])
    with (demo_typed_drain ((w1, l1), Ok ps)) in H. clear E Hw.
  destruct (demo_typed_drain ((w1, l1), Ok ps)) as [[[w2 l2] ds] [e|]]; [|destruct H]. cbn [fst snd] in Hok |- *.
  destruct H as (decoded & -> & [(_ & Hv & _)|((err & He & _ & Hstop) & _)]); [exact Hv|].
  apply (inj Some) in Hok. destruct Hstop as [(d & g & cause & _ & ->)|(e' & [] & _)].
  rewrite He in Hok. by apply map_err_Errorf in Hok.
Defined.
